(* ===== verification/_CoqProject ===== *)
-Q . S2P
Prelude.v
Codec.v
External.v
Primitives.v
Membership.v
Graph.v
Ancestry.v
Reach.v
Order.v
Fame.v
Insert.v
Wf.v
Quorum.v
Store.v
Rounds.v
OrderFacts.v
Voting.v
Reachable.v
Demo.v
Finality.v
Agreement.v
Ballots.v
ForkFree.v
VotePairs.v
OrderAgreement.v
AgreementDemo.v
Retain.v
Reconnect.v
RetainFacts.v
ConsensusProps.v
AgreementProps.v
Checkpoint.v
CheckpointFacts.v
CheckpointWindow.v
CheckpointQuorum.v
CheckpointProps.v
EventLog.v
EventLogFacts.v
EventLogProps.v
Proto.v
ProtoFacts.v
Kahn.v
Frontier.v
FrontierFacts.v
Sync.v
SyncFacts.v
GossipProps.v
CodecProps.v
MerkleLog.v
MerkleLogFacts.v
SparseMerkle.v
SparseMerkleFacts.v
LogProps.v
Did.v
Actor.v
DidFacts.v
Op.v
State.v
Executor.v
StateFacts.v
Ledger.v
LedgerFacts.v
ExecutorFacts.v
LedgerDemo.v
LedgerProps.v
Node.v
NodeFacts.v
NodeAccept.v
Recovery.v
Rebuild.v
RecoveryFacts.v
NodeProps.v
Stream.v
StreamFacts.v
StreamRecords.v
Mirror.v
MirrorFacts.v
MirrorSafety.v
StreamDemo.v
StreamProps.v
