(* ===== verification/Prelude.v ===== *)
(** * JKaIN consensus node: verification development

    ** The program

    The repository is a replicated ledger.  Members gossip signed events; each
    node stores them in a hashgraph ([consensus-node/protocol/consensus]),
    derives rounds, witnesses and fame by virtual voting, and from them a total
    order of the events ([round_received], median timestamp, tie-break).  The
    ordered transactions are executed on an authenticated key-value state
    ([consensus-node/executor/state]): plain writes, membership changes and the
    DID and actor operations, whose per-DID list of sub-actors is an RFC 6962
    log.  Membership is a registry of keys per round
    ([consensus-node/protocol/crypto]).  A decided round is committed to by a
    checkpoint that members sign; a quorum of signatures makes it final.  The
    gossip node ([protocol/gossip]) exchanges events and signatures, drives
    execution and checkpoints, and lets a node that fell behind reconnect from
    a signed checkpoint; a durable event log ([protocol/storage]) and
    [node/src/restart.rs] do the same after a crash.  The stream writers
    ([protocol/stream]) put events and executed rounds into chained files, and
    the Go mirror node ([mirror-node]) verifies and stores them.

    ** How it is modelled

    Every function is a shallow embedding of the Rust function of the same
    name.  [u64] values are [N] with their wrap-around written out
    ([u64_wrapping_add]; the release profile wraps, and the theorems show the
    wrap is not reached), [usize] indices are [nat], byte strings are
    [list byte], [BTreeMap] and [HashMap] are [gmap], iterated in key order
    ([bt_entries]) or in an arbitrary order given by the class [HashOrder].
    [Result] is [res E A] with [Ok], [Err] and [Crash], the last for a panic or
    exhausted fuel; [&mut self] methods are [stM S E A], state-passing functions
    that return the state also when they fail.  Go functions that return an
    error are modelled in the same way.  Third-party code is a class parameter
    with its documented laws: [Sha256], [Ed25519], [Bls] ([External]), the
    key-value store [Fjall] ([State]; [Durable] says that its writes succeed),
    the database of the event log [LogDb] ([EventLog]), the generated message
    codecs [Protobuf], key generation [BlsKeygen] and the outcome of a file
    write [Disk] ([Stream]), the Go cryptography [GoCrypto] with its agreement
    with the Rust one [SameCrypto], and the commits of PostgreSQL [Postgres]
    ([Mirror]).  Each has a concrete instance on which the examples evaluate.
    [Store] ([Mirror]) is the interface of the two stores of the mirror.

    ** The files

    - [Prelude]: bytes, machine integers, [res] and [stM] with the tactic
      [st_inv], hash-map order, sorted map entries, supermajority.
    - [Codec]: cursor readers ([take_exact], ...) and the laws [decodes],
      [parses], [never_panics], [yields] with their tactics.
    - [External]: SHA-256, Ed25519 and BLS.
    - [Primitives]: [primitives/src/event.rs], [crypto/src/canonical_impls.rs],
      [hashable_impls.rs], [signable_impls.rs].
    - [Membership]: [crypto/src/membership.rs] (Module [Registry]) and
      [roster.rs] (Modules [Roster], [MemOp]) with their facts.
    - [Graph]: the [Hashgraph] and [EventRecord] structs of
      [consensus/src/hashgraph.rs], accessors and single-field writers.
    - [Ancestry]: [ancestry.rs]; [Order]: [order.rs] and the round bookkeeping
      of [hashgraph.rs]; [Fame]: [fame.rs]; [Insert]: [round.rs], [insert] and
      [add_member]; [Retain]: [from_checkpoint], [insert_accepted],
      [mark_decided_through], [prune_before_round].
    - [Reach]: what the searches compute; [Wf]: the structural invariant
      [graph_wf]; [Quorum]: strongly seeing as a quorum; [Store]: storing an
      event keeps [graph_wf]; [Rounds]: the round invariant [rounds_wf];
      [OrderFacts]: medians, first-seen times and the order; [Voting]: voting
      and ordering never fail; [Reachable]: the states reachable from genesis;
      [Finality]: decisions are never revised; [Agreement]: two nodes compute
      the same rounds; [Ballots]: the recursive definition of the virtual vote
      ([virtual_vote]) and the invariant [tracked] that the memoised votes,
      fame and order agree with it; [ForkFree]: what holds without forks;
      [VotePairs], [OrderAgreement]: votes, fame and order of two nodes side by
      side; [RetainFacts]: pruning and retained events.
    - [Checkpoint]: [consensus/src/checkpoint.rs], the signed-checkpoint codec
      of [reconnect.rs], [crypto/src/bls.rs]; [Reconnect]: the other codecs of
      [reconnect.rs]; [CheckpointFacts], [CheckpointWindow],
      [CheckpointQuorum]: Merkle roots, what a payload depends on, quorums.
    - [EventLog], [EventLogFacts]: [storage/src/event_log.rs] and the list of
      records it represents.
    - [Proto], [ProtoFacts]: [gossip/src/proto.rs]; [Kahn]: the topological
      sort that two files share; [Frontier], [FrontierFacts]: [frontier.rs];
      [Sync], [SyncFacts]: [sync.rs].
    - [Node], [NodeFacts], [NodeAccept]: the state and the handlers of
      [gossip/src/node.rs]; [Recovery], [Rebuild], [RecoveryFacts]:
      reconnect and restart ([node.rs], [gossip/src/reconnect.rs],
      [node/src/restart.rs]).
    - [Stream], [StreamFacts], [StreamRecords]: the messages of
      [proto/jkain_stream.proto] and [protocol/stream]; Modules [EventDir] and
      [RecordDir] relate a directory to the list of files written to it.
    - [Mirror], [MirrorFacts], [MirrorSafety]: [mirror-node/internal/stream],
      [ingest] and [store]; the agreement of the Go code with the node, and
      what accepted files satisfy.
    - [MerkleLog], [MerkleLogFacts]: [merkle_log.rs].
    - [SparseMerkle], [SparseMerkleFacts]: [merkle.rs].
    - [Did]: [did.rs]; [Actor]: [root_actor.rs] and [sub_actor.rs]; [DidFacts]:
      the formats of both; [Op]: [op.rs]; [State], [StateFacts]: [state.rs] and
      [state_db.rs]; [Executor], [ExecutorFacts]: [executor.rs].
    - [Ledger]: an abstract ledger (the relation [ledger_step] on the stored
      entries) and the proof that the executor refines it; [LedgerFacts]: the
      invariants of the ledger.
    - [Demo], [AgreementDemo], [LedgerDemo], [StreamDemo]: concrete histories on
      which theorems are evaluated.
    - [ConsensusProps], [AgreementProps], [CheckpointProps], [EventLogProps],
      [GossipProps], [CodecProps], [LogProps], [LedgerProps], [NodeProps],
      [StreamProps]: the properties.

    ** What is shown

    - Consensus ([ConsensusProps]): insertion is total and atomic on every
      reachable graph; [see] and [is_ancestor] decide their graph-theoretic
      meaning; two branches of a fork are never both strongly seen while fewer
      than a third of the members fork; rounds follow the round rule and two
      nodes agree on them; ordered rounds, fame and timestamps are final; the
      order is sorted, complete and independent of hash-map order; pruning
      changes nothing above its threshold.
    - Agreement ([AgreementProps]): two nodes that start from one genesis and
      insert events in any order compute the same order, received rounds and
      timestamps for every round both have ordered ([orders_agree]).  It is
      stated for runs without forks in which no election reaches a coin round
      and membership stays as at genesis ([prompt], [no_forks]); the first two
      restrictions are needed, as the examples [coin_round_splits_order] and
      [fork_splits_order] evaluate to different orders on the same events.
      Votes are the virtual votes of the paper, and the received round is the
      first one whose famous witnesses all see the event.
    - Checkpoints ([CheckpointProps]): nodes that agree on the order sign the
      same bytes; the roots bind the records, the window and the rosters; two
      verified checkpoints of a roster share more than a third of the signers.
    - Formats ([CodecProps], [CheckpointProps], [GossipProps], [LedgerProps]):
      well-formed values round-trip and decoders do not panic on arbitrary
      bytes.
    - Gossip and storage ([GossipProps], [EventLogProps]): without forks one
      sync round brings the initiator up to date; the event log refines a list
      of records, also when the database reports errors and is opened again.
    - The node ([NodeProps]): its tables stay within their bounds; a quorum of
      signatures makes it accept its checkpoint; a reconnect is refused without
      a trace or installs what the quorum signed.  Two examples show where this
      ends: a roster history that does not cover the checkpoint panics the node
      ([uncovered_history_panics]), and a node that reconnected can order later
      events differently from its teacher ([reconnect_splits_order]).
    - Streams ([StreamProps]): the event files hold every event appended, over
      refused writes, kills and restarts; the record files hold every round and
      pass the verifier; the message for a round commits to what the checkpoint
      signs.
    - The mirror ([StreamProps]): it follows a node to the last round, and
      stores only what a quorum of the configured roster signed.  It refuses
      rounds whose diffs exceed limits the node does not have
      ([mirror_diff_limits]), refuses the next round after a restart on
      PostgreSQL ([mirror_restart_stalls]), and accepts items with an event
      hash of another width ([mirror_accepts_forged_items]).
    - Commitments ([LogProps]): proofs of the log and of the sparse tree are
      complete, and sound up to an explicit SHA-256 collision; the incremental
      tree equals the recomputed one; the root binds the whole state.
    - Execution ([LedgerProps]): the executor refines the ledger; sub-actor
      logs are append-only; deactivation is final; documents and operating keys
      change only with the owner's signature; snapshots restore the state; the
      diffs are exactly the change.

    ** Bounds and fuel

    Searches get one unit of fuel per queue entry they can push
    ([bfs_fuel], [walk_fuel]), the bisection 64 (the width of a sequence
    number), the Merkle recursion the logarithm of the leaf count, voting the
    difference of rounds; each is proved to be enough, so [Crash OutOfFuel]
    never arises.  Kahn's sort has a unit per node, the levels of a padded tree
    one per leaf, the checkpoint loop one per decided round, a decimal number
    one per digit.  Counters are bounded by the number of steps from genesis
    ([step_bound]): the theorems assume fewer than 2^63 insertions.

    ** What is not modelled

    - Sockets, TLS, the HTTP control server, the command line and the node
      binary, the fan-out loop that calls the handlers of the node, and the
      block node and relay, which move files: pure I/O.
    - The choice of peers ([peer_manager.rs]): floating-point scores, the clock
      and random numbers.
    - Concurrency inside a node: a handler runs to its end before the next.
    - The temporary file and rename behind a file write ([atomic.rs]): its
      outcomes are the class [Disk].  The depth counter and the degraded flag
      of the queues of the stream writers.
    - Of the mirror: the ingest of files fetched over HTTP, the API,
      checkpoint files, and reading events back.
    - The execution node, a WebAssembly host over third-party code.
    - Key derivation ([derive.rs]), which serves client tools; timing and metric
      counters, which are only written; log messages and the texts of errors. *)

From Stdlib Require Export NArith Lia.
From Stdlib Require Export Strings.Byte.
From stdpp Require Export strings gmap sorting numbers list.

Declare Scope jx_scope.
Delimit Scope jx_scope with jx.

#[global] Arguments Nat.div : simpl never.
#[global] Arguments Nat.modulo : simpl never.

(** ** Bytes *)

#[export] Instance byte_eq_dec : EqDecision Byte.byte := Byte.byte_eq_dec.

#[export] Instance byte_countable : Countable Byte.byte.
Proof.
  refine (inj_countable Byte.to_N Byte.of_N _).
  intros b. apply Byte.of_to_N.
Defined.

#[export] Instance byte_inhabited : Inhabited Byte.byte := populate x00.

Abbreviation byte := Byte.byte.
Abbreviation bytes := (list Byte.byte).

(** [n as u8]: the low eight bits of a number. *)
Definition byte_of_N (n : N) : byte := default x00 (Byte.of_N (n `mod` 256)%N).

Lemma to_N_byte_of_N n : Byte.to_N (byte_of_N n) = (n `mod` 256)%N.
Proof.
  unfold byte_of_N. destruct (Byte.of_N (n `mod` 256)%N) as [b|] eqn:E; simpl.
  - by apply Byte.to_of_N.
  - apply Byte.of_N_None_iff in E. pose proof (N.mod_lt n 256). lia.
Qed.

Lemma to_N_lt (b : byte) : (Byte.to_N b < 256)%N.
Proof. pose proof (Byte.to_N_bounded b). lia. Qed.

#[export] Instance to_N_inj : Inj (=) (=) Byte.to_N.
Proof.
  intros b1 b2 E. apply (f_equal Byte.of_N) in E.
  rewrite !Byte.of_to_N in E. by simplify_eq.
Qed.

Lemma byte_of_N_to_N b : byte_of_N (Byte.to_N b) = b.
Proof.
  apply (inj Byte.to_N). rewrite to_N_byte_of_N.
  apply N.mod_small, to_N_lt.
Qed.

(** ** Big-endian integers ([to_be_bytes], [from_be_bytes]) *)

Definition of_be (l : bytes) : N := foldl (λ acc b, 256 * acc + Byte.to_N b)%N 0%N l.

Fixpoint be_bytes (w : nat) (n : N) : bytes :=
  match w with
  | O => []
  | S w => be_bytes w (n `div` 256)%N ++ [byte_of_N n]
  end.

Lemma of_be_snoc l b : of_be (l ++ [b]) = (256 * of_be l + Byte.to_N b)%N.
Proof. unfold of_be. by rewrite foldl_app. Qed.

Lemma length_be_bytes w n : length (be_bytes w n) = w.
Proof. revert n. induction w; intros n; simpl; rewrite ?length_app, ?IHw; simpl; lia. Qed.

Lemma of_be_be_bytes w n : (n < 256 ^ N.of_nat w)%N → of_be (be_bytes w n) = n.
Proof.
  revert n. induction w as [|w IH]; intros n Hn; simpl.
  - unfold of_be; simpl. change (256 ^ N.of_nat 0)%N with 1%N in Hn. lia.
  - rewrite of_be_snoc, to_N_byte_of_N, IH.
    + pose proof (N.div_mod n 256). lia.
    + apply N.Div0.div_lt_upper_bound.
      replace (N.of_nat (S w)) with (N.succ (N.of_nat w)) in Hn by lia.
      rewrite N.pow_succ_r in Hn by lia. lia.
Qed.

Lemma of_be_lt l : (of_be l < 256 ^ N.of_nat (length l))%N.
Proof.
  induction l as [|b l IH] using rev_ind; [done|].
  rewrite of_be_snoc, length_app; simpl.
  replace (N.of_nat (length l + 1)) with (N.succ (N.of_nat (length l))) by lia.
  rewrite N.pow_succ_r by lia. pose proof (to_N_lt b). lia.
Qed.

Lemma be_bytes_of_be l : be_bytes (length l) (of_be l) = l.
Proof.
  induction l as [|b l IH] using rev_ind; [done|].
  rewrite length_app, Nat.add_comm; simpl. rewrite of_be_snoc.
  pose proof (to_N_lt b). f_equal.
  - replace ((256 * of_be l + to_N b) `div` 256)%N with (of_be l); [done|].
    apply N.div_unique with (Byte.to_N b); lia.
  - f_equal. apply (inj Byte.to_N). rewrite to_N_byte_of_N.
    rewrite N.mul_comm, N.add_comm, N.Div0.mod_add. by apply N.mod_small.
Qed.

Lemma be_bytes_inj w n m :
  (n < 256 ^ N.of_nat w)%N → (m < 256 ^ N.of_nat w)%N →
  be_bytes w n = be_bytes w m → n = m.
Proof.
  intros Hn Hm E. rewrite <- (of_be_be_bytes w n), <- (of_be_be_bytes w m) by done.
  by rewrite E.
Qed.

#[global] Opaque be_bytes of_be.

(** ** Machine widths *)

Definition u32_modulus : N := 2 ^ 32.
Definition u64_modulus : N := 2 ^ 64.
Definition u64_max : N := u64_modulus - 1.

Definition is_u32 (n : N) : Prop := (n < u32_modulus)%N.
Definition is_u64 (n : N) : Prop := (n < u64_modulus)%N.

(** [a + b] on [u64] in a release build: two's-complement wrap-around. *)
Definition u64_wrapping_add (a b : N) : N := ((a + b) `mod` u64_modulus)%N.
Definition u64_wrapping_sub (a b : N) : N := ((a + u64_modulus - b) `mod` u64_modulus)%N.
Definition u64_checked_add (a b : N) : option N :=
  if decide (a + b < u64_modulus)%N then Some (a + b)%N else None.
Definition u64_saturating_add (a b : N) : N := N.min (a + b)%N u64_max.

Lemma u64_wrapping_sub_small a b :
  (b ≤ a)%N → is_u64 a → u64_wrapping_sub a b = (a - b)%N.
Proof.
  unfold is_u64, u64_wrapping_sub. intros Hb Ha.
  replace (a + u64_modulus - b)%N with ((a - b) + 1 * u64_modulus)%N by lia.
  rewrite N.Div0.mod_add. apply N.mod_small. lia.
Qed.

Lemma u64_wrapping_add_small a b :
  (a + b < u64_modulus)%N → u64_wrapping_add a b = (a + b)%N.
Proof. intros. by apply N.mod_small. Qed.

Abbreviation u64_be := (be_bytes 8).
Abbreviation u32_be := (be_bytes 4).
Abbreviation u16_be := (be_bytes 2).

(** ** Results, panics and exhausted fuel

    Rust functions return a value, return an error, or panic; a loop of the
    model additionally has a fuel argument.  [Crash] carries the last two
    outcomes, so that "never panics" and "always terminates" are statements
    about the result. *)

Variant crash := Panicked | OutOfFuel.

Inductive res (E A : Type) : Type :=
| Ok (a : A)
| Err (e : E)
| Crash (c : crash).
Arguments Ok {_ _} _.
Arguments Err {_ _} _.
Arguments Crash {_ _} _.

#[export] Instance crash_eq_dec : EqDecision crash.
Proof. solve_decision. Defined.

#[export] Instance res_ret E : MRet (res E) := λ A a, Ok a.
#[export] Instance res_bind E : MBind (res E) := λ A B f m,
  match m with Ok a => f a | Err e => Err e | Crash c => Crash c end.
#[export] Instance res_fmap E : FMap (res E) := λ A B f m,
  match m with Ok a => Ok (f a) | Err e => Err e | Crash c => Crash c end.

(** [opt.ok_or(e)] and [opt.expect(..)]. *)
Definition ok_or {E A} (o : option A) (e : E) : res E A :=
  match o with Some a => Ok a | None => Err e end.
Definition expect {E A} (o : option A) : res E A :=
  match o with Some a => Ok a | None => Crash Panicked end.
(** [result.map_err(..)]. *)
Definition map_err {E F A} (f : E → F) (m : res E A) : res F A :=
  match m with Ok a => Ok a | Err e => Err (f e) | Crash c => Crash c end.
(** [result.unwrap_or(d)]: an error becomes [d], a panic stays one. *)
Definition unwrap_or {E F A} (m : res E A) (d : A) : res F A :=
  match m with Ok a => Ok a | Err _ => Ok d | Crash c => Crash c end.
(** [result.ok()?] of a function that cannot panic, in an [Option] context. *)
Definition res_ok {E A} (m : res E A) : option A :=
  match m with Ok a => Some a | _ => None end.

Lemma res_bind_Ok {E A B} (m : res E A) (f : A → res E B) b :
  m ≫= f = Ok b ↔ ∃ a, m = Ok a ∧ f a = Ok b.
Proof.
  unfold mbind, res_bind. destruct m; simpl; split; try done; eauto.
  - intros (a' & ? & ?). congruence.
  - intros (? & ? & ?). congruence.
  - intros (? & ? & ?). congruence.
Qed.

Lemma res_ret_Ok {E A} (a b : A) : (mret a : res E A) = Ok b → a = b.
Proof. by intros [= ->]. Qed.

Lemma map_err_Ok {E G A} (f : E → G) (m : res E A) a : map_err f m = Ok a → m = Ok a.
Proof. destruct m; [|done..]. by intros [= ->]. Qed.

Lemma ok_or_Ok {E A} (o : option A) (e : E) a : ok_or o e = Ok a ↔ o = Some a.
Proof. destruct o; simpl; split; congruence. Qed.

(** ** State-passing code ([&mut self] methods)

    A method that mutates [self] and returns a [Result] keeps the mutations it
    made before an error, so the state is returned on every path. *)

Definition stM (S E A : Type) : Type := S → res E A * S.

#[export] Instance stM_ret S E : MRet (stM S E) := λ A a s, (Ok a, s).
#[export] Instance stM_bind S E : MBind (stM S E) := λ A B f m s,
  match m s with
  | (Ok a, s') => f a s'
  | (Err e, s') => (Err e, s')
  | (Crash c, s') => (Crash c, s')
  end.

Definition st_get {S E} : stM S E S := λ s, (Ok s, s).
Definition st_modify {S E} (f : S → S) : stM S E unit := λ s, (Ok tt, f s).
Definition st_lift {S E A} (m : S → res E A) : stM S E A := λ s, (m s, s).
Definition st_fail {S E A} (e : E) : stM S E A := λ s, (Err e, s).

(** [for x in xs { body }]. *)
Fixpoint st_for {S E A} (xs : list A) (body : A → stM S E unit) : stM S E unit :=
  match xs with
  | [] => mret tt
  | x :: xs => body x ;; st_for xs body
  end.

(** Running an operation on one field of a larger state. *)
Definition st_zoom {S T E A} (field : S → T) (update : T → S → S) (m : stM T E A) : stM S E A :=
  λ s, let '(r, t) := m (field s) in (r, update t s).

(** An error that is logged and dropped is [None]; a panic stays one. *)
Definition logged {E S A} (m : stM S E A) : stM S Empty_set (option A) := λ s,
  let '(r, s) := m s in
  (match r with Ok a => Ok (Some a) | Err _ => Ok None | Crash c => Crash c end, s).

(** Inverting a run that succeeded. *)
Lemma st_bind_Ok {S E A B} (m : stM S E A) (f : A → stM S E B) s b s' :
  (m ≫= f) s = (Ok b, s') → ∃ a s1, m s = (Ok a, s1) ∧ f a s1 = (Ok b, s').
Proof.
  unfold mbind, stM_bind. destruct (m s) as [[a|e|c] s1]; [|done..]. intros Hf. by exists a, s1.
Qed.

Lemma st_ret_Ok {S E A} (a b : A) (s s' : S) :
  (mret a : stM S E A) s = (Ok b, s') → b = a ∧ s' = s.
Proof. by intros [= <- <-]. Qed.

Lemma st_lift_Ok {S E A} (f : S → res E A) s a s' :
  st_lift f s = (Ok a, s') → f s = Ok a ∧ s' = s.
Proof. by intros [= -> <-]. Qed.

Lemma st_get_bind_Ok {S E B} (f : S → stM S E B) s r :
  (st_get ≫= f) s = r → f s s = r.
Proof. done. Qed.

(** [st_inv H] takes one step of a successful run [H] apart. *)
Ltac st_inv H :=
  lazymatch type of H with
  | (st_get ≫= _) _ = _ => apply st_get_bind_Ok in H; cbn beta in H
  | (st_lift _ ≫= _) _ = (Ok _, _) =>
      let a := fresh "a" in let s1 := fresh "s1" in let Hl := fresh "Hl" in let Hs := fresh "Hs" in
      apply st_bind_Ok in H as (a & s1 & [Hl Hs]%st_lift_Ok & H);
      subst s1; cbn beta in Hl, H
  | (mret _ : stM _ _ _) _ = (Ok _, _) =>
      let Hs := fresh "Hs" in apply st_ret_Ok in H as [H Hs]; subst
  | (_ ≫= _) _ = (Ok _, _) =>
      let a := fresh "a" in let s1 := fresh "s1" in let Hr := fresh "Hr" in
      apply st_bind_Ok in H as (a & s1 & Hr & H); cbn beta in H
  end.

(** ** Preservation: every run of [m] relates the states before and after *)

Definition preserves {S E A} (R : S → S → Prop) (m : stM S E A) : Prop :=
  ∀ s, R s (m s).2.

Create HintDb preserves.

Section preserves.
Context {S E : Type} (R : S → S → Prop) `{!PreOrder R}.

Lemma preserves_ret {A} (a : A) : preserves R (mret a : stM S E A).
Proof. intros s. simpl. reflexivity. Qed.

Lemma preserves_get : preserves R (st_get : stM S E S).
Proof. intros s. simpl. reflexivity. Qed.

Lemma preserves_lift {A} (f : S → res E A) : preserves R (st_lift f).
Proof. intros s. simpl. reflexivity. Qed.

Lemma preserves_fail {A} (e : E) : preserves R (st_fail e : stM S E A).
Proof. intros s. simpl. reflexivity. Qed.

Lemma preserves_modify (f : S → S) :
  (∀ s, R s (f s)) → preserves R (st_modify f : stM S E unit).
Proof. intros H s. apply H. Qed.

Lemma preserves_bind {A B} (m : stM S E A) (f : A → stM S E B) :
  preserves R m → (∀ a, preserves R (f a)) → preserves R (m ≫= f).
Proof.
  intros Hm Hf s. unfold mbind, stM_bind. specialize (Hm s).
  destruct (m s) as [[a|e|c] s'] eqn:E1; simpl in *; [|done..].
  etrans; [exact Hm|apply Hf].
Qed.

Lemma preserves_get_bind {B} (f : S → stM S E B) :
  (∀ s, R s (f s s).2) → preserves R (st_get ≫= f).
Proof. intros H s. apply H. Qed.

Lemma preserves_for {A} (xs : list A) (body : A → stM S E unit) :
  (∀ x, preserves R (body x)) → preserves R (st_for xs body).
Proof.
  intros Hb. induction xs as [|x xs IH]; simpl.
  - apply preserves_ret.
  - apply preserves_bind; [apply Hb|done].
Qed.
End preserves.

#[export] Hint Resolve preserves_ret preserves_get preserves_lift preserves_fail
  preserves_for : preserves.

(** ** Total correctness: from [I], [m] returns a value and restores [I] *)

Definition safe {S E A} (I : S → Prop) (Q : S → A → Prop) (m : stM S E A) : Prop :=
  ∀ s, I s → ∃ a s', m s = (Ok a, s') ∧ I s' ∧ Q s' a.

(** The value is unconstrained. *)
Definition any {S A} : S → A → Prop := λ _ _, True.

Create HintDb safe.

Section safe.
Context {S E : Type} (I : S → Prop).

Lemma safe_ret {A} (a : A) (Q : S → A → Prop) :
  (∀ s, I s → Q s a) → safe (E := E) I Q (mret a).
Proof. intros HQ s Hs. exists a, s. auto. Qed.

Lemma safe_bind {A B} (R : S → A → Prop) (Q : S → B → Prop) (m : stM S E A) (f : A → stM S E B) :
  safe I R m → (∀ s a, I s → R s a → ∃ b s', f a s = (Ok b, s') ∧ I s' ∧ Q s' b) →
  safe I Q (m ≫= f).
Proof.
  intros Hm Hf s Hs. destruct (Hm s Hs) as (a & s' & Ha & Hs' & HR).
  unfold mbind, stM_bind. rewrite Ha. by apply Hf.
Qed.

(** The continuation does not depend on the first part's result. *)
Lemma safe_seq {A B} (Q : S → B → Prop) (m : stM S E A) (f : A → stM S E B) :
  safe I any m → (∀ a, safe I Q (f a)) → safe I Q (m ≫= f).
Proof. intros Hm Hf. eapply safe_bind; [exact Hm|]. intros s a Hs _. by apply Hf. Qed.

Lemma safe_get_bind {B} (Q : S → B → Prop) (f : S → stM S E B) :
  (∀ s, I s → ∃ b s', f s s = (Ok b, s') ∧ I s' ∧ Q s' b) → safe I Q (st_get ≫= f).
Proof. intros Hf s Hs. by apply Hf. Qed.

Lemma safe_lift {A} (Q : S → A → Prop) (f : S → res E A) :
  (∀ s, I s → ∃ a, f s = Ok a ∧ Q s a) → safe I Q (st_lift f).
Proof. intros Hf s Hs. destruct (Hf s Hs) as (a & Ha & HQ). exists a, s. unfold st_lift. by rewrite Ha. Qed.

Lemma safe_modify (f : S → S) : (∀ s, I s → I (f s)) → safe (E := E) I any (st_modify f).
Proof. intros Hf s Hs. exists tt, (f s). split; [done|]. split; [by apply Hf|done]. Qed.

Lemma safe_for {A} (xs : list A) (body : A → stM S E unit) :
  (∀ x, x ∈ xs → safe I any (body x)) → safe I any (st_for xs body).
Proof.
  induction xs as [|x xs IH]; intros Hb; simpl.
  - by apply safe_ret.
  - apply safe_seq; [apply Hb; by left|]. intros _. apply IH. intros. apply Hb. by right.
Qed.
End safe.

(** ** Iteration over hash maps

    [std::collections::HashMap] visits its entries in an unspecified order.
    The order is a parameter of the model: any function that permutes the
    entries.  A definition that iterates takes it as an instance argument,
    and a property about it holds for every order. *)

Class HashOrder := {
  hash_order : ∀ {A : Type}, list A → list A;
  hash_order_perm : ∀ {A : Type} (l : list A), hash_order l ≡ₚ l;
}.

Definition hm_iter `{HashOrder} `{Countable K} {V} (m : gmap K V) : list (K * V) :=
  hash_order (map_to_list m).

Lemma elem_of_hm_iter `{HashOrder} `{Countable K} {V} (m : gmap K V) k v :
  (k, v) ∈ hm_iter m ↔ m !! k = Some v.
Proof. unfold hm_iter. by rewrite hash_order_perm, elem_of_map_to_list. Qed.

(** The insertion-insensitive order, and its reverse, as concrete instances. *)
Definition identity_order : HashOrder :=
  {| hash_order := λ _ l, l; hash_order_perm := λ _ l, reflexivity l |}.
Definition reverse_order : HashOrder :=
  {| hash_order := λ _ l, reverse l; hash_order_perm := λ _ l, reverse_Permutation l |}.

(** ** Lexicographic order of byte strings ([Ord] for arrays and [Vec<u8>]) *)

Fixpoint bytes_leb (l1 l2 : bytes) : bool :=
  match l1, l2 with
  | [], _ => true
  | _ :: _, [] => false
  | b1 :: l1, b2 :: l2 =>
      if decide (b1 = b2) then bytes_leb l1 l2
      else (Byte.to_N b1 <? Byte.to_N b2)%N
  end.

Definition bytes_le (l1 l2 : bytes) : Prop := bytes_leb l1 l2 = true.
Definition bytes_ltb (l1 l2 : bytes) : bool := negb (bytes_leb l2 l1).

#[export] Instance bytes_le_dec : RelDecision bytes_le.
Proof. intros l1 l2. unfold bytes_le. apply _. Defined.

#[export] Instance bytes_le_trans : Transitive bytes_le.
Proof.
  unfold bytes_le. intros l1. induction l1 as [|b1 l1 IH]; intros [|b2 l2] [|b3 l3]; simpl; try done.
  repeat case_decide; subst; try done; rewrite ?N.ltb_lt; eauto; lia.
Qed.

#[export] Instance bytes_le_total : Total bytes_le.
Proof.
  unfold bytes_le. intros l1. induction l1 as [|b1 l1 IH]; intros [|b2 l2]; simpl; auto.
  repeat case_decide; subst; try done.
  rewrite !N.ltb_lt. destruct (N.lt_total (Byte.to_N b1) (Byte.to_N b2)) as [|[E|]]; auto.
  by apply (inj Byte.to_N) in E.
Qed.

#[export] Instance bytes_le_antisymm : AntiSymm (=) bytes_le.
Proof.
  unfold bytes_le. intros l1. induction l1 as [|b1 l1 IH]; intros [|b2 l2]; simpl; try done.
  repeat case_decide; subst; try done.
  - intros. f_equal. by apply IH.
  - rewrite !N.ltb_lt. lia.
Qed.

(** ** Supermajorities

    Every quorum test of the program is the integer comparison
    [count * 3 > total * 2]. *)

Definition supermajority (count total : nat) : bool := total * 2 <? count * 3.

Lemma supermajority_spec count total :
  supermajority count total = true ↔ total * 2 < count * 3.
Proof. unfold supermajority. apply Nat.ltb_lt. Qed.

(** ** Lists *)

Lemma filter_all {A} (P : A → Prop) `{!∀ x, Decision (P x)} (l : list A) : (∀ x, x ∈ l → P x) → filter P l = l.
Proof.
  induction l as [|a l IH]; intros Hl; [done|]. rewrite filter_cons, decide_True by (apply Hl; by left).
  rewrite IH; [done|]. intros x Hx. apply Hl. by right.
Qed.

(** ** Ordered maps ([std::collections::BTreeMap])

    A [BTreeMap] is a finite map whose iteration is ascending in the key. *)

Section btree.
Context `{Countable K} {V : Type} (R : relation K) `{!RelDecision R, !Transitive R,
  !Total R, !AntiSymm (=) R}.

Definition key_le (a b : K * V) : Prop := R a.1 b.1.

#[export] Instance key_le_dec a b : Decision (key_le a b).
Proof. unfold key_le. apply _. Defined.
#[local] Instance key_le_total : Total key_le.
Proof. intros a b. unfold key_le. apply (total R). Qed.
#[local] Instance key_le_trans : Transitive key_le.
Proof. intros a b c. unfold key_le. apply transitivity. Qed.

(** [m.iter()]. *)
Definition bt_entries (m : gmap K V) : list (K * V) := merge_sort key_le (map_to_list m).

Lemma bt_entries_perm m : bt_entries m ≡ₚ map_to_list m.
Proof. apply merge_sort_Permutation. Qed.

Lemma elem_of_bt_entries m k v : (k, v) ∈ bt_entries m ↔ m !! k = Some v.
Proof. by rewrite bt_entries_perm, elem_of_map_to_list. Qed.

Lemma bt_entries_keys_NoDup m : NoDup (bt_entries m).*1.
Proof. rewrite bt_entries_perm. apply NoDup_fst_map_to_list. Qed.

Lemma bt_entries_sorted m : StronglySorted key_le (bt_entries m).
Proof. apply Sorted_StronglySorted; [apply _|]. apply Sorted_merge_sort, _. Qed.

Lemma length_bt_entries m : length (bt_entries m) = size m.
Proof. by rewrite bt_entries_perm, length_map_to_list. Qed.

(** The iteration is determined by the contents. *)
Lemma bt_entries_unique (l : list (K * V)) m :
  NoDup l.*1 → StronglySorted key_le l → l ≡ₚ map_to_list m → bt_entries m = l.
Proof.
  intros Hnd Hs Hp. apply (StronglySorted_unique_strong key_le).
  - intros [k1 v1] [k2 v2] Hin1 Hin2 H12 H21. unfold key_le in *; simpl in *.
    assert (k1 = k2) as -> by (by apply (anti_symm R)).
    rewrite Hp in Hin2. apply elem_of_bt_entries in Hin1.
    apply elem_of_map_to_list in Hin2. by simplify_eq.
  - apply bt_entries_sorted.
  - done.
  - by rewrite bt_entries_perm.
Qed.

Lemma bt_entries_list_to_map (l : list (K * V)) :
  NoDup l.*1 → StronglySorted key_le l → bt_entries (list_to_map l) = l.
Proof.
  intros Hnd Hs. apply bt_entries_unique; [done..|].
  symmetry. by apply map_to_list_to_map.
Qed.

(** [m.range(P).next_back()]: the last entry whose key satisfies [P]. *)
Definition bt_last (P : K → Prop) `{!∀ k, Decision (P k)} (m : gmap K V) : option (K * V) :=
  last (filter (λ e, P e.1) (bt_entries m)).

Lemma StronglySorted_last {A} (Rel : relation A) `{!Reflexive Rel} (l : list A) x y :
  StronglySorted Rel l → last l = Some x → y ∈ l → Rel y x.
Proof.
  induction 1 as [|a l Hs IH Hf]; intros Hl Hy; [by apply elem_of_nil in Hy|].
  rewrite last_cons in Hl. apply elem_of_cons in Hy as [->|Hy].
  - destruct (last l) as [z|] eqn:E; simplify_eq; [|done].
    apply last_Some_elem_of in E. by eapply Forall_forall in Hf.
  - destruct (last l) as [z|] eqn:E; simplify_eq; [by apply IH|].
    apply last_None in E as ->. by apply elem_of_nil in Hy.
Qed.

Lemma StronglySorted_filter_list {A} (Rel : relation A) (P : A → Prop)
    `{!∀ x, Decision (P x)} (l : list A) :
  StronglySorted Rel l → StronglySorted Rel (filter P l).
Proof.
  induction 1 as [|a l Hs IH Hf]; [by constructor|].
  rewrite filter_cons. case_decide; [|done]. constructor; [done|].
  apply Forall_forall. intros z [_ Hz]%list_elem_of_filter.
  by eapply Forall_forall in Hf.
Qed.

Lemma bt_last_Some P `{!∀ k, Decision (P k)} m k v :
  bt_last P m = Some (k, v) ↔
  m !! k = Some v ∧ P k ∧ ∀ k' v', m !! k' = Some v' → P k' → R k' k.
Proof.
  unfold bt_last. split.
  - intros Hl. pose proof (last_Some_elem_of _ _ Hl) as [HP Hin]%list_elem_of_filter.
    apply elem_of_bt_entries in Hin. split_and!; [done..|].
    intros k' v' Hk' HP'.
    assert (Reflexive key_le) by (intros [a b]; unfold key_le; simpl; by destruct (total R a a)).
    apply (StronglySorted_last key_le (filter (λ e, P e.1) (bt_entries m)) (k, v) (k', v'));
      [apply StronglySorted_filter_list, bt_entries_sorted|done|].
    apply list_elem_of_filter. split; [done|]. by apply elem_of_bt_entries.
  - intros (Hk & HP & Hmax).
    destruct (last _) as [[k' v']|] eqn:E.
    + pose proof (last_Some_elem_of _ _ E) as [HP' Hin]%list_elem_of_filter.
      apply elem_of_bt_entries in Hin. simpl in *.
      assert (Reflexive key_le) by (intros [a b]; unfold key_le; simpl; by destruct (total R a a)).
      assert (k' = k) as ->; [|by simplify_eq].
      apply (anti_symm R); [by eapply Hmax|].
      apply (StronglySorted_last key_le (filter (λ e, P e.1) (bt_entries m)) (k', v') (k, v));
        [apply StronglySorted_filter_list, bt_entries_sorted|done|].
      apply list_elem_of_filter. split; [done|]. by apply elem_of_bt_entries.
    + apply last_None in E. exfalso.
      assert ((k, v) ∈ filter (λ e, P e.1) (bt_entries m)) as Hin.
      { apply list_elem_of_filter. split; [done|]. by apply elem_of_bt_entries. }
      rewrite E in Hin. by apply elem_of_nil in Hin.
Qed.

Lemma bt_last_None P `{!∀ k, Decision (P k)} m :
  bt_last P m = None ↔ ∀ k v, m !! k = Some v → ¬ P k.
Proof.
  unfold bt_last. rewrite last_None. split.
  - intros E k v Hk HP.
    assert ((k, v) ∈ filter (λ e, P e.1) (bt_entries m)) as Hin.
    { apply list_elem_of_filter. split; [done|]. by apply elem_of_bt_entries. }
    rewrite E in Hin. by apply elem_of_nil in Hin.
  - intros Hno. destruct (filter _ _) as [|[k v] l] eqn:E; [done|].
    assert ((k, v) ∈ filter (λ e, P e.1) (bt_entries m)) as [HP Hin]%list_elem_of_filter
      by (rewrite E; left).
    apply elem_of_bt_entries in Hin. by destruct (Hno k v).
Qed.

End btree.

(** The program's ordered maps are keyed by [u64]. *)
Lemma btN_last_Some {V} (P : N → Prop) `{!∀ k, Decision (P k)} (m : gmap N V) k v :
  bt_last N.le P m = Some (k, v) ↔
  m !! k = Some v ∧ P k ∧ ∀ k' v', m !! k' = Some v' → P k' → (k' ≤ k)%N.
Proof. apply (bt_last_Some N.le). Qed.

Lemma btN_last_None {V} (P : N → Prop) `{!∀ k, Decision (P k)} (m : gmap N V) :
  bt_last N.le P m = None ↔ ∀ k v, m !! k = Some v → ¬ P k.
Proof. apply (bt_last_None N.le). Qed.
