(* ===== verification/Codec.v ===== *)
(** * Cursor-based codecs

    The program parses every wire and storage format with a handful of private
    helpers over a [&mut &[u8]] cursor ([take_exact], [take_u64], [take_bytes],
    ...), repeated in each crate with that crate's error.  They are defined
    here once, over the error they report.  [decodes d w a] is the round-trip
    law used everywhere: [d] reads exactly [w] from the front of any input and
    yields [a]. *)

From S2P Require Import Prelude.

Section helpers.
Context {E : Type} (err : E).

(** [cursor.get(..len)], advancing the cursor. *)
Definition take_exact (len : N) : stM bytes E bytes := λ cursor,
  if decide (len ≤ N.of_nat (length cursor))%N
  then (Ok (take (N.to_nat len) cursor), drop (N.to_nat len) cursor)
  else (Err err, cursor).

Definition take_byte : stM bytes E byte :=
  b ← take_exact 1;
  st_lift (λ _, expect (head b)).

Definition take_u16 : stM bytes E N := b ← take_exact 2; mret (of_be b).
Definition take_u32 : stM bytes E N := b ← take_exact 4; mret (of_be b).
Definition take_u64 : stM bytes E N := b ← take_exact 8; mret (of_be b).

(** One [u32] length-prefixed field. *)
Definition take_bytes : stM bytes E bytes := len ← take_u32; take_exact len.

(** [(0..count).map(|_| p(&mut cursor)).collect()]. *)
Fixpoint take_n {A} (count : nat) (p : stM bytes E A) : stM bytes E (list A) :=
  match count with
  | O => mret []
  | S count => x ← p; xs ← take_n count p; mret (x :: xs)
  end.

(** [if !cursor.is_empty() { return Err(..) }]. *)
Definition reject_trailing : stM bytes E unit := λ cursor,
  match cursor with [] => (Ok tt, []) | _ :: _ => (Err err, cursor) end.

End helpers.

(** [write_bytes]: a [u32] length prefix and the bytes; the length conversion
    is an [expect]. *)
Definition write_bytes {E} (bs : bytes) : res E bytes :=
  if decide (N.of_nat (length bs) < u32_modulus)%N
  then Ok (u32_be (N.of_nat (length bs)) ++ bs)
  else Crash Panicked.

(** ** The round-trip law *)

Definition decodes {E A} (d : stM bytes E A) (w : bytes) (a : A) : Prop :=
  ∀ rest, d (w ++ rest) = (Ok a, rest).

Create HintDb codec.

Section laws.
Context {E : Type} (err : E).

Lemma decodes_ret {A} (a : A) : decodes (mret a : stM bytes E A) [] a.
Proof. done. Qed.

Lemma decodes_bind {A B} (m : stM bytes E A) (f : A → stM bytes E B) w1 w2 a b :
  decodes m w1 a → decodes (f a) w2 b → decodes (m ≫= f) (w1 ++ w2) b.
Proof.
  intros Hm Hf rest. unfold mbind, stM_bind.
  rewrite <- (assoc_L (++)), Hm. apply Hf.
Qed.

Lemma decodes_bind_nil {A B} (m : stM bytes E A) (f : A → stM bytes E B) w a b :
  decodes m w a → decodes (f a) [] b → decodes (m ≫= f) w b.
Proof. intros. rewrite <- (right_id_L [] (++) w). by eapply decodes_bind. Qed.

Lemma decodes_take_exact (len : N) (w : bytes) :
  N.of_nat (length w) = len → decodes (take_exact err len) w w.
Proof.
  intros <- rest. unfold take_exact. rewrite length_app, decide_True by lia.
  by rewrite Nat2N.id, take_app_length, drop_app_length.
Qed.

Lemma decodes_take_byte b : decodes (take_byte err) [b] b.
Proof.
  eapply decodes_bind_nil; [by apply (decodes_take_exact 1 [b])|done].
Qed.

Lemma decodes_take_uint (w : nat) (n : N) :
  (n < 256 ^ N.of_nat w)%N →
  decodes (b ← take_exact err (N.of_nat w); mret (of_be b)) (be_bytes w n) n.
Proof.
  intros Hn. eapply decodes_bind_nil.
  - apply decodes_take_exact. by rewrite length_be_bytes.
  - simpl. rewrite of_be_be_bytes by done. apply decodes_ret.
Qed.

Lemma decodes_take_u16 n : (n < 2 ^ 16)%N → decodes (take_u16 err) (u16_be n) n.
Proof. intros. by apply (decodes_take_uint 2). Qed.
Lemma decodes_take_u32 n : is_u32 n → decodes (take_u32 err) (u32_be n) n.
Proof. intros. by apply (decodes_take_uint 4). Qed.
Lemma decodes_take_u64 n : is_u64 n → decodes (take_u64 err) (u64_be n) n.
Proof. intros. by apply (decodes_take_uint 8). Qed.

Lemma decodes_take_bytes (bs : bytes) :
  is_u32 (N.of_nat (length bs)) →
  decodes (take_bytes err) (u32_be (N.of_nat (length bs)) ++ bs) bs.
Proof.
  intros. eapply decodes_bind; [by apply decodes_take_u32|].
  by apply decodes_take_exact.
Qed.

Lemma decodes_take_n {A} (p : stM bytes E A) (enc : A → bytes) (xs : list A) :
  Forall (λ x, decodes p (enc x) x) xs →
  decodes (take_n (length xs) p) (concat (enc <$> xs)) xs.
Proof.
  induction 1 as [|x xs Hx _ IH]; simpl; [apply decodes_ret|].
  eapply decodes_bind; [done|]. simpl.
  eapply decodes_bind_nil; [done|]. apply decodes_ret.
Qed.

End laws.

(** A step that reads nothing. *)
Lemma decodes_lift {E A B} (m : res E A) (f : A → stM bytes E B) a w b :
  m = Ok a → decodes (f a) w b → decodes (st_lift (λ _, m) ≫= f) w b.
Proof. intros -> Hf rest. apply Hf. Qed.

(** Running a decoder on exactly its encoding. *)
Lemma decodes_all {E A} (d : stM bytes E A) w a :
  decodes d w a → d w = (Ok a, []).
Proof. intros H. rewrite <- (right_id_L [] (++) w). apply H. Qed.

Lemma decodes_fun {E A} (d : stM bytes E A) w a1 a2 :
  decodes d w a1 → decodes d w a2 → a1 = a2.
Proof. intros H1 H2. specialize (H1 []). specialize (H2 []). congruence. Qed.

(** A format with a round trip is injective on the values it covers, also when
    two encodings are followed by arbitrary suffixes. *)
Lemma decodes_inj {E A} (d : stM bytes E A) w1 w2 a1 a2 r1 r2 :
  decodes d w1 a1 → decodes d w2 a2 → w1 ++ r1 = w2 ++ r2 → a1 = a2 ∧ r1 = r2.
Proof.
  intros H1 H2 Eq. specialize (H1 r1). specialize (H2 r2).
  rewrite Eq in H1. rewrite H1 in H2. by simplify_eq.
Qed.

#[export] Hint Resolve decodes_ret decodes_take_byte decodes_take_u16
  decodes_take_u32 decodes_take_u64 decodes_take_bytes : codec.
#[export] Hint Extern 2 (decodes (take_exact _ _) _ _) =>
  apply decodes_take_exact; simpl; lia : codec.

(** [codec_step] peels one field off a sequential decoder; the remaining goals
    are the field's own law and the rest of the record. *)
Ltac codec_step :=
  match goal with
  | |- decodes (_ ≫= _) (_ ++ _) _ => eapply decodes_bind; [|cbn beta]
  | |- decodes (_ ≫= _) _ _ => eapply decodes_bind_nil; [|cbn beta]
  end.

(** [parses d w a]: [d] consumes all of [w]; the law of decoders that end by
    rejecting trailing bytes. *)
Definition parses {E A} (d : stM bytes E A) (w : bytes) (a : A) : Prop := d w = (Ok a, []).

Lemma parses_bind {E A B} (m : stM bytes E A) (f : A → stM bytes E B) w1 w2 a b :
  decodes m w1 a → parses (f a) w2 b → parses (m ≫= f) (w1 ++ w2) b.
Proof. intros Hm Hf. unfold parses, mbind, stM_bind. rewrite Hm. apply Hf. Qed.

Lemma parses_bind_nil {E A B} (m : stM bytes E A) (f : A → stM bytes E B) w a b :
  decodes m w a → parses (f a) [] b → parses (m ≫= f) w b.
Proof. intros. rewrite <- (right_id_L [] (++) w). by eapply parses_bind. Qed.

Lemma parses_end {E A} (err : E) (a : A) : parses (reject_trailing err ;; mret a) [] a.
Proof. done. Qed.

Lemma decodes_parses {E A} (d : stM bytes E A) w a : decodes d w a → parses d w a.
Proof. apply decodes_all. Qed.

Lemma parses_result {E A} (d : stM bytes E A) w a : parses d w a → (d w).1 = Ok a.
Proof. by intros ->. Qed.

#[export] Hint Resolve parses_end : codec.

Ltac parse_step :=
  match goal with
  | |- parses (_ ≫= _) (_ ++ _) _ => eapply parses_bind; [|cbn beta]
  | |- parses (_ ≫= _) _ _ => eapply parses_bind_nil; [|cbn beta]
  end.

Lemma write_bytes_Ok {E} (bs : bytes) :
  is_u32 (N.of_nat (length bs)) →
  write_bytes (E := E) bs = Ok (u32_be (N.of_nat (length bs)) ++ bs).
Proof. intros. unfold write_bytes. by rewrite decide_True. Qed.

(** ** Decoders never panic

    A decoder reads bytes received from a peer, so no input may bring it to an
    index, [expect] or overflow panic. *)
Definition no_crash {E A} (m : res E A) : Prop := ∀ c, m ≠ Crash c.

Definition never_panics {E A} (d : stM bytes E A) : Prop := ∀ cursor, no_crash (d cursor).1.

Create HintDb total.

Section total.
Context {E : Type} (err : E).

Lemma total_ret {A} (a : A) : never_panics (mret a : stM bytes E A).
Proof. by intros cursor c. Qed.
Lemma total_fail {A} (e : E) : never_panics (st_fail e : stM bytes E A).
Proof. by intros cursor c. Qed.

Lemma total_bind {A B} (m : stM bytes E A) (f : A → stM bytes E B) :
  never_panics m → (∀ a, never_panics (f a)) → never_panics (m ≫= f).
Proof.
  intros Hm Hf cursor c. specialize (Hm cursor). unfold mbind, stM_bind.
  destruct (m cursor) as [[a|e|c'] s]; simpl in *; [apply Hf|done|].
  by destruct (Hm c').
Qed.

Lemma total_lift {A} (m : res E A) : no_crash m → never_panics (st_lift (λ _, m)).
Proof. intros Hm cursor. apply Hm. Qed.

Lemma total_take_exact len : never_panics (take_exact err len).
Proof. intros cursor c. unfold take_exact. by case_decide. Qed.

Lemma total_take_byte : never_panics (take_byte err).
Proof.
  intros cursor c. unfold take_byte, mbind, stM_bind, take_exact.
  case_decide; [|done]. destruct cursor; simpl in *; [lia|done].
Qed.

Lemma total_reject_trailing : never_panics (reject_trailing err).
Proof. by intros [|b cursor] c. Qed.

Lemma total_take_n {A} n (p : stM bytes E A) : never_panics p → never_panics (take_n n p).
Proof.
  intros. induction n as [|n IH]; simpl; [apply total_ret|].
  apply total_bind; [done|]. intros x. apply total_bind; [done|].
  intros xs. apply total_ret.
Qed.
End total.

#[export] Hint Resolve total_ret total_fail total_bind total_take_exact
  total_take_byte total_reject_trailing total_take_n : total.
#[export] Hint Extern 1 (never_panics (if ?b then _ else _)) => destruct b : total.
#[export] Hint Extern 1 (never_panics (take_u16 _)) => unfold take_u16 : total.
#[export] Hint Extern 1 (never_panics (take_u32 _)) => unfold take_u32 : total.
#[export] Hint Extern 1 (never_panics (take_u64 _)) => unfold take_u64 : total.
#[export] Hint Extern 1 (never_panics (take_bytes _)) => unfold take_bytes : total.

Ltac solve_total := eauto 40 with total.

(** ** What a decoder can return

    [yields d Q]: every value [d] returns satisfies [Q], on any input. *)
Definition yields {E A} (d : stM bytes E A) (Q : A → Prop) : Prop :=
  ∀ cursor a rest, d cursor = (Ok a, rest) → Q a.

Create HintDb yields.

Section yields.
Context {E : Type} (err : E).

Lemma yields_ret {A} (a : A) (Q : A → Prop) : Q a → yields (mret a : stM bytes E A) Q.
Proof. by intros HQ cursor b rest [= <- <-]. Qed.

Lemma yields_fail {A} (e : E) (Q : A → Prop) : yields (st_fail e : stM bytes E A) Q.
Proof. by intros cursor a rest Hd. Qed.

Lemma yields_bind {A B} (P : A → Prop) (Q : B → Prop) (m : stM bytes E A) (f : A → stM bytes E B) :
  yields m P → (∀ a, P a → yields (f a) Q) → yields (m ≫= f) Q.
Proof.
  intros Hm Hf cursor b rest. unfold mbind, stM_bind. specialize (Hm cursor).
  destruct (m cursor) as [[a|e|c] s]; [|done..]. intros Hb. by eapply Hf; [eapply Hm|].
Qed.

Lemma yields_seq {A B} (Q : B → Prop) (m : stM bytes E A) (f : A → stM bytes E B) :
  (∀ a, yields (f a) Q) → yields (m ≫= f) Q.
Proof. intros Hf. apply (yields_bind (λ _, True)); [by intros ?|auto]. Qed.

Lemma yields_lift {A} (Q : A → Prop) (m : res E A) :
  (∀ a, m = Ok a → Q a) → yields (st_lift (λ _, m)) Q.
Proof. intros HQ cursor a rest [= Hm <-]. by apply HQ. Qed.

Lemma yields_take_exact len : yields (take_exact err len) (λ b, N.of_nat (length b) = len).
Proof.
  intros cursor b rest. unfold take_exact. case_decide as Hlen; [|done]. intros [= <- <-].
  rewrite length_take. lia.
Qed.

Lemma yields_take_uint (w : nat) :
  yields (b ← take_exact err (N.of_nat w); mret (of_be b)) (λ n, (n < 256 ^ N.of_nat w)%N).
Proof.
  eapply yields_bind; [apply yields_take_exact|]. intros b Hb. apply yields_ret.
  rewrite <- Hb. apply of_be_lt.
Qed.

Lemma yields_take_u32 : yields (take_u32 err) is_u32.
Proof. apply (yields_take_uint 4). Qed.
Lemma yields_take_u64 : yields (take_u64 err) is_u64.
Proof. apply (yields_take_uint 8). Qed.

Lemma yields_take_bytes : yields (take_bytes err) (λ b, is_u32 (N.of_nat (length b))).
Proof.
  eapply yields_bind; [apply yields_take_u32|]. intros len Hlen cursor b rest Hb.
  apply yields_take_exact in Hb. by rewrite Hb.
Qed.

Lemma yields_take_n {A} n (Q : A → Prop) (p : stM bytes E A) :
  yields p Q → yields (take_n n p) (λ l, length l = n ∧ Forall Q l).
Proof.
  intros Hp. induction n as [|n IH]; simpl; [by apply yields_ret|].
  eapply yields_bind; [done|]. intros x Hx. eapply yields_bind; [done|]. intros xs [Hlen Hxs].
  apply yields_ret. simpl. auto.
Qed.
End yields.

#[export] Hint Resolve yields_ret yields_fail yields_take_exact yields_take_u32 yields_take_u64
  yields_take_bytes yields_take_n : yields.

(** [yield_step] runs one [bind] of a decoder, with what its head returns. *)
Ltac yield_step := eapply yields_bind; [by eauto with yields|cbn beta].
