(* ===== verification/External.v ===== *)
(** * Third-party cryptography

    The crates [sha2], [ed25519-dalek] and [blst] are not part of the
    repository.  What the program uses of them is a class parameter of the
    model; the laws stated are the documented shape of their results (SHA-256
    digests are 32 bytes, a signature made with a key verifies under it). *)

From S2P Require Import Prelude.

(** [sha2::Sha256]: incremental hashing of a concatenation is hashing it at
    once, so [Sha256::new(); update(a); update(b); finalize()] is
    [sha256 (a ++ b)]. *)
Class Sha256 := {
  sha256 : bytes → bytes;
  sha256_length : ∀ m, length (sha256 m) = 32;
}.

(** A collision of the hash function, the only way a Merkle commitment can be
    opened in two ways. *)
Definition sha256_collision `{Sha256} : Prop :=
  ∃ m1 m2, m1 ≠ m2 ∧ sha256 m1 = sha256 m2.

Lemma collides `{Sha256} m1 m2 : sha256 m1 = sha256 m2 → m1 = m2 ∨ sha256_collision.
Proof. intros Heq. destruct (decide (m1 = m2)); [by left|]. right. by eexists _, _. Qed.

(** [ed25519_dalek]: a [VerifyingKey] is represented by its 32 compressed
    bytes ([to_bytes]); [vk_from_bytes] tells whether they decompress to a
    curve point. *)
Class Ed25519 := {
  vk_valid : bytes → bool;
  ed_verify : bytes → bytes → bytes → bool;
  ed_verify_strict : bytes → bytes → bytes → bool;
  ed_sign : bytes → bytes → bytes;
  ed_public : bytes → bytes;
  ed_sign_length : ∀ sk m, length (ed_sign sk m) = 64;
  ed_sign_verify : ∀ sk m, ed_verify_strict (ed_public sk) m (ed_sign sk m) = true;
}.

(** [VerifyingKey::from_bytes(&arr)], failing with the caller's error. *)
Definition vk_from_bytes `{Ed25519} {E} (err : E) (arr : bytes) : res E bytes :=
  if vk_valid arr then Ok arr else Err err.

(** [blst::min_pk]: signatures (96 bytes) and public keys (48 bytes) as their
    compressed bytes; [bls_sig_valid] and [bls_pk_valid] are the success of
    [from_bytes].  Key-validated verification of one signature is [bls_verify].
    Signatures of one message aggregate to one that verifies under the keys,
    unless the keys add up to the point at infinity, which blst refuses. *)
Class Bls := {
  bls_sig_valid : bytes → bool;
  bls_pk_valid : bytes → bool;
  bls_sign : bytes → bytes → bytes → bytes;
  bls_public : bytes → bytes;
  bls_verify : bytes → bytes → bytes → bytes → bool;
  bls_aggregate : list bytes → option bytes;
  bls_fast_aggregate_verify : bytes → bytes → bytes → list bytes → bool;
  bls_infinite : list bytes → bool;
  bls_sign_verify : ∀ sk msg dst, bls_verify (bls_sign sk msg dst) msg dst (bls_public sk) = true;
  bls_aggregate_verify : ∀ msg dst l, l ≠ [] →
    Forall (λ ks, bls_verify ks.2 msg dst ks.1 = true) l → bls_infinite l.*1 = false →
    ∃ a, bls_aggregate l.*2 = Some a ∧ bls_fast_aggregate_verify a msg dst l.*1 = true;
}.

(** ** Concrete instances, for evaluating the model *)

(** A polynomial checksum modulo 2^64: not a cryptographic hash, but enough
    to tell the events of the small examples apart. *)
Definition toy_digest (m : bytes) : N :=
  foldl (λ acc b, N.land (acc * 263 + Byte.to_N b + 1) u64_max)%N 7%N m.

Definition toy_sha256 : Sha256 :=
  {| sha256 := λ m, be_bytes 32 (toy_digest m);
     sha256_length := λ m, length_be_bytes 32 (toy_digest m) |}.

Definition toy_ed25519 : Ed25519 :=
  {| vk_valid := λ _, true;
     ed_verify := λ k m s, bool_decide (s = be_bytes 64 (toy_digest (k ++ m)));
     ed_verify_strict := λ k m s, bool_decide (s = be_bytes 64 (toy_digest (k ++ m)));
     ed_sign := λ sk m, be_bytes 64 (toy_digest (sk ++ m));
     ed_public := λ sk, sk;
     ed_sign_length := λ sk m, length_be_bytes 64 (toy_digest (sk ++ m));
     ed_sign_verify := λ sk m, bool_decide_eq_true_2 _ eq_refl |}.

(** Signatures that add up: the aggregate is the sum of the signatures. *)
Definition toy_bls_sign (pk msg dst : bytes) : bytes := be_bytes 96 (toy_digest (pk ++ dst ++ msg)).

Definition toy_sum (l : list bytes) : bytes := be_bytes 96 (foldr (λ s acc, of_be s + acc)%N 0%N l).

Lemma toy_aggregate msg dst (l : list (bytes * bytes)) :
  Forall (λ ks, bool_decide (ks.2 = toy_bls_sign ks.1 msg dst) = true) l →
  toy_sum l.*2 = toy_sum ((λ pk, toy_bls_sign pk msg dst) <$> l.*1).
Proof.
  intros Hl. f_equal. rewrite <- list_fmap_compose. apply list_fmap_ext. intros i [pk s] Hi. simpl.
  eapply Forall_lookup_1 in Hl; [|exact Hi]. by apply bool_decide_eq_true in Hl.
Qed.

Definition toy_bls : Bls.
Proof.
  refine {| bls_sig_valid := λ _, true; bls_pk_valid := λ _, true;
     bls_sign := toy_bls_sign; bls_public := λ sk, sk;
     bls_verify := λ s msg dst pk, bool_decide (s = toy_bls_sign pk msg dst);
     bls_aggregate := λ sigs, match sigs with [] => None | _ => Some (toy_sum sigs) end;
     bls_fast_aggregate_verify := λ a msg dst pks,
       bool_decide (a = toy_sum ((λ pk, toy_bls_sign pk msg dst) <$> pks));
     bls_infinite := λ _, false |}.
  - intros. by apply bool_decide_eq_true.
  - intros msg dst l Hne Hl _. exists (toy_sum l.*2). split; [by destruct l|].
    by apply bool_decide_eq_true, toy_aggregate.
Defined.
