(* ===== verification/Primitives.v ===== *)
(** * Core value types, their canonical encoding and hash

    [protocol/primitives] (events, hashes, node ids, timestamps, transactions)
    and the canonical byte encoding of [protocol/crypto/src/canonical_impls.rs]
    that is fed to SHA-256 and Ed25519.

    The newtypes [NodeId], [Timestamp] (both [u64]), [EventHash] ([u8; 32]),
    [Signature] ([u8; 64]) and [Transaction] ([Vec<u8>]) are represented by
    the value they wrap; [wf_event] records the widths. *)

From S2P Require Import Prelude Codec External.

Abbreviation NodeId := N.
Abbreviation Timestamp := N.
Abbreviation EventHash := (list Byte.byte).
Abbreviation Signature := (list Byte.byte).
Abbreviation Transaction := (list Byte.byte).

Record UnsignedEvent := {
  ue_creator : NodeId;
  ue_self_parent : option EventHash;
  ue_other_parent : option EventHash;
  ue_timestamp : Timestamp;
  ue_payload : list Transaction;
}.

Record Event := {
  ev_unsigned : UnsignedEvent;
  ev_signature : Signature;
}.

#[export] Instance unsigned_event_eq_dec : EqDecision UnsignedEvent.
Proof. solve_decision. Defined.
#[export] Instance event_eq_dec : EqDecision Event.
Proof. solve_decision. Defined.

Definition creator (e : Event) : NodeId := ue_creator (ev_unsigned e).
Definition self_parent (e : Event) : option EventHash := ue_self_parent (ev_unsigned e).
Definition other_parent (e : Event) : option EventHash := ue_other_parent (ev_unsigned e).
Definition timestamp (e : Event) : Timestamp := ue_timestamp (ev_unsigned e).
Definition payload (e : Event) : list Transaction := ue_payload (ev_unsigned e).
Definition signature (e : Event) : Signature := ev_signature e.

(** [[self_parent, other_parent].into_iter().flatten()]. *)
Definition parents (e : Event) : list EventHash :=
  option_list (self_parent e) ++ option_list (other_parent e).

(** The text of [got] is kept as the value it renders: a number in decimal or
    a hash in hexadecimal. *)
Inductive Rendered :=
| Decimal (n : N)
| Hex (bs : bytes).

(** [primitives::Error]. *)
Inductive PrimError :=
| Validation (reason : string)
| OutOfRange (field : string) (got : Rendered)
| SerializationFailed (reason : string)
| InvalidState (reason : string).

(** ** Canonical encoding

    Each [encode_canonical] appends to a buffer; the definitions return the
    appended bytes. *)

Definition encode_node_id (n : NodeId) : bytes := u64_be n.
Definition encode_timestamp (t : Timestamp) : bytes := u64_be t.
Definition encode_event_hash (h : EventHash) : bytes := h.
Definition encode_signature (s : Signature) : bytes := s.

Definition encode_opt_event_hash (o : option EventHash) : bytes :=
  match o with
  | None => [x00]
  | Some h => x01 :: encode_event_hash h
  end.

(** [u32::try_from(len).map_err(..)]. *)
Definition u32_try_from (field : string) (len : nat) : res PrimError N :=
  if decide (N.of_nat len < u32_modulus)%N then Ok (N.of_nat len)
  else Err (OutOfRange field (Decimal (N.of_nat len))).

Definition encode_transaction (tx : Transaction) : res PrimError bytes :=
  len ← u32_try_from "Transaction payload length" (length tx);
  mret (u32_be len ++ tx).

Fixpoint encode_transactions_body (txs : list Transaction) : res PrimError bytes :=
  match txs with
  | [] => mret []
  | tx :: txs =>
      b ← encode_transaction tx;
      bs ← encode_transactions_body txs;
      mret (b ++ bs)
  end.

Definition encode_transactions (txs : list Transaction) : res PrimError bytes :=
  count ← u32_try_from "Vec<Transaction> length" (length txs);
  body ← encode_transactions_body txs;
  mret (u32_be count ++ body).

Definition encode_unsigned_event (u : UnsignedEvent) : res PrimError bytes :=
  txs ← encode_transactions (ue_payload u);
  mret (encode_node_id (ue_creator u) ++
        encode_opt_event_hash (ue_self_parent u) ++
        encode_opt_event_hash (ue_other_parent u) ++
        encode_timestamp (ue_timestamp u) ++ txs).

Definition encode_event (e : Event) : res PrimError bytes :=
  u ← encode_unsigned_event (ev_unsigned e);
  mret (u ++ encode_signature (ev_signature e)).

(** ** Hashing and signing ([hashable_impls.rs], [signable_impls.rs]) *)

Definition event_hash `{Sha256} (e : Event) : res PrimError EventHash :=
  bs ← encode_event e; mret (sha256 bs).

Definition transaction_hash `{Sha256} (tx : Transaction) : res PrimError bytes :=
  bs ← encode_transaction tx; mret (sha256 bs).

Definition sign_event `{Ed25519} (sk : bytes) (u : UnsignedEvent) : res PrimError Event :=
  bs ← encode_unsigned_event u;
  mret {| ev_unsigned := u; ev_signature := ed_sign sk bs |}.

(** ** Well-formed values *)

Definition wf_opt_hash (o : option EventHash) : Prop :=
  match o with None => True | Some h => length h = 32 end.

Record wf_event (e : Event) : Prop := {
  wf_creator : is_u64 (creator e);
  wf_self_parent : wf_opt_hash (self_parent e);
  wf_other_parent : wf_opt_hash (other_parent e);
  wf_timestamp : is_u64 (timestamp e);
  wf_signature : length (signature e) = 64;
}.

(** ** Decoding ([decode_event_bytes] of [consensus/src/reconnect.rs]) *)

Section decode.
Context {E : Type} (err : E).

Definition take_optional_hash : stM bytes E (option EventHash) :=
  tag ← take_byte err;
  if decide (tag = x00) then mret None
  else if decide (tag = x01) then h ← take_exact err 32; mret (Some h)
  else st_fail err.

Definition take_transaction : stM bytes E Transaction :=
  len ← take_u32 err; take_exact err len.

Definition take_event : stM bytes E Event :=
  c ← take_u64 err;
  sp ← take_optional_hash;
  op ← take_optional_hash;
  ts ← take_u64 err;
  count ← take_u32 err;
  txs ← take_n (N.to_nat count) take_transaction;
  sig ← take_exact err 64;
  mret {| ev_unsigned := {| ue_creator := c; ue_self_parent := sp; ue_other_parent := op;
                            ue_timestamp := ts; ue_payload := txs |};
          ev_signature := sig |}.

Definition decode_event_bytes (bs : bytes) : res E Event :=
  ((e ← take_event; reject_trailing err ;; mret e) bs).1.

End decode.

(** ** Round trip of the canonical encoding *)

Section roundtrip.
Context {E : Type} (err : E).

Lemma u32_try_from_Ok field len n :
  u32_try_from field len = Ok n → n = N.of_nat len ∧ is_u32 n.
Proof. unfold u32_try_from. case_decide; intros; by simplify_eq. Qed.

Lemma decodes_opt_hash o :
  wf_opt_hash o → decodes (take_optional_hash err) (encode_opt_event_hash o) o.
Proof.
  intros Ho. destruct o as [h|]; simpl in *; unfold take_optional_hash.
  - change (x01 :: encode_event_hash h) with ([x01] ++ h).
    eapply decodes_bind; [apply decodes_take_byte|].
    rewrite decide_False, decide_True by done.
    eapply decodes_bind_nil; [apply decodes_take_exact; lia|apply decodes_ret].
  - eapply decodes_bind_nil; [apply decodes_take_byte|apply decodes_ret].
Qed.

Lemma decodes_transaction tx w :
  encode_transaction tx = Ok w → decodes (take_transaction err) w tx.
Proof.
  intros (len & (-> & Hlen)%u32_try_from_Ok & <-%res_ret_Ok)%res_bind_Ok.
  by apply decodes_take_bytes.
Qed.

Lemma decodes_transactions_body txs w :
  encode_transactions_body txs = Ok w →
  decodes (take_n (length txs) (take_transaction err)) w txs.
Proof.
  revert w. induction txs as [|tx txs IH]; simpl; intros w Hw.
  - apply res_ret_Ok in Hw as <-. apply decodes_ret.
  - apply res_bind_Ok in Hw as (b & Hb & (bs & Hbs & <-%res_ret_Ok)%res_bind_Ok).
    eapply decodes_bind; [by apply decodes_transaction|]. simpl.
    eapply decodes_bind_nil; [by apply IH|]. apply decodes_ret.
Qed.

Lemma decodes_transactions txs w :
  encode_transactions txs = Ok w →
  decodes (count ← take_u32 err; take_n (N.to_nat count) (take_transaction err)) w txs.
Proof.
  intros (len & (-> & Hlen)%u32_try_from_Ok & (body & Hbody & <-%res_ret_Ok)%res_bind_Ok)%res_bind_Ok.
  eapply decodes_bind; [by apply decodes_take_u32|].
  rewrite Nat2N.id. by apply decodes_transactions_body.
Qed.

Lemma decodes_event e w :
  wf_event e → encode_event e = Ok w → decodes (take_event err) w e.
Proof.
  intros [Hc Hsp Hop Hts Hsig] (u & (txs & Htxs & <-%res_ret_Ok)%res_bind_Ok & <-%res_ret_Ok)%res_bind_Ok.
  apply res_bind_Ok in Htxs as (len & (-> & Hlen)%u32_try_from_Ok & (body & Hbody & <-%res_ret_Ok)%res_bind_Ok).
  unfold take_event, encode_node_id, encode_timestamp, encode_signature.
  rewrite <- !(assoc_L (++)).
  codec_step; [by apply decodes_take_u64|].
  codec_step; [by apply decodes_opt_hash|].
  codec_step; [by apply decodes_opt_hash|].
  codec_step; [by apply decodes_take_u64|].
  codec_step; [by apply decodes_take_u32|].
  rewrite Nat2N.id.
  codec_step; [by apply decodes_transactions_body|].
  codec_step; [apply decodes_take_exact; unfold signature in Hsig; by rewrite Hsig|].
  destruct e as [[] ]. apply decodes_ret.
Qed.

Lemma decode_encode_event e w :
  wf_event e → encode_event e = Ok w → decode_event_bytes err w = Ok e.
Proof.
  intros He Hw. unfold decode_event_bytes, mbind, stM_bind.
  by rewrite (decodes_all _ _ _ (decodes_event _ _ He Hw)).
Qed.

End roundtrip.

(** The canonical encoding is injective: the signed and hashed bytes determine
    the event. *)
Lemma encode_event_inj e1 e2 w :
  wf_event e1 → wf_event e2 → encode_event e1 = Ok w → encode_event e2 = Ok w → e1 = e2.
Proof.
  intros H1 H2 E1 E2.
  exact (decodes_fun _ _ _ _ (decodes_event tt _ _ H1 E1) (decodes_event tt _ _ H2 E2)).
Qed.

Lemma event_hash_collision `{Sha256} e1 e2 h :
  wf_event e1 → wf_event e2 → event_hash e1 = Ok h → event_hash e2 = Ok h →
  e1 = e2 ∨ sha256_collision.
Proof.
  intros H1 H2 (w1 & E1 & <-%res_ret_Ok)%res_bind_Ok (w2 & E2 & Heq%res_ret_Ok)%res_bind_Ok.
  destruct (decide (w1 = w2)) as [->|Hne].
  - left. by eapply encode_event_inj.
  - right. exists w1, w2. done.
Qed.

Lemma event_hash_length `{Sha256} e h : event_hash e = Ok h → length h = 32.
Proof. intros (w & _ & <-%res_ret_Ok)%res_bind_Ok. apply sha256_length. Qed.
