(* ===== verification/Membership.v ===== *)
(** * Membership: registries, round-indexed rosters, membership operations

    [protocol/crypto/src/membership.rs] ([MembershipRegistry]),
    [protocol/crypto/src/roster.rs] ([RosterHistory], [MembershipOp]) and event
    verification ([signable_impls.rs]). *)

From S2P Require Import Prelude Codec External Primitives.

(** [crypto::CryptoError]. *)
Inductive CryptoError :=
| Base (e : PrimError)
| SignatureVerificationFailed
| UnknownSigner (node_id : NodeId)
| MalformedOp
| UnknownMembershipOpcode (opcode : byte)
| BlsKeyGenFailed
| BlsAggregateFailed
| EmptyDerivationPath
| InvalidDerivationIndex (index : N)
| InvalidTagCode (tag : N)
| HmacInitFailed.

(** ** [MembershipRegistry]

    The map of a member's id to its Ed25519 key (32 bytes) and its BLS public
    key (48 bytes). *)
Abbreviation MembershipRegistry := (gmap N (bytes * bytes)).

Module Registry.

Definition register (reg : MembershipRegistry) (node : NodeId) (key bls_key : bytes) :
    MembershipRegistry := <[node := (key, bls_key)]> reg.

Definition key_for (reg : MembershipRegistry) (node : NodeId) : res CryptoError bytes :=
  ok_or (fst <$> reg !! node) (UnknownSigner node).

Definition bls_key_for (reg : MembershipRegistry) (node : NodeId) : option bytes :=
  snd <$> reg !! node.

Definition contains (reg : MembershipRegistry) (node : NodeId) : bool :=
  bool_decide (is_Some (reg !! node)).

(** The sort makes the hash-map order of [keys()] immaterial: see
    [member_ids_any_order]. *)
Definition member_ids (reg : MembershipRegistry) : list NodeId :=
  merge_sort N.le (map_to_list reg).*1.

Definition len (reg : MembershipRegistry) : nat := size reg.

Definition member_bytes (m : NodeId * (bytes * bytes)) : bytes :=
  u64_be m.1 ++ m.2.1 ++ m.2.2.

Definition to_bytes (reg : MembershipRegistry) : bytes :=
  concat (member_bytes <$> bt_entries N.le reg).

(** [while !bytes.is_empty()]: one 88-byte triple per turn; [Err tt] is the
    [None] of the source. *)
Fixpoint from_bytes_loop `{Ed25519} (fuel : nat) (reg : MembershipRegistry) (bs : bytes) :
    res unit MembershipRegistry :=
  match bs with
  | [] => Ok reg
  | _ =>
      match fuel with
      | O => Crash OutOfFuel
      | S fuel =>
          if decide (88 ≤ length bs) then
            let head := take 88 bs in
            let node := of_be (take 8 head) in
            key ← vk_from_bytes tt (take 32 (drop 8 head));
            from_bytes_loop fuel (register reg node key (drop 40 head)) (drop 88 bs)
          else Err tt
      end
  end.

Definition from_bytes `{Ed25519} (bs : bytes) : res unit MembershipRegistry :=
  from_bytes_loop (length bs) ∅ bs.

(** [Hashable for MembershipRegistry]. *)
Definition hash `{Sha256} (reg : MembershipRegistry) : bytes := sha256 (to_bytes reg).

End Registry.

(** [Verifiable for Event]: the only way to obtain a [VerifiedEvent]. *)
Definition verify_event `{Ed25519} (reg : MembershipRegistry) (e : Event) : res CryptoError Event :=
  key ← Registry.key_for reg (creator e);
  bs ← map_err Base (encode_unsigned_event (ev_unsigned e));
  if ed_verify_strict key bs (signature e) then mret e
  else Err SignatureVerificationFailed.

(** ** [RosterHistory] *)

Record RosterHistory := { snapshots : gmap N MembershipRegistry }.

Module Roster.

Definition new (genesis : MembershipRegistry) : RosterHistory :=
  {| snapshots := {[ 1%N := genesis ]} |}.

(** [range(..=round).next_back()], an [expect]. *)
Definition roster_for_round {E} (rh : RosterHistory) (round : N) : res E MembershipRegistry :=
  expect (snd <$> bt_last N.le (λ r, (r ≤ round)%N) (snapshots rh)).

Definition schedule (rh : RosterHistory) (activation_round : N) (reg : MembershipRegistry) :
    RosterHistory := {| snapshots := <[activation_round := reg]> (snapshots rh) |}.

(** [snapshots()]: ascending iteration. *)
Definition entries (rh : RosterHistory) : list (N * MembershipRegistry) :=
  bt_entries N.le (snapshots rh).

(** Collecting into a [BTreeMap]: a later duplicate key overwrites. *)
Definition from_snapshots (l : list (N * MembershipRegistry)) : option RosterHistory :=
  let m := foldl (λ m e, <[e.1 := e.2]> m) ∅ l in
  if decide (m = ∅) then None else Some {| snapshots := m |}.

Definition prune_before (rh : RosterHistory) (keep_from_round : N) : RosterHistory :=
  let predecessor := fst <$> bt_last N.le (λ r, (r < keep_from_round)%N) (snapshots rh) in
  {| snapshots := filter (λ e, (keep_from_round ≤ e.1)%N ∨ Some e.1 = predecessor)
                    (snapshots rh) |}.

End Roster.

(** ** [MembershipOp] *)

(** [std::net::SocketAddr]: [flowinfo] and [scope_id] exist for IPv6 only. *)
Inductive SocketAddr :=
| SocketV4 (octets : bytes) (port : N)
| SocketV6 (octets : bytes) (port flowinfo scope_id : N).

Inductive MembershipOp :=
| Add (node : NodeId) (key bls_key pop : bytes) (addr : SocketAddr)
      (reconnect_addr : option SocketAddr)
| Remove (node : NodeId).

#[export] Instance socket_addr_eq_dec : EqDecision SocketAddr.
Proof. solve_decision. Defined.
#[export] Instance membership_op_eq_dec : EqDecision MembershipOp.
Proof. solve_decision. Defined.

Module MemOp.

Definition MEMBERSHIP_ADD : byte := x00.
Definition MEMBERSHIP_REMOVE : byte := x01.
Definition ADDR_IPV4 : byte := x04.
Definition ADDR_IPV6 : byte := x06.
Definition RECONNECT_ABSENT : byte := x00.
Definition RECONNECT_PRESENT : byte := x01.

(** [addr.ip()] and [addr.port()] only. *)
Definition encode_addr (addr : SocketAddr) : bytes :=
  match addr with
  | SocketV4 octets port => ADDR_IPV4 :: octets ++ u16_be port
  | SocketV6 octets port _ _ => ADDR_IPV6 :: octets ++ u16_be port
  end.

Definition encode (op : MembershipOp) : res CryptoError bytes :=
  match op with
  | Add node key bls_key pop addr reconnect_addr =>
      a ← write_bytes (encode_addr addr);
      r ← match reconnect_addr with
          | Some ra => w ← write_bytes (encode_addr ra); mret (RECONNECT_PRESENT :: w)
          | None => mret [RECONNECT_ABSENT]
          end;
      mret (MEMBERSHIP_ADD :: u64_be node ++ key ++ bls_key ++ pop ++ a ++ r)
  | Remove node => mret (MEMBERSHIP_REMOVE :: u64_be node)
  end.

Section decode.
Context `{Ed25519}.

Definition take_key : stM bytes CryptoError bytes :=
  b ← take_exact MalformedOp 32; st_lift (λ _, vk_from_bytes MalformedOp b).
Definition take_bls_key : stM bytes CryptoError bytes := take_exact MalformedOp 48.
Definition take_pop : stM bytes CryptoError bytes := take_exact MalformedOp 96.

(** The body of the length-prefixed address field, with its own cursor. *)
Definition parse_addr : stM bytes CryptoError SocketAddr :=
  tag ← take_byte MalformedOp;
  addr ← (if decide (tag = ADDR_IPV4) then
            octets ← take_exact MalformedOp 4;
            port ← take_u16 MalformedOp;
            mret (SocketV4 octets port)
          else if decide (tag = ADDR_IPV6) then
            octets ← take_exact MalformedOp 16;
            port ← take_u16 MalformedOp;
            mret (SocketV6 octets port 0 0)
          else st_fail MalformedOp);
  reject_trailing MalformedOp ;;
  mret addr.

Definition take_addr : stM bytes CryptoError SocketAddr :=
  encoded ← take_bytes MalformedOp;
  st_lift (λ _, (parse_addr encoded).1).

Definition take_optional_addr : stM bytes CryptoError (option SocketAddr) :=
  flag ← take_byte MalformedOp;
  if decide (flag = RECONNECT_ABSENT) then mret None
  else if decide (flag = RECONNECT_PRESENT) then a ← take_addr; mret (Some a)
  else st_fail MalformedOp.

Definition decode_body (opcode : byte) : stM bytes CryptoError MembershipOp :=
  if decide (opcode = MEMBERSHIP_ADD) then
    node ← take_u64 MalformedOp;
    key ← take_key;
    bls_key ← take_bls_key;
    pop ← take_pop;
    addr ← take_addr;
    reconnect_addr ← take_optional_addr;
    reject_trailing MalformedOp ;;
    mret (Add node key bls_key pop addr reconnect_addr)
  else if decide (opcode = MEMBERSHIP_REMOVE) then
    node ← take_u64 MalformedOp;
    reject_trailing MalformedOp ;;
    mret (Remove node)
  else st_fail (UnknownMembershipOpcode opcode).

Definition decode (payload : bytes) : res CryptoError MembershipOp :=
  match payload with
  | [] => Err MalformedOp
  | opcode :: cursor => (decode_body opcode cursor).1
  end.
End decode.
End MemOp.

(** ** Registries *)

(** What the types [NodeId], [VerifyingKey] and [[u8; 48]] guarantee. *)
Definition wf_member `{Ed25519} (node : NodeId) (m : bytes * bytes) : Prop :=
  is_u64 node ∧ length m.1 = 32 ∧ vk_valid m.1 = true ∧ length m.2 = 48.

Definition wf_registry `{Ed25519} (reg : MembershipRegistry) : Prop :=
  map_Forall wf_member reg.

Module RegistryFacts.
Section facts.
Context `{Ed25519}.

Lemma wf_register reg node key bls :
  wf_registry reg → wf_member node (key, bls) →
  wf_registry (Registry.register reg node key bls).
Proof. intros. by apply map_Forall_insert_2. Qed.

Lemma length_member_bytes node m :
  wf_member node m → length (Registry.member_bytes (node, m)) = 88.
Proof.
  intros (_ & Hk & _ & Hb). unfold Registry.member_bytes; simpl.
  rewrite !length_app, length_be_bytes. lia.
Qed.

Lemma from_bytes_loop_unfold fuel reg bs :
  bs ≠ [] →
  Registry.from_bytes_loop (S fuel) reg bs
  = if decide (88 ≤ length bs) then
      key ← vk_from_bytes tt (take 32 (drop 8 (take 88 bs)));
      Registry.from_bytes_loop fuel
        (Registry.register reg (of_be (take 8 (take 88 bs))) key (drop 40 (take 88 bs)))
        (drop 88 bs)
    else Err tt.
Proof. by destruct bs. Qed.

(** One turn of the [from_bytes] loop consumes one encoded member. *)
Lemma from_bytes_loop_step fuel reg node m bs :
  wf_member node m →
  Registry.from_bytes_loop (S fuel) reg (Registry.member_bytes (node, m) ++ bs)
  = Registry.from_bytes_loop fuel (<[node := m]> reg) bs.
Proof.
  intros Hwf. pose proof (length_member_bytes node m Hwf) as Hlen.
  destruct m as [k b]; destruct Hwf as (Hn & Hk & Hv & Hb); cbn [fst snd] in *.
  set (w := Registry.member_bytes (node, (k, b))) in *.
  assert (w ++ bs ≠ []) by (destruct w; simpl in *; [lia|done]).
  rewrite from_bytes_loop_unfold, decide_True by (done || (rewrite length_app; lia)).
  rewrite <- Hlen, take_app_length, drop_app_length. unfold w, Registry.member_bytes; simpl.
  rewrite take_app_length' by (symmetry; apply length_be_bytes).
  rewrite of_be_be_bytes by done.
  rewrite (drop_app_length' _ _ 8) by (symmetry; apply length_be_bytes).
  rewrite take_app_length' by done.
  unfold vk_from_bytes. rewrite Hv. simpl.
  rewrite (assoc_L (++)), drop_app_length'; [done|].
  rewrite length_app, length_be_bytes. lia.
Qed.

Lemma from_bytes_loop_entries (l : list (NodeId * (bytes * bytes))) fuel reg :
  Forall (λ e, wf_member e.1 e.2) l → length l ≤ fuel →
  Registry.from_bytes_loop fuel reg (concat (Registry.member_bytes <$> l))
  = Ok (foldl (λ r e, <[e.1 := e.2]> r) reg l).
Proof.
  intros Hl. revert fuel reg. induction Hl as [|[n m] l Hm Hl IH]; intros fuel reg Hf; simpl.
  - by destruct fuel.
  - destruct fuel as [|fuel]; simpl in Hf; [lia|].
    rewrite from_bytes_loop_step by done. apply IH. lia.
Qed.

Lemma foldl_insert_NoDup {V} (l : list (N * V)) (m : gmap N V) :
  NoDup l.*1 → (∀ k, k ∈ l.*1 → m !! k = None) →
  foldl (λ r e, <[e.1 := e.2]> r) m l = list_to_map l ∪ m.
Proof.
  revert m. induction l as [|[k v] l IH]; intros m Hnd Hm; simpl.
  { by rewrite (left_id_L ∅ (∪)). }
  simpl in Hnd. apply NoDup_cons in Hnd as [Hk Hnd]. rewrite IH; [|done|].
  - rewrite <- insert_union_r; [by rewrite insert_union_l|].
    by apply not_elem_of_list_to_map_1.
  - intros k' Hk'. rewrite lookup_insert_ne by (intros ->; done).
    apply Hm. simpl. by right.
Qed.

Lemma foldl_insert_bt_entries {V} (m : gmap N V) :
  foldl (λ r e, <[e.1 := e.2]> r) ∅ (bt_entries N.le m) = m.
Proof.
  rewrite foldl_insert_NoDup, (right_id_L ∅ (∪)).
  - rewrite <- (list_to_map_to_list m) at 2.
    apply list_to_map_proper; [apply bt_entries_keys_NoDup|apply bt_entries_perm].
  - apply bt_entries_keys_NoDup.
  - intros. apply lookup_empty.
Qed.

Lemma length_concat_const {A} (l : list (list A)) n :
  Forall (λ x, length x = n) l → length (concat l) = length l * n.
Proof. induction 1; simpl; [done|]. rewrite length_app; lia. Qed.

Lemma wf_entries reg :
  wf_registry reg → Forall (λ e, wf_member e.1 e.2) (bt_entries N.le reg).
Proof.
  intros Hwf. apply Forall_forall. intros [n m] Hin.
  apply elem_of_bt_entries in Hin. by apply (Hwf n m).
Qed.

Lemma length_to_bytes reg :
  wf_registry reg → length (Registry.to_bytes reg) = Registry.len reg * 88.
Proof.
  intros Hwf. unfold Registry.to_bytes. rewrite (length_concat_const _ 88).
  - by rewrite length_fmap, length_bt_entries.
  - apply Forall_fmap. eapply Forall_impl; [by apply wf_entries|].
    intros [n m]. apply length_member_bytes.
Qed.

Lemma from_to_bytes reg :
  wf_registry reg → Registry.from_bytes (Registry.to_bytes reg) = Ok reg.
Proof.
  intros Hwf. unfold Registry.from_bytes.
  pose proof (length_to_bytes reg Hwf) as Hlen.
  unfold Registry.to_bytes at 2. rewrite from_bytes_loop_entries.
  - by rewrite foldl_insert_bt_entries.
  - by apply wf_entries.
  - rewrite Hlen, length_bt_entries. unfold Registry.len. lia.
Qed.

Lemma to_bytes_inj r1 r2 :
  wf_registry r1 → wf_registry r2 → Registry.to_bytes r1 = Registry.to_bytes r2 → r1 = r2.
Proof.
  intros H1%from_to_bytes H2%from_to_bytes Eq. rewrite Eq in H1. congruence.
Qed.

(** The loop never runs out of turns, on any input, and what it accepts is
    well formed. *)
Lemma from_bytes_loop_safe fuel reg bs :
  length bs ≤ fuel → no_crash (Registry.from_bytes_loop fuel reg bs).
Proof.
  revert reg bs. induction fuel as [|fuel IH]; intros reg bs Hl c.
  { destruct bs; simpl in *; [done|lia]. }
  destruct (decide (bs = [])) as [->|Hne]; [done|].
  rewrite from_bytes_loop_unfold by done. case_decide; [|done].
  unfold vk_from_bytes. case_match; [|done]. apply IH. rewrite length_drop. lia.
Qed.

Lemma from_bytes_loop_wf fuel reg bs reg' :
  wf_registry reg → Registry.from_bytes_loop fuel reg bs = Ok reg' → wf_registry reg'.
Proof.
  revert reg bs. induction fuel as [|fuel IH]; intros reg bs Hwf Hok.
  { destruct bs; simpl in Hok; simplify_eq; done. }
  destruct (decide (bs = [])) as [->|Hne]; [simpl in Hok; by simplify_eq|].
  rewrite from_bytes_loop_unfold in Hok by done.
  case_decide as Hlen; [|done]. unfold vk_from_bytes in Hok.
  case_match eqn:Hv; [|done].
  eapply IH; [|exact Hok]. apply wf_register; [done|].
  repeat split; cbn [fst snd];
    [|rewrite length_take, length_drop, length_take; lia|done|rewrite length_drop, length_take; lia].
  unfold is_u64. eapply N.lt_le_trans; [apply of_be_lt|].
  change u64_modulus with (256 ^ 8)%N. apply N.pow_le_mono_r; [done|].
  rewrite length_take. lia.
Qed.
End facts.

Lemma member_ids_any_order (reg : MembershipRegistry) (l : list NodeId) :
  l ≡ₚ (map_to_list reg).*1 → merge_sort N.le l = Registry.member_ids reg.
Proof.
  intros Hp. unfold Registry.member_ids. apply (Sorted_unique N.le).
  - apply Sorted_merge_sort, _.
  - apply Sorted_merge_sort, _.
  - by rewrite !merge_sort_Permutation.
Qed.
End RegistryFacts.

(** ** Roster history *)

Module RosterFacts.

Lemma roster_for_round_Ok {E} rh r reg :
  Roster.roster_for_round (E := E) rh r = Ok reg ↔
  ∃ a, snapshots rh !! a = Some reg ∧ (a ≤ r)%N ∧
       ∀ a', is_Some (snapshots rh !! a') → (a' ≤ r)%N → (a' ≤ a)%N.
Proof.
  unfold Roster.roster_for_round. split.
  - destruct (bt_last _ _ _) as [[a reg']|] eqn:Eb; simpl; [|done].
    intros [= <-]. apply btN_last_Some in Eb as (Ha & Hle & Hmax).
    exists a. split_and!; [done..|]. intros a' [v Hv]. by apply (Hmax a' v).
  - intros (a & Ha & Hle & Hmax).
    assert (bt_last N.le (λ x, (x ≤ r)%N) (snapshots rh) = Some (a, reg)) as ->; [|done].
    apply btN_last_Some. split_and!; [done..|]. intros a' v Hv. apply Hmax. by eexists.
Qed.

Lemma roster_for_round_resolves {E} rh r a :
  is_Some (snapshots rh !! a) → (a ≤ r)%N →
  ∃ reg, Roster.roster_for_round (E := E) rh r = Ok reg.
Proof.
  intros [reg Ha] Hle. unfold Roster.roster_for_round.
  destruct (bt_last _ _ _) as [[a' reg']|] eqn:Eb; [by eexists|].
  eapply btN_last_None in Eb; [|exact Ha]. done.
Qed.

Lemma roster_for_round_crash {E} rh r :
  (∀ a, is_Some (snapshots rh !! a) → (r < a)%N) →
  Roster.roster_for_round (E := E) rh r = Crash Panicked.
Proof.
  intros Hno. unfold Roster.roster_for_round.
  destruct (bt_last _ _ _) as [[a reg]|] eqn:Eb; [|done].
  apply btN_last_Some in Eb as (Ha & Hle & _).
  specialize (Hno a (mk_is_Some _ _ Ha)). lia.
Qed.

(** Two histories that agree on the snapshots visible from [r] resolve [r]
    alike. *)
Lemma roster_for_round_ext {E} rh1 rh2 r :
  (∀ reg, (∃ a, snapshots rh1 !! a = Some reg ∧ (a ≤ r)%N ∧
             ∀ a', is_Some (snapshots rh1 !! a') → (a' ≤ r)%N → (a' ≤ a)%N) ↔
          (∃ a, snapshots rh2 !! a = Some reg ∧ (a ≤ r)%N ∧
             ∀ a', is_Some (snapshots rh2 !! a') → (a' ≤ r)%N → (a' ≤ a)%N)) →
  Roster.roster_for_round (E := E) rh1 r = Roster.roster_for_round rh2 r.
Proof.
  intros Hext. destruct (Roster.roster_for_round rh2 r) as [reg| |] eqn:E2.
  - apply roster_for_round_Ok. apply (proj2 (Hext reg)).
    by apply (roster_for_round_Ok (E := E)).
  - unfold Roster.roster_for_round in E2. by destruct (bt_last _ _ _).
  - destruct (Roster.roster_for_round rh1 r) as [reg| |] eqn:E1.
    + apply roster_for_round_Ok, (proj1 (Hext reg)) in E1.
      apply (roster_for_round_Ok (E := E)) in E1. congruence.
    + unfold Roster.roster_for_round in E1. by destruct (bt_last _ _ _).
    + unfold Roster.roster_for_round in E1, E2.
      destruct (bt_last _ _ _), (bt_last _ _ _); simpl in *; congruence.
Qed.

Lemma roster_for_round_schedule_before {E} rh a reg r :
  (r < a)%N →
  Roster.roster_for_round (E := E) (Roster.schedule rh a reg) r = Roster.roster_for_round rh r.
Proof.
  intros Hlt. apply roster_for_round_ext. intros reg'. cbn [snapshots Roster.schedule].
  split; intros (b & Hb & Hle & Hmax); exists b.
  - rewrite lookup_insert_ne in Hb by lia. split_and!; [done..|].
    intros a' Ha' Hle'. apply Hmax; [|done]. by rewrite lookup_insert_ne by lia.
  - rewrite lookup_insert_ne by lia. split_and!; [done..|].
    intros a' Ha' Hle'. rewrite lookup_insert_ne in Ha' by lia. by apply Hmax.
Qed.

Lemma roster_for_round_schedule_from {E} rh a reg r :
  (a ≤ r)%N → (∀ a', is_Some (snapshots rh !! a') → (a' ≤ r)%N → (a' ≤ a)%N) →
  Roster.roster_for_round (E := E) (Roster.schedule rh a reg) r = Ok reg.
Proof.
  intros Hle Hmax. apply roster_for_round_Ok. exists a. cbn [snapshots Roster.schedule].
  rewrite lookup_insert_eq. split_and!; [done..|]. intros a' Ha' Hle'.
  destruct (decide (a' = a)) as [->|]; [done|].
  rewrite lookup_insert_ne in Ha' by done. by apply Hmax.
Qed.

Lemma prune_before_predecessor rh keep a :
  is_Some (snapshots rh !! a) →
  Some a = (fst <$> bt_last N.le (λ r, (r < keep)%N) (snapshots rh)) ↔
  (a < keep)%N ∧ ∀ a', is_Some (snapshots rh !! a') → (a' < keep)%N → (a' ≤ a)%N.
Proof.
  intros [reg Ha]. split.
  - destruct (bt_last _ _ _) as [[b reg']|] eqn:Eb; simpl; [|done]. intros [= <-].
    apply btN_last_Some in Eb as (_ & Hlt & Hmax). split; [done|].
    intros a' [v Hv]. by apply (Hmax a' v).
  - intros [Hlt Hmax].
    assert (bt_last N.le (λ r, (r < keep)%N) (snapshots rh) = Some (a, reg)) as ->; [|done].
    apply btN_last_Some. split_and!; [done..|]. intros a' v Hv. apply Hmax. by eexists.
Qed.

Lemma lookup_prune_before rh keep a reg :
  snapshots (Roster.prune_before rh keep) !! a = Some reg ↔
  snapshots rh !! a = Some reg ∧
  ((keep ≤ a)%N ∨
   ((a < keep)%N ∧ ∀ a', is_Some (snapshots rh !! a') → (a' < keep)%N → (a' ≤ a)%N)).
Proof.
  cbn [snapshots Roster.prune_before]. rewrite map_lookup_filter_Some. simpl.
  split; intros [Ha Hor]; (split; [done|]);
    rewrite prune_before_predecessor in * by (by eexists); done.
Qed.

Lemma roster_for_round_prune_before {E} rh keep r :
  (keep ≤ r)%N →
  Roster.roster_for_round (E := E) (Roster.prune_before rh keep) r
  = Roster.roster_for_round rh r.
Proof.
  intros Hkeep. apply roster_for_round_ext. intros reg. split.
  - intros (a & Ha & Hle & Hmax). apply lookup_prune_before in Ha as [Ha Hor].
    exists a. split_and!; [done..|]. intros a' [v Ha'] Hle'.
    destruct (decide (keep ≤ a')%N) as [|Hlt].
    + apply Hmax; [|done]. exists v. apply lookup_prune_before. auto.
    + destruct Hor as [|[? Hpred]]; [lia|]. apply Hpred; [by eexists|lia].
  - intros (a & Ha & Hle & Hmax). exists a. split_and!; [|done|].
    + apply lookup_prune_before. split; [done|].
      destruct (decide (keep ≤ a)%N); [by left|right]. split; [lia|].
      intros a' Ha' Hlt. apply Hmax; [done|lia].
    + intros a' [v [Ha' _]%lookup_prune_before]. apply Hmax. by eexists.
Qed.

Lemma from_snapshots_entries rh :
  snapshots rh ≠ ∅ → Roster.from_snapshots (Roster.entries rh) = Some rh.
Proof.
  intros Hne. unfold Roster.from_snapshots, Roster.entries.
  rewrite RegistryFacts.foldl_insert_bt_entries, decide_False by done. by destruct rh.
Qed.
End RosterFacts.

(** ** The membership-operation codec *)

(** The field widths the Rust types guarantee. *)
Definition wf_addr (a : SocketAddr) : Prop :=
  match a with
  | SocketV4 octets port => length octets = 4 ∧ (port < 2 ^ 16)%N
  | SocketV6 octets port flowinfo scope_id =>
      length octets = 16 ∧ (port < 2 ^ 16)%N ∧ is_u32 flowinfo ∧ is_u32 scope_id
  end.

Definition wf_op `{Ed25519} (op : MembershipOp) : Prop :=
  match op with
  | Add node key bls_key pop addr reconnect_addr =>
      wf_member node (key, bls_key) ∧ length pop = 96 ∧ wf_addr addr ∧
      match reconnect_addr with Some a => wf_addr a | None => True end
  | Remove node => is_u64 node
  end.

(** What survives the wire: the IPv6 flow label and scope do not. *)
Definition canonical_addr (a : SocketAddr) : SocketAddr :=
  match a with
  | SocketV4 octets port => SocketV4 octets port
  | SocketV6 octets port _ _ => SocketV6 octets port 0 0
  end.

Definition canonical_op (op : MembershipOp) : MembershipOp :=
  match op with
  | Add node key bls_key pop addr reconnect_addr =>
      Add node key bls_key pop (canonical_addr addr) (canonical_addr <$> reconnect_addr)
  | Remove node => Remove node
  end.

Module MemOpFacts.
Section facts.
Context `{Ed25519}.

Lemma length_encode_addr a :
  wf_addr a → is_u32 (N.of_nat (length (MemOp.encode_addr a))).
Proof.
  destruct a; simpl; intros Hwf; rewrite length_app, length_be_bytes;
    unfold is_u32, u32_modulus; lia.
Qed.

Lemma parses_addr a :
  wf_addr a → parses MemOp.parse_addr (MemOp.encode_addr a) (canonical_addr a).
Proof.
  intros Hwf. unfold MemOp.parse_addr. destruct a as [o p|o p f s]; simpl in *.
  - change (_ :: o ++ _) with ([MemOp.ADDR_IPV4] ++ o ++ u16_be p).
    parse_step; [apply decodes_take_byte|].
    rewrite decide_True by done. eapply parses_bind_nil; [|apply parses_end].
    codec_step; [apply decodes_take_exact; lia|].
    codec_step; [apply decodes_take_u16; tauto|]. apply decodes_ret.
  - change (_ :: o ++ _) with ([MemOp.ADDR_IPV6] ++ o ++ u16_be p).
    parse_step; [apply decodes_take_byte|].
    rewrite decide_False, decide_True by done. eapply parses_bind_nil; [|apply parses_end].
    codec_step; [apply decodes_take_exact; lia|].
    codec_step; [apply decodes_take_u16; tauto|]. apply decodes_ret.
Qed.

Lemma decodes_take_addr a w :
  wf_addr a → write_bytes (E := CryptoError) (MemOp.encode_addr a) = Ok w →
  decodes MemOp.take_addr w (canonical_addr a).
Proof.
  intros Hwf. rewrite write_bytes_Ok by (by apply length_encode_addr). intros <-%res_ret_Ok.
  unfold MemOp.take_addr.
  eapply decodes_bind_nil; [by apply decodes_take_bytes, length_encode_addr|].
  intros rest. unfold st_lift. by rewrite (parses_result _ _ _ (parses_addr a Hwf)).
Qed.

Lemma decodes_take_optional_addr o w :
  match o with Some a => wf_addr a | None => True end →
  match o with
  | Some ra => w ← write_bytes (E := CryptoError) (MemOp.encode_addr ra);
               mret (MemOp.RECONNECT_PRESENT :: w)
  | None => mret [MemOp.RECONNECT_ABSENT]
  end = Ok w →
  decodes MemOp.take_optional_addr w (canonical_addr <$> o).
Proof.
  unfold MemOp.take_optional_addr. destruct o as [a|]; intros Hwf Hw.
  - apply res_bind_Ok in Hw as (w' & Hw' & <-%res_ret_Ok).
    change (_ :: w') with ([MemOp.RECONNECT_PRESENT] ++ w').
    codec_step; [apply decodes_take_byte|]. rewrite decide_False, decide_True by done.
    codec_step; [by eapply decodes_take_addr|]. apply decodes_ret.
  - apply res_ret_Ok in Hw as <-. codec_step; [apply decodes_take_byte|].
    rewrite decide_True by done. apply decodes_ret.
Qed.

Lemma decodes_take_key k :
  length k = 32 → vk_valid k = true → decodes MemOp.take_key k k.
Proof.
  intros Hk Hv. unfold MemOp.take_key.
  codec_step; [apply decodes_take_exact; lia|].
  intros rest. unfold st_lift, vk_from_bytes. by rewrite Hv.
Qed.

Lemma decode_encode op w :
  wf_op op → MemOp.encode op = Ok w → MemOp.decode w = Ok (canonical_op op).
Proof.
  destruct op as [node key bls pop addr raddr|node]; simpl; intros Hwf Hw.
  - destruct Hwf as ((Hn & Hk & Hv & Hb) & Hpop & Ha & Hra). simpl in *.
    apply res_bind_Ok in Hw as (wa & Hwa & (wr & Hwr & <-%res_ret_Ok)%res_bind_Ok).
    cbn [MemOp.decode]. apply parses_result. unfold MemOp.decode_body.
    rewrite decide_True by done.
    parse_step; [by apply decodes_take_u64|].
    parse_step; [by apply decodes_take_key|].
    parse_step; [apply decodes_take_exact; lia|].
    parse_step; [apply decodes_take_exact; lia|].
    parse_step; [by eapply decodes_take_addr|].
    parse_step; [by eapply decodes_take_optional_addr|]. apply parses_end.
  - apply res_ret_Ok in Hw as <-. cbn [MemOp.decode]. apply parses_result.
    unfold MemOp.decode_body. rewrite decide_False, decide_True by done.
    parse_step; [by apply decodes_take_u64|]. apply parses_end.
Qed.

Lemma encode_total op : wf_op op → ∃ w, MemOp.encode op = Ok w.
Proof.
  destruct op as [node key bls pop addr raddr|node]; simpl; [|by eexists].
  intros (_ & _ & Ha & Hra). rewrite write_bytes_Ok by (by apply length_encode_addr).
  destruct raddr as [ra|]; simpl; [|by eexists].
  rewrite write_bytes_Ok by (by apply length_encode_addr). by eexists.
Qed.

Lemma no_crash_vk {E} (e : E) k : no_crash (vk_from_bytes e k).
Proof. intros c. unfold vk_from_bytes. by case_match. Qed.

Lemma total_take_addr : never_panics MemOp.take_addr.
Proof.
  assert (never_panics MemOp.parse_addr) by (unfold MemOp.parse_addr; solve_total).
  unfold MemOp.take_addr. apply total_bind; [solve_total|]. intros b.
  apply total_lift. done.
Qed.

Lemma decode_no_crash w : no_crash (MemOp.decode w).
Proof.
  pose proof total_take_addr. destruct w as [|op w]; [by intros c|].
  cbn [MemOp.decode]. generalize w. fold (never_panics (MemOp.decode_body op)).
  assert (never_panics MemOp.take_key).
  { apply total_bind; [solve_total|]. intros. by apply total_lift, no_crash_vk. }
  unfold MemOp.decode_body, MemOp.take_bls_key, MemOp.take_pop, MemOp.take_optional_addr.
  solve_total.
Qed.
End facts.
End MemOpFacts.
