(* ===== verification/Graph.v ===== *)
(** * The hashgraph state

    [protocol/consensus/src/hashgraph.rs]: the stored events with their
    incremental bookkeeping ([EventRecord]), the indexes of [Hashgraph], and
    the accessors and single-field updates the algorithms are built from.

    The diagnostic counters [walk_metrics] and [insert_timing] are never read
    by the program's logic and are left out.  [u64] additions wrap, as in the
    release build; [usize] counts are [nat]. *)

From S2P Require Import Prelude Codec External Primitives Membership.

(** [consensus::ConsensusError] ([InsertError] and [AncestryError] are
    aliases). *)
Inductive ConsensusError :=
| AlreadyPresent (hash : EventHash)
| MissingParent (hash : EventHash)
| UnknownCreator
| UnknownEvent (hash : EventHash)
| AncestorSeqsMismatch (expected got : nat)
| EncodingFailed (reason : PrimError)
| InvalidSelfParent
| InvalidRetainedSeq (expected got : N)
| InvalidRetainedAncestors
| InvalidRetainedRound (base got : N)
| InvalidRetainedOrder
| DecidedRoundBeyondRetained (decided max_retained : N).

Inductive FameStatus := Undecided | Famous | NotFamous.

#[export] Instance fame_status_eq_dec : EqDecision FameStatus.
Proof. solve_decision. Defined.

Record EventRecord := mkRecord {
  rec_event : Event;
  rec_seq : N;
  rec_ancestor_seqs : list N;
  rec_round : N;
  rec_is_witness : bool;
  rec_votes : gmap EventHash bool;
  rec_fame : FameStatus;
  rec_round_received : option N;
  rec_consensus_timestamp : option Timestamp;
}.

Record Hashgraph := mkHashgraph {
  events : gmap EventHash EventRecord;
  children : gmap EventHash (list EventHash);
  first_child : gmap (NodeId * option EventHash) EventHash;
  by_creator_seq : gmap (NodeId * N) EventHash;
  latest_by_creator : gmap NodeId EventHash;
  member_index : gmap NodeId nat;
  member_count : nat;
  roster_history : RosterHistory;
  known_forkers : list bool;
  witnesses_by_round : gmap N (list EventHash);
  undecided_witnesses : gmap EventHash N;
  highest_witness_round : N;
  fully_decided_rounds : gset N;
  next_round_to_order : N;
}.

(** Methods that only read [self], and methods that mutate it. *)
Abbreviation query A := (Hashgraph → res ConsensusError A).
Abbreviation action A := (stM Hashgraph ConsensusError A).

(** ** Field updates *)

Module Upd.
Definition record_round (round : N) (is_witness : bool) (r : EventRecord) : EventRecord :=
  mkRecord (rec_event r) (rec_seq r) (rec_ancestor_seqs r) round is_witness (rec_votes r)
    (rec_fame r) (rec_round_received r) (rec_consensus_timestamp r).
Definition record_vote (candidate : EventHash) (vote : bool) (r : EventRecord) : EventRecord :=
  mkRecord (rec_event r) (rec_seq r) (rec_ancestor_seqs r) (rec_round r) (rec_is_witness r)
    (<[candidate := vote]> (rec_votes r)) (rec_fame r) (rec_round_received r)
    (rec_consensus_timestamp r).
Definition record_fame (status : FameStatus) (r : EventRecord) : EventRecord :=
  mkRecord (rec_event r) (rec_seq r) (rec_ancestor_seqs r) (rec_round r) (rec_is_witness r)
    (rec_votes r) status (rec_round_received r) (rec_consensus_timestamp r).
(** [EventRecord::set_order]. *)
Definition record_order (round : N) (ts : Timestamp) (r : EventRecord) : EventRecord :=
  mkRecord (rec_event r) (rec_seq r) (rec_ancestor_seqs r) (rec_round r) (rec_is_witness r)
    (rec_votes r) (rec_fame r) (Some round) (Some ts).
Definition record_push_seq (r : EventRecord) : EventRecord :=
  mkRecord (rec_event r) (rec_seq r) (rec_ancestor_seqs r ++ [0%N]) (rec_round r)
    (rec_is_witness r) (rec_votes r) (rec_fame r) (rec_round_received r)
    (rec_consensus_timestamp r).

Definition events (f : gmap EventHash EventRecord → gmap EventHash EventRecord)
    (hg : Hashgraph) : Hashgraph :=
  mkHashgraph (f (events hg)) (children hg) (first_child hg) (by_creator_seq hg)
    (latest_by_creator hg) (member_index hg) (member_count hg) (roster_history hg)
    (known_forkers hg) (witnesses_by_round hg) (undecided_witnesses hg)
    (highest_witness_round hg) (fully_decided_rounds hg) (next_round_to_order hg).
(** The structural indexes. *)
Definition indexes (ch : gmap EventHash (list EventHash))
    (fc : gmap (NodeId * option EventHash) EventHash) (bcs : gmap (NodeId * N) EventHash)
    (latest : gmap NodeId EventHash) (forkers : list bool) (hg : Hashgraph) : Hashgraph :=
  mkHashgraph (Graph.events hg) ch fc bcs latest (member_index hg) (member_count hg)
    (roster_history hg) forkers (witnesses_by_round hg) (undecided_witnesses hg)
    (highest_witness_round hg) (fully_decided_rounds hg) (next_round_to_order hg).
(** The witness bookkeeping. *)
Definition witnesses (wbr : gmap N (list EventHash)) (undecided : gmap EventHash N)
    (highest : N) (hg : Hashgraph) : Hashgraph :=
  mkHashgraph (Graph.events hg) (children hg) (first_child hg) (by_creator_seq hg)
    (latest_by_creator hg) (member_index hg) (member_count hg) (roster_history hg)
    (known_forkers hg) wbr undecided highest (fully_decided_rounds hg)
    (next_round_to_order hg).
(** The ordering progress. *)
Definition rounds (decided : gset N) (next : N) (hg : Hashgraph) : Hashgraph :=
  mkHashgraph (Graph.events hg) (children hg) (first_child hg) (by_creator_seq hg)
    (latest_by_creator hg) (member_index hg) (member_count hg) (roster_history hg)
    (known_forkers hg) (witnesses_by_round hg) (undecided_witnesses hg)
    (highest_witness_round hg) decided next.
(** The membership structures. *)
Definition members (mi : gmap NodeId nat) (mc : nat) (rh : RosterHistory)
    (forkers : list bool) (hg : Hashgraph) : Hashgraph :=
  mkHashgraph (Graph.events hg) (children hg) (first_child hg) (by_creator_seq hg)
    (latest_by_creator hg) mi mc rh forkers (witnesses_by_round hg) (undecided_witnesses hg)
    (highest_witness_round hg) (fully_decided_rounds hg) (next_round_to_order hg).
End Upd.

(** ** Construction *)

(** [member_ids().into_iter().zip(0..).collect()]. *)
Definition index_members (ids : list NodeId) : gmap NodeId nat :=
  list_to_map (zip ids (seq 0 (length ids))).

Definition new (registry : MembershipRegistry) : Hashgraph :=
  let ids := Registry.member_ids registry in
  {| events := ∅; children := ∅; first_child := ∅; by_creator_seq := ∅;
     latest_by_creator := ∅; member_index := index_members ids;
     member_count := length ids; roster_history := Roster.new registry;
     known_forkers := replicate (length ids) false; witnesses_by_round := ∅;
     undecided_witnesses := ∅; highest_witness_round := 0;
     fully_decided_rounds := ∅; next_round_to_order := 1 |}.

(** ** Reading *)

Definition get (hg : Hashgraph) (hash : EventHash) : option EventRecord := events hg !! hash.

(** [self.ancestor_seqs[member_idx]]: an index panics out of range. *)
Definition ancestor_seq (r : EventRecord) (member_idx : nat) : res ConsensusError N :=
  expect (rec_ancestor_seqs r !! member_idx).

Definition vote_for (r : EventRecord) (w : EventHash) : option bool := rec_votes r !! w.

Definition latest_event_by (hg : Hashgraph) (node : NodeId) : option EventHash :=
  latest_by_creator hg !! node.

Definition children_of (hg : Hashgraph) (hash : EventHash) : list EventHash :=
  default [] (children hg !! hash).

Definition witnesses_of_round (hg : Hashgraph) (round : N) : list EventHash :=
  default [] (witnesses_by_round hg !! round).

Definition fame_of (hg : Hashgraph) (witness : EventHash) : option FameStatus :=
  record ← get hg witness;
  if rec_is_witness record then Some (rec_fame record) else None.

Definition member_index_of (hg : Hashgraph) (node : NodeId) : option nat :=
  member_index hg !! node.

Definition is_member (hg : Hashgraph) (node : NodeId) : bool :=
  bool_decide (is_Some (member_index hg !! node)).

Definition is_round_decided (hg : Hashgraph) (round : N) : bool :=
  bool_decide (round ∈ fully_decided_rounds hg).

Definition creator_has_known_fork (hg : Hashgraph) (member_idx : nat) :
    res ConsensusError bool := expect (known_forkers hg !! member_idx).

Definition event_for_creator_seq (hg : Hashgraph) (c : NodeId) (seq : N) : option EventHash :=
  by_creator_seq hg !! (c, seq).

Definition canonical_child (hg : Hashgraph) (c : NodeId) (sp : option EventHash) :
    option EventHash := first_child hg !! (c, sp).

Definition member_count_at_round (hg : Hashgraph) (round : N) : res ConsensusError nat :=
  reg ← Roster.roster_for_round (roster_history hg) round;
  mret (Registry.len reg).

Definition registry_at_round (hg : Hashgraph) (round : N) :
    res ConsensusError MembershipRegistry := Roster.roster_for_round (roster_history hg) round.

(** [BTreeSet::last]. *)
Definition highest_decided_round (hg : Hashgraph) : N :=
  foldr N.max 0%N (elements (fully_decided_rounds hg)).

(** [values().filter_map(round_received).max().unwrap_or(0)]. *)
Definition max_ordered_round (hg : Hashgraph) : N :=
  foldr N.max 0%N (omap (λ e, rec_round_received e.2) (map_to_list (events hg))).

Section iteration.
Context `{HashOrder}.

(** [member_index_iter]. *)
Definition member_index_iter (hg : Hashgraph) : list (NodeId * nat) := hm_iter (member_index hg).

Definition pending_order_events (hg : Hashgraph) : list EventHash :=
  (filter (λ e, rec_round_received e.2 = None) (hm_iter (events hg))).*1.

Definition all_event_hashes (hg : Hashgraph) : list EventHash := (hm_iter (events hg)).*1.
End iteration.

(** ** Writing *)

(** [if let Some(record) = self.events.get_mut(hash) { .. }]. *)
Definition set_event_order (hash : EventHash) (round : N) (ts : Timestamp) :
    Hashgraph → Hashgraph := Upd.events (alter (Upd.record_order round ts) hash).

Definition record_vote (voter candidate : EventHash) (vote : bool) : Hashgraph → Hashgraph :=
  Upd.events (alter (Upd.record_vote candidate vote) voter).

Definition set_event_round (hash : EventHash) (round : N) (is_witness : bool) :
    Hashgraph → Hashgraph := Upd.events (alter (Upd.record_round round is_witness) hash).

Definition record_witness (round : N) (hash : EventHash) (hg : Hashgraph) : Hashgraph :=
  Upd.witnesses
    (<[round := witnesses_of_round hg round ++ [hash]]> (witnesses_by_round hg))
    (<[hash := round]> (undecided_witnesses hg))
    (N.max (highest_witness_round hg) round) hg.

(** ** Shape and skeleton

    The shape of a hashgraph is what [see] reads: the stored events with
    their sequence numbers and rows, the indexes and the membership.  The
    skeleton adds the rounds and the witness lists.  Voting, fame decisions
    and ordering change neither. *)

Definition rec_shape (r : EventRecord) : Event * N * list N :=
  (rec_event r, rec_seq r, rec_ancestor_seqs r).
Definition rec_rank (r : EventRecord) : N * bool := (rec_round r, rec_is_witness r).

Record same_shape (g1 g2 : Hashgraph) : Prop := {
  shape_events : rec_shape <$> events g1 = rec_shape <$> events g2;
  shape_children : children g1 = children g2;
  shape_first_child : first_child g1 = first_child g2;
  shape_by_creator_seq : by_creator_seq g1 = by_creator_seq g2;
  shape_latest : latest_by_creator g1 = latest_by_creator g2;
  shape_member_index : member_index g1 = member_index g2;
  shape_member_count : member_count g1 = member_count g2;
  shape_roster : roster_history g1 = roster_history g2;
  shape_forkers : known_forkers g1 = known_forkers g2;
}.

Record same_skel (g1 g2 : Hashgraph) : Prop := {
  skel_shape : same_shape g1 g2;
  skel_ranks : rec_rank <$> events g1 = rec_rank <$> events g2;
  skel_witnesses : witnesses_by_round g1 = witnesses_by_round g2;
  skel_highest : highest_witness_round g1 = highest_witness_round g2;
}.

#[export] Instance same_shape_equiv : Equivalence same_shape.
Proof.
  split.
  - by intros g.
  - intros g1 g2 []; by split.
  - intros g1 g2 g3 [] []; split; by etrans.
Qed.

#[export] Instance same_skel_equiv : Equivalence same_skel.
Proof.
  split.
  - by intros g.
  - intros g1 g2 []; split; by symmetry.
  - intros g1 g2 g3 [] []; split; by etrans.
Qed.

(** A record is found on both sides, with the same shape, or on neither. *)
Lemma shape_cases g1 g2 h :
  same_shape g1 g2 →
  (get g1 h = None ∧ get g2 h = None) ∨
  ∃ r1 r2, get g1 h = Some r1 ∧ get g2 h = Some r2 ∧ rec_event r1 = rec_event r2 ∧
    rec_seq r1 = rec_seq r2 ∧ rec_ancestor_seqs r1 = rec_ancestor_seqs r2.
Proof.
  intros Hs. assert (rec_shape <$> get g1 h = rec_shape <$> get g2 h) as Heq.
  { unfold get. rewrite <- !lookup_fmap. by rewrite (shape_events _ _ Hs). }
  destruct (get g1 h) as [r1|], (get g2 h) as [r2|]; simplify_eq/=; eauto 10.
Qed.

Lemma skel_cases g1 g2 h :
  same_skel g1 g2 →
  (get g1 h = None ∧ get g2 h = None) ∨
  ∃ r1 r2, get g1 h = Some r1 ∧ get g2 h = Some r2 ∧ rec_event r1 = rec_event r2 ∧
    rec_seq r1 = rec_seq r2 ∧ rec_ancestor_seqs r1 = rec_ancestor_seqs r2 ∧
    rec_round r1 = rec_round r2 ∧ rec_is_witness r1 = rec_is_witness r2.
Proof.
  intros Hs. assert (rec_rank <$> get g1 h = rec_rank <$> get g2 h) as Heq.
  { unfold get. rewrite <- !lookup_fmap. by rewrite (skel_ranks _ _ Hs). }
  destruct (shape_cases _ _ h (skel_shape _ _ Hs)) as [?|(r1 & r2 & E1 & E2 & ? & ? & ?)];
    [by left|right].
  rewrite E1, E2 in Heq. simplify_eq/=. eauto 10.
Qed.

Lemma shape_get_Some g1 g2 h r1 :
  same_shape g1 g2 → get g1 h = Some r1 →
  ∃ r2, get g2 h = Some r2 ∧ rec_event r1 = rec_event r2 ∧ rec_seq r1 = rec_seq r2 ∧
    rec_ancestor_seqs r1 = rec_ancestor_seqs r2.
Proof.
  intros Hs H1. destruct (shape_cases _ _ h Hs) as [[? ?]|(? & r2 & ? & ? & ? & ? & ?)];
    simplify_eq; eauto.
Qed.

Lemma skel_get_Some g1 g2 h r1 :
  same_skel g1 g2 → get g1 h = Some r1 →
  ∃ r2, get g2 h = Some r2 ∧ rec_event r1 = rec_event r2 ∧ rec_seq r1 = rec_seq r2 ∧
    rec_ancestor_seqs r1 = rec_ancestor_seqs r2 ∧
    rec_round r1 = rec_round r2 ∧ rec_is_witness r1 = rec_is_witness r2.
Proof.
  intros Hs H1. destruct (skel_cases _ _ h Hs) as [[? ?]|(? & r2 & ? & ? & ? & ? & ? & ? & ?)];
    simplify_eq; eauto 10.
Qed.

Lemma shape_size g1 g2 : same_shape g1 g2 → size (events g1) = size (events g2).
Proof.
  intros Hs. rewrite <- (map_size_fmap rec_shape (events g1)), (shape_events _ _ Hs).
  apply map_size_fmap.
Qed.

Lemma fmap_alter_inv {A} (p : EventRecord → A) (f : EventRecord → EventRecord) (h : EventHash)
    (m : gmap EventHash EventRecord) :
  (∀ r, p (f r) = p r) → p <$> alter f h m = p <$> m.
Proof.
  intros Hf. apply map_eq. intros i. rewrite !lookup_fmap.
  destruct (decide (i = h)) as [->|].
  - rewrite lookup_alter_eq. destruct (m !! h); simpl; [|done]. by rewrite Hf.
  - by rewrite lookup_alter_ne.
Qed.

(** Rewriting one record's other fields keeps shape and skeleton. *)
Lemma same_shape_alter (f : EventRecord → EventRecord) h g :
  (∀ r, rec_shape (f r) = rec_shape r) → same_shape g (Upd.events (alter f h) g).
Proof. intros Hf. split; try done. symmetry. by apply fmap_alter_inv. Qed.

Lemma same_skel_alter (f : EventRecord → EventRecord) h g :
  (∀ r, rec_shape (f r) = rec_shape r) → (∀ r, rec_rank (f r) = rec_rank r) →
  same_skel g (Upd.events (alter f h) g).
Proof.
  intros Hf1 Hf2. split; try done; [by apply same_shape_alter|].
  symmetry. by apply fmap_alter_inv.
Qed.

Lemma same_shape_set_event_round h round w g : same_shape g (set_event_round h round w g).
Proof. by apply same_shape_alter. Qed.

Lemma same_shape_record_witness round h g : same_shape g (record_witness round h g).
Proof. by split. Qed.

Lemma same_skel_set_event_order h round ts g : same_skel g (set_event_order h round ts g).
Proof. by apply same_skel_alter. Qed.

Lemma same_skel_record_vote v c b g : same_skel g (record_vote v c b g).
Proof. by apply same_skel_alter. Qed.

Lemma same_skel_record_fame h status g :
  same_skel g (Upd.events (alter (Upd.record_fame status) h) g).
Proof. by apply same_skel_alter. Qed.

Lemma same_skel_rounds d n g : same_skel g (Upd.rounds d n g).
Proof. done. Qed.

Lemma same_skel_undecided u g :
  same_skel g (Upd.witnesses (witnesses_by_round g) u (highest_witness_round g) g).
Proof. done. Qed.

#[export] Hint Resolve same_skel_set_event_order same_skel_record_vote same_skel_record_fame
  same_skel_rounds same_skel_undecided : preserves.
