(* ===== verification/Ancestry.v ===== *)
(** * Ancestry: [is_ancestor], [see], [strongly_see]

    [protocol/consensus/src/ancestry.rs].  The breadth-first searches and the
    self-parent walk are loops with fuel; [bfs_fuel] and [walk_fuel] are
    enough on every state (searches) and on every state whose self-parent
    chains descend (walk), so the loops never end by exhaustion. *)

From S2P Require Import Prelude Codec External Primitives Membership Graph.

Definition bfs_fuel (hg : Hashgraph) : nat := 1 + 2 * size (events hg).

(** The queue of a search after visiting [current]: its parents are appended
    when it is stored; a pruned ancestor is a hard stop. *)
Definition push_parents (hg : Hashgraph) (current : EventHash) (queue : list EventHash) :
    list EventHash :=
  match get hg current with
  | None => queue
  | Some rec => queue ++ parents (rec_event rec)
  end.

Fixpoint ancestor_event_loop (fuel : nat) (hg : Hashgraph) (c : NodeId) (sq : N)
    (visited : gset EventHash) (queue : list EventHash) : res ConsensusError (option EventHash) :=
  match queue with
  | [] => Ok None
  | current :: queue =>
      match fuel with
      | O => Crash OutOfFuel
      | S fuel =>
          if decide (current ∈ visited) then ancestor_event_loop fuel hg c sq visited queue
          else
            let visited := {[ current ]} ∪ visited in
            match get hg current with
            | None => ancestor_event_loop fuel hg c sq visited queue
            | Some rec =>
                if decide (creator (rec_event rec) = c ∧ rec_seq rec = sq)
                then Ok (Some current)
                else ancestor_event_loop fuel hg c sq visited (push_parents hg current queue)
            end
      end
  end.

Definition ancestor_event_for_creator (hg : Hashgraph) (x : EventHash) (c : NodeId) (sq : N) :
    res ConsensusError (option EventHash) :=
  ancestor_event_loop (bfs_fuel hg) hg c sq ∅ [x].

Fixpoint contains_event_loop (fuel : nat) (hg : Hashgraph) (target : EventHash)
    (visited : gset EventHash) (queue : list EventHash) : res ConsensusError bool :=
  match queue with
  | [] => Ok false
  | current :: queue =>
      match fuel with
      | O => Crash OutOfFuel
      | S fuel =>
          if decide (current = target) then Ok true
          else if decide (current ∈ visited) then contains_event_loop fuel hg target visited queue
          else contains_event_loop fuel hg target ({[ current ]} ∪ visited)
                 (push_parents hg current queue)
      end
  end.

Definition ancestry_contains_event (hg : Hashgraph) (x target : EventHash) :
    res ConsensusError bool := contains_event_loop (bfs_fuel hg) hg target ∅ [x].

Fixpoint contains_fork_loop (fuel : nat) (hg : Hashgraph) (c : NodeId)
    (seen_seqs : gmap N EventHash) (visited : gset EventHash) (queue : list EventHash) :
    res ConsensusError bool :=
  match queue with
  | [] => Ok false
  | current :: queue =>
      match fuel with
      | O => Crash OutOfFuel
      | S fuel =>
          if decide (current ∈ visited) then contains_fork_loop fuel hg c seen_seqs visited queue
          else
            let visited := {[ current ]} ∪ visited in
            match get hg current with
            | None => contains_fork_loop fuel hg c seen_seqs visited queue
            | Some rec =>
                let queue' := push_parents hg current queue in
                if decide (creator (rec_event rec) = c) then
                  match seen_seqs !! rec_seq rec with
                  | Some existing =>
                      if decide (existing ≠ current) then Ok true
                      else contains_fork_loop fuel hg c
                             (<[rec_seq rec := current]> seen_seqs) visited queue'
                  | None => contains_fork_loop fuel hg c
                              (<[rec_seq rec := current]> seen_seqs) visited queue'
                  end
                else contains_fork_loop fuel hg c seen_seqs visited queue'
            end
      end
  end.

Definition ancestry_contains_fork_of (hg : Hashgraph) (x : EventHash) (c : NodeId) :
    res ConsensusError bool := contains_fork_loop (bfs_fuel hg) hg c ∅ ∅ [x].

Definition is_ancestor (hg : Hashgraph) (x y : EventHash) : res ConsensusError bool :=
  if decide (x = y) then Ok true else
  x_rec ← ok_or (get hg x) (UnknownEvent x);
  y_rec ← ok_or (get hg y) (UnknownEvent y);
  creator_idx ← ok_or (member_index_of hg (creator (rec_event y_rec))) (UnknownEvent y);
  up_to ← ancestor_seq x_rec creator_idx;
  if decide (up_to < rec_seq y_rec)%N then Ok false else
  forked ← creator_has_known_fork hg creator_idx;
  if negb forked then Ok true else ancestry_contains_event hg x y.

Definition see (hg : Hashgraph) (x y : EventHash) : res ConsensusError bool :=
  anc ← is_ancestor hg x y;
  if negb anc then Ok false else
  y_rec ← ok_or (get hg y) (UnknownEvent y);
  let c := creator (rec_event y_rec) in
  creator_idx ← ok_or (member_index_of hg c) (UnknownEvent y);
  forked ← creator_has_known_fork hg creator_idx;
  if negb forked then Ok true else
  fork ← ancestry_contains_fork_of hg x c;
  mret (negb fork).

(** The walk down one creator's self-parents, ending at the first event that
    sees [y], at genesis or at a pruned parent. *)
Fixpoint chain_walk (fuel : nat) (hg : Hashgraph) (y current : EventHash) :
    res ConsensusError bool :=
  match fuel with
  | O => Crash OutOfFuel
  | S fuel =>
      sees ← see hg current y;
      if (sees : bool) then Ok true
      else match get hg current ≫= λ r, self_parent (rec_event r) with
           | None => Ok false
           | Some parent =>
               match get hg parent with
               | None => Ok false
               | Some _ => chain_walk fuel hg y parent
               end
           end
  end.

Definition walk_fuel (hg : Hashgraph) : nat := 1 + size (events hg).

Definition member_chain_reaches (hg : Hashgraph) (x : EventHash) (c : NodeId)
    (member_idx : nat) (up_to_seq : N) (y : EventHash) : res ConsensusError bool :=
  forked ← creator_has_known_fork hg member_idx;
  current ← (if (forked : bool) then ancestor_event_for_creator hg x c up_to_seq
             else mret (event_for_creator_seq hg c up_to_seq));
  match current with
  | None => Ok false
  | Some current => chain_walk (walk_fuel hg) hg y current
  end.

Section strongly_see.
Context `{HashOrder}.

(** The counting loop of [strongly_see_at] over the members. *)
Fixpoint count_members (hg : Hashgraph) (x y : EventHash) (x_rec : EventRecord)
    (members : list (NodeId * nat)) (count : nat) : res ConsensusError nat :=
  match members with
  | [] => Ok count
  | (node_id, idx) :: members =>
      latest_seq ← ancestor_seq x_rec idx;
      if decide (latest_seq = 0%N) then count_members hg x y x_rec members count
      else
        reaches ← member_chain_reaches hg x node_id idx latest_seq y;
        count_members hg x y x_rec members (if (reaches : bool) then S count else count)
  end.

Definition strongly_see_at (hg : Hashgraph) (x y : EventHash) (roster_round : N) :
    res ConsensusError bool :=
  sees ← see hg x y;
  if negb sees then Ok false else
  x_rec ← ok_or (get hg x) (UnknownEvent x);
  count ← count_members hg x y x_rec (member_index_iter hg) 0;
  total ← member_count_at_round hg roster_round;
  mret (supermajority count total).

Definition strongly_see (hg : Hashgraph) (x y : EventHash) : res ConsensusError bool :=
  let y_round := match get hg y with Some r => rec_round r | None => 1%N end in
  strongly_see_at hg x y y_round.
End strongly_see.

(** ** The shape is all [see] reads, the skeleton all [strongly_see] does *)

Section shape.
Context (g1 g2 : Hashgraph) (Hs : same_shape g1 g2).

Lemma push_parents_shape c q : push_parents g1 c q = push_parents g2 c q.
Proof.
  unfold push_parents. destruct (shape_cases _ _ c Hs) as [[-> ->]|(r1 & r2 & -> & -> & -> & _)]; done.
Qed.

Lemma bfs_fuel_shape : bfs_fuel g1 = bfs_fuel g2.
Proof. unfold bfs_fuel. by rewrite (shape_size _ _ Hs). Qed.

Lemma ancestor_event_loop_shape fuel c sq v q :
  ancestor_event_loop fuel g1 c sq v q = ancestor_event_loop fuel g2 c sq v q.
Proof.
  revert v q. induction fuel as [|fuel IH]; intros v [|h q]; simpl; [done..|].
  rewrite push_parents_shape, !IH.
  by destruct (shape_cases _ _ h Hs) as [[-> ->]|(r1 & r2 & -> & -> & -> & -> & _)].
Qed.

Lemma contains_event_loop_shape fuel t v q :
  contains_event_loop fuel g1 t v q = contains_event_loop fuel g2 t v q.
Proof.
  revert v q. induction fuel as [|fuel IH]; intros v [|h q]; simpl; [done..|].
  by rewrite push_parents_shape, !IH.
Qed.

Lemma contains_fork_loop_shape fuel c s v q :
  contains_fork_loop fuel g1 c s v q = contains_fork_loop fuel g2 c s v q.
Proof.
  revert s v q. induction fuel as [|fuel IH]; intros s v [|h q]; simpl; [done..|].
  rewrite push_parents_shape, !IH.
  destruct (shape_cases _ _ h Hs) as [[-> ->]|(r1 & r2 & -> & -> & -> & -> & _)]; [done|].
  by rewrite !IH.
Qed.

Lemma ancestor_event_for_creator_shape x c sq :
  ancestor_event_for_creator g1 x c sq = ancestor_event_for_creator g2 x c sq.
Proof.
  unfold ancestor_event_for_creator. by rewrite bfs_fuel_shape, ancestor_event_loop_shape.
Qed.

Lemma ancestry_contains_event_shape x t :
  ancestry_contains_event g1 x t = ancestry_contains_event g2 x t.
Proof. unfold ancestry_contains_event. by rewrite bfs_fuel_shape, contains_event_loop_shape. Qed.

Lemma ancestry_contains_fork_of_shape x c :
  ancestry_contains_fork_of g1 x c = ancestry_contains_fork_of g2 x c.
Proof. unfold ancestry_contains_fork_of. by rewrite bfs_fuel_shape, contains_fork_loop_shape. Qed.

Lemma is_ancestor_shape x y : is_ancestor g1 x y = is_ancestor g2 x y.
Proof.
  unfold is_ancestor, ancestor_seq, creator_has_known_fork, member_index_of.
  rewrite ancestry_contains_event_shape, (shape_forkers _ _ Hs), (shape_member_index _ _ Hs).
  destruct (shape_cases _ _ x Hs) as [[-> ->]|(? & ? & -> & -> & _ & _ & Hx)]; [done|].
  destruct (shape_cases _ _ y Hs) as [[-> ->]|(? & ? & -> & -> & He & Hq & _)]; [done|].
  simpl. by rewrite Hx, He, Hq.
Qed.

Lemma see_shape x y : see g1 x y = see g2 x y.
Proof.
  unfold see, creator_has_known_fork, member_index_of.
  rewrite is_ancestor_shape, (shape_forkers _ _ Hs), (shape_member_index _ _ Hs).
  destruct (shape_cases _ _ y Hs) as [[-> ->]|(? & ? & -> & -> & He & _)]; [done|].
  simpl. by rewrite He, ancestry_contains_fork_of_shape.
Qed.

Lemma chain_walk_shape fuel y h : chain_walk fuel g1 y h = chain_walk fuel g2 y h.
Proof.
  revert h. induction fuel as [|fuel IH]; intros h; simpl; [done|].
  rewrite see_shape.
  destruct (shape_cases _ _ h Hs) as [[-> ->]|(r1 & r2 & -> & -> & He & _)]; simpl; [done|].
  rewrite He. destruct (self_parent (rec_event r2)) as [p|]; [|done]. rewrite IH.
  by destruct (shape_cases _ _ p Hs) as [[-> ->]|(? & ? & -> & -> & _)].
Qed.

Lemma member_chain_reaches_shape x c i s y :
  member_chain_reaches g1 x c i s y = member_chain_reaches g2 x c i s y.
Proof.
  unfold member_chain_reaches, creator_has_known_fork, event_for_creator_seq, walk_fuel.
  rewrite ancestor_event_for_creator_shape, (shape_forkers _ _ Hs),
    (shape_by_creator_seq _ _ Hs), (shape_size _ _ Hs).
  destruct (expect _) as [f| |]; [|done..]. cbn [mbind res_bind].
  destruct f; [destruct (ancestor_event_for_creator _ _ _ _) as [[h|]| |]|destruct (_ !! _)];
    cbn [mbind res_bind mret res_ret]; rewrite ?chain_walk_shape; done.
Qed.

Lemma member_count_at_round_shape r : member_count_at_round g1 r = member_count_at_round g2 r.
Proof. unfold member_count_at_round. by rewrite (shape_roster _ _ Hs). Qed.

Lemma count_members_shape x y r1 r2 ms n :
  rec_ancestor_seqs r1 = rec_ancestor_seqs r2 →
  count_members g1 x y r1 ms n = count_members g2 x y r2 ms n.
Proof.
  intros Hr. revert n. induction ms as [|[id i] ms IH]; intros n; simpl; [done|].
  unfold ancestor_seq. rewrite Hr. destruct (expect _) as [s| |]; [|done..]. simpl.
  rewrite member_chain_reaches_shape.
  case_decide; [apply IH|]. destruct (member_chain_reaches _ _ _ _ _ _); simpl; [apply IH|done..].
Qed.

Lemma strongly_see_at_shape `{HashOrder} x y r :
  strongly_see_at g1 x y r = strongly_see_at g2 x y r.
Proof.
  unfold strongly_see_at, member_index_iter.
  rewrite see_shape, member_count_at_round_shape, (shape_member_index _ _ Hs).
  destruct (shape_cases _ _ x Hs) as [[-> ->]|(r1 & r2 & -> & -> & _ & _ & Ha)]; [done|].
  simpl. by rewrite (count_members_shape x y r1 r2 _ _ Ha).
Qed.
End shape.

Lemma strongly_see_skel `{HashOrder} g1 g2 x y :
  same_skel g1 g2 → strongly_see g1 x y = strongly_see g2 x y.
Proof.
  intros Hs. unfold strongly_see. rewrite (strongly_see_at_shape g1 g2 (skel_shape _ _ Hs)).
  by destruct (skel_cases _ _ y Hs) as [[-> ->]|(? & ? & -> & -> & _ & _ & _ & -> & _)].
Qed.
