(* ===== verification/Reach.v ===== *)
(** * Reachability: what the breadth-first searches compute

    [anc hg x y] is the raw ancestor relation of the stored graph: [y] is
    reached from [x] by following the parents of stored events.  Each search
    of [ancestry.rs] terminates within its fuel on every state and decides
    its question about [anc]. *)

From S2P Require Import Prelude Codec External Primitives Membership Graph Ancestry.

Definition parent_of (hg : Hashgraph) (x p : EventHash) : Prop :=
  ∃ r, get hg x = Some r ∧ p ∈ parents (rec_event r).

Definition anc (hg : Hashgraph) : EventHash → EventHash → Prop := rtc (parent_of hg).

(** Two different stored ancestors of [x] by [c] with one sequence number. *)
Definition forks_below (hg : Hashgraph) (x : EventHash) (c : NodeId) : Prop :=
  ∃ y1 y2 r1 r2, y1 ≠ y2 ∧ anc hg x y1 ∧ anc hg x y2 ∧
    get hg y1 = Some r1 ∧ get hg y2 = Some r2 ∧
    creator (rec_event r1) = c ∧ creator (rec_event r2) = c ∧ rec_seq r1 = rec_seq r2.

Lemma length_parents e : length (parents e) ≤ 2.
Proof. unfold parents. by destruct (self_parent e), (other_parent e); simpl; lia. Qed.

Lemma elem_of_parents e p : p ∈ parents e ↔ self_parent e = Some p ∨ other_parent e = Some p.
Proof.
  unfold parents. rewrite elem_of_app.
  destruct (self_parent e), (other_parent e); simpl;
    rewrite ?list_elem_of_singleton, ?elem_of_nil; intuition congruence.
Qed.

Section bfs.
Context (hg : Hashgraph) (x : EventHash).

(** The state of a search: everything below the visited events is visited or
    queued, and all of it is reachable from [x]. *)
Record bfs_inv (visited : gset EventHash) (queue : list EventHash) : Prop := {
  bfs_closed : ∀ v p, v ∈ visited → parent_of hg v p → p ∈ visited ∨ p ∈ queue;
  bfs_start : x ∈ visited ∨ x ∈ queue;
  bfs_reach : ∀ v, v ∈ visited ∨ v ∈ queue → anc hg x v;
}.

Definition bfs_measure (visited : gset EventHash) (queue : list EventHash) : nat :=
  length queue + 2 * size (dom (events hg) ∖ visited).

Lemma bfs_inv_init : bfs_inv ∅ [x].
Proof.
  split; [set_solver|right; by left|]. intros v [Hv|Hv]; [set_solver|].
  apply list_elem_of_singleton in Hv as ->. apply rtc_refl.
Qed.

Lemma bfs_measure_init : bfs_measure ∅ [x] = bfs_fuel hg.
Proof.
  unfold bfs_measure, bfs_fuel. rewrite difference_empty_L, size_dom. simpl. lia.
Qed.

Lemma bfs_inv_skip v h q : h ∈ v → bfs_inv v (h :: q) → bfs_inv v q.
Proof.
  intros Hh [Hc Hst Hr]. split.
  - intros v' p Hv' Hp. destruct (Hc v' p Hv' Hp) as [|[->|]%elem_of_cons]; auto.
  - destruct Hst as [|[->|]%elem_of_cons]; auto.
  - intros v' [|]; apply Hr; [by left|right; by right].
Qed.

Lemma elem_of_push_parents h q p :
  p ∈ push_parents hg h q ↔ p ∈ q ∨ parent_of hg h p.
Proof.
  unfold push_parents, parent_of. destruct (get hg h) as [r|].
  - rewrite elem_of_app. split; intros [|Hp]; eauto. destruct Hp as (? & [= <-] & ?). auto.
  - split; [auto|]. by intros [|(? & ? & _)].
Qed.

Lemma bfs_inv_visit v h q :
  bfs_inv v (h :: q) → bfs_inv ({[ h ]} ∪ v) (push_parents hg h q).
Proof.
  intros [Hc Hst Hr]. split.
  - intros v' p [->%elem_of_singleton|Hv']%elem_of_union Hp; rewrite elem_of_push_parents; [by eauto|].
    destruct (Hc v' p Hv' Hp) as [|[->|]%elem_of_cons]; set_solver.
  - rewrite elem_of_push_parents. destruct Hst as [|[->|]%elem_of_cons]; set_solver.
  - intros v'. rewrite elem_of_push_parents.
    intros [[->%elem_of_singleton|Hv']%elem_of_union|[Hv'|Hp]].
    + apply Hr. right. by left.
    + apply Hr. by left.
    + apply Hr. right. by right.
    + eapply rtc_r; [|exact Hp]. apply Hr. right. by left.
Qed.

Lemma bfs_inv_done v y : bfs_inv v [] → anc hg x y → y ∈ v.
Proof.
  intros [Hc Hst _] Hy.
  assert (x ∈ v) as Hx by (destruct Hst as [|?%elem_of_nil]; done).
  clear Hst. induction Hy as [|a b c Hab _ IH]; [done|].
  apply IH. destruct (Hc a b Hx Hab) as [|?%elem_of_nil]; done.
Qed.

Lemma bfs_measure_skip v h q fuel : bfs_measure v (h :: q) ≤ S fuel → bfs_measure v q ≤ fuel.
Proof. unfold bfs_measure. simpl. lia. Qed.

Lemma bfs_measure_visit v h q fuel :
  h ∉ v → bfs_measure v (h :: q) ≤ S fuel →
  bfs_measure ({[ h ]} ∪ v) (push_parents hg h q) ≤ fuel.
Proof.
  unfold bfs_measure, push_parents. intros Hh Hm. destruct (get hg h) as [r|] eqn:Hg.
  - assert (dom (events hg) ∖ v = {[ h ]} ∪ dom (events hg) ∖ ({[ h ]} ∪ v)) as Heq.
    { apply set_eq. intros z. destruct (decide (z = h)) as [->|]; [|set_solver].
      assert (h ∈ dom (events hg)) by (apply elem_of_dom; by exists r). set_solver. }
    rewrite Heq, size_union, size_singleton in Hm by set_solver.
    rewrite length_app. pose proof (length_parents (rec_event r)). simpl in *. lia.
  - assert (size (dom (events hg) ∖ ({[ h ]} ∪ v)) ≤ size (dom (events hg) ∖ v))
      by (apply subseteq_size; set_solver). simpl in *. lia.
Qed.

Lemma bfs_measure_cons v h q : ¬ bfs_measure v (h :: q) ≤ 0.
Proof. unfold bfs_measure. simpl. lia. Qed.

(** [ancestry_contains_event]. *)
Lemma contains_event_loop_spec t fuel v q :
  bfs_measure v q ≤ fuel → bfs_inv v q → t ∉ v →
  ∃ b, contains_event_loop fuel hg t v q = Ok b ∧ (b = true ↔ anc hg x t).
Proof.
  revert v q. induction fuel as [|fuel IH]; intros v [|h q] Hm Hi Ht; simpl.
  - exists false. split; [done|]. split; [done|]. intros Ha. by destruct Ht; eapply bfs_inv_done.
  - by apply bfs_measure_cons in Hm.
  - exists false. split; [done|]. split; [done|]. intros Ha. by destruct Ht; eapply bfs_inv_done.
  - case_decide as Heq.
    { exists true. split; [done|]. split; [|done]. intros _. subst. apply Hi. right. by left. }
    case_decide as Hv.
    + apply IH; [by eapply bfs_measure_skip|by eapply bfs_inv_skip|done].
    + apply IH; [by apply bfs_measure_visit|by apply bfs_inv_visit|set_solver].
Qed.

Definition made_by (c : NodeId) (sq : N) (h : EventHash) : Prop :=
  ∃ r, get hg h = Some r ∧ creator (rec_event r) = c ∧ rec_seq r = sq.

(** [ancestor_event_for_creator]. *)
Lemma ancestor_event_loop_spec c sq fuel v q :
  bfs_measure v q ≤ fuel → bfs_inv v q → (∀ h, h ∈ v → ¬ made_by c sq h) →
  ∃ o, ancestor_event_loop fuel hg c sq v q = Ok o ∧
    match o with
    | Some h => anc hg x h ∧ made_by c sq h
    | None => ∀ h, anc hg x h → ¬ made_by c sq h
    end.
Proof.
  revert v q. induction fuel as [|fuel IH]; intros v [|h q] Hm Hi Hv; simpl.
  1, 3: exists None; split; [done|]; intros h Ha; by eapply Hv, bfs_inv_done.
  { by apply bfs_measure_cons in Hm. }
  case_decide as Hin.
  { apply IH; [by eapply bfs_measure_skip|by eapply bfs_inv_skip|done]. }
  pose proof (bfs_measure_visit v h q fuel Hin Hm) as Hm'.
  pose proof (bfs_inv_visit v h q Hi) as Hi'.
  destruct (get hg h) as [r|] eqn:Hg.
  - case_decide as Hc.
    + exists (Some h). split; [done|]. split; [apply Hi; right; by left|]. by exists r.
    + apply IH; [done..|].
      intros h' [->%elem_of_singleton|]%elem_of_union; [|by apply Hv].
      intros (r' & Hr' & Hrest). simplify_eq. tauto.
  - unfold push_parents in Hm', Hi'. rewrite Hg in Hm', Hi'.
    apply IH; [done..|].
    intros h' [->%elem_of_singleton|]%elem_of_union; [|by apply Hv].
    intros (r' & Hr' & Hrest). simplify_eq.
Qed.

Lemma seen_keep (c : NodeId) (seen : gmap N EventHash) (v : gset EventHash) (h : EventHash) :
  (∀ s h, seen !! s = Some h ↔ h ∈ v ∧ made_by c s h) → (∀ s, ¬ made_by c s h) →
  ∀ s h', seen !! s = Some h' ↔ h' ∈ {[ h ]} ∪ v ∧ made_by c s h'.
Proof.
  intros Hseen Hno s h'. rewrite Hseen, elem_of_union, elem_of_singleton. split.
  - intros [? ?]. auto.
  - intros [[->|?] Hmb]; [by destruct (Hno s)|done].
Qed.

Lemma seen_insert (c : NodeId) (seen : gmap N EventHash) (v : gset EventHash) (h : EventHash) r :
  (∀ s h, seen !! s = Some h ↔ h ∈ v ∧ made_by c s h) →
  get hg h = Some r → creator (rec_event r) = c → seen !! rec_seq r = None →
  ∀ s h', <[rec_seq r := h]> seen !! s = Some h' ↔ h' ∈ {[ h ]} ∪ v ∧ made_by c s h'.
Proof.
  intros Hseen Hg Hc Hnone s h'. rewrite elem_of_union, elem_of_singleton.
  destruct (decide (s = rec_seq r)) as [->|Hne].
  - rewrite lookup_insert_eq. split.
    + intros [= <-]. split; [by left|]. by exists r.
    + intros [[->|Hv] Hmb]; [done|].
      assert (seen !! rec_seq r = Some h') by (by apply Hseen). congruence.
  - rewrite lookup_insert_ne by done. rewrite Hseen. split; [intros []; auto|].
    intros [[->|Hv] Hmb]; [|done]. destruct Hmb as (r' & Hr' & _ & Hs'). congruence.
Qed.

(** [ancestry_contains_fork_of]: [seen_seqs] indexes the visited events of
    [c] by sequence number. *)
Lemma contains_fork_loop_spec c fuel seen v q :
  bfs_measure v q ≤ fuel → bfs_inv v q →
  (∀ s h, seen !! s = Some h ↔ h ∈ v ∧ made_by c s h) →
  ∃ b, contains_fork_loop fuel hg c seen v q = Ok b ∧ (b = true ↔ forks_below hg x c).
Proof.
  revert seen v q. induction fuel as [|fuel IH]; intros seen v [|h q] Hm Hi Hseen; simpl.
  1, 3: exists false; split; [done|]; split; [done|];
    intros (y1 & y2 & r1 & r2 & Hne & Ha1 & Ha2 & H1 & H2 & Hc1 & Hc2 & Hsq); destruct Hne;
    assert (seen !! rec_seq r1 = Some y1) by (apply Hseen; split; [by eapply bfs_inv_done|by exists r1]);
    assert (seen !! rec_seq r2 = Some y2) by (apply Hseen; split; [by eapply bfs_inv_done|by exists r2]);
    congruence.
  { by apply bfs_measure_cons in Hm. }
  case_decide as Hin.
  { apply IH; [by eapply bfs_measure_skip|by eapply bfs_inv_skip|done]. }
  pose proof (bfs_measure_visit v h q fuel Hin Hm) as Hm'.
  pose proof (bfs_inv_visit v h q Hi) as Hi'.
  destruct (get hg h) as [r|] eqn:Hg.
  - case_decide as Hc; [destruct (seen !! rec_seq r) as [ex|] eqn:Hex|].
    + apply Hseen in Hex as [Hexv (rx & Hrx & Hcx & Hsx)].
      rewrite decide_True by (intros ->; done).
      exists true. split; [done|]. split; [|done]. intros _.
      exists ex, h, rx, r. split_and!; try done; [by intros ->|..]; apply Hi; [by left|right; by left].
    + apply IH; [done..|]. by eapply seen_insert.
    + apply IH; [done..|]. apply seen_keep; [done|].
      intros s (r' & Hr' & Hc' & _). congruence.
  - unfold push_parents in Hm', Hi'. rewrite Hg in Hm', Hi'.
    apply IH; [done..|]. apply seen_keep; [done|]. intros s (r' & Hr' & _). congruence.
Qed.
End bfs.

Lemma ancestry_contains_event_spec hg x t :
  ∃ b, ancestry_contains_event hg x t = Ok b ∧ (b = true ↔ anc hg x t).
Proof.
  apply contains_event_loop_spec; [by rewrite bfs_measure_init|apply bfs_inv_init|set_solver].
Qed.

Lemma ancestor_event_for_creator_spec hg x c sq :
  ∃ o, ancestor_event_for_creator hg x c sq = Ok o ∧
    match o with
    | Some h => anc hg x h ∧ made_by hg c sq h
    | None => ∀ h, anc hg x h → ¬ made_by hg c sq h
    end.
Proof.
  apply ancestor_event_loop_spec; [by rewrite bfs_measure_init|apply bfs_inv_init|set_solver].
Qed.

Lemma ancestry_contains_fork_of_spec hg x c :
  ∃ b, ancestry_contains_fork_of hg x c = Ok b ∧ (b = true ↔ forks_below hg x c).
Proof.
  apply contains_fork_loop_spec; [by rewrite bfs_measure_init|apply bfs_inv_init|].
  intros s h. rewrite lookup_empty. set_solver.
Qed.
