(* ===== verification/Order.v ===== *)
(** * Round received, consensus timestamp, total order

    [protocol/consensus/src/order.rs], and the round-completion drivers of
    [hashgraph.rs] ([decide_fame], [note_round_decided_if_complete],
    [order_decided_rounds]) that call it. *)

From S2P Require Import Prelude Codec External Primitives Membership Graph Ancestry.

(** ** The tie break and the median *)

(** [bytes.as_chunks::<8>().0]: the complete 8-byte chunks. *)
Fixpoint chunks8 (l : bytes) : list bytes :=
  match l with
  | b0 :: b1 :: b2 :: b3 :: b4 :: b5 :: b6 :: b7 :: rest =>
      [b0; b1; b2; b3; b4; b5; b6; b7] :: chunks8 rest
  | _ => []
  end.

(** XOR of the signature's little-endian [u64] words. *)
Definition signature_tie_break (sig : Signature) : N :=
  foldl (λ acc chunk, N.lxor acc (of_be (reverse chunk))) 0%N (chunks8 sig).

(** The mean of the middle pair is taken in [u128]. *)
Definition median_timestamp {E} (first_seen : list N) : res E Timestamp :=
  let sorted := merge_sort N.le first_seen in
  let len := length sorted in
  if decide (len = 0) then Crash Panicked
  else if decide (len `mod` 2 = 1) then expect (sorted !! (len / 2))
  else
    let mid := len / 2 in
    a ← expect (sorted !! (mid - 1));
    b ← expect (sorted !! mid);
    mret ((a + b) `div` 2)%N.

(** ** Famous witnesses *)

(** A witness decided famous, on the first-seen branch of its creator. *)
Definition canonical_famous (hg : Hashgraph) (witness : EventHash) : bool :=
  bool_decide (fame_of hg witness = Some Famous) &&
  match get hg witness with
  | Some record =>
      bool_decide (canonical_child hg (creator (rec_event record))
                     (self_parent (rec_event record)) = Some witness)
  | None => false
  end.

Definition famous_witnesses_of_round (hg : Hashgraph) (round : N) : list EventHash :=
  filter (λ witness, Is_true (canonical_famous hg witness)) (witnesses_of_round hg round).

(** ** First-seen timestamps *)

Definition creator_chain_event (hg : Hashgraph) (witness : EventHash) (c : NodeId)
    (idx : nat) (sq : N) : res ConsensusError (option EventHash) :=
  forked ← creator_has_known_fork hg idx;
  if (forked : bool) then unwrap_or (ancestor_event_for_creator hg witness c sq) None
  else mret (event_for_creator_seq hg c sq).

(** [event.is_some_and(|event| self.see(&event, target).unwrap_or(false))]. *)
Definition event_sees (hg : Hashgraph) (target : EventHash) (event : option EventHash) :
    res ConsensusError bool :=
  match event with
  | None => mret false
  | Some event => unwrap_or (see hg event target) false
  end.

(** Does the chain event of [c] with sequence number [sq] see [target]? *)
Definition chain_event_sees (hg : Hashgraph) (witness target : EventHash) (c : NodeId)
    (idx : nat) (sq : N) : res ConsensusError bool :=
  event ← creator_chain_event hg witness c idx sq;
  event_sees hg target event.

(** The binary search for the first chain event that sees [target]; the
    interval halves at each turn, so 64 turns are enough for [u64] bounds. *)
Fixpoint bisect (fuel : nat) (hg : Hashgraph) (witness target : EventHash) (c : NodeId)
    (idx : nat) (low high : N) : res ConsensusError N :=
  if decide (low < high)%N then
    match fuel with
    | O => Crash OutOfFuel
    | S fuel =>
        let mid := (low + (high - low) `div` 2)%N in
        sees ← chain_event_sees hg witness target c idx mid;
        if (sees : bool) then bisect fuel hg witness target c idx low mid
        else bisect fuel hg witness target c idx (mid + 1)%N high
    end
  else Ok low.

Definition bisect_fuel : nat := 64.

Lemma bisect_fuel_u64 (n : N) : is_u64 n → (n < 2 ^ N.of_nat bisect_fuel)%N.
Proof. done. Qed.
#[global] Opaque bisect_fuel.

(** [low < best_seq || (low == best_seq && event < best_event)]. *)
Definition replaces (earliest : option (N * EventHash)) (low : N) (event : EventHash) : bool :=
  match earliest with
  | None => true
  | Some (best_seq, best_event) =>
      (low <? best_seq)%N || ((low =? best_seq)%N && bytes_ltb event best_event)
  end.

(** One member's candidate for the earliest event: [Ok None] when the member
    contributes none, [Ok (Some None)] when the boundary event is missing
    (the function then returns at once). *)
Definition member_boundary_within (fuel : nat) (hg : Hashgraph) (witness target : EventHash)
    (witness_record : EventRecord) (node_id : NodeId) (idx : nat) :
    res ConsensusError (option (option (N * EventHash))) :=
  up_to ← ancestor_seq witness_record idx;
  if decide (up_to = 0%N) then mret None else
  reaches ← chain_event_sees hg witness target node_id idx up_to;
  if negb reaches then mret None else
  low ← bisect fuel hg witness target node_id idx 1 up_to;
  event ← creator_chain_event hg witness node_id idx low;
  mret (Some (option_map (pair low) event)).

Definition member_boundary := member_boundary_within bisect_fuel.

Fixpoint first_seen_loop (hg : Hashgraph) (witness target : EventHash)
    (witness_record : EventRecord) (members : list (NodeId * nat))
    (earliest : option (N * EventHash)) :
    res ConsensusError (option (N * EventHash)) :=
  match members with
  | [] => Ok earliest
  | (node_id, idx) :: members =>
      candidate ← member_boundary hg witness target witness_record node_id idx;
      match candidate with
      | None => first_seen_loop hg witness target witness_record members earliest
      | Some None => Ok None
      | Some (Some (low, event)) =>
          first_seen_loop hg witness target witness_record members
            (if replaces earliest low event then Some (low, event) else earliest)
      end
  end.

Section order.
Context `{HashOrder}.

Definition first_seen_timestamp (hg : Hashgraph) (witness target : EventHash) :
    res ConsensusError (option N) :=
  match get hg witness with
  | None => Ok None
  | Some witness_record =>
      earliest ← first_seen_loop hg witness target witness_record (member_index_iter hg) None;
      mret ('(_, event) ← earliest; record ← get hg event; Some (timestamp (rec_event record)))
  end.

(** ** [assign_order] *)

(** [famous.iter().all(|witness| self.see(witness, &event).unwrap_or(false))]. *)
Fixpoint all_see (hg : Hashgraph) (famous : list EventHash) (event : EventHash) :
    res ConsensusError bool :=
  match famous with
  | [] => Ok true
  | witness :: famous =>
      sees ← unwrap_or (see hg witness event) false;
      if (sees : bool) then all_see hg famous event else Ok false
  end.

Fixpoint collect_first_seen (hg : Hashgraph) (famous : list EventHash) (event : EventHash) :
    res ConsensusError (list N) :=
  match famous with
  | [] => Ok []
  | witness :: famous =>
      ts ← first_seen_timestamp hg witness event;
      rest ← collect_first_seen hg famous event;
      mret (option_list ts ++ rest)
  end.

(** The body of the loop over the pending events. *)
Definition order_event (famous : list EventHash) (round : N) (event : EventHash) : action unit :=
  all ← st_lift (λ hg, all_see hg famous event);
  if negb all then mret tt else
  first_seen ← st_lift (λ hg, collect_first_seen hg famous event);
  consensus_timestamp ← st_lift (λ _, median_timestamp first_seen);
  st_modify (set_event_order event round consensus_timestamp).

Definition assign_order (round : N) : action unit :=
  hg ← st_get;
  let famous := famous_witnesses_of_round hg round in
  if decide (famous = []) then mret tt
  else st_for (pending_order_events hg) (order_event famous round).

(** ** Round completion ([hashgraph.rs]) *)

(** [while self.fully_decided_rounds.contains(&self.next_round_to_order)]. *)
Fixpoint order_loop (fuel : nat) : action unit :=
  hg ← st_get;
  if decide (next_round_to_order hg ∈ fully_decided_rounds hg) then
    match fuel with
    | O => st_lift (λ _, Crash OutOfFuel)
    | S fuel =>
        let round := next_round_to_order hg in
        st_modify (Upd.rounds (fully_decided_rounds hg) (u64_wrapping_add round 1)) ;;
        assign_order round ;;
        order_loop fuel
    end
  else mret tt.

Definition order_decided_rounds : action unit :=
  hg ← st_get;
  order_loop (size (fully_decided_rounds hg)).

Definition member_passed_round (hg : Hashgraph) (round : N) (member : NodeId) : bool :=
  match latest_by_creator hg !! member ≫= get hg with
  | Some record => (round <? rec_round record)%N
  | None => false
  end.

Definition round_view_complete (hg : Hashgraph) (round : N) : res ConsensusError bool :=
  reg ← Roster.roster_for_round (roster_history hg) round;
  mret (forallb (member_passed_round hg round) (Registry.member_ids reg)).

Definition has_undecided_witness (hg : Hashgraph) (round : N) : bool :=
  existsb (λ e, (e.2 =? round)%N) (map_to_list (undecided_witnesses hg)).

Definition note_round_decided_if_complete (round : N) : action unit :=
  if decide (round = 0%N) then mret tt else
  hg ← st_get;
  if has_undecided_witness hg round then mret tt else
  complete ← st_lift (λ hg, round_view_complete hg round);
  if negb complete then mret tt else
  st_modify (λ hg, Upd.rounds ({[ round ]} ∪ fully_decided_rounds hg)
                     (next_round_to_order hg) hg) ;;
  order_decided_rounds.

Definition decide_fame (candidate : EventHash) (status : FameStatus) : action unit :=
  st_modify (Upd.events (alter (Upd.record_fame status) candidate)) ;;
  st_modify (λ hg, Upd.witnesses (witnesses_by_round hg)
                     (delete candidate (undecided_witnesses hg))
                     (highest_witness_round hg) hg) ;;
  hg ← st_get;
  note_round_decided_if_complete
    (match get hg candidate with Some record => rec_round record | None => 0%N end).

(** ** Reading the order *)

Definition round_received (hg : Hashgraph) (hash : EventHash) : option N :=
  get hg hash ≫= rec_round_received.

Definition consensus_timestamp (hg : Hashgraph) (hash : EventHash) : option Timestamp :=
  get hg hash ≫= rec_consensus_timestamp.

(** [Option<Timestamp>]: [None] first. *)
Definition opt_cmp (a b : option N) : comparison :=
  match a, b with
  | None, None => Eq
  | None, Some _ => Lt
  | Some _, None => Gt
  | Some a, Some b => (a ?= b)%N
  end.

(** The comparator of [consensus_order] on stored entries. *)
Definition order_leb (a b : EventHash * EventRecord) : bool :=
  match opt_cmp (rec_consensus_timestamp a.2) (rec_consensus_timestamp b.2) with
  | Lt => true
  | Gt => false
  | Eq =>
      match (signature_tie_break (signature (rec_event a.2))
             ?= signature_tie_break (signature (rec_event b.2)))%N with
      | Lt => true
      | Gt => false
      | Eq => bytes_leb a.1 b.1
      end
  end.

Definition order_le (a b : EventHash * EventRecord) : Prop := order_leb a b = true.
#[export] Instance order_le_dec a b : Decision (order_le a b).
Proof. unfold order_le. apply _. Defined.

(** The hashes that are filtered and compared all come from [events], so the
    comparator's lookups are of stored entries. *)
Definition consensus_order (hg : Hashgraph) (round : N) : list EventHash :=
  (merge_sort order_le
     (filter (λ e, rec_round_received e.2 = Some round) (hm_iter (events hg)))).*1.
End order.
