(* ===== verification/Fame.v ===== *)
(** * Virtual voting

    [protocol/consensus/src/fame.rs]: the vote of a witness on an earlier
    candidate, the eager decision on a settled tally, and the two loops a new
    witness triggers. *)

From S2P Require Import Prelude Codec External Primitives Membership Graph Ancestry Order.

Definition COIN_ROUND_FREQUENCY : N := 12.

(** [signature[32] & 0x01 == 0x01]. *)
Definition coin_round_vote (hg : Hashgraph) (voter : EventHash) : res ConsensusError bool :=
  record ← expect (get hg voter);
  b ← expect (signature (rec_event record) !! 32);
  mret (N.testbit (Byte.to_N b) 0).

Inductive VoteOutcome :=
| Cast (vote : bool)
| Decided (status : FameStatus).

(** [self.fame_of(w).is_some_and(|s| s != FameStatus::Undecided)]. *)
Definition fame_settled (hg : Hashgraph) (w : EventHash) : bool :=
  match fame_of hg w with
  | Some Undecided | None => false
  | Some _ => true
  end.

(** The tally of the votes [voters] have recorded on [w]: yes, no, seen. *)
Definition recorded_tally (hg : Hashgraph) (w : EventHash) (voters : list EventHash) :
    nat * nat * nat :=
  foldl (λ '(yes, no, seen) v,
    match get hg v ≫= λ r, vote_for r w with
    | Some true => (S yes, no, S seen)
    | Some false => (yes, S no, S seen)
    | None => (yes, no, seen)
    end) (0, 0, 0) voters.

(** The votes of the strongly seen witnesses, cast by [vote]; a decided
    outcome ends the loop. *)
Fixpoint tally_votes (vote : EventHash → action VoteOutcome) (voters : list EventHash)
    (yes no : nat) : action (FameStatus + nat * nat) :=
  match voters with
  | [] => mret (inr (yes, no))
  | s :: voters =>
      outcome ← vote s;
      match outcome with
      | Decided status => mret (inl status)
      | Cast true => tally_votes vote voters (S yes) no
      | Cast false => tally_votes vote voters yes (S no)
      end
  end.

Section fame.
Context `{HashOrder}.

Definition try_eager_decide (w : EventHash) : action (option FameStatus) :=
  hg ← st_get;
  if fame_settled hg w then mret (fame_of hg w) else
  match get hg w with
  | None => mret None
  | Some record =>
      let w_round := rec_round record in
      if decide (highest_witness_round hg < u64_wrapping_add w_round 2)%N then mret None else
      let voters := witnesses_of_round hg (u64_wrapping_add w_round 1) in
      if decide (voters = []) then mret None else
      count_next ← st_lift (λ hg, member_count_at_round hg (u64_wrapping_add w_round 1));
      count_agg ← st_lift (λ hg, member_count_at_round hg (u64_wrapping_add w_round 2));
      if decide (count_next ≠ count_agg) then mret None else
      let total := count_agg in
      if negb (supermajority (length voters) total) then mret None else
      let '(yes, no, seen) := recorded_tally hg w voters in
      if negb (supermajority seen total) then mret None else
      if decide (seen ≠ length voters) then mret None else
      if supermajority yes total then decide_fame w Famous ;; mret (Some Famous)
      else if supermajority no total then decide_fame w NotFamous ;; mret (Some NotFamous)
      else mret None
  end.

(** The witnesses of [round] that [y] strongly sees; errors count as no. *)
Fixpoint strongly_seen_among (hg : Hashgraph) (y : EventHash) (ws : list EventHash) :
    res ConsensusError (list EventHash) :=
  match ws with
  | [] => Ok []
  | s :: ws =>
      b ← unwrap_or (strongly_see hg y s) false;
      rest ← strongly_seen_among hg y ws;
      mret (if (b : bool) then s :: rest else rest)
  end.

(** What [y] does once the votes below it are counted. *)
Definition conclude_vote (y w : EventHash) (y_round w_round : N) (yes no : nat) :
    action VoteOutcome :=
  let v := no <=? yes in
  let stake := if v then yes else no in
  let is_coin_round :=
    (u64_wrapping_sub y_round w_round `mod` COIN_ROUND_FREQUENCY =? 0)%N in
  total ← st_lift (λ hg, member_count_at_round hg y_round);
  let has_supermajority := supermajority stake total in
  if is_coin_round && negb has_supermajority then
    vote ← st_lift (λ hg, coin_round_vote hg y);
    st_modify (record_vote y w vote) ;;
    mret (Cast vote)
  else if has_supermajority then
    let status := if v then Famous else NotFamous in
    decide_fame w status ;;
    mret (Decided status)
  else
    st_modify (record_vote y w v) ;;
    mret (Cast v).

(** The recursion descends one round at a time, so [fuel] above the voter's
    round is enough. *)
Fixpoint vote_of (fuel : nat) (y w : EventHash) : action VoteOutcome :=
  match fuel with
  | O => st_lift (λ _, Crash OutOfFuel)
  | S fuel =>
      hg ← st_get;
      y_record ← st_lift (λ hg, ok_or (get hg y) (UnknownEvent y));
      w_record ← st_lift (λ hg, ok_or (get hg w) (UnknownEvent w));
      let y_round := rec_round y_record in
      let w_round := rec_round w_record in
      match default Undecided (fame_of hg w) with
      | Famous => mret (Decided Famous)
      | NotFamous => mret (Decided NotFamous)
      | Undecided =>
          match vote_for y_record w with
          | Some vote => mret (Cast vote)
          | None =>
              if decide (y_round = u64_wrapping_add w_round 1) then
                vote ← st_lift (λ hg, see hg y w);
                st_modify (record_vote y w vote) ;;
                mret (Cast vote)
              else
                strongly_seen ← st_lift (λ hg, strongly_seen_among hg y
                  (witnesses_of_round hg (u64_wrapping_sub y_round 1)));
                tally ← tally_votes (λ s, vote_of fuel s w) strongly_seen 0 0;
                match tally with
                | inl status => mret (Decided status)
                | inr (yes, no) => conclude_vote y w y_round w_round yes no
                end
          end
      end
  end.

Definition vote_fuel (hg : Hashgraph) : nat := S (N.to_nat (highest_witness_round hg)).

(** [vote_of] called from the two loops. *)
Definition vote_on (y w : EventHash) : action VoteOutcome :=
  hg ← st_get;
  vote_of (vote_fuel hg) y w.

Definition vote_candidates (hg : Hashgraph) (y_round : N) : list EventHash :=
  (filter (λ e, (e.2 < y_round)%N) (hm_iter (undecided_witnesses hg))).*1.

(** The backfill of a late candidate: the recorded witnesses of the later
    rounds vote on it, round by round, until it is decided. *)
Fixpoint backfill (rounds : nat) (y : EventHash) (round : N) : action unit :=
  match rounds with
  | O => mret tt
  | S rounds =>
      hg ← st_get;
      if fame_settled hg y then mret tt else
      st_for (witnesses_of_round hg round) (λ voter, vote_on voter y ;; mret tt) ;;
      hg ← st_get;
      if decide (fame_of hg y = Some Undecided) then
        try_eager_decide y ;;
        hg ← st_get;
        if fame_settled hg y then mret tt else backfill rounds y (round + 1)%N
      else backfill rounds y (round + 1)%N
  end.

Definition vote_as_witness (y : EventHash) : action unit :=
  record ← st_lift (λ hg, expect (get hg y));
  let y_round := rec_round record in
  hg ← st_get;
  st_for (vote_candidates hg y_round) (λ candidate,
    vote_on y candidate ;;
    try_eager_decide candidate ;; mret tt) ;;
  hg ← st_get;
  let first := u64_wrapping_add y_round 1 in
  backfill (N.to_nat (highest_witness_round hg + 1 - first)) y first ;;
  hg ← st_get;
  if decide (fame_of hg y = Some Undecided) then try_eager_decide y ;; mret tt
  else mret tt.
End fame.
