(* ===== verification/Insert.v ===== *)
(** * Inserting events and adding members

    [protocol/consensus/src/round.rs] and [Hashgraph::insert],
    [Hashgraph::add_member] of [hashgraph.rs]. *)

From S2P Require Import Prelude Codec External Primitives Membership Graph Ancestry Order Fame.

(** ** Rounds *)

Definition base_round (self_parent_round other_parent_round : option N) : N :=
  match self_parent_round, other_parent_round with
  | None, None => 1
  | Some a, None => a
  | None, Some b => b
  | Some a, Some b => N.max a b
  end.

Section round.
Context `{HashOrder}.

(** The counting loop of [finalize_round]; an error ends it. *)
Fixpoint count_strongly_seen (hg : Hashgraph) (hash : EventHash) (round : N)
    (witnesses : list EventHash) (count : nat) : res ConsensusError nat :=
  match witnesses with
  | [] => Ok count
  | witness :: witnesses =>
      b ← strongly_see_at hg hash witness round;
      count_strongly_seen hg hash round witnesses (if (b : bool) then S count else count)
  end.

(** The round and witness flag [finalize_round] computes. *)
Definition compute_round (hg : Hashgraph) (hash : EventHash) (base : N)
    (self_parent_round : option N) : res ConsensusError (N * bool) :=
  strongly_seen_count ← count_strongly_seen hg hash base (witnesses_of_round hg base) 0;
  total ← member_count_at_round hg base;
  let final_round :=
    if supermajority strongly_seen_count total then u64_wrapping_add base 1 else base in
  let is_witness :=
    match self_parent_round with
    | None => true
    | Some spr => (spr <? final_round)%N
    end in
  mret (final_round, is_witness).

Definition finalize_round (hash : EventHash) (base : N) (self_parent_round : option N) :
    action unit :=
  '(final_round, is_witness) ← st_lift (λ hg, compute_round hg hash base self_parent_round);
  st_modify (set_event_round hash final_round is_witness) ;;
  if (is_witness : bool) then st_modify (record_witness final_round hash) else mret tt.
End round.

(** ** [ancestor_seqs] rows *)

(** [dst.copy_from_slice(src)] panics when the lengths differ. *)
Definition copy_from_slice {E} (dst src : list N) : res E (list N) :=
  if decide (length dst = length src) then Ok src else Crash Panicked.

(** [for (slot, &v) in dst.iter_mut().zip(src) { *slot = slot.max(v) }]. *)
Fixpoint zip_max (dst src : list N) : list N :=
  match dst, src with
  | slot :: dst, v :: src => N.max slot v :: zip_max dst src
  | _, _ => dst
  end.

(** [v[i] = x] panics out of range. *)
Definition vec_set {E A} (v : list A) (i : nat) (x : A) : res E (list A) :=
  if decide (i < length v) then Ok (<[i := x]> v) else Crash Panicked.

(** The element-wise maximum of the parents' rows. *)
Definition merged_row {E} (width : nat) (self_parent_record other_parent_record : option EventRecord) :
    res E (list N) :=
  row ← match self_parent_record with
        | Some r => copy_from_slice (replicate width 0%N) (rec_ancestor_seqs r)
        | None => mret (replicate width 0%N)
        end;
  mret match other_parent_record with
       | Some r => zip_max row (rec_ancestor_seqs r)
       | None => row
       end.

(** ** The indexes a stored event updates *)

(** [first_child] and [known_forkers]: a second event under one
    (creator, self-parent) is fork evidence. *)
Definition note_branch (c : NodeId) (creator_idx : nat) (sp : option EventHash)
    (hash : EventHash) (fc : gmap (NodeId * option EventHash) EventHash)
    (forkers : list bool) :
    res ConsensusError (gmap (NodeId * option EventHash) EventHash * list bool) :=
  match fc !! (c, sp) with
  | Some existing =>
      if decide (existing ≠ hash) then
        forkers ← vec_set forkers creator_idx true; mret (fc, forkers)
      else mret (fc, forkers)
  | None => mret (<[(c, sp) := hash]> fc, forkers)
  end.

(** [entry(k).or_insert(v)]. *)
Definition or_insert `{Countable K} {V} (k : K) (v : V) (m : gmap K V) : gmap K V :=
  match m !! k with Some _ => m | None => <[k := v]> m end.

Definition note_latest (hg : Hashgraph) (c : NodeId) (sq : N) (hash : EventHash) :
    gmap NodeId EventHash :=
  match latest_by_creator hg !! c with
  | Some latest =>
      let latest_seq := match get hg latest with Some r => rec_seq r | None => 0%N end in
      if decide (latest_seq < sq)%N then <[c := hash]> (latest_by_creator hg)
      else latest_by_creator hg
  | None => <[c := hash]> (latest_by_creator hg)
  end.

(** [children.entry(parent).or_default().push(hash)] for each parent. *)
Definition push_children (hash : EventHash) (ps : list EventHash)
    (ch : gmap EventHash (list EventHash)) : gmap EventHash (list EventHash) :=
  foldl (λ ch p, <[p := default [] (ch !! p) ++ [hash]]> ch) ch ps.

(** A record as first stored. *)
Definition fresh_record (event : Event) (sq : N) (row : list N) (round : N)
    (round_received : option N) (consensus_timestamp : option Timestamp) : EventRecord :=
  {| rec_event := event; rec_seq := sq; rec_ancestor_seqs := row; rec_round := round;
     rec_is_witness := false; rec_votes := ∅; rec_fame := Undecided;
     rec_round_received := round_received; rec_consensus_timestamp := consensus_timestamp |}.

(** [Some(h) => Some(self.events.get(h).ok_or(MissingParent(h))?)]. *)
Definition lookup_parent (hg : Hashgraph) (p : option EventHash) :
    res ConsensusError (option EventRecord) :=
  match p with
  | Some h => r ← ok_or (get hg h) (MissingParent h); mret (Some r)
  | None => mret None
  end.

(** ** [insert] *)

Section insert.
Context `{Sha256, HashOrder}.

(** The checks and the row, before anything is mutated. *)
Definition insert_checks (hg : Hashgraph) (event : Event) :
    res ConsensusError (EventHash * nat * option EventRecord * option EventRecord) :=
  hash ← map_err EncodingFailed (event_hash event);
  if decide (is_Some (get hg hash)) then Err (AlreadyPresent hash) else
  creator_idx ← ok_or (member_index_of hg (creator event)) UnknownCreator;
  self_parent_record ← lookup_parent hg (self_parent event);
  other_parent_record ← lookup_parent hg (other_parent event);
  match self_parent_record with
  | Some record =>
      if decide (creator (rec_event record) ≠ creator event) then Err InvalidSelfParent
      else mret (hash, creator_idx, self_parent_record, other_parent_record)
  | None => mret (hash, creator_idx, self_parent_record, other_parent_record)
  end.

(** Storing the event with its provisional round and updating the indexes. *)
Definition store_event (hg : Hashgraph) (event : Event) (hash : EventHash) (creator_idx : nat)
    (self_parent_record other_parent_record : option EventRecord) :
    res ConsensusError Hashgraph :=
  let sq := match self_parent_record with
            | Some r => u64_wrapping_add (rec_seq r) 1
            | None => 1%N
            end in
  row ← merged_row (member_count hg) self_parent_record other_parent_record;
  row ← vec_set row creator_idx sq;
  '(fc, forkers) ← note_branch (creator event) creator_idx (self_parent event) hash
                     (first_child hg) (known_forkers hg);
  let base := base_round (rec_round <$> self_parent_record) (rec_round <$> other_parent_record) in
  mret (Upd.events (<[hash := fresh_record event sq row base None None]>)
          (Upd.indexes (push_children hash (parents event) (children hg)) fc
             (or_insert (creator event, sq) hash (by_creator_seq hg))
             (note_latest hg (creator event) sq hash) forkers hg)).

(** What follows the storage of the event: a witness votes, and the next
    round to order is checked for completion. *)
Definition settle (hash : EventHash) : action unit :=
  hg ← st_get;
  (if match get hg hash with Some r => rec_is_witness r | None => false end
   then vote_as_witness hash else mret tt) ;;
  hg ← st_get;
  note_round_decided_if_complete (next_round_to_order hg).

Definition insert (event : Event) : action EventHash :=
  '(hash, creator_idx, sp, op) ← st_lift (λ hg, insert_checks hg event);
  hg' ← st_lift (λ hg, store_event hg event hash creator_idx sp op);
  st_modify (λ _, hg') ;;
  finalize_round hash (base_round (rec_round <$> sp) (rec_round <$> op)) (rec_round <$> sp) ;;
  settle hash ;;
  mret hash.
End insert.

(** ** [add_member] *)

Definition add_member (node : NodeId) (activation_round : N) (new_registry : MembershipRegistry) :
    action unit := λ hg,
  if decide (is_Some (member_index hg !! node)) then (Crash Panicked, hg) else
  let hg' := Upd.members (<[node := member_count hg]> (member_index hg))
               (S (member_count hg))
               (Roster.schedule (roster_history hg) (u64_saturating_add activation_round 1)
                  new_registry)
               (known_forkers hg ++ [false]) hg in
  (Ok tt, Upd.events (fmap Upd.record_push_seq) hg').
