(* ===== verification/Wf.v ===== *)
(** * The structural invariant, and what it makes [see] mean

    [graph_wf] is the invariant of a hashgraph that holds the whole history:
    parents are stored, sequence numbers count a creator's self-parents, each
    [ancestor_seqs] row summarises the ancestors, and a member that is not
    flagged as a forker has one event per self-parent.  Under it, [see] is
    exactly "ancestor, and no fork of the target's creator below the
    observer". *)

From S2P Require Import Prelude Codec External Primitives Membership Graph Ancestry Reach.

Record record_wf (g : Hashgraph) (h : EventHash) (r : EventRecord) : Prop := {
  rw_width : length (rec_ancestor_seqs r) = member_count g;
  rw_creator : is_Some (member_index g !! creator (rec_event r));
  rw_signature : length (signature (rec_event r)) = 64;
  rw_parents : ∀ p, p ∈ parents (rec_event r) → is_Some (get g p);
  rw_seq : match self_parent (rec_event r) with
           | None => rec_seq r = 1%N
           | Some p => ∃ rp, get g p = Some rp ∧
               creator (rec_event rp) = creator (rec_event r) ∧
               rec_seq r = (rec_seq rp + 1)%N
           end;
  rw_by_seq : is_Some (by_creator_seq g !! (creator (rec_event r), rec_seq r));
  rw_first_child :
    is_Some (first_child g !! (creator (rec_event r), self_parent (rec_event r)));
  rw_own : ∀ i, member_index g !! creator (rec_event r) = Some i →
             rec_ancestor_seqs r !! i = Some (rec_seq r);
  rw_row_found : ∀ c i s, member_index g !! c = Some i → rec_ancestor_seqs r !! i = Some s →
                   s ≠ 0%N → ∃ y, anc g h y ∧ made_by g c s y;
  rw_row_max : ∀ c i s y sy, member_index g !! c = Some i → rec_ancestor_seqs r !! i = Some s →
                 anc g h y → made_by g c sy y → (sy ≤ s)%N ∨ forks_below g h c;
}.

Record graph_wf (g : Hashgraph) : Prop := {
  wf_forkers : length (known_forkers g) = member_count g;
  wf_index_lt : ∀ c i, member_index g !! c = Some i → i < member_count g;
  wf_index_inj : ∀ c1 c2 i, member_index g !! c1 = Some i → member_index g !! c2 = Some i → c1 = c2;
  wf_record : ∀ h r, get g h = Some r → record_wf g h r;
  wf_acyclic : ∃ rank : EventHash → nat, ∀ h p, parent_of g h p → rank p < rank h;
  wf_by_seq : ∀ c s h, by_creator_seq g !! (c, s) = Some h → made_by g c s h;
  wf_first_child : ∀ c sp h, first_child g !! (c, sp) = Some h →
    ∃ r, get g h = Some r ∧ creator (rec_event r) = c ∧ self_parent (rec_event r) = sp;
  wf_unforked : ∀ c i h1 h2 r1 r2,
    member_index g !! c = Some i → known_forkers g !! i = Some false →
    get g h1 = Some r1 → get g h2 = Some r2 →
    creator (rec_event r1) = c → creator (rec_event r2) = c →
    self_parent (rec_event r1) = self_parent (rec_event r2) → h1 = h2;
  wf_latest : ∀ c h, latest_by_creator g !! c = Some h →
    ∃ r, get g h = Some r ∧ creator (rec_event r) = c;
}.

(** ** Consequences *)

Definition self_parent_of (g : Hashgraph) (x p : EventHash) : Prop :=
  ∃ r, get g x = Some r ∧ self_parent (rec_event r) = Some p.

Section wf.
Context (g : Hashgraph) (Hg : graph_wf g).

Lemma wf_seq_pos h r : get g h = Some r → (1 ≤ rec_seq r)%N.
Proof.
  intros Hr. pose proof (rw_seq _ _ _ (wf_record _ Hg _ _ Hr)) as Hs.
  destruct (self_parent (rec_event r)); [destruct Hs as (? & _ & _ & ->)|]; lia.
Qed.

Lemma wf_forker_flag c i :
  member_index g !! c = Some i → ∃ b, known_forkers g !! i = Some b.
Proof.
  intros Hi. apply lookup_lt_is_Some. rewrite (wf_forkers _ Hg). by apply (wf_index_lt _ Hg c).
Qed.

Lemma wf_row_lookup h r c i :
  get g h = Some r → member_index g !! c = Some i → ∃ s, rec_ancestor_seqs r !! i = Some s.
Proof.
  intros Hr Hi. apply lookup_lt_is_Some.
  rewrite (rw_width _ _ _ (wf_record _ Hg _ _ Hr)). by apply (wf_index_lt _ Hg c).
Qed.

Lemma self_parent_anc h r p :
  get g h = Some r → self_parent (rec_event r) = Some p → anc g h p.
Proof. intros Hr Hp. apply rtc_once. exists r. split; [done|]. apply elem_of_parents. by left. Qed.

(** An ancestor of a stored event is stored. *)
Lemma wf_anc_stored x y : anc g x y → is_Some (get g x) → is_Some (get g y).
Proof.
  induction 1 as [|a b c (r & Hr & Hp) _ IH]; intros Hx; [done|].
  apply IH. by apply (rw_parents _ _ _ (wf_record _ Hg _ _ Hr)).
Qed.

Lemma wf_anc_antisym x y : anc g x y → anc g y x → x = y.
Proof.
  destruct (wf_acyclic _ Hg) as [rank Hrank].
  assert (∀ a b, anc g a b → rank b ≤ rank a) as Hle.
  { induction 1 as [|a b c Hab _ IH]; [done|]. specialize (Hrank _ _ Hab). lia. }
  intros Hxy Hyx. destruct Hxy as [|x b y Hxb Hby]; [done|].
  specialize (Hrank _ _ Hxb). apply Hle in Hby, Hyx. lia.
Qed.

Lemma self_anc_anc x z : rtc (self_parent_of g) x z → anc g x z.
Proof.
  induction 1 as [|a b c (r & Hr & Hp) _ IH]; [apply rtc_refl|].
  etrans; [|exact IH]. by eapply self_parent_anc.
Qed.

(** Every earlier sequence number of a creator is found down its chain. *)
Lemma wf_self_chain h r s :
  get g h = Some r → (1 ≤ s ≤ rec_seq r)%N →
  ∃ y, rtc (self_parent_of g) h y ∧ made_by g (creator (rec_event r)) s y.
Proof.
  remember (N.to_nat (rec_seq r - s)) as n eqn:Hn. revert h r Hn.
  induction n as [|n IH]; intros h r Hn Hr Hs.
  - exists h. split; [apply rtc_refl|]. exists r. split_and!; [done..|lia].
  - pose proof (rw_seq _ _ _ (wf_record _ Hg _ _ Hr)) as Hseq.
    destruct (self_parent (rec_event r)) as [p|] eqn:Hp; [|lia].
    destruct Hseq as (rp & Hrp & Hc & Hsq).
    destruct (IH p rp) as (y & Hy & Hm); [lia|done|lia|].
    exists y. rewrite Hc in Hm. split; [|done]. eapply rtc_l; [by exists r|done].
Qed.

Lemma wf_chain_down h r s :
  get g h = Some r → (1 ≤ s ≤ rec_seq r)%N →
  ∃ y, anc g h y ∧ made_by g (creator (rec_event r)) s y.
Proof.
  intros Hr Hs. destruct (wf_self_chain h r s Hr Hs) as (y & Hy & Hm).
  exists y. split; [by apply self_anc_anc|done].
Qed.

(** A member that never forked has one event per sequence number. *)
Lemma wf_made_by_unique c i s h1 h2 :
  member_index g !! c = Some i → known_forkers g !! i = Some false →
  made_by g c s h1 → made_by g c s h2 → h1 = h2.
Proof.
  intros Hi Hf. revert h1 h2. induction (N.lt_wf_0 s) as [s _ IH].
  intros h1 h2 (r1 & Hr1 & Hc1 & Hs1) (r2 & Hr2 & Hc2 & Hs2).
  apply (wf_unforked _ Hg c i h1 h2 r1 r2); try done.
  pose proof (rw_seq _ _ _ (wf_record _ Hg _ _ Hr1)) as Hq1.
  pose proof (rw_seq _ _ _ (wf_record _ Hg _ _ Hr2)) as Hq2.
  destruct (self_parent (rec_event r1)) as [p1|], (self_parent (rec_event r2)) as [p2|].
  - destruct Hq1 as (q1 & ? & ? & ?), Hq2 as (q2 & ? & ? & ?). f_equal.
    apply (IH (rec_seq q1)); [lia|exists q1|exists q2]; split_and!; congruence || lia.
  - destruct Hq1 as (q1 & Hp & _ & ?). apply wf_seq_pos in Hp. lia.
  - destruct Hq2 as (q2 & Hp & _ & ?). apply wf_seq_pos in Hp. lia.
  - done.
Qed.

Lemma wf_no_forks_below c i x :
  member_index g !! c = Some i → known_forkers g !! i = Some false → ¬ forks_below g x c.
Proof.
  intros Hi Hf (y1 & y2 & r1 & r2 & Hne & _ & _ & H1 & H2 & Hc1 & Hc2 & Hs).
  destruct Hne. eapply (wf_made_by_unique c i (rec_seq r1)); [done..|by exists r1|by exists r2].
Qed.

Lemma forks_below_anc x y c : anc g x y → forks_below g y c → forks_below g x c.
Proof.
  intros Hxy (y1 & y2 & r1 & r2 & Hne & H1 & H2 & Hrest).
  exists y1, y2, r1, r2. split_and!; [done|by etrans|by etrans|apply Hrest..].
Qed.

(** Of two events of an unforked member, the one with the higher sequence
    number descends from the other. *)
Lemma wf_chain_anc c i s1 s2 h1 h2 :
  member_index g !! c = Some i → known_forkers g !! i = Some false →
  made_by g c s1 h1 → made_by g c s2 h2 → (s2 ≤ s1)%N → anc g h1 h2.
Proof.
  intros Hi Hf (r1 & Hr1 & Hc1 & <-) Hm2 Hle.
  assert (1 ≤ s2)%N by (destruct Hm2 as (r2 & Hr2 & _ & <-); by eapply wf_seq_pos).
  destruct (wf_chain_down h1 r1 s2 Hr1 ltac:(lia)) as (y & Hy & Hm).
  rewrite Hc1 in Hm. by rewrite (wf_made_by_unique c i s2 h2 y).
Qed.

Lemma wf_by_seq_lookup c i h r :
  member_index g !! c = Some i → known_forkers g !! i = Some false →
  get g h = Some r → creator (rec_event r) = c → by_creator_seq g !! (c, rec_seq r) = Some h.
Proof.
  intros Hi Hf Hr <-.
  destruct (rw_by_seq _ _ _ (wf_record _ Hg _ _ Hr)) as [h' Hh']. rewrite Hh'. f_equal.
  apply (wf_by_seq _ Hg) in Hh'. eapply wf_made_by_unique; [done..|by exists r].
Qed.
End wf.

(** ** [see] *)

(** The specification of [see]: an ancestor whose creator has no fork below
    the observer. *)
Definition sees (g : Hashgraph) (x y : EventHash) : Prop :=
  ∃ ry, get g y = Some ry ∧ anc g x y ∧ ¬ forks_below g x (creator (rec_event ry)).

Section see.
Context (g : Hashgraph) (Hg : graph_wf g).

(** [is_ancestor] finds only ancestors, and all of them unless the target's
    creator forked below the observer. *)
Lemma is_ancestor_spec x y rx ry :
  get g x = Some rx → get g y = Some ry →
  ∃ b, is_ancestor g x y = Ok b ∧ (b = true → anc g x y) ∧
    (anc g x y → b = true ∨ forks_below g x (creator (rec_event ry))).
Proof.
  intros Hx Hy. unfold is_ancestor, ancestor_seq, creator_has_known_fork, member_index_of.
  case_decide as Heq.
  { subst. exists true. split; [done|]. split; [intros _; apply rtc_refl|by left]. }
  rewrite Hx, Hy. simpl.
  destruct (rw_creator _ _ _ (wf_record _ Hg _ _ Hy)) as [i Hi].
  destruct (wf_row_lookup g Hg x rx _ _ Hx Hi) as [s Hs].
  destruct (wf_forker_flag g Hg _ _ Hi) as [f Hf].
  rewrite Hi; simpl. rewrite Hs; simpl. case_decide as Hlt.
  { exists false. split; [done|]. split; [done|]. intros Ha. right.
    destruct (rw_row_max _ _ _ (wf_record _ Hg _ _ Hx) _ i s y (rec_seq ry) Hi Hs Ha); [by exists ry|lia|done]. }
  rewrite Hf; simpl. destruct f; simpl.
  - destruct (ancestry_contains_event_spec g x y) as (b & -> & Hb).
    exists b. split; [done|]. split; [apply Hb|]. intros Ha. left. by apply Hb.
  - exists true. split; [done|]. split; [|by left]. intros _.
    pose proof (wf_seq_pos g Hg y ry Hy).
    destruct (rw_row_found _ _ _ (wf_record _ Hg _ _ Hx) _ i s Hi Hs) as (z & Hz & Hm); [lia|].
    etrans; [exact Hz|]. eapply (wf_chain_anc g Hg _ i s (rec_seq ry)); [done..|by exists ry|lia].
Qed.

Lemma see_spec x y rx ry :
  get g x = Some rx → get g y = Some ry → ∃ b, see g x y = Ok b ∧ (b = true ↔ sees g x y).
Proof.
  intros Hx Hy. unfold see, creator_has_known_fork, member_index_of.
  destruct (is_ancestor_spec x y rx ry Hx Hy) as (a & -> & Ha1 & Ha2). simpl.
  destruct a; simpl.
  - rewrite Hy; simpl. destruct (rw_creator _ _ _ (wf_record _ Hg _ _ Hy)) as [i Hi].
    destruct (wf_forker_flag g Hg _ _ Hi) as [f Hf]. rewrite Hi; simpl. rewrite Hf; simpl.
    destruct f; simpl.
    + destruct (ancestry_contains_fork_of_spec g x (creator (rec_event ry))) as (b & -> & Hb).
      exists (negb b). split; [done|]. unfold sees. destruct b; simpl; split; try done.
      * intros (? & ? & _ & Hno). simplify_eq. destruct Hno. by apply Hb.
      * intros _. exists ry. split_and!; [done|by apply Ha1|]. intros ?%Hb. done.
    + exists true. split; [done|]. split; [|done]. intros _. exists ry.
      split_and!; [done|by apply Ha1|]. by eapply wf_no_forks_below.
  - exists false. split; [done|]. split; [done|]. intros (? & ? & Ha & Hno). simplify_eq.
    by destruct (Ha2 Ha).
Qed.

Lemma see_true x y : see g x y = Ok true → is_Some (get g x) → sees g x y.
Proof.
  intros Hsee [rx Hx]. destruct (get g y) as [ry|] eqn:Hy.
  - destruct (see_spec x y rx ry Hx Hy) as (b & Hb & Hiff). rewrite Hb in Hsee. apply Hiff. congruence.
  - unfold see, is_ancestor in Hsee. case_decide; [subst; congruence|].
    by rewrite Hx, Hy in Hsee.
Qed.

Lemma sees_anc x y : sees g x y → anc g x y.
Proof. by intros (? & _ & ? & _). Qed.

Lemma sees_self x rx : get g x = Some rx → sees g x x ∨ forks_below g x (creator (rec_event rx)).
Proof.
  intros Hx. destruct (ancestry_contains_fork_of_spec g x (creator (rec_event rx))) as ([] & _ & Hb).
  - right. by apply Hb.
  - left. exists rx. split_and!; [done|apply rtc_refl|]. intros ?%Hb. done.
Qed.

(** ** The self-parent walk *)

Lemma self_anc_creator x z rx :
  rtc (self_parent_of g) x z → get g x = Some rx →
  ∃ rz, get g z = Some rz ∧ creator (rec_event rz) = creator (rec_event rx).
Proof.
  intros Hz. revert rx. induction Hz as [|a b c (r & Hr & Hp) _ IH]; intros rx Hx; [by eauto|].
  rewrite Hr in Hx. injection Hx as <-.
  pose proof (rw_seq _ _ _ (wf_record _ Hg _ _ Hr)) as Hs. rewrite Hp in Hs.
  destruct Hs as (rp & Hrp & Hc & _). destruct (IH rp Hrp) as (rz & ? & ?).
  exists rz. split; [done|congruence].
Qed.

Lemma chain_walk_spec (fuel : nat) (visited : gset EventHash) y ry h r :
  get g y = Some ry → get g h = Some r →
  (∀ v, v ∈ visited → ∃ rv, get g v = Some rv ∧ (rec_seq r < rec_seq rv)%N) →
  size (events g) < fuel + size visited →
  ∃ b, chain_walk fuel g y h = Ok b ∧ (b = true ↔ ∃ z, rtc (self_parent_of g) h z ∧ sees g z y).
Proof.
  intros Hy. revert visited h r. induction fuel as [|fuel IH]; intros visited h r Hh Hv Hsz.
  { assert (visited ⊆ dom (events g)) as Hsub%subseteq_size.
    { intros v (rv & Hrv & _)%Hv. apply elem_of_dom. by exists rv. }
    rewrite size_dom in Hsub. lia. }
  simpl. destruct (see_spec h y r ry Hh Hy) as (b & -> & Hb). simpl. destruct b.
  { exists true. split; [done|]. split; [|done]. intros _. exists h. split; [done|by apply Hb]. }
  rewrite Hh; simpl. pose proof (rw_seq _ _ _ (wf_record _ Hg _ _ Hh)) as Hs.
  destruct (self_parent (rec_event r)) as [p|] eqn:Hp.
  - destruct Hs as (rp & Hrp & _ & Hsq). rewrite Hrp.
    destruct (IH ({[ h ]} ∪ visited) p rp) as (b & -> & Hb'); [done|..].
    + intros v [->%elem_of_singleton|Hin]%elem_of_union; [exists r; split; [done|lia]|].
      destruct (Hv v Hin) as (rv & ? & ?). exists rv. split; [done|lia].
    + rewrite size_union, size_singleton; [lia|].
      intros h' ->%elem_of_singleton (rv & ? & ?)%Hv. simplify_eq. lia.
    + exists b. split; [done|]. rewrite Hb'. split; intros (z & Hz & Hsee).
      * exists z. split; [|done]. eapply rtc_l; [by exists r|done].
      * exists z. split; [|done]. destruct Hz as [|h p' z (r' & ? & ?) Hz]; [|by simplify_eq].
        apply Hb in Hsee. done.
  - exists false. split; [done|]. split; [done|]. intros (z & Hz & Hsee).
    destruct Hz as [|h p' z (r' & ? & ?) Hz]; [|by simplify_eq]. by apply Hb in Hsee.
Qed.
End see.
