(* ===== verification/Quorum.v ===== *)
(** * [strongly_see] and quorum intersection

    Under the structural invariant [strongly_see_at] counts the members that
    have an event between the observer and the target, each seeing the
    target.  Two supermajorities of the same roster share more than a third of
    it, so two branches of a fork are never both strongly seen unless at
    least a third of the members forked. *)

From S2P Require Import Prelude Codec External Primitives Membership Graph Ancestry Reach Wf.

(** Member [c] vouches for [y] below [x]: one of its events between them sees
    [y]. *)
Definition vouches (g : Hashgraph) (x y : EventHash) (c : NodeId) : Prop :=
  ∃ z rz, anc g x z ∧ get g z = Some rz ∧ creator (rec_event rz) = c ∧ sees g z y.

(** Whether the counting loop counts a member. *)
Definition counted (g : Hashgraph) (x y : EventHash) (rx : EventRecord) (m : NodeId * nat) : bool :=
  match rec_ancestor_seqs rx !! m.2 with
  | Some s => if decide (s = 0%N) then false
              else match member_chain_reaches g x m.1 m.2 s y with Ok b => b | _ => false end
  | None => false
  end.

Section strongly_see.
Context (g : Hashgraph) (Hg : graph_wf g).
Context (x y : EventHash) (rx ry : EventRecord) (Hx : get g x = Some rx) (Hy : get g y = Some ry).

(** The event the walk of member [c] starts from. *)
Lemma chain_start c i s :
  member_index g !! c = Some i → rec_ancestor_seqs rx !! i = Some s → s ≠ 0%N →
  ∃ f h, known_forkers g !! i = Some f ∧ anc g x h ∧ made_by g c s h ∧
    (if f : bool then ancestor_event_for_creator g x c s = Ok (Some h)
     else event_for_creator_seq g c s = Some h).
Proof.
  intros Hi Hs Hne.
  destruct (rw_row_found _ _ _ (wf_record _ Hg _ _ Hx) c i s Hi Hs Hne) as (z & Hz & Hm).
  destruct (wf_forker_flag g Hg c i Hi) as [f Hf]. exists f. destruct f.
  - destruct (ancestor_event_for_creator_spec g x c s) as ([h|] & Ho & Hspec).
    + exists h. tauto.
    + by destruct (Hspec z Hz).
  - exists z. destruct Hm as (rz & Hrz & Hc & Hsz). split_and!; [done..|by exists rz|].
    unfold event_for_creator_seq. rewrite <- Hsz. by eapply wf_by_seq_lookup.
Qed.

Lemma member_chain_reaches_spec c i s :
  member_index g !! c = Some i → rec_ancestor_seqs rx !! i = Some s → s ≠ 0%N →
  ∃ b, member_chain_reaches g x c i s y = Ok b ∧ (b = true → vouches g x y c) ∧
    (known_forkers g !! i = Some false → vouches g x y c → b = true).
Proof.
  intros Hi Hs Hne. unfold member_chain_reaches, creator_has_known_fork.
  destruct (chain_start c i s Hi Hs Hne) as (f & h & Hf & Hh & Hm & Hstart).
  rewrite Hf; simpl. destruct Hm as (rh & Hrh & Hc & Hsh).
  destruct (chain_walk_spec g Hg (walk_fuel g) ∅ y ry h rh Hy Hrh) as (b & Hb & Hiff);
    [set_solver|unfold walk_fuel; lia|].
  exists b. split_and!.
  - by destruct f; rewrite Hstart.
  - intros (z & Hz & Hsee)%Hiff. destruct (self_anc_creator g Hg h z rh Hz Hrh) as (rz & Hrz & Hcz).
    exists z, rz. split_and!; [|done|congruence|done].
    etrans; [exact Hh|]. by apply self_anc_anc.
  - intros [= ->] (z & rz & Hz & Hrz & Hcz & Hsee). apply Hiff. exists z. split; [|done].
    destruct (rw_row_max _ _ _ (wf_record _ Hg _ _ Hx) c i s z (rec_seq rz) Hi Hs Hz)
      as [Hle|Hfork]; [by exists rz| |by destruct (wf_no_forks_below g Hg c i x Hi Hf)].
    destruct (wf_self_chain g Hg h rh (rec_seq rz) Hrh) as (z' & Hz' & Hm').
    { pose proof (wf_seq_pos g Hg z rz Hrz). lia. }
    rewrite Hc in Hm'. by rewrite (wf_made_by_unique g Hg c i (rec_seq rz) z z'); [..|exists rz|].
Qed.

Lemma count_members_spec ms n :
  (∀ m, m ∈ ms → member_index g !! m.1 = Some m.2) →
  count_members g x y rx ms n = Ok (n + length (filter (λ m, counted g x y rx m = true) ms)).
Proof.
  revert n. induction ms as [|[c i] ms IH]; intros n Hms; simpl.
  { by rewrite Nat.add_0_r. }
  assert (member_index g !! c = Some i) as Hi by (apply (Hms (c, i)); by left).
  assert (∀ m, m ∈ ms → member_index g !! m.1 = Some m.2) as Hms' by (intros; apply Hms; by right).
  destruct (wf_row_lookup g Hg x rx c i Hx Hi) as [s Hs].
  unfold ancestor_seq. rewrite Hs; simpl. rewrite filter_cons.
  assert (counted g x y rx (c, i) = if decide (s = 0%N) then false else
    match member_chain_reaches g x c i s y with Ok b => b | _ => false end) as Hcnt
    by (unfold counted; simpl; by rewrite Hs).
  case_decide as Hz.
  - rewrite IH by done. by rewrite decide_False by congruence.
  - destruct (member_chain_reaches_spec c i s Hi Hs Hz) as (b & Hb & _). rewrite Hb in *; simpl.
    rewrite IH by done.
    destruct b; [rewrite decide_True by done|by rewrite decide_False by congruence].
    simpl. f_equal. lia.
Qed.

Lemma counted_vouches c i :
  member_index g !! c = Some i → counted g x y rx (c, i) = true → vouches g x y c.
Proof.
  intros Hi. unfold counted; simpl. destruct (rec_ancestor_seqs rx !! i) as [s|] eqn:Hs; [|done].
  case_decide as Hz; [done|].
  destruct (member_chain_reaches_spec c i s Hi Hs Hz) as (b & -> & Hv & _). exact Hv.
Qed.

Context `{HashOrder}.

Definition counted_members : list (NodeId * nat) :=
  filter (λ m, counted g x y rx m = true) (member_index_iter g).

Lemma strongly_see_at_spec r n :
  member_count_at_round g r = Ok n →
  ∃ b, strongly_see_at g x y r = Ok b ∧
    (b = true ↔ sees g x y ∧ n * 2 < length counted_members * 3).
Proof.
  intros Hn. unfold strongly_see_at.
  destruct (see_spec g Hg x y rx ry Hx Hy) as (b & -> & Hb). simpl. destruct b; simpl.
  - rewrite Hx; simpl. rewrite count_members_spec; simpl.
    + rewrite Hn; simpl. eexists. split; [done|]. rewrite supermajority_spec.
      unfold counted_members. split; [intros; split; [by apply Hb|done]|by intros []].
    + intros [c i] Hm%elem_of_hm_iter. done.
  - exists false. split; [done|]. split; [done|]. intros [?%Hb _]. done.
Qed.

Lemma counted_members_NoDup : NoDup counted_members.*1.
Proof.
  apply NoDup_fmap_fst.
  - intros c i1 i2 [_ H1%elem_of_hm_iter]%list_elem_of_filter
      [_ H2%elem_of_hm_iter]%list_elem_of_filter. congruence.
  - apply NoDup_filter. unfold member_index_iter, hm_iter. rewrite hash_order_perm.
    apply NoDup_map_to_list.
Qed.

Lemma counted_members_spec c :
  c ∈ counted_members.*1 → is_Some (member_index g !! c) ∧ vouches g x y c.
Proof.
  intros ([c' i] & -> & [Hc Hm%elem_of_hm_iter]%list_elem_of_filter)%list_elem_of_fmap; simpl.
  split; [by exists i|]. by eapply counted_vouches.
Qed.
End strongly_see.

(** ** Quorum intersection *)

(** The members with fork evidence. *)
Definition forkers (g : Hashgraph) : gset NodeId :=
  dom (filter (λ e, known_forkers g !! e.2 = Some true) (member_index g)).

Lemma elem_of_forkers g c :
  c ∈ forkers g ↔ ∃ i, member_index g !! c = Some i ∧ known_forkers g !! i = Some true.
Proof.
  unfold forkers. rewrite elem_of_dom. split.
  - intros [i [? ?]%map_lookup_filter_Some]. by exists i.
  - intros (i & ? & ?). exists i. by apply map_lookup_filter_Some.
Qed.

(** Two supermajorities of [M] share an element outside any [F] smaller than
    a third of it. *)
Lemma quorum_intersection (M F Q1 Q2 : gset NodeId) :
  Q1 ⊆ M → Q2 ⊆ M → size M * 2 < size Q1 * 3 → size M * 2 < size Q2 * 3 →
  size F * 3 < size M → ∃ c, c ∈ Q1 ∧ c ∈ Q2 ∧ c ∉ F.
Proof.
  intros H1 H2 Hq1 Hq2 HF.
  destruct (decide (Q1 ∩ Q2 ⊆ F)) as [Hsub|Hnot].
  - exfalso. apply subseteq_size in Hsub.
    assert (size (Q1 ∪ Q2) ≤ size M) as Hu by (apply subseteq_size; set_solver).
    assert (size Q1 = size (Q1 ∖ Q2) + size (Q1 ∩ Q2)) as E1.
    { rewrite <- size_union by set_solver. f_equal. apply set_eq. intros z.
      destruct (decide (z ∈ Q2)); set_solver. }
    rewrite size_union_alt in Hu.
    assert (size (Q1 ∪ Q2) = size (Q1 ∖ Q2) + size Q2) as E2.
    { rewrite <- size_union by set_solver. f_equal. apply set_eq. intros z.
      destruct (decide (z ∈ Q2)); set_solver. }
    rewrite size_union_alt in E2. lia.
  - destruct (set_choose_or_empty ((Q1 ∩ Q2) ∖ F)) as [[c Hc]|He]; [exists c; set_solver|].
    destruct Hnot. intros z Hz. destruct (decide (z ∈ F)); [done|set_solver].
Qed.

Section fork.
Context `{HashOrder} (g : Hashgraph) (Hg : graph_wf g).

(** A strongly seen event is vouched for by a supermajority. *)
Lemma strongly_see_quorum x y r n :
  is_Some (get g x) → member_count_at_round g r = Ok n → strongly_see_at g x y r = Ok true →
  ∃ Q : gset NodeId, Q ⊆ dom (member_index g) ∧ n * 2 < size Q * 3 ∧
    ∀ c, c ∈ Q → vouches g x y c.
Proof.
  intros [rx Hx] Hn Hss.
  assert (∃ ry, get g y = Some ry) as [ry Hy].
  { unfold strongly_see_at in Hss. destruct (see g x y) as [[]| |] eqn:Hsee; [|done..].
    destruct (see_true g Hg x y Hsee) as (ry & Hy & _); eauto. }
  destruct (strongly_see_at_spec g Hg x y rx ry Hx Hy r n Hn) as (b & Hb & Hiff).
  rewrite Hss in Hb. injection Hb as <-. destruct Hiff as [[_ Hlt] _]; [done|].
  exists (list_to_set (counted_members g x y rx).*1). split_and!.
  - intros c [? _]%elem_of_list_to_set%(counted_members_spec g Hg x y rx ry Hx Hy).
    by apply elem_of_dom.
  - rewrite size_list_to_set by (apply (counted_members_NoDup g)). by rewrite length_fmap.
  - intros c [_ ?]%elem_of_list_to_set%(counted_members_spec g Hg x y rx ry Hx Hy). done.
Qed.

(** An unforked member vouches for at most one branch of a fork. *)
Lemma vouches_one_branch x1 x2 y1 y2 c cy s :
  c ∉ forkers g → is_Some (member_index g !! c) →
  vouches g x1 y1 c → vouches g x2 y2 c → made_by g cy s y1 → made_by g cy s y2 → y1 = y2.
Proof.
  intros Hc [i Hi] (z1 & rz1 & _ & Hz1 & Hc1 & Hs1) (z2 & rz2 & _ & Hz2 & Hc2 & Hs2)
    (r1 & Hr1 & Hcy1 & Hq1) (r2 & Hr2 & Hcy2 & Hq2).
  assert (known_forkers g !! i = Some false) as Hf.
  { destruct (wf_forker_flag g Hg c i Hi) as [[] Hf]; [|done].
    destruct Hc. apply elem_of_forkers. eauto. }
  destruct (decide (y1 = y2)) as [|Hne]; [done|exfalso].
  assert (∀ za ya yb rza rzb zb ra rb, get g za = Some rza → get g zb = Some rzb →
    creator (rec_event rza) = c → creator (rec_event rzb) = c →
    sees g za ya → sees g zb yb → get g ya = Some ra → get g yb = Some rb →
    creator (rec_event ra) = cy → creator (rec_event rb) = cy → rec_seq ra = s → rec_seq rb = s →
    ya ≠ yb → ¬ (rec_seq rzb ≤ rec_seq rza)%N) as Hcase.
  { intros za ya yb rza rzb zb ra rb Hza Hzb Hcza Hczb (ra' & Ha' & Hya & Hno)
      (rb' & Hb' & Hyb & _) Hra Hrb Hca Hcb Hqa Hqb Hneq Hle.
    assert (ra' = ra) as -> by congruence. assert (rb' = rb) as -> by congruence.
    destruct Hno. exists ya, yb, ra, rb. split_and!; try congruence.
    etrans; [|exact Hyb]. eapply (wf_chain_anc g Hg _ i (rec_seq rza) (rec_seq rzb));
      [done..|by exists rza|by exists rzb|done]. }
  destruct (N.le_ge_cases (rec_seq rz2) (rec_seq rz1)).
  - by apply (Hcase z1 y1 y2 rz1 rz2 z2 r1 r2).
  - by apply (Hcase z2 y2 y1 rz2 rz1 z1 r2 r1).
Qed.
End fork.
