(* ===== verification/Store.v ===== *)
(** * Storing an event preserves the structural invariant *)

From S2P Require Import Prelude Codec External Primitives Membership Graph Ancestry Reach Order.
From S2P Require Import Fame Insert Wf.

(** Every sequence number is at most [B]. *)
Definition seqs_within (B : N) (g : Hashgraph) : Prop :=
  ∀ h r, get g h = Some r → (rec_seq r ≤ B)%N.

(** ** What the checks establish *)

Record checked `{Sha256} (g : Hashgraph) (e : Event) (hash : EventHash) (i : nat)
    (sp op : option EventRecord) : Prop := {
  ck_hash : event_hash e = Ok hash;
  ck_fresh : get g hash = None;
  ck_index : member_index g !! creator e = Some i;
  ck_self : match self_parent e with
            | Some p => ∃ r, sp = Some r ∧ get g p = Some r ∧
                          creator (rec_event r) = creator e
            | None => sp = None
            end;
  ck_other : match other_parent e with
             | Some p => ∃ r, op = Some r ∧ get g p = Some r
             | None => op = None
             end;
}.

Lemma insert_checks_Ok `{Sha256} g e hash i sp op :
  insert_checks g e = Ok (hash, i, sp, op) → checked g e hash i sp op.
Proof.
  unfold insert_checks, lookup_parent, member_index_of.
  intros (h & Hh & Hrest)%res_bind_Ok. case_decide as Hfresh; [done|].
  apply res_bind_Ok in Hrest as (j & Hj%ok_or_Ok & (sp' & Hsp & (op' & Hop & Hfin)%res_bind_Ok)%res_bind_Ok).
  assert (h = hash ∧ j = i ∧ sp' = sp ∧ op' = op ∧
    match sp' with Some r => creator (rec_event r) = creator e | None => True end)
    as (-> & -> & -> & -> & Hcr).
  { destruct sp' as [r|]; [case_decide as Hc; [done|]|]; apply res_ret_Ok in Hfin; simplify_eq;
      split_and!; done. }
  split; [|by apply eq_None_not_Some|done|..].
  - destruct (event_hash e); simpl in Hh; by simplify_eq.
  - destruct (self_parent e) as [p|].
    + apply res_bind_Ok in Hsp as (r & Hr%ok_or_Ok & <-%res_ret_Ok). by exists r.
    + by apply res_ret_Ok in Hsp.
  - destruct (other_parent e) as [p|].
    + apply res_bind_Ok in Hop as (r & Hr%ok_or_Ok & <-%res_ret_Ok). by exists r.
    + by apply res_ret_Ok in Hop.
Qed.

(** ** Rows *)

Lemma lookup_zip_max (a b : list N) j va vb :
  a !! j = Some va → b !! j = Some vb → zip_max a b !! j = Some (N.max va vb).
Proof.
  revert b j. induction a as [|x a IH]; intros [|y b] [|j]; simpl; try done.
  - by intros [= ->] [= ->].
  - apply IH.
Qed.

Lemma length_zip_max a b : length (zip_max a b) = length a.
Proof. revert b. induction a as [|x a IH]; intros [|y b]; simpl; auto. Qed.

(** The entry of an optional parent's row. *)
Definition parent_slot (p : option EventRecord) (j : nat) : N :=
  match p with Some r => default 0%N (rec_ancestor_seqs r !! j) | None => 0%N end.

Lemma merged_row_spec {E} w sp op :
  match sp with Some r => length (rec_ancestor_seqs r) = w | None => True end →
  match op with Some r => length (rec_ancestor_seqs r) = w | None => True end →
  ∃ row, merged_row (E := E) w sp op = Ok row ∧ length row = w ∧
    ∀ j, j < w → row !! j = Some (N.max (parent_slot sp j) (parent_slot op j)).
Proof.
  intros Hsp Hop. unfold merged_row.
  assert (∃ row, match sp with
      | Some r => copy_from_slice (E := E) (replicate w 0%N) (rec_ancestor_seqs r)
      | None => mret (replicate w 0%N) end = Ok row ∧ length row = w ∧
      ∀ j, j < w → row !! j = Some (parent_slot sp j)) as (row & -> & Hlen & Hrow).
  { destruct sp as [r|]; simpl.
    - unfold copy_from_slice. rewrite length_replicate, decide_True by done.
      exists (rec_ancestor_seqs r). split_and!; [done..|]. intros j Hj.
      by destruct (lookup_lt_is_Some_2 (rec_ancestor_seqs r) j ltac:(lia)) as [v ->].
    - exists (replicate w 0%N). rewrite length_replicate. split_and!; [done..|].
      intros j Hj. by apply lookup_replicate_2. }
  simpl. destruct op as [r|]; simpl; eexists; (split; [done|]).
  - rewrite length_zip_max. split; [done|]. intros j Hj.
    destruct (lookup_lt_is_Some_2 (rec_ancestor_seqs r) j ltac:(lia)) as [v Hv].
    rewrite (lookup_zip_max _ _ j (parent_slot sp j) v), Hv; [done|by apply Hrow|done].
  - split; [done|]. intros j Hj. rewrite (Hrow j Hj), N.max_0_r. done.
Qed.

(** ** The stored state *)

(** The state after [store_event], by its fields. *)
Record stored (g g' : Hashgraph) (e : Event) (hash : EventHash) (i : nat)
    (sp op : option EventRecord) (sq : N) (row : list N) : Prop := {
  st_events : ∀ h, get g' h = if decide (h = hash)
    then Some (fresh_record e sq row
                 (base_round (rec_round <$> sp) (rec_round <$> op)) None None)
    else get g h;
  st_seq : sq = match sp with Some r => (rec_seq r + 1)%N | None => 1%N end;
  st_width : length row = member_count g;
  st_row : ∀ j, j < member_count g → row !! j =
    Some (if decide (j = i) then sq else N.max (parent_slot sp j) (parent_slot op j));
  st_bcs : by_creator_seq g' = or_insert (creator e, sq) hash (by_creator_seq g);
  st_latest : latest_by_creator g' = note_latest g (creator e) sq hash;
  st_branch : note_branch (creator e) i (self_parent e) hash (first_child g) (known_forkers g)
              = Ok (first_child g', known_forkers g');
  st_index : member_index g' = member_index g;
  st_count : member_count g' = member_count g;
  st_roster : roster_history g' = roster_history g;
  st_witnesses : witnesses_by_round g' = witnesses_by_round g;
  st_undecided : undecided_witnesses g' = undecided_witnesses g;
  st_highest : highest_witness_round g' = highest_witness_round g;
  st_decided : fully_decided_rounds g' = fully_decided_rounds g;
  st_next : next_round_to_order g' = next_round_to_order g;
  st_size : size (events g') = S (size (events g));
}.

Lemma note_branch_Ok c i sp hash fc fk :
  i < length fk →
  ∃ fc' fk', note_branch c i sp hash fc fk = Ok (fc', fk') ∧ length fk' = length fk.
Proof.
  intros Hi. unfold note_branch, vec_set. destruct (fc !! (c, sp)) as [ex|]; [|by eauto].
  case_decide; [|by eauto]. rewrite decide_True by done. simpl.
  eexists _, _. split; [done|]. apply length_insert.
Qed.

Lemma store_event_Ok `{Sha256} B g e hash i sp op :
  graph_wf g → seqs_within B g → (B + 1 < u64_modulus)%N → checked g e hash i sp op →
  ∃ g' sq row, store_event g e hash i sp op = Ok g' ∧ stored g g' e hash i sp op sq row.
Proof.
  intros Hg HB HBm [_ Hfresh Hi Hsp Hop]. unfold store_event.
  destruct (merged_row_spec (E := ConsensusError) (member_count g) sp op) as (row & -> & Hlen & Hrow).
  { destruct (self_parent e); [destruct Hsp as (r & -> & Hr & _)|by subst].
    apply (rw_width _ _ _ (wf_record _ Hg _ _ Hr)). }
  { destruct (other_parent e); [destruct Hop as (r & -> & Hr)|by subst].
    apply (rw_width _ _ _ (wf_record _ Hg _ _ Hr)). }
  pose proof (wf_index_lt _ Hg _ _ Hi) as Hlt.
  simpl. unfold vec_set at 1. rewrite decide_True by lia. simpl.
  destruct (note_branch_Ok (creator e) i (self_parent e) hash (first_child g) (known_forkers g))
    as (fc & fk & Hnb & _); [by rewrite (wf_forkers _ Hg)|].
  rewrite Hnb. simpl. set (sq := match sp with Some r => _ | None => _ end).
  assert (sq = match sp with Some r => (rec_seq r + 1)%N | None => 1%N end) as Hsq.
  { unfold sq. destruct (self_parent e); [destruct Hsp as (r & -> & Hr & _)|by subst].
    apply u64_wrapping_add_small. specialize (HB _ _ Hr). lia. }
  eexists _, sq, (<[i:=sq]> row). split; [done|]. split; try done.
  - intros h. unfold get; simpl. case_decide as Hh.
    + subst h. by rewrite lookup_insert_eq.
    + by rewrite lookup_insert_ne.
  - by rewrite length_insert.
  - intros j Hj. case_decide as Hj'.
    + subst. rewrite list_lookup_insert_eq by lia. done.
    + rewrite list_lookup_insert_ne by done. by apply Hrow.
  - simpl. by rewrite map_size_insert_None.
Qed.

(** ** The graph grows at the top *)

Section stored.
Context `{Sha256} (g g' : Hashgraph) (e : Event) (hash : EventHash) (i : nat)
  (sp op : option EventRecord) (sq : N) (row : list N).
Context (Hg : graph_wf g) (Hck : checked g e hash i sp op)
  (Hst : stored g g' e hash i sp op sq row).

Lemma stored_new : get g' hash = Some (fresh_record e sq row
  (base_round (rec_round <$> sp) (rec_round <$> op)) None None).
Proof. by rewrite (st_events _ _ _ _ _ _ _ _ _ Hst), decide_True. Qed.

Lemma stored_old h r : get g h = Some r → get g' h = Some r.
Proof.
  intros Hr. rewrite (st_events _ _ _ _ _ _ _ _ _ Hst), decide_False; [done|].
  intros ->. rewrite (ck_fresh _ _ _ _ _ _ Hck) in Hr. done.
Qed.

Lemma stored_inv h r : get g' h = Some r →
  (h = hash ∧ r = fresh_record e sq row
     (base_round (rec_round <$> sp) (rec_round <$> op)) None None) ∨ get g h = Some r.
Proof.
  rewrite (st_events _ _ _ _ _ _ _ _ _ Hst). case_decide; [intros [= <-]; auto|auto].
Qed.

Lemma stored_parent p : p ∈ parents e → ∃ r, get g p = Some r ∧
  ((self_parent e = Some p ∧ sp = Some r ∧ creator (rec_event r) = creator e) ∨
   (other_parent e = Some p ∧ op = Some r)).
Proof.
  intros [Hp|Hp]%elem_of_parents.
  - pose proof (ck_self _ _ _ _ _ _ Hck) as Hs. rewrite Hp in Hs.
    destruct Hs as (r & ? & ? & ?). eauto 10.
  - pose proof (ck_other _ _ _ _ _ _ Hck) as Ho. rewrite Hp in Ho.
    destruct Ho as (r & ? & ?). eauto 10.
Qed.

Lemma stored_anc_mono x y : anc g x y → anc g' x y.
Proof.
  apply rtc_subrel. intros a b (r & Hr & Hp). exists r. split; [by apply stored_old|done].
Qed.

Lemma stored_anc_old x y : is_Some (get g x) → anc g' x y → anc g x y.
Proof.
  intros Hx Hxy. induction Hxy as [|a b c (r & Hr & Hp) _ IH]; [apply rtc_refl|].
  destruct Hx as [ra Ha]. assert (r = ra) as -> by (apply stored_old in Ha; congruence).
  etrans; [apply rtc_once; by exists ra|]. apply IH.
  by apply (rw_parents _ _ _ (wf_record _ Hg _ _ Ha)).
Qed.

Lemma stored_anc_new y :
  anc g' hash y → y = hash ∨ ∃ p r, p ∈ parents e ∧ get g p = Some r ∧ anc g p y.
Proof.
  intros [<-|(p & (r & Hr & Hp) & Hy)]%rtc_inv; [by left|right].
  rewrite stored_new in Hr. injection Hr as <-. simpl in Hp.
  destruct (stored_parent p Hp) as (rp & Hrp & _).
  exists p, rp. split_and!; [done..|]. by apply stored_anc_old.
Qed.

Lemma stored_anc_parent p y : p ∈ parents e → anc g p y → anc g' hash y.
Proof.
  intros Hp Hy. eapply rtc_l; [|by apply stored_anc_mono].
  eexists. split; [apply stored_new|done].
Qed.

Lemma stored_made_by_mono c s y : made_by g c s y → made_by g' c s y.
Proof. intros (r & Hr & ?). exists r. split; [by apply stored_old|done]. Qed.

Lemma stored_made_by_new : made_by g' (creator e) sq hash.
Proof. eexists. by rewrite stored_new. Qed.

Lemma stored_made_by_inv c s y :
  made_by g' c s y → (y = hash ∧ c = creator e ∧ s = sq) ∨ made_by g c s y.
Proof.
  intros (r & [[-> ->]|Hr]%stored_inv & <- & <-); [by left|right; by exists r].
Qed.

Lemma stored_forks_below_mono x c : forks_below g x c → forks_below g' x c.
Proof.
  intros (y1 & y2 & r1 & r2 & Hne & H1 & H2 & Hr1 & Hr2 & Hrest).
  exists y1, y2, r1, r2. split_and!;
    [done|by apply stored_anc_mono|by apply stored_anc_mono|by apply stored_old|by apply stored_old|apply Hrest..].
Qed.

Lemma stored_forks_below_parent p c :
  p ∈ parents e → forks_below g p c → forks_below g' hash c.
Proof.
  intros Hp Hf%stored_forks_below_mono. eapply forks_below_anc; [|exact Hf].
  eapply stored_anc_parent; [done|apply rtc_refl].
Qed.

(** ** The new record is well formed *)

Lemma parent_slot_found (p : option EventRecord) h c j :
  p ≫= (λ r, Some r) = get g h → member_index g !! c = Some j → parent_slot p j ≠ 0%N →
  ∃ y, anc g h y ∧ made_by g c (parent_slot p j) y.
Proof.
  destruct p as [r|]; simpl; intros Hr Hj Hs; [|done]. symmetry in Hr.
  destruct (wf_row_lookup g Hg h r c j Hr Hj) as [s Hs']. rewrite Hs' in *. simpl in *.
  by apply (rw_row_found _ _ _ (wf_record _ Hg _ _ Hr) c j s).
Qed.

Lemma parent_slot_max h r c j y sy :
  get g h = Some r → member_index g !! c = Some j → anc g h y → made_by g c sy y →
  (sy ≤ parent_slot (Some r) j)%N ∨ forks_below g h c.
Proof.
  intros Hr Hj Hy Hm. destruct (wf_row_lookup g Hg h r c j Hr Hj) as [s Hs]. simpl. rewrite Hs.
  by apply (rw_row_max _ _ _ (wf_record _ Hg _ _ Hr) c j s y sy).
Qed.

Lemma new_row_found c j s :
  member_index g !! c = Some j → row !! j = Some s → s ≠ 0%N →
  ∃ y, anc g' hash y ∧ made_by g' c s y.
Proof.
  intros Hj Hs Hne. rewrite (st_row _ _ _ _ _ _ _ _ _ Hst) in Hs by (by apply (wf_index_lt _ Hg c)).
  injection Hs as <-. case_decide as Hji.
  - subst j. exists hash. split; [apply rtc_refl|].
    rewrite (wf_index_inj _ Hg c (creator e) i Hj (ck_index _ _ _ _ _ _ Hck)).
    apply stored_made_by_new.
  - assert (∀ p (h : EventHash), h ∈ parents e → get g h = p → parent_slot p j ≠ 0%N →
      ∃ y, anc g' hash y ∧ made_by g' c (parent_slot p j) y) as Hfound.
    { intros p h Hh Hp Hz. destruct (parent_slot_found p h c j) as (y & Hy & Hm); [by destruct p|done..|].
      exists y. split; [by eapply stored_anc_parent|by apply stored_made_by_mono]. }
    pose proof (ck_self _ _ _ _ _ _ Hck) as Hs. pose proof (ck_other _ _ _ _ _ _ Hck) as Ho.
    destruct (N.max_spec (parent_slot sp j) (parent_slot op j)) as [[Hlt Hmax]|[Hle Hmax]];
      rewrite Hmax in *.
    + destruct (other_parent e) as [p|] eqn:Hp; [|subst; simpl in *; lia].
      destruct Ho as (r & -> & Hr). apply (Hfound (Some r) p); [|done..].
      apply elem_of_parents. by right.
    + destruct (self_parent e) as [p|] eqn:Hp; [|subst; simpl in *; lia].
      destruct Hs as (r & -> & Hr & _). apply (Hfound (Some r) p); [|done..].
      apply elem_of_parents. by left.
Qed.

(** An event of the creator above its new sequence number exposes a fork. *)
Lemma new_fork_exposed p y sy :
  p ∈ parents e → anc g p y → made_by g (creator e) sy y → (sq < sy)%N →
  forks_below g' hash (creator e).
Proof.
  intros Hp Hy (ry & Hry & Hcy & <-) Hlt.
  assert (1 ≤ sq)%N by (rewrite (st_seq _ _ _ _ _ _ _ _ _ Hst); destruct sp; lia).
  destruct (wf_chain_down g Hg y ry sq Hry) as (z & Hz & rz & Hrz & Hcz & Hsz); [lia|].
  eexists z, hash, rz, _. split_and!; [| | |by apply stored_old|apply stored_new|congruence|done|done].
  - intros ->. rewrite (ck_fresh _ _ _ _ _ _ Hck) in Hrz. done.
  - eapply stored_anc_parent; [done|]. by etrans.
  - apply rtc_refl.
Qed.

Lemma new_row_max c j s y sy :
  member_index g !! c = Some j → row !! j = Some s → anc g' hash y → made_by g' c sy y →
  (sy ≤ s)%N ∨ forks_below g' hash c.
Proof.
  intros Hj Hs Hy Hm. rewrite (st_row _ _ _ _ _ _ _ _ _ Hst) in Hs by (by apply (wf_index_lt _ Hg c)).
  injection Hs as <-.
  destruct (stored_anc_new y Hy) as [->|(p & r & Hp & Hr & Hpy)].
  { destruct (stored_made_by_inv _ _ _ Hm) as [(_ & -> & ->)|(r & Hr & _)].
    - rewrite (ck_index _ _ _ _ _ _ Hck) in Hj. injection Hj as <-.
      rewrite decide_True by done. by left.
    - rewrite (ck_fresh _ _ _ _ _ _ Hck) in Hr. done. }
  assert (made_by g c sy y) as Hm'.
  { destruct (stored_made_by_inv _ _ _ Hm) as [(-> & _)|]; [|done].
    destruct (wf_anc_stored g Hg p hash Hpy) as [? Hh]; [by exists r|].
    rewrite (ck_fresh _ _ _ _ _ _ Hck) in Hh. done. }
  case_decide as Hji.
  - subst j. assert (c = creator e) as -> by (eapply (wf_index_inj _ Hg); [done|apply Hck]).
    destruct (decide (sy ≤ sq)%N); [by left|right]. eapply new_fork_exposed; [done..|lia].
  - destruct (parent_slot_max p r c j y sy Hr Hj Hpy Hm') as [Hle|Hf];
      [left|right; by eapply stored_forks_below_parent].
    destruct (stored_parent p Hp) as (r' & Hr' & [(_ & -> & _)|(_ & ->)]); simplify_eq; lia.
Qed.

(** ** The indexes *)

Lemma stored_bcs_mono k : is_Some (by_creator_seq g !! k) → is_Some (by_creator_seq g' !! k).
Proof.
  rewrite (st_bcs _ _ _ _ _ _ _ _ _ Hst). unfold or_insert. intros Hk.
  destruct (by_creator_seq g !! (creator e, sq)) eqn:E; [done|].
  apply lookup_insert_is_Some'. by right.
Qed.

Lemma stored_bcs_new : is_Some (by_creator_seq g' !! (creator e, sq)).
Proof.
  rewrite (st_bcs _ _ _ _ _ _ _ _ _ Hst). unfold or_insert.
  destruct (by_creator_seq g !! (creator e, sq)) eqn:E; [by rewrite E|].
  by rewrite lookup_insert_eq.
Qed.

Lemma stored_bcs_inv c s h : by_creator_seq g' !! (c, s) = Some h → made_by g' c s h.
Proof.
  rewrite (st_bcs _ _ _ _ _ _ _ _ _ Hst). unfold or_insert.
  destruct (by_creator_seq g !! (creator e, sq)) eqn:E.
  - intros Hk. by apply stored_made_by_mono, (wf_by_seq _ Hg).
  - destruct (decide ((creator e, sq) = (c, s))) as [[= <- <-]|].
    + rewrite lookup_insert_eq. intros [= <-]. apply stored_made_by_new.
    + rewrite lookup_insert_ne by done. intros Hk. by apply stored_made_by_mono, (wf_by_seq _ Hg).
Qed.

(** [note_branch]: the branch key is taken by another event and the creator is
    flagged, or the new event takes it. *)
Lemma stored_branch :
  (∃ ex, first_child g !! (creator e, self_parent e) = Some ex ∧ ex ≠ hash ∧
     first_child g' = first_child g ∧ known_forkers g' = <[i := true]> (known_forkers g)) ∨
  (first_child g !! (creator e, self_parent e) = None ∧
     first_child g' = <[(creator e, self_parent e) := hash]> (first_child g) ∧
     known_forkers g' = known_forkers g).
Proof.
  pose proof (st_branch _ _ _ _ _ _ _ _ _ Hst) as Hb. unfold note_branch, vec_set in Hb.
  destruct (first_child g !! (creator e, self_parent e)) as [ex|] eqn:Hex.
  - left. destruct (wf_first_child _ Hg _ _ _ Hex) as (r & Hr & _).
    assert (ex ≠ hash) as Hne by (intros ->; rewrite (ck_fresh _ _ _ _ _ _ Hck) in Hr; done).
    rewrite decide_True in Hb by done.
    rewrite decide_True in Hb
      by (rewrite (wf_forkers _ Hg); eapply (wf_index_lt _ Hg), (ck_index _ _ _ _ _ _ Hck)).
    simpl in Hb. apply res_ret_Ok in Hb. simplify_eq. eauto 10.
  - right. apply res_ret_Ok in Hb. by simplify_eq.
Qed.

Lemma stored_first_child_inv c p h :
  first_child g' !! (c, p) = Some h →
  ∃ r, get g' h = Some r ∧ creator (rec_event r) = c ∧ self_parent (rec_event r) = p.
Proof.
  assert (first_child g !! (c, p) = Some h →
    ∃ r, get g' h = Some r ∧ creator (rec_event r) = c ∧ self_parent (rec_event r) = p) as Hold.
  { intros (r & Hr & Hrest)%(wf_first_child _ Hg). exists r. split; [by apply stored_old|done]. }
  destruct stored_branch as [(ex & _ & _ & -> & _)|(_ & -> & _)]; [done|].
  destruct (decide ((creator e, self_parent e) = (c, p))) as [[= <- <-]|].
  - rewrite lookup_insert_eq. intros [= <-]. eexists. split; [apply stored_new|done].
  - by rewrite lookup_insert_ne.
Qed.

Lemma stored_first_child_mono k : is_Some (first_child g !! k) → is_Some (first_child g' !! k).
Proof.
  destruct stored_branch as [(ex & _ & _ & -> & _)|(_ & -> & _)]; [done|].
  intros Hk. apply lookup_insert_is_Some'. by right.
Qed.

Lemma stored_first_child_new : is_Some (first_child g' !! (creator e, self_parent e)).
Proof.
  destruct stored_branch as [(ex & Hex & _ & -> & _)|(_ & -> & _)]; [by exists ex|].
  by rewrite lookup_insert_eq.
Qed.

Lemma stored_forkers_mono j : known_forkers g' !! j = Some false → known_forkers g !! j = Some false.
Proof.
  destruct stored_branch as [(ex & _ & _ & _ & ->)|(_ & _ & ->)]; [|done].
  destruct (decide (i = j)) as [<-|].
  - by intros [(_ & ? & _)|[]]%list_lookup_insert_Some.
  - by rewrite list_lookup_insert_ne.
Qed.

(** The new event shares its self-parent with no stored event of an unflagged
    creator. *)
Lemma stored_unforked_new j h r :
  member_index g !! creator e = Some j → known_forkers g' !! j = Some false →
  get g h = Some r → creator (rec_event r) = creator e →
  self_parent (rec_event r) = self_parent e → False.
Proof.
  intros Hj Hf Hr Hc Hp.
  destruct stored_branch as [(ex & _ & _ & _ & Hfk)|(Hnone & _ & _)].
  - rewrite Hfk in Hf. rewrite (ck_index _ _ _ _ _ _ Hck) in Hj. injection Hj as <-.
    rewrite list_lookup_insert_eq in Hf; [done|].
    rewrite (wf_forkers _ Hg). eapply (wf_index_lt _ Hg), (ck_index _ _ _ _ _ _ Hck).
  - destruct (rw_first_child _ _ _ (wf_record _ Hg _ _ Hr)) as [? Hx].
    rewrite Hc, Hp in Hx. congruence.
Qed.

Lemma stored_acyclic : ∃ rank : EventHash → nat, ∀ h p, parent_of g' h p → rank p < rank h.
Proof.
  destruct (wf_acyclic _ Hg) as [rank Hrank].
  set (top := S (sum_list (rank <$> parents e))).
  exists (λ h, if decide (h = hash) then top else rank h).
  assert (∀ p, is_Some (get g p) → p ≠ hash) as Hne.
  { intros p [r Hr] ->. rewrite (ck_fresh _ _ _ _ _ _ Hck) in Hr. done. }
  intros h p (r & [[-> ->]|Hr]%stored_inv & Hp); simpl in *.
  - destruct (stored_parent p Hp) as (rp & Hrp & _).
    rewrite (decide_False (P := p = hash)), decide_True by (done || apply Hne; eauto).
    unfold top. apply list_elem_of_split in Hp as (l1 & l2 & ->).
    rewrite fmap_app, sum_list_with_app. simpl. lia.
  - rewrite !decide_False.
    + apply Hrank. by exists r.
    + apply Hne. by exists r.
    + by apply Hne, (rw_parents _ _ _ (wf_record _ Hg _ _ Hr)).
Qed.

(** ** Preservation *)

Lemma old_record_wf h r : get g h = Some r → record_wf g' h r.
Proof.
  intros Hr. pose proof (wf_record _ Hg _ _ Hr) as Hw.
  assert (is_Some (get g h)) as His by (by exists r).
  split.
  - rewrite (st_count _ _ _ _ _ _ _ _ _ Hst). apply Hw.
  - rewrite (st_index _ _ _ _ _ _ _ _ _ Hst). apply Hw.
  - apply Hw.
  - intros p [rp Hp]%(rw_parents _ _ _ Hw). exists rp. by apply stored_old.
  - pose proof (rw_seq _ _ _ Hw) as Hs. destruct (self_parent (rec_event r)) as [p|]; [|done].
    destruct Hs as (rp & Hrp & Hrest). exists rp. split; [by apply stored_old|done].
  - apply stored_bcs_mono, Hw.
  - apply stored_first_child_mono, Hw.
  - intros j. rewrite (st_index _ _ _ _ _ _ _ _ _ Hst). apply Hw.
  - intros c j s Hj Hs Hne. rewrite (st_index _ _ _ _ _ _ _ _ _ Hst) in Hj.
    destruct (rw_row_found _ _ _ Hw c j s Hj Hs Hne) as (y & Hy & Hm).
    exists y. split; [by apply stored_anc_mono|by apply stored_made_by_mono].
  - intros c j s y sy Hj Hs Hy Hm. rewrite (st_index _ _ _ _ _ _ _ _ _ Hst) in Hj.
    apply (stored_anc_old h y His) in Hy.
    destruct (stored_made_by_inv _ _ _ Hm) as [(-> & _)|Hm'].
    + destruct (wf_anc_stored g Hg h hash Hy His) as [? Hh].
      rewrite (ck_fresh _ _ _ _ _ _ Hck) in Hh. done.
    + destruct (rw_row_max _ _ _ Hw c j s y sy Hj Hs Hy Hm'); [by left|right].
      by apply stored_forks_below_mono.
Qed.

Lemma new_record_wf : length (signature e) = 64 → record_wf g' hash (fresh_record e sq row
  (base_round (rec_round <$> sp) (rec_round <$> op)) None None).
Proof.
  intros Hsig. split; simpl.
  - rewrite (st_count _ _ _ _ _ _ _ _ _ Hst). apply Hst.
  - rewrite (st_index _ _ _ _ _ _ _ _ _ Hst). eexists. apply Hck.
  - done.
  - intros p (rp & Hrp & _)%stored_parent. exists rp. by apply stored_old.
  - pose proof (ck_self _ _ _ _ _ _ Hck) as Hs. pose proof (st_seq _ _ _ _ _ _ _ _ _ Hst) as Hq.
    destruct (self_parent e) as [p|]; [|by rewrite Hs in Hq].
    destruct Hs as (rp & Hsp & Hrp & Hc). rewrite Hsp in Hq.
    exists rp. split; [by apply stored_old|done].
  - apply stored_bcs_new.
  - apply stored_first_child_new.
  - intros j. rewrite (st_index _ _ _ _ _ _ _ _ _ Hst), (ck_index _ _ _ _ _ _ Hck). intros [= <-].
    rewrite (st_row _ _ _ _ _ _ _ _ _ Hst), decide_True; [done..|].
    eapply (wf_index_lt _ Hg), (ck_index _ _ _ _ _ _ Hck).
  - intros c j s. rewrite (st_index _ _ _ _ _ _ _ _ _ Hst). apply new_row_found.
  - intros c j s y sy. rewrite (st_index _ _ _ _ _ _ _ _ _ Hst). apply new_row_max.
Qed.

Lemma stored_wf : length (signature e) = 64 → graph_wf g'.
Proof.
  intros Hsig. split.
  - destruct stored_branch as [(? & _ & _ & _ & ->)|(_ & _ & ->)]; rewrite ?length_insert;
      rewrite (st_count _ _ _ _ _ _ _ _ _ Hst); apply Hg.
  - intros c j. rewrite (st_index _ _ _ _ _ _ _ _ _ Hst), (st_count _ _ _ _ _ _ _ _ _ Hst). apply Hg.
  - intros c1 c2 j. rewrite (st_index _ _ _ _ _ _ _ _ _ Hst). apply Hg.
  - intros h r [[-> ->]|Hr]%stored_inv; [by apply new_record_wf|by apply old_record_wf].
  - apply stored_acyclic.
  - apply stored_bcs_inv.
  - apply stored_first_child_inv.
  - intros c j h1 h2 r1 r2. rewrite (st_index _ _ _ _ _ _ _ _ _ Hst).
    intros Hj Hf [[-> ->]|Hr1]%stored_inv [[-> ->]|Hr2]%stored_inv Hc1 Hc2 Hp; simpl in *; [done|..].
    + exfalso. subst c. eapply (stored_unforked_new j h2 r2); [done..|congruence].
    + exfalso. subst c. eapply (stored_unforked_new j h1 r1); congruence.
    + eapply (wf_unforked _ Hg c j h1 h2 r1 r2); try done. by apply stored_forkers_mono.
  - intros c h. rewrite (st_latest _ _ _ _ _ _ _ _ _ Hst). unfold note_latest.
    assert (latest_by_creator g !! c = Some h →
      ∃ r, get g' h = Some r ∧ creator (rec_event r) = c) as Hold.
    { intros (r & Hr & Hc)%(wf_latest _ Hg). exists r. split; [by apply stored_old|done]. }
    assert (<[creator e:=hash]> (latest_by_creator g) !! c = Some h →
      ∃ r, get g' h = Some r ∧ creator (rec_event r) = c) as Hnew.
    { intros [[<- <-]|[_ ?]]%lookup_insert_Some; [|auto]. eexists. split; [apply stored_new|done]. }
    destruct (latest_by_creator g !! creator e); [case_decide|]; auto.
Qed.

Lemma stored_seqs B : seqs_within B g → seqs_within (B + 1) g'.
Proof.
  intros HB h r [[-> ->]|Hr]%stored_inv; simpl; [|specialize (HB _ _ Hr); lia].
  rewrite (st_seq _ _ _ _ _ _ _ _ _ Hst). pose proof (ck_self _ _ _ _ _ _ Hck) as Hs.
  destruct (self_parent e); [|subst; lia]. destruct Hs as (rp & -> & Hrp & _).
  specialize (HB _ _ Hrp). lia.
Qed.
End stored.
