(* ===== verification/Rounds.v ===== *)
(** * Rounds and witnesses

    The invariant of the round numbers and of the witness lists, and that
    [finalize_round] establishes it for the event just stored. *)

From S2P Require Import Prelude Codec External Primitives Membership Graph Ancestry Reach Order.
From S2P Require Import Fame Insert Wf Quorum Store.

(** The rounds of the parents a stored event names. *)
Definition parent_round (g : Hashgraph) (p : option EventHash) : option N :=
  rec_round <$> (p ≫= get g).

Definition base_of (g : Hashgraph) (e : Event) : N :=
  base_round (parent_round g (self_parent e)) (parent_round g (other_parent e)).

Record rounds_wf (g : Hashgraph) : Prop := {
  rd_pos : ∀ h r, get g h = Some r → (1 ≤ rec_round r)%N;
  rd_base : ∀ h r, get g h = Some r →
    (base_of g (rec_event r) ≤ rec_round r ≤ base_of g (rec_event r) + 1)%N;
  rd_witness : ∀ h r, get g h = Some r →
    rec_is_witness r = match parent_round g (self_parent (rec_event r)) with
                       | None => true
                       | Some spr => (spr <? rec_round r)%N
                       end;
  rd_listed : ∀ k h, h ∈ witnesses_of_round g k ↔
    ∃ r, get g h = Some r ∧ rec_is_witness r = true ∧ rec_round r = k;
  rd_nodup : ∀ k, NoDup (witnesses_of_round g k);
  rd_highest : ∀ h r, get g h = Some r → (rec_round r ≤ highest_witness_round g)%N;
  rd_roster : is_Some (snapshots (roster_history g) !! 1%N);
}.

(** A parent's round is at most the child's. *)
Lemma base_round_ge_l a b : (a ≤ base_round (Some a) b)%N.
Proof. destruct b; simpl; lia. Qed.
Lemma base_round_ge_r a b : (b ≤ base_round a (Some b))%N.
Proof. destruct a; simpl; lia. Qed.

Lemma parent_round_le g h r p rp :
  rounds_wf g → get g h = Some r → p ∈ parents (rec_event r) → get g p = Some rp →
  (rec_round rp ≤ rec_round r)%N.
Proof.
  intros Hr Hh Hp Hrp. pose proof (rd_base _ Hr _ _ Hh) as [Hb _]. etrans; [|exact Hb].
  unfold base_of, parent_round.
  apply elem_of_parents in Hp as [-> | ->]; simpl; rewrite Hrp; simpl;
    [apply base_round_ge_l|apply base_round_ge_r].
Qed.

Lemma rounds_wf_skel g1 g2 : same_skel g1 g2 → rounds_wf g1 → rounds_wf g2.
Proof.
  intros Hs Hr. symmetry in Hs.
  assert (∀ p, parent_round g2 p = parent_round g1 p) as Hpr.
  { intros [p|]; [|done]. unfold parent_round; simpl.
    destruct (skel_cases _ _ p Hs) as [[-> ->]|(? & ? & -> & -> & _ & _ & _ & ? & _)];
      simpl; congruence. }
  assert (∀ e, base_of g2 e = base_of g1 e) as Hb by (intros; unfold base_of; by rewrite !Hpr).
  assert (∀ k, witnesses_of_round g2 k = witnesses_of_round g1 k) as Hw
    by (intros; unfold witnesses_of_round; by rewrite (skel_witnesses _ _ Hs)).
  split.
  - intros h r2 (r1 & H1 & _ & _ & _ & -> & _)%(skel_get_Some _ _ _ _ Hs). by eapply Hr.
  - intros h r2 (r1 & H1 & -> & _ & _ & -> & _)%(skel_get_Some _ _ _ _ Hs).
    rewrite Hb. by eapply Hr.
  - intros h r2 (r1 & H1 & -> & _ & _ & -> & ->)%(skel_get_Some _ _ _ _ Hs).
    rewrite Hpr. by eapply Hr.
  - intros k h. rewrite Hw, (rd_listed _ Hr). split; intros (r & Hrr & Hwit & Hk).
    + destruct (skel_get_Some _ _ _ _ (symmetry Hs) Hrr) as (r' & ? & ? & ? & ? & ? & ?).
      exists r'. split_and!; congruence.
    + destruct (skel_get_Some _ _ _ _ Hs Hrr) as (r' & ? & ? & ? & ? & ? & ?).
      exists r'. split_and!; congruence.
  - intros k. rewrite Hw. apply Hr.
  - intros h r2 (r1 & H1 & _ & _ & _ & -> & _)%(skel_get_Some _ _ _ _ Hs).
    rewrite (skel_highest _ _ Hs). by eapply Hr.
  - rewrite (shape_roster _ _ (skel_shape _ _ Hs)). apply Hr.
Qed.

Lemma rounds_resolve g k :
  rounds_wf g → (1 ≤ k)%N → ∃ n, member_count_at_round g k = Ok n.
Proof.
  intros Hr Hk. unfold member_count_at_round.
  destruct (RosterFacts.roster_for_round_resolves (E := ConsensusError)
    (roster_history g) k 1 (rd_roster _ Hr) Hk) as [reg ->]. simpl. by eexists.
Qed.

(** ** Shape changes nothing in the structural invariant *)

Section shape.
Context (g1 g2 : Hashgraph) (Hs : same_shape g1 g2).

Lemma parent_of_shape x p : parent_of g1 x p ↔ parent_of g2 x p.
Proof.
  unfold parent_of. destruct (shape_cases _ _ x Hs) as [[-> ->]|(? & ? & -> & -> & He & _)].
  - split; intros (? & ? & _); done.
  - split; intros (? & [= <-] & ?); eexists; (split; [done|congruence]).
Qed.

Lemma anc_shape x y : anc g1 x y ↔ anc g2 x y.
Proof. split; apply rtc_subrel; intros a b; apply parent_of_shape. Qed.

Lemma made_by_shape c s h : made_by g1 c s h ↔ made_by g2 c s h.
Proof.
  unfold made_by. destruct (shape_cases _ _ h Hs) as [[-> ->]|(? & ? & -> & -> & He & Hq & _)].
  - split; intros (? & ? & _); done.
  - split; intros (? & [= <-] & ? & ?); eexists; (split_and!; [done|congruence..]).
Qed.

Lemma forks_below_shape x c : forks_below g1 x c ↔ forks_below g2 x c.
Proof.
  assert (∀ ga gb, same_shape ga gb → (∀ a b, anc ga a b → anc gb a b) →
    forks_below ga x c → forks_below gb x c) as Hgen.
  { intros ga gb Hab Hanc (y1 & y2 & r1 & r2 & Hne & H1 & H2 & Hr1 & Hr2 & Hrest).
    destruct (shape_get_Some _ _ _ _ Hab Hr1) as (r1' & ? & ? & ? & _).
    destruct (shape_get_Some _ _ _ _ Hab Hr2) as (r2' & ? & ? & ? & _).
    exists y1, y2, r1', r2'. destruct Hrest as (? & ? & ?). split_and!; auto; congruence. }
  split; apply Hgen; try done; intros; by apply anc_shape.
Qed.
End shape.

Lemma record_wf_shape g1 g2 h r1 r2 :
  same_shape g1 g2 → rec_event r1 = rec_event r2 → rec_seq r1 = rec_seq r2 →
  rec_ancestor_seqs r1 = rec_ancestor_seqs r2 → record_wf g1 h r1 → record_wf g2 h r2.
Proof.
  intros Hs He Hq Ha [H1 H2 H3 H4 H5 H6 H7 H8 H9 H10].
  rewrite He, Hq, Ha in *. rewrite (shape_member_count _ _ Hs), (shape_member_index _ _ Hs),
    (shape_by_creator_seq _ _ Hs), (shape_first_child _ _ Hs) in *.
  split; try done.
  - intros p [rp Hp]%H4. destruct (shape_get_Some _ _ _ _ Hs Hp) as (? & ? & _). eauto.
  - destruct (self_parent (rec_event r2)) as [p|]; [|done]. destruct H5 as (rp & Hp & ? & ?).
    destruct (shape_get_Some _ _ _ _ Hs Hp) as (rp' & ? & ? & ? & _).
    exists rp'. split_and!; congruence.
  - intros c i s Hi Hs' Hne. destruct (H9 c i s Hi Hs' Hne) as (y & Hy & Hm).
    exists y. split; [by apply (anc_shape _ _ Hs)|by apply (made_by_shape _ _ Hs)].
  - intros c i s y sy Hi Hs' Hy%(anc_shape _ _ Hs) Hm%(made_by_shape _ _ Hs).
    destruct (H10 c i s y sy Hi Hs' Hy Hm); [by left|right]. by apply (forks_below_shape _ _ Hs).
Qed.

Lemma graph_wf_shape g1 g2 : same_shape g1 g2 → graph_wf g1 → graph_wf g2.
Proof.
  intros Hs [H1 H2 H3 H4 H5 H6 H7 H8 H9].
  rewrite (shape_forkers _ _ Hs), (shape_member_count _ _ Hs), (shape_member_index _ _ Hs),
    (shape_by_creator_seq _ _ Hs), (shape_first_child _ _ Hs), (shape_latest _ _ Hs) in *.
  split; try done.
  - intros h r2 (r1 & Hr1 & ? & ? & ?)%(shape_get_Some _ _ _ _ (symmetry Hs)).
    apply (record_wf_shape g1 g2 h r1 r2); auto.
  - destruct H5 as [rank Hrank]. exists rank. intros h p Hp. apply Hrank.
    by apply (parent_of_shape _ _ Hs).
  - intros c s h Hk. apply (made_by_shape _ _ Hs). by apply H6.
  - intros c sp h (r & Hr & ? & ?)%H7. destruct (shape_get_Some _ _ _ _ Hs Hr) as (r' & ? & ? & _).
    exists r'. split_and!; congruence.
  - intros c i h1 h2 r1 r2 Hi Hf
      (q1 & ? & E1 & _)%(shape_get_Some _ _ _ _ (symmetry Hs))
      (q2 & ? & E2 & _)%(shape_get_Some _ _ _ _ (symmetry Hs)).
    rewrite E1, E2. by apply (H8 c i).
  - intros c h (r & Hr & ?)%H9. destruct (shape_get_Some _ _ _ _ Hs Hr) as (r' & ? & ? & _).
    exists r'. split; congruence.
Qed.

(** ** [finalize_round] on the event just stored *)

Definition strongly_sees `{HashOrder} (g : Hashgraph) (k : N) (x w : EventHash) : bool :=
  match strongly_see_at g x w k with Ok b => b | _ => false end.

(** The round the specification of round assignment gives: one above the base
    round exactly when a supermajority of the base round's witnesses is
    strongly seen. *)
Definition round_rule `{HashOrder} (g : Hashgraph) (x : EventHash) (base : N) (total : nat) : N :=
  if supermajority
       (length (filter (λ w, strongly_sees g base x w = true) (witnesses_of_round g base))) total
  then base + 1 else base.

Lemma round_rule_bounds `{HashOrder} g x base total :
  (base ≤ round_rule g x base total ≤ base + 1)%N.
Proof. unfold round_rule. destruct (supermajority _ _); lia. Qed.

Section count.
Context `{HashOrder} (g : Hashgraph) (Hg : graph_wf g).

Lemma count_strongly_seen_Ok x k total ws n :
  is_Some (get g x) → (∀ w, w ∈ ws → is_Some (get g w)) → member_count_at_round g k = Ok total →
  count_strongly_seen g x k ws n
  = Ok (n + length (filter (λ w, strongly_sees g k x w = true) ws)).
Proof.
  intros [rx Hx] Hws Htot. revert n. induction ws as [|w ws IH]; intros n; simpl.
  { by rewrite Nat.add_0_r. }
  destruct (Hws w) as [rw Hw]; [by left|].
  destruct (strongly_see_at_spec g Hg x w rx rw Hx Hw k total Htot) as (b & Hb & _).
  rewrite Hb; simpl. rewrite IH by (intros; apply Hws; by right).
  assert (strongly_sees g k x w = b) as Hss by (unfold strongly_sees; by rewrite Hb).
  rewrite filter_cons. destruct b; [rewrite decide_True by done|by rewrite decide_False by congruence].
  simpl. f_equal. lia.
Qed.

Lemma compute_round_Ok x k total spr :
  is_Some (get g x) → (∀ w, w ∈ witnesses_of_round g k → is_Some (get g w)) →
  member_count_at_round g k = Ok total → (k + 1 < u64_modulus)%N →
  compute_round g x k spr
  = Ok (round_rule g x k total,
        match spr with None => true | Some s => (s <? round_rule g x k total)%N end).
Proof.
  intros Hx Hws Htot Hk. unfold compute_round.
  rewrite (count_strongly_seen_Ok x k total) by done. simpl. rewrite Htot. simpl.
  unfold round_rule. rewrite u64_wrapping_add_small by done. done.
Qed.
End count.

(** The state after [finalize_round]. *)
Definition finalized (g1 : Hashgraph) (hash : EventHash) (fr : N) (w : bool) : Hashgraph :=
  let g2 := set_event_round hash fr w g1 in
  if w then record_witness fr hash g2 else g2.

Lemma finalized_shape g1 hash fr w : same_shape g1 (finalized g1 hash fr w).
Proof.
  unfold finalized. destruct w; [|apply same_shape_set_event_round].
  etrans; [apply same_shape_set_event_round|apply same_shape_record_witness].
Qed.

Lemma finalized_get g1 hash fr w h :
  get (finalized g1 hash fr w) h
  = if decide (h = hash) then Upd.record_round fr w <$> get g1 hash else get g1 h.
Proof.
  assert (get (finalized g1 hash fr w) h = get (set_event_round hash fr w g1) h) as ->
    by (unfold finalized; by destruct w).
  unfold get; simpl. case_decide; [subst; by rewrite lookup_alter_eq|by rewrite lookup_alter_ne].
Qed.

Lemma finalized_witnesses g1 hash fr w k :
  witnesses_of_round (finalized g1 hash fr w) k
  = if decide (w = true ∧ k = fr) then witnesses_of_round g1 k ++ [hash]
    else witnesses_of_round g1 k.
Proof.
  unfold finalized. destruct w; [|by rewrite decide_False by naive_solver].
  unfold witnesses_of_round at 1; simpl. destruct (decide (k = fr)) as [->|].
  - by rewrite lookup_insert_eq, decide_True.
  - rewrite lookup_insert_ne by done. by rewrite decide_False by naive_solver.
Qed.

Section finalize.
Context `{Sha256, HashOrder} (g g1 : Hashgraph) (e : Event) (hash : EventHash) (i : nat)
  (sp op : option EventRecord) (sq : N) (row : list N).
Context (Hg : graph_wf g) (Hr : rounds_wf g) (Hck : checked g e hash i sp op)
  (Hst : stored g g1 e hash i sp op sq row) (Hg1 : graph_wf g1).

Let base : N := base_round (rec_round <$> sp) (rec_round <$> op).

Lemma checked_self_round : rec_round <$> sp = parent_round g (self_parent e).
Proof.
  pose proof (ck_self _ _ _ _ _ _ Hck) as Hs. unfold parent_round.
  destruct (self_parent e); [destruct Hs as (r & -> & Hp & _); simpl; by rewrite Hp|by subst].
Qed.

Lemma checked_other_round : rec_round <$> op = parent_round g (other_parent e).
Proof.
  pose proof (ck_other _ _ _ _ _ _ Hck) as Hs. unfold parent_round.
  destruct (other_parent e); [destruct Hs as (r & -> & Hp); simpl; by rewrite Hp|by subst].
Qed.

Lemma checked_base : base = base_of g e.
Proof. unfold base, base_of. by rewrite checked_self_round, checked_other_round. Qed.

Lemma parent_round_pos p s : parent_round g p = Some s → (1 ≤ s ≤ highest_witness_round g)%N.
Proof.
  unfold parent_round. destruct p as [h|]; simpl; [|done].
  destruct (get g h) as [r|] eqn:Hh; simpl; [|done]. intros [= <-].
  split; [by eapply (rd_pos _ Hr)|by eapply (rd_highest _ Hr)].
Qed.

Lemma base_pos : (1 ≤ base)%N.
Proof.
  rewrite checked_base. unfold base_of, base_round.
  destruct (parent_round g (self_parent e)) eqn:E1, (parent_round g (other_parent e)) eqn:E2;
    repeat match goal with E : parent_round g _ = Some _ |- _ => apply parent_round_pos in E end; lia.
Qed.

Lemma base_highest : (base ≤ N.max 1 (highest_witness_round g))%N.
Proof.
  rewrite checked_base. unfold base_of, base_round.
  destruct (parent_round g (self_parent e)) eqn:E1, (parent_round g (other_parent e)) eqn:E2;
    repeat match goal with E : parent_round g _ = Some _ |- _ => apply parent_round_pos in E end; lia.
Qed.

Lemma stored_witnesses k : witnesses_of_round g1 k = witnesses_of_round g k.
Proof. unfold witnesses_of_round. by rewrite (st_witnesses _ _ _ _ _ _ _ _ _ Hst). Qed.

Lemma finalize_round_Ok :
  (base + 1 < u64_modulus)%N →
  ∃ total, member_count_at_round g1 base = Ok total ∧
    let fr := round_rule g1 hash base total in
    let w := match rec_round <$> sp with None => true | Some s => (s <? fr)%N end in
    finalize_round hash base (rec_round <$> sp) g1 = (Ok tt, finalized g1 hash fr w).
Proof.
  intros Hbase. destruct (rounds_resolve g base Hr base_pos) as [total Htot].
  assert (member_count_at_round g1 base = Ok total) as Htot1
    by (unfold member_count_at_round in *; by rewrite (st_roster _ _ _ _ _ _ _ _ _ Hst)).
  exists total. split; [done|]. unfold finalize_round, mbind, stM_bind, st_lift.
  rewrite (compute_round_Ok g1 Hg1 hash base total); [..|done|done].
  - unfold finalized. by destruct (match rec_round <$> sp with None => _ | Some s => _ end).
  - eexists. eapply stored_new, Hst.
  - intros w. rewrite stored_witnesses. intros (r & Hw & _)%(rd_listed _ Hr).
    exists r. eapply stored_old; [apply Hck|apply Hst|done].
Qed.

Section result.
Context (fr : N) (w : bool) (Hfr : (base ≤ fr ≤ base + 1)%N)
  (Hw : w = match rec_round <$> sp with None => true | Some s => (s <? fr)%N end).

Let g2 : Hashgraph := finalized g1 hash fr w.

Lemma fin_new : get g2 hash = Some (Upd.record_round fr w (fresh_record e sq row base None None)).
Proof.
  unfold g2. rewrite finalized_get, decide_True by done.
  by rewrite (stored_new g g1 e hash i sp op sq row Hst).
Qed.

Lemma fin_old h r : get g h = Some r → get g2 h = Some r.
Proof.
  intros Hh. unfold g2. rewrite finalized_get, decide_False.
  - by eapply stored_old; [apply Hck|apply Hst|].
  - intros ->. rewrite (ck_fresh _ _ _ _ _ _ Hck) in Hh. done.
Qed.

Lemma fin_inv h r : get g2 h = Some r →
  (h = hash ∧ r = Upd.record_round fr w (fresh_record e sq row base None None)) ∨ get g h = Some r.
Proof.
  destruct (decide (h = hash)) as [->|Hne]; [rewrite fin_new; intros [= <-]; by left|].
  unfold g2. rewrite finalized_get, decide_False by done. right.
  by destruct (stored_inv g g1 e hash i sp op sq row Hst h r) as [[-> _]|]; [|done|].
Qed.

(** Parents are stored in [g], so their rounds are those of [g]. *)
Lemma fin_parent_round p :
  match p with Some h => is_Some (get g h) | None => True end →
  parent_round g2 p = parent_round g p.
Proof.
  unfold parent_round. destruct p as [h|]; simpl; [|done]. intros [r Hh].
  by rewrite (fin_old _ _ Hh), Hh.
Qed.

Lemma fin_base_old h r : get g h = Some r → base_of g2 (rec_event r) = base_of g (rec_event r) ∧
  parent_round g2 (self_parent (rec_event r)) = parent_round g (self_parent (rec_event r)).
Proof.
  intros Hh. pose proof (rw_parents _ _ _ (wf_record _ Hg _ _ Hh)) as Hp. unfold base_of.
  assert (parent_round g2 (self_parent (rec_event r)) = parent_round g (self_parent (rec_event r))) as Es.
  { apply fin_parent_round. destruct (self_parent (rec_event r)) eqn:E; [|done].
    apply Hp, elem_of_parents. by left. }
  assert (parent_round g2 (other_parent (rec_event r)) = parent_round g (other_parent (rec_event r))) as Eo.
  { apply fin_parent_round. destruct (other_parent (rec_event r)) eqn:E; [|done].
    apply Hp, elem_of_parents. by right. }
  by rewrite Es, Eo.
Qed.

Lemma fin_base_new : base_of g2 e = base ∧ parent_round g2 (self_parent e) = rec_round <$> sp.
Proof.
  assert (parent_round g2 (self_parent e) = parent_round g (self_parent e)) as Es.
  { apply fin_parent_round. pose proof (ck_self _ _ _ _ _ _ Hck) as Hs.
    destruct (self_parent e); [destruct Hs as (r & _ & ? & _)|]; by eauto. }
  assert (parent_round g2 (other_parent e) = parent_round g (other_parent e)) as Eo.
  { apply fin_parent_round. pose proof (ck_other _ _ _ _ _ _ Hck) as Hs.
    destruct (other_parent e); [destruct Hs as (r & _ & ?)|]; by eauto. }
  unfold base_of. rewrite Es, Eo, checked_self_round, checked_base. done.
Qed.

Lemma fin_highest : highest_witness_round g2 =
  if w then N.max (highest_witness_round g) fr else highest_witness_round g.
Proof.
  unfold g2, finalized. destruct w; simpl; by rewrite (st_highest _ _ _ _ _ _ _ _ _ Hst).
Qed.

(** A non-witness stays in its self-parent's round. *)
Lemma fin_nonwitness : w = false → (fr ≤ highest_witness_round g)%N.
Proof.
  intros Hf. rewrite Hw in Hf. destruct (rec_round <$> sp) as [s|] eqn:Es; [|done].
  apply N.ltb_ge in Hf. rewrite checked_self_round in Es. apply parent_round_pos in Es. lia.
Qed.

Lemma fin_listed k h : h ∈ witnesses_of_round g2 k ↔
  ∃ r, get g2 h = Some r ∧ rec_is_witness r = true ∧ rec_round r = k.
Proof.
  unfold g2 at 1. rewrite finalized_witnesses, stored_witnesses.
  assert (h ∈ witnesses_of_round g k ↔
    ∃ r, get g h = Some r ∧ rec_is_witness r = true ∧ rec_round r = k) as Hold by apply Hr.
  assert ((∃ r, get g2 h = Some r ∧ rec_is_witness r = true ∧ rec_round r = k) ↔
    (h = hash ∧ w = true ∧ k = fr) ∨ h ∈ witnesses_of_round g k) as ->.
  { rewrite Hold. split.
    - intros (r & [[-> ->]|Hh]%fin_inv & Hwit & Hk); simpl in *; [by left|right; eauto].
    - intros [(-> & ? & ->)|(r & Hh & ? & ?)].
      + eexists. split; [apply fin_new|done].
      + exists r. split; [by apply fin_old|done]. }
  case_decide as Hc; [rewrite elem_of_app, list_elem_of_singleton|]; tauto.
Qed.

Lemma finalized_rounds : rounds_wf g2.
Proof.
  split.
  - intros h r [[-> ->]|Hh]%fin_inv; simpl; [pose proof base_pos; lia|by eapply (rd_pos _ Hr)].
  - intros h r [[-> ->]|Hh]%fin_inv; simpl.
    + destruct fin_base_new as [-> _]. done.
    + destruct (fin_base_old _ _ Hh) as [-> _]. by eapply (rd_base _ Hr).
  - intros h r [[-> ->]|Hh]%fin_inv; simpl.
    + destruct fin_base_new as [_ ->]. exact Hw.
    + destruct (fin_base_old _ _ Hh) as [_ ->]. by eapply (rd_witness _ Hr).
  - apply fin_listed.
  - intros k. unfold g2. rewrite finalized_witnesses, stored_witnesses.
    case_decide; [|apply Hr]. apply NoDup_app. split_and!; [apply Hr| |apply NoDup_singleton].
    intros h (r & Hh & _)%(rd_listed _ Hr) ->%list_elem_of_singleton.
    rewrite (ck_fresh _ _ _ _ _ _ Hck) in Hh. done.
  - intros h r Hh. rewrite fin_highest. apply fin_inv in Hh as [[-> ->]|Hh]; simpl.
    + pose proof fin_nonwitness as Hn. destruct w; [lia|by apply Hn].
    + pose proof (rd_highest _ Hr _ _ Hh). destruct w; lia.
  - assert (roster_history g2 = roster_history g) as -> by
      (unfold g2; rewrite <- (shape_roster _ _ (finalized_shape g1 hash fr w)); apply Hst).
    apply Hr.
Qed.
End result.
End finalize.
