(* ===== verification/OrderFacts.v ===== *)
(** * Ordering on a well-formed graph

    The median, the binary search for the first chain event that sees a
    target, and the reasons why ordering an event never panics: the boundary
    event always exists and a famous witness that sees an event contributes a
    timestamp. *)

From S2P Require Import Prelude Codec External Primitives Membership Graph Ancestry Reach Order.
From S2P Require Import Wf.

(** ** The median *)

Lemma median_sorted {E} l1 l2 :
  l1 ≡ₚ l2 → median_timestamp (E := E) l1 = median_timestamp l2.
Proof.
  intros Hp. unfold median_timestamp.
  assert (merge_sort N.le l1 = merge_sort N.le l2) as ->; [|done].
  apply (Sorted_unique N.le); [apply Sorted_merge_sort, _..|].
  by rewrite !merge_sort_Permutation.
Qed.

(** The median is the mean of two (possibly equal) elements in the middle of
    the sorted list. *)
Lemma median_spec {E} l :
  l ≠ [] → ∃ i j a b, median_timestamp (E := E) l = Ok ((a + b) `div` 2)%N ∧
    merge_sort N.le l !! i = Some a ∧ merge_sort N.le l !! j = Some b ∧
    i = (length l - 1) / 2 ∧ j = length l / 2 ∧ (a ≤ b)%N.
Proof.
  intros Hne. unfold median_timestamp.
  assert (length (merge_sort N.le l) = length l) as Hlen by (by rewrite merge_sort_Permutation).
  assert (StronglySorted N.le (merge_sort N.le l)) as Hsort
    by (apply Sorted_StronglySorted; [apply _|apply Sorted_merge_sort, _]).
  revert Hlen Hsort. generalize (merge_sort N.le l) as s. intros s Hlen Hsort. rewrite Hlen.
  assert (length l ≠ 0) by (by destruct l).
  rewrite decide_False by done.
  pose proof (Nat.div_mod (length l) 2 ltac:(lia)) as Hdm.
  pose proof (Nat.mod_upper_bound (length l) 2 ltac:(lia)).
  pose proof (Nat.div_mod (length l - 1) 2 ltac:(lia)) as Hdm'.
  pose proof (Nat.mod_upper_bound (length l - 1) 2 ltac:(lia)).
  case_decide as Hodd.
  - destruct (lookup_lt_is_Some_2 s (length l / 2)) as [a Ha]; [lia|].
    exists (length l / 2), (length l / 2), a, a. rewrite Ha. simpl. split_and!; [|done|done|lia|done|lia].
    f_equal. replace (a + a)%N with (a * 2)%N by lia. by rewrite N.div_mul.
  - destruct (lookup_lt_is_Some_2 s (length l / 2 - 1)) as [a Ha]; [lia|].
    destruct (lookup_lt_is_Some_2 s (length l / 2)) as [b Hb]; [lia|].
    exists (length l / 2 - 1), (length l / 2), a, b. rewrite Ha, Hb. simpl.
    split_and!; [done|done|done|lia|done|].
    assert (s = take (length l / 2 - 1) s ++ a :: drop (S (length l / 2 - 1)) s) as Hsplit
      by (by rewrite take_drop_middle).
    rewrite Hsplit in Hsort. apply StronglySorted_app_1_r in Hsort.
    apply StronglySorted_inv in Hsort as [_ Hall]. rewrite Forall_forall in Hall. apply Hall.
    apply list_elem_of_lookup. exists 0. rewrite lookup_drop. rewrite <- Hb. f_equal. lia.
Qed.

Lemma median_total {E} l : l ≠ [] → ∃ t, median_timestamp (E := E) l = Ok t.
Proof. intros (i & j & a & b & Hm & _)%(median_spec (E := E)). eauto. Qed.

(** ** The chain events of a member *)

Section chain.
Context (g : Hashgraph) (Hg : graph_wf g).

Lemma creator_chain_event_spec witness c i sq :
  member_index g !! c = Some i →
  ∃ o, creator_chain_event g witness c i sq = Ok o ∧
    match o with Some h => made_by g c sq h | None => True end.
Proof.
  intros Hi. unfold creator_chain_event, creator_has_known_fork.
  destruct (wf_forker_flag g Hg c i Hi) as [f ->]. simpl. destruct f.
  - destruct (ancestor_event_for_creator_spec g witness c sq) as (o & -> & Ho).
    exists o. split; [done|]. destruct o; [by destruct Ho|done].
  - eexists. split; [done|]. unfold event_for_creator_seq.
    destruct (by_creator_seq g !! (c, sq)) eqn:E; [|done]. by apply (wf_by_seq _ Hg).
Qed.

(** The witness is its own creator's chain event. *)
Lemma creator_chain_event_self witness r i :
  get g witness = Some r → member_index g !! creator (rec_event r) = Some i →
  creator_chain_event g witness (creator (rec_event r)) i (rec_seq r) = Ok (Some witness).
Proof.
  intros Hw Hi. unfold creator_chain_event, creator_has_known_fork.
  destruct (wf_forker_flag g Hg _ i Hi) as [f Hf]. rewrite Hf. simpl. destruct f.
  - unfold ancestor_event_for_creator. simpl. rewrite decide_False by set_solver.
    by rewrite Hw, decide_True.
  - unfold event_for_creator_seq. simpl. f_equal. by eapply wf_by_seq_lookup.
Qed.

Context (witness target : EventHash) (rt : EventRecord) (Ht : get g target = Some rt).

Lemma chain_event_sees_spec c i sq :
  member_index g !! c = Some i →
  ∃ b, chain_event_sees g witness target c i sq = Ok b ∧
    (b = true → ∃ h, creator_chain_event g witness c i sq = Ok (Some h) ∧
       made_by g c sq h ∧ sees g h target).
Proof.
  intros Hi. unfold chain_event_sees.
  destruct (creator_chain_event_spec witness c i sq Hi) as (o & -> & Ho). simpl.
  destruct o as [h|]; simpl; [|by exists false].
  pose proof Ho as (rh & Hh & _).
  destruct (see_spec g Hg h target rh rt Hh Ht) as (b & -> & Hb). simpl.
  exists b. split; [done|]. intros ->. exists h. split_and!; [done..|]. by apply Hb.
Qed.

(** The search keeps "the chain event at [high] sees the target". *)
Lemma bisect_spec c i fuel low high :
  member_index g !! c = Some i → (low ≤ high)%N → (high - low < 2 ^ N.of_nat fuel)%N →
  chain_event_sees g witness target c i high = Ok true →
  ∃ l, bisect fuel g witness target c i low high = Ok l ∧ (low ≤ l ≤ high)%N ∧
    chain_event_sees g witness target c i l = Ok true.
Proof.
  intros Hi. revert low high. induction fuel as [|fuel IH]; intros low high Hle Hf Hs.
  - assert (low = high) as -> by (simpl in Hf; lia).
    exists high. simpl. rewrite decide_False by lia. split; [done|]. split; [lia|done].
  - simpl. case_decide as Hlt.
    + assert (∃ d, ((high - low) `div` 2)%N = d ∧ (d < 2 ^ N.of_nat fuel)%N ∧
        (2 * d ≤ high - low < 2 * d + 2)%N) as (d & -> & Hd & Hd').
      { eexists. split; [done|]. split.
        - apply N.Div0.div_lt_upper_bound. by rewrite Nat2N.inj_succ, N.pow_succ_r' in Hf.
        - pose proof (N.div_mod' (high - low) 2) as Hdm.
          pose proof (N.mod_lt (high - low) 2 ltac:(done)) as Hmod.
          revert Hdm Hmod. generalize ((high - low) `mod` 2)%N, ((high - low) `div` 2)%N. lia. }
      destruct (chain_event_sees_spec c i (low + d)%N Hi) as (b & Hb & _). rewrite Hb. simpl. destruct b.
      * destruct (IH low (low + d)%N) as (l & Hl & ? & ?); [lia..|done|].
        exists l. split; [done|]. split; [lia|done].
      * destruct (IH (low + d + 1)%N high) as (l & Hl & ? & ?); [lia..|done|].
        exists l. split; [done|]. split; [lia|done].
    + exists low. split; [done|]. split; [lia|]. by replace low with high by lia.
Qed.
End chain.

(** ** First-seen timestamps *)

Section first_seen.
Context (g : Hashgraph) (Hg : graph_wf g).
Context (witness target : EventHash) (rw rt : EventRecord)
  (Hw : get g witness = Some rw) (Ht : get g target = Some rt).
Context (Hseq : ∀ h r, get g h = Some r → is_u64 (rec_seq r)).

Lemma member_boundary_within_spec fuel c i :
  (∀ n, is_u64 n → (n < 2 ^ N.of_nat fuel)%N) → member_index g !! c = Some i →
  ∃ o, member_boundary_within fuel g witness target rw c i = Ok o ∧
    (o = None ∨ ∃ l h, o = Some (Some (l, h)) ∧ made_by g c l h ∧ sees g h target) ∧
    (sees g witness target → c = creator (rec_event rw) → o ≠ None).
Proof.
  intros Hfuel Hi. unfold member_boundary_within, ancestor_seq.
  destruct (wf_row_lookup g Hg witness rw c i Hw Hi) as [up_to Hu]. rewrite Hu. simpl.
  assert (c = creator (rec_event rw) → up_to = rec_seq rw) as Hown.
  { intros ->. rewrite (rw_own _ _ _ (wf_record _ Hg _ _ Hw) i Hi) in Hu. congruence. }
  case_decide as Hz.
  { eexists. split_and!; [done|by left|]. intros _ Hc%Hown.
    pose proof (wf_seq_pos g Hg witness rw Hw). lia. }
  destruct (chain_event_sees_spec g Hg witness target rt Ht c i up_to Hi) as (b & Hb & _).
  rewrite Hb. simpl. destruct b; simpl.
  2: { eexists. split_and!; [done|by left|]. intros Hs Hc. rewrite (Hown Hc) in Hb. subst c.
    unfold chain_event_sees in Hb.
    rewrite (creator_chain_event_self g Hg witness rw i Hw Hi) in Hb. simpl in Hb.
    destruct (see_spec g Hg witness target rw rt Hw Ht) as (b & Hb' & Hiff).
    rewrite Hb' in Hb. simpl in Hb. injection Hb as ->. by apply Hiff in Hs. }
  assert (is_u64 up_to) as Hmax.
  { destruct (rw_row_found _ _ _ (wf_record _ Hg _ _ Hw) c i up_to Hi Hu Hz) as (y & _ & r & Hr & _ & <-).
    by eapply Hseq. }
  destruct (bisect_spec g Hg witness target rt Ht c i fuel 1 up_to) as (l & -> & _ & Hl);
    [done|lia|apply Hfuel in Hmax; lia|done|].
  simpl. destruct (chain_event_sees_spec g Hg witness target rt Ht c i l Hi) as (b & Hb' & Hsees).
  assert (b = true) as -> by congruence. destruct (Hsees eq_refl) as (h & -> & Hm & Hs). simpl.
  eexists. split_and!; [done| |done]. right. eauto.
Qed.

Lemma member_boundary_spec c i :
  member_index g !! c = Some i →
  ∃ o, member_boundary g witness target rw c i = Ok o ∧
    (o = None ∨ ∃ l h, o = Some (Some (l, h)) ∧ made_by g c l h ∧ sees g h target) ∧
    (sees g witness target → c = creator (rec_event rw) → o ≠ None).
Proof. apply member_boundary_within_spec, bisect_fuel_u64. Qed.

Lemma first_seen_loop_spec ms earliest :
  (∀ m, m ∈ ms → member_index g !! m.1 = Some m.2) →
  (∀ l h, earliest = Some (l, h) → is_Some (get g h)) →
  ∃ o, first_seen_loop g witness target rw ms earliest = Ok o ∧
    (∀ l h, o = Some (l, h) → is_Some (get g h)) ∧
    (is_Some earliest → is_Some o) ∧
    (sees g witness target → (∃ i, (creator (rec_event rw), i) ∈ ms) → is_Some o).
Proof.
  revert earliest. induction ms as [|[c i] ms IH]; intros earliest Hms He; simpl.
  { exists earliest. split_and!; try done. intros _ [i Hi%elem_of_nil]. done. }
  assert (member_index g !! c = Some i) as Hi by (apply (Hms (c, i)); by left).
  assert (∀ m, m ∈ ms → member_index g !! m.1 = Some m.2) as Hms' by (intros; apply Hms; by right).
  destruct (member_boundary_spec c i Hi) as (o & Ho & Hcase & Hown). rewrite Ho. simpl.
  destruct Hcase as [->|(l & h & -> & (r & Hr & _) & _)].
  - destruct (IH earliest Hms' He) as (o & Ho' & H1 & H2 & H3). exists o. split_and!; try done.
    intros Hs [i' [Heq|Hin]%elem_of_cons]; [|by eauto].
    injection Heq as Hc _. by destruct (Hown Hs (eq_sym Hc)).
  - destruct (IH (if replaces earliest l h then Some (l, h) else earliest)) as (o & Ho' & H1 & H2 & _).
    { done. }
    { intros l' h'. destruct (replaces _ _ _); [intros [= <- <-]; by eauto|apply He]. }
    assert (is_Some (if replaces earliest l h then Some (l, h) else earliest)) as Hsome.
    { destruct earliest as [[]|]; simpl; [|done]. by destruct (_ || _). }
    exists o. split_and!; auto.
Qed.

Lemma first_seen_spec `{HashOrder} :
  ∃ o, first_seen_timestamp g witness target = Ok o ∧ (sees g witness target → is_Some o).
Proof.
  unfold first_seen_timestamp. rewrite Hw.
  destruct (first_seen_loop_spec (member_index_iter g) None) as (o & Ho & H1 & _ & H3); [|done|].
  { by intros [c i] Hm%elem_of_hm_iter. }
  rewrite Ho. simpl. eexists. split; [done|]. intros Hs.
  destruct (rw_creator _ _ _ (wf_record _ Hg _ _ Hw)) as [i Hi].
  destruct (H3 Hs) as [[l h] ->]; [exists i; by apply elem_of_hm_iter|].
  destruct (H1 l h eq_refl) as [r Hr]. simpl. rewrite Hr. by eexists.
Qed.
End first_seen.

(** ** Ordering one event *)

Section order_event.
Context `{HashOrder} (g : Hashgraph) (Hg : graph_wf g)
  (Hseq : ∀ h r, get g h = Some r → is_u64 (rec_seq r)).
Context (famous : list EventHash) (Hf : ∀ w, w ∈ famous → is_Some (get g w)).

Lemma all_see_spec event :
  is_Some (get g event) →
  ∃ b, all_see g famous event = Ok b ∧ (b = true ↔ ∀ w, w ∈ famous → sees g w event).
Proof.
  intros [re He]. induction famous as [|w ws IH]; simpl.
  { exists true. split; [done|]. split; [|done]. by intros _ w ?%elem_of_nil. }
  destruct (Hf w) as [rw Hw]; [by left|].
  destruct (see_spec g Hg w event rw re Hw He) as (b & -> & Hb). simpl. destruct b.
  - destruct IH as (b & -> & Hb'); [intros; apply Hf; by right|]. exists b. split; [done|].
    rewrite Hb'. split.
    + intros Hall w' [->|]%elem_of_cons; [by apply Hb|auto].
    + intros Hall w' ?. apply Hall. by right.
  - exists false. split; [done|]. split; [done|]. intros Hall. apply Hb, Hall. by left.
Qed.

Lemma collect_first_seen_spec event :
  is_Some (get g event) →
  ∃ l, collect_first_seen g famous event = Ok l ∧
    ((∀ w, w ∈ famous → sees g w event) → length l = length famous).
Proof.
  intros [re He]. induction famous as [|w ws IH]; simpl; [by eauto|].
  destruct (Hf w) as [rw Hw]; [by left|].
  destruct (first_seen_spec g Hg w event rw re Hw He Hseq) as (o & -> & Ho). simpl.
  destruct IH as (l & -> & Hl); [intros; apply Hf; by right|]. simpl.
  eexists. split; [done|]. intros Hall. rewrite length_app, Hl by (intros; apply Hall; by right).
  destruct Ho as [ts ->]; [apply Hall; by left|]. done.
Qed.

(** Ordering a stored event succeeds: it is left alone, or every famous
    witness sees it and it receives a timestamp. *)
Lemma order_event_spec round event :
  famous ≠ [] → is_Some (get g event) →
  ∃ g', order_event famous round event g = (Ok tt, g') ∧
    (g' = g ∨
     (∀ w, w ∈ famous → sees g w event) ∧ ∃ ts, g' = set_event_order event round ts g).
Proof.
  intros Hne He. unfold order_event, mbind, stM_bind, st_lift.
  destruct (all_see_spec event He) as (b & -> & Hb). destruct b; simpl; [|by eauto].
  destruct (collect_first_seen_spec event He) as (l & -> & Hl).
  destruct (median_total (E := ConsensusError) l) as [ts ->].
  { intros ->. apply Hne, length_zero_iff_nil. symmetry. apply Hl. by apply Hb. }
  eexists. split; [done|]. right. split; [by apply Hb|by eauto].
Qed.
End order_event.

(** ** The events still to be ordered *)

Lemma elem_of_pending `{HashOrder} g h :
  h ∈ pending_order_events g ↔ is_Some (get g h) ∧ round_received g h = None.
Proof.
  unfold pending_order_events, round_received, get. rewrite list_elem_of_fmap. split.
  - intros ([h' r] & -> & [Hn Hr%elem_of_hm_iter]%list_elem_of_filter). simpl in *.
    rewrite Hr. split; [by eexists|done].
  - intros [[r Hr] Hn]. exists (h, r). split; [done|]. apply list_elem_of_filter.
    rewrite Hr in Hn. split; [done|]. by apply elem_of_hm_iter.
Qed.

Lemma pending_NoDup `{HashOrder} g : NoDup (pending_order_events g).
Proof.
  unfold pending_order_events. apply NoDup_fmap_fst.
  - intros h r1 r2 [_ H1%elem_of_hm_iter]%list_elem_of_filter
      [_ H2%elem_of_hm_iter]%list_elem_of_filter. congruence.
  - apply NoDup_filter. unfold hm_iter. rewrite hash_order_perm. apply NoDup_map_to_list.
Qed.

(** ** The total order *)

(** What the comparator of [consensus_order] compares. *)
Definition okey (e : EventHash * EventRecord) : option N * N * EventHash :=
  (rec_consensus_timestamp e.2, signature_tie_break (signature (rec_event e.2)), e.1).

Definition okey_leb (a b : option N * N * EventHash) : bool :=
  match opt_cmp a.1.1 b.1.1 with
  | Lt => true
  | Gt => false
  | Eq => match (a.1.2 ?= b.1.2)%N with
          | Lt => true
          | Gt => false
          | Eq => bytes_leb a.2 b.2
          end
  end.
Definition okey_le (a b : option N * N * EventHash) : Prop := okey_leb a b = true.

#[export] Instance okey_le_dec a b : Decision (okey_le a b).
Proof. unfold okey_le. apply _. Defined.

Lemma order_le_okey a b : order_le a b ↔ okey_le (okey a) (okey b).
Proof. done. Qed.

Lemma opt_cmp_eq a b : opt_cmp a b = Eq ↔ a = b.
Proof.
  destruct a, b; simpl; try done. rewrite N.compare_eq_iff. split; [by intros ->|by intros [= ->]].
Qed.

Lemma opt_cmp_antisym a b : opt_cmp a b = CompOpp (opt_cmp b a).
Proof. destruct a, b; simpl; try done. apply N.compare_antisym. Qed.

Lemma opt_cmp_trans a b c : opt_cmp a b = Lt → opt_cmp b c = Lt → opt_cmp a c = Lt.
Proof. destruct a, b, c; simpl; try done. rewrite !N.compare_lt_iff. apply N.lt_trans. Qed.

#[export] Instance okey_le_antisymm : AntiSymm (=) okey_le.
Proof.
  intros [[t1 s1] h1] [[t2 s2] h2]. unfold okey_le, okey_leb; simpl.
  rewrite (opt_cmp_antisym t2 t1), (N.compare_antisym s1 s2).
  destruct (opt_cmp t1 t2) eqn:Et; simpl; try done. apply opt_cmp_eq in Et as ->.
  destruct (s1 ?= s2)%N eqn:Es; simpl; try done. apply N.compare_eq_iff in Es as ->.
  intros H1 H2. f_equal. by apply (anti_symm bytes_le).
Qed.

#[export] Instance okey_le_total : Total okey_le.
Proof.
  intros [[t1 s1] h1] [[t2 s2] h2]. unfold okey_le, okey_leb; simpl.
  rewrite (opt_cmp_antisym t2 t1), (N.compare_antisym s1 s2).
  destruct (opt_cmp t1 t2); simpl; auto. destruct (s1 ?= s2)%N; simpl; auto.
  apply (total bytes_le).
Qed.

#[export] Instance okey_le_trans : Transitive okey_le.
Proof.
  intros [[t1 s1] h1] [[t2 s2] h2] [[t3 s3] h3]. unfold okey_le, okey_leb; simpl.
  destruct (opt_cmp t1 t2) eqn:E12; [apply opt_cmp_eq in E12 as ->| |done].
  - destruct (opt_cmp t2 t3) eqn:E23; [|done..].
    destruct (s1 ?= s2)%N eqn:S12; [apply N.compare_eq_iff in S12 as ->| |done].
    + destruct (s2 ?= s3)%N; [|done..]. apply (transitivity (R := bytes_le)).
    + destruct (s2 ?= s3)%N eqn:S23; [apply N.compare_eq_iff in S23 as <-| |done]; [by rewrite S12|].
      intros _ _. assert (s1 ?= s3 = Lt)%N as ->; [|done]. rewrite N.compare_lt_iff in *.
      by eapply N.lt_trans.
  - destruct (opt_cmp t2 t3) eqn:E23; [apply opt_cmp_eq in E23 as <-; by rewrite E12| |done].
    by rewrite (opt_cmp_trans _ _ _ E12 E23).
Qed.

#[export] Instance order_le_total : Total order_le.
Proof. intros a b. apply (total okey_le (okey a) (okey b)). Qed.

#[export] Instance order_le_trans : Transitive order_le.
Proof. intros a b c. apply (okey_le_trans (okey a) (okey b) (okey c)). Qed.

Section consensus_order.
Context `{HashOrder} (g : Hashgraph) (k : N).

Definition received_entries : list (EventHash * EventRecord) :=
  filter (λ e, rec_round_received e.2 = Some k) (hm_iter (events g)).

Lemma elem_of_received_entries h r :
  (h, r) ∈ received_entries ↔ get g h = Some r ∧ rec_round_received r = Some k.
Proof.
  unfold received_entries. rewrite list_elem_of_filter, elem_of_hm_iter. simpl. tauto.
Qed.

Lemma received_entries_NoDup : NoDup received_entries.*1.
Proof.
  apply NoDup_fmap_fst.
  - intros h r1 r2 [H1 _]%elem_of_received_entries [H2 _]%elem_of_received_entries. congruence.
  - apply NoDup_filter. unfold hm_iter. rewrite hash_order_perm. apply NoDup_map_to_list.
Qed.

(** The order is the sort of the keys, whatever the iteration order. *)
Lemma consensus_order_keys :
  consensus_order g k = snd <$> merge_sort okey_le (okey <$> received_entries).
Proof.
  unfold consensus_order. fold received_entries.
  assert (okey <$> merge_sort order_le received_entries
    = merge_sort okey_le (okey <$> received_entries)) as <-.
  { apply (Sorted_unique okey_le).
    - assert (Sorted order_le (merge_sort order_le received_entries)) as Hs by (apply Sorted_merge_sort, _).
      induction Hs as [|a l Hs IH Hd]; simpl; constructor; [done|]. by destruct Hd; constructor.
    - apply Sorted_merge_sort, _.
    - by rewrite !merge_sort_Permutation. }
  rewrite <- list_fmap_compose. done.
Qed.

Lemma elem_of_consensus_order h : h ∈ consensus_order g k ↔ round_received g h = Some k.
Proof.
  unfold consensus_order. fold received_entries. rewrite merge_sort_Permutation. unfold round_received.
  rewrite list_elem_of_fmap. split.
  - intros ([h' r] & -> & [Hh Hk]%elem_of_received_entries). simpl. by rewrite Hh.
  - destruct (get g h) as [r|] eqn:Hh; simpl; [|done]. intros Hk.
    exists (h, r). split; [done|]. by apply elem_of_received_entries.
Qed.

Lemma consensus_order_NoDup : NoDup (consensus_order g k).
Proof.
  unfold consensus_order. fold received_entries. rewrite merge_sort_Permutation.
  apply received_entries_NoDup.
Qed.
End consensus_order.

(** Two graphs (or two iteration orders) with the same events received in [k],
    under the same keys, order them alike. *)
Lemma consensus_order_ext (o1 o2 : HashOrder) g1 g2 k :
  (∀ key, key ∈ okey <$> received_entries (H := o1) g1 k ↔
          key ∈ okey <$> received_entries (H := o2) g2 k) →
  consensus_order (H := o1) g1 k = consensus_order (H := o2) g2 k.
Proof.
  intros Hext. rewrite !consensus_order_keys. f_equal.
  apply (Sorted_unique okey_le); [apply Sorted_merge_sort, _..|].
  rewrite !merge_sort_Permutation.
  assert (∀ (o : HashOrder) g, NoDup (okey <$> received_entries (H := o) g k)) as Hnd.
  { intros o g. apply (NoDup_fmap_1 snd). rewrite <- list_fmap_compose.
    apply (received_entries_NoDup (H := o)). }
  by apply NoDup_Permutation.
Qed.
