(* ===== verification/Voting.v ===== *)
(** * Voting and ordering never fail

    On a well-formed graph, the actions that follow the storage of an event
    (votes, fame decisions, round completion, ordering) return normally: no
    error, no panic, no exhausted fuel.  They keep the skeleton, so the
    structural invariants survive them. *)

From S2P Require Import Prelude Codec External Primitives Membership Graph Ancestry Reach Order.
From S2P Require Import Fame Insert Wf Quorum Store Rounds OrderFacts.

(** ** Ordering touches only the ordering results *)

Definition rec_ballot (r : EventRecord) : gmap EventHash bool * FameStatus :=
  (rec_votes r, rec_fame r).

Record same_votes (s s' : Hashgraph) : Prop := {
  sv_skel : same_skel s s';
  sv_decided : fully_decided_rounds s = fully_decided_rounds s';
  sv_next : next_round_to_order s = next_round_to_order s';
  sv_undecided : undecided_witnesses s = undecided_witnesses s';
  sv_ballots : rec_ballot <$> events s = rec_ballot <$> events s';
}.

#[export] Instance same_votes_preorder : PreOrder same_votes.
Proof.
  split; [by intros s|]. intros s1 s2 s3 [] []; split; by etrans.
Qed.

Lemma same_votes_set_event_order h round ts s : same_votes s (set_event_order h round ts s).
Proof. split; try done; [apply same_skel_set_event_order|]. symmetry. by apply fmap_alter_inv. Qed.

Lemma preserves_order_event `{HashOrder} famous round event :
  preserves same_votes (order_event famous round event).
Proof.
  unfold order_event. apply preserves_bind; [apply _|apply preserves_lift, _|].
  intros b. destruct b; simpl; [|apply preserves_ret, _].
  apply preserves_bind; [apply _|apply preserves_lift, _|]. intros l.
  apply preserves_bind; [apply _|apply preserves_lift, _|]. intros ts.
  apply preserves_modify. apply same_votes_set_event_order.
Qed.

Lemma preserves_assign_order `{HashOrder} round : preserves same_votes (assign_order round).
Proof.
  unfold assign_order. apply preserves_get_bind. intros s. cbn zeta.
  case_decide; [done|]. apply preserves_for; [apply _|]. intros. apply preserves_order_event.
Qed.

(** The mutable progress of voting and ordering, relative to a skeleton. *)
Record inv (s0 : Hashgraph) (B : N) (s : Hashgraph) : Prop := {
  inv_skel : same_skel s0 s;
  inv_decided : ∀ r, r ∈ fully_decided_rounds s → (1 ≤ r ≤ B)%N;
  inv_next : (1 ≤ next_round_to_order s ≤ B + 1)%N;
  inv_undecided : ∀ h k, undecided_witnesses s !! h = Some k →
    ∃ r, get s0 h = Some r ∧ rec_is_witness r = true ∧ rec_round r = k;
}.

(** The bounds under which no [u64] of the algorithm wraps. *)
Record bounded (B : N) (s0 : Hashgraph) : Prop := {
  bd_cap : (B + 2 < u64_modulus)%N;
  bd_seq : seqs_within B s0;
  bd_round : (highest_witness_round s0 ≤ B)%N;
}.

(** A goal about one run from any invariant state is again [safe]. *)
Ltac refold_safe :=
  match goal with
  | |- ∀ s, ?J s → ∃ b s', ?m s = _ ∧ _ ∧ _ => change (safe J any m)
  end.

Section voting.
Context `{HashOrder} (s0 : Hashgraph) (B : N).
Context (Hg0 : graph_wf s0) (Hr0 : rounds_wf s0) (HB : bounded B s0).

Abbreviation I := (inv s0 B).

Lemma inv_graph s : I s → graph_wf s.
Proof. intros Hs. eapply graph_wf_shape; [apply skel_shape, Hs|done]. Qed.
Lemma inv_rounds s : I s → rounds_wf s.
Proof. intros Hs. eapply rounds_wf_skel; [apply Hs|done]. Qed.

Lemma inv_get s h r0 :
  I s → get s0 h = Some r0 → ∃ r, get s h = Some r ∧ rec_event r0 = rec_event r ∧
    rec_seq r0 = rec_seq r ∧ rec_round r0 = rec_round r ∧ rec_is_witness r0 = rec_is_witness r.
Proof.
  intros Hs Hh. destruct (skel_get_Some _ _ _ _ (inv_skel _ _ _ Hs) Hh) as (r & ? & ? & ? & ? & ? & ?).
  eauto 10.
Qed.

Lemma inv_get_stored s h : I s → is_Some (get s0 h) ↔ is_Some (get s h).
Proof.
  intros Hs. destruct (skel_cases _ _ h (inv_skel _ _ _ Hs)) as [[-> ->]|(? & ? & -> & -> & _)]; [done|].
  split; intros _; by eexists.
Qed.

Lemma inv_witnesses s k : I s → witnesses_of_round s k = witnesses_of_round s0 k.
Proof. intros Hs. unfold witnesses_of_round. by rewrite (skel_witnesses _ _ (inv_skel _ _ _ Hs)). Qed.

Lemma inv_seq s h r : I s → get s h = Some r → is_u64 (rec_seq r).
Proof.
  intros Hs Hh. destruct (skel_get_Some _ _ _ _ (symmetry (inv_skel _ _ _ Hs)) Hh) as (r0 & H0 & _ & -> & _).
  pose proof (bd_seq _ _ HB _ _ H0). pose proof (bd_cap _ _ HB). unfold is_u64. lia.
Qed.

Lemma round_le h r : get s0 h = Some r → (1 ≤ rec_round r ≤ B)%N.
Proof.
  intros Hh. pose proof (rd_pos _ Hr0 _ _ Hh). pose proof (rd_highest _ Hr0 _ _ Hh).
  pose proof (bd_round _ _ HB). lia.
Qed.

Lemma inv_count s k : I s → (1 ≤ k)%N → ∃ n, member_count_at_round s k = Ok n.
Proof. intros Hs. by apply rounds_resolve, inv_rounds. Qed.

(** The single-step updates keep the invariant. *)
Lemma inv_same_progress s s' :
  I s → same_skel s s' → fully_decided_rounds s' = fully_decided_rounds s →
  next_round_to_order s' = next_round_to_order s → undecided_witnesses s' = undecided_witnesses s →
  I s'.
Proof.
  intros [H1 H2 H3 H4] Hs E1 E2 E3. split; rewrite ?E1, ?E2, ?E3; [by etrans|done..].
Qed.

Lemma safe_record_vote y w b : safe (E := ConsensusError) I any (st_modify (record_vote y w b)).
Proof. apply safe_modify. intros s Hs. eapply inv_same_progress; [done|apply same_skel_record_vote|done..]. Qed.

(** ** Ordering *)

Lemma safe_order_event famous round event :
  famous ≠ [] → (∀ w, w ∈ famous → is_Some (get s0 w)) → is_Some (get s0 event) →
  safe I any (order_event famous round event).
Proof.
  intros Hne Hf He s Hs.
  destruct (order_event_spec s (inv_graph s Hs) (λ h r, inv_seq s h r Hs) famous
    (λ w Hw, proj1 (inv_get_stored s w Hs) (Hf w Hw)) round event Hne) as (s' & Hs' & Hcase).
  { by apply (inv_get_stored s). }
  exists tt, s'. split; [done|]. split; [|done].
  destruct Hcase as [->|(_ & ts & ->)]; [done|].
  eapply inv_same_progress; [done|apply same_skel_set_event_order|done..].
Qed.

Lemma famous_witness_stored s round w :
  I s → w ∈ famous_witnesses_of_round s round → is_Some (get s0 w).
Proof.
  intros Hs [_ Hw]%list_elem_of_filter. rewrite inv_witnesses in Hw by done.
  apply (rd_listed _ Hr0) in Hw as (r & Hr & _). by eexists.
Qed.

Lemma pending_stored s event : I s → event ∈ pending_order_events s → is_Some (get s0 event).
Proof.
  intros Hs [Hst _]%elem_of_pending. by apply (inv_get_stored s).
Qed.

Lemma safe_assign_order round : safe I any (assign_order round).
Proof.
  unfold assign_order. apply safe_get_bind. intros s Hs. cbn zeta.
  case_decide as Hne; [by exists tt, s|].
  apply safe_for; [|done]. intros event He. apply safe_order_event; [done| |].
  - intros w. by apply famous_witness_stored.
  - by eapply pending_stored.
Qed.


(** The rounds still to be ordered. *)
Definition remaining (s : Hashgraph) : gset N :=
  filter (λ r, (next_round_to_order s ≤ r)%N) (fully_decided_rounds s).

Lemma remaining_advance s s' :
  next_round_to_order s ∈ fully_decided_rounds s →
  fully_decided_rounds s' = fully_decided_rounds s →
  next_round_to_order s' = (next_round_to_order s + 1)%N →
  size (remaining s') < size (remaining s).
Proof.
  intros Hin Hd Hn. apply subset_size. unfold remaining. rewrite Hd, Hn. split.
  - intros r [? ?]%elem_of_filter. apply elem_of_filter. split; [lia|done].
  - intros Hsub. specialize (Hsub (next_round_to_order s)).
    assert (next_round_to_order s ∈ filter (λ r, (next_round_to_order s + 1 ≤ r)%N)
      (fully_decided_rounds s)) as [? _]%elem_of_filter; [|lia].
    apply Hsub, elem_of_filter. done.
Qed.

Lemma safe_order_loop fuel s :
  I s → size (remaining s) ≤ fuel →
  ∃ s', order_loop fuel s = (Ok tt, s') ∧ I s' ∧
    next_round_to_order s' ∉ fully_decided_rounds s'.
Proof.
  revert s. induction fuel as [|fuel IH]; intros s Hs Hsz; simpl;
    unfold mbind, stM_bind; simpl; (case_decide as Hin; [|by exists s]).
  { assert (next_round_to_order s ∈ remaining s) as Hin' by (apply elem_of_filter; done).
    apply Nat.le_0_r, size_empty_inv in Hsz. set_solver. }
  pose proof (inv_decided _ _ _ Hs _ Hin) as Hnext. pose proof (bd_cap _ _ HB).
  set (s1 := Upd.rounds _ _ s).
  assert (next_round_to_order s1 = next_round_to_order s + 1)%N as Hn1
    by (unfold s1; simpl; apply u64_wrapping_add_small; lia).
  assert (I s1) as Hs1.
  { destruct Hs as [H1 H2 H3 H4]. split; rewrite ?Hn1; [|done|lia|done].
    etrans; [exact H1|apply same_skel_rounds]. }
  pose proof (preserves_assign_order (next_round_to_order s) s1) as Hsv.
  destruct (safe_assign_order (next_round_to_order s) s1 Hs1) as ([] & s2 & Hrun & Hs2 & _).
  rewrite Hrun in *. simpl in Hsv. apply IH; [done|].
  apply Nat.lt_succ_r. eapply Nat.lt_le_trans; [|exact Hsz].
  apply remaining_advance; [done|..].
  - by rewrite <- (sv_decided _ _ Hsv).
  - by rewrite <- (sv_next _ _ Hsv).
Qed.

Lemma order_decided_rounds_exit s :
  I s → ∃ s', order_decided_rounds s = (Ok tt, s') ∧ I s' ∧
    next_round_to_order s' ∉ fully_decided_rounds s'.
Proof.
  intros Hs. apply safe_order_loop; [done|]. apply subseteq_size.
  intros r [_ ?]%elem_of_filter. done.
Qed.

Lemma safe_order_decided_rounds : safe I any order_decided_rounds.
Proof. intros s (s' & ? & ? & _)%order_decided_rounds_exit. by exists tt, s'. Qed.

(** ** Round completion and fame decisions *)

Lemma safe_note_round round :
  round = 0%N ∨ (1 ≤ round ≤ B)%N → safe I any (note_round_decided_if_complete round).
Proof.
  intros Hround. unfold note_round_decided_if_complete.
  case_decide; [by apply safe_ret|]. destruct Hround as [|Hround]; [done|].
  apply safe_get_bind. intros s Hs. destruct (has_undecided_witness s round); [by exists tt, s|].
  revert s Hs. refold_safe.
  apply safe_seq.
  - apply safe_lift. intros s Hs. unfold round_view_complete.
    destruct (RosterFacts.roster_for_round_resolves (E := ConsensusError) (roster_history s) round 1
      (rd_roster _ (inv_rounds s Hs))) as [reg ->]; [lia|]. by eexists.
  - intros []; simpl; [|by apply safe_ret]. apply safe_seq; [|intros _; apply safe_order_decided_rounds].
    apply safe_modify. intros s [H1 H2 H3 H4]. split; simpl; [|set_solver|done|done].
    etrans; [exact H1|apply same_skel_rounds].
Qed.

Lemma safe_decide_fame candidate status : safe I any (decide_fame candidate status).
Proof.
  unfold decide_fame. apply safe_seq.
  { apply safe_modify. intros s Hs. eapply inv_same_progress; [done|apply same_skel_record_fame|done..]. }
  intros _. apply safe_seq.
  { apply safe_modify. intros s [H1 H2 H3 H4]. split; simpl; [|done|done|].
    - etrans; [exact H1|apply same_skel_undecided].
    - intros h k [_ ?]%lookup_delete_Some. by apply H4. }
  intros _. apply safe_get_bind. intros s Hs. apply safe_note_round; [|done].
  destruct (get s candidate) as [r|] eqn:Hc; [right|by left].
  destruct (skel_get_Some _ _ _ _ (symmetry (inv_skel _ _ _ Hs)) Hc) as (r0 & Hc0 & _ & _ & _ & -> & _).
  by eapply round_le.
Qed.

Lemma inv_next_round s w r k :
  I s → get s w = Some r → (k ≤ 2)%N →
  u64_wrapping_add (rec_round r) k = (rec_round r + k)%N ∧ (1 ≤ rec_round r)%N.
Proof.
  intros Hs Hw Hk.
  destruct (skel_get_Some _ _ _ _ (symmetry (inv_skel _ _ _ Hs)) Hw) as (r0 & Hw0 & _ & _ & _ & -> & _).
  pose proof (round_le _ _ Hw0). pose proof (bd_cap _ _ HB).
  split; [|lia]. apply u64_wrapping_add_small. lia.
Qed.

Lemma safe_try_eager_decide w : safe I any (try_eager_decide w).
Proof.
  unfold try_eager_decide. apply safe_get_bind. intros s Hs.
  destruct (fame_settled s w); [by eexists _, s|].
  destruct (get s w) as [r|] eqn:Hw; [|by eexists _, s]. cbn zeta.
  destruct (inv_next_round s w r 1 Hs Hw) as [-> Hpos]; [lia|].
  destruct (inv_next_round s w r 2 Hs Hw) as [-> _]; [lia|].
  case_decide; [by eexists _, s|]. case_decide; [by eexists _, s|].
  unfold mbind, stM_bind, st_lift.
  destruct (inv_count s (rec_round r + 1) Hs) as [n1 ->]; [lia|].
  destruct (inv_count s (rec_round r + 2) Hs) as [n2 ->]; [lia|].
  case_decide; [by eexists _, s|]. destruct (supermajority _ _); simpl; [|by eexists _, s].
  destruct (recorded_tally _ _ _) as [[yes no] seen].
  destruct (supermajority seen _); simpl; [|by eexists _, s].
  case_decide; [by eexists _, s|].
  destruct (supermajority yes _); [|destruct (supermajority no _); [|by eexists _, s]].
  - destruct (safe_decide_fame w Famous s Hs) as (? & s' & -> & ? & _). by eexists _, s'.
  - destruct (safe_decide_fame w NotFamous s Hs) as (? & s' & -> & ? & _). by eexists _, s'.
Qed.

(** ** Votes *)

Lemma strongly_seen_among_Ok s y ws :
  I s → is_Some (get s0 y) → (∀ w, w ∈ ws → is_Some (get s0 w)) →
  ∃ l, strongly_seen_among s y ws = Ok l ∧ ∀ w, w ∈ l → w ∈ ws.
Proof.
  intros Hs Hy. induction ws as [|w ws IH]; intros Hws; simpl; [by eexists|].
  destruct (proj1 (inv_get_stored s y Hs) Hy) as [ry Hry].
  destruct (proj1 (inv_get_stored s w Hs)) as [rw Hrw]; [apply Hws; by left|].
  unfold strongly_see. rewrite Hrw.
  destruct (inv_count s (rec_round rw) Hs) as [n Hn]; [by eapply (rd_pos _ (inv_rounds s Hs))|].
  destruct (strongly_see_at_spec s (inv_graph s Hs) y w ry rw Hry Hrw _ n Hn) as (b & -> & _).
  destruct IH as (l & -> & Hl); [intros; apply Hws; by right|]. simpl.
  eexists. split; [done|]. intros w' Hw'. destruct b; [|right; by apply Hl].
  apply elem_of_cons in Hw' as [->|]; [by left|right; by apply Hl].
Qed.

Lemma safe_tally_votes vote voters yes no :
  (∀ v, v ∈ voters → safe I any (vote v)) → safe I any (tally_votes vote voters yes no).
Proof.
  revert yes no. induction voters as [|v voters IH]; intros yes no Hv; simpl.
  - by apply safe_ret.
  - apply safe_seq; [apply Hv; by left|].
    intros [[]|]; [| |by apply safe_ret]; apply IH; intros; apply Hv; by right.
Qed.

Lemma safe_conclude_vote y w y_round w_round yes no :
  is_Some (get s0 y) → (1 ≤ y_round)%N →
  safe I any (conclude_vote y w y_round w_round yes no).
Proof.
  intros [ry Hy] Hround. unfold conclude_vote. cbn zeta. apply safe_seq.
  { apply safe_lift. intros s Hs. destruct (inv_count s y_round Hs Hround) as [n ->]. by eexists. }
  intros n. destruct (_ && _); [|destruct (supermajority _ _)].
  - apply safe_seq.
    + apply safe_lift. intros s Hs. unfold coin_round_vote.
      destruct (inv_get s y ry Hs Hy) as (r & Hr & _). rewrite Hr. simpl.
      pose proof (rw_signature _ _ _ (wf_record _ (inv_graph s Hs) _ _ Hr)) as Hsig.
      destruct (lookup_lt_is_Some_2 (signature (rec_event r)) 32) as [b ->]; [lia|].
      by eexists.
    + intros vote. apply safe_seq; [apply safe_record_vote|]. intros _. by apply safe_ret.
  - apply safe_seq; [apply safe_decide_fame|]. intros _. by apply safe_ret.
  - apply safe_seq; [apply safe_record_vote|]. intros _. by apply safe_ret.
Qed.

(** The recursion goes down one round at a time to the candidate's round. *)
Lemma safe_vote_of fuel y w ry rw :
  get s0 y = Some ry → get s0 w = Some rw → (rec_round rw < rec_round ry)%N →
  (rec_round ry - rec_round rw ≤ N.of_nat fuel)%N → safe I any (vote_of fuel y w).
Proof.
  revert y ry. induction fuel as [|fuel IH]; intros y ry Hy Hw Hlt Hf; [lia|].
  simpl. apply safe_get_bind. intros s Hs.
  destruct (inv_get s y ry Hs Hy) as (ry' & Hy' & _ & _ & Ey & _).
  destruct (inv_get s w rw Hs Hw) as (rw' & Hw' & _ & _ & Ew & _).
  pose proof (round_le _ _ Hy) as Hby. pose proof (round_le _ _ Hw). pose proof (bd_cap _ _ HB).
  unfold mbind at 1 2, stM_bind at 1 2, st_lift at 1 2. rewrite Hy', Hw'. cbn [ok_or]. cbn zeta.
  rewrite <- Ey, <- Ew.
  destruct (default Undecided (fame_of s w)); [|by eexists _, s..].
  destruct (vote_for ry' w) as [vote|]; [by eexists _, s|].
  rewrite u64_wrapping_add_small by lia. case_decide as Hnext.
  - revert s Hs Hy' Hw'. intros s Hs _ _.
    assert (safe I any (vote ← st_lift (λ hg, see hg y w);
      st_modify (record_vote y w vote);; mret (Cast vote))) as Hsafe; [|by apply Hsafe].
    apply safe_seq.
    + apply safe_lift. intros s' Hs'.
      destruct (inv_get s' y ry Hs' Hy) as (? & Hy1 & _).
      destruct (inv_get s' w rw Hs' Hw) as (? & Hw1 & _).
      destruct (see_spec s' (inv_graph s' Hs') y w _ _ Hy1 Hw1) as (b & -> & _). by eexists.
    + intros vote. apply safe_seq; [apply safe_record_vote|]. intros _. by apply safe_ret.
  - rewrite u64_wrapping_sub_small by (unfold is_u64; lia).
    assert (∀ v, v ∈ witnesses_of_round s0 (rec_round ry - 1) → is_Some (get s0 v)) as Hst.
    { intros v (rv & Hv & _)%(rd_listed _ Hr0). by eexists. }
    unfold mbind at 1, stM_bind at 1, st_lift at 1.
    rewrite inv_witnesses by done.
    destruct (strongly_seen_among_Ok s y (witnesses_of_round s0 (rec_round ry - 1)) Hs) as (l & -> & Hl);
      [by eexists|done|].
    assert (safe I any (tally_votes (λ v, vote_of fuel v w) l 0 0)) as Htally.
    { apply safe_tally_votes. intros v (rv & Hv & _ & Hrv)%Hl%(rd_listed _ Hr0).
      apply (IH v rv); [done..|lia|lia]. }
    assert (safe I any (tally ← tally_votes (λ v, vote_of fuel v w) l 0 0;
      match tally with
      | inl status => mret (Decided status)
      | inr (yes, no) => conclude_vote y w (rec_round ry) (rec_round rw) yes no
      end)) as Hsafe; [|by apply Hsafe].
    apply safe_seq; [done|]. intros [status|[yes no]]; [by apply safe_ret|].
    apply safe_conclude_vote; [by eexists|lia].
Qed.

Lemma safe_vote_on y w ry rw :
  get s0 y = Some ry → get s0 w = Some rw → (rec_round rw < rec_round ry)%N →
  safe I any (vote_on y w).
Proof.
  intros Hy Hw Hlt. unfold vote_on. apply safe_get_bind. intros s Hs.
  eapply safe_vote_of; [done..| |done].
  unfold vote_fuel. rewrite <- (skel_highest _ _ (inv_skel _ _ _ Hs)).
  pose proof (rd_highest _ Hr0 _ _ Hy). lia.
Qed.

Lemma safe_backfill n y ry round :
  get s0 y = Some ry → (rec_round ry < round)%N → safe I any (backfill n y round).
Proof.
  intros Hy. revert round. induction n as [|n IH]; intros round Hround; simpl; [by apply safe_ret|].
  apply safe_get_bind. intros s Hs. destruct (fame_settled s y); [by exists tt, s|].
  rewrite inv_witnesses by done. revert s Hs.
  refold_safe.
  apply safe_seq.
  - apply safe_for. intros v (rv & Hv & _ & Hk)%(rd_listed _ Hr0).
    apply safe_seq; [by eapply safe_vote_on; [done..|lia]|]. intros _. by apply safe_ret.
  - intros _. apply safe_get_bind. intros s Hs. case_decide; [|apply IH; [lia|done]].
    revert s H0 Hs. intros s _ Hs. revert s Hs.
    refold_safe.
    apply safe_seq; [apply safe_try_eager_decide|]. intros _.
    apply safe_get_bind. intros s Hs. destruct (fame_settled s y); [by exists tt, s|].
    apply IH; [lia|done].
Qed.

Lemma safe_vote_as_witness y ry : get s0 y = Some ry → safe I any (vote_as_witness y).
Proof.
  intros Hy. unfold vote_as_witness.
  apply (safe_bind I (λ s r, rec_round r = rec_round ry)).
  { apply safe_lift. intros s Hs. destruct (inv_get s y ry Hs Hy) as (r & -> & _ & _ & -> & _).
    by exists r. }
  intros s r Hs Er. cbn zeta. rewrite Er. clear r Er. revert s Hs.
  refold_safe.
  apply safe_get_bind. intros s Hs.
  assert (∀ c, c ∈ vote_candidates s (rec_round ry) →
    ∃ rc, get s0 c = Some rc ∧ (rec_round rc < rec_round ry)%N) as Hcand.
  { intros c ([h k] & -> & [Hlt Hin%elem_of_hm_iter]%list_elem_of_filter)%list_elem_of_fmap.
    destruct (inv_undecided _ _ _ Hs _ _ Hin) as (rc & ? & _ & <-). eauto. }
  revert Hcand. generalize (vote_candidates s (rec_round ry)) as cands. intros cands Hcand.
  revert s Hs.
  refold_safe.
  apply safe_seq.
  - apply safe_for. intros c (rc & Hc & Hlt)%Hcand.
    apply safe_seq; [by eapply safe_vote_on|]. intros _.
    apply safe_seq; [apply safe_try_eager_decide|]. intros _. by apply safe_ret.
  - intros _. apply safe_get_bind. intros s Hs. revert s Hs.
    pose proof (round_le _ _ Hy). pose proof (bd_cap _ _ HB).
    rewrite u64_wrapping_add_small by lia. intros s Hs.
    generalize (N.to_nat (highest_witness_round s + 1 - (rec_round ry + 1))). intros n. revert s Hs.
    refold_safe.
    apply safe_seq; [by eapply safe_backfill; [done|lia]|]. intros _.
    apply safe_get_bind. intros s Hs. case_decide; [|by exists tt, s].
    destruct (safe_try_eager_decide y s Hs) as (o & s' & Ho & ? & _).
    unfold mbind, stM_bind. rewrite Ho. by exists tt, s'.
Qed.
End voting.
