(* ===== verification/Reachable.v ===== *)
(** * Reachable hashgraphs

    A node starts from a genesis registry and inserts verified events and
    adds members.  Every state it reaches satisfies all the invariants, and
    [insert] is total on it: it rejects the event and changes nothing, or it
    stores it and finishes all voting and ordering. *)

From S2P Require Import Prelude Codec External Primitives Membership Graph Ancestry Reach Order.
From S2P Require Import Fame Insert Wf Quorum Store Rounds OrderFacts Voting.

Record ready (B : N) (g : Hashgraph) : Prop := {
  rdy_graph : graph_wf g;
  rdy_rounds : rounds_wf g;
  rdy_bounded : bounded B g;
  rdy_inv : inv g B g;
}.

Lemma ready_of_inv s0 B s :
  graph_wf s0 → rounds_wf s0 → bounded B s0 → inv s0 B s → ready B s.
Proof.
  intros Hg Hr [H1 H2 H3] Hi. pose proof (inv_skel _ _ _ Hi) as Hs. split.
  - eapply graph_wf_shape; [apply skel_shape, Hs|done].
  - by eapply rounds_wf_skel.
  - split; [done| |by rewrite <- (skel_highest _ _ Hs)].
    intros h r (r0 & H0 & _ & -> & _)%(skel_get_Some _ _ _ _ (symmetry Hs)). by eapply H2.
  - destruct Hi as [_ H4 H5 H6]. split; [done..|].
    intros h k (r0 & H0 & Hw & Hk)%H6.
    destruct (skel_get_Some _ _ _ _ Hs H0) as (r & ? & _ & _ & _ & ? & ?).
    exists r. split_and!; congruence.
Qed.

Lemma bounded_mono B B' g :
  (B ≤ B')%N → (B' + 2 < u64_modulus)%N → bounded B g → bounded B' g.
Proof.
  intros Hle Hcap [H1 H2 H3]. split; [done| |lia]. intros h r Hh. specialize (H2 h r Hh). lia.
Qed.

Lemma inv_mono s0 B B' s : (B ≤ B')%N → inv s0 B s → inv s0 B' s.
Proof.
  intros Hle [H1 H2 H3 H4]. split; [done| |lia|done]. intros r ?%H2. lia.
Qed.

(** ** Genesis *)

Lemma lookup_index_members ids c i :
  index_members ids !! c = Some i → ids !! i = Some c.
Proof.
  intros Hc%elem_of_list_to_map_2. apply elem_of_lookup_zip_with in Hc as (j & x & y & [= -> ->] & Hj & Hs).
  apply lookup_seq in Hs as [-> _]. done.
Qed.

Lemma new_ready registry B : (1 ≤ B)%N → (B + 2 < u64_modulus)%N → ready B (new registry).
Proof.
  intros HB1 HB. split.
  - split; simpl; try done.
    + apply length_replicate.
    + intros c i Hi%lookup_index_members. by eapply lookup_lt_Some.
    + intros c1 c2 i H1%lookup_index_members H2%lookup_index_members. congruence.
    + exists (λ _, 0). by intros h p (r & Hr & _).
  - split; simpl; try done.
    + intros k h. unfold witnesses_of_round; simpl. rewrite lookup_empty. simpl.
      rewrite elem_of_nil. split; [done|]. by intros (r & Hr & _).
    + intros k. unfold witnesses_of_round; simpl. rewrite lookup_empty. apply NoDup_nil_2.
  - split; [done|by intros h r|simpl; lia].
  - split; simpl; [done|set_solver|lia|done].
Qed.

(** ** Insertion *)

Lemma event_hash_no_crash `{Sha256} e : no_crash (event_hash e).
Proof.
  assert (∀ txs, no_crash (encode_transactions_body txs)) as Hbody.
  { induction txs as [|tx txs IH]; intros c; simpl; [done|].
    unfold encode_transaction, u32_try_from. case_decide; [|done]. simpl.
    destruct (encode_transactions_body txs) as [| |c'] eqn:E; simpl; [done..|].
    by destruct (IH c'). }
  intros c. unfold event_hash, encode_event, encode_unsigned_event, encode_transactions, u32_try_from.
  case_decide; [|done]. simpl.
  destruct (encode_transactions_body _) as [| |c'] eqn:E; simpl; [done..|]. by destruct (Hbody (ue_payload (ev_unsigned e)) c').
Qed.

Lemma insert_checks_cases `{Sha256} g e :
  (∃ err, insert_checks g e = Err err) ∨
  ∃ hash i sp op, insert_checks g e = Ok (hash, i, sp, op) ∧ checked g e hash i sp op.
Proof.
  destruct (insert_checks g e) as [[[[hash i] sp] op]|err|c] eqn:E.
  - right. exists hash, i, sp, op. split; [done|]. by apply insert_checks_Ok.
  - left. by exists err.
  - exfalso. revert E. unfold insert_checks, lookup_parent.
    destruct (event_hash e) as [h|pe|c'] eqn:Hh; simpl; [|done|by destruct (event_hash_no_crash e c')].
    case_decide; [done|]. destruct (member_index_of g (creator e)); simpl; [|done].
    assert (∀ p, no_crash (match p with
      | Some h => r ← ok_or (get g h) (MissingParent h); mret (Some r)
      | None => mret None end : res ConsensusError (option EventRecord))) as Hp.
    { intros [p|] c'; [|done]. by destruct (get g p). }
    destruct (match self_parent e with Some h => _ | None => _ end) as [sp| |c'] eqn:Es; simpl;
      [|done|by destruct (Hp (self_parent e) c')].
    destruct (match other_parent e with Some h => _ | None => _ end) as [op| |c'] eqn:Eo; simpl;
      [|done|by destruct (Hp (other_parent e) c')].
    destruct sp; [by case_decide|done].
Qed.

Section insert.
Context `{Sha256, HashOrder} (B : N) (g : Hashgraph) (e : Event) (Hready : ready B g).
Context (Hsig : length (signature e) = 64) (Hcap : (B + 4 < u64_modulus)%N).

(** The state in which voting starts: the event is stored with its final
    round. *)
Record inserted (hash : EventHash) (i : nat) (sp op : option EventRecord) (g2 : Hashgraph) : Prop := {
  ins_checked : checked g e hash i sp op;
  ins_stored : ∃ g1 sq row total, stored g g1 e hash i sp op sq row ∧ graph_wf g1 ∧
    let base := base_round (rec_round <$> sp) (rec_round <$> op) in
    member_count_at_round g1 base = Ok total ∧
    let fr := round_rule g1 hash base total in
    let w := match rec_round <$> sp with None => true | Some s => (s <? fr)%N end in
    g2 = finalized g1 hash fr w;
  ins_graph : graph_wf g2;
  ins_rounds : rounds_wf g2;
  ins_bounded : bounded (B + 1) g2;
  ins_inv : inv g2 (B + 1) g2;
}.

Lemma base_le g1 hash i sp op sq row :
  checked g e hash i sp op → stored g g1 e hash i sp op sq row → (1 ≤ B)%N →
  (base_round (rec_round <$> sp) (rec_round <$> op) ≤ B)%N.
Proof.
  intros Hck Hst HB1.
  pose proof (base_highest g g1 e hash i sp op sq row (rdy_rounds _ _ Hready) Hck Hst) as Hb.
  pose proof (bd_round _ _ (rdy_bounded _ _ Hready)). lia.
Qed.

Lemma store_and_finalize hash i sp op :
  checked g e hash i sp op → (1 ≤ B)%N →
  ∃ g1 g2, store_event g e hash i sp op = Ok g1 ∧
    finalize_round hash (base_round (rec_round <$> sp) (rec_round <$> op)) (rec_round <$> sp) g1
    = (Ok tt, g2) ∧ inserted hash i sp op g2.
Proof.
  intros Hck HB1. pose proof Hready as [Hg Hr Hb Hi].
  destruct (store_event_Ok B g e hash i sp op Hg (bd_seq _ _ Hb)) as (g1 & sq & row & Hst & Hstored);
    [lia|done|].
  assert (graph_wf g1) as Hg1 by (by apply (stored_wf g g1 e hash i sp op sq row)).
  pose proof (base_le g1 hash i sp op sq row Hck Hstored HB1) as Hbase.
  destruct (finalize_round_Ok g g1 e hash i sp op sq row Hr Hck Hstored Hg1) as (total & Htot & Hfin);
    [lia|].
  set (base := base_round (rec_round <$> sp) (rec_round <$> op)) in *.
  set (fr := round_rule g1 hash base total) in *. cbn zeta in Hfin.
  set (w := match rec_round <$> sp with None => true | Some s => (s <? fr)%N end) in *.
  exists g1, (finalized g1 hash fr w). split; [done|]. split; [done|].
  assert (base ≤ fr ≤ base + 1)%N as Hfr by apply round_rule_bounds.
  assert (rounds_wf (finalized g1 hash fr w)) as Hr2 by (by apply (finalized_rounds g g1 e hash i sp op sq row)).
  split; [done| | |done|..].
  - by exists g1, sq, row, total.
  - eapply graph_wf_shape; [apply finalized_shape|done].
  - split; [lia| |].
    + intros h r Hh. rewrite finalized_get in Hh.
      pose proof (stored_seqs g g1 e hash i sp op sq row Hck Hstored B (bd_seq _ _ Hb)) as Hs1.
      case_decide; [|by eapply Hs1]. destruct (get g1 hash) as [r1|] eqn:E1; [|done].
      injection Hh as <-. by eapply (Hs1 hash r1).
    + rewrite (fin_highest g g1 e hash i sp op sq row Hstored fr w eq_refl).
      pose proof (bd_round _ _ Hb). destruct w; lia.
  - destruct Hi as [_ H2 H3 H4]. split; [done| | |].
    + intros r Hin. assert (r ∈ fully_decided_rounds g) as Hr'%H2; [|lia].
      revert Hin. unfold finalized. destruct w; simpl; by rewrite (st_decided _ _ _ _ _ _ _ _ _ Hstored).
    + assert (next_round_to_order (finalized g1 hash fr w) = next_round_to_order g) as ->; [|lia].
      unfold finalized. destruct w; simpl; by rewrite (st_next _ _ _ _ _ _ _ _ _ Hstored).
    + intros h k Hk.
      assert (undecided_witnesses g !! h = Some k ∨ (w = true ∧ h = hash ∧ k = fr)) as Hcase.
      { revert Hk. unfold finalized. destruct w; simpl; rewrite (st_undecided _ _ _ _ _ _ _ _ _ Hstored).
        - intros [[<- <-]|[_ ?]]%lookup_insert_Some; auto.
        - auto. }
      destruct Hcase as [(r & Hh & ? & ?)%H4|(Hw & -> & ->)].
      * exists r. split; [|done]. by apply (fin_old g g1 e hash i sp op sq row).
      * eexists. split; [by apply (fin_new g g1 e hash i sp op sq row)|]. done.
Qed.

(** An accepted event is stored, gets its round, and the rest settles. *)
Lemma insert_run hash i sp op :
  insert_checks g e = Ok (hash, i, sp, op) → checked g e hash i sp op → (1 ≤ B)%N →
  ∃ g2, inserted hash i sp op g2 ∧ insert e g = (settle hash ;; mret hash) g2.
Proof.
  intros Hchk Hck HB1.
  destruct (store_and_finalize hash i sp op Hck HB1) as (g1 & g2 & Hst & Hfin & Hins).
  exists g2. split; [done|]. unfold insert.
  unfold mbind at 1, stM_bind at 1, st_lift at 1. rewrite Hchk.
  unfold mbind at 1, stM_bind at 1, st_lift at 1. rewrite Hst.
  unfold mbind at 1, stM_bind at 1, st_modify at 1.
  unfold mbind at 1, stM_bind at 1. by rewrite Hfin.
Qed.

Lemma settle_Ok hash i sp op g2 :
  inserted hash i sp op g2 →
  ∃ g3 g4, (hg ← st_get; if match get hg hash with Some r => rec_is_witness r | None => false end
              then vote_as_witness hash else mret tt) g2 = (Ok tt, g3) ∧
    inv g2 (B + 1) g3 ∧
    note_round_decided_if_complete (next_round_to_order g3) g3 = (Ok tt, g4) ∧
    settle hash g2 = (Ok tt, g4) ∧ inv g2 (B + 2) g4.
Proof.
  intros [_ _ Hg2 Hr2 Hb2 Hi2].
  assert (safe (E := ConsensusError) (inv g2 (B + 1)) any
    (hg ← st_get; if match get hg hash with Some r => rec_is_witness r | None => false end
      then vote_as_witness hash else mret tt)) as Hvote.
  { apply safe_get_bind. intros s Hs. destruct (get s hash) as [r|] eqn:Hh; [|by exists tt, s].
    destruct (rec_is_witness r); [|by exists tt, s].
    destruct (skel_get_Some _ _ _ _ (symmetry (inv_skel _ _ _ Hs)) Hh) as (r2 & Hh2 & _).
    by apply (safe_vote_as_witness g2 (B + 1) Hg2 Hr2 Hb2 hash r2 Hh2). }
  destruct (Hvote g2 Hi2) as ([] & g3 & Hrun & Hi3 & _).
  assert (bounded (B + 2) g2) as Hb2' by (eapply bounded_mono; [| |exact Hb2]; lia).
  assert (inv g2 (B + 2) g3) as Hi3' by (eapply inv_mono; [|exact Hi3]; lia).
  destruct (safe_note_round g2 (B + 2) Hg2 Hr2 Hb2' (next_round_to_order g3)) with (s := g3)
    as ([] & g4 & Hn & Hi4 & _); [|done|].
  { right. pose proof (inv_next _ _ _ Hi3). lia. }
  exists g3, g4. split_and!; try done.
  unfold settle. unfold mbind, stM_bind, st_get in *. cbn beta iota in *. rewrite Hrun.
  cbn beta iota. done.
Qed.

Lemma insert_total :
  (1 ≤ B)%N →
  (∃ err, insert e g = (Err err, g)) ∨
  (∃ hash i sp op g2 g', insert e g = (Ok hash, g') ∧ settle hash g2 = (Ok tt, g') ∧
     inserted hash i sp op g2 ∧ same_skel g2 g' ∧ ready (B + 2) g').
Proof.
  intros HB1.
  destruct (insert_checks_cases g e) as [[err Hchk]|(hash & i & sp & op & Hchk & Hck)].
  { left. exists err. unfold insert, mbind, stM_bind, st_lift. by rewrite Hchk. }
  right. destruct (insert_run hash i sp op Hchk Hck HB1) as (g2 & Hins & Hrun).
  destruct (settle_Ok hash i sp op g2 Hins) as (_ & g4 & _ & _ & _ & Hs & Hi4).
  exists hash, i, sp, op, g2, g4. rewrite Hrun. unfold mbind, stM_bind. rewrite Hs.
  split_and!; try done; [apply Hi4|]. destruct Hins as [_ _ Hg2 Hr2 Hb2 _].
  eapply ready_of_inv; [done..| |done]. eapply bounded_mono; [| |exact Hb2]; lia.
Qed.
End insert.

(** ** Adding a member *)

Section add_member.
Context (B : N) (g : Hashgraph) (node : NodeId) (act : N) (reg : MembershipRegistry).
Context (Hready : ready B g) (Hnew : member_index g !! node = None).

Let g' : Hashgraph := (add_member node act reg g).2.

Lemma add_member_Ok : add_member node act reg g = (Ok tt, g').
Proof.
  unfold g', add_member. rewrite decide_False; [done|]. rewrite Hnew. by intros [? ?].
Qed.

Lemma add_fields :
  member_index g' = <[node := member_count g]> (member_index g) ∧
  member_count g' = S (member_count g) ∧ known_forkers g' = known_forkers g ++ [false] ∧
  events g' = Upd.record_push_seq <$> events g ∧ by_creator_seq g' = by_creator_seq g ∧
  first_child g' = first_child g ∧ latest_by_creator g' = latest_by_creator g ∧
  witnesses_by_round g' = witnesses_by_round g ∧
  roster_history g' = Roster.schedule (roster_history g) (u64_saturating_add act 1) reg ∧
  highest_witness_round g' = highest_witness_round g ∧
  fully_decided_rounds g' = fully_decided_rounds g ∧
  next_round_to_order g' = next_round_to_order g ∧
  undecided_witnesses g' = undecided_witnesses g.
Proof.
  unfold g', add_member. rewrite decide_False; [done|]. rewrite Hnew. by intros [? ?].
Qed.

Lemma add_get h : get g' h = Upd.record_push_seq <$> get g h.
Proof. unfold get. destruct add_fields as (_ & _ & _ & -> & _). apply lookup_fmap. Qed.

Lemma add_get_inv h r' : get g' h = Some r' → ∃ r, get g h = Some r ∧ r' = Upd.record_push_seq r.
Proof. rewrite add_get. destruct (get g h) as [r|]; [|done]. intros [= <-]. eauto. Qed.

Lemma add_parent_of x p : parent_of g' x p ↔ parent_of g x p.
Proof.
  unfold parent_of. rewrite add_get. destruct (get g x) as [r|]; simpl; [|done].
  split; intros (? & [= <-] & ?); eexists; (split; [done|done]).
Qed.

Lemma add_anc x y : anc g' x y ↔ anc g x y.
Proof. split; apply rtc_subrel; intros a b; apply add_parent_of. Qed.

Lemma add_made_by c s h : made_by g' c s h ↔ made_by g c s h.
Proof.
  unfold made_by. rewrite add_get. destruct (get g h) as [r|]; simpl; [|done].
  split; intros (? & [= <-] & ?); eexists; (split; [done|done]).
Qed.

Lemma add_forks_below x c : forks_below g x c → forks_below g' x c.
Proof.
  intros (y1 & y2 & r1 & r2 & Hne & H1 & H2 & Hr1 & Hr2 & Hrest).
  exists y1, y2, (Upd.record_push_seq r1), (Upd.record_push_seq r2).
  rewrite !add_get, Hr1, Hr2, !add_anc. done.
Qed.

(** The new member has created nothing. *)
Lemma new_member_fresh h r : get g h = Some r → creator (rec_event r) ≠ node.
Proof.
  intros Hh <-. destruct (rw_creator _ _ _ (wf_record _ (rdy_graph _ _ Hready) _ _ Hh)). congruence.
Qed.

Lemma add_index_inv c i :
  member_index g' !! c = Some i →
  (c = node ∧ i = member_count g) ∨ (c ≠ node ∧ member_index g !! c = Some i ∧ i < member_count g).
Proof.
  destruct add_fields as (-> & _). intros [[<- <-]|[Hne Hc]]%lookup_insert_Some; [by left|right].
  split_and!; [done..|]. by eapply (wf_index_lt _ (rdy_graph _ _ Hready)).
Qed.

Lemma add_record_wf h r : get g h = Some r → record_wf g' h (Upd.record_push_seq r).
Proof.
  intros Hh. pose proof (wf_record _ (rdy_graph _ _ Hready) _ _ Hh) as Hw.
  destruct add_fields as (Hi & Hc & Hk & _ & Hb & Hf & _).
  pose proof (rw_width _ _ _ Hw) as Hlen.
  split; simpl.
  - rewrite length_app, Hc. simpl. lia.
  - rewrite Hi. apply lookup_insert_is_Some'. right. apply Hw.
  - apply Hw.
  - intros p [rp Hp]%(rw_parents _ _ _ Hw). rewrite add_get, Hp. by eexists.
  - pose proof (rw_seq _ _ _ Hw) as Hs. destruct (self_parent (rec_event r)) as [p|]; [|done].
    destruct Hs as (rp & Hp & ? & ?). exists (Upd.record_push_seq rp). by rewrite add_get, Hp.
  - rewrite Hb. apply Hw.
  - rewrite Hf. apply Hw.
  - intros i [[Hn _]|(_ & Hci & Hlt)]%add_index_inv; [by destruct (new_member_fresh h r Hh)|].
    rewrite lookup_app_l by lia. by apply (rw_own _ _ _ Hw).
  - intros c i s Hci Hs Hne. apply add_index_inv in Hci as [[-> ->]|(_ & Hci & Hlt)].
    + rewrite lookup_app_r, Hlen, Nat.sub_diag in Hs by lia. simpl in Hs. congruence.
    + rewrite lookup_app_l in Hs by lia.
      destruct (rw_row_found _ _ _ Hw c i s Hci Hs Hne) as (y & ? & ?).
      exists y. by rewrite add_anc, add_made_by.
  - intros c i s y sy Hci Hs Hy%add_anc Hm%add_made_by.
    apply add_index_inv in Hci as [[-> ->]|(_ & Hci & Hlt)].
    + destruct Hm as (ry & Hry & Hcy & _). by destruct (new_member_fresh y ry Hry).
    + rewrite lookup_app_l in Hs by lia.
      destruct (rw_row_max _ _ _ Hw c i s y sy Hci Hs Hy Hm); [by left|right].
      by apply add_forks_below.
Qed.

Lemma add_graph_wf : graph_wf g'.
Proof.
  pose proof (rdy_graph _ _ Hready) as Hg.
  destruct add_fields as (Hi & Hc & Hk & _ & Hb & Hf & Hl & _).
  split.
  - rewrite Hk, Hc, length_app, (wf_forkers _ Hg). simpl. lia.
  - intros c i [[-> ->]|(_ & _ & ?)]%add_index_inv; rewrite Hc; lia.
  - intros c1 c2 i [[-> ->]|(_ & H1 & ?)]%add_index_inv [[-> ?]|(_ & H2 & ?)]%add_index_inv; try done; try lia.
    by eapply (wf_index_inj _ Hg).
  - intros h r' (r & Hh & ->)%add_get_inv. by apply add_record_wf.
  - destruct (wf_acyclic _ Hg) as [rank Hrank]. exists rank. intros h p Hp%add_parent_of. auto.
  - intros c s h. rewrite Hb. intros ?%(wf_by_seq _ Hg). by apply add_made_by.
  - intros c sp h. rewrite Hf. intros (r & Hh & Hrest)%(wf_first_child _ Hg).
    exists (Upd.record_push_seq r). by rewrite add_get, Hh.
  - intros c i h1 h2 r1' r2' Hci Hfk (r1 & H1 & ->)%add_get_inv (r2 & H2 & ->)%add_get_inv; simpl.
    intros Hc1 Hc2 Hp. apply add_index_inv in Hci as [[-> _]|(_ & Hci & Hlt)];
      [by destruct (new_member_fresh h1 r1 H1)|].
    rewrite Hk, lookup_app_l in Hfk by (rewrite (wf_forkers _ Hg); lia).
    by apply (wf_unforked _ Hg c i h1 h2 r1 r2).
  - intros c h. rewrite Hl. intros (r & Hh & Hrest)%(wf_latest _ Hg).
    exists (Upd.record_push_seq r). by rewrite add_get, Hh.
Qed.

Lemma add_rounds_wf : rounds_wf g'.
Proof.
  pose proof (rdy_rounds _ _ Hready) as Hr.
  destruct add_fields as (_ & _ & _ & _ & _ & _ & _ & Hw & Hro & Hh & _).
  assert (∀ p, parent_round g' p = parent_round g p) as Hpr.
  { intros [p|]; [|done]. unfold parent_round; simpl. rewrite add_get. by destruct (get g p). }
  assert (∀ k, witnesses_of_round g' k = witnesses_of_round g k) as Hwk
    by (intros; unfold witnesses_of_round; by rewrite Hw).
  split.
  - intros h r' (r & Hg & ->)%add_get_inv. by apply (rd_pos _ Hr h r).
  - intros h r' (r & Hg & ->)%add_get_inv. unfold base_of. rewrite !Hpr. by apply (rd_base _ Hr h r).
  - intros h r' (r & Hg & ->)%add_get_inv. rewrite Hpr. by apply (rd_witness _ Hr h r).
  - intros k h. rewrite Hwk, (rd_listed _ Hr). setoid_rewrite add_get. split.
    + intros (r & -> & ?). by eexists.
    + destruct (get g h) as [r|]; [|by intros (? & ? & _)]. intros (? & [= <-] & ?). by exists r.
  - intros k. rewrite Hwk. apply Hr.
  - intros h r' (r & Hg & ->)%add_get_inv. rewrite Hh. by apply (rd_highest _ Hr h r).
  - rewrite Hro. simpl. apply lookup_insert_is_Some'. right. apply Hr.
Qed.

Lemma add_member_ready : ready B g'.
Proof.
  destruct add_fields as (_ & _ & _ & _ & _ & _ & _ & _ & _ & Hh & Hd & Hn & Hu).
  destruct Hready as [_ _ [H1 H2 H3] [_ H4 H5 H6]].
  split; [apply add_graph_wf|apply add_rounds_wf|..].
  - split; [done| |by rewrite Hh]. intros h r' (r & Hg & ->)%add_get_inv. by apply (H2 h r).
  - split; [done|by rewrite Hd|by rewrite Hn|]. intros h k. rewrite Hu.
    intros (r & Hg & ?)%H6. exists (Upd.record_push_seq r). by rewrite add_get, Hg.
Qed.
End add_member.

(** ** The reachable states *)

Inductive reachable `{Sha256, HashOrder} (genesis : MembershipRegistry) : nat → Hashgraph → Prop :=
| reach_new : reachable genesis 0 (new genesis)
| reach_insert n g e r g' :
    reachable genesis n g → wf_event e → insert e g = (r, g') → reachable genesis (S n) g'
| reach_add_member n g node act reg g' :
    reachable genesis n g → add_member node act reg g = (Ok tt, g') → reachable genesis (S n) g'.

(** The bound on every [u64] after [n] operations. *)
Definition step_bound (n : nat) : N := 2 * N.of_nat n + 1.

Lemma ready_mono B B' g :
  (B ≤ B')%N → (B' + 2 < u64_modulus)%N → ready B g → ready B' g.
Proof.
  intros Hle Hcap [H1 H2 H3 H4]. split; [done..|by eapply bounded_mono|by eapply inv_mono].
Qed.

Lemma reachable_ready `{Sha256, HashOrder} genesis n g :
  reachable genesis n g → (step_bound n + 2 < u64_modulus)%N → ready (step_bound n) g.
Proof.
  unfold step_bound. induction 1 as [|n g e r g' Hg IH He Hins|n g node act reg g' Hg IH Hadd]; intros Hcap.
  - apply new_ready; [lia|done].
  - assert (ready (2 * N.of_nat n + 1) g) as Hr by (apply IH; lia).
    destruct (insert_total _ g e Hr (wf_signature _ He)) as [[err Herr]|(h & i & sp & op & g2 & g3 & Hok & _ & _ & _ & Hr')];
      [lia|lia|..].
    + assert (g' = g) as -> by congruence. eapply ready_mono; [| |exact Hr]; lia.
    + assert (g' = g3) as -> by congruence. eapply ready_mono; [| |exact Hr']; lia.
  - assert (ready (2 * N.of_nat n + 1) g) as Hr by (apply IH; lia).
    assert (member_index g !! node = None) as Hnew.
    { revert Hadd. unfold add_member. case_decide as Hc; [done|]. intros _. by apply eq_None_not_Some. }
    pose proof (add_member_ready _ g node act reg Hr Hnew) as Hr'. rewrite Hadd in Hr'.
    eapply ready_mono; [| |exact Hr']; lia.
Qed.
