(* ===== verification/Demo.v ===== *)
(** * Example histories

    Small concrete runs of the model on which the theorems are evaluated:
    members signing with the polynomial checksum of [External], a gossip
    history given by the indices of each event's parents, and the graph that
    results from inserting the signed events one after the other. *)

From S2P Require Import Prelude Codec External Primitives Membership Graph Insert Reachable.

#[local] Existing Instance toy_sha256.
#[local] Existing Instance toy_ed25519.

#[export] Instance wf_event_dec e : Decision (wf_event e).
Proof.
  assert (∀ o, Decision (wf_opt_hash o)) by (intros [h|]; simpl; apply _).
  refine (cast_if (decide ((is_u64 (creator e) ∧ wf_opt_hash (self_parent e)) ∧
    (wf_opt_hash (other_parent e) ∧ is_u64 (timestamp e) ∧ length (signature e) = 64)))).
  - abstract (constructor; tauto).
  - abstract (intros []; tauto).
Defined.

Definition demo_key (n : N) : bytes := be_bytes 32 n.

Definition demo_registry (k : nat) : MembershipRegistry :=
  foldl (λ reg n, Registry.register reg n (demo_key n) (be_bytes 48 n)) ∅ (N.of_nat <$> seq 1 k).

(** One gossip step: the creator and the positions, in the history, of its
    self-parent and other-parent. *)
Definition demo_step : Type := N * option nat * option nat.

Definition demo_event (hs : list EventHash) (ts : N) (step : demo_step) : Event :=
  let u := {| ue_creator := step.1.1;
              ue_self_parent := step.1.2 ≫= λ i, hs !! i;
              ue_other_parent := step.2 ≫= λ i, hs !! i;
              ue_timestamp := ts; ue_payload := [] |} in
  match sign_event (demo_key step.1.1) u with
  | Ok e => e
  | _ => {| ev_unsigned := u; ev_signature := [] |}
  end.

Fixpoint demo_events (hs : list EventHash) (ts : N) (steps : list demo_step) : list Event :=
  match steps with
  | [] => []
  | step :: steps =>
      let e := demo_event hs ts step in
      e :: demo_events (hs ++ [match event_hash e with Ok h => h | _ => [] end]) (ts + 1) steps
  end.

Definition demo_hash (e : Event) : EventHash :=
  match event_hash e with Ok h => h | _ => [] end.

(** A lone member's chain: every event starts a round of its own. *)
Definition solo (n : nat) : list Event :=
  demo_events [] 100 ((λ i, (1%N, if decide (i = 0) then None else Some (i - 1), None)) <$> seq 0 n).

(** Round-robin gossip of four members: event [i] by member [i mod 4 + 1] on
    top of its own previous event and of the event before. *)
Definition ring (n : nat) : list Event :=
  demo_events [] 100
    ((λ i, (N.of_nat (i `mod` 4 + 1), if decide (i < 4) then None else Some (i - 4),
            if decide (i < 4) then None else Some (i - 1))) <$> seq 0 n).

Definition insert_all_events `{HashOrder} (es : list Event) (g : Hashgraph) : Hashgraph :=
  foldl (λ g e, (insert e g).2) g es.

Definition demo_graph `{HashOrder} (k : nat) (es : list Event) : Hashgraph :=
  insert_all_events es (new (demo_registry k)).

Lemma insert_all_reachable `{HashOrder} genesis es n g :
  Forall wf_event es → reachable genesis n g →
  reachable genesis (length es + n) (insert_all_events es g).
Proof.
  intros Hes. revert n g. induction Hes as [|e es He _ IH]; intros n g Hg; [exact Hg|].
  simpl. rewrite <- Nat.add_succ_r. apply IH.
  eapply reach_insert; [exact Hg|exact He|apply surjective_pairing].
Qed.

Lemma demo_reachable `{HashOrder} k es :
  Forall wf_event es → reachable (demo_registry k) (length es) (demo_graph k es).
Proof.
  intros Hes. rewrite <- (Nat.add_0_r (length es)).
  apply insert_all_reachable; [exact Hes|apply reach_new].
Qed.
