(* ===== verification/Finality.v ===== *)
(** * Finality: decisions and orders are never revised

    A fame decision, a round received and a consensus timestamp are written
    once; a round that has been ordered receives no further event.  [final]
    relates two states of which the second extends the decisions of the
    first, and every action of the voting machinery respects it. *)

From S2P Require Import Prelude Codec External Primitives Membership Graph Ancestry Reach Order.
From S2P Require Import Fame Insert Wf Quorum Store Rounds OrderFacts Voting Reachable.

Record final (s s' : Hashgraph) : Prop := {
  fin_skel : same_skel s s';
  fin_fame : ∀ h f, fame_of s h = Some f → f ≠ Undecided → fame_of s' h = Some f;
  fin_received : ∀ h k, round_received s h = Some k →
    round_received s' h = Some k ∧ consensus_timestamp s' h = consensus_timestamp s h;
  fin_fresh : ∀ h k, round_received s' h = Some k →
    round_received s h = Some k ∨ (next_round_to_order s ≤ k)%N;
  fin_next : (next_round_to_order s ≤ next_round_to_order s')%N;
  fin_decided : fully_decided_rounds s ⊆ fully_decided_rounds s';
}.

#[export] Instance final_preorder : PreOrder final.
Proof.
  split.
  - intros s. split; try done. by left.
  - intros s1 s2 s3 H12 H23. split.
    + etrans; [apply H12|apply H23].
    + intros h f Hf Hne. by apply H23; [apply H12|].
    + intros h k (Hk & Ht)%(fin_received _ _ H12). apply (fin_received _ _ H23) in Hk as [? ?].
      split; congruence.
    + intros h k [Hk|Hk]%(fin_fresh _ _ H23).
      * by apply H12.
      * right. pose proof (fin_next _ _ H12). lia.
    + pose proof (fin_next _ _ H12). pose proof (fin_next _ _ H23). lia.
    + pose proof (fin_decided _ _ H12). pose proof (fin_decided _ _ H23). set_solver.
Qed.

(** ** Reading single-field updates *)

Lemma get_alter (f : EventRecord → EventRecord) h g h' :
  get (Upd.events (alter f h) g) h' = if decide (h' = h) then f <$> get g h' else get g h'.
Proof.
  unfold get; simpl. case_decide; [subst; apply lookup_alter_eq|by apply lookup_alter_ne].
Qed.

Lemma fame_of_alter (f : EventRecord → EventRecord) h g h' :
  (∀ r, rec_is_witness (f r) = rec_is_witness r) → (∀ r, rec_fame (f r) = rec_fame r) →
  fame_of (Upd.events (alter f h) g) h' = fame_of g h'.
Proof.
  intros H1 H2. unfold fame_of. rewrite get_alter. case_decide; [|done].
  destruct (get g h'); simpl; [|done]. by rewrite H1, H2.
Qed.

Lemma received_alter (f : EventRecord → EventRecord) h g h' :
  (∀ r, rec_round_received (f r) = rec_round_received r) →
  (∀ r, rec_consensus_timestamp (f r) = rec_consensus_timestamp r) →
  round_received (Upd.events (alter f h) g) h' = round_received g h' ∧
  consensus_timestamp (Upd.events (alter f h) g) h' = consensus_timestamp g h'.
Proof.
  intros H1 H2. unfold round_received, consensus_timestamp. rewrite get_alter.
  case_decide; [|done]. destruct (get g h'); simpl; [|done]. by rewrite H1, H2.
Qed.

Lemma final_record_vote y w b s : final s (record_vote y w b s).
Proof.
  unfold record_vote. split; simpl; [by apply same_skel_alter|..]; try done.
  - intros h f Hf _. by rewrite fame_of_alter.
  - intros h k Hk.
    destruct (received_alter (Upd.record_vote w b) y s h) as [-> ->]; [done..|]. done.
  - intros h k.
    destruct (received_alter (Upd.record_vote w b) y s h) as [-> _]; [done..|]. by left.
Qed.

Lemma fame_of_record_vote y w b s h : fame_of (record_vote y w b s) h = fame_of s h.
Proof. by apply fame_of_alter. Qed.

(** ** Ordering *)

(** [assign_order round] writes [round] to events that had no order, and
    touches nothing else. *)
Record ordered_round (round : N) (s s' : Hashgraph) : Prop := {
  or_votes : same_votes s s';
  or_kept : ∀ h k, round_received s h = Some k →
    round_received s' h = Some k ∧ consensus_timestamp s' h = consensus_timestamp s h;
  or_fresh : ∀ h k, round_received s' h = Some k → round_received s h = Some k ∨ k = round;
}.

#[export] Instance ordered_round_preorder round : PreOrder (ordered_round round).
Proof.
  split.
  - intros s. split; [done|done|]. by left.
  - intros s1 s2 s3 [H1 H2 H3] [H4 H5 H6]. split.
    + by etrans.
    + intros h k (Hk & Ht)%H2. apply H5 in Hk as [? ?]. split; congruence.
    + intros h k [Hk| ->]%H6; [by apply H3|by right].
Qed.

Lemma fame_of_ballots s s' h : same_votes s s' → fame_of s' h = fame_of s h.
Proof.
  intros Hs. unfold fame_of.
  assert (rec_ballot <$> get s h = rec_ballot <$> get s' h) as Hb.
  { unfold get. rewrite <- !lookup_fmap. by rewrite (sv_ballots _ _ Hs). }
  destruct (skel_cases _ _ h (sv_skel _ _ Hs)) as [[-> ->]|(r & r' & Hr & Hr' & _ & _ & _ & _ & Hw)]; [done|].
  rewrite Hr, Hr' in *. simpl in *. unfold rec_ballot in Hb. injection Hb as _ Hf.
  by rewrite Hw, Hf.
Qed.

Lemma ordered_order_event `{HashOrder} famous round event s :
  round_received s event = None →
  ordered_round round s (order_event famous round event s).2.
Proof.
  intros Hnone. pose proof (preserves_order_event famous round event s) as Hsv.
  unfold order_event, mbind, stM_bind, st_lift in *.
  destruct (all_see s famous event) as [[]| |]; simpl in *; try done.
  destruct (collect_first_seen s famous event) as [l| |]; simpl in *; try done.
  destruct (median_timestamp l) as [ts| |]; simpl in *; try done.
  assert (∀ h, h ≠ event →
    get (set_event_order event round ts s) h = get s h) as Hother.
  { intros h Hne. unfold set_event_order. by rewrite get_alter, decide_False. }
  split; [done|..].
  - intros h k Hk. assert (h ≠ event) as Hne by (intros ->; congruence).
    unfold round_received, consensus_timestamp in *. by rewrite Hother.
  - intros h k. destruct (decide (h = event)) as [->|Hne].
    + unfold round_received, set_event_order. rewrite get_alter, decide_True by done.
      destruct (get s event); simpl; [|done]. intros [= <-]. by right.
    + unfold round_received. rewrite Hother by done. by left.
Qed.

(** The loop orders each pending event at most once. *)
Lemma ordered_order_loop `{HashOrder} famous round pending s :
  NoDup pending → (∀ h, h ∈ pending → round_received s h = None) →
  ordered_round round s (st_for pending (order_event famous round) s).2.
Proof.
  revert s. induction pending as [|h pending IH]; intros s Hnd Hnone; simpl; [done|].
  apply NoDup_cons in Hnd as [Hh Hnd].
  pose proof (ordered_order_event famous round h s (Hnone h ltac:(by left))) as Hstep.
  assert (∀ h', h' ≠ h → round_received (order_event famous round h s).2 h' = round_received s h') as Hkeep.
  { intros h' Hne. unfold order_event, mbind, stM_bind, st_lift.
    destruct (all_see s famous h) as [[]| |]; simpl; try done.
    destruct (collect_first_seen s famous h); simpl; try done.
    destruct (median_timestamp _); simpl; try done.
    unfold round_received, set_event_order. by rewrite get_alter, decide_False. }
  unfold mbind, stM_bind.
  destruct (order_event famous round h s) as [[[]| |] s1]; simpl in *; [|done..].
  etrans; [exact Hstep|]. apply IH; [done|].
  intros h' Hin. rewrite Hkeep by (intros ->; done). apply Hnone. by right.
Qed.

Lemma ordered_assign_order `{HashOrder} round s : ordered_round round s (assign_order round s).2.
Proof.
  unfold assign_order, mbind, stM_bind, st_get. cbn zeta. case_decide; [done|].
  apply ordered_order_loop; [apply pending_NoDup|]. by intros h [_ ?]%elem_of_pending.
Qed.

(** ** The voting machinery *)

Section final.
Context `{HashOrder} (s0 : Hashgraph) (B : N).
Context (Hg0 : graph_wf s0) (Hr0 : rounds_wf s0) (HB : bounded B s0).

Abbreviation I := (inv s0 B).

(** From an invariant state, [m] only extends the decisions. *)
Definition framed {A} (m : action A) : Prop := ∀ s, I s → final s (m s).2.

Lemma framed_ret {A} (a : A) : framed (mret a).
Proof. by intros s _. Qed.

Lemma framed_lift {A} (f : query A) : framed (st_lift f).
Proof. by intros s _. Qed.

Lemma framed_seq {A C} (m : action A) (f : A → action C) :
  safe I any m → framed m → (∀ a, framed (f a)) → framed (m ≫= f).
Proof.
  intros Hm Hf1 Hf2 s Hs. destruct (Hm s Hs) as (a & s' & Ha & Hs' & _).
  specialize (Hf1 s Hs). unfold mbind, stM_bind. rewrite Ha in *. simpl in *.
  etrans; [exact Hf1|]. by apply Hf2.
Qed.

Lemma framed_lift_bind {A C} (f : query A) (k : A → action C) :
  (∀ a, framed (k a)) → framed (st_lift f ≫= k).
Proof.
  intros Hk s Hs. unfold mbind, stM_bind, st_lift. destruct (f s); simpl; [by apply Hk|done..].
Qed.

Lemma framed_for {A} (xs : list A) (body : A → action unit) :
  (∀ x, x ∈ xs → safe I any (body x)) → (∀ x, x ∈ xs → framed (body x)) →
  framed (st_for xs body).
Proof.
  induction xs as [|x xs IH]; intros Hs Hf; simpl; [apply framed_ret|].
  apply framed_seq; [apply Hs; by left|apply Hf; by left|]. intros _.
  apply IH; intros; [apply Hs|apply Hf]; by right.
Qed.

Lemma framed_record_vote y w b : framed (st_modify (record_vote y w b)).
Proof. intros s _. apply final_record_vote. Qed.

(** Taking a round off the queue and ordering it. *)
Lemma final_order_step s :
  I s → next_round_to_order s ∈ fully_decided_rounds s →
  final s (assign_order (next_round_to_order s)
    (Upd.rounds (fully_decided_rounds s) (u64_wrapping_add (next_round_to_order s) 1) s)).2.
Proof.
  intros Hs Hin. pose proof (inv_decided _ _ _ Hs _ Hin). pose proof (bd_cap _ _ HB).
  rewrite u64_wrapping_add_small by lia. set (s1 := Upd.rounds _ _ s).
  pose proof (ordered_assign_order (next_round_to_order s) s1) as [Hv Hk Hf].
  split.
  - etrans; [apply same_skel_rounds|apply Hv].
  - intros h f Hfame _. by rewrite (fame_of_ballots _ _ _ Hv).
  - apply Hk.
  - intros h k [Hold| ->]%Hf; [by left|right; lia].
  - rewrite <- (sv_next _ _ Hv). simpl. lia.
  - by rewrite <- (sv_decided _ _ Hv).
Qed.

Lemma framed_order_loop fuel : framed (order_loop fuel).
Proof.
  induction fuel as [|fuel IH]; intros s Hs; simpl; unfold mbind, stM_bind; simpl.
  { by case_decide. }
  case_decide as Hin; [|done]. pose proof (final_order_step s Hs Hin) as Hstep.
  set (s1 := Upd.rounds _ _ s) in *.
  assert (I s1) as Hs1.
  { pose proof (inv_decided _ _ _ Hs _ Hin). pose proof (bd_cap _ _ HB).
    destruct Hs as [E1 E2 E3 E4]. split; [|done| |done].
    - etrans; [exact E1|apply same_skel_rounds].
    - simpl. rewrite u64_wrapping_add_small; lia. }
  destruct (safe_assign_order s0 B Hg0 Hr0 HB (next_round_to_order s) s1 Hs1) as ([] & s2 & Ha & Hs2 & _).
  rewrite Ha in *. simpl in Hstep. etrans; [exact Hstep|]. by apply IH.
Qed.

Lemma framed_order_decided_rounds : framed order_decided_rounds.
Proof. intros s Hs. by apply framed_order_loop. Qed.

Lemma framed_note_round round :
  round = 0%N ∨ (1 ≤ round ≤ B)%N → framed (note_round_decided_if_complete round).
Proof.
  intros Hround s Hs. unfold note_round_decided_if_complete. case_decide as Hz; [done|].
  destruct Hround as [|Hround]; [done|].
  unfold mbind at 1, stM_bind at 1, st_get at 1.
  destruct (has_undecided_witness s round); [done|].
  unfold mbind at 1, stM_bind at 1, st_lift at 1.
  destruct (round_view_complete s round) as [[]| |]; simpl; try done.
  unfold mbind at 1, stM_bind at 1; simpl. set (s1 := Upd.rounds _ _ s).
  assert (final s s1) as Hf1 by (split; try done; [by left|simpl; set_solver]).
  etrans; [exact Hf1|]. apply framed_order_decided_rounds.
  destruct Hs as [E1 E2 E3 E4]. split; simpl; [|set_solver|done|done].
  etrans; [exact E1|apply same_skel_rounds].
Qed.

(** Deciding a fame that is still open. *)
Lemma final_decide_fame w status s :
  I s → (∀ f, fame_of s w = Some f → f = Undecided) → final s (decide_fame w status s).2.
Proof.
  intros Hs Hopen. unfold decide_fame, mbind, stM_bind, st_modify, st_get.
  set (s1 := Upd.events _ s). set (s2 := Upd.witnesses _ _ _ s1).
  assert (final s s2) as Hf.
  { split; simpl; try done.
    - etrans; [apply same_skel_record_fame|apply same_skel_undecided].
    - intros h f Hf Hne. change (fame_of s1 h = Some f). unfold s1, fame_of. rewrite get_alter.
      case_decide as Hh; [subst; by rewrite (Hopen f) in Hne|done].
    - intros h k. change (round_received s2 h) with (round_received (Upd.events (alter (Upd.record_fame status) w) s) h).
      change (consensus_timestamp s2 h) with (consensus_timestamp (Upd.events (alter (Upd.record_fame status) w) s) h).
      destruct (received_alter (Upd.record_fame status) w s h) as [-> ->]; done.
    - intros h k. change (round_received s2 h) with (round_received (Upd.events (alter (Upd.record_fame status) w) s) h).
      destruct (received_alter (Upd.record_fame status) w s h) as [-> _]; [done..|]. by left. }
  assert (I s2) as Hs2.
  { destruct Hs as [E1 E2 E3 E4]. split; simpl; [|done|done|].
    - etrans; [exact E1|]. etrans; [apply same_skel_record_fame|apply same_skel_undecided].
    - intros h k [_ ?]%lookup_delete_Some. by apply E4. }
  etrans; [exact Hf|]. apply framed_note_round; [|done].
  destruct (get s2 w) as [r|] eqn:Hw; [right|by left].
  destruct (skel_get_Some _ _ _ _ (symmetry (inv_skel _ _ _ Hs2)) Hw) as (r0 & Hw0 & _ & _ & _ & -> & _).
  by eapply round_le.
Qed.

Lemma framed_try_eager_decide w : framed (try_eager_decide w).
Proof.
  intros s Hs. unfold try_eager_decide, mbind, stM_bind, st_get, st_lift.
  destruct (fame_settled s w) eqn:Hset; [done|].
  assert (∀ f, fame_of s w = Some f → f = Undecided) as Hopen.
  { unfold fame_settled in Hset. destruct (fame_of s w) as [[]|]; intros f Hf; by simplify_eq. }
  destruct (get s w) as [r|]; [|done]. cbn zeta.
  repeat (case_decide; [done|]).
  destruct (member_count_at_round s (u64_wrapping_add (rec_round r) 1)); simpl; try done.
  destruct (member_count_at_round s (u64_wrapping_add (rec_round r) 2)); simpl; try done.
  case_decide; [done|]. destruct (supermajority _ _); simpl; [|done].
  destruct (recorded_tally _ _ _) as [[yes no] seen].
  destruct (supermajority seen _); simpl; [|done]. case_decide; [done|].
  pose proof (final_decide_fame w Famous s Hs Hopen) as HF.
  pose proof (final_decide_fame w NotFamous s Hs Hopen) as HN.
  destruct (supermajority yes _); [|destruct (supermajority no _); [|done]].
  - by destruct (decide_fame w Famous s) as [[]].
  - by destruct (decide_fame w NotFamous s) as [[]].
Qed.

(** A cast vote decides nothing; other outcomes only extend the decisions. *)
Definition quiet {A} (cast : A → Prop) (m : action A) (s : Hashgraph) : Prop :=
  final s (m s).2 ∧
  ∀ a, (m s).1 = Ok a → cast a → ∀ h, fame_of (m s).2 h = fame_of s h.

Definition is_cast (o : VoteOutcome) : Prop := ∃ b, o = Cast b.
Definition is_tally (o : FameStatus + nat * nat) : Prop := ∃ p, o = inr p.

Lemma quiet_tally vote voters yes no s :
  I s → (∀ v, v ∈ voters → safe I any (vote v)) →
  (∀ v s, v ∈ voters → I s → quiet is_cast (vote v) s) →
  quiet is_tally (tally_votes vote voters yes no) s.
Proof.
  revert yes no s. induction voters as [|v voters IH]; intros yes no s Hs Hsafe Hq; simpl; [by split|].
  destruct (Hsafe v ltac:(by left) s Hs) as (o & s' & Ho & Hs' & _).
  destruct (Hq v s ltac:(by left) Hs) as [Hf Hc]. rewrite Ho in Hf, Hc. simpl in *.
  unfold quiet, mbind, stM_bind. rewrite Ho.
  destruct o as [b|status]; simpl.
  - specialize (Hc _ eq_refl ltac:(by eexists)).
    assert (∀ yes no, quiet is_tally (tally_votes vote voters yes no) s') as Hrest.
    { intros. apply IH; [done|intros; apply Hsafe; by right|intros; apply Hq; [by right|done]]. }
    destruct b; [destruct (Hrest (S yes) no) as [Hf' Hc']|destruct (Hrest yes (S no)) as [Hf' Hc']];
      (split; [by etrans|]); intros a Ha Hcast h; by rewrite (Hc' a Ha Hcast h).
  - split; [done|]. intros a [= <-] [p Hp]. done.
Qed.

Lemma quiet_conclude y w y_round w_round yes no s :
  I s → (∀ f, fame_of s w = Some f → f = Undecided) →
  quiet is_cast (conclude_vote y w y_round w_round yes no) s.
Proof.
  intros Hs Hopen. unfold conclude_vote, quiet, mbind, stM_bind, st_lift. cbn zeta.
  destruct (member_count_at_round s y_round) as [n| |]; try done.
  destruct (_ && _); [|destruct (supermajority _ _)].
  - destruct (coin_round_vote s y) as [b| |]; simpl; try done.
    split; [apply final_record_vote|]. intros. apply fame_of_record_vote.
  - pose proof (final_decide_fame w (if no <=? yes then Famous else NotFamous) s Hs Hopen) as Hf.
    destruct (decide_fame _ _ s) as [[?|?|?] s']; simpl in *; (split; [done|]); try done.
    intros a' [= <-] [b Hb]. done.
  - split; [apply final_record_vote|]. intros. apply fame_of_record_vote.
Qed.

(** One unfolding of [vote_of] on stored events. *)
Lemma vote_of_S fuel y w ry rw s :
  get s y = Some ry → get s w = Some rw →
  vote_of (S fuel) y w s =
  match default Undecided (fame_of s w) with
  | Famous => (Ok (Decided Famous), s)
  | NotFamous => (Ok (Decided NotFamous), s)
  | Undecided =>
      match vote_for ry w with
      | Some vote => (Ok (Cast vote), s)
      | None =>
          if decide (rec_round ry = u64_wrapping_add (rec_round rw) 1) then
            (vote ← st_lift (λ hg, see hg y w); st_modify (record_vote y w vote) ;;
             mret (Cast vote)) s
          else
            (strongly_seen ← st_lift (λ hg, strongly_seen_among hg y
               (witnesses_of_round hg (u64_wrapping_sub (rec_round ry) 1)));
             tally ← tally_votes (λ v, vote_of fuel v w) strongly_seen 0 0;
             match tally with
             | inl status => mret (Decided status)
             | inr (yes, no) => conclude_vote y w (rec_round ry) (rec_round rw) yes no
             end) s
      end
  end.
Proof.
  intros Hy Hw. cbn [vote_of]. unfold mbind at 1 2 3, stM_bind at 1 2 3, st_get at 1, st_lift at 1 2.
  rewrite Hy, Hw. cbn [ok_or]. cbn zeta.
  destruct (default Undecided (fame_of s w)); [|done..]. destruct (vote_for ry w); [done|].
  by case_decide.
Qed.

Lemma quiet_vote_of fuel y w ry rw s :
  get s0 y = Some ry → get s0 w = Some rw → (rec_round rw < rec_round ry)%N →
  (rec_round ry - rec_round rw ≤ N.of_nat fuel)%N → I s → quiet is_cast (vote_of fuel y w) s.
Proof.
  revert y ry s. induction fuel as [|fuel IH]; intros y ry s Hy Hw Hlt Hf Hs; [lia|].
  destruct (inv_get s0 B s y ry Hs Hy) as (ry' & Hy' & _ & _ & Ey & _).
  destruct (inv_get s0 B s w rw Hs Hw) as (rw' & Hw' & _ & _ & Ew & _).
  pose proof (round_le s0 B Hr0 HB _ _ Hy). pose proof (round_le s0 B Hr0 HB _ _ Hw).
  pose proof (bd_cap _ _ HB).
  unfold quiet. rewrite (vote_of_S fuel y w ry' rw' s Hy' Hw'), <- Ey, <- Ew.
  destruct (default Undecided (fame_of s w)) eqn:Hfame; [|done..].
  assert (∀ f, fame_of s w = Some f → f = Undecided) as Hopen
    by (intros f Hff; by rewrite Hff in Hfame).
  destruct (vote_for ry' w) as [vote|]; [done|].
  rewrite u64_wrapping_add_small by lia. case_decide as Hnext.
  - unfold mbind, stM_bind, st_lift. destruct (see s y w); simpl; try done.
    split; [apply final_record_vote|]. intros. apply fame_of_record_vote.
  - rewrite u64_wrapping_sub_small by (unfold is_u64; lia).
    unfold mbind at 1 3 5, stM_bind at 1 3 5, st_lift at 1 2 3. rewrite (inv_witnesses s0 B) by done.
    destruct (strongly_seen_among_Ok s0 B Hg0 Hr0 s y (witnesses_of_round s0 (rec_round ry - 1)) Hs)
      as (l & -> & Hl); [by eexists| |].
    { intros v (rv & Hv & _)%(rd_listed _ Hr0). by eexists. }
    assert (∀ v, v ∈ l → ∃ rv, get s0 v = Some rv ∧ rec_round rv = (rec_round ry - 1)%N) as Hvs
      by (intros v (rv & ? & _ & ?)%Hl%(rd_listed _ Hr0); eauto).
    assert (∀ v, v ∈ l → safe I any (vote_of fuel v w)) as Hsafe.
    { intros v (rv & Hv & Hrv)%Hvs. eapply safe_vote_of; [done..|lia|lia]. }
    destruct (quiet_tally (λ v, vote_of fuel v w) l 0 0 s Hs Hsafe) as [Hft Hct].
    { intros v s1 (rv & Hv & Hrv)%Hvs Hs1. apply (IH v rv); [done..|lia|lia|done]. }
    destruct (safe_tally_votes s0 B (λ v, vote_of fuel v w) l 0 0 Hsafe s Hs) as (o & s1 & Ho & Hs1 & _).
    unfold mbind, stM_bind. rewrite Ho in *. simpl in *. destruct o as [status|[yes no]]; simpl.
    + split; [done|]. intros a [= <-] [b Hb]. done.
    + specialize (Hct _ eq_refl ltac:(by eexists)).
      destruct (quiet_conclude y w (rec_round ry) (rec_round rw) yes no s1 Hs1) as [Hfc Hcc].
      { intros f. rewrite Hct. apply Hopen. }
      split; [by etrans|]. intros a Ha Hcast h. by rewrite (Hcc a Ha Hcast h).
Qed.

Lemma framed_vote_on y w ry rw :
  get s0 y = Some ry → get s0 w = Some rw → (rec_round rw < rec_round ry)%N →
  framed (vote_on y w).
Proof.
  intros Hy Hw Hlt s Hs. unfold vote_on, mbind, stM_bind, st_get.
  eapply quiet_vote_of; [done..| |done].
  unfold vote_fuel. rewrite <- (skel_highest _ _ (inv_skel _ _ _ Hs)).
  pose proof (rd_highest _ Hr0 _ _ Hy). lia.
Qed.

(** [framed] of what remains after reading the state. *)
Lemma framed_get_bind {A} (f : Hashgraph → action A) :
  (∀ s, I s → final s (f s s).2) → framed (st_get ≫= f).
Proof. intros Hf s Hs. by apply Hf. Qed.

Lemma framed_backfill n y ry round :
  get s0 y = Some ry → (rec_round ry < round)%N → framed (backfill n y round).
Proof.
  intros Hy. revert round. induction n as [|n IH]; intros round Hround; simpl; [apply framed_ret|].
  apply framed_get_bind. intros s Hs. destruct (fame_settled s y); [done|].
  rewrite (inv_witnesses s0 B) by done. revert s Hs.
  match goal with |- ∀ s, I s → final s (?m s).2 => change (framed m) end.
  assert (∀ v, v ∈ witnesses_of_round s0 round →
    safe I any (vote_on v y;; mret tt) ∧ framed (vote_on v y;; mret tt)) as Hvoters.
  { intros v (rv & Hv & _ & Hk)%(rd_listed _ Hr0).
    assert (safe I any (vote_on v y)) as Hsafe by (by eapply safe_vote_on; [done..|lia]).
    split; [apply safe_seq; [done|]; intros; by apply safe_ret|].
    apply framed_seq; [done|by eapply framed_vote_on; [done..|lia]|]. intros. apply framed_ret. }
  apply framed_seq; [by apply safe_for; intros; apply Hvoters|by apply framed_for; intros; apply Hvoters|].
  intros _. apply framed_get_bind. intros s Hs. case_decide as Hc; [|by apply IH; [lia|]].
  clear Hc. revert s Hs.
  match goal with |- ∀ s, I s → final s (?m s).2 => change (framed m) end.
  apply framed_seq; [by apply safe_try_eager_decide|apply framed_try_eager_decide|]. intros _.
  apply framed_get_bind. intros s Hs. destruct (fame_settled s y); [done|]. by apply IH; [lia|].
Qed.

Lemma framed_vote_as_witness y ry : get s0 y = Some ry → framed (vote_as_witness y).
Proof.
  intros Hy s Hs. unfold vote_as_witness, mbind at 1, stM_bind at 1, st_lift at 1.
  destruct (inv_get s0 B s y ry Hs Hy) as (r & -> & _ & _ & Er & _). cbn [expect]. cbn zeta.
  rewrite <- Er. clear r Er. unfold mbind at 1, stM_bind at 1, st_get at 1.
  assert (∀ c, c ∈ vote_candidates s (rec_round ry) →
    ∃ rc, get s0 c = Some rc ∧ (rec_round rc < rec_round ry)%N) as Hcand.
  { intros c ([h k] & -> & [Hlt Hin%elem_of_hm_iter]%list_elem_of_filter)%list_elem_of_fmap.
    destruct (inv_undecided _ _ _ Hs _ _ Hin) as (rc & ? & _ & <-). eauto. }
  revert Hcand. generalize (vote_candidates s (rec_round ry)) as cands. intros cands Hcand.
  assert (∀ c, c ∈ cands →
    safe I any (vote_on y c;; try_eager_decide c;; mret tt) ∧
    framed (vote_on y c;; try_eager_decide c;; mret tt)) as Hbody.
  { intros c (rc & Hc & Hlt)%Hcand.
    assert (safe I any (vote_on y c)) by (by eapply safe_vote_on).
    assert (safe I any (try_eager_decide c)) by (by apply safe_try_eager_decide).
    split; [do 2 (apply safe_seq; [done|]; intros); by apply safe_ret|].
    apply framed_seq; [done|by eapply framed_vote_on|]. intros _.
    apply framed_seq; [done|apply framed_try_eager_decide|]. intros. apply framed_ret. }
  revert s Hs. match goal with |- ∀ s, I s → final s (?m s).2 => change (framed m) end.
  apply framed_seq; [by apply safe_for; intros; apply Hbody|by apply framed_for; intros; apply Hbody|].
  intros _. apply framed_get_bind. intros s Hs.
  pose proof (round_le s0 B Hr0 HB _ _ Hy). pose proof (bd_cap _ _ HB).
  rewrite u64_wrapping_add_small by lia.
  generalize (N.to_nat (highest_witness_round s + 1 - (rec_round ry + 1))). intros n.
  revert s Hs. match goal with |- ∀ s, I s → final s (?m s).2 => change (framed m) end.
  apply framed_seq; [by eapply safe_backfill; [done..|lia]|by eapply framed_backfill; [done|lia]|].
  intros _. apply framed_get_bind. intros s Hs. case_decide; [|done].
  pose proof (framed_try_eager_decide y s Hs) as Hf. unfold mbind, stM_bind.
  by destruct (try_eager_decide y s) as [[?|?|?] s'].
Qed.
End final.

(** ** Insertion is final *)

(** What insertion keeps of the state before it, the new event aside. *)
Record extends (s s' : Hashgraph) : Prop := {
  ext_records : ∀ h r, get s h = Some r → ∃ r', get s' h = Some r' ∧
    rec_event r' = rec_event r ∧ rec_seq r' = rec_seq r ∧
    rec_ancestor_seqs r' = rec_ancestor_seqs r ∧
    rec_round r' = rec_round r ∧ rec_is_witness r' = rec_is_witness r;
  ext_fame : ∀ h f, fame_of s h = Some f → f ≠ Undecided → fame_of s' h = Some f;
  ext_received : ∀ h k, round_received s h = Some k →
    round_received s' h = Some k ∧ consensus_timestamp s' h = consensus_timestamp s h;
  ext_fresh : ∀ h k, round_received s' h = Some k →
    round_received s h = Some k ∨ (next_round_to_order s ≤ k)%N;
  ext_next : (next_round_to_order s ≤ next_round_to_order s')%N;
  ext_decided : fully_decided_rounds s ⊆ fully_decided_rounds s';
}.

#[export] Instance extends_preorder : PreOrder extends.
Proof.
  split.
  - intros s. split; try done; [by eauto 10|by left].
  - intros s1 s2 s3 [A1 A2 A3 A4 A5 A6] [B1 B2 B3 B4 B5 B6]. split.
    + intros h r (r2 & Hr2 & E1 & E2 & E3 & E4 & E5)%A1.
      destruct (B1 h r2 Hr2) as (r3 & Hr3 & F1 & F2 & F3 & F4 & F5).
      exists r3. split_and!; congruence.
    + intros h f Hf Hne. by apply B2; [apply A2|].
    + intros h k (Hk & Ht)%A3. apply B3 in Hk as [? ?]. split; congruence.
    + intros h k [Hk|Hk]%B4; [by apply A4|right; lia].
    + lia.
    + set_solver.
Qed.

Lemma final_extends s s' : final s s' → extends s s'.
Proof.
  intros [H1 H2 H3 H4 H5 H6]. split; try done.
  intros h r (r' & ? & ? & ? & ? & ? & ?)%(skel_get_Some _ _ _ _ H1). exists r'. split_and!; congruence.
Qed.

(** The already ordered rounds keep their order, event by event. *)
Lemma extends_consensus_order `{HashOrder} s s' k :
  extends s s' → (k < next_round_to_order s)%N → consensus_order s' k = consensus_order s k.
Proof.
  intros [H1 H2 H3 H4 H5 H6] Hk. apply consensus_order_ext.
  intros key. rewrite !list_elem_of_fmap. split.
  - intros ([h r'] & -> & [Hr' Hrr]%elem_of_received_entries).
    assert (round_received s' h = Some k) as Hs' by (unfold round_received; by rewrite Hr').
    destruct (H4 h k Hs') as [Hs|]; [|lia]. destruct (H3 h k Hs) as [_ Hts].
    unfold round_received, consensus_timestamp in Hs, Hts.
    destruct (get s h) as [r|] eqn:Hr; simpl in *; [|done].
    destruct (H1 h r Hr) as (r2 & Hr2 & He & _). rewrite Hr' in *. simplify_eq. simpl in *.
    exists (h, r). split; [|by apply elem_of_received_entries]. unfold okey; simpl. by rewrite Hts, He.
  - intros ([h r] & -> & [Hr Hrr]%elem_of_received_entries).
    assert (round_received s h = Some k) as Hs by (unfold round_received; by rewrite Hr).
    destruct (H3 h k Hs) as [Hs' Hts]. destruct (H1 h r Hr) as (r' & Hr' & He & _).
    unfold round_received, consensus_timestamp in *. rewrite Hr, Hr' in *. simpl in *.
    exists (h, r'). split; [|by apply elem_of_received_entries]. unfold okey; simpl. by rewrite Hts, He.
Qed.

Section insert_final.
Context `{Sha256, HashOrder} (B : N) (g : Hashgraph) (e : Event).
Context (Hsig : length (signature e) = 64) (Hcap : (B + 4 < u64_modulus)%N).

Lemma inserted_old hash i sp op g2 h r :
  inserted B g e hash i sp op g2 → get g h = Some r → get g2 h = Some r.
Proof.
  intros [Hck (g1 & sq & row & total & Hst & _ & _ & ->) _ _ _ _] Hh.
  by apply (fin_old g g1 e hash i sp op sq row).
Qed.

Lemma inserted_new hash i sp op g2 :
  inserted B g e hash i sp op g2 → ∃ r, get g2 hash = Some r ∧ rec_event r = e ∧
    rec_fame r = Undecided ∧ rec_round_received r = None.
Proof.
  intros [_ (g1 & sq & row & total & Hst & _ & _ & ->) _ _ _ _].
  eexists. split; [by apply (fin_new g g1 e hash i sp op sq row)|done].
Qed.

Lemma inserted_inv hash i sp op g2 h r :
  inserted B g e hash i sp op g2 → get g2 h = Some r → h = hash ∨ get g h = Some r.
Proof.
  intros [_ (g1 & sq & row & total & Hst & _ & _ & ->) _ _ _ _] Hh.
  destruct (fin_inv g g1 e hash i sp op sq row Hst _ _ h r Hh) as [[-> _]|]; auto.
Qed.

Lemma inserted_extends hash i sp op g2 : inserted B g e hash i sp op g2 → extends g g2.
Proof.
  intros Hins. pose proof Hins as [Hck (g1 & sq & row & total & Hst & _ & _ & Hg2) _ _ _ _].
  split.
  - intros h r Hh. exists r. split; [by eapply inserted_old|done].
  - intros h f. unfold fame_of. destruct (get g h) as [r|] eqn:Hh; [|done].
    by rewrite (inserted_old _ _ _ _ _ _ _ Hins Hh).
  - intros h k. unfold round_received, consensus_timestamp.
    destruct (get g h) as [r|] eqn:Hh; [|done]. by rewrite (inserted_old _ _ _ _ _ _ _ Hins Hh).
  - intros h k. unfold round_received. destruct (get g2 h) as [r|] eqn:Hh; [|done]. simpl. intros Hk.
    destruct (inserted_inv _ _ _ _ _ _ _ Hins Hh) as [->|Hold].
    + destruct (inserted_new _ _ _ _ _ Hins) as (r' & Hr' & _ & _ & Hn). congruence.
    + left. by rewrite Hold.
  - cbn zeta in Hg2. subst g2. unfold finalized. destruct (match rec_round <$> sp with None => _ | Some s => _ end);
      simpl; by rewrite (st_next _ _ _ _ _ _ _ _ _ Hst).
  - cbn zeta in Hg2. subst g2. unfold finalized. destruct (match rec_round <$> sp with None => _ | Some s => _ end);
      simpl; by rewrite (st_decided _ _ _ _ _ _ _ _ _ Hst).
Qed.

Lemma settle_final hash i sp op g2 g' :
  inserted B g e hash i sp op g2 → settle hash g2 = (Ok tt, g') → final g2 g'.
Proof.
  intros Hins Hrun. destruct (settle_Ok B g e Hsig Hcap hash i sp op g2 Hins)
    as (g3 & g4 & Hv & Hi3 & Hn & Hs & Hi4). assert (g' = g4) as -> by congruence.
  destruct Hins as [_ _ Hg2 Hr2 Hb2 Hi2].
  transitivity g3.
  - unfold mbind, stM_bind, st_get in Hv. cbn beta iota in Hv.
    destruct (get g2 hash) as [r|] eqn:Hh; [|by injection Hv as <-].
    destruct (rec_is_witness r); [|by injection Hv as <-].
    pose proof (framed_vote_as_witness g2 (B + 1) Hg2 Hr2 Hb2 hash r Hh g2 Hi2) as Hf.
    by rewrite Hv in Hf.
  - assert (bounded (B + 2) g2) as Hb2' by (eapply bounded_mono; [| |exact Hb2]; lia).
    assert (inv g2 (B + 2) g3) as Hi3' by (eapply inv_mono; [|exact Hi3]; lia).
    assert (next_round_to_order g3 = 0 ∨ 1 ≤ next_round_to_order g3 ≤ B + 2)%N as Hnext
      by (right; pose proof (inv_next _ _ _ Hi3); lia).
    pose proof (framed_note_round g2 (B + 2) Hg2 Hr2 Hb2' _ Hnext g3 Hi3') as Hf.
    by rewrite Hn in Hf.
Qed.

Lemma insert_extends r g' :
  ready B g → (1 ≤ B)%N → insert e g = (r, g') → extends g g'.
Proof.
  intros Hready HB1 Hrun.
  destruct (insert_total B g e Hready Hsig Hcap HB1)
    as [[err Herr]|(hash & i & sp & op & g2 & g3 & Hok & Hs & Hins & _)].
  - assert (g' = g) as -> by congruence. done.
  - assert (g' = g3) as -> by congruence. etrans; [by eapply inserted_extends|].
    apply final_extends. by eapply settle_final.
Qed.
End insert_final.

(** Reaching [g'] from [g] by [n] further operations. *)
Inductive later `{Sha256, HashOrder} (g : Hashgraph) : nat → Hashgraph → Prop :=
| later_refl : later g 0 g
| later_insert n g1 g2 e r :
    later g n g1 → wf_event e → insert e g1 = (r, g2) → later g (S n) g2.

Lemma later_extends `{Sha256, HashOrder} B g n g' :
  later g n g' → ready B g → (1 ≤ B)%N → (B + 2 * N.of_nat n + 2 < u64_modulus)%N →
  extends g g' ∧ ready (B + 2 * N.of_nat n) g'.
Proof.
  intros Hl Hr HB1. induction Hl as [|n g1 g2 e r Hl IH He Hins]; intros Hcap.
  - split; [done|]. by rewrite N.mul_0_r, N.add_0_r.
  - destruct IH as [Hext Hr1]; [lia|]. split.
    + etrans; [exact Hext|]. eapply (insert_extends (B + 2 * N.of_nat n) g1 e);
        [apply He|lia|done|lia|done].
    + destruct (insert_total _ g1 e Hr1 (wf_signature _ He))
        as [[err Herr]|(h & i & sp & op & g3 & g4 & Hok & _ & _ & _ & Hr4)]; [lia|lia|..].
      * assert (g2 = g1) as -> by congruence. eapply ready_mono; [| |exact Hr1]; lia.
      * assert (g2 = g4) as -> by congruence. eapply ready_mono; [| |exact Hr4]; lia.
Qed.
