(* ===== verification/Agreement.v ===== *)
(** * Agreement on rounds

    Two nodes hold different graphs: they received events in different
    orders, know of different forks and iterate their hash maps differently.
    What either computes for an event (its sequence number, its ancestor row,
    its round and whether it is a witness) is nevertheless a function of the
    event's ancestry alone, so the two agree on every event both have.  The
    proof shows that [see], the walk of [member_chain_reaches] and
    [strongly_see_at] read nothing outside the ancestry, states rows and
    rounds as rules over that ancestry which [insert] maintains
    ([determined]), and runs an induction over the ancestor order. *)

From S2P Require Import Prelude Codec External Primitives Membership Graph Ancestry Reach Order.
From S2P Require Import Fame Insert Wf Quorum Store Rounds Voting Reachable Finality.

(** The ancestry of [x] in [g1] is stored with the same events, sequence
    numbers and rows in [g2]. *)
Definition agree_below (g1 g2 : Hashgraph) (x : EventHash) : Prop :=
  ∀ y, anc g1 x y → ∃ r1 r2, get g1 y = Some r1 ∧ get g2 y = Some r2 ∧ rec_shape r1 = rec_shape r2.

Lemma shape_event r1 r2 : rec_shape r1 = rec_shape r2 → rec_event r1 = rec_event r2.
Proof. by intros [= ? ? ?]. Qed.

Lemma shape_seq r1 r2 : rec_shape r1 = rec_shape r2 → rec_seq r1 = rec_seq r2.
Proof. by intros [= ? ? ?]. Qed.

Lemma shape_row r1 r2 : rec_shape r1 = rec_shape r2 → rec_ancestor_seqs r1 = rec_ancestor_seqs r2.
Proof. by intros [= ? ? ?]. Qed.

Lemma agree_at g1 g2 x y r1 :
  agree_below g1 g2 x → anc g1 x y → get g1 y = Some r1 →
  ∃ r2, get g2 y = Some r2 ∧ rec_event r2 = rec_event r1 ∧ rec_seq r2 = rec_seq r1 ∧
    rec_ancestor_seqs r2 = rec_ancestor_seqs r1.
Proof.
  intros Ha Hy H1. destruct (Ha y Hy) as (r & r2 & Hr & H2 & Hs).
  rewrite H1 in Hr. injection Hr as <-. injection Hs as ? ? ?. eauto.
Qed.

Section agree.
Context (g1 g2 : Hashgraph).

Lemma agree_sub x z : agree_below g1 g2 x → anc g1 x z → agree_below g1 g2 z.
Proof. intros Ha Hz y Hy. apply Ha. by etrans. Qed.

Lemma agree_anc_to x y : agree_below g1 g2 x → anc g1 x y → anc g2 x y.
Proof.
  intros Ha Hy. revert Ha. induction Hy as [x|x p y Hp Hy IH]; intros Ha; [done|].
  assert (anc g1 x p) as Hxp by (by apply rtc_once).
  destruct (Ha x) as (r1 & r2 & H1 & H2 & Hs); [done|].
  eapply rtc_l; [|apply IH; by eapply agree_sub].
  destruct Hp as (r & Hr & Hin). exists r2. split; [done|].
  rewrite <- (shape_event _ _ Hs). by simplify_eq.
Qed.

Lemma agree_anc_from x y : agree_below g1 g2 x → anc g2 x y → anc g1 x y.
Proof.
  intros Ha Hy. revert Ha. induction Hy as [x|x p y Hp Hy IH]; intros Ha; [done|].
  destruct (Ha x) as (r1 & r2 & H1 & H2 & Hs); [done|].
  assert (parent_of g1 x p) as Hp1.
  { destruct Hp as (r & Hr & Hin). exists r1. split; [done|].
    rewrite (shape_event _ _ Hs). by simplify_eq. }
  eapply rtc_l; [exact Hp1|]. apply IH. eapply agree_sub; [exact Ha|by apply rtc_once].
Qed.
End agree.

Lemma agree_sym g1 g2 x : agree_below g1 g2 x → agree_below g2 g1 x.
Proof.
  intros Ha y Hy. destruct (Ha y) as (r1 & r2 & ? & ? & ?); [by eapply agree_anc_from|].
  by exists r2, r1.
Qed.

Section agree_forks.
Context (g1 g2 : Hashgraph) (x : EventHash) (Ha : agree_below g1 g2 x).

Lemma agree_anc y : anc g1 x y ↔ anc g2 x y.
Proof. split; [by apply agree_anc_to|by apply agree_anc_from]. Qed.

Lemma agree_made_by c s y : anc g1 x y → made_by g1 c s y ↔ made_by g2 c s y.
Proof.
  intros Hy. destruct (Ha y Hy) as (r1 & r2 & H1 & H2 & Hs).
  unfold made_by. rewrite H1, H2.
  pose proof (shape_event _ _ Hs) as He.
  pose proof (shape_seq _ _ Hs) as Hq.
  split; intros (r & Hr & ? & ?); simplify_eq; eexists; (split; [done|]); split; congruence.
Qed.

Lemma agree_forks_to c : forks_below g1 x c → forks_below g2 x c.
Proof.
  intros (y1 & y2 & r1 & r2 & Hne & Hy1 & Hy2 & H1 & H2 & Hc1 & Hc2 & Hq).
  destruct (agree_at _ _ _ _ _ Ha Hy1 H1) as (r1' & H1' & He1 & Hs1 & _).
  destruct (agree_at _ _ _ _ _ Ha Hy2 H2) as (r2' & H2' & He2 & Hs2 & _).
  exists y1, y2, r1', r2'. rewrite He1, He2, Hs1, Hs2.
  split_and!; try done; by apply agree_anc.
Qed.

Lemma agree_sees_to y : sees g1 x y → (∀ c, forks_below g2 x c → forks_below g1 x c) → sees g2 x y.
Proof.
  intros (ry & Hy & Hanc & Hnf) Hf. destruct (agree_at _ _ _ _ _ Ha Hanc Hy) as (r2 & H2 & He & _).
  exists r2. rewrite He. split_and!; [done|by apply agree_anc|].
  intros ?%Hf. done.
Qed.
End agree_forks.

Lemma agree_forks g1 g2 x c : agree_below g1 g2 x → forks_below g1 x c ↔ forks_below g2 x c.
Proof.
  intros Ha. split; apply agree_forks_to; [done|by apply agree_sym].
Qed.

Lemma agree_sees g1 g2 x y : agree_below g1 g2 x → sees g1 x y ↔ sees g2 x y.
Proof.
  intros Ha. split; intros Hs; (eapply agree_sees_to; [|exact Hs|]);
    [done| |by apply agree_sym|]; intros c; by rewrite (agree_forks g1 g2).
Qed.

(** The search for a creator's event visits the ancestry in an order that
    depends on the ancestry alone. *)
Lemma agree_search g1 g2 x c s : agree_below g1 g2 x → ∀ f1 f2 v q o1 o2,
  (∀ h, h ∈ q → anc g1 x h) →
  ancestor_event_loop f1 g1 c s v q = Ok o1 → ancestor_event_loop f2 g2 c s v q = Ok o2 → o1 = o2.
Proof.
  intros Ha f1. induction f1 as [|f1 IH]; intros f2 v [|h q] o1 o2 Hq; simpl; try done;
    try (destruct f2; simpl; congruence).
  destruct f2 as [|f2]; [done|]. simpl.
  assert (∀ h, h ∈ q → anc g1 x h) as Hq' by (intros; apply Hq; by right).
  case_decide; [by apply IH|].
  assert (anc g1 x h) as Hh by (apply Hq; by left).
  destruct (Ha h Hh) as (r1 & r2 & H1 & H2 & Hs). rewrite H1, H2.
  rewrite (shape_event _ _ Hs), (shape_seq _ _ Hs). case_decide; [congruence|].
  unfold push_parents. rewrite H1, H2, (shape_event _ _ Hs). apply IH.
  intros p [?|Hp]%elem_of_app; [by apply Hq'|]. eapply rtc_r; [exact Hh|].
  exists r1. by rewrite (shape_event _ _ Hs).
Qed.

(** ** [strongly_see_at] *)

Section agree_strongly.
Context (g1 g2 : Hashgraph) (Hg1 : graph_wf g1) (Hg2 : graph_wf g2).
Context (Hmi : member_index g1 = member_index g2).
Context (x : EventHash) (Ha : agree_below g1 g2 x).
Context (r1 r2 : EventRecord) (Hx1 : get g1 x = Some r1) (Hx2 : get g2 x = Some r2).
Context (y : EventHash) (ry1 ry2 : EventRecord) (Hy1 : get g1 y = Some ry1) (Hy2 : get g2 y = Some ry2).

Lemma agree_self_shape : rec_shape r1 = rec_shape r2.
Proof. destruct (Ha x) as (? & ? & ? & ? & ?); [done|]. congruence. Qed.

Lemma agree_chain_start c i s h1 h2 f1 f2 :
  member_index g1 !! c = Some i →
  known_forkers g1 !! i = Some f1 → known_forkers g2 !! i = Some f2 →
  anc g1 x h1 → anc g2 x h2 → made_by g1 c s h1 → made_by g2 c s h2 →
  (f1 = true → ancestor_event_for_creator g1 x c s = Ok (Some h1)) →
  (f2 = true → ancestor_event_for_creator g2 x c s = Ok (Some h2)) → h1 = h2.
Proof.
  intros Hi Hf1 Hf2 Ha1 Ha2 Hm1 Hm2 Hs1 Hs2.
  destruct f1; [destruct f2|].
  - assert (Some h1 = Some h2) as [= ->]; [|done].
    eapply (agree_search g1 g2 x c s Ha _ _ ∅ [x]); [|by apply Hs1|by apply Hs2].
    by intros h ->%list_elem_of_singleton.
  - eapply (wf_made_by_unique g2 Hg2 c i s); [by rewrite <- Hmi|done| |done].
    by apply (agree_made_by g1 g2 x Ha).
  - eapply (wf_made_by_unique g1 Hg1 c i s); [done|done|done|].
    apply (agree_made_by g1 g2 x Ha); [by apply (agree_anc g1 g2 x Ha)|done].
Qed.

Lemma agree_walk h z :
  anc g1 x h → rtc (self_parent_of g1) h z ∧ sees g1 z y → rtc (self_parent_of g2) h z ∧ sees g2 z y.
Proof.
  intros Hh [Hz Hs]. revert Hh. induction Hz as [h|h p z Hp Hz IH]; intros Hh.
  - split; [done|]. apply (agree_sees g1 g2); [|done]. by eapply agree_sub.
  - destruct (Ha h Hh) as (rh1 & rh2 & H1 & H2 & He%shape_event).
    destruct Hp as (r & Hr & Hp). rewrite H1 in Hr. injection Hr as <-.
    destruct (IH Hs) as [Hz2 Hs2].
    { etrans; [exact Hh|]. by eapply self_parent_anc. }
    split; [|done]. eapply rtc_l; [|exact Hz2]. exists rh2. by rewrite <- He.
Qed.
End agree_strongly.

Lemma agree_reaches g1 g2 x y r1 r2 ry1 ry2 c i s :
  graph_wf g1 → graph_wf g2 → member_index g1 = member_index g2 → agree_below g1 g2 x →
  get g1 x = Some r1 → get g2 x = Some r2 → get g1 y = Some ry1 → get g2 y = Some ry2 →
  member_index g1 !! c = Some i → rec_ancestor_seqs r1 !! i = Some s → s ≠ 0%N →
  member_chain_reaches g1 x c i s y = member_chain_reaches g2 x c i s y.
Proof.
  intros Hg1 Hg2 Hmi Ha Hx1 Hx2 Hy1 Hy2 Hi Hs Hne.
  assert (rec_ancestor_seqs r2 !! i = Some s) as Hs2
    by (by rewrite <- (shape_row _ _ (agree_self_shape _ _ _ Ha _ _ Hx1 Hx2))).
  assert (member_index g2 !! c = Some i) as Hi2 by congruence.
  destruct (chain_start g1 Hg1 x r1 Hx1 c i s Hi Hs Hne) as (f1 & h1 & Hf1 & Ha1 & Hm1 & Hst1).
  destruct (chain_start g2 Hg2 x r2 Hx2 c i s Hi2 Hs2 Hne) as (f2 & h2 & Hf2 & Ha2 & Hm2 & Hst2).
  assert (h1 = h2) as <-.
  { eapply (agree_chain_start g1 g2 Hg1 Hg2 Hmi x Ha c i s h1 h2 f1 f2); try done;
      by intros ->. }
  destruct Hm1 as (rh1 & Hh1 & _), Hm2 as (rh2 & Hh2 & _).
  destruct (chain_walk_spec g1 Hg1 (walk_fuel g1) ∅ y ry1 h1 rh1 Hy1 Hh1) as (b1 & Hb1 & Hiff1);
    [set_solver|unfold walk_fuel; lia|].
  destruct (chain_walk_spec g2 Hg2 (walk_fuel g2) ∅ y ry2 h1 rh2 Hy2 Hh2) as (b2 & Hb2 & Hiff2);
    [set_solver|unfold walk_fuel; lia|].
  assert (b1 = b2) as Hb.
  { apply eq_bool_prop_intro. rewrite !Is_true_true, Hiff1, Hiff2.
    split; intros (z & Hz); exists z.
    - eapply agree_walk; [exact Ha|exact Ha1|exact Hz].
    - eapply agree_walk; [apply agree_sym, Ha|exact Ha2|exact Hz]. }
  unfold member_chain_reaches, creator_has_known_fork. rewrite Hf1, Hf2. simpl.
  rewrite Hb in Hb1. destruct f1, f2; rewrite ?Hst1, ?Hst2; exact (eq_trans Hb1 (eq_sym Hb2)).
Qed.

Lemma agree_counted g1 g2 x y r1 r2 ry1 ry2 m :
  graph_wf g1 → graph_wf g2 → member_index g1 = member_index g2 → agree_below g1 g2 x →
  get g1 x = Some r1 → get g2 x = Some r2 → get g1 y = Some ry1 → get g2 y = Some ry2 →
  member_index g1 !! m.1 = Some m.2 →
  counted g1 x y r1 m = counted g2 x y r2 m.
Proof.
  intros Hg1 Hg2 Hmi Ha Hx1 Hx2 Hy1 Hy2 Hm. unfold counted.
  rewrite <- (shape_row _ _ (agree_self_shape _ _ _ Ha _ _ Hx1 Hx2)).
  destruct (rec_ancestor_seqs r1 !! m.2) as [s|] eqn:Hs; [|done]. case_decide; [done|].
  by rewrite (agree_reaches g1 g2 x y r1 r2 ry1 ry2 m.1 m.2 s).
Qed.

(** Two observers with the same roster size, whatever the iteration order of
    their member maps. *)
Lemma agree_strongly_see (o1 o2 : HashOrder) g1 g2 x y ry1 ry2 k n :
  graph_wf g1 → graph_wf g2 → member_index g1 = member_index g2 → agree_below g1 g2 x →
  get g1 y = Some ry1 → get g2 y = Some ry2 →
  member_count_at_round g1 k = Ok n → member_count_at_round g2 k = Ok n →
  strongly_see_at (H := o1) g1 x y k = strongly_see_at (H := o2) g2 x y k.
Proof.
  intros Hg1 Hg2 Hmi Ha Hy1 Hy2 Hn1 Hn2.
  destruct (Ha x) as (r1 & r2 & Hx1 & Hx2 & _); [done|].
  destruct (strongly_see_at_spec g1 Hg1 x y r1 ry1 Hx1 Hy1 (H := o1) k n Hn1) as (b1 & -> & Hb1).
  destruct (strongly_see_at_spec g2 Hg2 x y r2 ry2 Hx2 Hy2 (H := o2) k n Hn2) as (b2 & -> & Hb2).
  f_equal. apply eq_bool_prop_intro. rewrite !Is_true_true, Hb1, Hb2, (agree_sees g1 g2 x y Ha).
  assert (length (counted_members g1 x y r1 (H := o1)) = length (counted_members g2 x y r2 (H := o2)))
    as ->; [|done].
  apply Permutation_length. unfold counted_members.
  assert (∀ m, m ∈ member_index_iter (H := o1) g1 ↔ m ∈ member_index_iter (H := o2) g2) as Hit.
  { intros [c i]. unfold member_index_iter. by rewrite !elem_of_hm_iter, Hmi. }
  apply NoDup_Permutation; [apply NoDup_filter..|].
  1-2: unfold member_index_iter, hm_iter; rewrite hash_order_perm; apply NoDup_map_to_list.
  intros [c i]. rewrite !list_elem_of_filter, <- Hit. split; intros [Hc Hm]; (split; [|done]);
    rewrite <- Hc; [symmetry|]; eapply agree_counted; eauto; by apply elem_of_hm_iter in Hm.
Qed.

(** ** Rows and rounds as rules over the ancestry *)

(** The witnesses of round [base], other than [x], that [x] strongly sees. *)
Definition climbers `{HashOrder} (g : Hashgraph) (x : EventHash) (base : N) : list EventHash :=
  filter (λ w, w ≠ x ∧ strongly_sees g base x w = true) (witnesses_of_round g base).

Definition parent_row (g : Hashgraph) (p : option EventHash) (j : nat) : N :=
  parent_slot (p ≫= get g) j.

Record determined `{Sha256, HashOrder} (genesis : MembershipRegistry) (g : Hashgraph) : Prop := {
  dt_index : member_index g = member_index (new genesis);
  dt_count : member_count g = member_count (new genesis);
  dt_roster : roster_history g = roster_history (new genesis);
  dt_hash : ∀ h r, get g h = Some r → event_hash (rec_event r) = Ok h ∧ wf_event (rec_event r);
  dt_row : ∀ h r i j, get g h = Some r → member_index g !! creator (rec_event r) = Some i →
    j < member_count g →
    rec_ancestor_seqs r !! j = Some (if decide (j = i) then rec_seq r else
      N.max (parent_row g (self_parent (rec_event r)) j) (parent_row g (other_parent (rec_event r)) j));
  dt_round : ∀ h r total, get g h = Some r →
    member_count_at_round g (base_of g (rec_event r)) = Ok total →
    rec_round r = if supermajority (length (climbers g h (base_of g (rec_event r)))) total
                  then (base_of g (rec_event r) + 1)%N else base_of g (rec_event r);
}.

Lemma new_determined `{Sha256, HashOrder} genesis : determined genesis (new genesis).
Proof. by split; try done; intros *; unfold get; simpl; rewrite lookup_empty. Qed.

(** Everything the rules of an old event mention is unchanged when the graph
    grows by a new event. *)
Section grows.
Context (g g' : Hashgraph) (hash : EventHash).
Context (Hg : graph_wf g) (Hg' : graph_wf g').
Context (Hold : ∀ h r, get g h = Some r → ∃ r', get g' h = Some r' ∧ rec_shape r' = rec_shape r ∧
  rec_rank r' = rec_rank r).
Context (Hinv : ∀ h, is_Some (get g' h) → h = hash ∨ is_Some (get g h)).
Context (Hnew : get g hash = None).

Lemma grow_parents h r p : get g h = Some r → p ∈ parents (rec_event r) → is_Some (get g p).
Proof. intros Hh. apply (rw_parents _ _ _ (wf_record _ Hg _ _ Hh)). Qed.

Lemma grow_agree x : is_Some (get g x) → agree_below g g' x.
Proof.
  intros Hx y Hy. destruct (wf_anc_stored g Hg x y Hy Hx) as [r Hr].
  destruct (Hold _ _ Hr) as (r' & ? & ? & _). by exists r, r'.
Qed.

Lemma grow_parent_row h r j :
  get g h = Some r →
  parent_row g' (self_parent (rec_event r)) j = parent_row g (self_parent (rec_event r)) j ∧
  parent_row g' (other_parent (rec_event r)) j = parent_row g (other_parent (rec_event r)) j.
Proof.
  intros Hh. assert (∀ p, p ∈ parents (rec_event r) → parent_row g' (Some p) j = parent_row g (Some p) j)
    as Hp.
  { intros p Hp. unfold parent_row; simpl. destruct (grow_parents _ _ _ Hh Hp) as [rp Hrp].
    destruct (Hold _ _ Hrp) as (rp' & -> & Hs%shape_row & _). rewrite Hrp. simpl. by rewrite Hs. }
  split; [destruct (self_parent _) as [p|] eqn:E|destruct (other_parent _) as [p|] eqn:E]; try done;
    apply Hp, elem_of_parents; auto.
Qed.

Lemma grow_parent_round h r :
  get g h = Some r →
  parent_round g' (self_parent (rec_event r)) = parent_round g (self_parent (rec_event r)) ∧
  parent_round g' (other_parent (rec_event r)) = parent_round g (other_parent (rec_event r)).
Proof.
  intros Hh. assert (∀ p, p ∈ parents (rec_event r) → parent_round g' (Some p) = parent_round g (Some p))
    as Hp.
  { intros p Hp. unfold parent_round; simpl. destruct (grow_parents _ _ _ Hh Hp) as [rp Hrp].
    destruct (Hold _ _ Hrp) as (rp' & -> & _ & Hk). rewrite Hrp. injection Hk as Hk _. simpl. congruence. }
  split; [destruct (self_parent _) as [p|] eqn:E|destruct (other_parent _) as [p|] eqn:E]; try done;
    apply Hp, elem_of_parents; auto.
Qed.
End grows.

(** The witness lists hold, [x] apart, exactly the witnesses. *)
Definition listed (g : Hashgraph) (x : EventHash) : Prop :=
  ∀ k, NoDup (witnesses_of_round g k) ∧ ∀ w, w ≠ x →
    (w ∈ witnesses_of_round g k ↔
     ∃ r, get g w = Some r ∧ rec_is_witness r = true ∧ rec_round r = k).

Lemma rounds_listed g x : rounds_wf g → listed g x.
Proof. intros Hr k. split; [apply (rd_nodup _ Hr)|intros w _; apply (rd_listed _ Hr)]. Qed.

Section climbers.
Context (o1 o2 : HashOrder) (g1 g2 : Hashgraph) (Hg1 : graph_wf g1) (Hg2 : graph_wf g2).
Context (Hmi : member_index g1 = member_index g2) (x : EventHash) (Ha : agree_below g1 g2 x).
Context (base : N) (total : nat).
Context (Hc1 : member_count_at_round g1 base = Ok total) (Hc2 : member_count_at_round g2 base = Ok total).

Lemma climber_moves w :
  listed g1 x → listed g2 x →
  (∀ w ra rb, anc g1 x w → w ≠ x → get g1 w = Some ra → get g2 w = Some rb →
     rec_rank ra = rec_rank rb) →
  w ∈ climbers (H := o1) g1 x base → w ∈ climbers (H := o2) g2 x base.
Proof.
  intros Hl1 Hl2 Hrank. unfold climbers. rewrite !list_elem_of_filter.
  intros [[Hne Hss] Hin]. apply (proj2 (Hl1 base)) in Hin as (r1 & Hw1 & Hwit & Hrd); [|done].
  unfold strongly_sees in Hss.
  assert (is_Some (get g1 x)) as [rx Hx] by (destruct (Ha x) as (? & ? & ? & _); [done|by eexists]).
  assert (anc g1 x w) as Hanc.
  { destruct (strongly_see_at_spec g1 Hg1 x w rx r1 Hx Hw1 (H := o1) base total Hc1) as (b & Hb & Hiff).
    rewrite Hb in Hss. subst b. destruct (proj1 Hiff eq_refl) as [Hs _]. by apply sees_anc. }
  destruct (agree_at _ _ _ _ _ Ha Hanc Hw1) as (r2 & Hw2 & _).
  pose proof (Hrank _ _ _ Hanc Hne Hw1 Hw2) as Hk. injection Hk as Hk1 Hk2.
  split_and!; [done| |].
  - unfold strongly_sees. by rewrite <- (agree_strongly_see o1 o2 g1 g2 x w r1 r2 base total).
  - apply (proj2 (Hl2 base)); [done|]. exists r2. split_and!; [done|congruence..].
Qed.
End climbers.

Lemma climbers_length (o1 o2 : HashOrder) g1 g2 x base total :
  graph_wf g1 → graph_wf g2 → member_index g1 = member_index g2 → agree_below g1 g2 x →
  member_count_at_round g1 base = Ok total → member_count_at_round g2 base = Ok total →
  listed g1 x → listed g2 x →
  (∀ w ra rb, anc g1 x w → w ≠ x → get g1 w = Some ra → get g2 w = Some rb →
     rec_rank ra = rec_rank rb) →
  length (climbers (H := o1) g1 x base) = length (climbers (H := o2) g2 x base).
Proof.
  intros Hg1 Hg2 Hmi Ha Hc1 Hc2 Hl1 Hl2 Hrank. apply Permutation_length, NoDup_Permutation.
  1-2: apply NoDup_filter; first [apply Hl1|apply Hl2].
  intros w. split.
  - by eapply climber_moves.
  - eapply climber_moves; eauto; [by apply agree_sym|].
    intros w' ra rb Hanc Hne Hb Hb'. symmetry. eapply Hrank; eauto.
    by apply (agree_anc g1 g2 x Ha).
Qed.

Lemma filter_ne {A} (P : A → Prop) `{!∀ x, Decision (P x)} `{EqDecision A} (a : A) (l : list A) :
  a ∉ l → filter (λ w, w ≠ a ∧ P w) l = filter P l.
Proof.
  induction l as [|b l IH]; intros Ha; [done|]. apply not_elem_of_cons in Ha as [Hb Ha].
  rewrite !filter_cons, IH by done. repeat case_decide; naive_solver.
Qed.

(** ** Insertion keeps the rules *)

Lemma checked_slots `{Sha256} g e hash i sp op j :
  checked g e hash i sp op →
  parent_slot sp j = parent_row g (self_parent e) j ∧ parent_slot op j = parent_row g (other_parent e) j.
Proof.
  intros Hck. pose proof (ck_self _ _ _ _ _ _ Hck) as Hs. pose proof (ck_other _ _ _ _ _ _ Hck) as Ho.
  unfold parent_row. split.
  - destruct (self_parent e) as [p|]; [|by subst sp]. destruct Hs as (r & -> & Hp & _). simpl. by rewrite Hp.
  - destruct (other_parent e) as [p|]; [|by subst op]. destruct Ho as (r & -> & Hp). simpl. by rewrite Hp.
Qed.

Section insert_determined.
Context `{Sha256, HashOrder} (genesis : MembershipRegistry) (B : N) (g : Hashgraph) (e : Event).
Context (Hready : ready B g) (Hdet : determined genesis g) (He : wf_event e).
Context (hash : EventHash) (i : nat) (sp op : option EventRecord) (g1 g2 g' : Hashgraph).
Context (sq : N) (row : list N) (total : nat).
Context (Hck : checked g e hash i sp op) (Hst : stored g g1 e hash i sp op sq row) (Hwf1 : graph_wf g1).
Context (Hc1 : member_count_at_round g1 (base_of g e) = Ok total).
Let fr : N := round_rule g1 hash (base_of g e) total.
Let w : bool := match parent_round g (self_parent e) with None => true | Some s => (s <? fr)%N end.
Context (Hg2 : g2 = finalized g1 hash fr w) (Hsk : same_skel g2 g').
Context (Hwf' : graph_wf g') (Hr' : rounds_wf g').

Lemma ins_shape : same_shape g1 g'.
Proof. etrans; [apply (finalized_shape g1 hash fr w)|]. rewrite <- Hg2. apply Hsk. Qed.

Lemma ins_index : member_index g' = member_index g.
Proof. by rewrite <- (shape_member_index _ _ ins_shape), (st_index _ _ _ _ _ _ _ _ _ Hst). Qed.

Lemma ins_roster : roster_history g' = roster_history g.
Proof. by rewrite <- (shape_roster _ _ ins_shape), (st_roster _ _ _ _ _ _ _ _ _ Hst). Qed.

Lemma ins_members : member_count g' = member_count g.
Proof. by rewrite <- (shape_member_count _ _ ins_shape), (st_count _ _ _ _ _ _ _ _ _ Hst). Qed.

Lemma ins_count_at k : member_count_at_round g' k = member_count_at_round g k.
Proof. unfold member_count_at_round. by rewrite ins_roster. Qed.

Lemma ins_old h r :
  get g h = Some r →
  ∃ r', get g' h = Some r' ∧ rec_shape r' = rec_shape r ∧ rec_rank r' = rec_rank r.
Proof.
  intros Hh. assert (h ≠ hash) as Hne by (intros ->; by rewrite (ck_fresh _ _ _ _ _ _ Hck) in Hh).
  assert (get g2 h = Some r) as H2.
  { rewrite Hg2, finalized_get, decide_False by done. by eapply stored_old. }
  destruct (skel_get_Some _ _ _ _ Hsk H2) as (r' & ? & ? & ? & ? & ? & ?).
  exists r'. split; [done|]. unfold rec_shape, rec_rank. split; congruence.
Qed.

Lemma ins_new_record :
  ∃ r', get g' hash = Some r' ∧ rec_event r' = e ∧ rec_seq r' = sq ∧ rec_ancestor_seqs r' = row ∧
    rec_round r' = fr ∧ rec_is_witness r' = w.
Proof.
  pose proof (finalized_get g1 hash fr w hash) as Hf. rewrite decide_True in Hf by done.
  rewrite (stored_new _ _ _ _ _ _ _ _ _ Hst), <- Hg2 in Hf.
  destruct (skel_get_Some _ _ _ _ Hsk Hf) as (r' & ? & ? & ? & ? & ? & ?). by exists r'.
Qed.

Lemma ins_cases h r' :
  get g' h = Some r' →
  (h = hash ∧ rec_event r' = e ∧ rec_seq r' = sq ∧ rec_ancestor_seqs r' = row ∧ rec_round r' = fr) ∨
  (h ≠ hash ∧ ∃ r, get g h = Some r ∧ rec_shape r' = rec_shape r ∧ rec_rank r' = rec_rank r).
Proof.
  intros Hh. destruct (decide (h = hash)) as [->|Hne].
  - left. destruct ins_new_record as (r0 & Hr0 & ? & ? & ? & ? & _). by simplify_eq.
  - right. split; [done|].
    destruct (shape_cases _ _ h ins_shape) as [[_ ?]|(r1 & r2 & H1 & H2 & _)]; [congruence|].
    destruct (stored_inv _ _ _ _ _ _ _ _ _ Hst _ _ H1) as [[? _]|Hgh]; [done|].
    destruct (ins_old _ _ Hgh) as (r3 & H3 & ? & ?).
    assert (r3 = r') as -> by congruence. by exists r1.
Qed.

(** The parents of the new event, and what is read of them. *)
Lemma ins_parent o :
  (∀ p, o = Some p → p ∈ parents e) →
  parent_round g' o = parent_round g o ∧ ∀ j, parent_row g' o j = parent_row g o j.
Proof.
  destruct o as [p|]; [|done]. intros Hp.
  destruct (stored_parent _ _ _ _ _ _ Hck p (Hp p eq_refl)) as (r & Hr & _).
  destruct (ins_old _ _ Hr) as (r' & Hr'' & Hs%shape_row & Hk). injection Hk as Hk _.
  unfold parent_round, parent_row. simpl. rewrite Hr, Hr''. simpl. rewrite Hs. split; congruence.
Qed.

Lemma ins_self : (∀ p, self_parent e = Some p → p ∈ parents e).
Proof. intros p Hp. apply elem_of_parents. by left. Qed.

Lemma ins_other : (∀ p, other_parent e = Some p → p ∈ parents e).
Proof. intros p Hp. apply elem_of_parents. by right. Qed.

Lemma ins_base : base_of g' e = base_of g e.
Proof. unfold base_of. by rewrite (proj1 (ins_parent _ ins_self)), (proj1 (ins_parent _ ins_other)). Qed.

Lemma ins_slots j :
  parent_slot sp j = parent_row g' (self_parent e) j ∧ parent_slot op j = parent_row g' (other_parent e) j.
Proof.
  rewrite (proj2 (ins_parent _ ins_self)), (proj2 (ins_parent _ ins_other)).
  eapply checked_slots, Hck.
Qed.

Lemma ins_agree x : is_Some (get g x) → agree_below g g' x.
Proof. apply grow_agree; [apply Hready|intros h r Hh; by apply ins_old]. Qed.

Lemma ins_listed : listed g1 hash.
Proof.
  intros k. rewrite (stored_witnesses _ _ _ _ _ _ _ _ _ Hst). split; [apply Hready|].
  intros v Hv. rewrite (rd_listed _ (rdy_rounds _ _ Hready)).
  by rewrite (st_events _ _ _ _ _ _ _ _ _ Hst v), decide_False.
Qed.

Lemma ins_hash_unlisted k : hash ∉ witnesses_of_round g1 k.
Proof.
  rewrite (stored_witnesses _ _ _ _ _ _ _ _ _ Hst). intros (r & Hr & _)%(rd_listed _ (rdy_rounds _ _ Hready)).
  by rewrite (ck_fresh _ _ _ _ _ _ Hck) in Hr.
Qed.

Lemma ins_round_new :
  fr = if supermajority (length (climbers g' hash (base_of g' e))) total
       then (base_of g' e + 1)%N else base_of g' e.
Proof.
  rewrite ins_base. unfold fr, round_rule.
  rewrite <- (climbers_length _ _ g1 g' hash (base_of g e) total).
  - unfold climbers. by rewrite filter_ne by apply ins_hash_unlisted.
  - done.
  - done.
  - apply (shape_member_index _ _ ins_shape).
  - intros y Hy. destruct (shape_cases _ _ y ins_shape) as [[Hn _]|(ra & rb & ? & ? & ? & ? & ?)].
    + destruct (wf_anc_stored g1 Hwf1 hash y Hy) as [? ?]; [|congruence].
      rewrite (stored_new _ _ _ _ _ _ _ _ _ Hst). by eexists.
    + exists ra, rb. unfold rec_shape. split_and!; [done..|congruence].
  - done.
  - unfold member_count_at_round. by rewrite <- (shape_roster _ _ ins_shape).
  - apply ins_listed.
  - by apply rounds_listed.
  - intros v ra rb _ Hv H1 H2. rewrite (st_events _ _ _ _ _ _ _ _ _ Hst v), decide_False in H1 by done.
    destruct (ins_old _ _ H1) as (r' & Hr'' & _ & Hk). congruence.
Qed.

Lemma ins_round_old h r tot :
  get g h = Some r → member_count_at_round g (base_of g (rec_event r)) = Ok tot →
  length (climbers g' h (base_of g (rec_event r))) = length (climbers g h (base_of g (rec_event r))).
Proof.
  intros Hh Hc. symmetry. eapply climbers_length; [apply Hready|done|by rewrite ins_index| |done|
    by rewrite ins_count_at|apply rounds_listed, Hready|by apply rounds_listed|].
  - apply ins_agree. by eexists.
  - intros v ra rb _ _ H1 H2. destruct (ins_old _ _ H1) as (r' & Hr'' & _ & Hk). congruence.
Qed.

Lemma ins_determined : determined genesis g'.
Proof.
  pose proof (rdy_graph _ _ Hready) as Hg. split.
  - rewrite ins_index. apply Hdet.
  - rewrite ins_members. apply Hdet.
  - rewrite ins_roster. apply Hdet.
  - intros h r' [(-> & -> & _)|(_ & r & Hr & Hs%shape_event & _)]%ins_cases.
    + split; [apply Hck|done].
    + rewrite Hs. by apply (dt_hash _ _ Hdet).
  - intros h r' k j Hh Hk Hj. rewrite ins_index in Hk. rewrite ins_members in Hj.
    destruct (ins_cases _ _ Hh) as [(-> & He' & Hq & Hrow & _)|(_ & r & Hr & Hs & _)].
    + rewrite He', Hq, Hrow in *. rewrite (ck_index _ _ _ _ _ _ Hck) in Hk. injection Hk as <-.
      rewrite (st_row _ _ _ _ _ _ _ _ _ Hst j Hj). by destruct (ins_slots j) as [-> ->].
    + rewrite (shape_event _ _ Hs), (shape_seq _ _ Hs), (shape_row _ _ Hs) in *.
      destruct (grow_parent_row g g' Hg ins_old h r j Hr) as [-> ->].
      by apply (dt_row _ _ Hdet h).
  - intros h r' tot Hh Hc.
    destruct (ins_cases _ _ Hh) as [(-> & He' & _ & _ & Hrd)|(_ & r & Hr & Hs & Hk)].
    + rewrite He', Hrd in *.
      assert (tot = total) as ->; [|apply ins_round_new].
      rewrite ins_base, ins_count_at in Hc. unfold member_count_at_round in Hc, Hc1.
      rewrite (st_roster _ _ _ _ _ _ _ _ _ Hst) in Hc1. congruence.
    + assert (base_of g' (rec_event r') = base_of g (rec_event r)) as Hb.
      { rewrite (shape_event _ _ Hs). unfold base_of.
        by destruct (grow_parent_round g g' Hg ins_old h r Hr) as [-> ->]. }
      rewrite Hb, ins_count_at in *. rewrite (ins_round_old h r tot Hr Hc).
      injection Hk as -> _. by apply (dt_round _ _ Hdet).
Qed.
End insert_determined.

Lemma insert_determined `{Sha256, HashOrder} genesis B g e r g' :
  ready B g → determined genesis g → wf_event e → (1 ≤ B)%N → (B + 4 < u64_modulus)%N →
  insert e g = (r, g') → determined genesis g'.
Proof.
  intros Hr Hd He HB Hcap Hi.
  destruct (insert_total _ g e Hr (wf_signature _ He) Hcap HB)
    as [[err Herr]|(hash & i & sp & op & g2 & g3 & Hi' & _ & Hins & Hsk & Hr')]; [congruence|].
  assert (g3 = g') as -> by congruence.
  pose proof (ins_checked _ _ _ _ _ _ _ _ Hins) as Hck.
  destruct (ins_stored _ _ _ _ _ _ _ _ Hins) as (g1 & sq & row & total & Hst & Hg1 & Hc & Hg2).
  rewrite (checked_base _ _ _ _ _ _ _ _ _ Hck Hst), (checked_self_round _ _ _ _ _ _ _ _ _ Hck Hst) in *.
  eapply (ins_determined genesis B g e Hr Hd He); eauto; apply Hr'.
Qed.

Lemma later_determined `{Sha256, HashOrder} genesis n g :
  later (new genesis) n g → (2 * N.of_nat n + 3 < u64_modulus)%N →
  determined genesis g ∧ ready (2 * N.of_nat n + 1) g.
Proof.
  intros Hl Hcap.
  assert (∀ m g', later (new genesis) m g' → m ≤ n → ready (1 + 2 * N.of_nat m) g') as Hready.
  { intros m g' Hm Hle. eapply later_extends; [exact Hm|apply new_ready|..]; lia. }
  split; [|rewrite N.add_comm; by apply Hready].
  induction Hl as [|n g1 g2 e r Hl IH He Hi]; [apply new_determined|].
  eapply insert_determined; [apply (Hready n); [done|lia]|apply IH|exact He|..|exact Hi]; try lia.
  intros; apply Hready; [done|lia].
Qed.

(** ** Two graphs of one network *)

Section agreement.
Context `{Sha256} (o1 o2 : HashOrder) (genesis : MembershipRegistry) (g1 g2 : Hashgraph) (B1 B2 : N).
Context (Hd1 : determined (H0 := o1) genesis g1) (Hd2 : determined (H0 := o2) genesis g2).
Context (Hr1 : ready B1 g1) (Hr2 : ready B2 g2).
Context (Hev : ∀ h r1 r2, get g1 h = Some r1 → get g2 h = Some r2 → rec_event r1 = rec_event r2).

Lemma pair_parent x r1 r2 p :
  get g1 x = Some r1 → get g2 x = Some r2 → p ∈ parents (rec_event r1) →
  is_Some (get g1 p) ∧ is_Some (get g2 p).
Proof.
  intros H1 H2 Hp. split.
  - by apply (rw_parents _ _ _ (wf_record _ (rdy_graph _ _ Hr1) _ _ H1)).
  - apply (rw_parents _ _ _ (wf_record _ (rdy_graph _ _ Hr2) _ _ H2)). by rewrite <- (Hev x r1 r2).
Qed.

Lemma pair_stored x y :
  anc g1 x y → is_Some (get g1 x) → is_Some (get g2 x) → is_Some (get g1 y) ∧ is_Some (get g2 y).
Proof.
  intros Hy. induction Hy as [x|x p y (r & Hr & Hp) _ IH]; [done|].
  intros [r1 Hx1] [r2 Hx2]. assert (r = r1) as -> by congruence.
  destruct (pair_parent x r1 r2 p Hx1 Hx2 Hp). by apply IH.
Qed.

Definition pair_same (x : EventHash) : Prop :=
  ∀ r1 r2, get g1 x = Some r1 → get g2 x = Some r2 →
    rec_shape r1 = rec_shape r2 ∧ rec_rank r1 = rec_rank r2.

Section event.
Context (x : EventHash) (r1 r2 : EventRecord) (Hx1 : get g1 x = Some r1) (Hx2 : get g2 x = Some r2).
Context (Hpar : ∀ p, p ∈ parents (rec_event r1) → pair_same p).

Lemma pair_event : rec_event r2 = rec_event r1.
Proof. symmetry. by eapply Hev. Qed.

Lemma pair_parent_reads p :
  p = self_parent (rec_event r1) ∨ p = other_parent (rec_event r1) →
  parent_round g2 p = parent_round g1 p ∧ ∀ j, parent_row g2 p j = parent_row g1 p j.
Proof.
  intros Hp. destruct p as [p|]; [|done].
  assert (p ∈ parents (rec_event r1)) as Hin by (apply elem_of_parents; naive_solver).
  destruct (pair_parent x r1 r2 p Hx1 Hx2 Hin) as [[q1 Hq1] [q2 Hq2]].
  destruct (Hpar p Hin q1 q2 Hq1 Hq2) as [Hs%shape_row Hk]. injection Hk as Hk _.
  unfold parent_round, parent_row. simpl. rewrite Hq1, Hq2. simpl. rewrite Hs. split; congruence.
Qed.

Lemma pair_seq : rec_seq r2 = rec_seq r1.
Proof.
  pose proof (rw_seq _ _ _ (wf_record _ (rdy_graph _ _ Hr1) _ _ Hx1)) as H1.
  pose proof (rw_seq _ _ _ (wf_record _ (rdy_graph _ _ Hr2) _ _ Hx2)) as H2.
  rewrite pair_event in H2. destruct (self_parent (rec_event r1)) as [p|] eqn:E; [|congruence].
  destruct H1 as (q1 & Hq1 & _ & ->), H2 as (q2 & Hq2 & _ & ->).
  assert (p ∈ parents (rec_event r1)) as Hin by (apply elem_of_parents; by left).
  destruct (Hpar p Hin q1 q2 Hq1 Hq2) as [Hs%shape_seq _]. by rewrite Hs.
Qed.

Lemma pair_row : rec_ancestor_seqs r2 = rec_ancestor_seqs r1.
Proof.
  pose proof (wf_record _ (rdy_graph _ _ Hr1) _ _ Hx1) as W1.
  pose proof (wf_record _ (rdy_graph _ _ Hr2) _ _ Hx2) as W2.
  assert (member_count g2 = member_count g1) as Hmc by (by rewrite (dt_count _ _ Hd1), (dt_count _ _ Hd2)).
  assert (member_index g2 = member_index g1) as Hmi by (by rewrite (dt_index _ _ Hd1), (dt_index _ _ Hd2)).
  destruct (rw_creator _ _ _ W1) as [i Hi].
  apply list_eq. intros j. destruct (decide (j < member_count g1)) as [Hj|Hj].
  - rewrite (dt_row _ _ Hd1 x r1 i j Hx1 Hi Hj).
    rewrite (dt_row _ _ Hd2 x r2 i j Hx2); [|by rewrite pair_event, Hmi|by rewrite Hmc].
    rewrite pair_event, pair_seq.
    destruct (pair_parent_reads (self_parent (rec_event r1))) as [_ ->]; [by left|].
    destruct (pair_parent_reads (other_parent (rec_event r1))) as [_ ->]; [by right|]. done.
  - rewrite !lookup_ge_None_2; [done|rewrite (rw_width _ _ _ W1)|rewrite (rw_width _ _ _ W2)]; lia.
Qed.

Lemma pair_base : base_of g2 (rec_event r2) = base_of g1 (rec_event r1).
Proof.
  unfold base_of. rewrite pair_event.
  destruct (pair_parent_reads (self_parent (rec_event r1))) as [-> _]; [by left|].
  destruct (pair_parent_reads (other_parent (rec_event r1))) as [-> _]; [by right|]. done.
Qed.

Lemma pair_shape : rec_shape r1 = rec_shape r2.
Proof. unfold rec_shape. by rewrite pair_event, pair_seq, pair_row. Qed.

Lemma pair_agree : (∀ y, anc g1 x y → y ≠ x → pair_same y) → agree_below g1 g2 x.
Proof.
  intros Hbelow y Hy.
  destruct (pair_stored x y Hy) as [[q1 Hq1] [q2 Hq2]]; [by eexists..|].
  exists q1, q2. split_and!; [done..|]. destruct (decide (y = x)) as [->|Hne].
  - simplify_eq. apply pair_shape.
  - by apply (Hbelow y).
Qed.

Lemma pair_round : (∀ y, anc g1 x y → y ≠ x → pair_same y) → rec_round r2 = rec_round r1.
Proof.
  intros Hbelow. pose proof (pair_agree Hbelow) as Ha.
  assert (∀ k, member_count_at_round g2 k = member_count_at_round g1 k) as Hc.
  { intros k. unfold member_count_at_round. by rewrite (dt_roster _ _ Hd1), (dt_roster _ _ Hd2). }
  assert (1 ≤ base_of g1 (rec_event r1))%N as Hb.
  { unfold base_of, base_round.
    destruct (parent_round g1 (self_parent _)) as [a|] eqn:E1, (parent_round g1 (other_parent _)) as [b|] eqn:E2;
      try lia; simpl;
      [pose proof (parent_round_pos g1 (rdy_rounds _ _ Hr1) _ _ E1)
      |pose proof (parent_round_pos g1 (rdy_rounds _ _ Hr1) _ _ E1)
      |pose proof (parent_round_pos g1 (rdy_rounds _ _ Hr1) _ _ E2)]; lia. }
  destruct (rounds_resolve g1 _ (rdy_rounds _ _ Hr1) Hb) as [total Ht].
  rewrite (dt_round _ _ Hd1 x r1 total Hx1 Ht).
  rewrite (dt_round _ _ Hd2 x r2 total Hx2), pair_base; [|by rewrite pair_base, Hc].
  rewrite (climbers_length o1 o2 g1 g2 x (base_of g1 (rec_event r1)) total); try done.
  - apply Hr1.
  - apply Hr2.
  - by rewrite (dt_index _ _ Hd1), (dt_index _ _ Hd2).
  - by rewrite Hc.
  - apply rounds_listed, Hr1.
  - apply rounds_listed, Hr2.
  - intros w ra rb Hw Hne HA HB. by apply (Hbelow w Hw Hne).
Qed.

Lemma pair_witness : (∀ y, anc g1 x y → y ≠ x → pair_same y) → rec_is_witness r2 = rec_is_witness r1.
Proof.
  intros Hbelow. rewrite (rd_witness _ (rdy_rounds _ _ Hr1) _ _ Hx1).
  rewrite (rd_witness _ (rdy_rounds _ _ Hr2) _ _ Hx2), (pair_round Hbelow), pair_event.
  destruct (pair_parent_reads (self_parent (rec_event r1))) as [-> _]; [by left|]. done.
Qed.
End event.

Lemma rank_below (rank : EventHash → nat) x y :
  (∀ h p, parent_of g1 h p → rank p < rank h) → anc g1 x y → y = x ∨ rank y < rank x.
Proof.
  intros Hrank Hy. induction Hy as [x|x p y Hp _ IH]; [by left|right].
  pose proof (Hrank _ _ Hp). destruct IH as [->|]; lia.
Qed.

Lemma pair_all x : pair_same x.
Proof.
  destruct (wf_acyclic _ (rdy_graph _ _ Hr1)) as [rank Hrank].
  remember (rank x) as n eqn:Hn. revert x Hn.
  induction n as [n IH] using lt_wf_ind. intros x -> r1 r2 Hx1 Hx2.
  assert (∀ y, anc g1 x y → y ≠ x → pair_same y) as Hbelow.
  { intros y Hy Hne. destruct (rank_below rank x y Hrank Hy) as [|Hlt]; [done|]. by apply (IH _ Hlt). }
  assert (∀ p, p ∈ parents (rec_event r1) → pair_same p) as Hpar.
  { intros p Hp. assert (parent_of g1 x p) as Hpx by (by exists r1).
    apply (IH (rank p)); [by apply Hrank|done]. }
  split; [by apply (pair_shape x)|]. unfold rec_rank.
  by rewrite (pair_round x r1 r2 Hx1 Hx2 Hpar Hbelow), (pair_witness x r1 r2 Hx1 Hx2 Hpar Hbelow).
Qed.
End agreement.

(** Distinct events under one hash would be a collision, and that is
    decidable for two finite graphs. *)
Lemma common_events `{Sha256} (o1 o2 : HashOrder) genesis g1 g2 :
  determined (H0 := o1) genesis g1 → determined (H0 := o2) genesis g2 →
  (∀ h r1 r2, get g1 h = Some r1 → get g2 h = Some r2 → rec_event r1 = rec_event r2) ∨
  sha256_collision.
Proof.
  intros Hd1 Hd2.
  destruct (decide (map_Forall (λ h r1, default (rec_event r1) (rec_event <$> get g2 h) = rec_event r1)
    (events g1))) as [Hall|Hex].
  - left. intros h r1 r2 H1 H2. specialize (Hall h r1 H1). simpl in Hall. by rewrite H2 in Hall.
  - right. apply map_not_Forall in Hex as (h & r1 & H1 & Hne); [|intros; apply _].
    destruct (get g2 h) as [r2|] eqn:H2; simpl in Hne; [|done].
    destruct (dt_hash _ _ Hd1 h r1 H1) as [Hh1 Hw1], (dt_hash _ _ Hd2 h r2 H2) as [Hh2 Hw2].
    by destruct (event_hash_collision _ _ h Hw1 Hw2 Hh1 Hh2).
Qed.

Lemma agreement `{Sha256} (o1 o2 : HashOrder) genesis n1 n2 g1 g2 :
  later (H0 := o1) (new genesis) n1 g1 → later (H0 := o2) (new genesis) n2 g2 →
  (2 * N.of_nat n1 + 3 < u64_modulus)%N → (2 * N.of_nat n2 + 3 < u64_modulus)%N →
  (∀ x, pair_same g1 g2 x) ∨ sha256_collision.
Proof.
  intros Hl1 Hl2 Hn1 Hn2.
  destruct (later_determined (H0 := o1) genesis n1 g1 Hl1 Hn1) as [Hd1 Hr1].
  destruct (later_determined (H0 := o2) genesis n2 g2 Hl2 Hn2) as [Hd2 Hr2].
  destruct (common_events o1 o2 genesis g1 g2 Hd1 Hd2) as [Hev|?]; [left|by right].
  intros x. by eapply (pair_all o1 o2 genesis g1 g2).
Qed.
