(* ===== verification/Ballots.v ===== *)
(** * What voting records and what ordering assigns

    A witness's vote on a candidate is a function of the graph below the
    witness ([virtual_vote]); the code caches votes, stops an election as soon
    as it is decided, and orders a round once it is settled.  [tracked] is the
    invariant that ties the mutable results to the graph: every cached vote is
    the virtual vote, every fame decision rests on a supermajority of virtual
    votes, every settled round was complete, and an event's round received and
    timestamp are what the famous witnesses of that round give.  Every action
    of the voting machinery keeps it. *)

From S2P Require Import Prelude Codec External Primitives Membership Graph Ancestry Reach Order.
From S2P Require Import Fame Insert Wf Quorum Store Rounds OrderFacts Voting Reachable Finality.

(** ** Ordering reads only the shape *)

Section shape.
Context (g1 g2 : Hashgraph) (Hs : same_shape g1 g2).

Lemma sees_shape x y : sees g1 x y ↔ sees g2 x y.
Proof.
  unfold sees.
  destruct (shape_cases _ _ y Hs) as [[-> ->]|(r1 & r2 & -> & -> & He & _)]; [naive_solver|].
  split; intros (r & [= <-] & Ha & Hf); eexists; (split; [done|]).
  - rewrite <- He, <- (forks_below_shape g1 g2), <- (anc_shape g1 g2) by done. done.
  - rewrite He, (forks_below_shape g1 g2), (anc_shape g1 g2) by done. done.
Qed.

Lemma creator_chain_event_shape x c i sq :
  creator_chain_event g1 x c i sq = creator_chain_event g2 x c i sq.
Proof.
  unfold creator_chain_event, creator_has_known_fork, event_for_creator_seq.
  by rewrite (ancestor_event_for_creator_shape g1 g2 Hs), (shape_forkers _ _ Hs),
    (shape_by_creator_seq _ _ Hs).
Qed.

Lemma chain_event_sees_shape x y c i sq :
  chain_event_sees g1 x y c i sq = chain_event_sees g2 x y c i sq.
Proof.
  unfold chain_event_sees. rewrite creator_chain_event_shape.
  destruct (creator_chain_event _ _ _ _ _) as [[h|]| |]; simpl; try done.
  by rewrite (see_shape g1 g2 Hs).
Qed.

Lemma bisect_shape fuel x y c i low high :
  bisect fuel g1 x y c i low high = bisect fuel g2 x y c i low high.
Proof.
  revert low high. induction fuel as [|fuel IH]; intros low high; simpl; [done|].
  case_decide; [|done]. rewrite chain_event_sees_shape.
  destruct (chain_event_sees _ _ _ _ _ _) as [[]| |]; simpl; try done; apply IH.
Qed.

Lemma member_boundary_within_shape fuel x y r1 r2 c i :
  rec_ancestor_seqs r1 = rec_ancestor_seqs r2 →
  member_boundary_within fuel g1 x y r1 c i = member_boundary_within fuel g2 x y r2 c i.
Proof.
  intros Hr. unfold member_boundary_within, ancestor_seq. rewrite Hr.
  destruct (expect _) as [s| |]; simpl; [|done..]. case_decide; [done|].
  rewrite chain_event_sees_shape, bisect_shape.
  destruct (chain_event_sees _ _ _ _ _ _) as [[]| |]; simpl; try done.
  destruct (bisect _ _ _ _ _ _ _ _); simpl; try done. by rewrite creator_chain_event_shape.
Qed.

Lemma first_seen_loop_shape x y r1 r2 ms earliest :
  rec_ancestor_seqs r1 = rec_ancestor_seqs r2 →
  first_seen_loop g1 x y r1 ms earliest = first_seen_loop g2 x y r2 ms earliest.
Proof.
  intros Hr. revert earliest. induction ms as [|[c i] ms IH]; intros earliest; cbn [first_seen_loop]; [done|].
  unfold member_boundary. rewrite (member_boundary_within_shape bisect_fuel x y r1 r2 c i Hr).
  generalize (member_boundary_within bisect_fuel g2 x y r2 c i). intros o.
  destruct o as [[[[]|]|]| |]; simpl; done || apply IH.
Qed.

Lemma first_seen_timestamp_shape `{HashOrder} x y :
  first_seen_timestamp g1 x y = first_seen_timestamp g2 x y.
Proof.
  unfold first_seen_timestamp, member_index_iter. rewrite (shape_member_index _ _ Hs).
  destruct (shape_cases _ _ x Hs) as [[-> ->]|(r1 & r2 & -> & -> & _ & _ & Ha)]; [done|].
  rewrite (first_seen_loop_shape x y r1 r2 _ _ Ha).
  destruct (first_seen_loop _ _ _ _ _ _) as [[[l h]|]| |]; simpl; try done.
  destruct (shape_cases _ _ h Hs) as [[-> ->]|(? & ? & -> & -> & He & _)]; [done|].
  simpl. by rewrite He.
Qed.

Lemma collect_first_seen_shape `{HashOrder} ws y :
  collect_first_seen g1 ws y = collect_first_seen g2 ws y.
Proof.
  induction ws as [|w ws IH]; simpl; [done|]. by rewrite first_seen_timestamp_shape, IH.
Qed.

Lemma all_see_shape ws y : all_see g1 ws y = all_see g2 ws y.
Proof. induction ws as [|w ws IH]; simpl; [done|]. by rewrite (see_shape g1 g2 Hs), IH. Qed.
End shape.

(** ** Virtual votes *)

Definition round_of (g : Hashgraph) (h : EventHash) : N :=
  match get g h with Some r => rec_round r | None => 0%N end.

Definition members_at (g : Hashgraph) (k : N) : nat :=
  match member_count_at_round g k with Ok n => n | _ => 0 end.

Definition seen_by (g : Hashgraph) (y w : EventHash) : bool :=
  match see g y w with Ok b => b | _ => false end.

Definition coin_of (g : Hashgraph) (y : EventHash) : bool :=
  match coin_round_vote g y with Ok b => b | _ => false end.

(** How many of [l] vote [b]. *)
Definition votes (vote : EventHash → bool) (b : bool) (l : list EventHash) : nat :=
  length (filter (λ s, vote s = b) l).

Section virtual.
Context `{HashOrder} (g : Hashgraph).

Definition strongly (y s : EventHash) : bool :=
  match strongly_see g y s with Ok b => b | _ => false end.

(** The witnesses of the round before [y]'s that [y] strongly sees. *)
Definition strong_set (y : EventHash) : list EventHash :=
  filter (λ s, strongly y s = true) (witnesses_of_round g (round_of g y - 1)).

(** The outcome of a tally at distance [d] from the candidate. *)
Definition outcome (d : nat) (y : EventHash) (yes no : nat) : bool :=
  let v := no <=? yes in
  if (N.of_nat d `mod` COIN_ROUND_FREQUENCY =? 0)%N &&
     negb (supermajority (if v then yes else no) (members_at g (round_of g y)))
  then coin_of g y else v.

(** The vote of [y], [d] rounds above [w]. *)
Fixpoint vote_at (d : nat) (y w : EventHash) : bool :=
  match d with
  | 0 => false
  | 1 => seen_by g y w
  | S d' =>
      outcome d y (votes (λ s, vote_at d' s w) true (strong_set y))
                  (votes (λ s, vote_at d' s w) false (strong_set y))
  end.

Definition distance (y w : EventHash) : nat := N.to_nat (round_of g y - round_of g w).

Definition virtual_vote (y w : EventHash) : bool := vote_at (distance y w) y w.

(** A supermajority of the witnesses of round [k] vote [v] on [w]. *)
Definition backed (w : EventHash) (v : bool) (k : N) : Prop :=
  ∃ Q, NoDup Q ∧ (∀ q, q ∈ Q → q ∈ witnesses_of_round g k ∧ virtual_vote q w = v) ∧
    supermajority (length Q) (members_at g (k + 1)) = true.

(** All famous witnesses of round [k] see [h]. *)
Definition receives (k : N) (h : EventHash) : Prop :=
  famous_witnesses_of_round g k ≠ [] ∧ ∀ w, w ∈ famous_witnesses_of_round g k → sees g w h.
End virtual.

Lemma vote_at_next `{HashOrder} g d y w :
  vote_at g (S (S d)) y w =
  outcome g (S (S d)) y (votes (λ s, vote_at g (S d) s w) true (strong_set g y))
    (votes (λ s, vote_at g (S d) s w) false (strong_set g y)).
Proof. done. Qed.

Lemma votes_ext vote1 vote2 b l :
  (∀ s, s ∈ l → vote1 s = vote2 s) → votes vote1 b l = votes vote2 b l.
Proof.
  unfold votes. induction l as [|s l IH]; intros He; [done|].
  rewrite !filter_cons, (He s) by (by left).
  assert (∀ s, s ∈ l → vote1 s = vote2 s) as He' by (intros; apply He; by right).
  case_decide; simpl; by rewrite IH.
Qed.

(** The skeleton determines the virtual votes. *)
Section skel.
Context `{HashOrder} (g1 g2 : Hashgraph) (Hs : same_skel g1 g2).

Lemma round_of_skel h : round_of g1 h = round_of g2 h.
Proof.
  unfold round_of.
  by destruct (skel_cases _ _ h Hs) as [[-> ->]|(? & ? & -> & -> & _ & _ & _ & -> & _)].
Qed.

Lemma members_at_skel k : members_at g1 k = members_at g2 k.
Proof. unfold members_at. by rewrite (member_count_at_round_shape g1 g2 (skel_shape _ _ Hs)). Qed.

Lemma witnesses_skel k : witnesses_of_round g1 k = witnesses_of_round g2 k.
Proof. unfold witnesses_of_round. by rewrite (skel_witnesses _ _ Hs). Qed.

Lemma strong_set_skel y : strong_set g1 y = strong_set g2 y.
Proof.
  unfold strong_set, strongly. rewrite round_of_skel, witnesses_skel. apply list_filter_iff.
  intros s. by rewrite (strongly_see_skel g1 g2 y s Hs).
Qed.

Lemma coin_of_skel y : coin_of g1 y = coin_of g2 y.
Proof.
  unfold coin_of, coin_round_vote.
  destruct (skel_cases _ _ y Hs) as [[-> ->]|(? & ? & -> & -> & He & _)]; [done|].
  simpl. by rewrite He.
Qed.

Lemma vote_at_skel d y w : vote_at g1 d y w = vote_at g2 d y w.
Proof.
  revert y. induction d as [|[|d] IH]; intros y; [done| |].
  - simpl. unfold seen_by. by rewrite (see_shape g1 g2 (skel_shape _ _ Hs)).
  - rewrite !vote_at_next, strong_set_skel. unfold outcome.
    rewrite round_of_skel, members_at_skel, coin_of_skel.
    by rewrite !(votes_ext (λ s, vote_at g1 (S d) s w) (λ s, vote_at g2 (S d) s w)) by (intros; apply IH).
Qed.

Lemma virtual_vote_skel y w : virtual_vote g1 y w = virtual_vote g2 y w.
Proof. unfold virtual_vote, distance. by rewrite !round_of_skel, vote_at_skel. Qed.

Lemma backed_skel w v k : backed g1 w v k → backed g2 w v k.
Proof.
  intros (Q & Hnd & HQ & Hm). exists Q. split; [done|]. rewrite <- members_at_skel. split; [|done].
  intros q [? ?]%HQ. by rewrite <- witnesses_skel, <- virtual_vote_skel.
Qed.

(** The famous witnesses additionally depend on the fame. *)
Lemma famous_ext k :
  (∀ w, w ∈ witnesses_of_round g1 k → fame_of g1 w = fame_of g2 w) →
  famous_witnesses_of_round g1 k = famous_witnesses_of_round g2 k.
Proof.
  intros Hf. unfold famous_witnesses_of_round. rewrite <- witnesses_skel.
  assert (∀ w, w ∈ witnesses_of_round g1 k → canonical_famous g1 w = canonical_famous g2 w) as Hc.
  { intros w Hw. unfold canonical_famous, canonical_child. rewrite (Hf w Hw).
    rewrite (shape_first_child _ _ (skel_shape _ _ Hs)).
    by destruct (skel_cases _ _ w Hs) as [[-> ->]|(? & ? & -> & -> & -> & _)]. }
  induction (witnesses_of_round g1 k) as [|w ws IH]; [done|].
  rewrite !filter_cons, (Hc w) by (by left). rewrite IH; [done|..]; intros; [apply Hf|apply Hc]; by right.
Qed.

Lemma receives_ext k h :
  (∀ w, w ∈ witnesses_of_round g1 k → fame_of g1 w = fame_of g2 w) →
  receives g1 k h ↔ receives g2 k h.
Proof.
  intros Hf. unfold receives. rewrite (famous_ext k Hf).
  assert (∀ w, sees g1 w h ↔ sees g2 w h) as Hse by (intros; apply sees_shape, Hs).
  split; intros [? Hw]; (split; [done|]); intros w Hin; apply Hse, Hw, Hin.
Qed.
End skel.

(** ** The effect of ordering a round *)

(** [h] has been given [round] and the median of its first-seen times. *)
Definition placed `{HashOrder} (g : Hashgraph) (famous : list EventHash) (round : N)
    (h : EventHash) (s : Hashgraph) : Prop :=
  round_received s h = Some round ∧ ∃ l ts, collect_first_seen g famous h = Ok l ∧
    median_timestamp (E := ConsensusError) l = Ok ts ∧ consensus_timestamp s h = Some ts.

Definition same_place (s s' : Hashgraph) (h : EventHash) : Prop :=
  round_received s' h = round_received s h ∧ consensus_timestamp s' h = consensus_timestamp s h.

Section place.
Context `{HashOrder} (famous : list EventHash) (round : N) (Hne : famous ≠ []).

Lemma order_event_exact s h :
  graph_wf s → (∀ x r, get s x = Some r → is_u64 (rec_seq r)) →
  (∀ w, w ∈ famous → is_Some (get s w)) → is_Some (get s h) →
  ∃ s', order_event famous round h s = (Ok tt, s') ∧ (∀ x, x ≠ h → same_place s s' x) ∧
    ((∀ w, w ∈ famous → sees s w h) ∧ placed s famous round h s' ∨
     ¬ (∀ w, w ∈ famous → sees s w h) ∧ same_place s s' h).
Proof.
  intros Hg Hq Hf Hh. unfold order_event, mbind, stM_bind, st_lift.
  destruct (all_see_spec s Hg famous Hf h Hh) as (b & -> & Hb). destruct b; simpl.
  2: { eexists. split; [done|]. split; [done|]. right. split; [|done]. by intros Hall%Hb. }
  destruct (collect_first_seen_spec s Hg Hq famous Hf h Hh) as (l & Hl & Hlen). rewrite Hl.
  destruct (median_total (E := ConsensusError) l) as [ts Hts].
  { intros ->. apply Hne, length_zero_iff_nil. symmetry. apply Hlen. by apply Hb. }
  rewrite Hts. eexists. split; [done|]. split.
  - intros x Hx. unfold same_place, round_received, consensus_timestamp, set_event_order.
    by rewrite get_alter, decide_False.
  - left. split; [by apply Hb|]. destruct Hh as [r Hr].
    unfold placed, round_received, consensus_timestamp, set_event_order.
    rewrite get_alter, decide_True, Hr by done. split; [done|]. by exists l, ts.
Qed.

Lemma placed_shape s1 s2 h s :
  same_shape s1 s2 → placed s1 famous round h s → placed s2 famous round h s.
Proof.
  intros Hs (Hr & l & ts & Hl & ? & ?). split; [done|]. exists l, ts.
  by rewrite <- (collect_first_seen_shape s1 s2 Hs).
Qed.

Lemma order_pending_exact pending s :
  graph_wf s → (∀ x r, get s x = Some r → is_u64 (rec_seq r)) →
  (∀ w, w ∈ famous → is_Some (get s w)) → (∀ h, h ∈ pending → is_Some (get s h)) → NoDup pending →
  ∃ s', st_for pending (order_event famous round) s = (Ok tt, s') ∧
    (∀ h, h ∉ pending → same_place s s' h) ∧
    (∀ h, h ∈ pending → (∀ w, w ∈ famous → sees s w h) ∧ placed s famous round h s' ∨
       ¬ (∀ w, w ∈ famous → sees s w h) ∧ same_place s s' h).
Proof.
  revert s. induction pending as [|h hs IH]; intros s Hg Hq Hf Hp Hnd.
  { exists s. split; [done|]. split; [done|]. by intros h ?%elem_of_nil. }
  apply NoDup_cons in Hnd as [Hh Hnd].
  destruct (order_event_exact s h Hg Hq Hf (Hp h ltac:(by left))) as (s1 & Hrun & Hother & Hcase).
  pose proof (sv_skel _ _ (preserves_order_event famous round h s)) as Hsk. rewrite Hrun in Hsk. simpl in Hsk.
  pose proof (skel_shape _ _ Hsk) as Hsh.
  assert (∀ x, is_Some (get s x) → is_Some (get s1 x)) as Hkeep.
  { intros x [r Hr]. destruct (skel_get_Some _ _ _ _ Hsk Hr) as (r' & ? & _). by exists r'. }
  destruct (IH s1) as (s' & Hrun' & Hout & Hin); [by eapply graph_wf_shape| |by auto| |done|].
  { intros x r Hr. destruct (skel_get_Some _ _ _ _ (symmetry Hsk) Hr) as (r0 & ? & _ & -> & _). eauto. }
  { intros x Hx. apply Hkeep, Hp. by right. }
  exists s'. cbn [st_for]. unfold mbind, stM_bind. rewrite Hrun. split; [done|]. split.
  - intros x [Hx1 Hx2]%not_elem_of_cons. destruct (Hother x Hx1), (Hout x Hx2). split; congruence.
  - intros x [->|Hx]%elem_of_cons.
    + destruct (Hout h Hh) as [E1 E2]. unfold placed, same_place in *. rewrite E1, E2.
      destruct Hcase as [[? ?]|[? ?]]; [left|right]; done.
    + assert (x ≠ h) as Hxh by (intros ->; done). destruct (Hother x Hxh) as [E1 E2].
      assert ((∀ w, w ∈ famous → sees s1 w x) ↔ (∀ w, w ∈ famous → sees s w x)) as Hiff.
      { split; intros Hall w Hw; apply (sees_shape s s1 Hsh), Hall, Hw. }
      rewrite <- Hiff. destruct (Hin x Hx) as [[? ?]|[? [? ?]]]; [left|right]; (split; [done|]).
      * by eapply placed_shape.
      * split; congruence.
Qed.
End place.

(** ** The invariant *)

(** [s] is a state of the voting machinery over the graph [s0]. *)
Record tracked `{HashOrder} (s0 s : Hashgraph) : Prop := {
  tk_vote : ∀ y ry w b, get s y = Some ry → vote_for ry w = Some b →
    is_Some (get s0 w) ∧ b = virtual_vote s0 y w;
  tk_fame : ∀ w f, fame_of s w = Some f → f ≠ Undecided →
    ∃ k, (round_of s0 w < k < highest_witness_round s0)%N ∧
      backed s0 w (bool_decide (f = Famous)) k;
  tk_open : ∀ w, fame_of s w = Some Undecided → undecided_witnesses s !! w = Some (round_of s0 w);
  tk_settled : ∀ k, k ∈ fully_decided_rounds s → round_view_complete s0 k = Ok true ∧
    ∀ w, w ∈ witnesses_of_round s0 k → fame_settled s w = true;
  tk_next : ∀ k, (1 ≤ k < next_round_to_order s)%N → k ∈ fully_decided_rounds s;
  tk_received : ∀ h k, round_received s h = Some k →
    (1 ≤ k < next_round_to_order s)%N ∧ receives s k h ∧
    placed s0 (famous_witnesses_of_round s k) k h s;
  tk_all : ∀ h k, is_Some (get s0 h) → (1 ≤ k < next_round_to_order s)%N → receives s k h →
    ∃ j, (j ≤ k)%N ∧ round_received s h = Some j;
}.

Lemma tracked_new `{HashOrder} registry : tracked (new registry) (new registry).
Proof.
  assert (∀ h, get (new registry) h = None) as Hn by (intros; apply lookup_empty).
  assert (∀ h, fame_of (new registry) h = None) as Hf by (intros; unfold fame_of; by rewrite Hn).
  split.
  - intros y ry w b. by rewrite Hn.
  - intros w f. by rewrite Hf.
  - intros w. by rewrite Hf.
  - intros k. simpl. set_solver.
  - intros k. simpl. lia.
  - intros h k. unfold round_received. by rewrite Hn.
  - intros h k. rewrite Hn. by intros [? ?].
Qed.

Lemma round_view_complete_spec g k :
  round_view_complete g k = Ok true ↔
  ∃ reg, Roster.roster_for_round (E := ConsensusError) (roster_history g) k = Ok reg ∧
    ∀ m, m ∈ Registry.member_ids reg → member_passed_round g k m = true.
Proof.
  unfold round_view_complete. destruct (Roster.roster_for_round _ _) as [reg| |]; simpl.
  2,3: split; [done|]; by intros (? & ? & _).
  split.
  - intros [= Hall]. exists reg. split; [done|]. rewrite forallb_forall in Hall.
    intros m Hm. by apply Hall, list_elem_of_In.
  - intros (reg' & [= <-] & Hall). unfold mret, res_ret. f_equal. apply forallb_forall.
    intros m Hm%list_elem_of_In. by apply Hall.
Qed.

Lemma member_passed_skel g1 g2 k m :
  same_skel g1 g2 → member_passed_round g1 k m = member_passed_round g2 k m.
Proof.
  intros Hs. unfold member_passed_round.
  rewrite (shape_latest _ _ (skel_shape _ _ Hs)). destruct (_ !! m) as [h|]; simpl; [|done].
  by destruct (skel_cases _ _ h Hs) as [[-> ->]|(? & ? & -> & -> & _ & _ & _ & -> & _)].
Qed.

(** The invariant depends on [s0] through its skeleton only. *)
Lemma tracked_rebase `{HashOrder} s0 s1 s : same_skel s0 s1 → tracked s0 s → tracked s1 s.
Proof.
  intros Hs [T1 T2 T3 T4 T5 T6 T7].
  assert (∀ h, is_Some (get s1 h) → is_Some (get s0 h)) as Hst.
  { intros h [r Hr]. destruct (skel_get_Some _ _ _ _ (symmetry Hs) Hr) as (r' & ? & _). by exists r'. }
  split.
  - intros y ry w b Hy Hb. destruct (T1 y ry w b Hy Hb) as [[r Hr] ->].
    destruct (skel_get_Some _ _ _ _ Hs Hr) as (r' & ? & _).
    split; [by exists r'|]. by apply virtual_vote_skel.
  - intros w f Hf Hne. destruct (T2 w f Hf Hne) as (k & Hk & Hb). exists k.
    rewrite <- (round_of_skel s0 s1 Hs), <- (skel_highest _ _ Hs). split; [done|]. by eapply backed_skel.
  - intros w Hw. rewrite <- (round_of_skel s0 s1 Hs). by apply T3.
  - intros k [Hc Hw]%T4. rewrite <- (witnesses_skel s0 s1 Hs). split; [|done].
    apply round_view_complete_spec in Hc as (reg & Hreg & Hall). apply round_view_complete_spec.
    exists reg. rewrite <- (shape_roster _ _ (skel_shape _ _ Hs)). split; [done|].
    intros m Hm. rewrite <- (member_passed_skel s0 s1) by done. by apply Hall.
  - done.
  - intros h k (? & ? & ?)%T6. do 2 (split; [done|]). by eapply placed_shape; [apply Hs|].
  - intros h k Hh. apply T7. by apply Hst.
Qed.

(** Updates that leave fame, order and progress alone. *)
Lemma tracked_ext `{HashOrder} s0 s s' :
  same_skel s s' → (∀ h, fame_of s' h = fame_of s h) → (∀ h, same_place s s' h) →
  undecided_witnesses s' = undecided_witnesses s →
  fully_decided_rounds s' = fully_decided_rounds s →
  next_round_to_order s' = next_round_to_order s →
  (∀ y ry w b, get s' y = Some ry → vote_for ry w = Some b →
     is_Some (get s0 w) ∧ b = virtual_vote s0 y w) →
  tracked s0 s → tracked s0 s'.
Proof.
  intros Hs Hf Hp Hu Hd Hn Hv [T1 T2 T3 T4 T5 T6 T7].
  assert (∀ k h, receives s k h ↔ receives s' k h) as Hrec
    by (intros; apply receives_ext; [done|]; intros; by rewrite Hf).
  assert (∀ k, famous_witnesses_of_round s k = famous_witnesses_of_round s' k) as Hfam
    by (intros; apply famous_ext; [done|]; intros; by rewrite Hf).
  split; rewrite ?Hu, ?Hd, ?Hn.
  - done.
  - intros w f. rewrite Hf. apply T2.
  - intros w. rewrite Hf. apply T3.
  - intros k [Hc Hw]%T4. split; [done|]. intros w Hin. unfold fame_settled. rewrite Hf. by apply Hw.
  - done.
  - intros h k. destruct (Hp h) as [-> E]. intros (? & ? & Hpl)%T6.
    rewrite <- Hrec, <- Hfam. do 2 (split; [done|]). unfold placed in *.
    destruct (Hp h) as [-> ->]. done.
  - intros h k Hh Hk Hr%Hrec. destruct (Hp h) as [-> _]. by apply T7.
Qed.

(** ** Every action keeps the invariant *)

Section tracked.
Context `{HashOrder} (s0 : Hashgraph) (B : N).
Context (Hg0 : graph_wf s0) (Hr0 : rounds_wf s0) (HB : bounded B s0).

Definition good (s : Hashgraph) : Prop := inv s0 B s ∧ tracked s0 s.

Definition keeps {A} (m : action A) : Prop := ∀ s, good s → good (m s).2.

Lemma keeps_ret {A} (a : A) : keeps (mret a).
Proof. by intros s. Qed.

Lemma keeps_lift {A} (f : query A) : keeps (st_lift f).
Proof. by intros s. Qed.

Lemma keeps_seq {A C} (m : action A) (f : A → action C) :
  keeps m → (∀ a, keeps (f a)) → keeps (m ≫= f).
Proof.
  intros Hm Hf s Hs. specialize (Hm s Hs). unfold mbind, stM_bind.
  destruct (m s) as [[a|e|c] s']; simpl in *; [by apply Hf|done..].
Qed.

Lemma keeps_get_bind {A} (f : Hashgraph → action A) :
  (∀ s, good s → good (f s s).2) → keeps (st_get ≫= f).
Proof. intros Hf s Hs. by apply Hf. Qed.

Lemma keeps_for {A} (xs : list A) (body : A → action unit) :
  (∀ x, x ∈ xs → keeps (body x)) → keeps (st_for xs body).
Proof.
  induction xs as [|x xs IH]; intros Hb; simpl; [apply keeps_ret|].
  apply keeps_seq; [apply Hb; by left|]. intros _. apply IH. intros. apply Hb. by right.
Qed.

Lemma safe_inv {A} (m : action A) s : safe (inv s0 B) any m → inv s0 B s → inv s0 B (m s).2.
Proof. intros Hm Hs. destruct (Hm s Hs) as (a & s' & -> & ? & _). done. Qed.

Lemma good_record_vote y w s :
  is_Some (get s0 w) → good s → good (record_vote y w (virtual_vote s0 y w) s).
Proof.
  intros Hw [Hi Ht]. split.
  { exact (safe_inv _ s (safe_record_vote s0 B y w (virtual_vote s0 y w)) Hi). }
  eapply tracked_ext; [apply same_skel_record_vote| |..|exact Ht]; try done.
  - intros h. apply fame_of_record_vote.
  - intros h. by apply received_alter.
  - intros y' ry' w' b Hy'. unfold record_vote in Hy'. rewrite get_alter in Hy'.
    case_decide as Hyy; [subst y'|by apply (tk_vote _ _ Ht)].
    destruct (get s y) as [ry|] eqn:Hry; [|done]. injection Hy' as <-. unfold vote_for. simpl.
    rewrite lookup_insert_Some. intros [[<- <-]|[_ Hb]]; [done|]. by eapply (tk_vote _ _ Ht).
Qed.

Lemma same_votes_vote s s' y ry w b :
  same_votes s s' → get s' y = Some ry → vote_for ry w = Some b →
  ∃ r, get s y = Some r ∧ vote_for r w = Some b.
Proof.
  intros Hs Hy Hb. assert (rec_ballot <$> get s y = rec_ballot <$> get s' y) as E.
  { unfold get. rewrite <- !lookup_fmap. by rewrite (sv_ballots _ _ Hs). }
  rewrite Hy in E. destruct (get s y) as [r|]; [|done]. injection E as E _.
  exists r. split; [done|]. unfold vote_for. by rewrite E.
Qed.

(** Ordering the next round, once it is settled. *)
Lemma tracked_ordered s s' :
  let k := next_round_to_order s in
  tracked s0 s → k ∈ fully_decided_rounds s → (1 ≤ k)%N →
  same_votes (Upd.rounds (fully_decided_rounds s) (k + 1) s) s' →
  (∀ h, is_Some (round_received s h) → same_place s s' h) →
  (∀ h, is_Some (get s0 h) → round_received s h = None →
     receives s k h ∧ placed s0 (famous_witnesses_of_round s k) k h s' ∨
     ¬ receives s k h ∧ round_received s' h = None) →
  (∀ h, is_Some (round_received s' h) → is_Some (get s0 h)) →
  tracked s0 s'.
Proof.
  cbn zeta. intros [T1 T2 T3 T4 T5 T6 T7] Hk Hk1 Hv Hold Hnew Hst.
  set (s1 := Upd.rounds _ _ s) in *.
  assert (same_skel s s') as Hs by (etrans; [apply same_skel_rounds|apply Hv]).
  assert (next_round_to_order s' = next_round_to_order s + 1)%N as Hn by (by rewrite <- (sv_next _ _ Hv)).
  assert (∀ h, fame_of s' h = fame_of s h) as Hf by (intros; by rewrite (fame_of_ballots s1 s')).
  assert (∀ j h, receives s j h ↔ receives s' j h) as Hrec
    by (intros; apply receives_ext; [done|]; intros; by rewrite Hf).
  assert (∀ j, famous_witnesses_of_round s' j = famous_witnesses_of_round s j) as Hfam
    by (intros; symmetry; apply famous_ext; [done|]; intros; by rewrite Hf).
  split; rewrite ?Hn.
  - intros y ry w b Hy Hb. destruct (same_votes_vote s1 s' y ry w b Hv Hy Hb) as (r & ? & ?). by eapply T1.
  - intros w f. rewrite Hf. apply T2.
  - intros w. rewrite Hf, <- (sv_undecided _ _ Hv). apply T3.
  - intros j. rewrite <- (sv_decided _ _ Hv). intros [Hc Hw]%T4. split; [done|].
    intros w Hin. unfold fame_settled. rewrite Hf. by apply Hw.
  - intros j Hj. rewrite <- (sv_decided _ _ Hv).
    destruct (decide (j = next_round_to_order s)) as [->|]; [done|]. apply T5. lia.
  - intros h j Hj. rewrite <- Hrec, Hfam.
    destruct (round_received s h) as [i|] eqn:Hi.
    + destruct (Hold h (mk_is_Some _ _ Hi)) as [E1 E2]. rewrite Hi in E1.
      assert (i = j) as -> by congruence. destruct (T6 h j Hi) as (? & ? & Hpl).
      split; [lia|]. split; [done|]. unfold placed in *. rewrite E1, E2. split; [done|apply Hpl].
    + destruct (Hnew h (Hst h (mk_is_Some _ _ Hj)) Hi) as [[? Hpl]|[_ ?]]; [|congruence].
      assert (j = next_round_to_order s) as -> by (destruct Hpl; congruence). split; [lia|done].
  - intros h j Hh Hj Hr%Hrec. destruct (round_received s h) as [i|] eqn:Hi.
    + destruct (Hold h (mk_is_Some _ _ Hi)) as [E1 _]. destruct (T6 h i Hi) as (? & _).
      destruct (decide (j = next_round_to_order s)) as [->|Hjk]; [exists i; split; [lia|congruence]|].
      destruct (T7 h j Hh) as (i' & ? & ?); [lia|done|]. exists i'. split; [done|congruence].
    + destruct (decide (j = next_round_to_order s)) as [->|Hjk].
      * destruct (Hnew h Hh Hi) as [[_ [? _]]|[? _]]; [|done].
        exists (next_round_to_order s). split; [lia|done].
      * destruct (T7 h j Hh) as (i' & ? & ?); [lia|done|]. congruence.
Qed.

Lemma good_order_step s :
  good s → next_round_to_order s ∈ fully_decided_rounds s →
  good (assign_order (next_round_to_order s)
    (Upd.rounds (fully_decided_rounds s) (u64_wrapping_add (next_round_to_order s) 1) s)).2.
Proof.
  intros [Hi Ht] Hin. pose proof (inv_decided _ _ _ Hi _ Hin) as Hk. pose proof (bd_cap _ _ HB).
  rewrite u64_wrapping_add_small by lia. set (s1 := Upd.rounds _ _ s).
  assert (inv s0 B s1) as Hi1.
  { destruct Hi as [E1 E2 E3 E4]. split; simpl; [|done|lia|done]. etrans; [exact E1|apply same_skel_rounds]. }
  split; [by apply safe_inv; [apply safe_assign_order|]|].
  pose proof (preserves_assign_order (next_round_to_order s) s1) as Hv. revert Hv.
  assert (famous_witnesses_of_round s1 (next_round_to_order s) =
    famous_witnesses_of_round s (next_round_to_order s)) as Hfam by done.
  unfold assign_order, mbind, stM_bind, st_get. cbn zeta. rewrite Hfam.
  case_decide as Hne; intros Hv; simpl in *.
  - apply (tracked_ordered s); try done; [lia|..].
    + intros h Hh Hnone. right. split; [|done]. by intros [? _].
    + intros h [k Hk']. unfold round_received in Hk'. apply (inv_get_stored s0 B s h Hi).
      destruct (get s h) eqn:E; [by eexists|]. unfold get in *. simpl in Hk'. by rewrite E in Hk'.
  - destruct (order_pending_exact (famous_witnesses_of_round s (next_round_to_order s))
      (next_round_to_order s) Hne (pending_order_events s1) s1) as (s' & Hrun & Hout & Hins).
    { by eapply inv_graph. }
    { intros x r. by eapply inv_seq. }
    { intros w Hw. apply (inv_get_stored s0 B s1 w Hi1). by eapply famous_witness_stored. }
    { by intros h [? _]%elem_of_pending. }
    { apply pending_NoDup. }
    rewrite Hrun in *. simpl in *.
    assert (same_skel s0 s1) as Hs1 by apply Hi1.
    apply (tracked_ordered s); try done; [lia|..].
    + intros h [k Hk']. apply (Hout h). rewrite elem_of_pending. intros [_ Hn].
      change (round_received s h = None) in Hn. congruence.
    + intros h Hh Hnone. destruct (Hins h) as [[Hall Hpl]|[Hno [Hp _]]].
      * apply elem_of_pending. split; [by apply (inv_get_stored s0 B)|done].
      * left. split; [done|]. eapply placed_shape; [|exact Hpl]. symmetry. apply Hs1.
      * right. split; [by intros [_ ?]|]. by rewrite Hp.
    + intros h Hs'. apply (inv_get_stored s0 B s1 h Hi1).
      destruct (skel_cases _ _ h (sv_skel _ _ Hv)) as [[_ E]|(? & ? & E & _)]; [|by rewrite E].
      unfold round_received in Hs'. rewrite E in Hs'. by destruct Hs'.
Qed.

Lemma keeps_order_loop fuel : keeps (order_loop fuel).
Proof.
  induction fuel as [|fuel IH]; intros s Hs; simpl; unfold mbind, stM_bind; simpl.
  { by case_decide. }
  case_decide as Hin; [|done]. pose proof (good_order_step s Hs Hin) as Hstep.
  destruct (assign_order _ _) as [[[]|e|c] s2]; simpl in *; [by apply IH|done..].
Qed.

Lemma keeps_note_round round :
  round = 0%N ∨ (1 ≤ round ≤ B)%N → keeps (note_round_decided_if_complete round).
Proof.
  intros Hround s [Hi Ht]. split; [by apply safe_inv; [apply safe_note_round|]|].
  unfold note_round_decided_if_complete. case_decide as Hz; [done|].
  destruct Hround as [|Hround]; [done|].
  unfold mbind at 1, stM_bind at 1, st_get at 1.
  destruct (has_undecided_witness s round) eqn:Hund; [done|].
  unfold mbind at 1, stM_bind at 1, st_lift at 1.
  destruct (round_view_complete s round) as [[]| |] eqn:Hview; simpl; try done.
  unfold mbind at 1, stM_bind at 1; simpl. set (s1 := Upd.rounds _ _ s).
  apply keeps_order_loop. split.
  { destruct Hi as [E1 E2 E3 E4]. split; simpl; [|set_solver|done|done].
    etrans; [exact E1|apply same_skel_rounds]. }
  destruct Ht as [U1 U2 U3 U4 U5 U6 U7]. split; try done.
  - intros k [->%elem_of_singleton|?]%elem_of_union; [|by apply U4]. split.
    + apply round_view_complete_spec in Hview as (reg & Hreg & Hall). apply round_view_complete_spec.
      exists reg. rewrite (shape_roster _ _ (skel_shape _ _ (inv_skel _ _ _ Hi))). split; [done|].
      intros m Hm. rewrite (member_passed_skel s0 s) by apply Hi. by apply Hall.
    + intros w (rw & Hw & Hwit & Hrw)%(rd_listed _ Hr0).
      destruct (inv_get s0 B s w rw Hi Hw) as (r & Hr & _ & _ & _ & Hw').
      unfold fame_settled. change (fame_of s1 w) with (fame_of s w).
      destruct (fame_of s w) as [f|] eqn:Hf; [|unfold fame_of in Hf; rewrite Hr in Hf; simpl in Hf;
        rewrite <- Hw', Hwit in Hf; done].
      destruct f; try done. apply U3 in Hf. exfalso.
      unfold has_undecided_witness in Hund. apply not_true_iff_false in Hund. apply Hund.
      apply existsb_exists. exists (w, round). split; [|by apply N.eqb_eq].
      apply list_elem_of_In, elem_of_map_to_list. rewrite Hf. unfold round_of. by rewrite Hw, Hrw.
  - intros k Hk. apply elem_of_union. right. by apply U5.
Qed.

(** ** Fame decisions *)

Definition open (s : Hashgraph) (w : EventHash) : Prop := ∀ f, fame_of s w = Some f → f = Undecided.

Lemma open_unsettled s w : open s w → fame_settled s w = false.
Proof.
  intros Ho. unfold fame_settled. destruct (fame_of s w) as [f|] eqn:E; [|done]. by rewrite (Ho f E).
Qed.

Lemma unsettled_open s w : fame_settled s w = false → open s w.
Proof. unfold fame_settled. intros Hs f Hf. rewrite Hf in Hs. by destruct f. Qed.

Lemma good_decide_fame w rw status k s :
  good s → get s0 w = Some rw → open s w → status ≠ Undecided →
  (rec_round rw < k < highest_witness_round s0)%N →
  backed s0 w (bool_decide (status = Famous)) k →
  good (decide_fame w status s).2.
Proof.
  intros [Hi Ht] Hw Hopen Hst Hk Hbk. unfold decide_fame, mbind, stM_bind, st_modify, st_get.
  set (s1 := Upd.events _ s). set (s2 := Upd.witnesses _ _ _ s1).
  assert (inv s0 B s2) as Hi2.
  { destruct Hi as [E1 E2 E3 E4]. split; simpl; [|done|done|].
    - etrans; [exact E1|]. etrans; [apply same_skel_record_fame|apply same_skel_undecided].
    - intros h j [_ ?]%lookup_delete_Some. by apply E4. }
  assert (same_skel s s2) as Hsk by (etrans; [apply same_skel_record_fame|apply same_skel_undecided]).
  assert (∀ h, h ≠ w → fame_of s2 h = fame_of s h) as Hother.
  { intros h Hh. unfold fame_of. change (get s2 h) with (get s1 h). unfold s1.
    by rewrite get_alter, decide_False. }
  assert (∀ f, fame_of s2 w = Some f → f = status) as Hself.
  { intros f. unfold fame_of. change (get s2 w) with (get s1 w). unfold s1.
    rewrite get_alter, decide_True by done. destruct (get s w) as [r|]; simpl; [|done].
    destruct (rec_is_witness r); [|done]. by intros [= <-]. }
  assert (∀ h, same_place s s2 h) as Hpl by (intros h; by apply received_alter).
  apply keeps_note_round.
  { destruct (get s2 w) as [r|] eqn:Hr; [right|by left].
    destruct (skel_get_Some _ _ _ _ (symmetry (inv_skel _ _ _ Hi2)) Hr) as (r0 & Hw0 & _ & _ & _ & -> & _).
    by eapply round_le. }
  split; [done|]. destruct Ht as [T1 T2 T3 T4 T5 T6 T7].
  assert (∀ j h, j ∈ fully_decided_rounds s → h ∈ witnesses_of_round s0 j →
    fame_of s2 h = fame_of s h) as Hsettled.
  { intros j h Hj Hh. apply Hother. intros ->. destruct (T4 j Hj) as [_ Hset].
    specialize (Hset w Hh). by rewrite (open_unsettled s w Hopen) in Hset. }
  assert (∀ j h, j ∈ fully_decided_rounds s → h ∈ witnesses_of_round s j → fame_of s h = fame_of s2 h)
    as Hext. { intros j h Hj Hh. symmetry. apply (Hsettled j); [done|]. by rewrite <- (inv_witnesses s0 B s). }
  split.
  - intros y ry v b Hy Hb. change (get s2 y) with (get s1 y) in Hy. unfold s1 in Hy.
    rewrite get_alter in Hy. case_decide; [|by eapply T1].
    destruct (get s y) as [r|] eqn:Hr; [|done]. injection Hy as <-. by eapply T1.
  - intros h f Hf Hne. destruct (decide (h = w)) as [->|Hh]; [|rewrite Hother in Hf by done; by apply T2].
    rewrite (Hself f Hf). exists k. split; [|done]. unfold round_of. by rewrite Hw.
  - intros h Hf. destruct (decide (h = w)) as [->|Hh]; [by destruct Hst; rewrite <- (Hself _ Hf)|].
    simpl. rewrite lookup_delete_ne by done. apply T3. by rewrite Hother in Hf.
  - intros j Hj. destruct (T4 j Hj) as [? Hset]. split; [done|]. intros h Hh.
    unfold fame_settled. rewrite (Hsettled j) by done. by apply Hset.
  - done.
  - intros h j Hj. destruct (Hpl h) as [E1 E2]. rewrite E1 in Hj. destruct (T6 h j Hj) as (? & Hr & Hp).
    pose proof (T5 j ltac:(done)) as Hdj.
    split; [done|]. split; [apply (receives_ext s s2 Hsk); [|done]; intros; by eapply Hext|].
    rewrite <- (famous_ext s s2 Hsk j) by (intros; by eapply Hext). unfold placed in *. by rewrite E1, E2.
  - intros h j Hh Hj Hr. destruct (Hpl h) as [-> _]. apply T7; [done..|].
    apply (receives_ext s s2 Hsk); [|done]. intros v Hv. by apply (Hext j v (T5 j Hj)).
Qed.

(** The tally of the recorded votes counts voters by their recorded vote. *)
Definition recorded (s : Hashgraph) (w v : EventHash) : option bool :=
  get s v ≫= λ r, vote_for r w.

Lemma recorded_tally_acc s w voters a b c :
  foldl (λ '(yes, no, seen) v,
    match recorded s w v with
    | Some true => (S yes, no, S seen)
    | Some false => (yes, S no, S seen)
    | None => (yes, no, seen)
    end) (a, b, c) voters =
  (a + length (filter (λ v, recorded s w v = Some true) voters),
   b + length (filter (λ v, recorded s w v = Some false) voters),
   c + length (filter (λ v, is_Some (recorded s w v)) voters)).
Proof.
  revert a b c. induction voters as [|v voters IH]; intros a b c; simpl.
  { by rewrite !Nat.add_0_r. }
  rewrite !filter_cons. destruct (recorded s w v) as [[]|]; rewrite IH.
  - rewrite decide_True, decide_False, decide_True by done. simpl. f_equal; [f_equal|]; lia.
  - rewrite decide_False, !decide_True by done. simpl. f_equal; [f_equal|]; lia.
  - rewrite !decide_False by (done || by intros [? ?]). done.
Qed.

Lemma recorded_tally_counts s w voters :
  recorded_tally s w voters =
  (length (filter (λ v, recorded s w v = Some true) voters),
   length (filter (λ v, recorded s w v = Some false) voters),
   length (filter (λ v, is_Some (recorded s w v)) voters)).
Proof. exact (recorded_tally_acc s w voters 0 0 0). Qed.

Lemma recorded_backed s w rw b k :
  good s → get s0 w = Some rw →
  supermajority (length (filter (λ v, recorded s w v = Some b) (witnesses_of_round s0 k)))
    (members_at s0 (k + 1)) = true →
  backed s0 w b k.
Proof.
  intros [Hi Ht] Hw Hm. eexists. split; [|split; [|exact Hm]].
  - apply NoDup_filter, Hr0.
  - intros q [Hq Hin]%list_elem_of_filter. split; [done|]. unfold recorded in Hq.
    destruct (get s q) as [r|] eqn:Hr; [|done]. simpl in Hq.
    by destruct (tk_vote _ _ Ht q r w b Hr Hq) as [_ ->].
Qed.

Lemma keeps_try_eager_decide w rw : get s0 w = Some rw → keeps (try_eager_decide w).
Proof.
  intros Hw s Hgood. pose proof Hgood as [Hi Ht].
  unfold try_eager_decide, mbind, stM_bind, st_get, st_lift.
  destruct (fame_settled s w) eqn:Hset; [done|].
  pose proof (unsettled_open s w Hset) as Hopen.
  destruct (inv_get s0 B s w rw Hi Hw) as (r & Hr & _ & _ & Er & _). rewrite Hr. cbn zeta. rewrite <- Er.
  destruct (inv_next_round s0 B Hr0 HB s w r 1 Hi Hr) as [E1 Hpos]; [lia|].
  destruct (inv_next_round s0 B Hr0 HB s w r 2 Hi Hr) as [E2 _]; [lia|].
  rewrite <- Er in E1, E2, Hpos. rewrite E1, E2. clear E1 E2.
  case_decide as Hhigh; [done|]. case_decide; [done|].
  destruct (inv_count s0 B Hr0 s (rec_round rw + 1) Hi) as [n1 Hn1]; [lia|].
  destruct (inv_count s0 B Hr0 s (rec_round rw + 2) Hi) as [n2 Hn2]; [lia|].
  rewrite Hn1, Hn2. case_decide as Heq; [done|]. destruct (supermajority _ _); simpl; [|done].
  rewrite (inv_witnesses s0 B s), recorded_tally_counts by done.
  destruct (supermajority (length (filter (λ v, is_Some (recorded s w v)) _)) _); simpl; [|done].
  case_decide; [done|].
  assert (members_at s0 (rec_round rw + 1 + 1) = n2) as Hm.
  { unfold members_at. rewrite <- N.add_assoc. change (1 + 1)%N with 2%N.
    by rewrite (member_count_at_round_shape s0 s (skel_shape _ _ (inv_skel _ _ _ Hi))), Hn2. }
  assert (highest_witness_round s = highest_witness_round s0) as Hhw
    by (symmetry; apply (skel_highest _ _ (inv_skel _ _ _ Hi))).
  assert (∀ b status, supermajority (length (filter (λ v, recorded s w v = Some b)
      (witnesses_of_round s0 (rec_round rw + 1)))) n2 = true →
    b = bool_decide (status = Famous) → status ≠ Undecided → good (decide_fame w status s).2) as Hdec.
  { intros b status Hsup -> Hne. apply (good_decide_fame w rw status (rec_round rw + 1)); try done; [lia|].
    apply (recorded_backed s w rw); [done..|]. by rewrite Hm. }
  destruct (supermajority (length (filter (λ v, recorded s w v = Some true) _)) n2) eqn:Hyes.
  - specialize (Hdec true Famous Hyes eq_refl ltac:(done)). by destruct (decide_fame w Famous s) as [[]].
  - destruct (supermajority (length (filter (λ v, recorded s w v = Some false) _)) n2) eqn:Hno; [|done].
    specialize (Hdec false NotFamous Hno eq_refl ltac:(done)). by destruct (decide_fame w NotFamous s) as [[]].
Qed.

(** ** Votes *)

(** [m], computing the vote of [y] on [w], casts the virtual vote. *)
Definition casts (y w : EventHash) (m : action VoteOutcome) : Prop :=
  ∀ s, good s → good (m s).2 ∧ ∀ b, (m s).1 = Ok (Cast b) → b = virtual_vote s0 y w.

Lemma casts_tally w vote voters yes no s :
  good s → (∀ v, v ∈ voters → casts v w (vote v)) →
  good (tally_votes vote voters yes no s).2 ∧
  ∀ a b, (tally_votes vote voters yes no s).1 = Ok (inr (a, b)) →
    a = yes + votes (λ v, virtual_vote s0 v w) true voters ∧
    b = no + votes (λ v, virtual_vote s0 v w) false voters.
Proof.
  revert yes no s. induction voters as [|v voters IH]; intros yes no s Hs Hv; simpl.
  { split; [done|]. intros a b [= -> ->]. unfold votes. simpl. lia. }
  destruct (Hv v ltac:(by left) s Hs) as [Hgood Hcast]. unfold mbind, stM_bind.
  destruct (vote v s) as [[o|e|c] s'] eqn:E; simpl in *; [|done..].
  assert (∀ v, v ∈ voters → casts v w (vote v)) as Hv' by (intros; apply Hv; by right).
  unfold votes. rewrite !filter_cons. fold (votes (λ v, virtual_vote s0 v w) true voters).
  destruct o as [b|status]; [|done]. rewrite <- (Hcast b eq_refl). destruct b.
  - destruct (IH (S yes) no s' Hgood Hv') as [? Hc]. split; [done|]. intros a b [-> ->]%Hc.
    rewrite decide_True, decide_False by done. simpl. unfold votes. lia.
  - destruct (IH yes (S no) s' Hgood Hv') as [? Hc]. split; [done|]. intros a b [-> ->]%Hc.
    rewrite decide_False, decide_True by done. simpl. unfold votes. lia.
Qed.

(** The vote at distance two or more, from the votes one round below. *)
Lemma virtual_vote_tally y w ry rw :
  get s0 y = Some ry → get s0 w = Some rw → (rec_round rw + 2 ≤ rec_round ry)%N →
  virtual_vote s0 y w = outcome s0 (distance s0 y w) y
    (votes (λ v, virtual_vote s0 v w) true (strong_set s0 y))
    (votes (λ v, virtual_vote s0 v w) false (strong_set s0 y)).
Proof.
  intros Hy Hw Hd. unfold virtual_vote at 1.
  assert (∃ d, distance s0 y w = S (S d)) as [d Hdist].
  { exists (N.to_nat (rec_round ry - rec_round rw) - 2). unfold distance, round_of. rewrite Hy, Hw. lia. }
  rewrite Hdist, vote_at_next.
  assert (∀ v, v ∈ strong_set s0 y → vote_at s0 (S d) v w = virtual_vote s0 v w) as Hv.
  { intros v [_ (rv & Hrv & _ & Hk)%(rd_listed _ Hr0)]%list_elem_of_filter. unfold virtual_vote. f_equal.
    unfold distance, round_of in *. rewrite Hy, Hw in *. rewrite Hrv. lia. }
  by rewrite !(votes_ext _ _ _ _ Hv).
Qed.

Lemma good_conclude y w ry rw s :
  good s → get s0 y = Some ry → get s0 w = Some rw → (rec_round rw + 2 ≤ rec_round ry)%N → open s w →
  let yes := votes (λ v, virtual_vote s0 v w) true (strong_set s0 y) in
  let no := votes (λ v, virtual_vote s0 v w) false (strong_set s0 y) in
  let m := conclude_vote y w (rec_round ry) (rec_round rw) yes no in
  good (m s).2 ∧ ∀ b, (m s).1 = Ok (Cast b) → b = virtual_vote s0 y w.
Proof.
  cbn zeta. intros Hgood Hy Hw Hd Hopen. pose proof Hgood as [Hi Ht].
  pose proof (virtual_vote_tally y w ry rw Hy Hw Hd) as Hvv.
  set (yes := votes _ true _) in *. set (no := votes _ false _) in *.
  pose proof (round_le s0 B Hr0 HB _ _ Hy). pose proof (round_le s0 B Hr0 HB _ _ Hw). pose proof (bd_cap _ _ HB).
  unfold conclude_vote, mbind, stM_bind, st_lift. cbn zeta.
  destruct (inv_count s0 B Hr0 s (rec_round ry) Hi) as [n Hn]; [lia|]. rewrite Hn.
  rewrite u64_wrapping_sub_small by (unfold is_u64; lia).
  assert (members_at s0 (rec_round ry) = n) as Hm.
  { unfold members_at. by rewrite (member_count_at_round_shape s0 s (skel_shape _ _ (inv_skel _ _ _ Hi))), Hn. }
  assert (N.of_nat (distance s0 y w) = rec_round ry - rec_round rw)%N as Hdist
    by (unfold distance, round_of; rewrite Hy, Hw; lia).
  unfold outcome in Hvv. rewrite Hdist in Hvv. unfold round_of in Hvv. rewrite Hy, Hm in Hvv.
  set (v := no <=? yes) in *.
  destruct (_ && _) eqn:Hcoin.
  - assert (coin_round_vote s y = coin_round_vote s0 y) as ->.
    { unfold coin_round_vote. destruct (inv_get s0 B s y ry Hi Hy) as (r & -> & He & _). rewrite Hy.
      simpl. by rewrite He. }
    unfold coin_of in Hvv. destruct (coin_round_vote s0 y) as [b| |] eqn:Hc; simpl; [|done..].
    rewrite <- Hvv. split; [apply good_record_vote; [by eexists|done]|]. by intros b' [= <-].
  - destruct (supermajority (if v then yes else no) n) eqn:Hsup.
    + assert (good (decide_fame w (if v then Famous else NotFamous) s).2) as Hdec.
      { apply (good_decide_fame w rw _ (rec_round ry - 1)); try done; [by destruct v| |].
        { pose proof (rd_highest _ Hr0 _ _ Hy). lia. }
        exists (filter (λ q, virtual_vote s0 q w = v) (strong_set s0 y)). split_and!.
        - apply NoDup_filter, NoDup_filter, Hr0.
        - intros q [Hq [_ Hin]%list_elem_of_filter]%list_elem_of_filter.
          unfold round_of in Hin. rewrite Hy in Hin. split; [done|]. rewrite Hq. by destruct v.
        - replace (rec_round ry - 1 + 1)%N with (rec_round ry) by lia. rewrite Hm.
          by destruct v. }
      destruct (decide_fame _ _ s) as [[]]; simpl in *; done.
    + rewrite <- Hvv. split; [apply good_record_vote; [by eexists|done]|]. by intros b' [= <-].
Qed.

Lemma strongly_seen_among_exact s y ry ws :
  inv s0 B s → get s0 y = Some ry → (∀ w, w ∈ ws → is_Some (get s0 w)) →
  strongly_seen_among s y ws = Ok (filter (λ v, strongly s0 y v = true) ws).
Proof.
  intros Hi Hy. induction ws as [|v ws IH]; intros Hws; simpl; [done|].
  destruct (inv_get s0 B s y ry Hi Hy) as (r & Hr & _).
  destruct (Hws v) as [rv Hv]; [by left|]. destruct (inv_get s0 B s v rv Hi Hv) as (rv' & Hv' & _).
  rewrite IH by (intros; apply Hws; by right).
  destruct (inv_count s0 B Hr0 s (rec_round rv') Hi) as [n Hn].
  { by eapply (rd_pos _ (inv_rounds s0 B Hr0 s Hi)). }
  destruct (strongly_see_at_spec s (inv_graph s0 B Hg0 s Hi) y v r rv' Hr Hv' _ n Hn) as (b & E & _).
  assert (strongly_see s y v = Ok b) as E' by (unfold strongly_see; by rewrite Hv').
  assert (strongly s0 y v = b) as Hb.
  { unfold strongly. by rewrite (strongly_see_skel s0 s y v (inv_skel _ _ _ Hi)), E'. }
  rewrite E'. simpl. rewrite filter_cons, Hb.
  destruct b; [by rewrite decide_True|by rewrite decide_False].
Qed.

Lemma casts_vote_of fuel y w ry rw :
  get s0 y = Some ry → get s0 w = Some rw → (rec_round rw < rec_round ry)%N →
  (rec_round ry - rec_round rw ≤ N.of_nat fuel)%N → casts y w (vote_of fuel y w).
Proof.
  revert y ry. induction fuel as [|fuel IH]; intros y ry Hy Hw Hlt Hf s Hgood; [lia|].
  pose proof Hgood as [Hi Ht].
  destruct (inv_get s0 B s y ry Hi Hy) as (ry' & Hy' & _ & _ & Ey & _).
  destruct (inv_get s0 B s w rw Hi Hw) as (rw' & Hw' & _ & _ & Ew & _).
  pose proof (round_le s0 B Hr0 HB _ _ Hy). pose proof (round_le s0 B Hr0 HB _ _ Hw).
  pose proof (bd_cap _ _ HB).
  rewrite (vote_of_S fuel y w ry' rw' s Hy' Hw'), <- Ey, <- Ew.
  destruct (default Undecided (fame_of s w)) eqn:Hfame; [|done..].
  assert (open s w) as Hopen by (intros f Hff; by rewrite Hff in Hfame).
  destruct (vote_for ry' w) as [vote|] eqn:Hvote.
  { split; [done|]. intros b [= <-]. by eapply (tk_vote _ _ Ht). }
  rewrite u64_wrapping_add_small by lia. case_decide as Hnext.
  - unfold mbind, stM_bind, st_lift. rewrite <- (see_shape s0 s (skel_shape _ _ (inv_skel _ _ _ Hi))).
    assert (virtual_vote s0 y w = seen_by s0 y w) as Hvv.
    { unfold virtual_vote. replace (distance s0 y w) with 1; [done|].
      unfold distance, round_of. rewrite Hy, Hw. lia. }
    unfold seen_by in Hvv. destruct (see s0 y w) as [b| |]; simpl; [|done..].
    rewrite <- Hvv. split; [apply good_record_vote; [by eexists|done]|]. by intros b' [= <-].
  - rewrite u64_wrapping_sub_small by (unfold is_u64; lia).
    assert (∀ v, v ∈ witnesses_of_round s0 (rec_round ry - 1) →
      ∃ rv, get s0 v = Some rv ∧ rec_round rv = (rec_round ry - 1)%N) as Hvs
      by (intros v (rv & ? & _ & ?)%(rd_listed _ Hr0); eauto).
    unfold mbind at 1 3, stM_bind at 1 3, st_lift at 1 2. rewrite (inv_witnesses s0 B) by done.
    rewrite (strongly_seen_among_exact s y ry _ Hi Hy) by (intros v (rv & ? & _)%Hvs; by eexists).
    assert (filter (λ v, strongly s0 y v = true) (witnesses_of_round s0 (rec_round ry - 1)) =
      strong_set s0 y) as -> by (unfold strong_set, round_of; by rewrite Hy).
    assert (∀ v, v ∈ strong_set s0 y → ∃ rv, get s0 v = Some rv ∧ rec_round rv = (rec_round ry - 1)%N) as Hss.
    { intros v [_ Hv]%list_elem_of_filter. unfold round_of in Hv. rewrite Hy in Hv. by apply Hvs. }
    destruct (casts_tally w (λ v, vote_of fuel v w) (strong_set s0 y) 0 0 s Hgood) as [Hgt Hct].
    { intros v (rv & Hv & Hrv)%Hss. apply (IH v rv); [done..|lia|lia]. }
    destruct (quiet_tally s0 B (λ v, vote_of fuel v w) (strong_set s0 y) 0 0 s Hi) as [_ Hq].
    { intros v (rv & Hv & Hrv)%Hss. eapply safe_vote_of; [done..|lia|lia]. }
    { intros v s1 (rv & Hv & Hrv)%Hss Hs1. eapply quiet_vote_of; [done..|lia|lia|done]. }
    unfold mbind, stM_bind.
    destruct (tally_votes _ _ 0 0 s) as [[[status|[yes no]]|e|c] s1]; simpl in *; try done.
    destruct (Hct yes no eq_refl) as [-> ->]. apply good_conclude; [done..|lia|].
    intros f. rewrite (Hq _ eq_refl ltac:(by eexists) w). apply Hopen.
Qed.

Lemma keeps_vote_on y w ry rw :
  get s0 y = Some ry → get s0 w = Some rw → (rec_round rw < rec_round ry)%N → keeps (vote_on y w).
Proof.
  intros Hy Hw Hlt s Hs. unfold vote_on, mbind, stM_bind, st_get.
  eapply casts_vote_of; [done..| |done].
  unfold vote_fuel. rewrite <- (skel_highest _ _ (inv_skel _ _ _ (proj1 Hs))).
  pose proof (rd_highest _ Hr0 _ _ Hy). lia.
Qed.

Lemma keeps_backfill n y ry round :
  get s0 y = Some ry → (rec_round ry < round)%N → keeps (backfill n y round).
Proof.
  intros Hy. revert round. induction n as [|n IH]; intros round Hround; simpl; [apply keeps_ret|].
  apply keeps_get_bind. intros s Hs. destruct (fame_settled s y); [done|].
  rewrite (inv_witnesses s0 B) by apply Hs. revert s Hs.
  match goal with |- ∀ s, good s → good (?m s).2 => change (keeps m) end.
  apply keeps_seq.
  { apply keeps_for. intros v (rv & Hv & _ & Hk)%(rd_listed _ Hr0).
    apply keeps_seq; [by eapply keeps_vote_on; [done..|lia]|]. intros. apply keeps_ret. }
  intros _. apply keeps_get_bind. intros s Hs. case_decide as Hc; [|by apply IH; [lia|]].
  clear Hc. revert s Hs.
  match goal with |- ∀ s, good s → good (?m s).2 => change (keeps m) end.
  apply keeps_seq; [by eapply keeps_try_eager_decide|]. intros _.
  apply keeps_get_bind. intros s Hs. destruct (fame_settled s y); [done|]. by apply IH; [lia|].
Qed.

Lemma keeps_vote_as_witness y ry : get s0 y = Some ry → keeps (vote_as_witness y).
Proof.
  intros Hy s Hs. pose proof (proj1 Hs) as Hi. unfold vote_as_witness, mbind at 1, stM_bind at 1, st_lift at 1.
  destruct (inv_get s0 B s y ry Hi Hy) as (r & -> & _ & _ & Er & _). cbn [expect]. cbn zeta.
  rewrite <- Er. clear r Er. unfold mbind at 1, stM_bind at 1, st_get at 1.
  assert (∀ c, c ∈ vote_candidates s (rec_round ry) →
    ∃ rc, get s0 c = Some rc ∧ (rec_round rc < rec_round ry)%N) as Hcand.
  { intros c ([h k] & -> & [Hlt Hin%elem_of_hm_iter]%list_elem_of_filter)%list_elem_of_fmap.
    destruct (inv_undecided _ _ _ Hi _ _ Hin) as (rc & ? & _ & <-). eauto. }
  revert Hcand. generalize (vote_candidates s (rec_round ry)) as cands. intros cands Hcand. clear Hi.
  revert s Hs. match goal with |- ∀ s, good s → good (?m s).2 => change (keeps m) end.
  apply keeps_seq.
  { apply keeps_for. intros c (rc & Hc & Hlt)%Hcand.
    apply keeps_seq; [by eapply keeps_vote_on|]. intros _.
    apply keeps_seq; [by eapply keeps_try_eager_decide|]. intros. apply keeps_ret. }
  intros _. apply keeps_get_bind. intros s Hs.
  pose proof (round_le s0 B Hr0 HB _ _ Hy). pose proof (bd_cap _ _ HB).
  rewrite u64_wrapping_add_small by lia.
  generalize (N.to_nat (highest_witness_round s + 1 - (rec_round ry + 1))). intros n.
  revert s Hs. match goal with |- ∀ s, good s → good (?m s).2 => change (keeps m) end.
  apply keeps_seq; [by eapply keeps_backfill; [done|lia]|].
  intros _. apply keeps_get_bind. intros s Hs. case_decide; [|done].
  pose proof (keeps_try_eager_decide y ry Hy s Hs) as Hk. unfold mbind, stM_bind.
  by destruct (try_eager_decide y s) as [[?|?|?] s'].
Qed.
End tracked.
