(* ===== verification/ForkFree.v ===== *)
(** * Graphs without forks

    When no member signs two events on one self-parent, a member's events
    form a chain that is the same in every graph of the network: at most one
    witness per member and round, a member's events above a round stay above
    it, strongly seeing is inherited by descendants, and every event of a
    later round strongly sees a supermajority of the round before. *)

From S2P Require Import Prelude Codec External Primitives Membership Graph Ancestry Reach Order.
From S2P Require Import Fame Insert Wf Quorum Store Rounds OrderFacts Voting Reachable Finality.
From S2P Require Import Agreement Ballots.

(** No creator has two events with one self-parent, over both graphs. *)
Definition no_forks (g1 g2 : Hashgraph) : Prop :=
  ∀ h1 h2 r1 r2, get g1 h1 = Some r1 → get g2 h2 = Some r2 →
    creator (rec_event r1) = creator (rec_event r2) →
    self_parent (rec_event r1) = self_parent (rec_event r2) → h1 = h2.

Lemma no_forks_sym g1 g2 : no_forks g1 g2 → no_forks g2 g1.
Proof. intros Hn h1 h2 r1 r2 H1 H2 Hc Hp. symmetry. by apply (Hn h2 h1 r2 r1). Qed.

(** ** One chain per member *)

Section chains.
Context (g1 g2 : Hashgraph) (Hg1 : graph_wf g1) (Hg2 : graph_wf g2) (Hnf : no_forks g1 g2).

Lemma chain_same c s h1 h2 : made_by g1 c s h1 → made_by g2 c s h2 → h1 = h2.
Proof.
  revert h1 h2. induction s as [s IH] using (well_founded_ind N.lt_wf_0). intros h1 h2 (r1 & H1 & C1 & S1) (r2 & H2 & C2 & S2).
  apply (Hnf h1 h2 r1 r2 H1 H2); [congruence|].
  pose proof (rw_seq _ _ _ (wf_record _ Hg1 _ _ H1)) as W1.
  pose proof (rw_seq _ _ _ (wf_record _ Hg2 _ _ H2)) as W2.
  destruct (self_parent (rec_event r1)) as [p1|], (self_parent (rec_event r2)) as [p2|]; [|..|done].
  - destruct W1 as (q1 & Q1 & D1 & E1), W2 as (q2 & Q2 & D2 & E2). f_equal.
    apply (IH (rec_seq q1)); [lia|exists q1; split_and!; congruence|].
    exists q2. split_and!; [done|congruence|lia].
  - destruct W1 as (q1 & Q1 & _ & E1). pose proof (wf_seq_pos g1 Hg1 _ _ Q1). lia.
  - destruct W2 as (q2 & Q2 & _ & E2). pose proof (wf_seq_pos g2 Hg2 _ _ Q2). lia.
Qed.

(** An event is on the chain below every later event of its creator. *)
Lemma chain_below c s1 s2 h1 h2 :
  made_by g1 c s1 h1 → made_by g2 c s2 h2 → (s1 ≤ s2)%N → rtc (self_parent_of g2) h2 h1.
Proof.
  intros Hm1 (r2 & H2 & C2 & S2) Hle.
  assert (1 ≤ s1)%N as Hpos by (destruct Hm1 as (r1 & H1 & _ & <-); by eapply (wf_seq_pos g1)).
  destruct (wf_self_chain g2 Hg2 h2 r2 s1 H2) as (y & Hy & Hm); [lia|]. rewrite C2 in Hm.
  by rewrite (chain_same c s1 h1 y Hm1 Hm).
Qed.
End chains.

Lemma self_chain_round g h z r rz :
  graph_wf g → rounds_wf g → rtc (self_parent_of g) h z → get g h = Some r → get g z = Some rz →
  z = h ∨ ∃ p rp, self_parent (rec_event r) = Some p ∧ get g p = Some rp ∧ (rec_round rz ≤ rec_round rp)%N.
Proof.
  intros Hg Hr Hz. revert r. induction Hz as [x|x p y (rx & Hx & Hsp) Hz IH]; intros r Hh Hzz; [by left|].
  right. assert (r = rx) as -> by congruence.
  assert (p ∈ parents (rec_event rx)) as Hp by (apply elem_of_parents; by left).
  destruct (rw_parents _ _ _ (wf_record _ Hg _ _ Hx) p Hp) as [rp Hrp].
  exists p, rp. split_and!; [done..|].
  destruct (IH rp Hrp Hzz) as [->|(q & rq & Hq & Hrq & Hle)]; [by simplify_eq|].
  assert (q ∈ parents (rec_event rp)) as Hqp by (apply elem_of_parents; by left).
  pose proof (parent_round_le g p rp q rq Hr Hrp Hqp Hrq). lia.
Qed.

(** A creator has at most one witness per round. *)
Lemma witness_same g1 g2 h1 h2 r1 r2 :
  graph_wf g1 → graph_wf g2 → rounds_wf g1 → rounds_wf g2 → no_forks g1 g2 →
  (∀ x, pair_same g1 g2 x) →
  get g1 h1 = Some r1 → get g2 h2 = Some r2 → rec_is_witness r1 = true → rec_is_witness r2 = true →
  creator (rec_event r1) = creator (rec_event r2) → rec_round r1 = rec_round r2 → h1 = h2.
Proof.
  intros Hg1 Hg2 Hr1 Hr2 Hnf Hsame H1 H2 W1 W2 Hc Hrd.
  assert (∀ ga gb ha hb ra rb, graph_wf ga → graph_wf gb → rounds_wf gb → no_forks ga gb →
    (∀ x qa qb, get ga x = Some qa → get gb x = Some qb → rec_rank qa = rec_rank qb) →
    get ga ha = Some ra → get gb hb = Some rb → rec_is_witness rb = true →
    creator (rec_event ra) = creator (rec_event rb) → rec_round ra = rec_round rb →
    (rec_seq ra ≤ rec_seq rb)%N → ha = hb) as Hside.
  { intros ga gb ha hb ra rb Ga Gb Rb Nf Hrk Ha Hb Wb Hcc Hrr Hle.
    pose proof (chain_below ga gb Ga Gb Nf (creator (rec_event ra)) (rec_seq ra) (rec_seq rb) ha hb) as Hch.
    assert (rtc (self_parent_of gb) hb ha) as Hrt.
    { apply Hch; [by exists ra|exists rb; split_and!; congruence|done]. }
    destruct (self_anc_creator gb Gb hb ha rb Hrt Hb) as (ra' & Ha' & _).
    destruct (self_chain_round gb hb ha rb ra' Gb Rb Hrt Hb Ha') as [|(p & rp & Hp & Hrp & Hle')]; [done|].
    pose proof (Hrk ha ra ra' Ha Ha') as Hq. injection Hq as Hq _.
    rewrite (rd_witness _ Rb _ _ Hb) in Wb. unfold parent_round in Wb. rewrite Hp in Wb. simpl in Wb.
    rewrite Hrp in Wb. simpl in Wb. apply N.ltb_lt in Wb. lia. }
  destruct (N.le_ge_cases (rec_seq r1) (rec_seq r2)) as [Hle|Hle].
  - apply (Hside g1 g2 h1 h2 r1 r2); try done. intros x qa qb Ha Hb. by apply (Hsame x).
  - symmetry. apply (Hside g2 g1 h2 h1 r2 r1); try done; [by apply no_forks_sym|].
    intros x qa qb Ha Hb. symmetry. by apply (Hsame x).
Qed.

(** ** Fork flags are raised by forks only *)

Definition flags_real (g : Hashgraph) : Prop :=
  ∀ i, known_forkers g !! i = Some true → ¬ no_forks g g.

Definition flags_clear (g : Hashgraph) : Prop :=
  ∀ i b, known_forkers g !! i = Some b → b = false.

Lemma no_forks_mono g1 g2 : extends g1 g2 → no_forks g2 g2 → no_forks g1 g1.
Proof.
  intros Hx Hn h1 h2 r1 r2 H1 H2 Hc Hp.
  destruct (ext_records _ _ Hx h1 r1 H1) as (q1 & Q1 & E1 & _).
  destruct (ext_records _ _ Hx h2 r2 H2) as (q2 & Q2 & E2 & _).
  apply (Hn h1 h2 q1 q2 Q1 Q2); congruence.
Qed.

Lemma flags_real_stored `{Sha256} g g1 e hash i sp op sq row :
  graph_wf g → checked g e hash i sp op → stored g g1 e hash i sp op sq row →
  flags_real g → flags_real g1.
Proof.
  intros Hg Hck Hst Hreal j Hj Hnf.
  assert (no_forks g g) as Hnf0.
  { intros h1 h2 r1 r2 H1 H2. apply Hnf; by eapply stored_old. }
  destruct (stored_branch g g1 e hash i sp op sq row Hg Hck Hst) as [(ex & Hex & Hne & _ & Hk)|(_ & _ & Hk)].
  - apply Hne. destruct (wf_first_child _ Hg _ _ _ Hex) as (r & Hr & Hc & Hp).
    eapply Hnf; [by eapply stored_old|by eapply stored_new|done..].
  - rewrite Hk in Hj. by apply (Hreal j).
Qed.

Lemma flags_real_shape g1 g2 : same_shape g1 g2 → flags_real g1 → flags_real g2.
Proof.
  intros Hs Hreal j. rewrite <- (shape_forkers _ _ Hs). intros Hj Hnf. apply (Hreal j Hj).
  intros h1 h2 r1 r2 H1 H2 Hc Hp.
  destruct (shape_get_Some _ _ _ _ Hs H1) as (q1 & Q1 & E1 & _).
  destruct (shape_get_Some _ _ _ _ Hs H2) as (q2 & Q2 & E2 & _).
  apply (Hnf h1 h2 q1 q2 Q1 Q2); congruence.
Qed.

Lemma insert_flags_real `{Sha256, HashOrder} B g e r g' :
  ready B g → wf_event e → (1 ≤ B)%N → (B + 4 < u64_modulus)%N →
  insert e g = (r, g') → flags_real g → flags_real g'.
Proof.
  intros Hr He HB1 Hcap Hins Hreal.
  destruct (insert_total B g e Hr (wf_signature _ He) Hcap HB1)
    as [[err Herr]|(hash & i & sp & op & g2 & g3 & Hok & _ & Hin & Hsk & _)].
  { by assert (g' = g) as -> by congruence. }
  assert (g' = g3) as -> by congruence.
  pose proof (ins_checked _ _ _ _ _ _ _ _ Hin) as Hck.
  destruct (ins_stored _ _ _ _ _ _ _ _ Hin) as (g1 & sq & row & total & Hst & _ & _ & Hg2). cbn zeta in Hg2.
  apply (flags_real_shape g2); [apply Hsk|]. rewrite Hg2.
  eapply flags_real_shape; [apply finalized_shape|]. by eapply flags_real_stored; [apply Hr|..].
Qed.

Lemma later_flags_clear `{Sha256, HashOrder} genesis n g :
  later (new genesis) n g → (2 * N.of_nat n + 3 < u64_modulus)%N → no_forks g g → flags_clear g.
Proof.
  intros Hl Hcap Hnf. assert (flags_real g) as Hreal.
  { assert (∀ m g', later (new genesis) m g' → m ≤ n → ready (1 + 2 * N.of_nat m) g') as Hready.
    { intros m g' Hm Hle. eapply later_extends; [exact Hm|apply new_ready|..]; lia. }
    clear Hnf. induction Hl as [|n g1 g2 e r Hl IH He Hi].
    - intros i. simpl. by intros [? _]%lookup_replicate.
    - eapply insert_flags_real; [apply (Hready n); [done|lia]|exact He|..|exact Hi|apply IH]; try lia.
      intros; apply Hready; [done|lia]. }
  intros i [] Hi; [|done]. by destruct (Hreal i Hi).
Qed.

(** ** Strongly seeing without forks *)

Section clear.
Context (g : Hashgraph) (Hg : graph_wf g) (Hclear : flags_clear g).

Lemma member_flag c i : member_index g !! c = Some i → known_forkers g !! i = Some false.
Proof.
  intros Hi. destruct (wf_forker_flag g Hg c i Hi) as [b Hb]. by rewrite (Hclear i b Hb) in Hb.
Qed.

Lemma clear_no_forks_below x c : is_Some (member_index g !! c) → ¬ forks_below g x c.
Proof. intros [i Hi]. eapply wf_no_forks_below; [done..|]. by eapply member_flag. Qed.

Lemma clear_sees x y : is_Some (get g y) → sees g x y ↔ anc g x y.
Proof.
  intros [ry Hy]. split; [by intros (? & _ & ? & _)|]. intros Ha. exists ry. split_and!; [done..|].
  apply clear_no_forks_below, (rw_creator _ _ _ (wf_record _ Hg _ _ Hy)).
Qed.

Lemma clear_counted x y rx ry c i :
  get g x = Some rx → get g y = Some ry → member_index g !! c = Some i →
  counted g x y rx (c, i) = true ↔ vouches g x y c.
Proof.
  intros Hx Hy Hi. split; [by apply (counted_vouches g Hg x y rx ry)|].
  intros Hv. unfold counted; simpl. destruct (wf_row_lookup g Hg x rx c i Hx Hi) as [s Hs]. rewrite Hs.
  destruct Hv as (z & rz & Hz & Hrz & Hcz & Hsee).
  destruct (rw_row_max _ _ _ (wf_record _ Hg _ _ Hx) c i s z (rec_seq rz) Hi Hs Hz) as [Hle|Hfork];
    [by exists rz| |by destruct (clear_no_forks_below x c (mk_is_Some _ _ Hi))].
  pose proof (wf_seq_pos g Hg z rz Hrz). rewrite decide_False by lia.
  destruct (member_chain_reaches_spec g Hg x y rx ry Hx Hy c i s Hi Hs) as (b & -> & _ & Hb); [lia|].
  apply Hb; [by eapply member_flag|]. by exists z, rz.
Qed.

Context `{HashOrder}.

(** Descendants strongly see what their ancestors strongly see. *)
Lemma strongly_mono x x' y :
  is_Some (get g x) → is_Some (get g x') → is_Some (get g y) → anc g x x' →
  (∃ n, member_count_at_round g (round_of g y) = Ok n) →
  strongly g x' y = true → strongly g x y = true.
Proof.
  intros [rx Hx] [rx' Hx'] [ry Hy] Ha [n Hn]. unfold strongly, strongly_see, round_of in *.
  rewrite Hy in *.
  destruct (strongly_see_at_spec g Hg x' y rx' ry Hx' Hy (rec_round ry) n Hn) as (b' & -> & Hb').
  destruct (strongly_see_at_spec g Hg x y rx ry Hx Hy (rec_round ry) n Hn) as (b & -> & Hb).
  intros ->. apply Hb. destruct (proj1 Hb' eq_refl) as [Hs Hq]. split.
  - apply clear_sees; [by eexists|]. etrans; [exact Ha|]. by apply sees_anc.
  - eapply Nat.lt_le_trans; [exact Hq|]. apply Nat.mul_le_mono_r, submseteq_length, NoDup_submseteq.
    + eapply NoDup_fmap_1. apply counted_members_NoDup.
    + intros [c i] [Hcnt Hm]%list_elem_of_filter. pose proof Hm as Hi%elem_of_hm_iter.
      apply list_elem_of_filter. split; [|done].
      apply (clear_counted x y rx ry c i Hx Hy Hi).
      apply (clear_counted x' y rx' ry c i Hx' Hy Hi) in Hcnt as (z & rz & Hz & ?).
      exists z, rz. split; [by etrans|done].
Qed.
End clear.

(** A base round above the first is a parent's. *)
Lemma parent_round_Some g o k :
  parent_round g o = Some k → ∃ p rp, o = Some p ∧ get g p = Some rp ∧ rec_round rp = k.
Proof.
  unfold parent_round. destruct o as [p|]; simpl; [|done].
  destruct (get g p) as [rp|] eqn:E; simpl; [|done]. intros [= <-]. by exists p, rp.
Qed.

Lemma base_parent g e :
  base_of g e = 1%N ∨
  ∃ p rp, p ∈ parents e ∧ get g p = Some rp ∧ rec_round rp = base_of g e.
Proof.
  assert (∀ o k, parent_round g o = Some k → o = self_parent e ∨ o = other_parent e →
    ∃ p rp, p ∈ parents e ∧ get g p = Some rp ∧ rec_round rp = k) as Hpar.
  { intros o k (p & rp & -> & ? & ?)%parent_round_Some Ho. exists p, rp. split_and!; [|done..].
    apply elem_of_parents. destruct Ho as [<-|<-]; auto. }
  unfold base_of, base_round.
  destruct (parent_round g (self_parent e)) as [a|] eqn:Ea, (parent_round g (other_parent e)) as [b|] eqn:Eb.
  - right. destruct (N.max_spec a b) as [[_ ->]|[_ ->]]; [eapply Hpar; [exact Eb|]|eapply Hpar; [exact Ea|]]; auto.
  - right. eapply Hpar; [exact Ea|auto].
  - right. eapply Hpar; [exact Eb|auto].
  - by left.
Qed.

(** ** A fixed membership *)

Section static.
Context `{Sha256, HashOrder} (genesis : MembershipRegistry) (g : Hashgraph) (Hd : determined genesis g).

Lemma static_roster {E} k :
  (1 ≤ k)%N → Roster.roster_for_round (E := E) (roster_history g) k = Ok genesis.
Proof.
  intros Hk. rewrite (dt_roster _ _ Hd). apply RosterFacts.roster_for_round_Ok.
  unfold new, Roster.new. cbn [roster_history snapshots].
  exists 1%N. split; [by rewrite lookup_singleton_eq|]. split; [done|].
  intros a' Ha' _. apply lookup_singleton_is_Some in Ha'. by subst.
Qed.

Lemma static_count k : (1 ≤ k)%N → member_count_at_round g k = Ok (Registry.len genesis).
Proof. intros Hk. unfold member_count_at_round. by rewrite static_roster. Qed.

Lemma static_members_at k : (1 ≤ k)%N → members_at g k = Registry.len genesis.
Proof. intros Hk. unfold members_at. by rewrite static_count. Qed.

Lemma static_member c : is_Some (member_index g !! c) → c ∈ Registry.member_ids genesis.
Proof.
  rewrite (dt_index _ _ Hd). unfold new. cbn [member_index].
  intros [i Hi%lookup_index_members]. by eapply list_elem_of_lookup_2.
Qed.

Lemma static_size : size (dom (member_index g)) ≤ Registry.len genesis.
Proof.
  rewrite (dt_index _ _ Hd). unfold new. cbn [member_index]. unfold index_members.
  rewrite dom_list_to_map_L. transitivity (length (zip (Registry.member_ids genesis)
    (seq 0 (length (Registry.member_ids genesis)))).*1).
  - generalize ((zip (Registry.member_ids genesis) (seq 0 (length (Registry.member_ids genesis)))).*1).
    intros l. induction l as [|x l IH]; [by rewrite list_to_set_nil, size_empty|].
    rewrite list_to_set_cons, size_union_alt, size_singleton.
    transitivity (1 + size (list_to_set (C := gset NodeId) l)); [|simpl; lia].
    apply Nat.add_le_mono_l, subseteq_size. set_solver.
  - rewrite length_fmap, length_zip, length_seq, Nat.min_id.
    unfold Registry.member_ids, Registry.len. by rewrite merge_sort_Permutation, length_fmap, length_map_to_list.
Qed.

Context (B : N) (Hready : ready B g) (Hclear : flags_clear g).

(** Every event of a round above the first strongly sees a supermajority of
    the witnesses of the round before. *)
Lemma strong_quorum y ry :
  get g y = Some ry → (2 ≤ rec_round ry)%N → Registry.len genesis * 2 < length (strong_set g y) * 3.
Proof.
  pose proof (rdy_graph _ _ Hready) as Hg. pose proof (rdy_rounds _ _ Hready) as Hr.
  destruct (wf_acyclic _ Hg) as [rank Hrank].
  remember (rank y) as m eqn:Hm. revert y ry Hm. induction m as [m IH] using lt_wf_ind.
  intros y ry -> Hy Hk.
  set (base := base_of g (rec_event ry)).
  assert (1 ≤ base)%N as Hb by (pose proof (rd_base _ Hr _ _ Hy); unfold base; lia).
  pose proof (dt_round _ _ Hd y ry _ Hy (static_count base Hb)) as Hrule. fold base in Hrule.
  destruct (supermajority (length (climbers g y base)) (Registry.len genesis)) eqn:Hsup.
  - apply supermajority_spec in Hsup. eapply Nat.lt_le_trans; [exact Hsup|].
    apply Nat.mul_le_mono_r, submseteq_length, NoDup_submseteq; [apply NoDup_filter, Hr|].
    intros w [[_ Hs] Hw]%list_elem_of_filter. apply list_elem_of_filter.
    unfold round_of. rewrite Hy, Hrule. replace (base + 1 - 1)%N with base by lia. split; [|done].
    apply (rd_listed _ Hr) in Hw as (rw & Hw & _ & Hrw). unfold strongly, strongly_see.
    rewrite Hw, Hrw. exact Hs.
  - assert (∃ p rp, p ∈ parents (rec_event ry) ∧ get g p = Some rp ∧ rec_round rp = rec_round ry)
      as (p & rp & Hp & Hrp & Heq).
    { destruct (base_parent g (rec_event ry)) as [E|(p & rp & ? & ? & E)]; fold base in E; [lia|].
      exists p, rp. split_and!; congruence. }
    assert (parent_of g y p) as Hpar by (by exists ry).
    eapply Nat.lt_le_trans; [apply (IH (rank p) (Hrank _ _ Hpar) p rp eq_refl Hrp); lia|].
    apply Nat.mul_le_mono_r, submseteq_length, NoDup_submseteq; [apply NoDup_filter, Hr|].
    intros w [Hs Hw]%list_elem_of_filter. apply list_elem_of_filter.
    unfold round_of in *. rewrite Hrp in Hw. rewrite Hy, <- Heq. split; [|done].
    pose proof Hw as (rw & Hrw & _ & _)%(rd_listed _ Hr).
    apply (strongly_mono g Hg Hclear y p w); try (by eexists); [by apply rtc_once| |done].
    eexists. apply static_count. unfold round_of. rewrite Hrw. by eapply (rd_pos _ Hr).
Qed.
End static.
