(* ===== verification/VotePairs.v ===== *)
(** * Two nodes read the same votes and times

    Over two graphs that agree on the events they share ([Agreement]), a
    witness's virtual vote and, without forks, the time at which it first saw
    an event are the same: both are read off the witness's ancestry. *)

From S2P Require Import Prelude Codec External Primitives Membership Graph Ancestry Reach Order.
From S2P Require Import Fame Insert Wf Quorum Store Rounds OrderFacts Voting Reachable Finality.
From S2P Require Import Agreement Ballots ForkFree.

Definition both (g1 g2 : Hashgraph) (x : EventHash) : Prop :=
  is_Some (get g1 x) ∧ is_Some (get g2 x).

Section pairs.
Context `{Sha256} (o1 o2 : HashOrder) (genesis : MembershipRegistry) (g1 g2 : Hashgraph) (B1 B2 : N).
Context (Hd1 : determined (H0 := o1) genesis g1) (Hd2 : determined (H0 := o2) genesis g2).
Context (Hr1 : ready B1 g1) (Hr2 : ready B2 g2) (Hsame : ∀ x, pair_same g1 g2 x).

Let Hg1 := rdy_graph _ _ Hr1.
Let Hg2 := rdy_graph _ _ Hr2.

Lemma pairs_events h r1 r2 : get g1 h = Some r1 → get g2 h = Some r2 → rec_event r1 = rec_event r2.
Proof. intros H1 H2. by apply shape_event, (Hsame h). Qed.

Lemma pairs_anc x y : both g1 g2 x → anc g1 x y → both g1 g2 y.
Proof. intros [H1 H2] Hy. by apply (pair_stored g1 g2 B1 B2 Hr1 Hr2 pairs_events x). Qed.

Lemma pairs_agree x : both g1 g2 x → agree_below g1 g2 x.
Proof.
  intros Hx y Hy. destruct (pairs_anc x y Hx Hy) as [[r1 H1] [r2 H2]].
  exists r1, r2. split_and!; [done..|]. by apply (Hsame y).
Qed.

Lemma pairs_round x : both g1 g2 x → round_of g1 x = round_of g2 x.
Proof.
  intros [[r1 H1] [r2 H2]]. unfold round_of. rewrite H1, H2.
  destruct (Hsame x r1 r2 H1 H2) as [_ Hk]. by injection Hk.
Qed.

Lemma pairs_index : member_index g1 = member_index g2.
Proof. by rewrite (dt_index _ _ Hd1), (dt_index _ _ Hd2). Qed.

Lemma pairs_sees x y : both g1 g2 x → sees g1 x y ↔ sees g2 x y.
Proof. intros Hx. by apply agree_sees, pairs_agree. Qed.

Lemma pairs_see x y : both g1 g2 x → both g1 g2 y → see g1 x y = see g2 x y.
Proof.
  intros Hx Hy. pose proof Hx as [[r1 H1] [r2 H2]]. pose proof Hy as [[q1 Q1] [q2 Q2]].
  destruct (see_spec g1 Hg1 x y r1 q1 H1 Q1) as (b1 & -> & E1).
  destruct (see_spec g2 Hg2 x y r2 q2 H2 Q2) as (b2 & -> & E2).
  rewrite (pairs_sees x y Hx), <- E2 in E1. f_equal. apply eq_true_iff_eq. done.
Qed.

Lemma pairs_strongly x y :
  both g1 g2 x → both g1 g2 y → strongly (H := o1) g1 x y = strongly (H := o2) g2 x y.
Proof.
  intros Hx Hy. pose proof Hy as [[q1 Q1] [q2 Q2]]. unfold strongly, strongly_see. rewrite Q1, Q2.
  pose proof (pairs_round y Hy) as Hrd. unfold round_of in Hrd. rewrite Q1, Q2 in Hrd. rewrite Hrd.
  pose proof (rd_pos _ (rdy_rounds _ _ Hr2) _ _ Q2) as Hpos.
  by rewrite (agree_strongly_see o1 o2 g1 g2 x y q1 q2 (rec_round q2) (Registry.len genesis) Hg1 Hg2
    pairs_index (pairs_agree x Hx) Q1 Q2 (static_count (H0 := o1) genesis g1 Hd1 _ Hpos)
    (static_count (H0 := o2) genesis g2 Hd2 _ Hpos)).
Qed.

Lemma pairs_witness k w :
  both g1 g2 w → w ∈ witnesses_of_round g1 k ↔ w ∈ witnesses_of_round g2 k.
Proof.
  intros [[r1 H1] [r2 H2]]. destruct (Hsame w r1 r2 H1 H2) as [_ Hk]. injection Hk as Hk Hw.
  rewrite (rd_listed _ (rdy_rounds _ _ Hr1)), (rd_listed _ (rdy_rounds _ _ Hr2)).
  split; intros (r & Hr & ? & ?); [exists r2|exists r1]; split_and!; congruence.
Qed.

(** What [x] strongly sees is in its ancestry. *)
Lemma strong_anc (o : HashOrder) g x s :
  graph_wf g → rounds_wf g → is_Some (get g x) → s ∈ strong_set (H := o) g x → anc g x s.
Proof.
  intros Hg Hr [rx Hx] [Hs (rs & Hrs & _ & _)%(rd_listed _ Hr)]%list_elem_of_filter.
  unfold strongly, strongly_see in Hs. rewrite Hrs in Hs.
  destruct (rounds_resolve g (rec_round rs) Hr) as [n Hn]; [by eapply (rd_pos _ Hr)|].
  destruct (strongly_see_at_spec g Hg x s rx rs Hx Hrs _ n Hn) as (b & Hb & Hiff).
  rewrite Hb in Hs. by apply sees_anc, Hiff.
Qed.

Lemma pairs_strong_set x :
  both g1 g2 x → strong_set (H := o1) g1 x ≡ₚ strong_set (H := o2) g2 x.
Proof.
  intros Hx. assert (∀ s, anc g1 x s ∨ anc g2 x s → both g1 g2 s) as Hst.
  { intros s [Hs|Hs]; [by eapply pairs_anc|]. eapply pairs_anc; [exact Hx|].
    by apply (agree_anc_from g1 g2 x s), Hs; apply pairs_agree. }
  apply NoDup_Permutation; [apply NoDup_filter, Hr1|apply NoDup_filter, Hr2|]. intros s.
  assert (both g1 g2 s → s ∈ strong_set (H := o1) g1 x ↔ s ∈ strong_set (H := o2) g2 x) as Hiff.
  { intros Hs. unfold strong_set. rewrite !list_elem_of_filter.
    by rewrite (pairs_strongly x s Hx Hs), (pairs_round x Hx), (pairs_witness _ s Hs). }
  split; intros Hs; apply Hiff; try done; apply Hst.
  - left. apply (strong_anc o1); [done|apply Hr1|apply Hx|done].
  - right. apply (strong_anc o2); [done|apply Hr2|apply Hx|done].
Qed.

Lemma votes_perm vote b l1 l2 : l1 ≡ₚ l2 → votes vote b l1 = votes vote b l2.
Proof. intros Hl. unfold votes. by rewrite Hl. Qed.

Lemma pairs_vote_at d y w :
  both g1 g2 y → both g1 g2 w → vote_at (H := o1) g1 d y w = vote_at (H := o2) g2 d y w.
Proof.
  revert y. induction d as [|[|d] IH]; intros y Hy Hw; [done|simpl; unfold seen_by; by rewrite pairs_see|].
  rewrite !vote_at_next.
  assert (∀ b, votes (λ s, vote_at (H := o1) g1 (S d) s w) b (strong_set (H := o1) g1 y) =
               votes (λ s, vote_at (H := o2) g2 (S d) s w) b (strong_set (H := o2) g2 y)) as Hv.
  { intros b. rewrite <- (votes_perm _ b _ _ (pairs_strong_set y Hy)). apply votes_ext.
    intros s Hs. apply IH; [|done]. eapply pairs_anc; [exact Hy|].
    apply (strong_anc o1); [done|apply Hr1|apply Hy|done]. }
  rewrite !Hv. unfold outcome. pose proof Hy as [[r1 H1] [r2 H2]].
  assert (1 ≤ round_of g2 y)%N as Hpos
    by (unfold round_of; rewrite H2; by eapply (rd_pos _ (rdy_rounds _ _ Hr2))).
  rewrite (pairs_round y Hy), (static_members_at (H0 := o1) genesis g1 Hd1 _ Hpos).
  rewrite (static_members_at (H0 := o2) genesis g2 Hd2 _ Hpos).
  assert (coin_of g1 y = coin_of g2 y) as ->; [|done].
  unfold coin_of, coin_round_vote. rewrite H1, H2. simpl. by rewrite (pairs_events y r1 r2).
Qed.

Lemma pairs_vote y w :
  both g1 g2 y → both g1 g2 w → virtual_vote (H := o1) g1 y w = virtual_vote (H := o2) g2 y w.
Proof.
  intros Hy Hw. unfold virtual_vote, distance. by rewrite !pairs_round, pairs_vote_at.
Qed.
End pairs.

(** ** The earliest candidate does not depend on the iteration order *)

Definition cand_le (p q : N * EventHash) : Prop :=
  (p.1 < q.1)%N ∨ p.1 = q.1 ∧ bytes_le p.2 q.2.

Lemma cand_le_refl p : cand_le p p.
Proof. right. split; [done|]. by destruct (total bytes_le p.2 p.2). Qed.

Lemma cand_le_trans p q r : cand_le p q → cand_le q r → cand_le p r.
Proof.
  intros [?|[? ?]] [?|[? ?]]; [left; lia..|]. right. split; [congruence|]. by etrans.
Qed.

Lemma cand_le_antisym p q : cand_le p q → cand_le q p → p = q.
Proof.
  intros [?|[? H1]] [?|[? H2]]; [lia..|]. destruct p, q; simpl in *. f_equal; [done|].
  by apply (anti_symm bytes_le).
Qed.

Definition pick (earliest : option (N * EventHash)) (p : N * EventHash) : option (N * EventHash) :=
  if replaces earliest p.1 p.2 then Some p else earliest.

Lemma replaces_spec q p : if replaces (Some q) p.1 p.2 then cand_le p q else cand_le q p.
Proof.
  destruct q as [n h], p as [m k]. simpl. unfold cand_le; simpl. unfold bytes_ltb.
  destruct (N.ltb_spec m n); simpl; [by left|]. destruct (N.eqb_spec m n) as [->|]; simpl; [|left; lia].
  destruct (bytes_leb h k) eqn:E; simpl; right; (split; [done|]); [done|].
  destruct (total bytes_le k h) as [|Hle]; [done|]. unfold bytes_le in Hle. congruence.
Qed.

Lemma pick_all_spec l earliest m :
  foldl pick earliest l = Some m →
  (earliest = Some m ∨ m ∈ l) ∧ (∀ a, earliest = Some a → cand_le m a) ∧ ∀ p, p ∈ l → cand_le m p.
Proof.
  revert earliest. induction l as [|p l IH]; intros earliest; simpl.
  { intros ->. split; [by left|]. split; [intros a [= <-]; apply cand_le_refl|]. by intros ? ?%elem_of_nil. }
  intros (Hin & Hle & Hl)%IH. unfold pick in Hin, Hle.
  destruct earliest as [a|].
  - pose proof (replaces_spec a p) as Hrep. destruct (replaces (Some a) p.1 p.2); (split; [|split]).
    + right. destruct Hin as [[= ->]|]; [by left|by right].
    + intros a' [= <-]. eapply cand_le_trans; [by apply Hle|done].
    + intros q [->|]%elem_of_cons; [by apply Hle|by apply Hl].
    + destruct Hin as [|]; [by left|right; by right].
    + intros a' [= <-]. by apply Hle.
    + intros q [->|]%elem_of_cons; [|by apply Hl]. eapply cand_le_trans; [by apply Hle|done].
  - simpl in *. split; [|split; [done|]].
    + right. destruct Hin as [[= ->]|]; [by left|by right].
    + intros q [->|]%elem_of_cons; [by apply Hle|by apply Hl].
Qed.

Lemma pick_all_None l : foldl pick None l = None → l = [].
Proof.
  destruct l as [|p l]; [done|]. simpl. intros Hn. exfalso. revert Hn. unfold pick at 2. simpl.
  generalize p. induction l as [|q l IH]; intros p'; simpl; [done|]. unfold pick at 2.
  destruct (replaces _ _ _); apply IH.
Qed.

Lemma pick_all_perm l1 l2 : l1 ≡ₚ l2 → foldl pick None l1 = foldl pick None l2.
Proof.
  intros Hl. destruct (foldl pick None l1) as [m1|] eqn:E1, (foldl pick None l2) as [m2|] eqn:E2; [|..|done].
  - destruct (pick_all_spec _ _ _ E1) as ([|H1] & _ & L1); [done|].
    destruct (pick_all_spec _ _ _ E2) as ([|H2] & _ & L2); [done|]. f_equal.
    apply cand_le_antisym; [apply L1; by rewrite Hl|apply L2; by rewrite <- Hl].
  - apply pick_all_None in E2 as ->. by apply Permutation_nil_r in Hl as ->.
  - apply pick_all_None in E1 as ->. symmetry in Hl. by apply Permutation_nil_r in Hl as ->.
Qed.

(** A member's contribution to the earliest event. *)
Definition boundary (fuel : nat) (g : Hashgraph) (x y : EventHash) (r : EventRecord)
    (m : NodeId * nat) : option (N * EventHash) :=
  match member_boundary_within fuel g x y r m.1 m.2 with Ok (Some o) => o | _ => None end.

Lemma first_seen_loop_pick g x y rx ry ms earliest :
  graph_wf g → get g x = Some rx → get g y = Some ry →
  (∀ h r, get g h = Some r → is_u64 (rec_seq r)) →
  (∀ m, m ∈ ms → member_index g !! m.1 = Some m.2) →
  first_seen_loop g x y rx ms earliest = Ok (foldl pick earliest (omap (boundary bisect_fuel g x y rx) ms)).
Proof.
  intros Hg Hx Hy Hq. revert earliest. induction ms as [|[c i] ms IH]; intros earliest Hms; [done|].
  cbn [first_seen_loop omap list_omap].
  assert (member_index g !! c = Some i) as Hi by (apply (Hms (c, i)); by left).
  assert (∀ m, m ∈ ms → member_index g !! m.1 = Some m.2) as Hms' by (intros; apply Hms; by right).
  destruct (member_boundary_spec g Hg x y rx ry Hx Hy Hq c i Hi) as (o & Ho & Hcase & _).
  assert (boundary bisect_fuel g x y rx (c, i) = match o with Some o => o | None => None end) as Hb.
  { unfold boundary. unfold member_boundary in Ho. cbn [fst snd]. by rewrite Ho. }
  rewrite Ho, Hb. destruct Hcase as [->|(l & h & -> & _)]; simpl; by rewrite IH.
Qed.

Lemma first_seen_all (o : HashOrder) B g x y rx ry :
  ready B g → get g x = Some rx → get g y = Some ry →
  first_seen_loop g x y rx (member_index_iter g) None =
  Ok (foldl pick None (omap (boundary bisect_fuel g x y rx) (member_index_iter g))).
Proof.
  intros Hr Hx Hy. eapply first_seen_loop_pick; [apply Hr|done|exact Hy|..].
  - intros h r Hh. pose proof (bd_seq _ _ (rdy_bounded _ _ Hr) h r Hh).
    pose proof (bd_cap _ _ (rdy_bounded _ _ Hr)). unfold is_u64. lia.
  - by intros [] ?%elem_of_hm_iter.
Qed.

Section first_seen.
Context `{Sha256} (o1 o2 : HashOrder) (genesis : MembershipRegistry) (g1 g2 : Hashgraph) (B1 B2 : N).
Context (Hd1 : determined (H0 := o1) genesis g1) (Hd2 : determined (H0 := o2) genesis g2).
Context (Hr1 : ready B1 g1) (Hr2 : ready B2 g2) (Hsame : ∀ x, pair_same g1 g2 x).
Context (Hc1 : flags_clear g1) (Hc2 : flags_clear g2).
Context (x y : EventHash) (Hx : both g1 g2 x) (Hy : both g1 g2 y).
Context (r1 r2 : EventRecord) (Hx1 : get g1 x = Some r1) (Hx2 : get g2 x = Some r2).

Let Hg1 := rdy_graph _ _ Hr1.
Let Hg2 := rdy_graph _ _ Hr2.

(** Without forks, the chain event of a sequence number below the row. *)
Lemma clear_chain_event g r c i s up_to :
  graph_wf g → flags_clear g → get g x = Some r → member_index g !! c = Some i →
  rec_ancestor_seqs r !! i = Some up_to → (1 ≤ s ≤ up_to)%N →
  ∃ z, creator_chain_event g x c i s = Ok (Some z) ∧ anc g x z ∧ made_by g c s z.
Proof.
  intros Hg Hc Hxr Hi Hrow Hs. pose proof (member_flag g Hg Hc c i Hi) as Hf.
  destruct (rw_row_found _ _ _ (wf_record _ Hg _ _ Hxr) c i up_to Hi Hrow) as (t & Ht & rt & Hrt & Hct & Hst); [lia|].
  destruct (wf_chain_down g Hg t rt s Hrt) as (z & Hz & Hm); [lia|]. rewrite Hct in Hm.
  exists z. split; [|split; [by etrans|done]]. unfold creator_chain_event, creator_has_known_fork.
  rewrite Hf. simpl. destruct Hm as (rz & Hrz & Hcz & <-). unfold event_for_creator_seq.
  by rewrite (wf_by_seq_lookup g Hg c i z rz Hi Hf Hrz Hcz).
Qed.

Lemma pairs_row : rec_ancestor_seqs r1 = rec_ancestor_seqs r2.
Proof. by apply shape_row, (Hsame x). Qed.

Lemma pairs_chain_event c i s up_to :
  member_index g1 !! c = Some i → rec_ancestor_seqs r1 !! i = Some up_to → (1 ≤ s ≤ up_to)%N →
  ∃ z, creator_chain_event g1 x c i s = Ok (Some z) ∧ creator_chain_event g2 x c i s = Ok (Some z) ∧
    both g1 g2 z.
Proof.
  intros Hi Hrow Hs. pose proof (pairs_index o1 o2 genesis g1 g2 Hd1 Hd2) as Hmi.
  destruct (clear_chain_event g1 r1 c i s up_to Hg1 Hc1 Hx1 Hi Hrow Hs) as (z1 & E1 & A1 & M1).
  rewrite Hmi in Hi. rewrite pairs_row in Hrow.
  destruct (clear_chain_event g2 r2 c i s up_to Hg2 Hc2 Hx2 Hi Hrow Hs) as (z2 & E2 & A2 & M2).
  pose proof (pairs_agree g1 g2 B1 B2 Hr1 Hr2 Hsame x Hx) as Hag.
  apply (agree_made_by g1 g2 x Hag c s z1 A1) in M1.
  assert (z1 = z2) as -> by (eapply (wf_made_by_unique g2 Hg2 c i s); [done|by eapply member_flag|done..]).
  exists z2. do 2 (split; [done|]). by apply (pairs_anc g1 g2 B1 B2 Hr1 Hr2 Hsame x).
Qed.

Lemma pairs_chain_sees c i s up_to :
  member_index g1 !! c = Some i → rec_ancestor_seqs r1 !! i = Some up_to → (1 ≤ s ≤ up_to)%N →
  chain_event_sees g1 x y c i s = chain_event_sees g2 x y c i s.
Proof.
  intros Hi Hrow Hs. destruct (pairs_chain_event c i s up_to Hi Hrow Hs) as (z & E1 & E2 & Hz).
  unfold chain_event_sees. rewrite E1, E2. simpl.
  by rewrite (pairs_see g1 g2 B1 B2 Hr1 Hr2 Hsame z y Hz Hy).
Qed.

Lemma pairs_bisect fuel c i up_to low high :
  member_index g1 !! c = Some i → rec_ancestor_seqs r1 !! i = Some up_to →
  (1 ≤ low)%N → (high ≤ up_to)%N →
  bisect fuel g1 x y c i low high = bisect fuel g2 x y c i low high ∧
  (∀ l, bisect fuel g1 x y c i low high = Ok l → (low ≤ high)%N → (1 ≤ l ≤ up_to)%N).
Proof.
  intros Hi Hrow. revert low high. induction fuel as [|fuel IH]; intros low high Hlo Hhi; simpl.
  { split; [done|]. case_decide; [done|]. intros l [= <-] ?. lia. }
  case_decide as Hlt; [|split; [done|]; intros l [= <-] ?; lia].
  assert (∃ d, ((high - low) `div` 2)%N = d ∧ (d < high - low)%N) as (d & -> & Hd).
  { eexists. split; [done|]. apply N.div_lt; lia. }
  rewrite <- (pairs_chain_sees c i (low + d) up_to) by (done || lia).
  destruct (chain_event_sees g1 x y c i (low + d)) as [[]| |]; simpl; try done.
  - destruct (IH low (low + d)%N) as [E Hl]; [lia..|]. split; [done|]. intros l Hl' _. apply Hl; [done|lia].
  - destruct (IH (low + d + 1)%N high) as [E Hl]; [lia..|]. split; [done|]. intros l Hl' _. apply Hl; [done|lia].
Qed.

Lemma pairs_boundary fuel c i :
  member_index g1 !! c = Some i →
  member_boundary_within fuel g1 x y r1 c i = member_boundary_within fuel g2 x y r2 c i ∧
  ∀ l h, member_boundary_within fuel g1 x y r1 c i = Ok (Some (Some (l, h))) → both g1 g2 h.
Proof.
  intros Hi. unfold member_boundary_within, ancestor_seq. rewrite <- pairs_row.
  destruct (wf_row_lookup g1 Hg1 x r1 c i Hx1 Hi) as [up_to Hrow]. rewrite Hrow. simpl.
  case_decide; [done|]. rewrite <- (pairs_chain_sees c i up_to up_to) by (done || lia).
  destruct (chain_event_sees g1 x y c i up_to) as [[]| |]; simpl; try done.
  destruct (pairs_bisect fuel c i up_to 1 up_to Hi Hrow) as [<- Hl]; [lia..|].
  destruct (bisect fuel g1 x y c i 1 up_to) as [l| |]; simpl; [|done..].
  destruct (pairs_chain_event c i l up_to Hi Hrow) as (z & -> & -> & Hz); [apply Hl; [done|lia]|].
  split; [done|]. simpl. by intros l' h [= <- <-].
Qed.

Lemma pairs_first_seen :
  first_seen_timestamp (H := o1) g1 x y = first_seen_timestamp (H := o2) g2 x y.
Proof.
  pose proof Hy as [[q1 Q1] [q2 Q2]]. unfold first_seen_timestamp. rewrite Hx1, Hx2.
  rewrite (first_seen_all o1 B1 g1 x y r1 q1 Hr1 Hx1 Q1), (first_seen_all o2 B2 g2 x y r2 q2 Hr2 Hx2 Q2).
  assert (omap (boundary bisect_fuel g1 x y r1) (member_index_iter (H := o1) g1) ≡ₚ
          omap (boundary bisect_fuel g2 x y r2) (member_index_iter (H := o2) g2)) as Hp.
  { transitivity (omap (boundary bisect_fuel g2 x y r2) (member_index_iter (H := o1) g1)).
    - assert (∀ m, m ∈ member_index_iter (H := o1) g1 → boundary bisect_fuel g1 x y r1 m = boundary bisect_fuel g2 x y r2 m) as Hb.
      { intros [c i] Hi%elem_of_hm_iter. unfold boundary. cbn [fst snd].
        by destruct (pairs_boundary bisect_fuel c i Hi) as [-> _]. }
      revert Hb. generalize (member_index_iter (H := o1) g1). intros ms.
      induction ms as [|m ms IH]; intros Hb; [done|]. cbn [omap list_omap].
      rewrite (Hb m) by (by left). destruct (boundary bisect_fuel g2 x y r2 m);
        [f_equiv|]; apply IH; intros; apply Hb; by right.
    - apply omap_Permutation. unfold member_index_iter, hm_iter. rewrite !hash_order_perm.
      by rewrite (pairs_index o1 o2 genesis g1 g2 Hd1 Hd2). }
  rewrite <- (pick_all_perm _ _ Hp). clear Hp. cbn [mbind res_bind].
  destruct (foldl pick None (omap _ (member_index_iter (H := o1) g1))) as [[l h]|] eqn:E; simpl; [|done].
  destruct (pick_all_spec _ _ _ E) as ([|([c i] & Hi%elem_of_hm_iter & Hb)%list_elem_of_omap] & _); [done|].
  assert (both g1 g2 h) as [[t1 T1] [t2 T2]].
  { destruct (pairs_boundary bisect_fuel c i Hi) as [_ Hboth]. apply (Hboth l).
    unfold boundary in Hb. cbn [fst snd] in Hb. revert Hb.
    generalize (member_boundary_within bisect_fuel g1 x y r1 c i). intros o.
    destruct o as [[o|]| |]; [|done..]. by intros ->. }
  rewrite T1, T2. simpl. by rewrite (pairs_events g1 g2 Hsame h t1 t2 T1 T2).
Qed.
End first_seen.

(** All first-seen times of an event, for the famous witnesses in any order. *)
Definition first_seen_times `{HashOrder} (g : Hashgraph) (h w : EventHash) : list N :=
  match first_seen_timestamp g w h with Ok o => option_list o | _ => [] end.

Lemma collect_times `{HashOrder} B g ws h :
  ready B g → (∀ w, w ∈ ws → is_Some (get g w)) → is_Some (get g h) →
  collect_first_seen g ws h = Ok (ws ≫= first_seen_times g h).
Proof.
  intros Hr Hws [rh Hh]. induction ws as [|w ws IH]; [done|].
  destruct (Hws w) as [rw Hw]; [by left|].
  assert (∀ x r, get g x = Some r → is_u64 (rec_seq r)) as Hq.
  { intros x r Hx. pose proof (bd_seq _ _ (rdy_bounded _ _ Hr) x r Hx).
    pose proof (bd_cap _ _ (rdy_bounded _ _ Hr)). unfold is_u64. lia. }
  destruct (first_seen_spec g (rdy_graph _ _ Hr) w h rw rh Hw Hh Hq) as (o & Ho & _).
  cbn [collect_first_seen]. rewrite Ho, IH by (intros; apply Hws; by right). simpl.
  unfold first_seen_times at 2. by rewrite Ho.
Qed.

Lemma pairs_collect `{Sha256} (o1 o2 : HashOrder) genesis g1 g2 B1 B2 ws1 ws2 h l1 :
  determined (H0 := o1) genesis g1 → determined (H0 := o2) genesis g2 →
  ready B1 g1 → ready B2 g2 → (∀ x, pair_same g1 g2 x) → flags_clear g1 → flags_clear g2 →
  ws1 ≡ₚ ws2 → (∀ w, w ∈ ws1 → both g1 g2 w) → both g1 g2 h →
  collect_first_seen (H := o1) g1 ws1 h = Ok l1 →
  ∃ l2, collect_first_seen (H := o2) g2 ws2 h = Ok l2 ∧ l1 ≡ₚ l2.
Proof.
  intros Hd1 Hd2 Hr1 Hr2 Hsame Hc1 Hc2 Hp Hws Hh.
  rewrite (collect_times (H := o1) B1 g1 ws1 h Hr1); [|intros; by apply Hws|by apply Hh].
  intros [= <-]. eexists. split.
  { apply (collect_times (H := o2) B2 g2 ws2 h Hr2); [|by apply Hh]. intros w Hw. apply Hws. by rewrite Hp. }
  rewrite <- Hp. clear Hp ws2. apply reflexive_eq. induction ws1 as [|w ws IH]; [done|].
  cbn [mbind list_bind]. f_equal; [|apply IH; intros; apply Hws; by right].
  pose proof (Hws w ltac:(by left)) as Hw. pose proof Hw as [[r1 H1] [r2 H2]]. unfold first_seen_times.
  by rewrite (pairs_first_seen o1 o2 genesis g1 g2 B1 B2 Hd1 Hd2 Hr1 Hr2 Hsame Hc1 Hc2 w h Hw Hh r1 r2 H1 H2).
Qed.
