(* ===== verification/OrderAgreement.v ===== *)
(** * Agreement on the consensus order

    Two nodes that gossip about a fork-free history, each receiving it in its
    own order, put the same events in the same order.  [tracked] is carried
    through insertions: a settled round stays settled because every member has
    passed it.  Fame agrees because two supermajorities of one round share a
    voter and a supermajority before a coin round makes all later votes
    unanimous; the famous witnesses then agree, and with them the events a
    round receives, their timestamps and the order. *)

From S2P Require Import Prelude Codec External Primitives Membership Graph Ancestry Reach Order.
From S2P Require Import Fame Insert Wf Quorum Store Rounds OrderFacts Voting Reachable Finality.
From S2P Require Import Agreement Ballots ForkFree VotePairs.

(** ** Famous witnesses without forks *)

Lemma canonical_stored g w r :
  graph_wf g → no_forks g g → get g w = Some r →
  canonical_child g (creator (rec_event r)) (self_parent (rec_event r)) = Some w.
Proof.
  intros Hg Hnf Hw. unfold canonical_child.
  destruct (rw_first_child _ _ _ (wf_record _ Hg _ _ Hw)) as [h Hh]. rewrite Hh. f_equal.
  destruct (wf_first_child _ Hg _ _ _ Hh) as (rh & Hrh & Hc & Hp). by apply (Hnf h w rh r).
Qed.

Lemma famous_clear g k w :
  graph_wf g → rounds_wf g → no_forks g g →
  w ∈ famous_witnesses_of_round g k ↔ w ∈ witnesses_of_round g k ∧ fame_of g w = Some Famous.
Proof.
  intros Hg Hr Hnf. unfold famous_witnesses_of_round. rewrite list_elem_of_filter.
  assert (w ∈ witnesses_of_round g k → Is_true (canonical_famous g w) ↔ fame_of g w = Some Famous) as Hiff;
    [|naive_solver].
  intros (r & Hw & _)%(rd_listed _ Hr). unfold canonical_famous.
  rewrite Hw, (canonical_stored g w r Hg Hnf Hw), (bool_decide_eq_true_2 (Some w = Some w)) by done.
  rewrite andb_true_r. apply bool_decide_spec.
Qed.

(** ** The invariant survives an insertion *)

Lemma finalized_next g1 hash fr w : next_round_to_order (finalized g1 hash fr w) = next_round_to_order g1.
Proof. by destruct w. Qed.

Lemma finalized_decided g1 hash fr w : fully_decided_rounds (finalized g1 hash fr w) = fully_decided_rounds g1.
Proof. by destruct w. Qed.

Lemma finalized_highest g1 hash fr w :
  highest_witness_round (finalized g1 hash fr w) =
  if w then N.max (highest_witness_round g1) fr else highest_witness_round g1.
Proof. by destruct w. Qed.

Lemma finalized_undecided g1 hash fr w :
  undecided_witnesses (finalized g1 hash fr w) =
  if w then <[hash := fr]> (undecided_witnesses g1) else undecided_witnesses g1.
Proof. by destruct w. Qed.

Section grow.
Context `{Sha256, HashOrder} (genesis : MembershipRegistry) (B B' : N) (g g2 g' : Hashgraph) (e : Event).
Context (hash : EventHash) (i : nat) (sp op : option EventRecord).
Context (Hr : ready B g) (Hd : determined genesis g) (Ht : tracked g g).
Context (Hins : inserted B g e hash i sp op g2) (Hsk : same_skel g2 g').
Context (Hr' : ready B' g') (Hd' : determined genesis g') (Hnf : no_forks g' g').
Context (Hc : flags_clear g) (Hc' : flags_clear g').

Let Hg := rdy_graph _ _ Hr.
Let Hg' := rdy_graph _ _ Hr'.

Lemma grow_old h r : get g h = Some r → get g2 h = Some r.
Proof. by apply (inserted_old B g e hash i sp op g2). Qed.

Lemma grow_stored h : is_Some (get g h) → both g g' h.
Proof.
  intros [r Hh]. split; [by eexists|].
  destruct (skel_get_Some _ _ _ _ Hsk (grow_old h r Hh)) as (r' & ? & _). by eexists.
Qed.

Lemma grow_inv h : is_Some (get g' h) → h = hash ∨ is_Some (get g h).
Proof.
  intros [r' Hh']. destruct (skel_get_Some _ _ _ _ (symmetry Hsk) Hh') as (r & Hh & _).
  destruct (inserted_inv B g e hash i sp op g2 h r Hins Hh); [by left|right; by eexists].
Qed.

Lemma grow_fresh : get g hash = None.
Proof. apply (ck_fresh _ _ _ _ _ _ (ins_checked _ _ _ _ _ _ _ _ Hins)). Qed.

Lemma grow_same x : pair_same g g' x.
Proof.
  eapply (pair_all _ _ genesis g g' B B'); [exact Hd|exact Hd'|done..|].
  intros h r1 r2 H1 H2. destruct (skel_get_Some _ _ _ _ Hsk (grow_old h r1 H1)) as (r' & Hr2 & He & _).
  congruence.
Qed.

Lemma grow_new : ∃ r', get g' hash = Some r' ∧ rec_event r' = e.
Proof.
  destruct (inserted_new B g e hash i sp op g2 Hins) as (r & Hh & He & _).
  destruct (skel_get_Some _ _ _ _ Hsk Hh) as (r' & ? & He' & _). exists r'. split; [done|congruence].
Qed.

(** Old events keep their ancestry. *)
Lemma grow_anc x y : is_Some (get g x) → anc g' x y → anc g x y.
Proof.
  intros Hx. apply agree_anc_from, (pairs_agree g g' B B' Hr Hr' grow_same). by apply grow_stored.
Qed.

(** A member whose latest event is above round [k] stays above it. *)
Lemma grow_above k r' :
  member_passed_round g k (creator e) = true → get g' hash = Some r' → (k < rec_round r')%N.
Proof.
  unfold member_passed_round. intros Hpass Hh.
  destruct (latest_by_creator g !! creator e) as [l|] eqn:Hl; simpl in Hpass; [|done].
  destruct (wf_latest _ Hg _ _ Hl) as (rl & Hrl & Hcl). rewrite Hrl in Hpass. apply N.ltb_lt in Hpass.
  destruct (grow_stored l) as [_ [rl' Hrl']]; [by eexists|].
  destruct (grow_same l rl rl' Hrl Hrl') as [Hsh Hrk]. injection Hrk as Hrk _.
  destruct grow_new as (q & Hq & He). assert (q = r') as -> by congruence.
  assert (creator (rec_event rl') = creator e) as Hcl' by (by rewrite <- (shape_event _ _ Hsh)).
  assert (l ≠ hash) as Hne by (intros ->; by rewrite grow_fresh in Hrl).
  destruct (N.le_ge_cases (rec_seq r') (rec_seq rl')) as [Hle|Hle].
  - assert (rtc (self_parent_of g') l hash) as Hch.
    { apply (chain_below g' g' Hg' Hg' Hnf (creator e) (rec_seq r') (rec_seq rl')); [| |done].
      - exists r'. split_and!; congruence.
      - by exists rl'. }
    apply self_anc_anc, grow_anc in Hch; [|by eexists].
    destruct (wf_anc_stored g Hg _ _ Hch) as [? Hx]; [by eexists|]. by rewrite grow_fresh in Hx.
  - assert (rtc (self_parent_of g') hash l) as Hch.
    { apply (chain_below g' g' Hg' Hg' Hnf (creator e) (rec_seq rl') (rec_seq r')); [| |done].
      - by exists rl'.
      - exists r'. split_and!; congruence. }
    destruct (self_chain_round g' hash l r' rl' Hg' (rdy_rounds _ _ Hr') Hch Hh Hrl')
      as [|(p & rp & Hp & Hrp & Hle')]; [done|].
    assert (p ∈ parents (rec_event r')) as Hpp by (apply elem_of_parents; by left).
    pose proof (parent_round_le g' hash r' p rp (rdy_rounds _ _ Hr') Hh Hpp Hrp). lia.
Qed.

Lemma grow_settled_above k r' :
  k ∈ fully_decided_rounds g → get g' hash = Some r' → (k < rec_round r')%N.
Proof.
  intros Hk Hh. eapply grow_above; [|done].
  destruct (tk_settled _ _ Ht k Hk) as [(reg & Hreg & Hall)%round_view_complete_spec _].
  rewrite (static_roster genesis g Hd) in Hreg by (by apply (inv_decided _ _ _ (rdy_inv _ _ Hr) k)).
  injection Hreg as <-. apply Hall, (static_member genesis g Hd).
  exists i. apply (ck_index _ _ _ _ _ _ (ins_checked _ _ _ _ _ _ _ _ Hins)).
Qed.

Lemma grow_latest m :
  latest_by_creator g' !! m = latest_by_creator g !! m ∨
  m = creator e ∧ latest_by_creator g' !! m = Some hash.
Proof.
  rewrite <- (shape_latest _ _ (skel_shape _ _ Hsk)).
  destruct (ins_stored _ _ _ _ _ _ _ _ Hins) as (g1 & sq & row & total & Hst & _ & _ & Hg2). cbn zeta in Hg2.
  rewrite Hg2, <- (shape_latest _ _ (finalized_shape _ _ _ _)), (st_latest _ _ _ _ _ _ _ _ _ Hst).
  unfold note_latest. destruct (decide (m = creator e)) as [->|Hm].
  - destruct (latest_by_creator g !! creator e) as [l|] eqn:E; [|right; by rewrite lookup_insert_eq].
    case_decide; [right; by rewrite lookup_insert_eq|by left].
  - left. destruct (latest_by_creator g !! creator e) as [l|] eqn:E; [case_decide; [|done]|];
      by rewrite lookup_insert_ne.
Qed.

Lemma grow_complete k :
  k ∈ fully_decided_rounds g → round_view_complete g' k = Ok true.
Proof.
  intros Hk. pose proof (inv_decided _ _ _ (rdy_inv _ _ Hr) k Hk) as Hk1.
  destruct (tk_settled _ _ Ht k Hk) as [(reg & Hreg & Hall)%round_view_complete_spec _].
  apply round_view_complete_spec. exists reg.
  rewrite (static_roster genesis g Hd) in Hreg by lia. injection Hreg as <-.
  split; [by apply (static_roster genesis g' Hd'); lia|]. intros m Hm. unfold member_passed_round.
  destruct (grow_latest m) as [->|[-> ->]].
  - specialize (Hall m Hm). unfold member_passed_round in Hall.
    destruct (latest_by_creator g !! m) as [l|]; simpl in *; [|done].
    destruct (get g l) as [rl|] eqn:Hl; [|done].
    destruct (grow_stored l) as [_ [rl' Hl']]; [by eexists|]. rewrite Hl'.
    destruct (grow_same l rl rl' Hl Hl') as [_ Hrk]. injection Hrk as Hrk _. by rewrite <- Hrk.
  - simpl. destruct grow_new as (r' & Hh & _). rewrite Hh. apply N.ltb_lt. by eapply grow_settled_above.
Qed.

Lemma grow_witnesses k :
  k ∈ fully_decided_rounds g → witnesses_of_round g2 k = witnesses_of_round g k.
Proof.
  intros Hk. destruct grow_new as (r' & Hh & _). pose proof (grow_settled_above k r' Hk Hh) as Hlt.
  destruct (ins_stored _ _ _ _ _ _ _ _ Hins) as (g1 & sq & row & total & Hst & _ & _ & Hg2). cbn zeta in Hg2.
  destruct (skel_get_Some _ _ _ _ (symmetry Hsk) Hh) as (r2 & Hh2 & _ & _ & _ & Hrd & _).
  rewrite Hg2 in Hh2 |- *. rewrite finalized_get, decide_True in Hh2 by done.
  rewrite (stored_new _ _ _ _ _ _ _ _ _ Hst) in Hh2. injection Hh2 as <-. simpl in Hrd.
  rewrite finalized_witnesses, decide_False by (intros [_ ->]; lia).
  unfold witnesses_of_round. by rewrite (st_witnesses _ _ _ _ _ _ _ _ _ Hst).
Qed.

Lemma grow_fame h : fame_of g2 h = fame_of g h ∨ h = hash ∧ fame_of g h = None ∧
  (fame_of g2 h = None ∨ fame_of g2 h = Some Undecided).
Proof.
  destruct (decide (h = hash)) as [->|Hne].
  - right. split; [done|]. unfold fame_of. rewrite grow_fresh. split; [done|].
    destruct (inserted_new B g e hash i sp op g2 Hins) as (r & -> & _ & Hf & _). simpl. rewrite Hf.
    destruct (rec_is_witness r); auto.
  - left. unfold fame_of. destruct (get g h) as [r|] eqn:Hh; [by rewrite (grow_old h r Hh)|].
    destruct (get g2 h) as [r|] eqn:Hh2; [|done].
    destruct (inserted_inv B g e hash i sp op g2 h r Hins Hh2); congruence.
Qed.

Lemma grow_place h : is_Some (get g h) → same_place g g2 h.
Proof.
  intros [r Hh]. unfold same_place, round_received, consensus_timestamp.
  by rewrite (grow_old h r Hh), Hh.
Qed.

Lemma grow_received h k : round_received g2 h = Some k → is_Some (get g h).
Proof.
  unfold round_received. destruct (get g2 h) as [r|] eqn:Hh; [|done]. simpl. intros Hk.
  destruct (inserted_inv B g e hash i sp op g2 h r Hins Hh) as [->|]; [|by eexists].
  destruct (inserted_new B g e hash i sp op g2 Hins) as (r' & Hr2 & _ & _ & Hn). congruence.
Qed.

Lemma grow_progress :
  next_round_to_order g2 = next_round_to_order g ∧ fully_decided_rounds g2 = fully_decided_rounds g.
Proof.
  destruct (ins_stored _ _ _ _ _ _ _ _ Hins) as (g1 & sq & row & total & Hst & _ & _ & ->).
  rewrite finalized_next, finalized_decided. split; apply Hst.
Qed.

Lemma grow_no_forks : no_forks g g.
Proof.
  intros h1 h2 r1 r2 H1 H2 Hcr Hp.
  destruct (skel_get_Some _ _ _ _ Hsk (grow_old h1 r1 H1)) as (q1 & Q1 & E1 & _).
  destruct (skel_get_Some _ _ _ _ Hsk (grow_old h2 r2 H2)) as (q2 & Q2 & E2 & _).
  apply (Hnf h1 h2 q1 q2 Q1 Q2); congruence.
Qed.

Lemma grow_famous k :
  k ∈ fully_decided_rounds g → famous_witnesses_of_round g2 k = famous_witnesses_of_round g k.
Proof.
  intros Hk. unfold famous_witnesses_of_round. rewrite grow_witnesses by done.
  assert (no_forks g2 g2) as Hnf2.
  { intros h1 h2 r1 r2 H1 H2 Hcr Hp.
    destruct (skel_get_Some _ _ _ _ Hsk H1) as (q1 & Q1 & E1 & _).
    destruct (skel_get_Some _ _ _ _ Hsk H2) as (q2 & Q2 & E2 & _).
    apply (Hnf h1 h2 q1 q2 Q1 Q2); congruence. }
  assert (∀ w, w ∈ witnesses_of_round g k → canonical_famous g2 w = canonical_famous g w) as Hcan.
  { intros w (r & Hw & _)%(rd_listed _ (rdy_rounds _ _ Hr)). unfold canonical_famous.
    rewrite (grow_old w r Hw), Hw, (canonical_stored g w r Hg grow_no_forks Hw).
    rewrite (canonical_stored g2 w r (ins_graph _ _ _ _ _ _ _ _ Hins) Hnf2 (grow_old w r Hw)).
    destruct (grow_fame w) as [->|(-> & _)]; [done|]. by rewrite grow_fresh in Hw. }
  induction (witnesses_of_round g k) as [|w ws IH]; [done|].
  rewrite !filter_cons, (Hcan w) by (by left). rewrite IH; [done|]. intros; apply Hcan; by right.
Qed.

Lemma grow_receives k h :
  k ∈ fully_decided_rounds g → receives g2 k h ↔ receives g k h.
Proof.
  intros Hk. unfold receives. rewrite grow_famous by done.
  assert (∀ w, w ∈ famous_witnesses_of_round g k → sees g2 w h ↔ sees g w h) as Hse.
  { intros w [_ (r & Hw & _)%(rd_listed _ (rdy_rounds _ _ Hr))]%list_elem_of_filter.
    rewrite (sees_shape g2 g' (skel_shape _ _ Hsk)). symmetry.
    apply (pairs_sees g g' B B' Hr Hr' grow_same). apply grow_stored. by eexists. }
  split; intros [? Hall]; (split; [done|]); intros w Hw; apply Hse; auto.
Qed.

Lemma grow_backed w v k : is_Some (get g w) → (1 ≤ k)%N → backed g w v k → backed g' w v k.
Proof.
  intros Hw Hk (Q & Hnd & HQ & Hm). exists Q. split; [done|]. split.
  - intros q [Hq Hv]%HQ. pose proof Hq as (r & Hrq & _)%(rd_listed _ (rdy_rounds _ _ Hr)).
    assert (both g g' q) as Hbq by (apply grow_stored; by eexists).
    rewrite <- (pairs_witness g g' B B' Hr Hr' grow_same k q Hbq). split; [done|]. rewrite <- Hv. symmetry.
    apply (pairs_vote _ _ genesis g g' B B' Hd Hd' Hr Hr' grow_same); [done|by apply grow_stored].
  - rewrite (static_members_at genesis g Hd) in Hm by lia. by rewrite (static_members_at genesis g' Hd') by lia.
Qed.

Lemma grow_highest_le : (highest_witness_round g ≤ highest_witness_round g')%N.
Proof.
  rewrite <- (skel_highest _ _ Hsk).
  destruct (ins_stored _ _ _ _ _ _ _ _ Hins) as (g1 & sq & row & total & Hst & _ & _ & ->).
  rewrite finalized_highest, (st_highest _ _ _ _ _ _ _ _ _ Hst).
  match goal with |- (_ ≤ if ?b then _ else _)%N => destruct b end; lia.
Qed.

Lemma grow_open w :
  fame_of g2 w = Some Undecided → undecided_witnesses g2 !! w = Some (round_of g' w).
Proof.
  intros Hf. unfold fame_of in Hf. destruct (get g2 w) as [r|] eqn:Hw; [|done]. simpl in Hf.
  destruct (rec_is_witness r) eqn:Hwit; [|done].
  assert (round_of g' w = rec_round r) as ->
    by (rewrite <- (round_of_skel g2 g' Hsk); unfold round_of; by rewrite Hw).
  destruct (ins_stored _ _ _ _ _ _ _ _ Hins) as (g1 & sq & row & total & Hst & _ & _ & Hg2). cbn zeta in Hg2.
  destruct (inserted_inv B g e hash i sp op g2 w r Hins Hw) as [->|Hold].
  - rewrite Hg2 in Hw |- *. rewrite finalized_get, decide_True in Hw by done.
    rewrite (stored_new _ _ _ _ _ _ _ _ _ Hst) in Hw. injection Hw as <-. simpl in *.
    rewrite finalized_undecided, Hwit. by rewrite lookup_insert_eq.
  - assert (undecided_witnesses g !! w = Some (rec_round r)) as Hu.
    { rewrite (tk_open _ _ Ht w); [unfold round_of; by rewrite Hold|].
      unfold fame_of. rewrite Hold. simpl. by rewrite Hwit. }
    assert (w ≠ hash) as Hne by (intros ->; by rewrite grow_fresh in Hold).
    rewrite Hg2, finalized_undecided, (st_undecided _ _ _ _ _ _ _ _ _ Hst).
    match goal with |- (if ?b then _ else _) !! _ = _ => destruct b end; [by rewrite lookup_insert_ne|done].
Qed.

Lemma grow_tracked : tracked g' g2.
Proof.
  destruct grow_progress as [Hn Hdec]. pose proof Ht as [T1 T2 T3 T4 T5 T6 T7].
  split; rewrite ?Hn, ?Hdec.
  - intros y ry w b Hy Hb. destruct (inserted_inv B g e hash i sp op g2 y ry Hins Hy) as [->|Hold].
    + destruct (ins_stored _ _ _ _ _ _ _ _ Hins) as (g1 & sq & row & total & Hst & _ & _ & Hg2). cbn zeta in Hg2.
      rewrite Hg2 in Hy. rewrite finalized_get, decide_True in Hy by done.
      rewrite (stored_new _ _ _ _ _ _ _ _ _ Hst) in Hy. by injection Hy as <-.
    + destruct (T1 y ry w b Hold Hb) as [Hw ->]. split; [by apply grow_stored|].
      apply (pairs_vote _ _ genesis g g' B B' Hd Hd' Hr Hr' grow_same); apply grow_stored; [by eexists|done].
  - intros w f Hf Hne. destruct (grow_fame w) as [E|(_ & _ & [E|E])]; [|congruence..]. rewrite E in Hf.
    assert (is_Some (get g w)) as Hw.
    { unfold fame_of in Hf. destruct (get g w); [by eexists|done]. }
    destruct (T2 w f Hf Hne) as (k & Hk & Hb). exists k. pose proof grow_highest_le.
    rewrite <- (pairs_round g g' grow_same w (grow_stored w Hw)). split; [lia|]. apply grow_backed; [done|lia|done].
  - apply grow_open.
  - intros k Hk. split; [by apply grow_complete|]. intros w Hw.
    rewrite <- (witnesses_skel g2 g' Hsk), grow_witnesses in Hw by done.
    destruct (T4 k Hk) as [_ Hset]. specialize (Hset w Hw). unfold fame_settled in *.
    destruct (grow_fame w) as [->|(_ & E & _)]; [done|]. by rewrite E in Hset.
  - done.
  - intros h k Hk. pose proof (grow_received h k Hk) as Hst.
    destruct (grow_place h Hst) as [E1 E2]. rewrite E1 in Hk. destruct (T6 h k Hk) as (? & Hrc & Hpl).
    pose proof (T5 k ltac:(done)) as Hdk. split; [done|]. rewrite grow_receives by done. split; [done|].
    rewrite grow_famous by done. destruct Hpl as (_ & l & ts & Hl & Hm & Hts).
    unfold placed. rewrite E1, E2. split; [done|].
    destruct (pairs_collect _ _ genesis g g' B B' (famous_witnesses_of_round g k) (famous_witnesses_of_round g k) h l
      Hd Hd' Hr Hr' grow_same Hc Hc' (reflexivity _)) as (l' & Hl' & Hp); [|by apply grow_stored|done|].
    { intros w [_ (r & Hw & _)%(rd_listed _ (rdy_rounds _ _ Hr))]%list_elem_of_filter. apply grow_stored. by eexists. }
    exists l', ts. split_and!; [done| |done]. by rewrite <- (median_sorted l l' Hp).
  - intros h k Hh Hk. pose proof (T5 k Hk) as Hdk. rewrite grow_receives by done. intros Hrc.
    assert (is_Some (get g h)) as Hold.
    { destruct Hrc as [Hne Hall]. destruct (famous_witnesses_of_round g k) as [|w ws]; [done|].
      destruct (Hall w ltac:(by left)) as (rh & Hrh & _). by eexists. }
    destruct (grow_place h Hold) as [-> _]. by apply T7.
Qed.
End grow.

Lemma settle_tracked `{Sha256, HashOrder} B g e hash i sp op g2 g' :
  length (signature e) = 64 → (B + 4 < u64_modulus)%N →
  inserted B g e hash i sp op g2 → settle hash g2 = (Ok tt, g') → tracked g2 g2 → tracked g2 g'.
Proof.
  intros Hsig Hcap Hins Hrun Ht. destruct (settle_Ok B g e Hsig Hcap hash i sp op g2 Hins)
    as (g3 & g4 & Hv & Hi3 & Hn & Hs & Hi4). assert (g' = g4) as -> by congruence.
  destruct Hins as [_ _ Hg2 Hr2 Hb2 Hi2].
  assert (tracked g2 g3) as Ht3.
  { unfold mbind, stM_bind, st_get in Hv. cbn beta iota in Hv.
    destruct (get g2 hash) as [r|] eqn:Hh; [|by injection Hv as <-].
    destruct (rec_is_witness r); [|by injection Hv as <-].
    pose proof (keeps_vote_as_witness g2 (B + 1) Hg2 Hr2 Hb2 hash r Hh g2 (conj Hi2 Ht)) as [_ Hk].
    by rewrite Hv in Hk. }
  assert (bounded (B + 2) g2) as Hb2' by (eapply bounded_mono; [| |exact Hb2]; lia).
  assert (inv g2 (B + 2) g3) as Hi3' by (eapply inv_mono; [|exact Hi3]; lia).
  assert (next_round_to_order g3 = 0 ∨ 1 ≤ next_round_to_order g3 ≤ B + 2)%N as Hnext
    by (right; pose proof (inv_next _ _ _ Hi3); lia).
  pose proof (keeps_note_round g2 (B + 2) Hg2 Hr2 Hb2' _ Hnext g3 (conj Hi3' Ht3)) as [_ Hk].
  by rewrite Hn in Hk.
Qed.

(** ** Runs that settle rounds before their coin round *)

(** Ordering never falls so far behind that a coin round comes up. *)
Inductive prompt `{Sha256, HashOrder} (genesis : MembershipRegistry) : nat → Hashgraph → Prop :=
| prompt_new : prompt genesis 0 (new genesis)
| prompt_insert n g e r g' :
    prompt genesis n g → wf_event e →
    (highest_witness_round g + 1 < next_round_to_order g + COIN_ROUND_FREQUENCY)%N →
    insert e g = (r, g') → prompt genesis (S n) g'.

Lemma prompt_later `{Sha256, HashOrder} genesis n g : prompt genesis n g → later (new genesis) n g.
Proof. induction 1; [constructor|by econstructor]. Qed.

(** Every fame decision rests on a tally taken before the coin round. *)
Definition early `{HashOrder} (g : Hashgraph) : Prop :=
  ∀ w f, fame_of g w = Some f → f ≠ Undecided →
    ∃ k, (round_of g w < k)%N ∧ (k + 1 < round_of g w + COIN_ROUND_FREQUENCY)%N ∧
      backed g w (bool_decide (f = Famous)) k.

(** One insertion raises the highest round by at most one. *)
Lemma inserted_highest `{Sha256, HashOrder} B g e hash i sp op g2 :
  ready B g → inserted B g e hash i sp op g2 →
  (highest_witness_round g2 ≤ N.max 1 (highest_witness_round g) + 1)%N.
Proof.
  intros Hr Hin. destruct (ins_stored _ _ _ _ _ _ _ _ Hin) as (g1 & sq & row & total & Hst & _ & _ & ->).
  rewrite finalized_highest, (st_highest _ _ _ _ _ _ _ _ _ Hst).
  pose proof (base_highest g g1 e hash i sp op sq row (rdy_rounds _ _ Hr)
    (ins_checked _ _ _ _ _ _ _ _ Hin) Hst) as Hbase.
  pose proof (round_rule_bounds g1 hash (base_round (rec_round <$> sp) (rec_round <$> op)) total).
  match goal with |- ((if ?b then _ else _) ≤ _)%N => destruct b end; lia.
Qed.

Section insert_tracked.
Context `{Sha256, HashOrder} (genesis : MembershipRegistry) (B : N) (g g' : Hashgraph) (e : Event).
Context (Hr : ready B g) (Hd : determined genesis g) (He : wf_event e).
Context (HB1 : (1 ≤ B)%N) (Hcap : (B + 4 < u64_modulus)%N).
Context (r : res ConsensusError EventHash) (Hrun : insert e g = (r, g')).
Context (Hr' : ready (B + 2) g') (Hd' : determined genesis g') (Hnf : no_forks g' g').
Context (Hc : flags_clear g) (Hc' : flags_clear g').

Lemma insert_tracked : tracked g g → tracked g' g'.
Proof.
  intros Ht. destruct (insert_total B g e Hr (wf_signature _ He) Hcap HB1)
    as [[err Herr]|(hash & i & sp & op & g2 & g3 & Hok & Hs & Hin & Hsk & _)].
  { by assert (g' = g) as -> by congruence. }
  assert (g3 = g') as -> by congruence.
  pose proof (grow_tracked genesis B (B + 2) g g2 g' e hash i sp op Hr Hd Ht Hin Hsk Hr' Hd' Hnf Hc Hc') as Hg2.
  apply (tracked_rebase g2); [done|].
  eapply settle_tracked; [apply (wf_signature _ He)|done|exact Hin|done|].
  by apply (tracked_rebase g'); [symmetry|].
Qed.

(** A candidate still open lies at or above the next round to order. *)
Lemma insert_early :
  tracked g g → (highest_witness_round g + 1 < next_round_to_order g + COIN_ROUND_FREQUENCY)%N →
  early g → early g'.
Proof.
  intros Ht Hprompt Hearly w f Hf Hne. pose proof (insert_tracked Ht) as Ht'.
  destruct (insert_total B g e Hr (wf_signature _ He) Hcap HB1)
    as [[err Herr]|(hash & i & sp & op & g2 & g3 & Hok & Hs & Hin & Hsk & _)].
  { assert (g' = g) as Hgg by congruence. rewrite Hgg in *. by apply Hearly. }
  assert (g3 = g') as -> by congruence.
  pose proof (settle_final B g e (wf_signature _ He) Hcap hash i sp op g2 g' Hin Hs) as Hfin.
  destruct (tk_fame _ _ Ht' w f Hf Hne) as (k & Hk & Hb).
  assert (is_Some (get g' w)) as Hw' by (unfold fame_of in Hf; destruct (get g' w); [by eexists|done]).
  assert (highest_witness_round g' < next_round_to_order g + COIN_ROUND_FREQUENCY)%N as Hhigh.
  { rewrite <- (skel_highest _ _ Hsk). pose proof (inserted_highest B g e hash i sp op g2 Hr Hin).
    pose proof (inv_next _ _ _ (rdy_inv _ _ Hr)). unfold COIN_ROUND_FREQUENCY in *. lia. }
  assert (is_Some (get g w) → round_of g w = round_of g' w) as Hround.
  { intros Hw. apply (pairs_round g g' (grow_same genesis B (B + 2) g g2 g' e hash i sp op Hr Hd Hin Hsk Hr' Hd')).
    eapply grow_stored; [exact Hin|exact Hsk|done]. }
  destruct (decide (next_round_to_order g ≤ round_of g' w)%N) as [Hle|Hlt].
  { exists k. unfold COIN_ROUND_FREQUENCY in *. split; [lia|]. split; [lia|done]. }
  assert (1 ≤ round_of g' w)%N as Hpos.
  { destruct Hw' as [q Hq]. unfold round_of. rewrite Hq. by eapply (rd_pos _ (rdy_rounds _ _ Hr')). }
  pose proof (tk_next _ _ Ht (round_of g' w) ltac:(lia)) as Hset.
  destruct (grow_inv B g g2 g' e hash i sp op Hin Hsk w Hw') as [->|Hw].
  { destruct Hw' as [q Hq].
    pose proof (grow_settled_above genesis B (B + 2) g g2 g' e hash i sp op Hr Hd Ht Hin Hsk Hr' Hd' Hnf
      _ q Hset Hq) as Ha. unfold round_of in Ha. rewrite Hq in Ha. lia. }
  destruct (tk_settled _ _ Ht _ Hset) as [_ Hall].
  assert (∃ f0, fame_of g w = Some f0 ∧ f0 ≠ Undecided) as (f0 & Hf0 & Hne0).
  { assert (fame_settled g w = true) as Hsettled.
    { apply Hall. rewrite <- Hround by done. destruct Hw as [q Hq]. apply (rd_listed _ (rdy_rounds _ _ Hr)).
      exists q. split; [done|]. unfold round_of. rewrite Hq. split; [|done].
      unfold fame_of in Hf. destruct Hw' as [q' Hq']. rewrite Hq' in Hf. simpl in Hf.
      destruct (grow_same genesis B (B + 2) g g2 g' e hash i sp op Hr Hd Hin Hsk Hr' Hd' w q q' Hq Hq') as [_ Hrk].
      injection Hrk as _ ->. by destruct (rec_is_witness q'). }
    unfold fame_settled in Hsettled. destruct (fame_of g w) as [[]|]; try done; eauto. }
  destruct (Hearly w f0 Hf0 Hne0) as (k0 & Hk0 & Hk0' & Hb0).
  pose proof (ext_fame _ _ (inserted_extends B g e hash i sp op g2 Hin) w f0 Hf0 Hne0) as Hf2.
  pose proof (fin_fame _ _ Hfin w f0 Hf2 Hne0) as Hf'. assert (f0 = f) as -> by congruence.
  exists k0. rewrite <- Hround by done. split_and!; [done..|].
  eapply (grow_backed genesis B (B + 2) g g2 g' e hash i sp op); try done. lia.
Qed.
End insert_tracked.

(** Everything the agreement proof uses of one run. *)
Record history `{Sha256, HashOrder} (genesis : MembershipRegistry) (B : N) (g : Hashgraph) : Prop := {
  hi_ready : ready B g;
  hi_determined : determined genesis g;
  hi_forks : no_forks g g;
  hi_clear : flags_clear g;
  hi_tracked : tracked g g;
  hi_early : early g;
}.

(** One insertion of a fork-free run. *)
Lemma later_step `{Sha256, HashOrder} genesis n g e r g' :
  later (new genesis) n g → wf_event e → insert e g = (r, g') →
  (2 * N.of_nat (S n) + 3 < u64_modulus)%N → no_forks g' g' →
  let B := (2 * N.of_nat n + 1)%N in
  ready B g ∧ determined genesis g ∧ ready (B + 2) g' ∧ determined genesis g' ∧
  no_forks g g ∧ flags_clear g ∧ flags_clear g'.
Proof.
  intros Hl He Hi Hcap Hnf. cbn zeta.
  assert (later (new genesis) (S n) g') as Hl' by (by econstructor).
  destruct (later_determined genesis n g Hl) as [Hd Hr]; [lia|].
  destruct (later_determined genesis (S n) g' Hl') as [Hd' Hr']; [lia|].
  assert (extends g g') as Hext
    by (eapply (insert_extends (2 * N.of_nat n + 1) g e); [apply He|lia|done|lia|done]).
  pose proof (no_forks_mono g g' Hext Hnf) as Hnf0.
  replace (2 * N.of_nat (S n) + 1)%N with (2 * N.of_nat n + 1 + 2)%N in Hr' by lia.
  split_and!; try done; (eapply later_flags_clear; [eassumption|lia|done]).
Qed.

Lemma later_tracked `{Sha256, HashOrder} genesis n g :
  later (new genesis) n g → (2 * N.of_nat n + 3 < u64_modulus)%N → no_forks g g → tracked g g.
Proof.
  intros Hl. induction Hl as [|n g g' e r Hl IH He Hi]; intros Hcap Hnf; [apply tracked_new|].
  destruct (later_step genesis n g e r g' Hl He Hi Hcap Hnf) as (Hr & Hd & Hr' & Hd' & Hnf0 & Hc & Hc').
  eapply (insert_tracked genesis (2 * N.of_nat n + 1) g g' e); eauto; [lia..|]. apply IH; [lia|done].
Qed.

Lemma prompt_history `{Sha256, HashOrder} genesis n g :
  prompt genesis n g → (2 * N.of_nat n + 3 < u64_modulus)%N → no_forks g g →
  history genesis (2 * N.of_nat n + 1) g.
Proof.
  intros Hp Hcap Hnf. pose proof (prompt_later _ _ _ Hp) as Hl.
  destruct (later_determined genesis n g Hl Hcap) as [Hd Hr].
  split; try done; [by eapply later_flags_clear|by eapply later_tracked|]. clear Hd Hr Hl.
  induction Hp as [|n g e r g' Hp IH He Hlag Hi]; [done|]. pose proof (prompt_later _ _ _ Hp) as Hl.
  destruct (later_step genesis n g e r g' Hl He Hi Hcap Hnf) as (Hr & Hd & Hr' & Hd' & Hnf0 & Hc & Hc').
  eapply (insert_early genesis (2 * N.of_nat n + 1) g g' e); eauto; [lia..| |apply IH; [lia|done]].
  eapply later_tracked; [done|lia|done].
Qed.

(** ** Two nodes *)

Definition creator_of (g : Hashgraph) (h : EventHash) : NodeId :=
  match get g h with Some r => creator (rec_event r) | None => 0%N end.

Lemma votes_split vote l : votes vote true l + votes vote false l = length l.
Proof.
  unfold votes. induction l as [|s l IH]; [done|]. rewrite !filter_cons.
  destruct (vote s); [rewrite decide_True, decide_False by done|rewrite decide_False, decide_True by done];
    simpl; lia.
Qed.

Lemma votes_all vote v l : (∀ s, s ∈ l → vote s = v) → votes vote v l = length l ∧ votes vote (negb v) l = 0.
Proof.
  intros Hl. assert (votes vote v l = length l) as E.
  { unfold votes. induction l as [|s l IH]; [done|].
    rewrite filter_cons, decide_True by (apply Hl; by left). simpl. f_equal.
    apply IH. intros; apply Hl; by right. }
  split; [done|]. pose proof (votes_split vote l). destruct v; simpl; lia.
Qed.

Section two.
Context `{Sha256} (genesis : MembershipRegistry).
Abbreviation n := (Registry.len genesis).

(** The assumptions are symmetric in the two nodes. *)
Record network (o1 o2 : HashOrder) (B1 B2 : N) (g1 g2 : Hashgraph) : Prop := {
  nw_1 : history (H0 := o1) genesis B1 g1;
  nw_2 : history (H0 := o2) genesis B2 g2;
  nw_forks : no_forks g1 g2;
  nw_same : ∀ x, pair_same g1 g2 x;
}.

Lemma pair_same_sym g1 g2 x : pair_same g1 g2 x → pair_same g2 g1 x.
Proof. intros Hs r1 r2 H1 H2. destruct (Hs r2 r1 H2 H1). done. Qed.

Lemma network_sym o1 o2 B1 B2 g1 g2 : network o1 o2 B1 B2 g1 g2 → network o2 o1 B2 B1 g2 g1.
Proof.
  intros [H1 H2 Hf Hs]. split; [done..|by apply no_forks_sym|]. intros x. by apply pair_same_sym.
Qed.

Section counting.
Context (o1 o2 : HashOrder) (B1 B2 : N) (g1 g2 : Hashgraph) (Hn : network o1 o2 B1 B2 g1 g2).

Let Hr1 := hi_ready _ _ _ (nw_1 _ _ _ _ _ _ Hn).
Let Hr2 := hi_ready _ _ _ (nw_2 _ _ _ _ _ _ Hn).
Let Hd1 := hi_determined _ _ _ (nw_1 _ _ _ _ _ _ Hn).
Let Hd2 := hi_determined _ _ _ (nw_2 _ _ _ _ _ _ Hn).
Let Hsame := nw_same _ _ _ _ _ _ Hn.

Lemma witnesses_creator (o : HashOrder) B g k h1 h2 :
  history (H0 := o) genesis B g → h1 ∈ witnesses_of_round g k → h2 ∈ witnesses_of_round g k →
  creator_of g h1 = creator_of g h2 → h1 = h2.
Proof.
  intros Hh (r1 & H1 & W1 & K1)%(rd_listed _ (rdy_rounds _ _ (hi_ready _ _ _ Hh)))
    (r2 & H2 & W2 & K2)%(rd_listed _ (rdy_rounds _ _ (hi_ready _ _ _ Hh))).
  unfold creator_of. rewrite H1, H2. intros Hc. pose proof (hi_ready _ _ _ Hh) as Hr.
  apply (witness_same g g h1 h2 r1 r2); try done; [apply Hr..|apply Hh| |congruence].
  intros x q1 q2 Q1 Q2. assert (q1 = q2) as -> by congruence. done.
Qed.

Lemma witnesses_creator_cross k h1 h2 :
  h1 ∈ witnesses_of_round g1 k → h2 ∈ witnesses_of_round g2 k →
  creator_of g1 h1 = creator_of g2 h2 → h1 = h2.
Proof.
  intros (r1 & H1 & W1 & K1)%(rd_listed _ (rdy_rounds _ _ Hr1))
    (r2 & H2 & W2 & K2)%(rd_listed _ (rdy_rounds _ _ Hr2)).
  unfold creator_of. rewrite H1, H2. intros Hc.
  apply (witness_same g1 g2 h1 h2 r1 r2); try done; [apply Hr1|apply Hr2|apply Hr1|apply Hr2|apply Hn|congruence].
Qed.

Lemma witness_member (o : HashOrder) B g k h :
  history (H0 := o) genesis B g → h ∈ witnesses_of_round g k →
  creator_of g h ∈ dom (member_index (new genesis)).
Proof.
  intros Hh (r & Hg & _)%(rd_listed _ (rdy_rounds _ _ (hi_ready _ _ _ Hh))).
  unfold creator_of. rewrite Hg, <- (dt_index _ _ (hi_determined _ _ _ Hh)). apply elem_of_dom.
  apply (rw_creator _ _ _ (wf_record _ (rdy_graph _ _ (hi_ready _ _ _ Hh)) _ _ Hg)).
Qed.

(** Witnesses of one round over both nodes: at most one per member. *)
Lemma union_bound k (Q1 Q2 : list EventHash) :
  NoDup Q1 → NoDup Q2 → (∀ q, q ∈ Q1 → q ∈ witnesses_of_round g1 k) →
  (∀ q, q ∈ Q2 → q ∈ witnesses_of_round g2 k) →
  length Q1 + length (filter (λ q, q ∉ Q1) Q2) ≤ n.
Proof.
  intros Hnd1 Hnd2 HQ1 HQ2. set (R := filter _ Q2).
  assert (∀ q, q ∈ R → q ∉ Q1 ∧ q ∈ witnesses_of_round g2 k) as HR
    by (intros q [? ?]%list_elem_of_filter; auto).
  assert (NoDup ((creator_of g1 <$> Q1) ++ (creator_of g2 <$> R))) as Hnd.
  { apply NoDup_app. split_and!.
    - apply NoDup_fmap_2_strong; [|done]. intros x y Hx Hy. eapply (witnesses_creator o1); [apply Hn|auto..].
    - intros c (x & -> & Hx)%list_elem_of_fmap (y & Hc & Hy)%list_elem_of_fmap.
      destruct (HR y Hy) as [Hny Hwy]. apply Hny.
      by rewrite <- (witnesses_creator_cross k x y (HQ1 x Hx) Hwy Hc).
    - apply NoDup_fmap_2_strong; [|by apply NoDup_filter]. intros x y Hx Hy.
      eapply (witnesses_creator o2); [apply Hn|by apply HR..]. }
  rewrite <- (length_fmap (creator_of g1) Q1), <- (length_fmap (creator_of g2) R), <- length_app.
  rewrite <- (size_list_to_set (C := gset NodeId) _ Hnd).
  etrans; [|apply (static_size (H0 := o1) genesis g1 Hd1)]. apply subseteq_size. intros c.
  rewrite elem_of_list_to_set, elem_of_app, (dt_index _ _ Hd1). intros [Hc|Hc].
  - apply list_elem_of_fmap in Hc as (x & -> & Hx). eapply (witness_member o1); [apply Hn|auto].
  - apply list_elem_of_fmap in Hc as (x & -> & Hx). eapply (witness_member o2); [apply Hn|by apply HR].
Qed.
End counting.

(** ** Fame agrees *)

Section fame.
Context (o1 o2 : HashOrder) (B1 B2 : N) (g1 g2 : Hashgraph) (Hn : network o1 o2 B1 B2 g1 g2).
Context (w : EventHash) (Hw : both g1 g2 w).

Let Hr1 := hi_ready _ _ _ (nw_1 _ _ _ _ _ _ Hn).
Let Hr2 := hi_ready _ _ _ (nw_2 _ _ _ _ _ _ Hn).
Let Hd1 := hi_determined _ _ _ (nw_1 _ _ _ _ _ _ Hn).
Let Hd2 := hi_determined _ _ _ (nw_2 _ _ _ _ _ _ Hn).
Let Hsame := nw_same _ _ _ _ _ _ Hn.

Abbreviation vote1 y := (virtual_vote (H := o1) g1 y w).
Abbreviation vote2 y := (virtual_vote (H := o2) g2 y w).

Lemma votes_same y : is_Some (get g1 y) → is_Some (get g2 y) → vote1 y = vote2 y.
Proof.
  intros H1 H2. by apply (pairs_vote o1 o2 genesis g1 g2 B1 B2 Hd1 Hd2 Hr1 Hr2 Hsame).
Qed.

Lemma listed_stored (o : HashOrder) B g k q :
  history (H0 := o) genesis B g → q ∈ witnesses_of_round g k → is_Some (get g q).
Proof. intros Hh (r & ? & _)%(rd_listed _ (rdy_rounds _ _ (hi_ready _ _ _ Hh))). by eexists. Qed.

(** The quorum behind a decision. *)
Lemma backed_quorum (o : HashOrder) B g v k :
  history (H0 := o) genesis B g → backed (H := o) g w v k →
  ∃ Q, NoDup Q ∧ (∀ q, q ∈ Q → q ∈ witnesses_of_round g k ∧ virtual_vote (H := o) g q w = v) ∧
    n * 2 < length Q * 3.
Proof.
  intros Hh (Q & Hnd & HQ & Hm). exists Q. split_and!; [done..|].
  rewrite (static_members_at (H0 := o) genesis g (hi_determined _ _ _ Hh)) in Hm by lia.
  by apply supermajority_spec.
Qed.

(** Two quorums of one round share a voter. *)
Lemma backed_same_round k v1 v2 :
  backed (H := o1) g1 w v1 k → backed (H := o2) g2 w v2 k → v1 = v2.
Proof.
  intros (Q1 & Hnd1 & HQ1 & Hq1)%(backed_quorum o1 B1); [|apply Hn].
  intros (Q2 & Hnd2 & HQ2 & Hq2)%(backed_quorum o2 B2); [|apply Hn].
  pose proof (union_bound o1 o2 B1 B2 g1 g2 Hn k Q1 Q2 Hnd1 Hnd2 (λ q Hq, proj1 (HQ1 q Hq))
    (λ q Hq, proj1 (HQ2 q Hq))) as Hb.
  assert (∃ q, q ∈ Q1 ∧ q ∈ Q2) as (q & HA & HB).
  { destruct (decide (Exists (λ q, q ∈ Q1) Q2)) as [(q & ? & ?)%Exists_exists|Hno]; [by exists q|].
    rewrite <- Forall_Exists_neg in Hno. rewrite Forall_forall in Hno.
    assert (filter (λ q, q ∉ Q1) Q2 = Q2) as E.
    { clear -Hno. induction Q2 as [|q Q2 IH]; [done|].
      rewrite filter_cons, decide_True by (apply Hno; by left). f_equal. apply IH.
      intros; apply Hno; by right. }
    rewrite E in Hb. lia. }
  destruct (HQ1 q HA) as [W1 <-], (HQ2 q HB) as [W2 <-].
  apply votes_same; [eapply (listed_stored o1); [apply Hn|done]|eapply (listed_stored o2); [apply Hn|done]].
Qed.

Lemma strong_set_quorum k y :
  y ∈ witnesses_of_round g2 (k + 1) → (1 ≤ k)%N →
  NoDup (strong_set (H := o2) g2 y) ∧ n * 2 < length (strong_set (H := o2) g2 y) * 3 ∧
  ∀ s, s ∈ strong_set (H := o2) g2 y → s ∈ witnesses_of_round g2 k.
Proof.
  intros (r & Hy & _ & Hrd)%(rd_listed _ (rdy_rounds _ _ Hr2)) Hk. split_and!.
  - apply NoDup_filter, Hr2.
  - eapply (strong_quorum (H0 := o2) genesis g2 Hd2 B2 Hr2); [apply Hn|exact Hy|lia].
  - intros s [_ Hs]%list_elem_of_filter. unfold round_of in Hs. rewrite Hy, Hrd in Hs.
    by replace (k + 1 - 1)%N with k in Hs by lia.
Qed.

Lemma vote_next k y :
  y ∈ witnesses_of_round g2 (k + 1) → (round_of g2 w < k)%N →
  vote2 y = outcome g2 (N.to_nat (k + 1 - round_of g2 w)) y
    (votes (λ s, vote2 s) true (strong_set (H := o2) g2 y))
    (votes (λ s, vote2 s) false (strong_set (H := o2) g2 y)) ∧
  members_at g2 (round_of g2 y) = n.
Proof.
  intros (r & Hy & _ & Hrd)%(rd_listed _ (rdy_rounds _ _ Hr2)) Hk.
  destruct Hw as [_ [rw Hrw]]. unfold round_of in Hk. rewrite Hrw in Hk.
  rewrite (virtual_vote_tally g2 (rdy_rounds _ _ Hr2) y w r rw Hy Hrw) by lia.
  unfold distance, round_of. rewrite Hy, Hrw, Hrd. split; [done|].
  apply (static_members_at (H0 := o2) genesis g2 Hd2). lia.
Qed.

(** After a quorum of round [k], outside coin rounds, round [k + 1] agrees. *)
Lemma backed_carries v k y :
  backed (H := o1) g1 w v k → (round_of g2 w < k)%N → (k + 1 < round_of g2 w + COIN_ROUND_FREQUENCY)%N →
  y ∈ witnesses_of_round g2 (k + 1) → vote2 y = v.
Proof.
  intros (Q1 & Hnd1 & HQ1 & Hq1)%(backed_quorum o1 B1) Hk Hcoin Hy; [|apply Hn].
  destruct (strong_set_quorum k y Hy) as (HndS & HqS & HS); [lia|].
  destruct (vote_next k y Hy Hk) as [-> Hm]. set (S2 := strong_set g2 y) in *.
  pose proof (union_bound o1 o2 B1 B2 g1 g2 Hn k Q1 S2 Hnd1 HndS (λ q Hq, proj1 (HQ1 q Hq)) HS) as Hb.
  assert (votes (λ s, vote2 s) (negb v) S2 ≤ length (filter (λ q, q ∉ Q1) S2)) as Hagainst.
  { unfold votes. apply submseteq_length, NoDup_submseteq; [by apply NoDup_filter|].
    intros s [Hs Hin]%list_elem_of_filter. apply list_elem_of_filter. split; [|done].
    intros HsQ. destruct (HQ1 s HsQ) as [W1 V1].
    assert (vote1 s = vote2 s) as E.
    { apply votes_same; [eapply (listed_stored o1); [apply Hn|done]|].
      eapply (listed_stored o2); [apply Hn|by apply HS]. }
    rewrite V1, Hs in E. by destruct v. }
  pose proof (votes_split (λ s, vote2 s) S2) as Hsum. unfold outcome.
  assert (N.of_nat (N.to_nat (k + 1 - round_of g2 w)) `mod` COIN_ROUND_FREQUENCY =? 0 = false)%N as ->.
  { apply N.eqb_neq. rewrite N2Nat.id, N.mod_small; unfold COIN_ROUND_FREQUENCY in *; lia. }
  simpl. destruct v; simpl in Hagainst; [apply Nat.leb_le|apply Nat.leb_gt]; lia.
Qed.

(** Unanimity carries over every round, coin rounds included. *)
Lemma unanimous_carries v k y :
  (∀ s, s ∈ witnesses_of_round g2 k → vote2 s = v) → (round_of g2 w < k)%N →
  y ∈ witnesses_of_round g2 (k + 1) → vote2 y = v.
Proof.
  intros Hall Hk Hy. destruct (strong_set_quorum k y Hy) as (HndS & HqS & HS); [lia|].
  destruct (vote_next k y Hy Hk) as [-> Hm]. set (S2 := strong_set g2 y) in *.
  destruct (votes_all (λ s, vote2 s) v S2) as [E1 E2]; [auto|]. unfold outcome. rewrite Hm.
  destruct v; simpl in E2; rewrite E1, E2.
  - simpl. assert (supermajority (length S2) n = true) as -> by (by apply supermajority_spec).
    by rewrite andb_false_r.
  - assert (length S2 <=? 0 = false) as -> by (apply Nat.leb_gt; lia).
    assert (supermajority (length S2) n = true) as -> by (by apply supermajority_spec).
    by rewrite andb_false_r.
Qed.

Lemma backed_forever v k j y :
  backed (H := o1) g1 w v k → (round_of g2 w < k)%N → (k + 1 < round_of g2 w + COIN_ROUND_FREQUENCY)%N →
  (k < j)%N → y ∈ witnesses_of_round g2 j → vote2 y = v.
Proof.
  intros Hb Hk Hcoin Hj. replace j with (k + 1 + N.of_nat (N.to_nat (j - k - 1)))%N by lia.
  generalize (N.to_nat (j - k - 1)). intros d. revert y. induction d as [|d IH]; intros y Hy.
  - rewrite N.add_0_r in Hy. by eapply backed_carries.
  - eapply (unanimous_carries v (k + 1 + N.of_nat d)); [done|lia|].
    by replace (k + 1 + N.of_nat d + 1)%N with (k + 1 + N.of_nat (S d))%N by lia.
Qed.

Lemma backed_agree v1 v2 k1 k2 :
  backed (H := o1) g1 w v1 k1 → backed (H := o2) g2 w v2 k2 →
  (round_of g2 w < k1)%N → (k1 + 1 < round_of g2 w + COIN_ROUND_FREQUENCY)%N → (k1 ≤ k2)%N → v1 = v2.
Proof.
  intros Hb1 Hb2 Hk Hcoin Hle. destruct (decide (k1 = k2)) as [->|Hne]; [by eapply backed_same_round|].
  apply (backed_quorum o2 B2) in Hb2 as (Q2 & _ & HQ2 & Hq2); [|apply Hn].
  destruct Q2 as [|q Q2]; [simpl in Hq2; lia|]. destruct (HQ2 q) as [Hq <-]; [by left|].
  symmetry. apply (backed_forever v1 k1 k2); [done..|lia|done].
Qed.
End fame.

Lemma fame_agree o1 o2 B1 B2 g1 g2 w f1 f2 :
  network o1 o2 B1 B2 g1 g2 → fame_of g1 w = Some f1 → fame_of g2 w = Some f2 →
  f1 ≠ Undecided → f2 ≠ Undecided → f1 = f2.
Proof.
  intros Hn H1 H2 Hne1 Hne2.
  assert (both g1 g2 w) as Hw.
  { unfold fame_of in H1, H2. unfold both. by destruct (get g1 w), (get g2 w). }
  pose proof (pairs_round g1 g2 (nw_same _ _ _ _ _ _ Hn) w Hw) as Hrd.
  destruct (hi_early _ _ _ (nw_1 _ _ _ _ _ _ Hn) w f1 H1 Hne1) as (k1 & L1 & C1 & Hb1).
  destruct (hi_early _ _ _ (nw_2 _ _ _ _ _ _ Hn) w f2 H2 Hne2) as (k2 & L2 & C2 & Hb2).
  assert (bool_decide (f1 = Famous) = bool_decide (f2 = Famous)) as Heq.
  { destruct (N.le_ge_cases k1 k2) as [Hle|Hle].
    - eapply (backed_agree o1 o2 B1 B2 g1 g2); try done; by rewrite <- Hrd.
    - symmetry. eapply (backed_agree o2 o1 B2 B1 g2 g1); try done; [by apply network_sym|by destruct Hw|..];
        by rewrite Hrd. }
  destruct f1, f2; try done; rewrite !bool_decide_decide in Heq; by repeat case_decide.
Qed.

(** ** A round both nodes have settled *)

Section settled.
Context (o1 o2 : HashOrder) (B1 B2 : N) (g1 g2 : Hashgraph) (Hn : network o1 o2 B1 B2 g1 g2).
Context (k : N) (Hk : (1 ≤ k)%N) (Hk2 : (k < next_round_to_order g2)%N).

Let Hr1 := hi_ready _ _ _ (nw_1 _ _ _ _ _ _ Hn).
Let Hr2 := hi_ready _ _ _ (nw_2 _ _ _ _ _ _ Hn).
Let Hd1 := hi_determined _ _ _ (nw_1 _ _ _ _ _ _ Hn).
Let Hd2 := hi_determined _ _ _ (nw_2 _ _ _ _ _ _ Hn).
Let Ht1 := hi_tracked _ _ _ (nw_1 _ _ _ _ _ _ Hn).
Let Ht2 := hi_tracked _ _ _ (nw_2 _ _ _ _ _ _ Hn).
Let Hsame := nw_same _ _ _ _ _ _ Hn.

(** Both know every witness of the round. *)
Lemma settled_known w : w ∈ witnesses_of_round g1 k → is_Some (get g2 w).
Proof.
  intros (r & Hw & _ & Hrd)%(rd_listed _ (rdy_rounds _ _ Hr1)).
  pose proof (wf_record _ (rdy_graph _ _ Hr1) _ _ Hw) as Hrec.
  assert (creator (rec_event r) ∈ Registry.member_ids genesis) as Hm
    by (apply (static_member (H0 := o1) genesis g1 Hd1), (rw_creator _ _ _ Hrec)).
  destruct (tk_settled _ _ Ht2 k (tk_next _ _ Ht2 k ltac:(done)))
    as [(reg & Hreg & Hall)%round_view_complete_spec _].
  rewrite (static_roster (H0 := o2) genesis g2 Hd2) in Hreg by done. injection Hreg as <-.
  specialize (Hall _ Hm). unfold member_passed_round in Hall.
  destruct (latest_by_creator g2 !! _) as [l|] eqn:Hl; simpl in Hall; [|done].
  destruct (wf_latest _ (rdy_graph _ _ Hr2) _ _ Hl) as (rl & Hrl & Hcl). rewrite Hrl in Hall.
  apply N.ltb_lt in Hall. destruct (N.le_ge_cases (rec_seq r) (rec_seq rl)) as [Hle|Hle].
  - assert (rtc (self_parent_of g2) l w) as Hch.
    { apply (chain_below g1 g2 (rdy_graph _ _ Hr1) (rdy_graph _ _ Hr2) (nw_forks _ _ _ _ _ _ Hn)
        (creator (rec_event r)) (rec_seq r) (rec_seq rl)); [by exists r|by exists rl|done]. }
    apply self_anc_anc in Hch. eapply wf_anc_stored; [apply Hr2|exact Hch|by eexists].
  - assert (rtc (self_parent_of g1) w l) as Hch.
    { apply (chain_below g2 g1 (rdy_graph _ _ Hr2) (rdy_graph _ _ Hr1)
        (no_forks_sym _ _ (nw_forks _ _ _ _ _ _ Hn)) (creator (rec_event r)) (rec_seq rl) (rec_seq r));
        [by exists rl|by exists r|done]. }
    pose proof (self_anc_anc _ _ _ Hch) as Ha.
    destruct (wf_anc_stored g1 (rdy_graph _ _ Hr1) _ _ Ha) as [rl1 Hrl1]; [by eexists|].
    destruct (Hsame l rl1 rl Hrl1 Hrl) as [_ Hrk]. injection Hrk as Hrk _.
    destruct (self_chain_round g1 w l r rl1 (rdy_graph _ _ Hr1) (rdy_rounds _ _ Hr1) Hch Hw Hrl1)
      as [->|(p & rp & Hp & Hrp & Hle')]; [by eexists|].
    assert (p ∈ parents (rec_event r)) as Hpp by (apply elem_of_parents; by left).
    pose proof (parent_round_le g1 w r p rp (rdy_rounds _ _ Hr1) Hw Hpp Hrp). lia.
Qed.

Lemma settled_famous w :
  w ∈ famous_witnesses_of_round g1 k → both g1 g2 w ∧ w ∈ famous_witnesses_of_round g2 k.
Proof.
  rewrite (famous_clear g1 k w); [|apply Hr1|apply Hr1|apply Hn].
  rewrite (famous_clear g2 k w); [|apply Hr2|apply Hr2|apply Hn]. intros [Hw Hf].
  assert (both g1 g2 w) as Hb.
  { split; [|by apply settled_known]. by eapply (listed_stored o1); [apply Hn|]. }
  pose proof (proj1 (pairs_witness g1 g2 B1 B2 Hr1 Hr2 Hsame k w Hb) Hw) as Hw2. split; [done|]. split; [done|].
  destruct (tk_settled _ _ Ht2 k (tk_next _ _ Ht2 k ltac:(done))) as [_ Hset]. specialize (Hset w Hw2).
  unfold fame_settled in Hset. destruct (fame_of g2 w) as [f|] eqn:Hf2; [|done].
  f_equal. symmetry. eapply (fame_agree o1 o2 B1 B2 g1 g2 w); try done. by intros ->.
Qed.

End settled.

Lemma famous_agree o1 o2 B1 B2 g1 g2 k :
  network o1 o2 B1 B2 g1 g2 → (1 ≤ k)%N → (k < next_round_to_order g1)%N → (k < next_round_to_order g2)%N →
  famous_witnesses_of_round g1 k ≡ₚ famous_witnesses_of_round g2 k.
Proof.
  intros Hn Hk Hk1 Hk2. apply NoDup_Permutation.
  - apply NoDup_filter, (hi_ready _ _ _ (nw_1 _ _ _ _ _ _ Hn)).
  - apply NoDup_filter, (hi_ready _ _ _ (nw_2 _ _ _ _ _ _ Hn)).
  - intros w. split; intros Hw.
    + by apply (settled_famous o1 o2 B1 B2 g1 g2 Hn k Hk Hk2 w).
    + by apply (settled_famous o2 o1 B2 B1 g2 g1 (network_sym _ _ _ _ _ _ Hn) k Hk Hk1 w).
Qed.

Lemma receives_agree o1 o2 B1 B2 g1 g2 k h :
  network o1 o2 B1 B2 g1 g2 → (1 ≤ k)%N → (k < next_round_to_order g1)%N → (k < next_round_to_order g2)%N →
  receives g1 k h → both g1 g2 h ∧ receives g2 k h.
Proof.
  intros Hn Hk Hk1 Hk2 [Hne Hall].
  assert (∀ w, w ∈ famous_witnesses_of_round g1 k → both g1 g2 w) as Hboth
    by (intros w Hw; by apply (settled_famous o1 o2 B1 B2 g1 g2 Hn k Hk Hk2 w)).
  pose proof (famous_agree o1 o2 B1 B2 g1 g2 k Hn Hk Hk1 Hk2) as Hp.
  pose proof (hi_ready _ _ _ (nw_1 _ _ _ _ _ _ Hn)) as Hr1.
  pose proof (hi_ready _ _ _ (nw_2 _ _ _ _ _ _ Hn)) as Hr2.
  pose proof (nw_same _ _ _ _ _ _ Hn) as Hsame. split.
  - destruct (famous_witnesses_of_round g1 k) as [|w ws]; [done|].
    eapply (pairs_anc g1 g2 B1 B2 Hr1 Hr2 Hsame w); [apply Hboth; by left|]. apply sees_anc, Hall. by left.
  - split; [intros E; rewrite E in Hp; by apply Permutation_nil_r in Hp|].
    intros w Hw. rewrite <- Hp in Hw. apply (pairs_sees g1 g2 B1 B2 Hr1 Hr2 Hsame); auto.
Qed.

Lemma received_agree o1 o2 B1 B2 g1 g2 k h :
  network o1 o2 B1 B2 g1 g2 → (k < next_round_to_order g2)%N →
  round_received g1 h = Some k →
  both g1 g2 h ∧ round_received g2 h = Some k ∧ consensus_timestamp g1 h = consensus_timestamp g2 h.
Proof.
  intros Hn Hk2 Hrec. pose proof (hi_tracked _ _ _ (nw_1 _ _ _ _ _ _ Hn)) as Ht1.
  pose proof (hi_tracked _ _ _ (nw_2 _ _ _ _ _ _ Hn)) as Ht2.
  destruct (tk_received _ _ Ht1 h k Hrec) as ([Hk Hk1] & Hrc & Hpl1).
  destruct (receives_agree o1 o2 B1 B2 g1 g2 k h Hn Hk Hk1 Hk2 Hrc) as [Hb Hrc2].
  destruct (tk_all _ _ Ht2 h k (proj2 Hb) (conj Hk Hk2) Hrc2) as (j & Hj & Hrec2).
  destruct (tk_received _ _ Ht2 h j Hrec2) as ([Hj1 Hj2] & Hrcj & Hpl2).
  assert (j = k) as ->.
  { destruct (receives_agree o2 o1 B2 B1 g2 g1 j h (network_sym _ _ _ _ _ _ Hn)) as [_ Hr1j]; [lia..|done|].
    destruct (tk_all _ _ Ht1 h j (proj1 Hb)) as (i & Hi & Hreci); [lia|done|].
    assert (i = k) by congruence. lia. }
  split; [done|]. split; [done|].
  destruct Hpl1 as (_ & l1 & ts1 & Hl1 & Hm1 & ->), Hpl2 as (_ & l2 & ts2 & Hl2 & Hm2 & ->).
  destruct (pairs_collect o1 o2 genesis g1 g2 B1 B2 (famous_witnesses_of_round g1 k)
    (famous_witnesses_of_round g2 k) h l1) as (l2' & Hl2' & Hp);
    [apply Hn..|exact (famous_agree o1 o2 B1 B2 g1 g2 k Hn Hk Hk1 Hk2)| |done|done|].
  { intros w Hw. by apply (settled_famous o1 o2 B1 B2 g1 g2 Hn k Hk Hk2 w). }
  assert (l2' = l2) as -> by congruence. rewrite (median_sorted l1 l2 Hp) in Hm1. congruence.
Qed.

(** ** The orders are equal *)
Lemma order_agree o1 o2 B1 B2 g1 g2 k :
  network o1 o2 B1 B2 g1 g2 → (k < next_round_to_order g1)%N → (k < next_round_to_order g2)%N →
  consensus_order (H := o1) g1 k = consensus_order (H := o2) g2 k.
Proof.
  assert (∀ o1 o2 B1 B2 g1 g2, network o1 o2 B1 B2 g1 g2 → (k < next_round_to_order g2)%N → ∀ key,
    key ∈ okey <$> received_entries (H := o1) g1 k → key ∈ okey <$> received_entries (H := o2) g2 k) as Hside.
  { clear. intros o1 o2 B1 B2 g1 g2 Hn Hk2 key.
    intros ([h r] & -> & [Hr Hrr]%elem_of_received_entries)%list_elem_of_fmap.
    assert (round_received g1 h = Some k) as Hrec by (unfold round_received; by rewrite Hr).
    destruct (received_agree o1 o2 B1 B2 g1 g2 k h Hn Hk2 Hrec) as ([_ [r2 Hr2]] & Hrec2 & Hts).
    unfold round_received, consensus_timestamp in *. rewrite Hr, Hr2 in *. simpl in *.
    apply list_elem_of_fmap. exists (h, r2). split; [|by apply elem_of_received_entries].
    unfold okey; simpl. rewrite Hts. do 4 f_equal.
    by apply (pairs_events g1 g2 (nw_same _ _ _ _ _ _ Hn) h). }
  intros Hn Hk1 Hk2. apply consensus_order_ext. intros key. split.
  - by eapply Hside.
  - eapply Hside; [by apply network_sym|done].
Qed.
End two.
