(* ===== verification/AgreementDemo.v ===== *)
(** * Two nodes on one history

    The sixteen events of the ring delivered to two nodes in different orders,
    with different hash-map iteration orders: the runs are prompt and free of
    forks, so that the agreement theorems apply to them. *)

From S2P Require Import Prelude Codec External Primitives Membership Graph Ancestry Reach Order.
From S2P Require Import Fame Insert Wf Quorum Store Rounds OrderFacts Voting Reachable Demo.
From S2P Require Import Finality Agreement Ballots ForkFree VotePairs OrderAgreement.

#[local] Existing Instance toy_sha256.
#[local] Existing Instance toy_ed25519.

(** Is the run through [es] prompt? *)
Fixpoint prompt_check `{HashOrder} (es : list Event) (g : Hashgraph) : bool :=
  match es with
  | [] => true
  | e :: es =>
      (highest_witness_round g + 1 <? next_round_to_order g + COIN_ROUND_FREQUENCY)%N &&
      prompt_check es (insert e g).2
  end.

Lemma prompt_all `{HashOrder} genesis es n g :
  Forall wf_event es → prompt_check es g = true → prompt genesis n g →
  prompt genesis (length es + n) (insert_all_events es g).
Proof.
  intros Hes. revert n g. induction Hes as [|e es He _ IH]; intros n g Hc Hg; [exact Hg|].
  simpl in *. apply andb_true_iff in Hc as [Hlag%N.ltb_lt Hc].
  rewrite <- Nat.add_succ_r. apply IH; [done|].
  eapply prompt_insert; [exact Hg|exact He|exact Hlag|apply surjective_pairing].
Qed.

Lemma demo_prompt `{HashOrder} k es :
  Forall wf_event es → prompt_check es (new (demo_registry k)) = true →
  prompt (demo_registry k) (length es) (demo_graph k es).
Proof.
  intros Hes Hc. rewrite <- (Nat.add_0_r (length es)). apply prompt_all; [done..|apply prompt_new].
Qed.

Definition no_forks_check (g1 g2 : Hashgraph) : bool :=
  forallb (λ e1, forallb (λ e2,
    negb (bool_decide (creator (rec_event e1.2) = creator (rec_event e2.2) ∧
                       self_parent (rec_event e1.2) = self_parent (rec_event e2.2))) ||
    bool_decide (e1.1 = e2.1)) (map_to_list (events g2))) (map_to_list (events g1)).

Lemma no_forks_by_check g1 g2 : no_forks_check g1 g2 = true → no_forks g1 g2.
Proof.
  unfold no_forks_check. rewrite forallb_forall. intros Hall h1 h2 r1 r2 H1 H2 Hc Hp.
  assert (In (h1, r1) (map_to_list (events g1))) as Hin1 by (by apply list_elem_of_In, elem_of_map_to_list).
  assert (In (h2, r2) (map_to_list (events g2))) as Hin2 by (by apply list_elem_of_In, elem_of_map_to_list).
  specialize (Hall _ Hin1). rewrite forallb_forall in Hall. specialize (Hall _ Hin2). simpl in Hall.
  apply orb_true_iff in Hall as [Hn|He]; [|by apply bool_decide_eq_true in He].
  rewrite bool_decide_eq_true_2 in Hn by done. done.
Qed.

(** Sixteen events of the ring, delivered in two orders. *)
Definition ring16 : list Event := Eval vm_compute in ring 16.
Definition ring16' : list Event := Eval vm_compute in
  default [] (mapM (λ i, ring16 !! i) ([3; 2; 1; 0] ++ seq 4 12)).

Lemma ring16_wf : Forall wf_event ring16.
Proof. apply (bool_decide_eq_true_1 _). vm_compute. reflexivity. Qed.

Lemma ring16'_wf : Forall wf_event ring16'.
Proof. apply (bool_decide_eq_true_1 _). vm_compute. reflexivity. Qed.

Definition node1 : Hashgraph := demo_graph (H := identity_order) 4 ring16.
Definition node2 : Hashgraph := demo_graph (H := reverse_order) 4 ring16'.

Lemma node1_prompt : prompt (H0 := identity_order) (demo_registry 4) 16 node1.
Proof. apply (demo_prompt (H := identity_order) 4 ring16 ring16_wf). vm_compute. reflexivity. Qed.

Lemma node2_prompt : prompt (H0 := reverse_order) (demo_registry 4) 16 node2.
Proof. apply (demo_prompt (H := reverse_order) 4 ring16' ring16'_wf). vm_compute. reflexivity. Qed.

Lemma node1_forks : no_forks node1 node1.
Proof. apply no_forks_by_check. vm_compute. reflexivity. Qed.

Lemma node2_forks : no_forks node2 node2.
Proof. apply no_forks_by_check. vm_compute. reflexivity. Qed.

Lemma nodes_forks : no_forks node1 node2.
Proof. apply no_forks_by_check. vm_compute. reflexivity. Qed.
