(* ===== verification/Retain.v ===== *)
(** * Reconnect and pruning

    The operations of [hashgraph.rs] that restore a graph from another node's
    retained events ([insert_accepted], [mark_decided_through],
    [from_checkpoint]) and that drop finalized history
    ([prune_before_round]). *)

From S2P Require Import Prelude Codec External Primitives Membership Graph Ancestry Order Fame.
From S2P Require Import Insert.

(** [reconnect::RetainedEvent]. *)
Record RetainedEvent := {
  re_event : Event;
  re_seq : N;
  re_round : N;
  re_ancestor_seqs : list N;
  re_round_received : option N;
  re_consensus_timestamp : option Timestamp;
}.

#[export] Instance retained_event_eq_dec : EqDecision RetainedEvent.
Proof. solve_decision. Defined.

Definition retained_of (r : EventRecord) : RetainedEvent :=
  {| re_event := rec_event r; re_seq := rec_seq r; re_round := rec_round r;
     re_ancestor_seqs := rec_ancestor_seqs r; re_round_received := rec_round_received r;
     re_consensus_timestamp := rec_consensus_timestamp r |}.

Definition retained_events `{HashOrder} (hg : Hashgraph) : list RetainedEvent :=
  (λ e, retained_of e.2) <$> hm_iter (events hg).

(** ** [insert_accepted] *)

(** [Vec::resize(width, 0)] of a row no longer than [width]. *)
Definition resize_row (width : nat) (row : list N) : list N :=
  take width row ++ replicate (width - length row) 0%N.

Definition check_retained_seq (event : Event) (self_parent_record : option EventRecord) (sq : N) :
    res ConsensusError unit :=
  match self_parent_record with
  | Some record =>
      expected ← ok_or (u64_checked_add (rec_seq record) 1) (InvalidRetainedSeq u64_max sq);
      if decide (sq ≠ expected) then Err (InvalidRetainedSeq expected sq) else mret tt
  | None =>
      match self_parent event with
      | None => if decide (sq ≠ 1%N) then Err (InvalidRetainedSeq 1 sq) else mret tt
      | Some _ => if decide (sq < 1)%N then Err (InvalidRetainedSeq 1 sq) else mret tt
      end
  end.

(** [row.iter().zip(floor.iter()).any(|(&row, &min)| row < min)]. *)
Definition below_floor (row floor : list N) : bool :=
  existsb (λ e, (e.1 <? e.2)%N) (zip row floor).

Definition check_retained_row (width : nat) (creator_idx : nat) (event : Event)
    (self_parent_record other_parent_record : option EventRecord) (sq : N) (row : list N) :
    res ConsensusError unit :=
  let self_pruned := bool_decide (is_Some (self_parent event) ∧ self_parent_record = None) in
  let other_pruned := bool_decide (is_Some (other_parent event) ∧ other_parent_record = None) in
  if self_pruned || other_pruned then
    floor ← merged_row width self_parent_record other_parent_record;
    own ← expect (row !! creator_idx);
    if negb (bool_decide (own = sq)) || below_floor row floor
    then Err InvalidRetainedAncestors else mret tt
  else if bool_decide (is_Some self_parent_record) || bool_decide (is_Some other_parent_record) then
    expected ← merged_row width self_parent_record other_parent_record;
    expected ← vec_set expected creator_idx sq;
    if decide (row ≠ expected) then Err InvalidRetainedAncestors else mret tt
  else
    own ← expect (row !! creator_idx);
    if decide (own ≠ sq) then Err InvalidRetainedAncestors else mret tt.

Definition check_retained_order (round : N) (round_received : option N)
    (consensus_timestamp : option Timestamp) (decided_round : N) : res ConsensusError unit :=
  match round_received, consensus_timestamp with
  | Some received, _ =>
      if decide (received < round ∨ decided_round < received)%N then Err InvalidRetainedOrder
      else mret tt
  | None, None => mret tt
  | None, Some _ => Err InvalidRetainedOrder
  end.

(** [opt.and_then(|h| self.events.get(h))]: a parent may have been pruned. *)
Definition present_parent (hg : Hashgraph) (p : option EventHash) : option EventRecord :=
  p ≫= get hg.

Section retain.
Context `{Sha256, HashOrder}.

Definition insert_accepted (record : RetainedEvent) (decided_round : N) : action EventHash := λ hg,
  let event := re_event record in
  let sq := re_seq record in
  match
    hash ← map_err EncodingFailed (event_hash event);
    if decide (is_Some (get hg hash)) then Err (AlreadyPresent hash) else
    creator_idx ← ok_or (member_index_of hg (creator event)) UnknownCreator;
    if decide (member_count hg < length (re_ancestor_seqs record))
    then Err (AncestorSeqsMismatch (member_count hg) (length (re_ancestor_seqs record))) else
    let row := resize_row (member_count hg) (re_ancestor_seqs record) in
    let sp := present_parent hg (self_parent event) in
    let op := present_parent hg (other_parent event) in
    if match sp with Some r => negb (bool_decide (creator (rec_event r) = creator event))
       | None => false end
    then Err InvalidSelfParent else
    check_retained_seq event sp sq ;;
    check_retained_row (member_count hg) creator_idx event sp op sq row ;;
    let base := base_round (rec_round <$> sp) (rec_round <$> op) in
    if decide (re_round record < base)%N
    then Err (InvalidRetainedRound base (re_round record)) else
    check_retained_order (re_round record) (re_round_received record)
      (re_consensus_timestamp record) decided_round ;;
    '(fc, forkers) ← note_branch (creator event) creator_idx (self_parent event) hash
                       (first_child hg) (known_forkers hg);
    let consensus_timestamp :=
      match re_round_received record, re_consensus_timestamp record with
      | Some _, Some ts => Some ts
      | Some _, None => Some 0%N
      | None, _ => None
      end in
    let live_parents := filter (λ p, is_Some (get hg p)) (parents event) in
    mret (hash,
      Upd.events (<[hash := fresh_record event sq row (re_round record)
                              (re_round_received record) consensus_timestamp]>)
        (Upd.indexes (push_children hash live_parents (children hg)) fc
           (or_insert (creator event, sq) hash (by_creator_seq hg))
           (note_latest hg (creator event) sq hash) forkers hg))
  with
  | Ok (hash, hg') => (Ok hash, hg')
  | Err e => (Err e, hg)
  | Crash c => (Crash c, hg)
  end.

(** ** [mark_decided_through] *)

(** [self.events.values().map(EventRecord::round).max()]. *)
Definition max_retained_round (hg : Hashgraph) : option N :=
  match map_to_list (events hg) with
  | [] => None
  | l => Some (foldr N.max 0%N ((λ e, rec_round e.2) <$> l))
  end.

(** [for r in from..=to]. *)
Definition range_inclusive (from to : N) : list N :=
  (λ i, from + N.of_nat i)%N <$> seq 0 (N.to_nat (to + 1 - from)).

Definition mark_decided_through (round : N) : action unit :=
  hg ← st_get;
  match max_retained_round hg with
  | Some max_retained =>
      if decide (max_retained < round)%N
      then st_fail (DecidedRoundBeyondRetained round max_retained)
      else
        st_modify (Upd.rounds
          (list_to_set (range_inclusive (next_round_to_order hg) round) ∪ fully_decided_rounds hg)
          (next_round_to_order hg)) ;;
        order_decided_rounds
  | None =>
      st_modify (Upd.rounds
        (list_to_set (range_inclusive (next_round_to_order hg) round) ∪ fully_decided_rounds hg)
        (next_round_to_order hg)) ;;
      order_decided_rounds
  end.

(** ** [from_checkpoint]

    The fields of [CheckpointPayload] it reads: the round and the roster
    snapshot. *)
Definition from_checkpoint (round : N) (roster_snapshot : MembershipRegistry)
    (rh : RosterHistory) : Hashgraph :=
  let ids := Registry.member_ids roster_snapshot in
  {| events := ∅; children := ∅; first_child := ∅; by_creator_seq := ∅;
     latest_by_creator := ∅; member_index := index_members ids;
     member_count := length ids; roster_history := rh;
     known_forkers := replicate (length ids) false; witnesses_by_round := ∅;
     undecided_witnesses := ∅; highest_witness_round := round;
     fully_decided_rounds := list_to_set (range_inclusive 1 round);
     next_round_to_order := u64_saturating_add round 1 |}.

(** ** [prune_before_round] *)

(** Neither ordered below [threshold] nor protected by it: a live event. *)
Definition is_live (threshold : N) (r : EventRecord) : bool :=
  match rec_round_received r with Some rr => (threshold <=? rr)%N | None => true end.

(** The ordered events below the threshold that no live event names as a
    parent. *)
Definition pruned_set (hg : Hashgraph) (threshold : N) : gset EventHash :=
  let candidates := dom (filter (λ e, is_live threshold e.2 = false) (events hg)) in
  let protected : gset EventHash :=
    list_to_set (map_to_list (events hg) ≫= λ e,
                   if is_live threshold e.2 then parents (rec_event e.2) else []) in
  candidates ∖ protected.

(** [if map.get(k) == Some(v) { map.remove(k) }]. *)
Definition remove_if `{Countable K, EqDecision V} (k : K) (v : V) (m : gmap K V) : gmap K V :=
  if decide (m !! k = Some v) then delete k m else m.

(** The removal of one pruned event from the events and the indexes. *)
Definition prune_one (hg : Hashgraph) (hash : EventHash) : Hashgraph :=
  match get hg hash with
  | None => hg
  | Some record =>
      let c := creator (rec_event record) in
      let sp := self_parent (rec_event record) in
      let ch := foldl (λ ch p, alter (filter (λ child, child ≠ hash)) p ch) (children hg)
                  (parents (rec_event record)) in
      Upd.events (delete hash)
        (Upd.indexes (delete hash ch)
           (remove_if (c, sp) hash (first_child hg))
           (remove_if (c, rec_seq record) hash (by_creator_seq hg))
           (remove_if c hash (latest_by_creator hg)) (known_forkers hg) hg)
  end.

(** The highest surviving indexed event of [c]. *)
Definition best_survivor (hg : Hashgraph) (c : NodeId) : option (N * EventHash) :=
  foldl (λ best e,
    if decide (e.1.1 = c) then
      match best with
      | Some (best_seq, _) => if decide (e.1.2 ≤ best_seq)%N then best else Some (e.1.2, e.2)
      | None => Some (e.1.2, e.2)
      end
    else best) None (hm_iter (by_creator_seq hg)).

Definition repoint (hg : Hashgraph) (c : NodeId) : Hashgraph :=
  if decide (is_Some (latest_by_creator hg !! c)) then hg else
  match best_survivor hg c with
  | Some (_, hash) =>
      Upd.indexes (children hg) (first_child hg) (by_creator_seq hg)
        (<[c := hash]> (latest_by_creator hg)) (known_forkers hg) hg
  | None => hg
  end.

(** The pruned events, ascending ([BTreeSet] iteration). *)
Definition pruned_list (hg : Hashgraph) (threshold : N) : list EventHash :=
  merge_sort bytes_le (elements (pruned_set hg threshold)).

Definition prune_before_round (threshold : N) : action (list EventHash) := λ hg,
  if negb (threshold <? next_round_to_order hg)%N then (Crash Panicked, hg) else
  if decide (filter (λ e, is_live threshold e.2 = false) (events hg) = ∅) then (Ok [], hg) else
  let pruned := pruned_list hg threshold in
  let pruned_tips := (filter (λ e, e.2 ∈ pruned) (hm_iter (latest_by_creator hg))).*1 in
  let hg1 := foldl prune_one hg pruned in
  let hg2 := foldl repoint hg1 pruned_tips in
  let hg3 := Upd.witnesses
               (filter (λ h, is_Some (get hg2 h)) <$> witnesses_by_round hg2)
               (filter (λ e, e.1 ∉ pruned) (undecided_witnesses hg2))
               (highest_witness_round hg2) hg2 in
  (Ok pruned, Upd.members (member_index hg3) (member_count hg3)
                (Roster.prune_before (roster_history hg3) threshold) (known_forkers hg3) hg3).
End retain.
