(* ===== verification/Reconnect.v ===== *)
(** * Reconnect codecs

    The byte forms of [consensus/src/reconnect.rs] for retained events (also
    the record format of the durable event log) and for roster histories; the
    form of signed checkpoints is in [Checkpoint].  [None] is [Err tt]. *)

From S2P Require Import Prelude Codec External Primitives Membership Graph Insert Retain.

Definition encode_opt_u64 (o : option N) : bytes :=
  match o with Some v => x01 :: u64_be v | None => [x00] end.

Definition encode_retained_event (record : RetainedEvent) : res PrimError bytes :=
  ancestor_len ← u32_try_from "RetainedEvent ancestor_seqs length" (length (re_ancestor_seqs record));
  event_bytes ← encode_event (re_event record);
  event_len ← u32_try_from "RetainedEvent event length" (length event_bytes);
  mret (u64_be (re_seq record) ++ u64_be (re_round record) ++
        encode_opt_u64 (re_round_received record) ++
        u32_be ancestor_len ++ concat (u64_be <$> re_ancestor_seqs record) ++
        u32_be event_len ++ event_bytes ++
        encode_opt_u64 (re_consensus_timestamp record)).

Definition take_opt_u64 : stM bytes unit (option N) :=
  tag ← take_byte tt;
  if decide (tag = x00) then mret None
  else if decide (tag = x01) then v ← take_u64 tt; mret (Some v)
  else st_fail tt.

(** The trailing field, absent from records written before it existed. *)
Definition take_trailing_timestamp : stM bytes unit (option Timestamp) :=
  cursor ← st_get;
  if decide (cursor = []) then mret None
  else ts ← take_opt_u64; reject_trailing tt ;; mret ts.

Definition take_retained_event : stM bytes unit RetainedEvent :=
  seq ← take_u64 tt;
  round ← take_u64 tt;
  round_received ← take_opt_u64;
  ancestor_count ← take_u32 tt;
  ancestor_seqs ← take_n (N.to_nat ancestor_count) (take_u64 tt);
  event_bytes ← take_bytes tt;
  event ← st_lift (λ _, decode_event_bytes tt event_bytes);
  consensus_timestamp ← take_trailing_timestamp;
  mret {| re_event := event; re_seq := seq; re_round := round; re_ancestor_seqs := ancestor_seqs;
          re_round_received := round_received; re_consensus_timestamp := consensus_timestamp |}.

Definition decode_retained_event (bs : bytes) : res unit RetainedEvent :=
  (take_retained_event bs).1.

(** ** Roster histories *)

Fixpoint encode_roster_entries (l : list (N * MembershipRegistry)) : res PrimError bytes :=
  match l with
  | [] => mret []
  | (round, registry) :: l =>
      registry_len ← u32_try_from "RosterHistory registry length" (length (Registry.to_bytes registry));
      rest ← encode_roster_entries l;
      mret (u64_be round ++ u32_be registry_len ++ Registry.to_bytes registry ++ rest)
  end.

Definition encode_roster_history (rh : RosterHistory) : res PrimError bytes :=
  entry_count ← u32_try_from "RosterHistory entry count" (length (Roster.entries rh));
  body ← encode_roster_entries (Roster.entries rh);
  mret (u32_be entry_count ++ body).

Section decode.
Context `{Ed25519}.

Definition MIN_ENTRY : N := 8 + 4.

Definition take_roster_entry : stM bytes unit (N * MembershipRegistry) :=
  round ← take_u64 tt;
  registry_bytes ← take_bytes tt;
  registry ← st_lift (λ _, Registry.from_bytes registry_bytes);
  mret (round, registry).

Definition take_roster_history : stM bytes unit RosterHistory :=
  entry_count ← take_u32 tt;
  cursor ← st_get;
  if decide (N.of_nat (length cursor) / MIN_ENTRY < entry_count)%N then st_fail tt else
  snapshots ← take_n (N.to_nat entry_count) take_roster_entry;
  reject_trailing tt ;;
  st_lift (λ _, ok_or (Roster.from_snapshots snapshots) tt).

Definition decode_roster_history (bs : bytes) : res unit RosterHistory :=
  (take_roster_history bs).1.
End decode.

(** ** Round trips *)

Definition wf_opt_u64 (o : option N) : Prop :=
  match o with None => True | Some v => is_u64 v end.

(** The widths of the fields of a [RetainedEvent]. *)
Record wf_retained (record : RetainedEvent) : Prop := {
  wfr_event : wf_event (re_event record);
  wfr_seq : is_u64 (re_seq record);
  wfr_round : is_u64 (re_round record);
  wfr_ancestor_seqs : Forall is_u64 (re_ancestor_seqs record);
  wfr_received : wf_opt_u64 (re_round_received record);
  wfr_timestamp : wf_opt_u64 (re_consensus_timestamp record);
}.

Lemma decodes_opt_u64 o : wf_opt_u64 o → decodes take_opt_u64 (encode_opt_u64 o) o.
Proof.
  intros Ho. destruct o as [v|]; simpl in *; unfold take_opt_u64.
  - change (x01 :: u64_be v) with ([x01] ++ u64_be v). codec_step; [apply decodes_take_byte|].
    rewrite decide_False, decide_True by done.
    codec_step; [by apply decodes_take_u64|apply decodes_ret].
  - codec_step; [apply decodes_take_byte|apply decodes_ret].
Qed.

Lemma encode_opt_u64_ne o : encode_opt_u64 o ≠ [].
Proof. by destruct o. Qed.

Lemma parses_trailing_timestamp o :
  wf_opt_u64 o → parses take_trailing_timestamp (encode_opt_u64 o) o.
Proof.
  intros Ho. unfold take_trailing_timestamp, parses, mbind at 1, stM_bind, st_get.
  rewrite decide_False by apply encode_opt_u64_ne.
  eapply (parses_bind_nil (E := unit)); [by apply decodes_opt_u64|done].
Qed.

(** The part of the record in front of the trailing timestamp. *)
Lemma parses_retained record ancestor_len event_bytes event_len trailer ts :
  wf_retained record →
  u32_try_from "RetainedEvent ancestor_seqs length" (length (re_ancestor_seqs record)) = Ok ancestor_len →
  encode_event (re_event record) = Ok event_bytes →
  u32_try_from "RetainedEvent event length" (length event_bytes) = Ok event_len →
  parses take_trailing_timestamp trailer ts →
  decode_retained_event
    (u64_be (re_seq record) ++ u64_be (re_round record) ++
     encode_opt_u64 (re_round_received record) ++
     u32_be ancestor_len ++ concat (u64_be <$> re_ancestor_seqs record) ++
     (u32_be event_len ++ event_bytes) ++ trailer)
  = Ok {| re_event := re_event record; re_seq := re_seq record; re_round := re_round record;
          re_ancestor_seqs := re_ancestor_seqs record; re_round_received := re_round_received record;
          re_consensus_timestamp := ts |}.
Proof.
  intros [He Hs Hr Ha Hrr _] [-> Hlen]%u32_try_from_Ok Hev [-> Helen]%u32_try_from_Ok Hts.
  apply (parses_result take_retained_event). unfold take_retained_event.
  parse_step; [by apply decodes_take_u64|].
  parse_step; [by apply decodes_take_u64|].
  parse_step; [by apply decodes_opt_u64|].
  parse_step; [by apply decodes_take_u32|]. rewrite Nat2N.id.
  parse_step; [apply decodes_take_n; eapply Forall_impl; [exact Ha|]; intros; by apply decodes_take_u64|].
  parse_step; [by apply decodes_take_bytes|].
  unfold parses, mbind, stM_bind, st_lift. rewrite (decode_encode_event tt _ _ He Hev).
  by rewrite Hts.
Qed.

Lemma decode_encode_retained record w :
  wf_retained record → encode_retained_event record = Ok w → decode_retained_event w = Ok record.
Proof.
  intros Hwf (al & Hal & (eb & Heb & (el & Hel & <-%res_ret_Ok)%res_bind_Ok)%res_bind_Ok)%res_bind_Ok.
  rewrite (assoc_L (++) (u32_be el)).
  rewrite (parses_retained record al eb el _ (re_consensus_timestamp record) Hwf Hal Heb Hel).
  - by destruct record.
  - apply parses_trailing_timestamp, Hwf.
Qed.

(** A record written before the timestamp field existed. *)
Lemma decode_legacy_retained record w :
  wf_retained record → re_consensus_timestamp record = None →
  encode_retained_event record = Ok (w ++ [x00]) → decode_retained_event w = Ok record.
Proof.
  intros Hwf Hts (al & Hal & (eb & Heb & (el & Hel & Hw%res_ret_Ok)%res_bind_Ok)%res_bind_Ok)%res_bind_Ok.
  rewrite Hts in Hw. simpl in Hw. rewrite !(assoc_L (++)) in Hw. apply app_inj_tail in Hw as [<- _].
  pose proof (parses_retained record al eb el [] None Hwf Hal Heb Hel eq_refl) as Hp.
  rewrite (right_id_L [] (++) (_ ++ eb)), !(assoc_L (++)) in Hp. rewrite Hp.
  destruct record; simpl in *; by subst.
Qed.

Lemma decode_event_no_crash bs : no_crash (decode_event_bytes tt bs).
Proof.
  unfold decode_event_bytes. revert bs.
  change (never_panics (e ← take_event tt; reject_trailing tt ;; mret e)).
  unfold take_event, take_optional_hash, take_transaction. solve_total.
Qed.

Lemma total_opt_u64 : never_panics take_opt_u64.
Proof. unfold take_opt_u64. solve_total. Qed.

Lemma total_get {E B} (f : bytes → stM bytes E B) :
  (∀ c, never_panics (f c)) → never_panics (st_get ≫= f).
Proof. intros Hf cursor. apply Hf. Qed.

Lemma decode_retained_no_crash bs : no_crash (decode_retained_event bs).
Proof.
  unfold decode_retained_event. revert bs. change (never_panics take_retained_event).
  unfold take_retained_event. pose proof total_opt_u64.
  repeat (apply total_bind; [by solve_total|intros ?]).
  apply total_bind; [apply total_lift, decode_event_no_crash|intros ?].
  apply total_bind; [|intros; apply total_ret].
  apply total_get. intros c. solve_total.
Qed.

Section roster.
Context `{Ed25519}.

(** What the types guarantee of a [RosterHistory]. *)
Definition wf_roster_history (rh : RosterHistory) : Prop :=
  snapshots rh ≠ ∅ ∧ map_Forall (λ round reg, is_u64 round ∧ wf_registry reg) (snapshots rh).

Lemma decodes_roster_entries l w :
  Forall (λ e, is_u64 e.1 ∧ wf_registry e.2) l → encode_roster_entries l = Ok w →
  decodes (take_n (length l) take_roster_entry) w l ∧ length l * 12 ≤ length w.
Proof.
  intros Hl. revert w. induction Hl as [|[round reg] l [Hr Hreg] _ IH]; intros w; simpl.
  { intros <-%res_ret_Ok. split; [apply decodes_ret|done]. }
  intros (len & (-> & Hlen)%u32_try_from_Ok & (rest & [Hd Hle]%IH & <-%res_ret_Ok)%res_bind_Ok)%res_bind_Ok.
  split; [|rewrite !length_app, !length_be_bytes; lia].
  rewrite (assoc_L (++) (u32_be _)), (assoc_L (++) (u64_be _)).
  eapply decodes_bind; [|simpl; eapply decodes_bind_nil; [exact Hd|apply decodes_ret]].
  unfold take_roster_entry. codec_step; [by apply decodes_take_u64|].
  eapply decodes_bind_nil; [by apply decodes_take_bytes|].
  eapply decodes_lift; [by apply RegistryFacts.from_to_bytes|]. apply decodes_ret.
Qed.

Lemma decode_encode_roster rh w :
  wf_roster_history rh → encode_roster_history rh = Ok w → decode_roster_history w = Ok rh.
Proof.
  intros [Hne Hwf] (len & (-> & Hlen)%u32_try_from_Ok & (body & Hbody & <-%res_ret_Ok)%res_bind_Ok)%res_bind_Ok.
  destruct (decodes_roster_entries (Roster.entries rh) body) as [Hd Hle]; [|done|].
  { apply Forall_forall. intros [r reg] Hin. apply elem_of_bt_entries in Hin. exact (Hwf r reg Hin). }
  apply (parses_result take_roster_history). unfold take_roster_history.
  parse_step; [by apply decodes_take_u32|].
  unfold parses, mbind at 1, stM_bind at 1, st_get. rewrite decide_False; cycle 1.
  { change MIN_ENTRY with 12%N. apply N.le_ngt, N.div_le_lower_bound; lia. }
  rewrite Nat2N.id. eapply (parses_bind_nil (E := unit)); [exact Hd|].
  cbv beta. unfold parses. simpl. rewrite RosterFacts.from_snapshots_entries by done. done.
Qed.

Lemma decode_roster_no_crash bs : no_crash (decode_roster_history bs).
Proof.
  unfold decode_roster_history. revert bs. change (never_panics take_roster_history).
  unfold take_roster_history. apply total_bind; [solve_total|intros n].
  apply total_get. intros c. case_decide; [apply total_fail|].
  apply total_bind; [apply total_take_n|intros l; apply total_bind; [solve_total|intros _]].
  - unfold take_roster_entry. do 2 (apply total_bind; [solve_total|intros ?]).
    apply total_bind; [|intros; apply total_ret]. apply total_lift.
    by apply RegistryFacts.from_bytes_loop_safe.
  - apply total_lift. intros c'. by destruct (Roster.from_snapshots l).
Qed.
End roster.
