(* ===== verification/RetainFacts.v ===== *)
(** * What pruning and reconnect preserve *)

From S2P Require Import Prelude Codec External Primitives Membership Graph Ancestry Reach Order.
From S2P Require Import Fame Insert Store OrderFacts Retain.

Lemma elem_of_range_inclusive lo hi k : k ∈ range_inclusive lo hi ↔ (lo ≤ k ∧ k ≤ hi)%N.
Proof.
  unfold range_inclusive. rewrite list_elem_of_fmap. split.
  - intros (i & -> & Hi%elem_of_seq). lia.
  - intros [Hlo Hhi]. exists (N.to_nat (k - lo)). split; [lia|]. apply elem_of_seq. lia.
Qed.

(** ** Pruning *)

Section prune.
Context `{HashOrder}.

Lemma get_prune_one hg hash h :
  get (prune_one hg hash) h = if decide (h = hash) then None else get hg h.
Proof.
  unfold prune_one. destruct (get hg hash) as [r|] eqn:Hr.
  - unfold get; simpl. case_decide; [subst; apply lookup_delete_eq|by apply lookup_delete_ne].
  - by case_decide; [subst|].
Qed.

Lemma get_prune_all l hg h :
  get (foldl prune_one hg l) h = if decide (h ∈ l) then None else get hg h.
Proof.
  revert hg. induction l as [|x l IH]; intros hg; cbn [foldl].
  { by rewrite decide_False by (by intros ?%elem_of_nil). }
  rewrite IH, get_prune_one. repeat case_decide; set_solver.
Qed.

Lemma get_repoint hg c h : get (repoint hg c) h = get hg h.
Proof. unfold repoint. case_decide; [done|]. by destruct (best_survivor hg c) as [[]|]. Qed.

Lemma get_repoint_all cs hg h : get (foldl repoint hg cs) h = get hg h.
Proof. revert hg. induction cs as [|c cs IH]; intros hg; simpl; [done|]. by rewrite IH, get_repoint. Qed.

Definition prune_kept (hg : Hashgraph) (threshold : N) (h : EventHash) : Prop :=
  ∃ h' r', get hg h' = Some r' ∧ is_live threshold r' = true ∧ h ∈ parents (rec_event r').

Lemma elem_of_pruned hg threshold h :
  h ∈ pruned_list hg threshold ↔
  (∃ r, get hg h = Some r ∧ is_live threshold r = false) ∧ ¬ prune_kept hg threshold h.
Proof.
  unfold pruned_list, pruned_set, prune_kept. rewrite merge_sort_Permutation, elem_of_elements.
  rewrite elem_of_difference, elem_of_dom, elem_of_list_to_set, list_elem_of_bind.
  assert (is_Some (filter (λ e, is_live threshold e.2 = false) (events hg) !! h) ↔
    ∃ r, get hg h = Some r ∧ is_live threshold r = false) as ->.
  { split.
    - intros [r [? ?]%map_lookup_filter_Some]. by exists r.
    - intros (r & ? & ?). exists r. by apply map_lookup_filter_Some. }
  assert ((∃ y, h ∈ (if is_live threshold y.2 then parents (rec_event y.2) else []) ∧
      y ∈ map_to_list (events hg)) ↔
    ∃ h' r', get hg h' = Some r' ∧ is_live threshold r' = true ∧ h ∈ parents (rec_event r')) as ->;
    [|done].
  split.
  - intros ([h' r'] & Hin & Hy%elem_of_map_to_list). simpl in *. exists h', r'.
    destruct (is_live threshold r'); [done|by apply elem_of_nil in Hin].
  - intros (h' & r' & Hr & Hl & Hin). exists (h', r'). simpl. rewrite Hl.
    split; [done|by apply elem_of_map_to_list].
Qed.

(** The two outcomes of an accepted prune. *)
Lemma prune_cases hg threshold :
  (threshold < next_round_to_order hg)%N →
  (prune_before_round threshold hg = (Ok [], hg) ∧
   (∀ h r, get hg h = Some r → is_live threshold r = true)) ∨
  ∃ hg', prune_before_round threshold hg = (Ok (pruned_list hg threshold), hg') ∧
    (∀ h, get hg' h = if decide (h ∈ pruned_list hg threshold) then None else get hg h) ∧
    roster_history hg' = Roster.prune_before (roster_history hg) threshold.
Proof.
  intros Hlt. unfold prune_before_round.
  assert ((threshold <? next_round_to_order hg)%N = true) as -> by (by apply N.ltb_lt). simpl.
  case_decide as Hempty.
  - left. split; [done|]. intros h r Hr. destruct (is_live threshold r) eqn:Hl; [done|].
    assert (filter (λ e, is_live threshold e.2 = false) (events hg) !! h = Some r) as Hf
      by (by apply map_lookup_filter_Some). by rewrite Hempty in Hf.
  - right. eexists. split; [done|].
    assert (∀ l g, roster_history (foldl prune_one g l) = roster_history g) as Hr1.
    { induction l as [|x l IH]; intros g; simpl; [done|]. rewrite IH. unfold prune_one.
      by destruct (get g x). }
    assert (∀ cs g, roster_history (foldl repoint g cs) = roster_history g) as Hr2.
    { induction cs as [|c cs IH]; intros g; simpl; [done|]. rewrite IH. unfold repoint.
      case_decide; [done|]. by destruct (best_survivor g c) as [[]|]. }
    split; [|simpl; by rewrite Hr2, Hr1].
    intros h. transitivity (get (foldl repoint (foldl prune_one hg (pruned_list hg threshold))
      (filter (λ e, e.2 ∈ pruned_list hg threshold) (hm_iter (latest_by_creator hg))).*1) h); [done|].
    by rewrite get_repoint_all, get_prune_all.
Qed.

(** The assertion has passed when a prune returns. *)
(** Pruning keeps the rounds decided so far. *)
Lemma prune_decided hg hg' l threshold :
  prune_before_round threshold hg = (Ok l, hg') → fully_decided_rounds hg' = fully_decided_rounds hg.
Proof.
  unfold prune_before_round. destruct (negb _); [done|]. case_decide; intros [= _ <-]; [done|]. simpl.
  transitivity (fully_decided_rounds (foldl prune_one hg (pruned_list hg threshold))).
  - generalize (foldl prune_one hg (pruned_list hg threshold)).
    generalize (filter (λ e, e.2 ∈ pruned_list hg threshold) (hm_iter (latest_by_creator hg))).*1.
    induction l0 as [|c cs IH]; intros g; simpl; [done|]. rewrite IH. unfold repoint.
    case_decide; [done|]. by destruct (best_survivor g c) as [[]|].
  - generalize hg at 1 3. generalize (pruned_list hg threshold).
    induction l0 as [|x xs IH]; intros g; simpl; [done|]. rewrite IH. unfold prune_one. by destruct (get g x).
Qed.

Lemma prune_Ok_lt hg hg' l threshold :
  prune_before_round threshold hg = (Ok l, hg') → (threshold < next_round_to_order hg)%N.
Proof.
  unfold prune_before_round. destruct (threshold <? next_round_to_order hg)%N eqn:E; simpl; [|done].
  intros _. by apply N.ltb_lt.
Qed.

(** A live event and the parents of live events survive. *)
Lemma prune_survivors hg hg' l threshold h r :
  prune_before_round threshold hg = (Ok l, hg') → get hg h = Some r →
  is_live threshold r = true ∨ prune_kept hg threshold h → get hg' h = Some r.
Proof.
  intros Hp Hr Hkeep.
  pose proof (prune_Ok_lt _ _ _ _ Hp) as Hlt.
  destruct (prune_cases hg threshold Hlt) as [[E _]|(hg2 & E & Hget & _)];
    rewrite E in Hp; simplify_eq; [done|].
  rewrite Hget, decide_False; [done|]. intros [(r' & Hr' & Hl) Hno]%elem_of_pruned.
  simplify_eq. destruct Hkeep; [congruence|done].
Qed.

Lemma prune_no_new hg hg' l threshold h r :
  prune_before_round threshold hg = (Ok l, hg') → get hg' h = Some r → get hg h = Some r.
Proof.
  intros Hp Hr. pose proof (prune_Ok_lt _ _ _ _ Hp) as Hlt.
  destruct (prune_cases hg threshold Hlt) as [[E _]|(hg2 & E & Hget & _)];
    rewrite E in Hp; simplify_eq; [done|].
  rewrite Hget in Hr. by case_decide.
Qed.

Lemma prune_roster hg hg' l threshold round :
  prune_before_round threshold hg = (Ok l, hg') → (threshold ≤ round)%N →
  registry_at_round hg' round = registry_at_round hg round.
Proof.
  intros Hp Hle. pose proof (prune_Ok_lt _ _ _ _ Hp) as Hlt.
  destruct (prune_cases hg threshold Hlt) as [[E _]|(hg2 & E & _ & Hro)];
    rewrite E in Hp; simplify_eq; [done|].
  unfold registry_at_round. rewrite Hro. by apply RosterFacts.roster_for_round_prune_before.
Qed.

Lemma prune_consensus_order hg hg' l threshold k :
  prune_before_round threshold hg = (Ok l, hg') → (threshold ≤ k)%N →
  consensus_order hg' k = consensus_order hg k.
Proof.
  intros Hp Hk. apply consensus_order_ext. intros key. rewrite !list_elem_of_fmap.
  split; intros ([h r] & -> & [Hr Hrr]%elem_of_received_entries); exists (h, r);
    (split; [done|]); apply elem_of_received_entries; (split; [|done]).
  - by eapply prune_no_new.
  - eapply prune_survivors; [done..|]. left. unfold is_live. rewrite Hrr. by apply N.leb_le.
Qed.
End prune.

(** ** Accepting a retained event *)

Section accept.
Context `{Sha256, HashOrder}.

(** What every accepted record satisfies. *)
Record accepted (hg : Hashgraph) (record : RetainedEvent) (decided_round : N)
    (hash : EventHash) (hg' : Hashgraph) : Prop := {
  acc_hash : event_hash (re_event record) = Ok hash;
  acc_fresh : get hg hash = None;
  acc_creator : ∃ i, member_index hg !! creator (re_event record) = Some i ∧
    check_retained_row (member_count hg) i (re_event record)
      (present_parent hg (self_parent (re_event record)))
      (present_parent hg (other_parent (re_event record))) (re_seq record)
      (resize_row (member_count hg) (re_ancestor_seqs record)) = Ok tt;
  acc_self : ∀ r, present_parent hg (self_parent (re_event record)) = Some r →
    creator (rec_event r) = creator (re_event record);
  acc_seq : check_retained_seq (re_event record)
    (present_parent hg (self_parent (re_event record))) (re_seq record) = Ok tt;
  acc_base : (base_round (rec_round <$> present_parent hg (self_parent (re_event record)))
                (rec_round <$> present_parent hg (other_parent (re_event record)))
              ≤ re_round record)%N;
  acc_order : check_retained_order (re_round record) (re_round_received record)
    (re_consensus_timestamp record) decided_round = Ok tt;
  acc_stored : ∃ r, get hg' hash = Some r ∧ rec_event r = re_event record ∧
    rec_seq r = re_seq record ∧
    rec_ancestor_seqs r = resize_row (member_count hg) (re_ancestor_seqs record) ∧
    rec_round r = re_round record ∧ rec_round_received r = re_round_received record;
  acc_others : ∀ h, h ≠ hash → get hg' h = get hg h;
}.

Lemma insert_accepted_spec hg record d hash hg' :
  insert_accepted record d hg = (Ok hash, hg') → accepted hg record d hash hg'.
Proof.
  unfold insert_accepted. cbn zeta. intros Hrun.
  match type of Hrun with match ?m with _ => _ end = _ =>
    destruct m as [[hash0 hg0]|e|c] eqn:Hm; [|done..] end.
  injection Hrun as -> ->.
  apply res_bind_Ok in Hm as (h & Hh & Hm). case_decide as Hfresh; [done|].
  apply res_bind_Ok in Hm as (i & Hi%ok_or_Ok & Hm). case_decide; [done|].
  destruct (match present_parent hg (self_parent (re_event record)) with
    | Some r => _ | None => _ end) eqn:Hself; [done|].
  apply res_bind_Ok in Hm as ([] & Hseq & Hm). apply res_bind_Ok in Hm as ([] & Hrow & Hm).
  case_decide as Hbase; [done|].
  apply res_bind_Ok in Hm as ([] & Hord & Hm). apply res_bind_Ok in Hm as ([fc fk] & _ & Hm).
  apply res_ret_Ok in Hm. injection Hm as -> <-.
  split; try done.
  - destruct (event_hash (re_event record)); simpl in Hh; by simplify_eq.
  - by apply eq_None_not_Some.
  - by exists i.
  - intros r Hr. rewrite Hr in Hself. apply negb_false_iff, bool_decide_eq_true_1 in Hself. done.
  - lia.
  - eexists. unfold get; simpl. rewrite lookup_insert_eq. done.
  - intros h' Hne. unfold get; simpl. by rewrite lookup_insert_ne.
Qed.

(** A rejected record changes nothing. *)
Lemma insert_accepted_Err hg record d e hg' :
  insert_accepted record d hg = (Err e, hg') → hg' = hg.
Proof.
  unfold insert_accepted. cbn zeta. intros Hrun.
  match type of Hrun with match ?m with _ => _ end = _ =>
    destruct m as [[hash0 hg0]|e0|c] eqn:Hm; by simplify_eq end.
Qed.

Lemma length_resize_row w row : length row ≤ w → length (resize_row w row) = w.
Proof. intros. unfold resize_row. rewrite length_app, length_take, length_replicate. lia. Qed.

(** When the event declares a parent and every declared parent is stored, the
    accepted sequence number and row are the ones [insert] computes. *)
Lemma accepted_rederived hg record d hash hg' i sp op g1 :
  accepted hg record d hash hg' → checked hg (re_event record) hash i sp op →
  parents (re_event record) ≠ [] →
  store_event hg (re_event record) hash i sp op = Ok g1 →
  rec_shape <$> get hg' hash = rec_shape <$> get g1 hash.
Proof.
  intros Hacc Hck Hne Hstore.
  assert (present_parent hg (self_parent (re_event record)) = sp) as Esp.
  { pose proof (ck_self _ _ _ _ _ _ Hck) as Hs. unfold present_parent.
    destruct (self_parent (re_event record)); [by destruct Hs as (r & -> & Hr & _)|by subst]. }
  assert (present_parent hg (other_parent (re_event record)) = op) as Eop.
  { pose proof (ck_other _ _ _ _ _ _ Hck) as Hs. unfold present_parent.
    destruct (other_parent (re_event record)); [by destruct Hs as (r & -> & Hr)|by subst]. }
  destruct (acc_stored _ _ _ _ _ Hacc) as (r & Hr & E1 & E2 & E3 & _). rewrite Hr. simpl.
  unfold rec_shape. rewrite E1, E2, E3. clear E1 E2 E3 Hr.
  pose proof (acc_seq _ _ _ _ _ Hacc) as Hseq. rewrite Esp in Hseq.
  destruct (acc_creator _ _ _ _ _ Hacc) as (j & Hj & Hrow). rewrite Esp, Eop in Hrow.
  rewrite (ck_index _ _ _ _ _ _ Hck) in Hj. injection Hj as <-.
  unfold store_event in Hstore.
  apply res_bind_Ok in Hstore as (row & Hmr & Hstore). apply res_bind_Ok in Hstore as (row' & Hvs & Hstore).
  apply res_bind_Ok in Hstore as ([fc fk] & _ & <-%res_ret_Ok).
  unfold get at 1; simpl. rewrite lookup_insert_eq. simpl.
  assert (re_seq record = match sp with Some r => u64_wrapping_add (rec_seq r) 1 | None => 1%N end) as Hsq.
  { unfold check_retained_seq in Hseq. destruct sp as [rs|].
    - apply res_bind_Ok in Hseq as (x & Hx%ok_or_Ok & Hc). case_decide as Hd; [done|].
      rewrite Hd. unfold u64_checked_add in Hx. case_decide; [|done]. injection Hx as <-.
      symmetry. by apply u64_wrapping_add_small.
    - pose proof (ck_self _ _ _ _ _ _ Hck) as Hs.
      destruct (self_parent (re_event record)) as [p|]; [by destruct Hs as (? & ? & _)|].
      by case_decide. }
  rewrite <- Hsq in Hvs |- *. do 2 f_equal.
  unfold check_retained_row in Hrow. cbn zeta in Hrow.
  assert (bool_decide (is_Some (self_parent (re_event record)) ∧ sp = None) = false) as E1.
  { apply bool_decide_eq_false_2. intros [[p Hp] Hn].
    pose proof (ck_self _ _ _ _ _ _ Hck) as Hs. rewrite Hp in Hs.
    destruct Hs as (? & ? & _). congruence. }
  assert (bool_decide (is_Some (other_parent (re_event record)) ∧ op = None) = false) as E2.
  { apply bool_decide_eq_false_2. intros [[p Hp] Hn].
    pose proof (ck_other _ _ _ _ _ _ Hck) as Hs. rewrite Hp in Hs.
    destruct Hs as (? & ? & _). congruence. }
  rewrite E1, E2 in Hrow.
  cbn [orb] in Hrow.
  assert (bool_decide (is_Some sp) || bool_decide (is_Some op) = true) as Hsome.
  { apply orb_true_iff. destruct (parents (re_event record)) as [|p ps] eqn:Hp; [done|].
    assert (p ∈ parents (re_event record)) as [Hsp|Hop]%elem_of_parents by (rewrite Hp; by left).
    - left. apply bool_decide_eq_true_2. pose proof (ck_self _ _ _ _ _ _ Hck) as Hs.
      rewrite Hsp in Hs. destruct Hs as (r' & -> & _). by eexists.
    - right. apply bool_decide_eq_true_2. pose proof (ck_other _ _ _ _ _ _ Hck) as Hs.
      rewrite Hop in Hs. destruct Hs as (r' & -> & _). by eexists. }
  rewrite Hsome in Hrow. apply res_bind_Ok in Hrow as (row2 & Hmr2 & Hrow).
  rewrite Hmr in Hmr2. injection Hmr2 as <-.
  apply res_bind_Ok in Hrow as (row3 & Hvs2 & Hrow). rewrite Hvs in Hvs2. injection Hvs2 as <-.
  by case_decide.
Qed.
End accept.
