(* ===== verification/ConsensusProps.v ===== *)
(** * What the consensus engine guarantees

    The properties of [consensus/src/hashgraph.rs], [ancestry.rs], [round.rs],
    [fame.rs] and [order.rs] on every graph reachable from a genesis registry
    by inserting well-formed events and scheduling new members.  Each is
    followed by its instance on a concrete history of [Demo]. *)

From S2P Require Import Prelude Codec External Primitives Membership Graph Ancestry Reach Order.
From S2P Require Import Fame Insert Wf Quorum Store Rounds OrderFacts Voting Reachable Demo.
From S2P Require Import Finality Agreement Retain RetainFacts.

#[local] Existing Instance toy_sha256.

(** The four-member example: twelve events of the ring, enough for a second
    round; the lone member's chain, enough for three ordered rounds. *)
Definition ring12 : list Event := Eval vm_compute in ring 12.
Definition solo5 : list Event := Eval vm_compute in solo 5.

Lemma ring12_wf : Forall wf_event ring12.
Proof. apply (bool_decide_eq_true_1 _). vm_compute. reflexivity. Qed.

Lemma solo5_wf : Forall wf_event solo5.
Proof. apply (bool_decide_eq_true_1 _). vm_compute. reflexivity. Qed.

Definition ring_graph : Hashgraph := demo_graph (H := identity_order) 4 ring12.
Definition solo_graph : Hashgraph := demo_graph (H := identity_order) 1 solo5.

Definition nth_hash (es : list Event) (i : nat) : EventHash := default [] (demo_hash <$> es !! i).

(** A history in which member 4 forks: events 4 and 5 share their
    self-parent; the other members then gossip on top of event 4. *)
Definition forked : list Event := Eval vm_compute in
  demo_events [] 100
    [(1%N, None, None); (2%N, None, None); (3%N, None, None); (4%N, None, None);
     (4%N, Some 3, None); (4%N, Some 3, Some 0);
     (1%N, Some 0, Some 4); (2%N, Some 1, Some 6); (3%N, Some 2, Some 7);
     (1%N, Some 6, Some 8); (2%N, Some 7, Some 9)].

Lemma forked_wf : Forall wf_event forked.
Proof. apply (bool_decide_eq_true_1 _). vm_compute. reflexivity. Qed.

Definition fork_graph : Hashgraph := demo_graph (H := identity_order) 4 forked.

Section props.
Context `{Sha256, HashOrder}.


(** C6: consensus is final.  Once a round lies below [next_round_to_order],
    no sequence of later insertions changes its consensus order, no event's
    round received or consensus timestamp is ever revised, and a witness
    decided famous or not famous keeps that decision. *)
Theorem ordered_rounds_final genesis n g m g' :
  reachable genesis n g → later g m g' →
  (step_bound n + 2 * N.of_nat m + 2 < u64_modulus)%N →
  (∀ k, (k < next_round_to_order g)%N → consensus_order g' k = consensus_order g k) ∧
  (∀ h k, round_received g h = Some k →
     round_received g' h = Some k ∧ consensus_timestamp g' h = consensus_timestamp g h) ∧
  (∀ h f, fame_of g h = Some f → f ≠ Undecided → fame_of g' h = Some f).
Proof.
  intros Hg Hl Hn. pose proof (reachable_ready _ _ _ Hg ltac:(lia)) as Hr.
  destruct (later_extends _ _ _ _ Hl Hr) as [Hext _]; [unfold step_bound; lia|lia|].
  split; [|split].
  - intros k Hk. by apply extends_consensus_order.
  - apply (ext_received _ _ Hext).
  - apply (ext_fame _ _ Hext).
Qed.


(** [Hashgraph::see] decides its specification on every reachable graph:
    [x] sees [y] exactly when [y] is an ancestor of [x] and the ancestry of
    [x] holds no fork by [y]'s creator. *)
Theorem see_decides genesis n g x y rx ry :
  reachable genesis n g → (step_bound n + 2 < u64_modulus)%N →
  get g x = Some rx → get g y = Some ry →
  ∃ b, see g x y = Ok b ∧
    (b = true ↔ anc g x y ∧ ¬ forks_below g x (creator (rec_event ry))).
Proof.
  intros Hg Hn Hx Hy. pose proof (rdy_graph _ _ (reachable_ready _ _ _ Hg Hn)) as Hwf.
  destruct (see_spec g Hwf _ _ _ _ Hx Hy) as (b & Hb & Hiff). exists b. split; [done|].
  rewrite Hiff. unfold sees. split; [intros (r & ? & ?); by simplify_eq|eauto].
Qed.

(** the constant-time ancestor test [Hashgraph::is_ancestor], which only
    compares sequence numbers, agrees with graph reachability: it never
    claims a false ancestor, and it can miss a true one only when the
    creator's fork lies in the ancestry of [x]. *)
Theorem is_ancestor_correct genesis n g x y rx ry :
  reachable genesis n g → (step_bound n + 2 < u64_modulus)%N →
  get g x = Some rx → get g y = Some ry →
  ∃ b, is_ancestor g x y = Ok b ∧ (b = true → anc g x y) ∧
    (anc g x y → b = true ∨ forks_below g x (creator (rec_event ry))).
Proof.
  intros Hg Hn. apply is_ancestor_spec, (rdy_graph _ _ (reachable_ready _ _ _ Hg Hn)).
Qed.


(** C20: the round rule.  In a graph grown by insertions every event's round
    is the maximum of its parents' rounds, raised by one exactly when the
    event strongly sees more than two thirds of that round's roster in other
    witnesses of that round; an event is a witness exactly when its round
    exceeds its self-parent's. *)
Theorem round_rule_holds genesis n g h r total :
  later (new genesis) n g → (2 * N.of_nat n + 3 < u64_modulus)%N →
  get g h = Some r → member_count_at_round g (base_of g (rec_event r)) = Ok total →
  rec_round r = (if supermajority (length (climbers g h (base_of g (rec_event r)))) total
                 then base_of g (rec_event r) + 1 else base_of g (rec_event r))%N ∧
  rec_is_witness r = match parent_round g (self_parent (rec_event r)) with
                     | None => true
                     | Some spr => (spr <? rec_round r)%N
                     end.
Proof.
  intros Hl Hn Hh Ht. destruct (later_determined genesis n g Hl Hn) as [Hd Hr].
  split; [by apply (dt_round _ _ Hd)|by apply (rd_witness _ (rdy_rounds _ _ Hr) h)].
Qed.

(** C32: every reachable graph is well formed: ancestor rows, sequence
    numbers, the by-sequence and first-child indexes, the known-forker flags
    and the witness lists of all rounds describe exactly the stored events;
    inserting events and adding members both preserve this. *)
Theorem reachable_invariants genesis n g :
  reachable genesis n g → (step_bound n + 2 < u64_modulus)%N → graph_wf g ∧ rounds_wf g.
Proof. intros Hg Hn. by destruct (reachable_ready _ _ _ Hg Hn). Qed.

Lemma consensus_order_iteration (o1 o2 : HashOrder) g k :
  consensus_order (H := o1) g k = consensus_order (H := o2) g k.
Proof.
  apply consensus_order_ext. intros key. rewrite !list_elem_of_fmap.
  split; intros ([h r] & -> & Hin%elem_of_received_entries); exists (h, r);
    (split; [done|]); by apply elem_of_received_entries.
Qed.

(** C21: [consensus_order] lists each event received in the round once, and
    nothing else, sorted by consensus timestamp, then signature tie-break,
    then hash; the iteration order of the hash map plays no part. *)
Theorem consensus_order_sorted g k :
  (∀ o1 o2 : HashOrder, consensus_order (H := o1) g k = consensus_order (H := o2) g k) ∧
  NoDup (consensus_order g k) ∧
  (∀ h, h ∈ consensus_order g k ↔ round_received g h = Some k) ∧
  ∃ entries, consensus_order g k = entries.*1 ∧ StronglySorted order_le entries ∧
    ∀ h r, (h, r) ∈ entries → get g h = Some r.
Proof.
  split; [intros; apply consensus_order_iteration|].
  split; [apply consensus_order_NoDup|]. split; [apply elem_of_consensus_order|].
  eexists. split; [done|]. split; [apply StronglySorted_merge_sort; apply _|].
  intros h r. rewrite merge_sort_Permutation.
  by intros [? _]%elem_of_received_entries.
Qed.

(** the loop of [order_decided_rounds] terminates and exhausts the
    decided prefix: when it returns, the next round to order is not decided. *)
Theorem order_decided_rounds_exhausts genesis n g :
  reachable genesis n g → (step_bound n + 2 < u64_modulus)%N →
  ∃ g', order_decided_rounds g = (Ok tt, g') ∧ graph_wf g' ∧ rounds_wf g' ∧
    (next_round_to_order g ≤ next_round_to_order g')%N ∧
    next_round_to_order g' ∉ fully_decided_rounds g'.
Proof.
  intros Hg Hn. destruct (reachable_ready _ _ _ Hg Hn) as [Hwf Hrd Hb Hi].
  destruct (order_decided_rounds_exit g _ Hwf Hrd Hb g Hi) as (g' & Hrun & Hi' & Hnot).
  exists g'. pose proof (framed_order_decided_rounds g _ Hwf Hrd Hb g Hi) as Hfin.
  rewrite Hrun in Hfin. split_and!; [done| | |apply (fin_next _ _ Hfin)|done].
  - by eapply inv_graph.
  - by eapply inv_rounds.
Qed.

(** the consensus timestamp of an event does not depend on the order in
    which the famous witnesses are visited and lies between two of their
    first-seen times. *)
Theorem median_timestamp_between {E} (l1 l2 : list N) :
  l1 ≠ [] → l1 ≡ₚ l2 →
  median_timestamp (E := E) l1 = median_timestamp l2 ∧
  ∃ t a b, median_timestamp (E := E) l1 = Ok t ∧ a ∈ l1 ∧ b ∈ l1 ∧ (a ≤ t ≤ b)%N.
Proof.
  intros Hne Hp. split; [by apply median_sorted|].
  destruct (median_spec (E := E) l1 Hne) as (i & j & a & b & Ht & Ha & Hb & _ & _ & Hab).
  exists ((a + b) `div` 2)%N, a, b. split; [done|].
  apply list_elem_of_lookup_2 in Ha, Hb. rewrite merge_sort_Permutation in Ha, Hb.
  split_and!; [done..|apply N.div_le_lower_bound; lia|apply N.Div0.div_le_upper_bound; lia].
Qed.

(** C31: pruning is invisible above its threshold.  After
    [prune_before_round] every event that is unordered, ordered at or above
    the threshold, or a parent of such an event is still stored unchanged;
    consensus orders and rosters at or above the threshold are the same; no
    record is invented. *)
Theorem prune_keeps_live hg hg' l threshold :
  prune_before_round threshold hg = (Ok l, hg') →
  (∀ h r, get hg h = Some r → is_live threshold r = true ∨ prune_kept hg threshold h →
     get hg' h = Some r) ∧
  (∀ h r, get hg' h = Some r → get hg h = Some r) ∧
  (∀ k, (threshold ≤ k)%N → consensus_order hg' k = consensus_order hg k ∧
     registry_at_round hg' k = registry_at_round hg k).
Proof.
  intros Hp. split_and!.
  - intros h r. by apply (prune_survivors _ _ _ _ _ _ Hp).
  - intros h r. by apply (prune_no_new _ _ _ _ _ _ Hp).
  - intros k Hk. split; [by apply (prune_consensus_order _ _ _ _ _ Hp)|by apply (prune_roster _ _ _ _ _ Hp)].
Qed.

(** a retained event offered by a teacher is either refused, leaving
    the graph untouched, or accepted under its own hash; when its parents are
    present, the accepted sequence number and ancestor row are the ones
    [insert] would have derived. *)
Theorem insert_accepted_rederives hg record decided_round hash hg' i sp op g1 :
  insert_accepted record decided_round hg = (Ok hash, hg') →
  insert_checks hg (re_event record) = Ok (hash, i, sp, op) →
  parents (re_event record) ≠ [] →
  store_event hg (re_event record) hash i sp op = Ok g1 →
  (∀ h, h ≠ hash → get hg' h = get hg h) ∧
  rec_shape <$> get hg' hash = rec_shape <$> get g1 hash.
Proof.
  intros Ha Hc Hp Hst. apply insert_accepted_spec in Ha as Hacc. split; [apply Hacc|].
  eapply accepted_rederived; eauto. by apply insert_checks_Ok.
Qed.

End props.

(** ** The theorems on the example histories *)

#[local] Existing Instance identity_order.

Lemma ring_reachable k : reachable (demo_registry 4) (length (take k ring12)) (demo_graph 4 (take k ring12)).
Proof. apply demo_reachable, Forall_take, ring12_wf. Qed.

Lemma fork_reachable : reachable (demo_registry 4) 11 fork_graph.
Proof. exact (demo_reachable (H := identity_order) 4 forked forked_wf). Qed.

Lemma insert_all_later `{HashOrder} es n g0 g :
  Forall wf_event es → later g0 n g → later g0 (length es + n) (insert_all_events es g).
Proof.
  intros Hes. revert n g. induction Hes as [|e es He _ IH]; intros n g Hg; [exact Hg|].
  simpl. rewrite <- Nat.add_succ_r. apply IH.
  eapply later_insert; [exact Hg|exact He|apply surjective_pairing].
Qed.

Lemma demo_later `{HashOrder} k es :
  Forall wf_event es → later (new (demo_registry k)) (length es) (demo_graph k es).
Proof.
  intros Hes. rewrite <- (Nat.add_0_r (length es)). apply insert_all_later; [exact Hes|apply later_refl].
Qed.

Lemma demo_later_from `{HashOrder} k es i :
  Forall wf_event es → later (demo_graph k (take i es)) (length (drop i es)) (demo_graph k es).
Proof.
  intros Hes. assert (demo_graph k es = insert_all_events (drop i es) (demo_graph k (take i es))) as ->.
  { unfold demo_graph, insert_all_events. rewrite <- foldl_app. by rewrite take_drop. }
  rewrite <- (Nat.add_0_r (length (drop i es))).
  apply insert_all_later; [by apply Forall_drop|apply later_refl].
Qed.

Definition ring_event (i : nat) : Event := default (demo_event [] 0 (0%N, None, None)) (ring12 !! i).



(** Round 1 of the lone member is ordered after three events and stays so. *)
Lemma ordered_rounds_final_witness :
  consensus_order solo_graph 1 = consensus_order (demo_graph 1 (take 3 solo5)) 1 ∧
  consensus_order (demo_graph 1 (take 3 solo5)) 1 = [nth_hash solo5 0].
Proof.
  split; [|vm_compute; reflexivity].
  refine (proj1 (ordered_rounds_final (demo_registry 1) 3 (demo_graph 1 (take 3 solo5)) 2 solo_graph
    (demo_reachable 1 (take 3 solo5) (Forall_take _ 3 _ solo5_wf)) (demo_later_from 1 solo5 3 solo5_wf) _) 1%N _);
    vm_compute; reflexivity.
Defined.




Definition fork_record (i : nat) : EventRecord :=
  default (fresh_record (ring_event 0) 0 [] 0 None None) (get fork_graph (nth_hash forked i)).

Lemma fork_record_get i :
  bool_decide (is_Some (get fork_graph (nth_hash forked i))) = true →
  get fork_graph (nth_hash forked i) = Some (fork_record i).
Proof. unfold fork_record. generalize (get fork_graph (nth_hash forked i)). by intros o [r ->]%bool_decide_eq_true_1. Qed.

(** Event 10 has both branches of member 4 out of its ancestry but one. *)
Lemma see_decides_witness :
  ∃ b, see fork_graph (nth_hash forked 10) (nth_hash forked 4) = Ok b ∧
    (b = true ↔ anc fork_graph (nth_hash forked 10) (nth_hash forked 4) ∧
       ¬ forks_below fork_graph (nth_hash forked 10) (creator (rec_event (fork_record 4)))).
Proof.
  apply (see_decides (demo_registry 4) 11 fork_graph _ _ (fork_record 10));
    [apply fork_reachable|vm_compute; reflexivity|apply fork_record_get; vm_compute; reflexivity..].
Defined.

Lemma is_ancestor_correct_witness :
  ∃ b, is_ancestor fork_graph (nth_hash forked 9) (nth_hash forked 3) = Ok b ∧
    (b = true → anc fork_graph (nth_hash forked 9) (nth_hash forked 3)) ∧
    (anc fork_graph (nth_hash forked 9) (nth_hash forked 3) →
     b = true ∨ forks_below fork_graph (nth_hash forked 9) (creator (rec_event (fork_record 3)))).
Proof.
  apply (is_ancestor_correct (demo_registry 4) 11 fork_graph _ _ (fork_record 9));
    [apply fork_reachable|vm_compute; reflexivity|apply fork_record_get; vm_compute; reflexivity..].
Defined.




Definition ring_record (i : nat) : EventRecord :=
  default (fresh_record (ring_event 0) 0 [] 0 None None) (get ring_graph (nth_hash ring12 i)).

Lemma ring_record_get i :
  bool_decide (is_Some (get ring_graph (nth_hash ring12 i))) = true →
  get ring_graph (nth_hash ring12 i) = Some (ring_record i).
Proof. unfold ring_record. generalize (get ring_graph (nth_hash ring12 i)). by intros o [r ->]%bool_decide_eq_true_1. Qed.

(** Event 11 of the ring is the one that reaches round 3. *)
Lemma round_rule_holds_witness :
  rec_round (ring_record 11) = 3%N ∧
  rec_round (ring_record 11) =
    (if supermajority (length (climbers ring_graph (nth_hash ring12 11)
                                 (base_of ring_graph (rec_event (ring_record 11))))) 4
     then base_of ring_graph (rec_event (ring_record 11)) + 1
     else base_of ring_graph (rec_event (ring_record 11)))%N.
Proof.
  split; [vm_compute; reflexivity|].
  refine (proj1 (round_rule_holds (demo_registry 4) 12 ring_graph (nth_hash ring12 11) (ring_record 11) 4
    (demo_later 4 ring12 ring12_wf) eq_refl (ring_record_get 11 _) _)); vm_compute; reflexivity.
Defined.

Lemma reachable_invariants_witness : graph_wf fork_graph ∧ rounds_wf fork_graph.
Proof.
  apply (reachable_invariants (demo_registry 4) 11); [apply fork_reachable|vm_compute; reflexivity].
Defined.

Lemma order_decided_rounds_exhausts_witness :
  ∃ g', order_decided_rounds ring_graph = (Ok tt, g') ∧ graph_wf g' ∧ rounds_wf g' ∧
    (next_round_to_order ring_graph ≤ next_round_to_order g')%N ∧
    next_round_to_order g' ∉ fully_decided_rounds g'.
Proof.
  apply (order_decided_rounds_exhausts (demo_registry 4) 12);
    [apply (ring_reachable 12)|vm_compute; reflexivity].
Defined.

Lemma median_timestamp_between_witness :
  median_timestamp (E := unit) [9; 4; 7; 1]%N = median_timestamp [1; 4; 7; 9]%N ∧
  ∃ t a b, median_timestamp (E := unit) [9; 4; 7; 1]%N = Ok t ∧
    a ∈ [9; 4; 7; 1]%N ∧ b ∈ [9; 4; 7; 1]%N ∧ (a ≤ t ≤ b)%N.
Proof. apply (median_timestamp_between [9; 4; 7; 1]%N [1; 4; 7; 9]%N); [done|solve_Permutation]. Defined.

Lemma run_pair {A B} (p : A * B) a : p.1 = a → p = (a, p.2).
Proof. destruct p; simpl. by intros ->. Qed.

(** Pruning the lone member's graph below round 3 keeps the order of round 3. *)
Lemma prune_keeps_live_witness :
  consensus_order (prune_before_round 3 solo_graph).2 3 = consensus_order solo_graph 3 ∧
  consensus_order solo_graph 3 = [nth_hash solo5 2].
Proof.
  split; [|vm_compute; reflexivity].
  assert ((prune_before_round 3 solo_graph).1 = Ok [nth_hash solo5 0]) as Hp by (vm_compute; reflexivity).
  destruct (prune_keeps_live solo_graph (prune_before_round 3 solo_graph).2 [nth_hash solo5 0] 3
    (run_pair _ _ Hp)) as (_ & _ & Hk).
  exact (proj1 (Hk 3%N ltac:(lia))).
Defined.

(** A learner that has the first eleven events of the ring accepts the
    teacher's record of the twelfth. *)
Definition learner : Hashgraph := demo_graph 4 (take 11 ring12).

Definition derived : Hashgraph :=
  match store_event learner (ring_event 11) (nth_hash ring12 11) 3
          (get learner (nth_hash ring12 7)) (get learner (nth_hash ring12 10)) with
  | Ok g => g | _ => learner end.

Lemma derived_Ok :
  store_event learner (ring_event 11) (nth_hash ring12 11) 3
    (get learner (nth_hash ring12 7)) (get learner (nth_hash ring12 10)) = Ok derived.
Proof.
  assert (match store_event learner (ring_event 11) (nth_hash ring12 11) 3
    (get learner (nth_hash ring12 7)) (get learner (nth_hash ring12 10)) with Ok _ => true | _ => false end
    = true) as Hok by (vm_compute; reflexivity).
  unfold derived. by destruct (store_event _ _ _ _ _ _).
Qed.

Lemma checks_Ok :
  insert_checks learner (ring_event 11) =
  Ok (nth_hash ring12 11, 3, get learner (nth_hash ring12 7), get learner (nth_hash ring12 10)).
Proof. vm_compute. reflexivity. Qed.

Lemma ring_event_parents : parents (ring_event 11) ≠ [].
Proof. vm_compute. discriminate. Qed.

Lemma insert_accepted_rederives_witness :
  (∀ h, h ≠ nth_hash ring12 11 →
     get (insert_accepted (retained_of (ring_record 11)) 0 learner).2 h = get learner h) ∧
  rec_shape <$> get (insert_accepted (retained_of (ring_record 11)) 0 learner).2 (nth_hash ring12 11)
  = rec_shape <$> get derived (nth_hash ring12 11).
Proof.
  assert (re_event (retained_of (ring_record 11)) = ring_event 11) as He by (vm_compute; reflexivity).
  assert ((insert_accepted (retained_of (ring_record 11)) 0 learner).1 = Ok (nth_hash ring12 11)) as Ha
    by (vm_compute; reflexivity).
  exact (insert_accepted_rederives learner (retained_of (ring_record 11)) 0 (nth_hash ring12 11)
    (insert_accepted (retained_of (ring_record 11)) 0 learner).2 3
    (get learner (nth_hash ring12 7)) (get learner (nth_hash ring12 10)) derived
    (run_pair _ _ Ha) (eq_ind_r (λ e, insert_checks learner e = _) checks_Ok He)
    (eq_ind_r (λ e, parents e ≠ []) ring_event_parents He)
    (eq_ind_r (λ e, store_event learner e _ _ _ _ = _) derived_Ok He)).
Defined.

