(* ===== verification/AgreementProps.v ===== *)
(** * Agreement between nodes, and what it needs

    The consensus order of [consensus/src/order.rs] as a function of the
    history: the rule an event's place follows, the equality of the orders of
    two nodes, and two histories which show that neither of its assumptions
    can be dropped, because the code orders such histories differently
    depending on the order in which events arrive. *)

From S2P Require Import Prelude Codec External Primitives Membership Graph Ancestry Reach Order.
From S2P Require Import Fame Insert Wf Quorum Store Rounds OrderFacts Voting Reachable Demo.
From S2P Require Import Finality Agreement Ballots ForkFree VotePairs OrderAgreement AgreementDemo.

Section props.
Context `{Sha256}.


(** C8: the place of an event follows the rule of [assign_order].  On every
    fork-free history an event is received in the first ordered round all of
    whose famous witnesses see it, and in no round otherwise; its consensus
    timestamp is the median of the times at which those witnesses first saw
    it; and every ordered round had all its witnesses decided and every
    member past it. *)
Theorem order_rule_holds `{HashOrder} genesis n g :
  later (new genesis) n g → (2 * N.of_nat n + 3 < u64_modulus)%N → no_forks g g →
  (∀ h k, round_received g h = Some k ↔ is_Some (get g h) ∧ (1 ≤ k < next_round_to_order g)%N ∧
     receives g k h ∧ ∀ j, (1 ≤ j < k)%N → ¬ receives g j h) ∧
  (∀ h k, round_received g h = Some k → ∃ l ts,
     collect_first_seen g (famous_witnesses_of_round g k) h = Ok l ∧
     median_timestamp (E := ConsensusError) l = Ok ts ∧ consensus_timestamp g h = Some ts) ∧
  (∀ k, (1 ≤ k < next_round_to_order g)%N → round_view_complete g k = Ok true ∧
     ∀ w, w ∈ witnesses_of_round g k → fame_settled g w = true).
Proof.
  intros Hl Hn Hnf. pose proof (later_tracked genesis n g Hl Hn Hnf) as Ht.
  assert (∀ h k, round_received g h = Some k → ∀ j, (1 ≤ j < k)%N → ¬ receives g j h) as Hmin.
  { intros h k Hk j Hj Hrc. destruct (tk_received _ _ Ht h k Hk) as (Hk' & _).
    destruct (tk_all _ _ Ht h j) as (i & Hi & Hi'); [|lia|done|].
    - unfold round_received in Hk. destruct (get g h); [by eexists|done].
    - assert (i = k) by congruence. lia. }
  split; [|split].
  - intros h k. split.
    + intros Hk. destruct (tk_received _ _ Ht h k Hk) as (Hk' & Hrc & _). split; [|by eauto].
      unfold round_received in Hk. destruct (get g h); [by eexists|done].
    + intros (Hh & Hk & Hrc & Hno). destruct (tk_all _ _ Ht h k Hh Hk Hrc) as (j & Hj & Hr).
      destruct (decide (j = k)) as [->|Hne]; [done|]. destruct (tk_received _ _ Ht h j Hr) as (? & ? & _).
      destruct (Hno j); [lia|done].
  - intros h k Hk. destruct (tk_received _ _ Ht h k Hk) as (_ & _ & _ & ?). done.
  - intros k Hk. by apply (tk_settled _ _ Ht), (tk_next _ _ Ht).
Qed.

(** C9: votes are virtual.  On every fork-free history a vote the code has
    cached is the vote that the graph below the voter determines, whatever
    the order in which candidates and voters arrived, and every fame decision
    is backed by a supermajority of the witnesses of one later round. *)
Theorem votes_are_virtual `{HashOrder} genesis n g :
  later (new genesis) n g → (2 * N.of_nat n + 3 < u64_modulus)%N → no_forks g g →
  (∀ y r w b, get g y = Some r → vote_for r w = Some b → b = virtual_vote g y w) ∧
  (∀ w f, fame_of g w = Some f → f ≠ Undecided →
     ∃ k, (round_of g w < k < highest_witness_round g)%N ∧ backed g w (bool_decide (f = Famous)) k).
Proof.
  intros Hl Hn Hnf. pose proof (later_tracked genesis n g Hl Hn Hnf) as Ht. split.
  - intros y r w b Hy Hb. by apply (tk_vote _ _ Ht y r w b Hy Hb).
  - apply (tk_fame _ _ Ht).
Qed.
End props.

(** ** Instances *)

#[local] Existing Instance toy_sha256.
#[local] Existing Instance toy_ed25519.


Lemma order_rule_holds_witness :
  round_view_complete node1 2 = Ok true.
Proof.
  refine (proj1 (proj2 (proj2 (order_rule_holds (H0 := identity_order) (demo_registry 4) 16 node1
    (prompt_later _ _ _ node1_prompt) eq_refl node1_forks)) 2%N _)).
  split; vm_compute; [discriminate|reflexivity].
Defined.

Definition first_hash : EventHash := Eval vm_compute in default [] (demo_hash <$> ring16 !! 0).

(** The first event of the ring is famous, with a supermajority behind it. *)
Lemma votes_are_virtual_witness :
  ∃ k, (round_of node1 first_hash < k < highest_witness_round node1)%N ∧
    backed (H := identity_order) node1 first_hash (bool_decide (Famous = Famous)) k.
Proof.
  refine (proj2 (votes_are_virtual (H0 := identity_order) (demo_registry 4) 16 node1
    (prompt_later _ _ _ node1_prompt) eq_refl node1_forks) first_hash Famous _ _).
  - vm_compute. reflexivity.
  - discriminate.
Defined.

(** ** Histories the code orders by arrival

    Two nodes hold the same events when the one's list is a permutation of
    the other's and each stored them all. *)

Definition distinct_self_parents (es : list Event) : Prop :=
  NoDup ((λ e, (creator e, self_parent e)) <$> es).

(** Every event carries its creator's signature. *)
Definition properly_signed (es : list Event) : Prop :=
  Forall (λ e, match encode_unsigned_event (ev_unsigned e) with
               | Ok m => ed_verify_strict (ed_public (demo_key (creator e)))
                           m (signature e) = true
               | _ => False
               end) es.

#[local] Instance properly_signed_dec es : Decision (properly_signed es).
Proof. apply Forall_dec. intros e. destruct (encode_unsigned_event _); apply _. Defined.

Record split_order (k : nat) (es1 es2 : list Event) (round : N) : Prop := {
  sp_same : es1 ≡ₚ es2;
  sp_wf : Forall wf_event es1;
  sp_signed : properly_signed es1;
  sp_stored : size (events (demo_graph (H := identity_order) k es1)) = length es1 ∧
              size (events (demo_graph (H := identity_order) k es2)) = length es2;
  sp_ordered : (round < next_round_to_order (demo_graph (H := identity_order) k es1))%N ∧
               (round < next_round_to_order (demo_graph (H := identity_order) k es2))%N;
  sp_differ : consensus_order (H := identity_order) (demo_graph (H := identity_order) k es1) round ≠
              consensus_order (H := identity_order) (demo_graph (H := identity_order) k es2) round;
}.

(** The computed part. *)
Definition split_check (k : nat) (es1 es2 : list Event) (round : N) : bool :=
  let g1 := demo_graph (H := identity_order) k es1 in
  let g2 := demo_graph (H := identity_order) k es2 in
  bool_decide (size (events g1) = length es1) && bool_decide (size (events g2) = length es2) &&
  (round <? next_round_to_order g1)%N && (round <? next_round_to_order g2)%N &&
  negb (bool_decide (consensus_order (H := identity_order) g1 round =
                     consensus_order (H := identity_order) g2 round)).

Lemma split_order_by_check k es1 es2 round :
  es1 ≡ₚ es2 → Forall wf_event es1 → properly_signed es1 → split_check k es1 es2 round = true →
  split_order k es1 es2 round.
Proof.
  intros Hp Hw Hs Hc. unfold split_check in Hc. cbn zeta in Hc.
  apply andb_true_iff in Hc as [Hc Hd]. do 3 apply andb_true_iff in Hc as [Hc ?].
  split; try done.
  - split; by apply (bool_decide_eq_true_1 _).
  - split; by apply N.ltb_lt.
  - apply negb_true_iff in Hd. by apply bool_decide_eq_false_1 in Hd.
Qed.

(** Delivering the [i]th event last. *)
Lemma deliver_last {A} (i : nat) (l : list A) : l ≡ₚ take i l ++ drop (S i) l ++ take 1 (drop i l).
Proof.
  rewrite <- (take_drop i l) at 1. f_equiv. rewrite <- (Nat.add_1_r i), <- drop_drop.
  destruct (drop i l) as [|x r]; [done|]. simpl. rewrite drop_0. apply Permutation_cons_append.
Qed.

(** Delivering the tail from position [j] on already after position [i]. *)
Lemma deliver_after {A} (i j : nat) (l : list A) :
  i ≤ j → l ≡ₚ take i l ++ drop j l ++ drop i (take j l).
Proof.
  intros Hij. rewrite <- (take_drop j l) at 1. rewrite <- (take_drop i (take j l)) at 1.
  rewrite take_take, Nat.min_l, <- app_assoc by done. f_equiv. apply Permutation_app_comm.
Qed.

(** Four members gossip so that the votes on member 4's first event stay
    split for eleven rounds; in the twelfth, a coin round, one witness (event
    62) sees three votes for it and the other three flip a coin. *)
Definition contested : list Event := Eval vm_compute in
  demo_events [] 100
    [(1%N, None, None); (2%N, None, Some 0); (3%N, None, Some 1); (4%N, None, None);
     (1%N, Some 0, Some 2); (2%N, Some 1, Some 4); (3%N, Some 2, Some 5); (4%N, Some 3, Some 5);
     (1%N, Some 4, Some 7); (1%N, Some 8, Some 6); (2%N, Some 5, Some 9); (1%N, Some 9, Some 10);
     (3%N, Some 6, Some 11); (4%N, Some 7, Some 11); (4%N, Some 13, Some 12);
     (1%N, Some 11, Some 14); (4%N, Some 14, Some 15); (3%N, Some 12, Some 16);
     (2%N, Some 10, Some 17); (1%N, Some 15, Some 18); (2%N, Some 18, Some 19);
     (3%N, Some 17, Some 19); (4%N, Some 16, Some 21); (4%N, Some 22, Some 20);
     (1%N, Some 19, Some 23); (3%N, Some 21, Some 24); (4%N, Some 23, Some 24);
     (2%N, Some 20, Some 26); (2%N, Some 27, Some 25); (1%N, Some 24, Some 28);
     (2%N, Some 28, Some 29); (4%N, Some 26, Some 29); (3%N, Some 25, Some 30);
     (1%N, Some 29, Some 32); (4%N, Some 31, Some 33); (2%N, Some 30, Some 34);
     (3%N, Some 32, Some 35); (1%N, Some 33, Some 36); (2%N, Some 35, Some 37);
     (1%N, Some 37, Some 38); (3%N, Some 36, Some 38); (4%N, Some 34, Some 39);
     (4%N, Some 41, Some 40); (2%N, Some 38, Some 42); (3%N, Some 40, Some 43);
     (1%N, Some 39, Some 43); (4%N, Some 42, Some 43); (1%N, Some 45, Some 46);
     (3%N, Some 44, Some 47); (2%N, Some 43, Some 48); (1%N, Some 47, Some 49);
     (3%N, Some 48, Some 49); (4%N, Some 46, Some 51); (1%N, Some 50, Some 52);
     (3%N, Some 51, Some 53); (2%N, Some 49, Some 54); (4%N, Some 52, Some 54);
     (1%N, Some 53, Some 55); (2%N, Some 55, Some 57); (4%N, Some 56, Some 58);
     (1%N, Some 57, Some 59); (2%N, Some 58, Some 59); (3%N, Some 54, Some 61);
     (1%N, Some 60, Some 61); (2%N, Some 61, Some 63); (4%N, Some 59, Some 64)].

(** Event 62 arrives last. *)
Definition contested_late : list Event := Eval vm_compute in
  take 62 contested ++ drop 63 contested ++ take 1 (drop 62 contested).

(** The ring of [Demo], and a second event of member 4 on the self-parent of
    its third event, which no other event refers to. *)
Definition branched : list Event := Eval vm_compute in
  demo_events [] 100
    (((λ i, (N.of_nat (i `mod` 4 + 1), if decide (i < 4) then None else Some (i - 4),
             if decide (i < 4) then None else Some (i - 1))) <$> seq 0 20) ++ [(4%N, Some 7, None)]).

(** The unused branch arrives before the used one. *)
Definition branched_early : list Event := Eval vm_compute in
  take 8 branched ++ drop 20 branched ++ drop 8 (take 20 branched).

Lemma contested_wf : Forall wf_event contested.
Proof. apply (bool_decide_eq_true_1 _). vm_compute. reflexivity. Qed.

Lemma branched_wf : Forall wf_event branched.
Proof. apply (bool_decide_eq_true_1 _). vm_compute. reflexivity. Qed.

(** C35: a decision in a coin round splits the network.  The 66 events of
    [contested] are honest: signed, and with no two events of one member on
    one self-parent.  Two nodes store them all and differ only in receiving
    event 62 before or after the last three events; because [vote_of] decides
    fame also in a coin round, one decides member 4's first event famous and
    the other not famous, and they order round 1 differently.  The assumption
    of the agreement theorem on coin rounds cannot be dropped. *)
Theorem coin_round_splits_order :
  distinct_self_parents contested ∧ split_order 4 contested contested_late 1.
Proof.
  split; [apply (bool_decide_eq_true_1 _); vm_compute; reflexivity|].
  apply split_order_by_check; [exact (deliver_last 62 contested)|exact contested_wf| |].
  - apply (bool_decide_eq_true_1 _). vm_compute. reflexivity.
  - vm_compute. reflexivity.
Qed.

(** C36: a fork splits the network.  One member of four signs two events on
    one self-parent; both nodes store the same 21 events, but the node that
    receives the unused branch first drops the used one from the famous
    witnesses of round 3, because [famous_witnesses_of_round] keeps the branch
    it saw first, and orders round 3 differently.  The assumption of the
    agreement theorem on forks cannot be dropped. *)
Theorem fork_splits_order : split_order 4 branched branched_early 3.
Proof.
  apply split_order_by_check; [|exact branched_wf| |].
  - etrans; [exact (deliver_after 8 20 branched ltac:(lia))|]. apply reflexive_eq. vm_compute. reflexivity.
  - apply (bool_decide_eq_true_1 _). vm_compute. reflexivity.
  - vm_compute. reflexivity.
Qed.
