(* ===== verification/Checkpoint.v ===== *)
(** * Signed checkpoints

    [consensus/src/checkpoint.rs]: the records root with its inclusion proofs,
    the window root, the roster-history root, the checkpoint payload, its
    signatures and their accumulation; [checkpoint_payload] of [hashgraph.rs];
    the byte form of signed checkpoints of [reconnect.rs]; the BLS wrapper
    [crypto/src/bls.rs]; and the pure functions of [gossip/src/node.rs] that
    chain payloads and verify one signature.

    A function that returns an [Option] and can also panic is a [res unit]:
    [None] is [Err tt]. *)

From S2P Require Import Prelude Codec External Primitives Membership Graph Order Insert Retain Reconnect.

(** ** The BLS wrapper *)

Module BlsWrapper.
Section wrapper.
Context `{Bls}.

Definition CHECKPOINT_DST : bytes := String.list_byte_of_string "JKAIN-CHECKPOINT-BLS-V1".
Definition POP_DST : bytes := String.list_byte_of_string "JKAIN-BLS-POP-V1".

(** [BlsIdentity::sign] with the identity's secret key. *)
Definition sign (secret msg : bytes) : bytes := bls_sign secret msg CHECKPOINT_DST.

Definition aggregate (sigs : list bytes) : res CryptoError bytes :=
  ok_or (bls_aggregate sigs) BlsAggregateFailed.

Definition verify_aggregate (sig msg : bytes) (pks : list bytes) : bool :=
  bls_fast_aggregate_verify sig msg CHECKPOINT_DST pks.

Definition pop_message (pk : bytes) : bytes := POP_DST ++ pk.

Definition sign_pop (secret : bytes) : bytes :=
  bls_sign secret (pop_message (bls_public secret)) POP_DST.

Definition verify_pop (pk pop : bytes) : bool := bls_verify pop (pop_message pk) POP_DST pk.
End wrapper.
End BlsWrapper.

(** ** The padded Merkle tree *)

(** [usize::next_power_of_two]; no vector is long enough to overflow it. *)
Definition next_power_of_two (n : nat) : nat := 2 ^ Nat.log2_up n.

(** The loops over the levels of the tree, for the function that combines two
    nodes ([combine_hash] in the program). *)
Section levels.
Context {E A : Type} (combine : A → A → A).

(** [for chunk in level.chunks(2)], with [chunk[1]] an index. *)
Fixpoint next_level (level : list A) : res E (list A) :=
  match level with
  | [] => mret []
  | [_] => Crash Panicked
  | l :: r :: rest => next ← next_level rest; mret (combine l r :: next)
  end.

(** [while level.len() > 1], then [level[0]]. *)
Fixpoint fold_levels (fuel : nat) (level : list A) : res E A :=
  if decide (1 < length level) then
    match fuel with
    | O => Crash OutOfFuel
    | S fuel => next ← next_level level; fold_levels fuel next
    end
  else expect (head level).

(** The same loop keeping every level. *)
Fixpoint build_levels (fuel : nat) (level : list A) : res E (list (list A)) :=
  if decide (1 < length level) then
    match fuel with
    | O => Crash OutOfFuel
    | S fuel => next ← next_level level; levels ← build_levels fuel next; mret (level :: levels)
    end
  else mret [level].
End levels.

(** [resize(padded_len, empty)]. *)
Definition pad {A} (empty : A) (leaves : list A) : list A :=
  leaves ++ replicate (next_power_of_two (length leaves) - length leaves) empty.

(** ** Records root *)

Record RecordsRootItem := {
  item_event_hash : bytes;
  item_tx_index : N;
  item_tx_payload : bytes;
}.

#[export] Instance records_root_item_eq_dec : EqDecision RecordsRootItem.
Proof. solve_decision. Defined.

Record RecordsProofStep := { sibling_hash : bytes; sibling_is_right : bool }.

Record RecordsProof := { item_index : N; proof_steps : list RecordsProofStep }.

Section records.
Context `{Sha256}.

Definition empty_hash : bytes := sha256 [x00].
Definition internal_hash (left right : bytes) : bytes := sha256 (x02 :: left ++ right).
Definition singleton_hash (child : bytes) : bytes := sha256 (x01 :: child).

Definition combine_hash (left right : bytes) : bytes :=
  match bool_decide (left = empty_hash), bool_decide (right = empty_hash) with
  | true, true => empty_hash
  | true, false => singleton_hash right
  | false, true => singleton_hash left
  | false, false => internal_hash left right
  end.

(** The bytes hashed into a leaf. *)
Definition leaf_bytes (item : RecordsRootItem) : res PrimError bytes :=
  len ← u32_try_from "RecordsRootItem tx_payload length" (length (item_tx_payload item));
  mret (x00 :: item_event_hash item ++ u32_be (item_tx_index item) ++ u32_be len ++ item_tx_payload item).

Definition try_leaf_hash (item : RecordsRootItem) : res PrimError bytes :=
  m ← leaf_bytes item; mret (sha256 m).

Fixpoint leaf_hashes (items : list RecordsRootItem) : res PrimError (list bytes) :=
  match items with
  | [] => mret []
  | item :: items => h ← try_leaf_hash item; hs ← leaf_hashes items; mret (h :: hs)
  end.

(** Padding and folding the leaves, as in both roots. *)
Definition padded_root (leaves : list bytes) : res PrimError bytes :=
  fold_levels combine_hash (length leaves) (pad empty_hash leaves).

Definition try_compute_records_root (items : list RecordsRootItem) : res PrimError bytes :=
  match items with
  | [] => mret empty_hash
  | _ => leaves ← leaf_hashes items; padded_root leaves
  end.

(** [expect] of the fallible version. *)
Definition compute_records_root {E} (items : list RecordsRootItem) : res E bytes :=
  match try_compute_records_root items with
  | Ok root => Ok root
  | Err _ => Crash Panicked
  | Crash c => Crash c
  end.

(** [for level in &levels[..levels.len() - 1]]. *)
Fixpoint sibling_steps (levels : list (list bytes)) (cur_idx : nat) : list RecordsProofStep :=
  match levels with
  | [] | [_] => []
  | level :: levels =>
      match level !! Nat.lxor cur_idx 1 with
      | Some h => [{| sibling_hash := h; sibling_is_right := bool_decide (cur_idx `mod` 2 = 0) |}]
      | None => []
      end ++ sibling_steps levels (cur_idx / 2)
  end.

(** [for (idx, _) in items.iter().enumerate()], from index [idx] on. *)
Fixpoint proofs_from (levels : list (list bytes)) (idx count : nat) : res PrimError (list RecordsProof) :=
  match count with
  | O => mret []
  | S count =>
      item_index ← u32_try_from "RecordsRootItem index" idx;
      proofs ← proofs_from levels (S idx) count;
      mret ({| item_index := item_index; proof_steps := sibling_steps levels idx |} :: proofs)
  end.

Definition try_build_records_proofs (items : list RecordsRootItem) : res PrimError (list RecordsProof) :=
  match items with
  | [] => mret []
  | _ =>
      leaves ← leaf_hashes items;
      levels ← build_levels combine_hash (length leaves) (pad empty_hash leaves);
      proofs_from levels 0 (length items)
  end.

Definition try_compute_records_root_with_proofs (items : list RecordsRootItem) :
    res PrimError (bytes * list RecordsProof) :=
  root ← try_compute_records_root items;
  proofs ← try_build_records_proofs items;
  mret (root, proofs).

Definition proof_step (cur : bytes) (step : RecordsProofStep) : bytes :=
  if sibling_is_right step then combine_hash cur (sibling_hash step)
  else combine_hash (sibling_hash step) cur.

Definition verify_records_proof (root : bytes) (item : RecordsRootItem) (proof : RecordsProof) : bool :=
  match try_leaf_hash item with
  | Ok cur => bool_decide (foldl proof_step cur (proof_steps proof) = root)
  | _ => false
  end.

(** ** Window root *)

Definition SIGNED_WINDOW_ROUNDS : N := 16.
Definition RETENTION_ROUNDS : N := SIGNED_WINDOW_ROUNDS.

Definition WINDOW_ROOT_DST : bytes := String.list_byte_of_string "JKAIN-WINDOW-ROOT-V1".

(** The bytes hashed into a window leaf; the row is cut or zero-padded to the
    width of the roster. *)
Definition window_leaf_bytes (hash : EventHash) (record : EventRecord) (canonical_width : nat)
    (width_u32 : N) : bytes :=
  WINDOW_ROOT_DST ++ hash ++ u64_be (rec_seq record) ++ u64_be (rec_round record) ++
  encode_opt_u64 (rec_round_received record) ++ encode_opt_u64 (rec_consensus_timestamp record) ++
  u32_be width_u32 ++
  concat ((λ i, u64_be (default 0%N (rec_ancestor_seqs record !! i))) <$> seq 0 canonical_width).

Definition window_leaf_hash (hash : EventHash) (record : EventRecord) (canonical_width : nat)
    (width_u32 : N) : bytes :=
  sha256 (window_leaf_bytes hash record canonical_width width_u32).

Fixpoint window_leaves (hg : Hashgraph) (width : nat) (width_u32 : N) (hashes : list EventHash) :
    res PrimError (list bytes) :=
  match hashes with
  | [] => mret []
  | hash :: hashes =>
      record ← ok_or (get hg hash) (OutOfRange "window_root event" (Hex hash));
      leaves ← window_leaves hg width width_u32 hashes;
      mret (window_leaf_hash hash record width width_u32 :: leaves)
  end.

(** The events received in the rounds [start..=round], in consensus order. *)
Definition window_hashes `{HashOrder} (hg : Hashgraph) (start round : N) : list EventHash :=
  concat (consensus_order hg <$> range_inclusive start round).

Definition try_compute_window_root `{HashOrder} (hg : Hashgraph) (round window_rounds : N) :
    res PrimError bytes :=
  match window_hashes hg (round - window_rounds) round with
  | [] => mret empty_hash
  | hashes =>
      reg ← Roster.roster_for_round (roster_history hg) round;
      let canonical_width := Registry.len reg in
      width_u32 ← u32_try_from "window_root member count" canonical_width;
      leaves ← window_leaves hg canonical_width width_u32 hashes;
      padded_root leaves
  end.

(** ** Roster-history root *)

Definition ROSTER_HISTORY_ROOT_DST : bytes := String.list_byte_of_string "JKAIN-ROSTER-HISTORY-ROOT-V1".

(** The loop over the snapshots, in ascending order: the last one below
    [window_start], and those in [window_start..=round]. *)
Definition select_snapshots (window_start round : N) (l : list (N * MembershipRegistry)) :
    option (N * MembershipRegistry) * list (N * MembershipRegistry) :=
  foldl (λ acc e,
    if decide (e.1 < window_start)%N then (Some e, acc.2)
    else if decide (e.1 ≤ round)%N then (acc.1, acc.2 ++ [e])
    else acc) (None, []) l.

Definition canonical_roster_history (rh : RosterHistory) (round window_rounds : N) :
    option RosterHistory :=
  let (predecessor, selected) := select_snapshots (round - window_rounds) round (Roster.entries rh) in
  let selected := option_list predecessor ++ selected in
  match selected with [] => None | _ => Roster.from_snapshots selected end.

Definition compute_roster_history_root (rh : RosterHistory) (round window_rounds : N) :
    res PrimError bytes :=
  match canonical_roster_history rh round window_rounds with
  | None => mret (sha256 ROSTER_HISTORY_ROOT_DST)
  | Some subset =>
      encoded ← encode_roster_history subset;
      mret (sha256 (ROSTER_HISTORY_ROOT_DST ++ encoded))
  end.
End records.

(** ** Payloads *)

Record CheckpointPayload := {
  cp_round : N;
  records_root : bytes;
  state_hash : bytes;
  roster_hash : bytes;
  prev_checkpoint_hash : bytes;
  window_root : bytes;
  roster_history_root : bytes;
  roster_snapshot : MembershipRegistry;
}.

#[export] Instance checkpoint_payload_eq_dec : EqDecision CheckpointPayload.
Proof. solve_decision. Defined.

Definition zero_hash : bytes := be_bytes 32 0.

Module Payload.
Section payload.
Context `{Sha256}.

Definition new (round : N) (records_root state_hash window_root roster_history_root : bytes)
    (roster_snapshot : MembershipRegistry) : CheckpointPayload :=
  {| cp_round := round; records_root := records_root; state_hash := state_hash;
     roster_hash := Registry.hash roster_snapshot; prev_checkpoint_hash := zero_hash;
     window_root := window_root; roster_history_root := roster_history_root;
     roster_snapshot := roster_snapshot |}.

Definition with_prev_checkpoint_hash (p : CheckpointPayload) (hash : bytes) : CheckpointPayload :=
  {| cp_round := cp_round p; records_root := records_root p; state_hash := state_hash p;
     roster_hash := roster_hash p; prev_checkpoint_hash := hash; window_root := window_root p;
     roster_history_root := roster_history_root p; roster_snapshot := roster_snapshot p |}.

Definition signing_bytes (p : CheckpointPayload) : bytes :=
  u64_be (cp_round p) ++ records_root p ++ state_hash p ++ roster_hash p ++
  prev_checkpoint_hash p ++ window_root p ++ roster_history_root p.

Definition signing_bytes_hash (p : CheckpointPayload) : bytes := sha256 (signing_bytes p).
End payload.
End Payload.

(** ** Signatures *)

Record CheckpointSig := { sig_round : N; sig_signer : NodeId; sig_bls : bytes }.

Record SignedCheckpoint := {
  sc_payload : CheckpointPayload;
  aggregate_sig : bytes;
  signers : list NodeId;
}.

#[export] Instance checkpoint_sig_eq_dec : EqDecision CheckpointSig.
Proof. solve_decision. Defined.
#[export] Instance signed_checkpoint_eq_dec : EqDecision SignedCheckpoint.
Proof. solve_decision. Defined.

Section signatures.
Context `{Sha256, Ed25519, Bls}.

Definition encode_checkpoint_sig (s : CheckpointSig) : bytes :=
  u64_be (sig_round s) ++ u64_be (sig_signer s) ++ sig_bls s.

(** [BlsSignature::from_bytes(&b).ok()?]. *)
Definition bls_sig_from_bytes (b : bytes) : res unit bytes :=
  if bls_sig_valid b then Ok b else Err tt.

Definition decode_checkpoint_sig (bs : bytes) : res unit CheckpointSig :=
  if decide (length bs ≠ 112) then Err tt else
  let round := of_be (take 8 bs) in
  let signer := of_be (take 8 (drop 8 bs)) in
  sig ← bls_sig_from_bytes (drop 16 bs);
  mret {| sig_round := round; sig_signer := signer; sig_bls := sig |}.

(** The loop over [self.signers]: [None] is [return false]. *)
Fixpoint distinct_signers (snapshot registry : MembershipRegistry) (seen : gset NodeId)
    (l : list NodeId) : option (list NodeId) :=
  match l with
  | [] => Some []
  | signer :: l =>
      if decide (signer ∈ seen) then distinct_signers snapshot registry seen l
      else if negb (Registry.contains snapshot signer) then None
      else if negb (Registry.contains registry signer) then None
      else distinct ← distinct_signers snapshot registry ({[ signer ]} ∪ seen) l;
           Some (signer :: distinct)
  end.

(** The BLS keys of the signers, [None] when one is missing or malformed. *)
Definition signer_key (snapshot : MembershipRegistry) (signer : NodeId) : option bytes :=
  bls_bytes ← Registry.bls_key_for snapshot signer;
  if bls_pk_valid bls_bytes then Some bls_bytes else None.

Definition verify_with_registry (sc : SignedCheckpoint) (registry : MembershipRegistry) : bool :=
  let snapshot := roster_snapshot (sc_payload sc) in
  let total := Registry.len snapshot in
  if decide (total = 0) then false else
  match distinct_signers snapshot registry ∅ (signers sc) with
  | None => false
  | Some distinct =>
      if negb (supermajority (length distinct) total) then false
      else if decide (length distinct ≠ length (signers sc)) then false
      else match mapM (signer_key snapshot) (merge_sort N.le distinct) with
           | None => false
           | Some pks =>
               BlsWrapper.verify_aggregate (aggregate_sig sc)
                 (Payload.signing_bytes (sc_payload sc)) pks
           end
  end.

Definition verify (sc : SignedCheckpoint) : bool :=
  verify_with_registry sc (roster_snapshot (sc_payload sc)).

(** [verify_checkpoint_sig] of [gossip/src/node.rs]. *)
Definition verify_checkpoint_sig (s : CheckpointSig) (signing_bytes : bytes)
    (roster : MembershipRegistry) : bool :=
  match signer_key roster (sig_signer s) with
  | None => false
  | Some pk => bls_verify (sig_bls s) signing_bytes BlsWrapper.CHECKPOINT_DST pk
  end.
End signatures.

(** ** Accumulating signatures *)

Record CheckpointAccumulator := {
  acc_payload : CheckpointPayload;
  acc_snapshot : bytes;
  acc_sigs : gmap NodeId CheckpointSig;
}.

Module Accumulator.
Section accumulator.
Context `{Sha256, Bls, HashOrder}.

Definition new (payload : CheckpointPayload) (snapshot : bytes) : CheckpointAccumulator :=
  {| acc_payload := payload; acc_snapshot := snapshot; acc_sigs := ∅ |}.

(** [self.sigs.entry(sig.signer).or_insert(sig)]. *)
Definition note_sig (s : CheckpointSig) (acc : CheckpointAccumulator) : CheckpointAccumulator :=
  {| acc_payload := acc_payload acc; acc_snapshot := acc_snapshot acc;
     acc_sigs := match acc_sigs acc !! sig_signer s with
                 | Some _ => acc_sigs acc
                 | None => <[sig_signer s := s]> (acc_sigs acc)
                 end |}.

Definition signer_le (s1 s2 : CheckpointSig) : Prop := (sig_signer s1 ≤ sig_signer s2)%N.

#[global] Instance signer_le_dec : RelDecision signer_le.
Proof. intros s1 s2. unfold signer_le. apply _. Defined.

(** The signed checkpoint of the signatures collected, if they aggregate. *)
Definition conclude (acc : CheckpointAccumulator) : option SignedCheckpoint :=
  let sorted := merge_sort signer_le (hm_iter (acc_sigs acc)).*2 in
  match BlsWrapper.aggregate (sig_bls <$> sorted) with
  | Ok agg => Some {| sc_payload := acc_payload acc; aggregate_sig := agg;
                      signers := merge_sort N.le (hm_iter (acc_sigs acc)).*1 |}
  | _ => None
  end.

Definition add_sig (s : CheckpointSig) (registry : MembershipRegistry) (acc : CheckpointAccumulator) :
    option SignedCheckpoint * CheckpointAccumulator :=
  if decide (sig_round s ≠ cp_round (acc_payload acc)) then (None, acc)
  else if negb (Registry.contains registry (sig_signer s)) then (None, acc)
  else
    let total := Registry.len registry in
    if supermajority (size (acc_sigs acc)) total then (None, acc)
    else
      let acc := note_sig s acc in
      if supermajority (size (acc_sigs acc)) total then (conclude acc, acc) else (None, acc).
End accumulator.
End Accumulator.

(** ** The payload of a decided round *)

(** [.ok()?]: an error becomes [None], a panic stays one. *)
Definition ok_opt {E A} (m : res E A) : res unit A := map_err (λ _, tt) m.

Section payloads.
Context `{Sha256, HashOrder}.

(** [Hashgraph::checkpoint_payload]. *)
Definition checkpoint_payload (hg : Hashgraph) (round : N) (records_root state_hash : bytes) :
    res unit CheckpointPayload :=
  if negb (is_round_decided hg round) then Err tt else
  roster_snapshot ← ok_opt (registry_at_round hg round);
  window_root ← ok_opt (try_compute_window_root hg round SIGNED_WINDOW_ROUNDS);
  roster_history_root ←
    ok_opt (compute_roster_history_root (roster_history hg) round SIGNED_WINDOW_ROUNDS);
  mret (Payload.new round records_root state_hash window_root roster_history_root roster_snapshot).

(** The record items of one event: its transactions with their index, whose
    conversion to [u32] is an [expect]. *)
Fixpoint event_items (hash : EventHash) (idx : nat) (txs : list Transaction) :
    res unit (list RecordsRootItem) :=
  match txs with
  | [] => mret []
  | tx :: txs =>
      if decide (N.of_nat idx < u32_modulus)%N then
        items ← event_items hash (S idx) txs;
        mret ({| item_event_hash := hash; item_tx_index := N.of_nat idx; item_tx_payload := tx |} :: items)
      else Crash Panicked
  end.

Fixpoint record_items (hg : Hashgraph) (order : list EventHash) : res unit (list RecordsRootItem) :=
  match order with
  | [] => mret []
  | hash :: order =>
      items ← match get hg hash with
              | Some record => event_items hash 0 (payload (rec_event record))
              | None => mret []
              end;
      rest ← record_items hg order;
      mret (items ++ rest)
  end.

(** [GossipNode::canonical_checkpoint_payload]; [state_hashes.range(..=round).next_back()]. *)
Definition canonical_checkpoint_payload (hg : Hashgraph) (round : N) (state_hashes : gmap N bytes) :
    res unit CheckpointPayload :=
  state_hash ← ok_or (snd <$> bt_last N.le (λ r, (r ≤ round)%N) state_hashes) tt;
  items ← record_items hg (consensus_order hg round);
  records_root ← compute_records_root items;
  checkpoint_payload hg round records_root state_hash.

(** [prev_checkpoint_hash_for] and [canonical_checkpoint_payload_chained],
    which call each other one round down. *)
Fixpoint prev_checkpoint_hash_for (hg : Hashgraph) (round : nat) (state_hashes : gmap N bytes)
    (signed : list SignedCheckpoint) : res unit bytes :=
  match round with
  | O => mret zero_hash
  | S prev_round =>
      match list_find (λ sc, cp_round (sc_payload sc) = N.of_nat prev_round) signed with
      | Some (_, sc) => mret (Payload.signing_bytes_hash (sc_payload sc))
      | None =>
          match base ← canonical_checkpoint_payload hg (N.of_nat prev_round) state_hashes;
                prev ← prev_checkpoint_hash_for hg prev_round state_hashes signed;
                mret (Payload.with_prev_checkpoint_hash base prev) with
          | Ok prev_payload => mret (Payload.signing_bytes_hash prev_payload)
          | Err _ => mret zero_hash
          | Crash c => Crash c
          end
      end
  end.

Definition canonical_checkpoint_payload_chained (hg : Hashgraph) (round : N)
    (state_hashes : gmap N bytes) (signed : list SignedCheckpoint) : res unit CheckpointPayload :=
  base ← canonical_checkpoint_payload hg round state_hashes;
  prev ← prev_checkpoint_hash_for hg (N.to_nat round) state_hashes signed;
  mret (Payload.with_prev_checkpoint_hash base prev).
End payloads.

(** ** The byte form of signed checkpoints ([reconnect.rs]) *)

Definition encode_signed_checkpoint (sc : SignedCheckpoint) : res PrimError bytes :=
  let p := sc_payload sc in
  let roster_bytes := Registry.to_bytes (roster_snapshot p) in
  roster_len ← u32_try_from "SignedCheckpoint roster_snapshot length" (length roster_bytes);
  signer_count ← u32_try_from "SignedCheckpoint signers length" (length (signers sc));
  mret (u64_be (cp_round p) ++ records_root p ++ state_hash p ++ roster_hash p ++
        prev_checkpoint_hash p ++ window_root p ++ roster_history_root p ++
        u32_be roster_len ++ roster_bytes ++
        u32_be signer_count ++ concat (u64_be <$> signers sc) ++ aggregate_sig sc).

Section decode.
Context `{Sha256, Ed25519, Bls}.

Definition MIN_SIGNER : N := 8.

(** [roster_snapshot.hash() != roster_hash] is refused. *)
Definition take_payload : stM bytes unit CheckpointPayload :=
  round ← take_u64 tt;
  records_root ← take_exact tt 32;
  state_hash ← take_exact tt 32;
  roster_hash ← take_exact tt 32;
  prev_checkpoint_hash ← take_exact tt 32;
  window_root ← take_exact tt 32;
  roster_history_root ← take_exact tt 32;
  roster_bytes ← take_bytes tt;
  roster_snapshot ← st_lift (λ _, Registry.from_bytes roster_bytes);
  if decide (Registry.hash roster_snapshot ≠ roster_hash) then st_fail tt else
  mret {| cp_round := round; records_root := records_root; state_hash := state_hash;
          roster_hash := roster_hash; prev_checkpoint_hash := prev_checkpoint_hash;
          window_root := window_root; roster_history_root := roster_history_root;
          roster_snapshot := roster_snapshot |}.

Definition take_signed_checkpoint : stM bytes unit SignedCheckpoint :=
  payload ← take_payload;
  signer_count ← take_u32 tt;
  cursor ← st_get;
  if decide ((N.of_nat (length cursor) - 96) / MIN_SIGNER < signer_count)%N then st_fail tt else
  signers ← take_n (N.to_nat signer_count) (take_u64 tt);
  sig_bytes ← take_exact tt 96;
  aggregate_sig ← st_lift (λ _, bls_sig_from_bytes sig_bytes);
  reject_trailing tt ;;
  mret {| sc_payload := payload; aggregate_sig := aggregate_sig; signers := signers |}.

Definition decode_signed_checkpoint (bs : bytes) : res unit SignedCheckpoint :=
  (take_signed_checkpoint bs).1.
End decode.
