(* ===== verification/CheckpointFacts.v ===== *)
(** * Facts on checkpoints

    The padded Merkle tree behind the records and the window root, the quorum
    of a signed checkpoint, the codecs of signatures and signed checkpoints,
    and the agreement of two nodes on the payload of a round. *)

From S2P Require Import Prelude Codec External Primitives Membership Graph Order Insert Retain Reconnect.
From S2P Require Import Checkpoint.

(** ** Levels *)

(** Induction in steps of two, as the loop over chunks goes. *)
Lemma list_ind2 {A} (P : list A → Prop) :
  P [] → (∀ x, P [x]) → (∀ x y l, P l → P (x :: y :: l)) → ∀ l, P l.
Proof.
  intros H0 H1 H2. fix IH 1. intros [|x [|y l]]; [exact H0|apply H1|]. apply H2, IH.
Qed.

Lemma lxor_even j : Nat.lxor (2 * j) 1 = 2 * j + 1.
Proof.
  apply Nat.bits_inj. intros [|n]; rewrite Nat.lxor_spec.
  - by rewrite Nat.testbit_even_0, Nat.testbit_odd_0.
  - change (Nat.testbit 1 (S n)) with (Nat.testbit 0 n).
    rewrite Nat.testbit_even_succ, Nat.testbit_odd_succ, Nat.bits_0 by lia. apply xorb_false_r.
Qed.

Lemma lxor_odd j : Nat.lxor (2 * j + 1) 1 = 2 * j.
Proof. rewrite <- lxor_even, Nat.lxor_assoc, Nat.lxor_nilpotent. apply Nat.lxor_0_r. Qed.

Section levels.
Context {E A : Type} (combine : A → A → A).

Lemma next_level_Ok n (level : list A) :
  length level = 2 * n → ∃ next, next_level (E := E) combine level = Ok next ∧ length next = n.
Proof.
  revert level. induction n as [|n IH]; intros level Hl.
  { destruct level; [|done]. by exists []. }
  destruct level as [|l [|r rest]]; simpl in Hl; [lia..|].
  destruct (IH rest) as (next & Hn & Hlen); [lia|]. exists (combine l r :: next).
  simpl. rewrite Hn. simpl. split; [done|lia].
Qed.

(** The nodes of the next level. *)
Lemma next_level_lookup (level next : list A) i x y :
  next_level (E := E) combine level = Ok next →
  level !! (2 * i) = Some x → level !! (2 * i + 1) = Some y → next !! i = Some (combine x y).
Proof.
  revert level next. induction i as [|i IH]; intros level next Hn Hx Hy.
  - destruct level as [|l [|r rest]]; [done..|]. simpl in *.
    apply res_bind_Ok in Hn as (next' & _ & <-%res_ret_Ok). by simplify_eq.
  - replace (2 * S i) with (S (S (2 * i))) in * by lia. destruct level as [|l [|r rest]]; [done..|].
    apply res_bind_Ok in Hn as (next' & Hn & <-%res_ret_Ok). by apply (IH rest).
Qed.

Lemma levels_one fuel (x : A) :
  fold_levels (E := E) combine fuel [x] = Ok x ∧ build_levels (E := E) combine fuel [x] = Ok [[x]].
Proof. by destruct fuel. Qed.

Lemma build_levels_ne fuel (level : list A) ls :
  build_levels (E := E) combine fuel level = Ok ls → ls ≠ [].
Proof.
  destruct fuel; simpl; case_decide; try done; [by intros [= <-]| |by intros [= <-]].
  by intros (next & _ & (ls' & _ & <-%res_ret_Ok)%res_bind_Ok)%res_bind_Ok.
Qed.

(** The loops stop with one node when the level is a power of two long. *)
Lemma fold_levels_Ok k fuel (level : list A) :
  length level = 2 ^ k → k ≤ fuel → ∃ x, fold_levels (E := E) combine fuel level = Ok x.
Proof.
  revert fuel level. induction k as [|k IH]; intros fuel level Hl Hf.
  { destruct level as [|x [|]]; try done. exists x. by destruct fuel. }
  destruct fuel as [|fuel]; [lia|]. rewrite Nat.pow_succ_r' in Hl.
  pose proof (Nat.pow_nonzero 2 k ltac:(done)).
  destruct (next_level_Ok (2 ^ k) level Hl) as (next & Hn & Hlen).
  destruct (IH fuel next Hlen ltac:(lia)) as [x Hx]. exists x.
  cbn [fold_levels]. rewrite decide_True by lia. by rewrite Hn.
Qed.

Lemma build_levels_Ok k fuel (level : list A) :
  length level = 2 ^ k → k ≤ fuel → ∃ ls, build_levels (E := E) combine fuel level = Ok ls.
Proof.
  revert fuel level. induction k as [|k IH]; intros fuel level Hl Hf.
  { exists [level]. destruct fuel; simpl; rewrite decide_False by (simpl in *; lia); done. }
  destruct fuel as [|fuel]; [lia|]. rewrite Nat.pow_succ_r' in Hl.
  pose proof (Nat.pow_nonzero 2 k ltac:(done)).
  destruct (next_level_Ok (2 ^ k) level Hl) as (next & Hn & Hlen).
  destruct (IH fuel next Hlen ltac:(lia)) as [ls Hls]. exists (level :: ls).
  cbn [build_levels]. rewrite decide_True by lia. by rewrite Hn; simpl; rewrite Hls.
Qed.

Lemma length_pad (empty : A) (l : list A) : length (pad empty l) = 2 ^ Nat.log2_up (length l).
Proof.
  unfold pad, next_power_of_two. rewrite length_app, length_replicate.
  destruct (decide (length l = 0)) as [->|Hne]; [done|].
  destruct (decide (length l = 1)) as [->|]; [done|].
  pose proof (Nat.log2_up_spec (length l)). lia.
Qed.

Lemma log2_up_le n : Nat.log2_up n ≤ n.
Proof. destruct n; [done|]. apply Nat.lt_le_incl, Nat.log2_up_lt_lin. lia. Qed.
End levels.

(** ** The tree a root commits to *)

(** A node is empty, a hashed leaf message, or made of one or two children. *)
Inductive mtree :=
| MEmpty
| MLeaf (m : bytes)
| MOne (t : mtree)
| MTwo (l r : mtree).

#[export] Instance mtree_eq_dec : EqDecision mtree.
Proof. solve_decision. Defined.

Definition mcombine (l r : mtree) : mtree :=
  match l, r with
  | MEmpty, MEmpty => MEmpty
  | MEmpty, _ => MOne r
  | _, MEmpty => MOne l
  | _, _ => MTwo l r
  end.

Fixpoint mleaves (t : mtree) : list bytes :=
  match t with
  | MEmpty => []
  | MLeaf m => [m]
  | MOne t => mleaves t
  | MTwo l r => mleaves l ++ mleaves r
  end.

(** A message that no other kind of node hashes. *)
Definition leaf_like (m : bytes) : Prop :=
  m ≠ [x00] ∧ head m ≠ Some x01 ∧ head m ≠ Some x02.

Definition mwf (t : mtree) : Prop := Forall leaf_like (mleaves t).

Lemma mcombine_leaves l r : mleaves (mcombine l r) = mleaves l ++ mleaves r.
Proof. destruct l, r; simpl; by rewrite ?app_nil_r. Qed.

Lemma next_level_leaves {E} ts next :
  next_level (E := E) mcombine ts = Ok next → concat (mleaves <$> next) = concat (mleaves <$> ts).
Proof.
  revert next. induction ts as [|t|l r ts IH] using list_ind2; intros next; [by intros [= <-]|done|].
  intros (next' & Hn & <-%res_ret_Ok)%res_bind_Ok. rewrite !fmap_cons. cbn [concat].
  by rewrite mcombine_leaves, (IH _ Hn), <- (assoc_L (++)).
Qed.

Section trees.
Context `{Sha256}.

Fixpoint mhash (t : mtree) : bytes :=
  match t with
  | MEmpty => empty_hash
  | MLeaf m => sha256 m
  | MOne t => singleton_hash (mhash t)
  | MTwo l r => internal_hash (mhash l) (mhash r)
  end.

(** The message hashed at the root of a tree. *)
Definition mmessage (t : mtree) : bytes :=
  match t with
  | MEmpty => [x00]
  | MLeaf m => m
  | MOne t => x01 :: mhash t
  | MTwo l r => x02 :: mhash l ++ mhash r
  end.

Lemma mhash_message t : mhash t = sha256 (mmessage t).
Proof. by destruct t. Qed.

Lemma length_mhash t : length (mhash t) = 32.
Proof. rewrite mhash_message. apply sha256_length. Qed.

(** Two trees with one hash are equal. *)
Lemma mhash_inj t1 t2 : mwf t1 → mwf t2 → mhash t1 = mhash t2 → t1 = t2 ∨ sha256_collision.
Proof.
  unfold mwf. revert t2. induction t1 as [|m1|t1 IH|l1 IHl r1 IHr]; intros t2 Hw1 Hw2;
    rewrite !mhash_message; intros [Heq|?]%collides; try (by right).
  all: destruct t2 as [|m2|t2|l2 r2]; simpl in *; unfold leaf_like in *; decompose_Forall_hyps; destruct_and?; simplify_eq/=; try done.
  - by left.
  - by left.
  - destruct (IH t2 Hw1 Hw2 Heq) as [->|?]; [by left|by right].
  - apply app_inj_1 in Heq as [Hl Hr]; [|by rewrite !length_mhash].
    destruct (IHl l2) as [->|?]; [done..| |by right]. destruct (IHr r2) as [->|?]; [done..| |by right].
    by left.
Qed.

Lemma mhash_empty t : mwf t → mhash t = empty_hash → t = MEmpty ∨ sha256_collision.
Proof. intros Ht. apply (mhash_inj t MEmpty); [done|constructor]. Qed.

Lemma mhash_combine l r :
  mwf l → mwf r → mhash (mcombine l r) = combine_hash (mhash l) (mhash r) ∨ sha256_collision.
Proof.
  intros Hl Hr. unfold combine_hash. pose proof (mhash_empty l Hl). pose proof (mhash_empty r Hr).
  case_bool_decide; case_bool_decide; destruct l, r; simpl; naive_solver.
Qed.

Lemma next_level_hash {E} ts next :
  Forall mwf ts → next_level (E := E) mcombine ts = Ok next →
  Forall mwf next ∧
  (next_level (E := E) combine_hash (mhash <$> ts) = Ok (mhash <$> next) ∨ sha256_collision).
Proof.
  revert next. induction ts as [|t|l r ts IH] using list_ind2; intros next Hts; [by intros [= <-]; auto|done|].
  decompose_Forall_hyps. intros (next' & Hn & <-%res_ret_Ok)%res_bind_Ok.
  destruct (IH next') as [Hw Heq]; [done..|]. split.
  { constructor; [|done]. unfold mwf. rewrite mcombine_leaves. by apply Forall_app. }
  destruct Heq as [Heq|?]; [|by right]. destruct (mhash_combine l r) as [Hc|?]; [done..| |by right].
  left. simpl. by rewrite Heq; simpl; rewrite Hc.
Qed.

Lemma fold_levels_hash {E} fuel ts t :
  Forall mwf ts → fold_levels (E := E) mcombine fuel ts = Ok t →
  mleaves t = concat (mleaves <$> ts) ∧
  (fold_levels (E := E) combine_hash fuel (mhash <$> ts) = Ok (mhash t) ∨ sha256_collision).
Proof.
  revert ts. induction fuel as [|fuel IH]; intros ts Hts; cbn [fold_levels]; rewrite length_fmap;
    case_decide; [done| | |]; simpl.
  - intros Ht. destruct ts as [|t' [|]]; simpl in *; try (lia || done). injection Ht as ->.
    rewrite app_nil_r. auto.
  - intros (next & Hn & Ht)%res_bind_Ok. destruct (next_level_hash ts next Hts Hn) as [Hw Heq].
    destruct (IH next Hw Ht) as [Hl Hf]. rewrite Hl, (next_level_leaves _ _ Hn). split; [done|].
    destruct Heq as [->|?]; [done|by right].
  - intros Ht. destruct ts as [|t' [|]]; simpl in *; try (lia || done). injection Ht as ->.
    rewrite app_nil_r. auto.
Qed.

Lemma pad_fmap {A B} (f : A → B) (e : A) (l : list A) : pad (f e) (f <$> l) = f <$> pad e l.
Proof. unfold pad. by rewrite fmap_app, fmap_replicate, length_fmap. Qed.

(** The root of a list of leaf messages is the hash of a tree with exactly
    these leaves. *)
Lemma padded_root_tree msgs :
  msgs ≠ [] → Forall leaf_like msgs →
  ∃ t, mleaves t = msgs ∧ mwf t ∧ (padded_root (sha256 <$> msgs) = Ok (mhash t) ∨ sha256_collision).
Proof.
  intros Hne Hm. set (ts := pad MEmpty (MLeaf <$> msgs)).
  assert (concat (mleaves <$> ts) = msgs) as Hts.
  { unfold ts, pad. rewrite fmap_app, concat_app, fmap_replicate. clear.
    assert (∀ n, concat (replicate n (mleaves MEmpty)) = []) as -> by (by induction n).
    rewrite app_nil_r. induction msgs; simpl; by f_equal. }
  assert (Forall mwf ts) as Hw.
  { apply Forall_app. split; [|apply Forall_replicate, Forall_nil; done].
    apply Forall_fmap. eapply Forall_impl; [exact Hm|]. intros m Hl. by constructor. }
  destruct (fold_levels_Ok (E := PrimError) mcombine _ (length msgs) ts (length_pad _ _)) as [t Ht].
  { rewrite length_fmap. apply log2_up_le. }
  destruct (fold_levels_hash _ ts t Hw Ht) as [Hl Hf]. exists t.
  rewrite Hts in Hl. split; [done|]. split; [unfold mwf; by rewrite Hl|].
  unfold padded_root. rewrite length_fmap.
  replace (pad empty_hash (sha256 <$> msgs)) with (mhash <$> ts); [done|].
  unfold ts. rewrite <- pad_fmap. f_equal. by rewrite <- list_fmap_compose.
Qed.

(** [root] is the root of the leaf messages [msgs]; of none, the empty hash. *)
Definition commits (msgs : list bytes) (root : bytes) : Prop :=
  match msgs with [] => root = empty_hash | _ => padded_root (sha256 <$> msgs) = Ok root end.

Lemma commits_tree msgs root :
  Forall leaf_like msgs → commits msgs root →
  (∃ t, mleaves t = msgs ∧ mwf t ∧ root = mhash t) ∨ sha256_collision.
Proof.
  intros Hm Hc. destruct msgs as [|m msgs]; [left; exists MEmpty; split_and!; [done|constructor|done]|].
  destruct (padded_root_tree (m :: msgs)) as (t & Ht & Hw & [Hr|?]); [done|done| |by right].
  left. exists t. simpl in Hc, Hr. split_and!; [done|done|congruence].
Qed.

(** The root binds the list of leaves. *)
Lemma commits_inj msgs1 msgs2 root :
  Forall leaf_like msgs1 → Forall leaf_like msgs2 → commits msgs1 root → commits msgs2 root →
  msgs1 = msgs2 ∨ sha256_collision.
Proof.
  intros Hm1 Hm2 H1 H2.
  destruct (commits_tree _ _ Hm1 H1) as [(t1 & <- & Hw1 & ->)|?]; [|by right].
  destruct (commits_tree _ _ Hm2 H2) as [(t2 & <- & Hw2 & Heq)|?]; [|by right].
  destruct (mhash_inj t1 t2) as [->|?]; [done..|by left|by right].
Qed.
End trees.

(** ** Records: inclusion proofs *)

(** The widths of the fields of an item. *)
Definition wf_item (item : RecordsRootItem) : Prop :=
  length (item_event_hash item) = 32 ∧ is_u32 (item_tx_index item).

Section proofs.
Context `{Sha256}.

(** Reading a proof upwards from a node of the first level gives the root. *)
Lemma sibling_steps_root {E} fuel level levels root i x k :
  length level = 2 ^ k → k ≤ fuel →
  build_levels (E := E) combine_hash fuel level = Ok levels →
  fold_levels (E := E) combine_hash fuel level = Ok root →
  level !! i = Some x → foldl proof_step x (sibling_steps levels i) = root.
Proof.
  revert fuel level levels i x. induction k as [|k IH]; intros fuel level levels i x Hl Hk Hb Hf Hi.
  { destruct level as [|y [|]]; try done. destruct (levels_one (E := E) combine_hash fuel y) as [H1 H2].
    rewrite H1 in Hf. rewrite H2 in Hb. injection Hf as <-. injection Hb as <-.
    destruct i; [|done]. by injection Hi as <-. }
  destruct fuel as [|fuel]; [lia|].
  rewrite Nat.pow_succ_r' in Hl. pose proof (Nat.pow_nonzero 2 k ltac:(done)).
  cbn [build_levels fold_levels] in Hb, Hf. rewrite decide_True in Hb by lia. rewrite decide_True in Hf by lia.
  apply res_bind_Ok in Hf as (next & Hn & Hf). rewrite Hn in Hb.
  apply res_bind_Ok in Hb as (next' & [= <-] & (ls & Hb & <-%res_ret_Ok)%res_bind_Ok).
  destruct (next_level_Ok (E := E) combine_hash (2 ^ k) level Hl) as (next' & Hn' & Hlen).
  rewrite Hn in Hn'. injection Hn' as <-.
  pose proof (build_levels_ne _ _ _ _ Hb) as Hne. cbn [sibling_steps]. destruct ls as [|lv ls]; [done|].
  apply lookup_lt_Some in Hi as Hlt.
  assert (∃ j, j < 2 ^ k ∧ (i = 2 * j ∨ i = 2 * j + 1)) as (j & Hj & Hij).
  { exists (i / 2). pose proof (Nat.div_mod_eq i 2). pose proof (Nat.mod_upper_bound i 2). lia. }
  destruct (lookup_lt_is_Some_2 level (2 * j)) as [xl Hxl]; [lia|].
  destruct (lookup_lt_is_Some_2 level (2 * j + 1)) as [xr Hxr]; [lia|].
  pose proof (next_level_lookup combine_hash level next j xl xr Hn Hxl Hxr) as Hup.
  destruct Hij as [-> | ->].
  - rewrite lxor_even, Hxr, (Nat.mul_comm 2 j), Nat.Div0.mod_mul, Nat.div_mul by done. simpl.
    eapply (IH fuel next (lv :: ls) j); [done|lia|done..|]. rewrite Hup. unfold proof_step. simpl. congruence.
  - rewrite lxor_odd, Hxl. replace ((2 * j + 1) `mod` 2) with 1.
    2: { rewrite Nat.add_comm, Nat.mul_comm. by rewrite Nat.Div0.mod_add. }
    replace ((2 * j + 1) / 2) with j.
    2: { rewrite Nat.add_comm, Nat.mul_comm. by rewrite Nat.div_add. }
    simpl. eapply (IH fuel next (lv :: ls) j); [done|lia|done..|]. rewrite Hup. unfold proof_step. simpl. congruence.
Qed.

Lemma proofs_from_lookup levels idx count proofs :
  proofs_from levels idx count = Ok proofs →
  length proofs = count ∧ ∀ i p, proofs !! i = Some p →
    p = {| item_index := N.of_nat (idx + i); proof_steps := sibling_steps levels (idx + i) |}.
Proof.
  revert idx proofs. induction count as [|count IH]; intros idx proofs; simpl.
  { intros <-%res_ret_Ok. done. }
  intros (n & [-> _]%u32_try_from_Ok & (ps & Hps & <-%res_ret_Ok)%res_bind_Ok)%res_bind_Ok.
  destruct (IH _ _ Hps) as [Hlen Hl]. split; [simpl; lia|]. intros [|i] p Hp; simpl in *.
  - injection Hp as <-. by rewrite Nat.add_0_r.
  - rewrite (Hl i p Hp). by rewrite Nat.add_succ_r.
Qed.

Lemma leaf_hashes_lookup items hs :
  leaf_hashes items = Ok hs → length hs = length items ∧
  ∀ i item, items !! i = Some item → ∃ h, hs !! i = Some h ∧ try_leaf_hash item = Ok h.
Proof.
  revert hs. induction items as [|item items IH]; intros hs; simpl; [by intros <-%res_ret_Ok|].
  intros (h & Hh & (hs' & Hhs & <-%res_ret_Ok)%res_bind_Ok)%res_bind_Ok.
  destruct (IH _ Hhs) as [Hlen Hl]. split; [simpl; lia|].
  intros [|i] it Hi; simpl in *; [|by apply Hl]. injection Hi as ->. by exists h.
Qed.

(** Every proof built verifies against the root computed with it. *)
Lemma records_proofs_complete items root proofs i item p :
  try_compute_records_root_with_proofs items = Ok (root, proofs) →
  items !! i = Some item → proofs !! i = Some p →
  item_index p = N.of_nat i ∧ verify_records_proof root item p = true.
Proof.
  intros (root' & Hr & (proofs' & Hp & [= <- <-]%res_ret_Ok)%res_bind_Ok)%res_bind_Ok Hi Hpi.
  destruct items as [|it items]; [done|].
  unfold try_compute_records_root, try_build_records_proofs in Hr, Hp.
  apply res_bind_Ok in Hr as (leaves & Hl & Hr). rewrite Hl in Hp.
  apply res_bind_Ok in Hp as (leaves' & [= <-] & (levels & Hb & Hp)%res_bind_Ok).
  destruct (leaf_hashes_lookup _ _ Hl) as [Hlen Hlk]. destruct (Hlk _ _ Hi) as (h & Hh & Hleaf).
  destruct (proofs_from_lookup _ _ _ _ Hp) as [_ Hps]. rewrite (Hps _ _ Hpi). split; [done|].
  unfold verify_records_proof. rewrite Hleaf. apply bool_decide_eq_true. simpl.
  eapply sibling_steps_root; [apply (length_pad empty_hash leaves)|apply log2_up_le|done|exact Hr|].
  unfold pad. apply lookup_app_l_Some. done.
Qed.

(** The roots and proofs of items with payloads below 2^32 bytes exist. *)
Lemma leaf_hashes_Ok items :
  Forall (λ item, is_u32 (N.of_nat (length (item_tx_payload item)))) items →
  ∃ hs, leaf_hashes items = Ok hs.
Proof.
  induction 1 as [|item items Hi _ [hs IH]]; [by exists []|]. simpl.
  unfold try_leaf_hash, leaf_bytes, u32_try_from. rewrite decide_True by done. simpl. rewrite IH. by eexists.
Qed.

Lemma proofs_from_Ok levels idx count :
  is_u32 (N.of_nat (idx + count)) → ∃ ps, proofs_from levels idx count = Ok ps.
Proof.
  revert idx. induction count as [|count IH]; intros idx Hc; simpl; [by eexists|].
  unfold u32_try_from. unfold is_u32 in *. rewrite decide_True by lia. simpl.
  destruct (IH (S idx)) as [ps ->]; [by replace (S idx + count) with (idx + S count) by lia|]. by eexists.
Qed.

Lemma records_total items :
  Forall (λ item, is_u32 (N.of_nat (length (item_tx_payload item)))) items →
  is_u32 (N.of_nat (length items)) →
  ∃ root proofs, try_compute_records_root_with_proofs items = Ok (root, proofs) ∧
    length proofs = length items.
Proof.
  intros Hi Hn. unfold try_compute_records_root_with_proofs, try_compute_records_root, try_build_records_proofs.
  destruct items as [|item items]; [by eexists _, _|].
  destruct (leaf_hashes_Ok _ Hi) as [hs Hhs]. rewrite Hhs. simpl.
  destruct (fold_levels_Ok (E := PrimError) combine_hash _ (length hs) _ (length_pad empty_hash hs)) as [root Hr];
    [apply log2_up_le|].
  destruct (build_levels_Ok (E := PrimError) combine_hash _ (length hs) _ (length_pad empty_hash hs)) as [ls Hls];
    [apply log2_up_le|].
  unfold padded_root. rewrite Hr. simpl. rewrite Hls. simpl.
  destruct (proofs_from_Ok ls 0 (S (length items)) Hn) as [ps Hps].
  destruct (proofs_from_lookup _ _ _ _ Hps) as [Hlen _]. simpl in Hps. rewrite Hps. by eexists _, _.
Qed.
End proofs.

(** ** Records: soundness and binding *)

Definition wf_proof (p : RecordsProof) : Prop :=
  Forall (λ s, length (sibling_hash s) = 32) (proof_steps p).

Section sound.
Context `{Sha256}.

Lemma length_combine_hash l r : length (combine_hash l r) = 32.
Proof. unfold combine_hash. repeat case_bool_decide; apply sha256_length. Qed.

Lemma length_path m steps : length (foldl proof_step (sha256 m) steps) = 32.
Proof.
  destruct steps as [|s steps _] using rev_ind; [apply sha256_length|].
  rewrite foldl_app. simpl. unfold proof_step. destruct (sibling_is_right s); apply length_combine_hash.
Qed.

(** A combination of a non-empty node: what it hashes. *)
Lemma combine_hash_message l r :
  l ≠ empty_hash ∨ r ≠ empty_hash →
  (∃ c, (c = l ∨ c = r) ∧ c ≠ empty_hash ∧ combine_hash l r = sha256 (x01 :: c)) ∨
  combine_hash l r = sha256 (x02 :: l ++ r).
Proof.
  unfold combine_hash. repeat case_bool_decide; intros [?|?]; try done; try (by right).
  - left. exists r. auto.
  - left. exists l. auto.
Qed.

(** A path from a leaf never ends in the empty node. *)
Lemma path_not_empty m steps :
  leaf_like m → foldl proof_step (sha256 m) steps ≠ empty_hash ∨ sha256_collision.
Proof.
  intros Hm. induction steps as [|s steps IH] using rev_ind.
  - simpl. destruct (decide (sha256 m = empty_hash)) as [[->|?]%collides|?]; [|by right|by left].
    by destruct Hm.
  - rewrite foldl_app. simpl. destruct IH as [Hne|?]; [|by right].
    set (cur := foldl _ _ steps) in *. unfold proof_step.
    set (l := if sibling_is_right s then cur else sibling_hash s).
    set (r := if sibling_is_right s then sibling_hash s else cur).
    replace (if sibling_is_right s then _ else _) with (combine_hash l r) by (by unfold l, r; destruct (sibling_is_right s)).
    destruct (combine_hash_message l r) as [(c & _ & _ & ->)| ->].
    { unfold l, r. destruct (sibling_is_right s); auto. }
    all: match goal with |- sha256 ?x ≠ _ ∨ _ =>
           destruct (decide (sha256 x = empty_hash)) as [[?|?]%collides|?] end; [done|by right|by left].
Qed.

(** A path from a leaf to the hash of a tree ends at one of its leaves. *)
Lemma path_sound m steps t :
  leaf_like m → mwf t → Forall (λ s, length (sibling_hash s) = 32) steps →
  foldl proof_step (sha256 m) steps = mhash t → m ∈ mleaves t ∨ sha256_collision.
Proof.
  intros Hm. revert t. induction steps as [|s steps IH] using rev_ind; intros t Ht Hs.
  { simpl. intros Heq. destruct (mhash_inj (MLeaf m) t) as [<-|?]; [by constructor|done..| |by right].
    left. by apply list_elem_of_singleton. }
  rewrite foldl_app. simpl. apply Forall_app in Hs as [Hs Hsib]. apply Forall_singleton in Hsib.
  destruct (path_not_empty m steps Hm) as [Hne|?]; [|by right].
  pose proof (length_path m steps) as Hlen. set (cur := foldl _ _ steps) in *.
  intros Heq. rewrite mhash_message in Heq. unfold proof_step, combine_hash in Heq.
  assert (∀ t', mwf t' → cur = mhash t' → (∀ x, x ∈ mleaves t' → x ∈ mleaves t) → m ∈ mleaves t ∨ sha256_collision) as Hdone.
  { intros t' Ht' Hc Hsub. destruct (IH t' Ht' Hs Hc) as [?|?]; [left; auto|by right]. }
  destruct (sibling_is_right s).
  all: rewrite (bool_decide_eq_false_2 (cur = _)) in Heq by done; case_bool_decide;
    apply collides in Heq as [Heq|?]; [|by right| |by right].
  all: destruct t as [|m'|t'|l r]; unfold mwf, leaf_like in Ht; simpl in Heq, Ht;
    decompose_Forall_hyps; destruct_and?; simplify_eq/=; try done.
  all: try (apply (Hdone t'); [done|done|auto]).
  all: apply app_inj_1 in Heq as [? ?]; [|by rewrite length_mhash].
  - apply (Hdone l); [done|done|]. intros x Hx. apply elem_of_app. by left.
  - apply (Hdone r); [done|done|]. intros x Hx. apply elem_of_app. by right.
Qed.

Lemma leaf_bytes_like item m : wf_item item → leaf_bytes item = Ok m → leaf_like m.
Proof.
  intros [Hl _] (len & _ & <-%res_ret_Ok)%res_bind_Ok. split; [|done].
  destruct (item_event_hash item); [done|]. done.
Qed.

Lemma leaf_bytes_inj i1 i2 m :
  wf_item i1 → wf_item i2 → leaf_bytes i1 = Ok m → leaf_bytes i2 = Ok m → i1 = i2.
Proof.
  intros [Hl1 Hx1] [Hl2 Hx2] (n1 & [-> Hn1]%u32_try_from_Ok & <-%res_ret_Ok)%res_bind_Ok
    (n2 & [-> Hn2]%u32_try_from_Ok & Heq%res_ret_Ok)%res_bind_Ok.
  injection Heq as Heq. apply app_inj_1 in Heq as [Hh Heq]; [|by rewrite Hl1, Hl2].
  apply app_inj_1 in Heq as [Hi Heq]; [|by rewrite !length_be_bytes].
  apply app_inj_1 in Heq as [_ Hp]; [|by rewrite !length_be_bytes].
  apply be_bytes_inj in Hi; [|done..]. destruct i1, i2; simpl in *; by subst.
Qed.

Lemma leaf_hashes_messages items hs :
  leaf_hashes items = Ok hs →
  ∃ msgs, hs = sha256 <$> msgs ∧ Forall2 (λ item m, leaf_bytes item = Ok m) items msgs.
Proof.
  revert hs. induction items as [|item items IH]; intros hs; simpl.
  { intros <-%res_ret_Ok. by exists []. }
  intros (h & (m & Hm & <-%res_ret_Ok)%res_bind_Ok & (hs' & Hhs & <-%res_ret_Ok)%res_bind_Ok)%res_bind_Ok.
  destruct (IH _ Hhs) as (msgs & -> & Hf). exists (m :: msgs). split; [done|by constructor].
Qed.

(** The messages behind a records root. *)
Lemma records_root_messages items root :
  Forall wf_item items → try_compute_records_root items = Ok root →
  ∃ msgs, Forall2 (λ item m, leaf_bytes item = Ok m) items msgs ∧ Forall leaf_like msgs ∧
    commits msgs root.
Proof.
  intros Hi Hr. destruct items as [|item items].
  { apply res_ret_Ok in Hr as <-. by exists []. }
  apply res_bind_Ok in Hr as (leaves & Hl & Hr).
  destruct (leaf_hashes_messages _ _ Hl) as (msgs & -> & Hf). exists msgs.
  split; [done|]. split; [|by inversion Hf; subst].
  eapply Forall2_Forall_r; [exact Hf|]. eapply Forall_impl; [exact Hi|].
  intros it Hit m. by apply leaf_bytes_like.
Qed.

(** A verified proof is of an item in the list the root was computed from. *)
Lemma records_proofs_sound items root item p :
  Forall wf_item items → wf_item item → wf_proof p →
  try_compute_records_root items = Ok root → verify_records_proof root item p = true →
  item ∈ items ∨ sha256_collision.
Proof.
  intros Hi Hit Hp Hr Hv. unfold verify_records_proof, try_leaf_hash in Hv.
  destruct (leaf_bytes item) as [m| |] eqn:Hm; [|done..]. simpl in Hv. apply bool_decide_eq_true in Hv.
  pose proof (leaf_bytes_like _ _ Hit Hm) as Hlk.
  destruct (records_root_messages _ _ Hi Hr) as (msgs & Hf & Hms & Hc).
  destruct (commits_tree msgs root Hms Hc) as [(t & Ht & Hw & ->)|?]; [|by right].
  destruct (path_sound m (proof_steps p) t Hlk Hw Hp Hv) as [Hin|?]; [|by right]. left.
  rewrite Ht in Hin. apply list_elem_of_lookup in Hin as [i Him].
  destruct (Forall2_lookup_r _ _ _ _ _ Hf Him) as (item' & Hi' & Hm').
  rewrite (leaf_bytes_inj item item' m); [by eapply list_elem_of_lookup_2|done| |done|done].
  by eapply Forall_lookup_1.
Qed.

(** The root binds the items and their order. *)
Lemma records_root_inj items1 items2 root :
  Forall wf_item items1 → Forall wf_item items2 →
  try_compute_records_root items1 = Ok root → try_compute_records_root items2 = Ok root →
  items1 = items2 ∨ sha256_collision.
Proof.
  intros Hi1 Hi2 H1 H2.
  destruct (records_root_messages _ _ Hi1 H1) as (msgs & Hf1 & Hm1 & Hc1).
  destruct (records_root_messages _ _ Hi2 H2) as (msgs2 & Hf2 & Hm2 & Hc2).
  destruct (commits_inj _ _ _ Hm1 Hm2 Hc1 Hc2) as [<-|?]; [left|by right]. clear - Hf1 Hf2 Hi1 Hi2.
  revert items2 Hi2 Hf2. induction Hf1 as [|i1 m items1 msgs Hm _ IH]; intros items2 Hi2 Hf2.
  { by inversion Hf2. }
  inversion Hf2 as [|i2 ? items2' ? Hm2]; subst. decompose_Forall_hyps.
  f_equal; [by eapply leaf_bytes_inj|by apply IH].
Qed.
End sound.
