(* ===== verification/CheckpointWindow.v ===== *)
(** * What a checkpoint payload depends on

    The window root of [consensus/src/checkpoint.rs] binds the events of its
    window; the payload of a round is a function of the consensus order, the
    records and the roster of that window, so pruning below the window leaves
    it alone and two nodes that agree on the order agree on it. *)

From S2P Require Import Prelude Codec External Primitives Membership Graph Ancestry Reach Order.
From S2P Require Import Fame Insert Wf Quorum Store Rounds OrderFacts Voting Reachable Finality.
From S2P Require Import Agreement Ballots ForkFree VotePairs OrderAgreement Retain RetainFacts.
From S2P Require Import Reconnect Checkpoint CheckpointFacts.

(** ** The window root binds its events *)

(** What the types guarantee of a stored record. *)
Record wf_window_record (h : EventHash) (r : EventRecord) : Prop := {
  ww_hash : length h = 32;
  ww_seq : is_u64 (rec_seq r);
  ww_round : is_u64 (rec_round r);
  ww_received : wf_opt_u64 (rec_round_received r);
  ww_timestamp : wf_opt_u64 (rec_consensus_timestamp r);
  ww_row : Forall is_u64 (rec_ancestor_seqs r);
}.

(** What a leaf says of an event, its row cut to the width of the roster. *)
Definition window_row (width : nat) (r : EventRecord) : list N :=
  (λ i, default 0%N (rec_ancestor_seqs r !! i)) <$> seq 0 width.

Definition window_entry (width : nat) (h : EventHash) (r : EventRecord) :
    EventHash * (N * N) * (option N * option N) * list N :=
  (h, (rec_seq r, rec_round r), (rec_round_received r, rec_consensus_timestamp r), window_row width r).

Lemma window_row_u64 width h r : wf_window_record h r → Forall is_u64 (window_row width r).
Proof.
  intros Hw. apply Forall_fmap, Forall_forall. intros i _. unfold compose.
  destruct (rec_ancestor_seqs r !! i) eqn:Hi; [|done]. simpl.
  by eapply Forall_lookup_1 in Hi; [|exact (ww_row _ _ Hw)].
Qed.

Lemma window_row_bytes width r :
  (λ i, u64_be (default 0%N (rec_ancestor_seqs r !! i))) <$> seq 0 width = u64_be <$> window_row width r.
Proof. unfold window_row. by rewrite <- list_fmap_compose. Qed.

Lemma opt_u64_inj o1 o2 t1 t2 :
  wf_opt_u64 o1 → wf_opt_u64 o2 → encode_opt_u64 o1 ++ t1 = encode_opt_u64 o2 ++ t2 → o1 = o2 ∧ t1 = t2.
Proof. intros. eapply (decodes_inj take_opt_u64); [by apply decodes_opt_u64..|done]. Qed.

Lemma u64_list_inj l1 l2 :
  length l1 = length l2 → Forall is_u64 l1 → Forall is_u64 l2 →
  concat (u64_be <$> l1) = concat (u64_be <$> l2) → l1 = l2.
Proof.
  intros Hlen H1 H2 Heq.
  assert (∀ l, Forall is_u64 l → decodes (take_n (length l) (take_u64 tt)) (concat (u64_be <$> l)) l) as Hd.
  { intros l Hl. apply decodes_take_n. eapply Forall_impl; [exact Hl|]. intros; by apply decodes_take_u64. }
  pose proof (Hd l1 H1) as D1. rewrite Hlen, Heq in D1. exact (decodes_fun _ _ _ _ D1 (Hd l2 H2)).
Qed.

Lemma window_leaf_inj w1 w2 h1 h2 r1 r2 :
  wf_window_record h1 r1 → wf_window_record h2 r2 →
  is_u32 (N.of_nat w1) → is_u32 (N.of_nat w2) →
  window_leaf_bytes h1 r1 w1 (N.of_nat w1) = window_leaf_bytes h2 r2 w2 (N.of_nat w2) →
  window_entry w1 h1 r1 = window_entry w2 h2 r2.
Proof.
  intros Hr1 Hr2 Hw1 Hw2 Heq. unfold window_leaf_bytes in Heq. apply app_inv_head in Heq.
  apply app_inj_1 in Heq as [<- Heq]; [|by rewrite (ww_hash _ _ Hr1), (ww_hash _ _ Hr2)].
  apply app_inj_1 in Heq as [Hs Heq]; [|by rewrite !length_be_bytes].
  apply app_inj_1 in Heq as [Hr Heq]; [|by rewrite !length_be_bytes].
  apply opt_u64_inj in Heq as [Hrr Heq]; [|exact (ww_received _ _ Hr1)|exact (ww_received _ _ Hr2)].
  apply opt_u64_inj in Heq as [Hts Heq]; [|exact (ww_timestamp _ _ Hr1)|exact (ww_timestamp _ _ Hr2)].
  apply app_inj_1 in Heq as [Hw Heq]; [|by rewrite !length_be_bytes].
  apply be_bytes_inj in Hs; [|exact (ww_seq _ _ Hr1)|exact (ww_seq _ _ Hr2)].
  apply be_bytes_inj in Hr; [|exact (ww_round _ _ Hr1)|exact (ww_round _ _ Hr2)].
  apply be_bytes_inj in Hw; [|done..]. apply Nat2N.inj in Hw as <-.
  rewrite !window_row_bytes in Heq.
  unfold window_entry. rewrite Hs, Hr, Hrr, Hts. f_equal. apply u64_list_inj; [|by eapply window_row_u64..|done].
  unfold window_row. by rewrite !length_fmap.
Qed.

Section binding.
Context `{Sha256}.

(** The records of the listed events, as the leaves describe them. *)
Definition window_entries (hg : Hashgraph) (width : nat) (hashes : list EventHash) :
    list (EventHash * (N * N) * (option N * option N) * list N) :=
  omap (λ h, window_entry width h <$> get hg h) hashes.

Lemma window_leaf_like h r w w32 : leaf_like (window_leaf_bytes h r w w32).
Proof. by unfold leaf_like, window_leaf_bytes. Qed.

Lemma window_messages_like w w32 hs rs :
  Forall leaf_like (zip_with (λ h r, window_leaf_bytes h r w w32) hs rs).
Proof.
  revert rs. induction hs as [|h hs IH]; intros rs; [constructor|].
  destruct rs as [|r rs]; [constructor|]. constructor; [apply window_leaf_like|apply IH].
Qed.

(** The leaf messages of a list of stored events. *)
Lemma window_leaves_messages hg width hashes leaves :
  window_leaves hg width (N.of_nat width) hashes = Ok leaves →
  ∃ rs, Forall2 (λ h r, get hg h = Some r) hashes rs ∧
    leaves = sha256 <$> zip_with (λ h r, window_leaf_bytes h r width (N.of_nat width)) hashes rs ∧
    window_entries hg width hashes = zip_with (window_entry width) hashes rs.
Proof.
  revert leaves. induction hashes as [|h hashes IH]; intros leaves; simpl.
  { intros <-%res_ret_Ok. exists []. done. }
  intros (r & Hr%ok_or_Ok & (ls & Hls & <-%res_ret_Ok)%res_bind_Ok)%res_bind_Ok.
  destruct (IH _ Hls) as (rs & Hf & -> & He). exists (r :: rs). rewrite Hr. simpl.
  split; [by constructor|]. split; [done|]. by f_equal.
Qed.

Lemma cons_inv {A} (x y : A) l k : x :: l = y :: k → x = y ∧ l = k.
Proof. by intros [= -> ->]. Qed.

Lemma window_messages_inj w1 w2 hs1 hs2 rs1 rs2 (g1 g2 : Hashgraph) :
  map_Forall wf_window_record (events g1) → map_Forall wf_window_record (events g2) →
  (hs1 ≠ [] → is_u32 (N.of_nat w1)) → (hs2 ≠ [] → is_u32 (N.of_nat w2)) →
  Forall2 (λ h r, get g1 h = Some r) hs1 rs1 → Forall2 (λ h r, get g2 h = Some r) hs2 rs2 →
  zip_with (λ h r, window_leaf_bytes h r w1 (N.of_nat w1)) hs1 rs1
  = zip_with (λ h r, window_leaf_bytes h r w2 (N.of_nat w2)) hs2 rs2 →
  zip_with (window_entry w1) hs1 rs1 = zip_with (window_entry w2) hs2 rs2.
Proof.
  intros Hg1 Hg2 Hw1 Hw2 Hf1. revert hs2 rs2 Hw1 Hw2.
  induction Hf1 as [|h1 r1 hs1 rs1 Hr1 _ IH]; intros hs2 rs2 Hw1 Hw2 Hf2;
    destruct Hf2 as [|h2 r2 hs2 rs2 Hr2 Hf2]; [done..|].
  specialize (Hw1 ltac:(done)). specialize (Hw2 ltac:(done)).
  cbn [zip_with]. intros [Hb Hrest]%cons_inv. f_equal; [|by apply IH].
  apply window_leaf_inj; [by apply Hg1|by apply Hg2|done..].
Qed.

(** The width of the leaves: the members of the roster of [round]. *)
Definition window_width (hg : Hashgraph) (round : N) : nat :=
  match Roster.roster_for_round (E := PrimError) (roster_history hg) round with
  | Ok reg => Registry.len reg
  | _ => 0
  end.

(** The messages behind a window root. *)
Lemma window_root_messages `{HashOrder} hg round window_rounds root :
  try_compute_window_root hg round window_rounds = Ok root →
  ∃ rs, let hashes := window_hashes hg (round - window_rounds) round in
    let width := window_width hg round in
    let msgs := zip_with (λ h r, window_leaf_bytes h r width (N.of_nat width)) hashes rs in
    (hashes ≠ [] → is_u32 (N.of_nat width)) ∧
    Forall2 (λ h r, get hg h = Some r) hashes rs ∧ Forall leaf_like msgs ∧ commits msgs root ∧
    window_entries hg width hashes = zip_with (window_entry width) hashes rs.
Proof.
  unfold try_compute_window_root. destruct (window_hashes hg (round - window_rounds) round) as [|h hs] eqn:Hh.
  { intros <-%res_ret_Ok. exists []. simpl. by split_and!. }
  intros (reg & Hreg & (w32 & [-> Hw]%u32_try_from_Ok & (leaves & Hl & Hr)%res_bind_Ok)%res_bind_Ok)%res_bind_Ok.
  destruct (window_leaves_messages _ _ _ _ Hl) as (rs & Hf & -> & He).
  assert (window_width hg round = Registry.len reg) as -> by (unfold window_width; by rewrite Hreg).
  exists rs. cbv zeta. split; [done|]. split; [done|].
  split; [|split; [by inversion Hf; subst|done]].
  apply window_messages_like.
Qed.

(** Two graphs with one window root have one window. *)
Lemma window_root_binds (o1 o2 : HashOrder) g1 g2 round1 round2 root :
  map_Forall wf_window_record (events g1) → map_Forall wf_window_record (events g2) →
  try_compute_window_root (H0 := o1) g1 round1 SIGNED_WINDOW_ROUNDS = Ok root →
  try_compute_window_root (H0 := o2) g2 round2 SIGNED_WINDOW_ROUNDS = Ok root →
  window_entries g1 (window_width g1 round1) (window_hashes (H0 := o1) g1 (round1 - SIGNED_WINDOW_ROUNDS) round1)
  = window_entries g2 (window_width g2 round2) (window_hashes (H0 := o2) g2 (round2 - SIGNED_WINDOW_ROUNDS) round2) ∨
  sha256_collision.
Proof.
  intros Hg1 Hg2 Hw1 Hw2.
  destruct (window_root_messages (H0 := o1) _ _ _ _ Hw1) as (rs1 & Hu1 & Hf1 & Hl1 & Hc1 & He1).
  destruct (window_root_messages (H0 := o2) _ _ _ _ Hw2) as (rs2 & Hu2 & Hf2 & Hl2 & Hc2 & He2).
  destruct (commits_inj _ _ _ Hl1 Hl2 Hc1 Hc2) as [Heq|?]; [left|by right].
  rewrite He1, He2. by eapply (window_messages_inj _ _ _ _ _ _ g1 g2).
Qed.
End binding.

(** ** The roster selection *)

Lemma select_snapshots_spec ws round l :
  select_snapshots ws round l
  = (last (filter (λ e, (e.1 < ws)%N) l), filter (λ e, (ws ≤ e.1 ∧ e.1 ≤ round)%N) l).
Proof.
  unfold select_snapshots. induction l as [|e l IH] using rev_ind; [done|].
  rewrite foldl_app, IH, !filter_app. simpl. rewrite !filter_cons, !filter_nil.
  destruct (decide (e.1 < ws)%N).
  - rewrite (decide_False (P := (ws ≤ e.1 ∧ _)%N)) by lia. by rewrite last_snoc, app_nil_r.
  - rewrite app_nil_r. destruct (decide (e.1 ≤ round)%N).
    + by rewrite decide_True by lia.
    + rewrite decide_False by lia. by rewrite app_nil_r.
Qed.

Lemma bt_entries_filter {V} (P : N * V → Prop) `{!∀ e, Decision (P e)} (m : gmap N V) :
  bt_entries N.le (filter P m) = filter P (bt_entries N.le m).
Proof.
  apply (bt_entries_unique N.le).
  - apply NoDup_fmap_fst; [|apply NoDup_filter, (NoDup_fmap_1 fst), bt_entries_keys_NoDup].
    intros k v1 v2 [_ H1]%list_elem_of_filter [_ H2]%list_elem_of_filter.
    apply elem_of_bt_entries in H1, H2. congruence.
  - apply StronglySorted_filter_list. apply (bt_entries_sorted N.le).
  - apply NoDup_Permutation.
    + apply NoDup_filter, (NoDup_fmap_1 fst), bt_entries_keys_NoDup.
    + apply NoDup_map_to_list.
    + intros [k v]. rewrite list_elem_of_filter, elem_of_map_to_list, map_lookup_filter_Some, elem_of_bt_entries.
      tauto.
Qed.

Lemma bt_last_prune rh keep ws :
  (keep ≤ ws)%N →
  bt_last N.le (λ r, (r < ws)%N) (snapshots (Roster.prune_before rh keep))
  = bt_last N.le (λ r, (r < ws)%N) (snapshots rh).
Proof.
  intros Hk. destruct (bt_last _ _ (snapshots rh)) as [[a reg]|] eqn:Hl.
  - apply btN_last_Some in Hl as (Ha & Hlt & Hmax). apply btN_last_Some.
    split; [|split; [done|]].
    + apply RosterFacts.lookup_prune_before. split; [done|].
      destruct (decide (keep ≤ a)%N); [by left|right]. split; [lia|].
      intros a' [reg' Ha'] Hlt'. eapply Hmax; [exact Ha'|lia].
    + intros a' reg' [Ha' _]%RosterFacts.lookup_prune_before. by eapply Hmax.
  - rewrite btN_last_None in Hl. apply btN_last_None.
    intros a reg [Ha _]%RosterFacts.lookup_prune_before. by eapply Hl.
Qed.

(** The committed roster selection does not see what was pruned below the
    window. *)
Lemma canonical_roster_prune rh keep round window_rounds :
  (keep ≤ round - window_rounds)%N →
  canonical_roster_history (Roster.prune_before rh keep) round window_rounds
  = canonical_roster_history rh round window_rounds.
Proof.
  intros Hk. unfold canonical_roster_history. rewrite !select_snapshots_spec.
  pose proof (bt_last_prune rh keep _ Hk) as Hl. unfold bt_last in Hl. unfold Roster.entries. rewrite Hl.
  assert (filter (λ e, (round - window_rounds ≤ e.1 ∧ e.1 ≤ round)%N)
            (bt_entries N.le (snapshots (Roster.prune_before rh keep)))
          = filter (λ e, (round - window_rounds ≤ e.1 ∧ e.1 ≤ round)%N) (bt_entries N.le (snapshots rh))) as Hf.
  { simpl. rewrite bt_entries_filter, list_filter_filter. apply list_filter_iff. intros [a reg]. simpl. split; [tauto|].
    intros [? ?]. split; [done|]. left. lia. }
  by rewrite Hf.
Qed.

(** The snapshots of the selection. *)
Lemma canonical_roster_snapshot rh round window_rounds subset a reg :
  canonical_roster_history rh round window_rounds = Some subset →
  snapshots subset !! a = Some reg ↔
  bt_last N.le (λ r, (r < round - window_rounds)%N) (snapshots rh) = Some (a, reg) ∨
  snapshots rh !! a = Some reg ∧ (round - window_rounds ≤ a ∧ a ≤ round)%N.
Proof.
  unfold canonical_roster_history. rewrite select_snapshots_spec.
  change (last _) with (bt_last N.le (λ r, (r < round - window_rounds)%N) (snapshots rh)).
  set (pred := bt_last _ _ _). set (sel := filter _ _). intros Hc.
  assert (Roster.from_snapshots (option_list pred ++ sel) = Some subset) as Hs
    by (destruct (option_list pred ++ sel); done). clear Hc.
  assert (NoDup (option_list pred ++ sel).*1) as Hnd.
  { rewrite fmap_app. apply NoDup_app. split_and!.
    - destruct pred; simpl; [apply NoDup_singleton|constructor].
    - intros k Hk (e & -> & [Hr _]%list_elem_of_filter)%list_elem_of_fmap.
      destruct pred as [[k' reg']|] eqn:Hp; simpl in Hk; [|by apply elem_of_nil in Hk].
      apply list_elem_of_singleton in Hk. apply btN_last_Some in Hp as (_ & ? & _). simpl in *. lia.
    - unfold sel, Roster.entries. rewrite <- bt_entries_filter. apply bt_entries_keys_NoDup. }
  unfold Roster.from_snapshots in Hs. case_decide; [done|]. injection Hs as <-. simpl.
  rewrite RegistryFacts.foldl_insert_NoDup, (right_id_L ∅ (∪)) by (done || intros; apply lookup_empty).
  rewrite <- elem_of_list_to_map, elem_of_app by done.
  assert ((a, reg) ∈ option_list pred ↔ pred = Some (a, reg)) as ->
    by (destruct pred; simpl; [rewrite list_elem_of_singleton; naive_solver|rewrite elem_of_nil; done]).
  unfold sel. rewrite list_elem_of_filter. unfold Roster.entries. rewrite elem_of_bt_entries. simpl. tauto.
Qed.

(** The selection has the rosters of every round of the window. *)
Lemma canonical_roster_lookup {E} rh round window_rounds subset r :
  canonical_roster_history rh round window_rounds = Some subset →
  (round - window_rounds ≤ r)%N → (r ≤ round)%N →
  Roster.roster_for_round (E := E) subset r = Roster.roster_for_round rh r.
Proof.
  intros Hc Hlo Hhi. unfold Roster.roster_for_round. do 2 f_equal.
  pose proof (λ a reg, canonical_roster_snapshot rh round window_rounds subset a reg Hc) as Hs.
  destruct (bt_last N.le (λ r', (r' ≤ r)%N) (snapshots rh)) as [[a reg]|] eqn:Hl.
  - apply btN_last_Some in Hl as (Ha & Hle & Hmax). apply btN_last_Some.
    split; [apply Hs|split; [done|]].
    + destruct (decide (round - window_rounds ≤ a)%N); [right; split; [done|lia]|left].
      apply btN_last_Some. split; [done|]. split; [lia|]. intros a' reg' Ha' ?. eapply Hmax; [done|lia].
    + intros a' reg' [(Ha' & _)%btN_last_Some|[Ha' _]]%Hs; by eapply Hmax.
  - rewrite btN_last_None in Hl. apply btN_last_None.
    intros a' reg' [(Ha' & _)%btN_last_Some|[Ha' _]]%Hs; by eapply Hl.
Qed.

(** ** Payloads as a function of the window *)

Definition same_leaf (r1 r2 : EventRecord) : Prop :=
  rec_event r1 = rec_event r2 ∧ rec_seq r1 = rec_seq r2 ∧ rec_round r1 = rec_round r2 ∧
  rec_round_received r1 = rec_round_received r2 ∧
  rec_consensus_timestamp r1 = rec_consensus_timestamp r2 ∧
  rec_ancestor_seqs r1 = rec_ancestor_seqs r2.

Lemma same_leaf_refl r : same_leaf r r.
Proof. by split_and!. Qed.

Definition in_window (round k : N) : Prop := (round - SIGNED_WINDOW_ROUNDS ≤ k ∧ k ≤ round)%N.

(** Two graphs look alike from the window of [round]. *)
Record same_window `{Sha256} (o1 o2 : HashOrder) (g1 g2 : Hashgraph) (round : N) : Prop := {
  sw_decided : is_round_decided g1 round = is_round_decided g2 round;
  sw_registry : ∀ E, Roster.roster_for_round (E := E) (roster_history g1) round
                     = Roster.roster_for_round (roster_history g2) round;
  sw_roster : canonical_roster_history (roster_history g1) round SIGNED_WINDOW_ROUNDS
              = canonical_roster_history (roster_history g2) round SIGNED_WINDOW_ROUNDS;
  sw_order : ∀ k, in_window round k → consensus_order (H := o1) g1 k = consensus_order (H := o2) g2 k;
  sw_record : ∀ k h, in_window round k → h ∈ consensus_order (H := o1) g1 k →
    ∃ r1 r2, get g1 h = Some r1 ∧ get g2 h = Some r2 ∧ same_leaf r1 r2;
}.

Section ext.
Context `{Sha256} (o1 o2 : HashOrder) (g1 g2 : Hashgraph).

Lemma elem_of_concat {A} (x : A) ls : x ∈ concat ls ↔ ∃ l, l ∈ ls ∧ x ∈ l.
Proof. rewrite list_elem_of_In, in_concat. by setoid_rewrite list_elem_of_In. Qed.

Lemma window_hashes_same round :
  same_window o1 o2 g1 g2 round →
  window_hashes (H0 := o1) g1 (round - SIGNED_WINDOW_ROUNDS) round
  = window_hashes (H0 := o2) g2 (round - SIGNED_WINDOW_ROUNDS) round ∧
  ∀ h, h ∈ window_hashes (H0 := o1) g1 (round - SIGNED_WINDOW_ROUNDS) round →
    ∃ r1 r2, get g1 h = Some r1 ∧ get g2 h = Some r2 ∧ same_leaf r1 r2.
Proof.
  intros Hs. unfold window_hashes. split.
  - f_equal. apply list_fmap_ext. intros i k Hk. apply (sw_order _ _ _ _ _ Hs).
    apply elem_of_range_inclusive. by eapply list_elem_of_lookup_2.
  - intros h (l & (k & -> & Hk%elem_of_range_inclusive)%list_elem_of_fmap & Hh)%elem_of_concat.
    by apply (sw_record _ _ _ _ _ Hs k).
Qed.

Lemma window_leaf_same r1 r2 h w w32 :
  same_leaf r1 r2 → window_leaf_hash h r1 w w32 = window_leaf_hash h r2 w w32.
Proof.
  intros (_ & Hs & Hr & Hrr & Hts & Hrow). unfold window_leaf_hash, window_leaf_bytes.
  by rewrite Hs, Hr, Hrr, Hts, Hrow.
Qed.

Lemma window_leaves_same w w32 hashes :
  (∀ h, h ∈ hashes → ∃ r1 r2, get g1 h = Some r1 ∧ get g2 h = Some r2 ∧ same_leaf r1 r2) →
  window_leaves g1 w w32 hashes = window_leaves g2 w w32 hashes.
Proof.
  induction hashes as [|h hashes IH]; intros Hh; [done|]. simpl.
  destruct (Hh h) as (r1 & r2 & -> & -> & Hs); [by left|]. simpl.
  rewrite (window_leaf_same _ _ _ _ _ Hs), IH; [done|]. intros h' Hin. apply Hh. by right.
Qed.

Lemma window_root_same round :
  same_window o1 o2 g1 g2 round →
  try_compute_window_root (H0 := o1) g1 round SIGNED_WINDOW_ROUNDS
  = try_compute_window_root (H0 := o2) g2 round SIGNED_WINDOW_ROUNDS.
Proof.
  intros Hs. destruct (window_hashes_same round Hs) as [Hh Hr]. unfold try_compute_window_root.
  rewrite <- Hh. destruct (window_hashes (H0 := o1) _ _ _) as [|h hs]; [done|].
  rewrite (sw_registry _ _ _ _ _ Hs).
  destruct (Roster.roster_for_round (roster_history g2) round) as [reg| |]; [|done..].
  cbv [mbind res_bind]. destruct (u32_try_from _ _); [|done..]. by rewrite (window_leaves_same _ _ (h :: hs) Hr).
Qed.

Lemma checkpoint_payload_same round rroot shash :
  same_window o1 o2 g1 g2 round →
  checkpoint_payload (H0 := o1) g1 round rroot shash = checkpoint_payload (H0 := o2) g2 round rroot shash.
Proof.
  intros Hs. unfold checkpoint_payload, registry_at_round, compute_roster_history_root.
  by rewrite (sw_decided _ _ _ _ _ Hs), (sw_registry _ _ _ _ _ Hs), (window_root_same _ Hs),
    (sw_roster _ _ _ _ _ Hs).
Qed.

Lemma record_items_same order :
  (∀ h, h ∈ order → ∃ r1 r2, get g1 h = Some r1 ∧ get g2 h = Some r2 ∧ same_leaf r1 r2) →
  record_items g1 order = record_items g2 order.
Proof.
  induction order as [|h order IH]; intros Hh; [done|]. simpl.
  destruct (Hh h) as (r1 & r2 & -> & -> & (-> & _)); [by left|].
  rewrite IH; [done|]. intros h' Hin. apply Hh. by right.
Qed.

(** The state hash the payload of [round] carries. *)
Definition state_hash_at (state_hashes : gmap N bytes) (round : N) : option (N * bytes) :=
  bt_last N.le (λ r, (r ≤ round)%N) state_hashes.

Lemma canonical_payload_same round sh1 sh2 :
  same_window o1 o2 g1 g2 round → state_hash_at sh1 round = state_hash_at sh2 round →
  canonical_checkpoint_payload (H0 := o1) g1 round sh1 = canonical_checkpoint_payload (H0 := o2) g2 round sh2.
Proof.
  intros Hs Hsh. unfold canonical_checkpoint_payload. unfold state_hash_at in Hsh. rewrite Hsh.
  assert (in_window round round) as Hin by (unfold in_window; lia).
  rewrite (record_items_same (consensus_order (H := o1) g1 round)) by (intros h Hh; exact (sw_record _ _ _ _ _ Hs round h Hin Hh)).
  rewrite (sw_order _ _ _ _ _ Hs round Hin).
  cbv [mbind res_bind]. destruct (ok_or _ _); [|done..]. destruct (record_items _ _); [|done..].
  destruct (compute_records_root _); [|done..]. by apply checkpoint_payload_same.
Qed.
End ext.

(** ** Pruning below the window *)

Section prune.
Context `{Sha256, HashOrder}.

Lemma prune_window hg hg' l threshold round :
  prune_before_round threshold hg = (Ok l, hg') → (threshold + SIGNED_WINDOW_ROUNDS ≤ round)%N →
  same_window _ _ hg' hg round.
Proof.
  intros Hp Hle. assert (∀ k, in_window round k → (threshold ≤ k)%N) as Hin.
  { unfold in_window, SIGNED_WINDOW_ROUNDS in *. intros k. lia. }
  pose proof (prune_Ok_lt _ _ _ _ Hp) as Hlt.
  assert (roster_history hg' = roster_history hg ∨
          roster_history hg' = Roster.prune_before (roster_history hg) threshold) as Hro.
  { destruct (prune_cases hg threshold Hlt) as [[E _]|(hg2 & E & _ & Hro)];
      rewrite E in Hp; injection Hp as <- <-; auto. }
  split.
  - unfold is_round_decided. by rewrite (prune_decided _ _ _ _ Hp).
  - intros E. destruct Hro as [-> | ->]; [done|]. apply RosterFacts.roster_for_round_prune_before. lia.
  - destruct Hro as [-> | ->]; [done|]. apply canonical_roster_prune. unfold SIGNED_WINDOW_ROUNDS in *. lia.
  - intros k Hk. eapply prune_consensus_order; [exact Hp|by apply Hin].
  - intros k h Hk Hh. apply elem_of_consensus_order in Hh. unfold round_received in Hh.
    destruct (get hg' h) as [r|] eqn:Hr; [|done]. exists r, r.
    split; [done|]. split; [by eapply prune_no_new|apply same_leaf_refl].
Qed.

(** With the checkpoint that justified the prune, or a later one, among the
    signed ones, the chain of payloads goes on as before. *)
Lemma prune_prev_hash hg hg' l threshold sh signed sc n :
  prune_before_round threshold hg = (Ok l, hg') → sc ∈ signed →
  (threshold + SIGNED_WINDOW_ROUNDS ≤ cp_round (sc_payload sc) + 1)%N →
  (cp_round (sc_payload sc) < N.of_nat n)%N →
  prev_checkpoint_hash_for hg' n sh signed = prev_checkpoint_hash_for hg n sh signed.
Proof.
  intros Hp Hsc Hle. induction n as [|n IH]; intros Hlt; [lia|]. cbn [prev_checkpoint_hash_for].
  destruct (list_find _ signed) as [[i sc']|] eqn:Hf; [done|].
  assert (cp_round (sc_payload sc) < N.of_nat n)%N as Hn.
  { apply list_find_None in Hf. eapply Forall_forall in Hf; [|exact Hsc]. lia. }
  rewrite (canonical_payload_same _ _ hg' hg (N.of_nat n) sh sh), (IH Hn); [done| |done].
  eapply prune_window; [exact Hp|lia].
Qed.

Lemma prune_chained hg hg' l threshold sh signed sc round :
  prune_before_round threshold hg = (Ok l, hg') → sc ∈ signed →
  (threshold + SIGNED_WINDOW_ROUNDS ≤ cp_round (sc_payload sc) + 1)%N →
  (cp_round (sc_payload sc) < round)%N →
  canonical_checkpoint_payload_chained hg' round sh signed
  = canonical_checkpoint_payload_chained hg round sh signed.
Proof.
  intros Hp Hsc Hle Hlt. unfold canonical_checkpoint_payload_chained.
  rewrite (canonical_payload_same _ _ hg' hg round sh sh); [|eapply prune_window; [exact Hp|lia]|done].
  rewrite (prune_prev_hash hg hg' l threshold sh signed sc); [done..|]. lia.
Qed.
End prune.

(** ** Signed checkpoints that a node would have computed itself *)

Section chain.
Context `{Sha256}.

Definition faithful `{HashOrder} (g : Hashgraph) (sh : gmap N bytes) (signed : list SignedCheckpoint) : Prop :=
  ∀ sc, sc ∈ signed →
    canonical_checkpoint_payload_chained g (cp_round (sc_payload sc)) sh [] = Ok (sc_payload sc).

Lemma prev_hash_faithful `{HashOrder} g sh signed n :
  faithful g sh signed → prev_checkpoint_hash_for g n sh signed = prev_checkpoint_hash_for g n sh [].
Proof.
  intros Hs. induction n as [|n IH]; [done|]. cbn [prev_checkpoint_hash_for].
  destruct (list_find _ signed) as [[i sc]|] eqn:Hf.
  - apply list_find_Some in Hf as (Hi & Hr & _). apply list_elem_of_lookup_2 in Hi.
    specialize (Hs sc Hi). unfold canonical_checkpoint_payload_chained in Hs. rewrite Hr, Nat2N.id in Hs.
    simpl. by rewrite Hs.
  - by rewrite IH.
Qed.

Lemma prev_hash_same (o1 o2 : HashOrder) g1 g2 sh1 sh2 n :
  (∀ k, (k < N.of_nat n)%N → same_window o1 o2 g1 g2 k) →
  (∀ k, (k < N.of_nat n)%N → state_hash_at sh1 k = state_hash_at sh2 k) →
  prev_checkpoint_hash_for (H0 := o1) g1 n sh1 [] = prev_checkpoint_hash_for (H0 := o2) g2 n sh2 [].
Proof.
  intros Hw Hs. induction n as [|n IH]; [done|]. cbn [prev_checkpoint_hash_for]. simpl.
  rewrite (canonical_payload_same o1 o2 g1 g2 (N.of_nat n) sh1 sh2) by (apply Hw || apply Hs; lia).
  rewrite IH; [done|..]; intros k Hk; [apply Hw|apply Hs]; lia.
Qed.

Lemma chained_same (o1 o2 : HashOrder) g1 g2 sh1 sh2 signed1 signed2 round :
  (∀ k, (k ≤ round)%N → same_window o1 o2 g1 g2 k) →
  (∀ k, (k ≤ round)%N → state_hash_at sh1 k = state_hash_at sh2 k) →
  faithful (H0 := o1) g1 sh1 signed1 → faithful (H0 := o2) g2 sh2 signed2 →
  canonical_checkpoint_payload_chained (H0 := o1) g1 round sh1 signed1
  = canonical_checkpoint_payload_chained (H0 := o2) g2 round sh2 signed2.
Proof.
  intros Hw Hs H1 H2. unfold canonical_checkpoint_payload_chained.
  rewrite (prev_hash_faithful (H0 := o1) _ _ _ _ H1), (prev_hash_faithful (H0 := o2) _ _ _ _ H2).
  rewrite (canonical_payload_same o1 o2 g1 g2 round sh1 sh2) by (apply Hw || apply Hs; lia).
  rewrite (prev_hash_same o1 o2 g1 g2 sh1 sh2); [done|..]; intros k Hk; [apply Hw|apply Hs]; lia.
Qed.

(** ** Two nodes that agree on the order *)

Lemma network_window genesis (o1 o2 : HashOrder) B1 B2 g1 g2 round :
  network genesis o1 o2 B1 B2 g1 g2 →
  (round < next_round_to_order g1)%N → (round < next_round_to_order g2)%N →
  same_window o1 o2 g1 g2 round.
Proof.
  intros Hn H1 H2. pose proof (nw_1 _ _ _ _ _ _ _ Hn) as Hh1. pose proof (nw_2 _ _ _ _ _ _ _ Hn) as Hh2.
  assert (roster_history g1 = roster_history g2) as Hro.
  { rewrite (dt_roster _ _ (hi_determined _ _ _ Hh1)), (dt_roster _ _ (hi_determined _ _ _ Hh2)). done. }
  split.
  - assert (∀ (o : HashOrder) B g, history (H0 := o) genesis B g → (round < next_round_to_order g)%N →
              is_round_decided g round = bool_decide (1 ≤ round)%N) as Hd; [|by rewrite (Hd o1 B1), (Hd o2 B2)].
    intros o B g Hh Hlt. unfold is_round_decided. apply bool_decide_ext. split.
    + intros Hin. by apply (inv_decided _ _ _ (rdy_inv _ _ (hi_ready _ _ _ Hh))) in Hin as [? _].
    + intros Hle. by apply (tk_next _ _ (hi_tracked _ _ _ Hh)).
  - intros E. by rewrite Hro.
  - by rewrite Hro.
  - intros k [_ Hk]. eapply order_agree; [exact Hn|lia..].
  - intros k h [_ Hk] Hin%elem_of_consensus_order.
    destruct (received_agree genesis o1 o2 B1 B2 g1 g2 k h Hn) as (([r1 Hr1] & [r2 Hr2]) & Hrr & Hts); [lia|done|].
    exists r1, r2. split; [done|]. split; [done|].
    destruct (nw_same _ _ _ _ _ _ _ Hn h r1 r2 Hr1 Hr2) as [Hsh Hrk].
    unfold round_received in Hin, Hrr. unfold consensus_timestamp in Hts.
    rewrite Hr1 in Hin, Hts. rewrite Hr2 in Hrr, Hts. simpl in *.
    unfold rec_shape, rec_rank in *. split_and!; congruence.
Qed.
End chain.
