(* ===== verification/CheckpointQuorum.v ===== *)
(** * Signed checkpoints: quorums and accumulation

    What [SignedCheckpoint::verify_with_registry] guarantees, what a signature
    over [signing_bytes] commits to, and what [CheckpointAccumulator::add_sig]
    yields over a sequence of signatures. *)

From S2P Require Import Prelude Codec External Primitives Membership Graph Order Insert Retain Reconnect.
From S2P Require Import Checkpoint.

(** ** Distinct signers *)

Section distinct.
Context (snapshot registry : MembershipRegistry).

Lemma distinct_signers_length seen l d :
  distinct_signers snapshot registry seen l = Some d → length d ≤ length l.
Proof.
  revert seen d. induction l as [|s l IH]; intros seen d; simpl; [by intros [= <-]|].
  case_decide; [intros ?%IH; lia|]. destruct (negb _); [done|]. destruct (negb _); [done|].
  destruct (distinct_signers _ _ _ l) as [d'|] eqn:Hd; [|done]. intros [= <-]. apply IH in Hd. simpl. lia.
Qed.

(** No duplicate was skipped: the list itself is distinct. *)
Lemma distinct_signers_all seen l d :
  distinct_signers snapshot registry seen l = Some d → length d = length l →
  d = l ∧ NoDup l ∧
  Forall (λ s, s ∉ seen ∧ is_Some (snapshot !! s) ∧ is_Some (registry !! s)) l.
Proof.
  revert seen d. induction l as [|s l IH]; intros seen d; simpl.
  { intros [= <-] _. split_and!; [done|constructor..]. }
  case_decide as Hs; [intros ?%distinct_signers_length; lia|].
  destruct (Registry.contains snapshot s) eqn:H1; [|done].
  destruct (Registry.contains registry s) eqn:H2; [|done]. simpl.
  destruct (distinct_signers _ _ _ l) as [d'|] eqn:Hd; [|done]. intros [= <-] Hlen. simpl in Hlen.
  apply bool_decide_eq_true in H1, H2.
  destruct (IH _ _ Hd) as (-> & Hnd & Hf); [lia|]. split_and!; [done| |].
  - constructor; [|done]. intros Hin. eapply Forall_forall in Hf; [|exact Hin]. set_solver.
  - constructor; [done|]. eapply Forall_impl; [exact Hf|]. set_solver.
Qed.

Lemma distinct_signers_NoDup seen l :
  NoDup l → Forall (λ s, s ∉ seen ∧ is_Some (snapshot !! s) ∧ is_Some (registry !! s)) l →
  distinct_signers snapshot registry seen l = Some l.
Proof.
  intros Hnd. revert seen. induction Hnd as [|s l Hs _ IH]; intros seen Hf; [done|]. simpl.
  apply Forall_cons in Hf as [(Hns & H1 & H2) Hf].
  rewrite decide_False by done. unfold Registry.contains. rewrite !bool_decide_eq_true_2 by done. simpl.
  rewrite IH; [done|]. apply Forall_forall. intros x Hx. eapply Forall_forall in Hf as (? & ? & ?); [|exact Hx].
  split; [|done]. apply not_elem_of_union. split; [|done]. intros ->%elem_of_singleton. done.
Qed.
End distinct.

(** ** What verification means *)

Section verify.
Context `{Sha256, Bls}.

Record quorum_signed (sc : SignedCheckpoint) (registry : MembershipRegistry) (pks : list bytes) : Prop := {
  qs_distinct : NoDup (signers sc);
  qs_members : Forall (λ s, is_Some (roster_snapshot (sc_payload sc) !! s) ∧ is_Some (registry !! s)) (signers sc);
  qs_majority : Registry.len (roster_snapshot (sc_payload sc)) * 2 < length (signers sc) * 3;
  qs_keys : mapM (signer_key (roster_snapshot (sc_payload sc))) (merge_sort N.le (signers sc)) = Some pks;
  qs_aggregate : BlsWrapper.verify_aggregate (aggregate_sig sc) (Payload.signing_bytes (sc_payload sc)) pks = true;
}.

(** [verify_with_registry] accepts exactly the aggregates of a quorum of
    distinct members. *)
Lemma verify_spec sc registry :
  verify_with_registry sc registry = true ↔
  Registry.len (roster_snapshot (sc_payload sc)) ≠ 0 ∧ ∃ pks, quorum_signed sc registry pks.
Proof.
  unfold verify_with_registry. split.
  - case_decide as Hz; [done|]. destruct (distinct_signers _ _ _ _) as [d|] eqn:Hd; [|done].
    destruct (supermajority _ _) eqn:Hm; [|done]. apply supermajority_spec in Hm. simpl.
    case_decide as Hlen; [done|].
    destruct (distinct_signers_all _ _ _ _ _ Hd Hlen) as (-> & Hnd & Hf).
    destruct (mapM _ _) as [pks|] eqn:Hk; [|done]. intros Hv. split; [done|]. exists pks. split; [done| |lia|done|done].
    eapply Forall_impl; [exact Hf|]. naive_solver.
  - intros (Hz & pks & [Hnd Hf Hm Hk Hv]). rewrite decide_False by done.
    rewrite distinct_signers_NoDup; [|done|eapply Forall_impl; [exact Hf|set_solver]].
    assert (supermajority (length (signers sc)) (Registry.len (roster_snapshot (sc_payload sc))) = true) as ->
      by (by apply supermajority_spec). simpl.
    rewrite decide_False by (by intros []). by rewrite Hk.
Qed.

(** Two quorums of one roster have more than a third of it in common. *)
Lemma quorums_intersect (roster : MembershipRegistry) (l1 l2 : list NodeId) :
  NoDup l1 → NoDup l2 → Forall (λ s, is_Some (roster !! s)) l1 → Forall (λ s, is_Some (roster !! s)) l2 →
  size roster * 2 < length l1 * 3 → size roster * 2 < length l2 * 3 →
  size roster < length (filter (λ s, s ∈ l2) l1) * 3.
Proof.
  intros Hn1 Hn2 Hf1 Hf2 H1 H2.
  assert (∀ l, Forall (λ s, is_Some (roster !! s)) l → (list_to_set l : gset N) ⊆ dom roster) as Hsub.
  { intros l Hl s Hs%elem_of_list_to_set. apply elem_of_dom. by eapply Forall_forall in Hl. }
  set (s1 := list_to_set l1 : gset N). set (s2 := list_to_set l2 : gset N).
  assert (size (s1 ∪ s2) ≤ size roster) as Hu.
  { rewrite <- size_dom. apply subseteq_size, union_subseteq. split; by apply Hsub. }
  assert (length (filter (λ s, s ∈ l2) l1) = size (s1 ∩ s2)) as ->.
  { rewrite <- (size_list_to_set (C := gset N)) by (by apply NoDup_filter). f_equal. apply set_eq. intros s.
    unfold s1, s2. rewrite elem_of_list_to_set, list_elem_of_filter, elem_of_intersection, !elem_of_list_to_set. tauto. }
  assert (size s1 = length l1) as E1 by (by apply size_list_to_set).
  assert (size s2 = length l2) as E2 by (by apply size_list_to_set).
  assert (size (s1 ∪ s2) + size (s1 ∩ s2) = size s1 + size s2) as Hie.
  { rewrite size_union_alt, <- (Nat.add_assoc (size s1)). f_equal. rewrite <- size_union by set_solver.
    f_equal. apply set_eq. intros s. destruct (decide (s ∈ s1)); set_solver. }
  lia.
Qed.
End verify.

(** ** What a signature commits to *)

(** The widths of the fields of a payload, and the roster hash that
    [CheckpointPayload::new] and [decode_signed_checkpoint] establish. *)
Record wf_payload `{Sha256, Ed25519} (p : CheckpointPayload) : Prop := {
  wfp_round : is_u64 (cp_round p);
  wfp_records : length (records_root p) = 32;
  wfp_state : length (state_hash p) = 32;
  wfp_roster : roster_hash p = Registry.hash (roster_snapshot p);
  wfp_prev : length (prev_checkpoint_hash p) = 32;
  wfp_window : length (window_root p) = 32;
  wfp_history : length (roster_history_root p) = 32;
  wfp_snapshot : wf_registry (roster_snapshot p);
}.

Section binding.
Context `{Sha256, Ed25519}.

Lemma length_signing_bytes p : wf_payload p → length (Payload.signing_bytes p) = 200.
Proof.
  intros [_ Hr Hs Ho Hp Hw Hh _]. unfold Payload.signing_bytes. rewrite !length_app, length_be_bytes, Ho.
  unfold Registry.hash. rewrite sha256_length. lia.
Qed.

Lemma signing_bytes_inj p1 p2 :
  wf_payload p1 → wf_payload p2 → Payload.signing_bytes p1 = Payload.signing_bytes p2 →
  p1 = p2 ∨ sha256_collision.
Proof.
  intros [Hr1 Hrr1 Hs1 Ho1 Hp1 Hw1 Hh1 Hsn1] [Hr2 Hrr2 Hs2 Ho2 Hp2 Hw2 Hh2 Hsn2] Heq.
  unfold Payload.signing_bytes in Heq.
  apply app_inj_1 in Heq as [Er Heq]; [|by rewrite !length_be_bytes].
  apply be_bytes_inj in Er; [|done..].
  apply app_inj_1 in Heq as [Err Heq]; [|congruence].
  apply app_inj_1 in Heq as [Es Heq]; [|congruence].
  apply app_inj_1 in Heq as [Eo Heq].
  2: { rewrite Ho1, Ho2. unfold Registry.hash. by rewrite !sha256_length. }
  apply app_inj_1 in Heq as [Ep Heq]; [|congruence].
  apply app_inj_1 in Heq as [Ew Eh]; [|congruence].
  assert (roster_snapshot p1 = roster_snapshot p2 ∨ sha256_collision) as [Esn|?]; [| |by right].
  { rewrite Ho1, Ho2 in Eo. unfold Registry.hash in Eo. apply collides in Eo as [Eo|?]; [left|by right].
    by apply RegistryFacts.to_bytes_inj. }
  left. destruct p1, p2; simpl in *; by subst.
Qed.
End binding.

(** ** Accumulation *)

Section accumulate.
Context `{Sha256, Bls, HashOrder}.

(** Feeding signatures one after the other, with the checkpoints yielded. *)
Fixpoint add_sigs (registry : MembershipRegistry) (sigs : list CheckpointSig) (acc : CheckpointAccumulator) :
    list SignedCheckpoint * CheckpointAccumulator :=
  match sigs with
  | [] => ([], acc)
  | s :: sigs =>
      let (out, acc) := Accumulator.add_sig s registry acc in
      let (outs, acc) := add_sigs registry sigs acc in
      (option_list out ++ outs, acc)
  end.

(** A member's signature over the payload, as [verify_checkpoint_sig] checks. *)
Definition valid_sig (payload : CheckpointPayload) (s : CheckpointSig) : Prop :=
  sig_round s = cp_round payload ∧
  verify_checkpoint_sig s (Payload.signing_bytes payload) (roster_snapshot payload) = true.

Lemma valid_sig_key payload s :
  valid_sig payload s → ∃ pk, signer_key (roster_snapshot payload) (sig_signer s) = Some pk ∧
    bls_verify (sig_bls s) (Payload.signing_bytes payload) BlsWrapper.CHECKPOINT_DST pk = true.
Proof.
  intros [_ Hv]. unfold verify_checkpoint_sig in Hv.
  destruct (signer_key _ _) as [pk|]; [|done]. by exists pk.
Qed.

Lemma valid_sig_member payload s : valid_sig payload s → is_Some (roster_snapshot payload !! sig_signer s).
Proof.
  intros (pk & Hk & _)%valid_sig_key. unfold signer_key, Registry.bls_key_for in Hk.
  destruct (roster_snapshot payload !! sig_signer s); [by eexists|done].
Qed.

(** The collected signatures are filed under their signer. *)
Definition filed (acc : CheckpointAccumulator) : Prop :=
  ∀ k s, acc_sigs acc !! k = Some s → sig_signer s = k ∧ valid_sig (acc_payload acc) s.

(** Sorting the signatures by signer and sorting the signers agree. *)
Lemma sorted_signers acc :
  filed acc →
  sig_signer <$> merge_sort Accumulator.signer_le (hm_iter (acc_sigs acc)).*2
  = merge_sort N.le (hm_iter (acc_sigs acc)).*1.
Proof.
  intros Hf. apply (Sorted_unique N.le).
  - apply (Sorted_fmap sig_signer Accumulator.signer_le N.le); [done|]. apply Sorted_merge_sort.
    intros s1 s2. unfold Accumulator.signer_le. lia.
  - apply Sorted_merge_sort, _.
  - rewrite !merge_sort_Permutation, <- list_fmap_compose. apply reflexive_eq, list_fmap_ext.
    intros i [k s] Hi. apply list_elem_of_lookup_2, elem_of_hm_iter in Hi. by apply Hf in Hi as [? _].
Qed.

Lemma hm_iter_keys (m : gmap NodeId CheckpointSig) :
  NoDup (hm_iter m).*1 ∧ (∀ k, k ∈ (hm_iter m).*1 ↔ is_Some (m !! k)) ∧ length (hm_iter m).*1 = size m.
Proof.
  pose proof (hash_order_perm (map_to_list m)) as Hp. unfold hm_iter. split_and!.
  - rewrite Hp. apply NoDup_fst_map_to_list.
  - intros k. rewrite Hp, list_elem_of_fmap. split.
    + intros ([k' v] & -> & Hin%elem_of_map_to_list). by exists v.
    + intros [v Hv]. exists (k, v). split; [done|]. by apply elem_of_map_to_list.
  - rewrite length_fmap, Hp. apply length_map_to_list.
Qed.

(** The keys of some signers never add up to the point at infinity. *)
Definition keys_independent (payload : CheckpointPayload) : Prop :=
  ∀ l pks, l ≠ [] → NoDup l → mapM (signer_key (roster_snapshot payload)) l = Some pks → bls_infinite pks = false.

(** A list of valid signatures has keys and aggregates. *)
Lemma valid_sigs_aggregate payload (sigs : list CheckpointSig) :
  keys_independent payload → sigs ≠ [] → NoDup (sig_signer <$> sigs) → Forall (valid_sig payload) sigs →
  ∃ pks agg, mapM (signer_key (roster_snapshot payload)) (sig_signer <$> sigs) = Some pks ∧
    BlsWrapper.aggregate (sig_bls <$> sigs) = Ok agg ∧
    BlsWrapper.verify_aggregate agg (Payload.signing_bytes payload) pks = true.
Proof.
  intros Hind Hne Hnd Hv.
  assert (∃ pks, mapM (signer_key (roster_snapshot payload)) (sig_signer <$> sigs) = Some pks ∧
    Forall2 (λ pk s, bls_verify s (Payload.signing_bytes payload) BlsWrapper.CHECKPOINT_DST pk = true)
      pks (sig_bls <$> sigs)) as (pks & Hk & Hf).
  { clear -Hv. induction Hv as [|s sigs (pk & Hk & Hs)%valid_sig_key _ (pks & Hm & Hf)].
    - by exists [].
    - exists (pk :: pks). rewrite mapM_Some in *. split; by constructor. }
  assert (length pks = length (sig_bls <$> sigs)) as Hlen by (by eapply Forall2_length).
  destruct (bls_aggregate_verify (Payload.signing_bytes payload) BlsWrapper.CHECKPOINT_DST
    (zip pks (sig_bls <$> sigs))) as (agg & Ha & Hver).
  - destruct sigs; [done|]. destruct pks; done.
  - apply Forall_forall. intros [pk s] Hin. apply list_elem_of_lookup in Hin as [i Hi].
    apply lookup_zip_with_Some in Hi as (pk' & s' & [= <- <-] & Hp & Hs). by eapply Forall2_lookup_lr in Hf.
  - rewrite fst_zip by lia. eapply Hind; [|exact Hnd|exact Hk]. by destruct sigs.
  - rewrite fst_zip in Hver by lia. rewrite snd_zip in Ha by lia. exists pks, agg.
    split; [done|]. unfold BlsWrapper.aggregate, BlsWrapper.verify_aggregate. by rewrite Ha.
Qed.

(** A quorum of filed signatures concludes in a checkpoint that verifies. *)
Lemma conclude_verifies acc :
  keys_independent (acc_payload acc) → filed acc →
  supermajority (size (acc_sigs acc)) (Registry.len (roster_snapshot (acc_payload acc))) = true →
  ∃ sc, Accumulator.conclude acc = Some sc ∧ sc_payload sc = acc_payload acc ∧ verify sc = true ∧
    signers sc = merge_sort N.le (hm_iter (acc_sigs acc)).*1.
Proof.
  intros Hind Hf Hq. pose proof (sorted_signers acc Hf) as Hsort.
  destruct (hm_iter_keys (acc_sigs acc)) as (Hnd & Hkeys & Hsize).
  set (sorted := merge_sort Accumulator.signer_le (hm_iter (acc_sigs acc)).*2) in *.
  set (ids := merge_sort N.le (hm_iter (acc_sigs acc)).*1) in *.
  assert (NoDup ids) as Hndi by (unfold ids; by rewrite merge_sort_Permutation).
  assert (length ids = size (acc_sigs acc)) as Hlen by (unfold ids; by rewrite merge_sort_Permutation).
  apply supermajority_spec in Hq.
  assert (Forall (valid_sig (acc_payload acc)) sorted) as Hv.
  { apply Forall_forall. intros s. unfold sorted. rewrite merge_sort_Permutation.
    intros ([k s'] & -> & Hin%elem_of_hm_iter)%list_elem_of_fmap. by apply Hf in Hin as [_ ?]. }
  destruct (valid_sigs_aggregate (acc_payload acc) sorted) as (pks & agg & Hk & Ha & Hver); [done| | |done|].
  { intros Hnil. rewrite Hnil in Hsort. rewrite <- Hsort in Hlen. simpl in Hlen. lia. }
  { by rewrite Hsort. }
  unfold Accumulator.conclude. fold sorted. fold ids. rewrite Ha. eexists. split; [done|]. split; [done|].
  split; [|done]. apply verify_spec. simpl. split.
  { intros Hz. unfold Registry.len in *. apply map_size_empty_inv in Hz.
    assert (ids = []) as Hnil; [|rewrite Hnil in Hlen; simpl in Hlen; rewrite <- Hlen in Hq; lia].
    destruct ids as [|k ids'] eqn:Hids; [done|]. exfalso.
    destruct sorted as [|s sorted']; [done|]. apply Forall_cons in Hv as [Hs _].
    apply valid_sig_member in Hs as [? Hs]. by rewrite Hz, lookup_empty in Hs. }
  exists pks. split; simpl; [done| |by rewrite Hlen| |done].
  - apply Forall_forall. intros k Hin. rewrite <- Hsort in Hin.
    apply list_elem_of_fmap in Hin as (s & -> & Hs). eapply Forall_forall in Hv; [|exact Hs].
    split; by apply valid_sig_member.
  - rewrite <- Hk, Hsort. f_equal. apply (Sorted_unique N.le); [apply Sorted_merge_sort, _..|].
    unfold ids. by rewrite !merge_sort_Permutation.
Qed.

Lemma note_sig_sigs s acc k :
  acc_sigs (Accumulator.note_sig s acc) !! k =
  match acc_sigs acc !! k with Some s' => Some s' | None => if decide (k = sig_signer s) then Some s else None end.
Proof.
  unfold Accumulator.note_sig. simpl. destruct (acc_sigs acc !! sig_signer s) eqn:Hs.
  - destruct (acc_sigs acc !! k) eqn:Hk; [done|]. rewrite decide_False by congruence. done.
  - destruct (decide (k = sig_signer s)) as [->|Hne]; [by rewrite lookup_insert_eq, Hs|].
    rewrite lookup_insert_ne by done. by destruct (acc_sigs acc !! k).
Qed.

Lemma note_sig_dom s acc :
  dom (acc_sigs (Accumulator.note_sig s acc)) = {[ sig_signer s ]} ∪ dom (acc_sigs acc).
Proof.
  apply set_eq. intros k. rewrite elem_of_union, elem_of_singleton, !elem_of_dom, note_sig_sigs.
  destruct (acc_sigs acc !! k); [split; [by right|by eexists]|].
  case_decide; split; intros Hk; try (destruct Hk as [?|[? ?]]; done); try (by left); by eexists.
Qed.

(** After the quorum nothing more is yielded. *)
Lemma add_sigs_done registry sigs acc :
  supermajority (size (acc_sigs acc)) (Registry.len registry) = true → add_sigs registry sigs acc = ([], acc).
Proof.
  intros Hq. induction sigs as [|s sigs IH]; [done|]. simpl.
  assert (Accumulator.add_sig s registry acc = (None, acc)) as ->.
  { unfold Accumulator.add_sig. case_decide; [done|]. destruct (negb _); [done|]. by rewrite Hq. }
  by rewrite IH.
Qed.

(** Adding signatures of any kind yields at most one checkpoint. *)
Lemma add_sigs_once registry sigs acc :
  (∀ sc, sc ∈ (add_sigs registry sigs acc).1 → sc_payload sc = acc_payload acc) ∧
  length (add_sigs registry sigs acc).1 ≤ 1.
Proof.
  revert acc. induction sigs as [|s sigs IH]; intros acc; simpl; [split; [by intros sc ?%elem_of_nil|lia]|].
  unfold Accumulator.add_sig. case_decide; [|destruct (negb _); [|destruct (supermajority (size (acc_sigs acc)) _) eqn:Hq]].
  1-3: specialize (IH acc); destruct (add_sigs registry sigs acc); done.
  set (acc' := Accumulator.note_sig s acc) in *.
  destruct (supermajority (size (acc_sigs acc')) (Registry.len registry)) eqn:Hq'.
  - rewrite add_sigs_done by done. unfold Accumulator.conclude.
    destruct (BlsWrapper.aggregate _) as [agg| |]; simpl; [|split; [by intros sc ?%elem_of_nil|lia]..].
    split; [|lia]. by intros sc ->%list_elem_of_singleton.
  - specialize (IH acc'). destruct (add_sigs registry sigs acc'). done.
Qed.

(** A valid signature below the quorum is filed; when it completes the quorum
    the checkpoint it yields verifies. *)
Lemma add_sig_valid s acc :
  let payload := acc_payload acc in
  let acc' := Accumulator.note_sig s acc in
  keys_independent payload → filed acc → valid_sig payload s →
  supermajority (size (acc_sigs acc)) (Registry.len (roster_snapshot payload)) = false →
  filed acc' ∧
  (supermajority (size (acc_sigs acc')) (Registry.len (roster_snapshot payload)) = false ∧
     Accumulator.add_sig s (roster_snapshot payload) acc = (None, acc') ∨
   supermajority (size (acc_sigs acc')) (Registry.len (roster_snapshot payload)) = true ∧
     ∃ sc, Accumulator.add_sig s (roster_snapshot payload) acc = (Some sc, acc') ∧
       sc_payload sc = payload ∧ verify sc = true ∧ Forall (λ k, is_Some (acc_sigs acc' !! k)) (signers sc)).
Proof.
  cbv zeta. intros Hind Hf Hs Hno. set (acc' := Accumulator.note_sig s acc).
  assert (filed acc') as Hf'.
  { intros k s'. unfold acc'. rewrite note_sig_sigs. destruct (acc_sigs acc !! k) eqn:Hk.
    - intros [= <-]. by apply Hf.
    - case_decide as Hks; [|done]. intros [= <-]. by split. }
  split; [done|]. pose proof (valid_sig_member _ _ Hs) as Hmem. destruct Hs as [Hr _].
  unfold Accumulator.add_sig. rewrite decide_False by (by intros []).
  unfold Registry.contains. rewrite bool_decide_eq_true_2 by done. cbn [negb]. rewrite Hno. cbv zeta. fold acc'.
  destruct (supermajority (size (acc_sigs acc')) (Registry.len (roster_snapshot (acc_payload acc)))) eqn:Hq';
    [right|by left]. split; [done|].
  destruct (conclude_verifies acc' Hind Hf' Hq') as (sc & Hc & Hpay & Hver' & Hsig).
  rewrite Hc. exists sc. split; [done|]. split; [done|]. split; [done|].
  apply Forall_forall. intros k. rewrite Hsig, merge_sort_Permutation. apply hm_iter_keys.
Qed.

(** Valid signatures of a quorum yield exactly one checkpoint, which verifies. *)
Lemma add_sigs_valid sigs acc :
  let payload := acc_payload acc in
  keys_independent payload → filed acc → Forall (valid_sig payload) sigs →
  supermajority (size (acc_sigs acc)) (Registry.len (roster_snapshot payload)) = false →
  supermajority (size (list_to_set (sig_signer <$> sigs) ∪ dom (acc_sigs acc) : gset NodeId))
    (Registry.len (roster_snapshot payload)) = true →
  ∃ sc, (add_sigs (roster_snapshot payload) sigs acc).1 = [sc] ∧ sc_payload sc = payload ∧ verify sc = true ∧
    Forall (λ k, k ∈ sig_signer <$> sigs ∨ is_Some (acc_sigs acc !! k)) (signers sc).
Proof.
  cbv zeta. revert acc. induction sigs as [|s sigs IH]; intros acc Hind Hf Hv Hno Hq.
  { simpl in Hq. rewrite (left_id_L ∅ (∪)), size_dom in Hq. congruence. }
  apply Forall_cons in Hv as [Hs Hv].
  destruct (add_sig_valid s acc Hind Hf Hs Hno) as [Hf' Hadd]. simpl.
  set (acc' := Accumulator.note_sig s acc) in *. assert (acc_payload acc' = acc_payload acc) as Hp by done.
  assert (∀ k, is_Some (acc_sigs acc' !! k) → k ∈ sig_signer <$> s :: sigs ∨ is_Some (acc_sigs acc !! k)) as Hsub.
  { intros k. rewrite <- !elem_of_dom. unfold acc'. rewrite note_sig_dom, elem_of_union, elem_of_singleton.
    intros [->|?]; [left; by left|by right]. }
  destruct Hadd as [[Hq' ->]|(Hq' & sc & -> & Hpay & Hver & Hsig)].
  - destruct (IH acc') as (sc & Hout & Hpay & Hver' & Hsig); [done|done|done|done| |].
    { unfold acc'. rewrite note_sig_dom. rewrite <- Hq. do 2 f_equal. simpl. set_solver. }
    rewrite Hp in Hout. destruct (add_sigs _ sigs acc') as [outs ?]. simpl in *. subst outs. exists sc.
    split; [done|]. split; [done|]. split; [done|]. eapply Forall_impl; [exact Hsig|].
    intros k [Hk|Hk]; [left; by right|by apply Hsub].
  - rewrite add_sigs_done by done. exists sc. simpl. split; [done|]. split; [done|]. split; [done|].
    eapply Forall_impl; [exact Hsig|]. exact Hsub.
Qed.
End accumulate.

(** ** Byte forms *)

Section codecs.
Context `{Sha256, Ed25519, Bls}.

Definition wf_bls_sig (s : bytes) : Prop := length s = 96 ∧ bls_sig_valid s = true.

Definition wf_checkpoint_sig (s : CheckpointSig) : Prop :=
  is_u64 (sig_round s) ∧ is_u64 (sig_signer s) ∧ wf_bls_sig (sig_bls s).

Definition wf_signed (sc : SignedCheckpoint) : Prop :=
  wf_payload (sc_payload sc) ∧ Forall is_u64 (signers sc) ∧ wf_bls_sig (aggregate_sig sc).

Lemma decode_encode_sig s :
  wf_checkpoint_sig s →
  length (encode_checkpoint_sig s) = 112 ∧ decode_checkpoint_sig (encode_checkpoint_sig s) = Ok s.
Proof.
  intros (Hr & Hs & Hlen & Hv). unfold encode_checkpoint_sig.
  assert (length (u64_be (sig_round s) ++ u64_be (sig_signer s) ++ sig_bls s) = 112) as Hl
    by (rewrite !length_app, !length_be_bytes; lia).
  split; [done|]. unfold decode_checkpoint_sig. rewrite decide_False by (by intros []).
  rewrite take_app_length' by (by rewrite length_be_bytes). rewrite of_be_be_bytes by exact Hr.
  rewrite (drop_app_length' _ _ 8) by (by rewrite length_be_bytes).
  rewrite take_app_length' by (by rewrite length_be_bytes). rewrite of_be_be_bytes by exact Hs.
  rewrite (assoc_L (++)), drop_app_length' by (by rewrite length_app, !length_be_bytes).
  unfold bls_sig_from_bytes. rewrite Hv. by destruct s.
Qed.

Lemma decode_sig_no_crash bs : no_crash (decode_checkpoint_sig bs).
Proof.
  intros c. unfold decode_checkpoint_sig, bls_sig_from_bytes. case_decide; [done|].
  by destruct (bls_sig_valid _).
Qed.

Lemma decodes_payload p :
  wf_payload p → is_u32 (N.of_nat (length (Registry.to_bytes (roster_snapshot p)))) →
  decodes take_payload
    (u64_be (cp_round p) ++ records_root p ++ state_hash p ++ roster_hash p ++ prev_checkpoint_hash p ++
     window_root p ++ roster_history_root p ++
     u32_be (N.of_nat (length (Registry.to_bytes (roster_snapshot p)))) ++ Registry.to_bytes (roster_snapshot p)) p.
Proof.
  intros [Hr Hrr Hs Ho Hp Hw Hh Hsn] Hlen. unfold take_payload.
  assert (length (roster_hash p) = 32) as Hol by (rewrite Ho; apply sha256_length).
  codec_step; [by apply decodes_take_u64|].
  do 6 (codec_step; [apply decodes_take_exact; lia|]).
  eapply decodes_bind_nil; [by apply decodes_take_bytes|].
  eapply decodes_lift; [by apply RegistryFacts.from_to_bytes|].
  rewrite decide_False by (rewrite Ho; by intros []). destruct p. apply decodes_ret.
Qed.

Lemma decode_encode_signed sc w :
  wf_signed sc → encode_signed_checkpoint sc = Ok w → decode_signed_checkpoint w = Ok sc.
Proof.
  intros (Hp & Hsig & Hal & Hav) (rl & [-> Hrl]%u32_try_from_Ok & (n & [-> Hn]%u32_try_from_Ok & <-%res_ret_Ok)%res_bind_Ok)%res_bind_Ok.
  apply (parses_result take_signed_checkpoint). unfold take_signed_checkpoint.
  pose proof (decodes_payload _ Hp Hrl) as Hd.
  match goal with |- parses _ ?w _ => replace w with
    ((u64_be (cp_round (sc_payload sc)) ++ records_root (sc_payload sc) ++ state_hash (sc_payload sc) ++
      roster_hash (sc_payload sc) ++ prev_checkpoint_hash (sc_payload sc) ++ window_root (sc_payload sc) ++
      roster_history_root (sc_payload sc) ++
      u32_be (N.of_nat (length (Registry.to_bytes (roster_snapshot (sc_payload sc))))) ++
      Registry.to_bytes (roster_snapshot (sc_payload sc))) ++
     u32_be (N.of_nat (length (signers sc))) ++ concat (u64_be <$> signers sc) ++ aggregate_sig sc)
    by (by rewrite <- !(assoc_L (++))) end.
  eapply parses_bind; [exact Hd|cbn beta]. parse_step; [by apply decodes_take_u32|].
  unfold parses, mbind at 1, stM_bind at 1, st_get. rewrite decide_False; cycle 1.
  { change MIN_SIGNER with 8%N. rewrite length_app, (RegistryFacts.length_concat_const _ 8), length_fmap.
    - apply N.le_ngt, N.div_le_lower_bound; lia.
    - apply Forall_fmap, Forall_true. intros. apply length_be_bytes. }
  rewrite Nat2N.id. eapply (parses_bind (E := unit)).
  { apply decodes_take_n. eapply Forall_impl; [exact Hsig|]. intros; by apply decodes_take_u64. }
  cbn beta. parse_step; [apply decodes_take_exact; lia|].
  eapply (parses_bind_nil (E := unit)) with (a := aggregate_sig sc).
  { intros rest. unfold st_lift, bls_sig_from_bytes. by rewrite Hav. }
  by destruct sc.
Qed.

Lemma decode_signed_no_crash bs : no_crash (decode_signed_checkpoint bs).
Proof.
  unfold decode_signed_checkpoint. revert bs. change (never_panics take_signed_checkpoint).
  assert (never_panics take_payload).
  { unfold take_payload. do 8 (apply total_bind; [solve_total|intros ?]).
    apply total_bind; [apply total_lift; by apply RegistryFacts.from_bytes_loop_safe|intros reg].
    case_decide; [apply total_fail|apply total_ret]. }
  unfold take_signed_checkpoint. do 2 (apply total_bind; [solve_total|intros ?]).
  apply total_get. intros c. case_decide; [apply total_fail|].
  do 2 (apply total_bind; [solve_total|intros ?]).
  apply total_bind; [apply total_lift; intros c'; unfold bls_sig_from_bytes; by destruct (bls_sig_valid _)|intros ?].
  solve_total.
Qed.
End codecs.
