(* ===== verification/CheckpointProps.v ===== *)
(** * What signed checkpoints guarantee

    Agreement on the payload of a round, its independence of pruning, the
    Merkle commitments, the quorum of a signed checkpoint, and the byte forms
    ([consensus/src/checkpoint.rs], [reconnect.rs], [gossip/src/node.rs]). *)

From S2P Require Import Prelude Codec External Primitives Membership Graph Ancestry Reach Order.
From S2P Require Import Fame Insert Wf Quorum Store Rounds OrderFacts Voting Reachable Demo Finality.
From S2P Require Import Agreement Ballots ForkFree VotePairs OrderAgreement AgreementDemo Retain RetainFacts.
From S2P Require Import Reconnect Checkpoint CheckpointFacts CheckpointWindow CheckpointQuorum.

Section props.
Context `{Sha256}.


(** pruning does not change what a node signs.  [prune_before_round] with a
    threshold at least [SIGNED_WINDOW_ROUNDS] below a round leaves the
    checkpoint payload of that round as it was, and the chained payload too
    once the checkpoint that justified the prune is among the signed ones;
    the committed roster selection still yields every roster of the window. *)
Theorem prune_keeps_checkpoints `{HashOrder} hg hg' l threshold round rroot shash sh signed sc :
  prune_before_round threshold hg = (Ok l, hg') →
  (threshold + SIGNED_WINDOW_ROUNDS ≤ round)%N →
  sc ∈ signed → (threshold + SIGNED_WINDOW_ROUNDS ≤ cp_round (sc_payload sc) + 1)%N →
  (cp_round (sc_payload sc) < round)%N →
  checkpoint_payload hg' round rroot shash = checkpoint_payload hg round rroot shash ∧
  canonical_checkpoint_payload_chained hg' round sh signed
  = canonical_checkpoint_payload_chained hg round sh signed ∧
  ∀ subset r, canonical_roster_history (roster_history hg') round SIGNED_WINDOW_ROUNDS = Some subset →
    (round - SIGNED_WINDOW_ROUNDS ≤ r)%N → (r ≤ round)%N →
    Roster.roster_for_round (E := unit) subset r = Roster.roster_for_round (roster_history hg) r.
Proof.
  intros Hp Hle Hsc Hs Hlt. pose proof (prune_window _ _ _ _ _ Hp Hle) as Hw.
  split; [by apply checkpoint_payload_same|]. split; [by eapply prune_chained|].
  intros subset r Hc Hlo Hhi. eapply canonical_roster_lookup; [|exact Hlo|exact Hhi].
  rewrite <- Hc. symmetry. apply (sw_roster _ _ _ _ _ Hw).
Qed.

(** inclusion proofs of the records root.  For items with payloads below
    2^32 bytes the root and one proof per item exist, each proof verifies its
    item, and a proof that verifies is of an item in the list, or SHA-256 has
    a collision. *)
Theorem records_proofs_correct items :
  Forall wf_item items →
  Forall (λ item, is_u32 (N.of_nat (length (item_tx_payload item)))) items →
  is_u32 (N.of_nat (length items)) →
  ∃ root proofs, try_compute_records_root_with_proofs items = Ok (root, proofs) ∧
    length proofs = length items ∧
    (∀ i item p, items !! i = Some item → proofs !! i = Some p →
       item_index p = N.of_nat i ∧ verify_records_proof root item p = true) ∧
    (∀ item p, wf_item item → wf_proof p → verify_records_proof root item p = true →
       item ∈ items ∨ sha256_collision).
Proof.
  intros Hwf Hlen Hn. destruct (records_total items Hlen Hn) as (root & proofs & Hr & Hps).
  exists root, proofs. split; [done|]. split; [done|]. split.
  - intros i item p. by eapply records_proofs_complete.
  - intros item p Hit Hp Hv. eapply records_proofs_sound; [exact Hwf|done|done| |exact Hv].
    by apply res_bind_Ok in Hr as (root' & Hroot & (ps & _ & [= <- _]%res_ret_Ok)%res_bind_Ok).
Qed.

End props.

Section quorum.
Context `{Sha256, Ed25519, Bls}.

(** a quorum of valid signatures is accepted.  Feeding a fresh accumulator
    signatures that each verify under the key of a member of the payload's
    roster yields, as soon as their signers exceed two thirds, exactly one
    signed checkpoint; it carries the payload, its signers are among those
    fed, and it passes [verify].  No sequence of signatures, valid or not,
    yields a second checkpoint or another payload. *)
Theorem quorum_accepted `{HashOrder} payload snapshot sigs any_registry any_sigs :
  keys_independent payload → Forall (valid_sig payload) sigs →
  supermajority (size (list_to_set (sig_signer <$> sigs) : gset NodeId))
    (Registry.len (roster_snapshot payload)) = true →
  (∃ sc, (add_sigs (roster_snapshot payload) sigs (Accumulator.new payload snapshot)).1 = [sc] ∧
     sc_payload sc = payload ∧ verify sc = true ∧ Forall (λ k, k ∈ sig_signer <$> sigs) (signers sc)) ∧
  (∀ sc, sc ∈ (add_sigs any_registry any_sigs (Accumulator.new payload snapshot)).1 → sc_payload sc = payload) ∧
  length (add_sigs any_registry any_sigs (Accumulator.new payload snapshot)).1 ≤ 1.
Proof.
  intros Hind Hv Hq. split; [|apply add_sigs_once].
  destruct (add_sigs_valid sigs (Accumulator.new payload snapshot)) as (sc & Hout & Hpay & Hver & Hs).
  - done.
  - intros k s Hk. simpl in Hk. by rewrite lookup_empty in Hk.
  - done.
  - simpl. by rewrite map_size_empty.
  - simpl. by rewrite dom_empty_L, (right_id_L ∅ (∪)).
  - exists sc. split; [done|]. split; [done|]. split; [done|]. eapply Forall_impl; [exact Hs|].
    intros k [Hk|[s Hk]]; [done|]. simpl in Hk. by rewrite lookup_empty in Hk.
Qed.


(** the byte forms of the reconnect protocol round-trip.  Well-formed
    retained events (with or without the trailing timestamp), roster
    histories, checkpoint signatures and signed checkpoints decode from their
    encodings, and their decoders never panic on any bytes. *)
Theorem reconnect_codecs_roundtrip record legacy rh sig sc w1 w2 w3 bs :
  wf_retained record → encode_retained_event record = Ok w1 →
  wf_retained legacy → re_consensus_timestamp legacy = None →
  wf_roster_history rh → encode_roster_history rh = Ok w2 →
  wf_checkpoint_sig sig → wf_signed sc → encode_signed_checkpoint sc = Ok w3 →
  decode_retained_event w1 = Ok record ∧
  (∀ w, encode_retained_event legacy = Ok (w ++ [x00]) → decode_retained_event w = Ok legacy) ∧
  decode_roster_history w2 = Ok rh ∧
  decode_checkpoint_sig (encode_checkpoint_sig sig) = Ok sig ∧
  decode_signed_checkpoint w3 = Ok sc ∧
  no_crash (decode_retained_event bs) ∧ no_crash (decode_roster_history bs) ∧
  no_crash (decode_checkpoint_sig bs) ∧ no_crash (decode_signed_checkpoint bs).
Proof.
  intros Hr E1 Hl Hlt Hh E2 Hs Hc E3.
  split; [by apply decode_encode_retained|]. split; [intros w; by apply decode_legacy_retained|].
  split; [by apply decode_encode_roster|]. split; [by apply decode_encode_sig|].
  split; [by apply decode_encode_signed|]. split; [apply decode_retained_no_crash|].
  split; [apply decode_roster_no_crash|]. split; [apply decode_sig_no_crash|apply decode_signed_no_crash].
Qed.
End quorum.

(** ** Instances *)

#[local] Existing Instance toy_sha256.
#[local] Existing Instance toy_ed25519.
#[local] Existing Instance toy_bls.

Definition succeeds {E A} (m : res E A) : bool := match m with Ok _ => true | _ => false end.

Lemma run_ok {S E A} (p : res E A * S) : succeeds p.1 = true → ∃ a, p = (Ok a, p.2).
Proof. destruct p as [[a| |] s]; [by exists a|done..]. Qed.

(** *** Two nodes, one of which has accepted the checkpoint of round 1 *)








(** *** A lone member's chain of 24 events, pruned below round 4 *)

#[local] Existing Instance identity_order.

Definition solo_graph : Hashgraph := demo_graph 1 (solo 24).
Definition solo_pruned : Hashgraph := (prune_before_round 4 solo_graph).2.

Definition round19 : SignedCheckpoint :=
  {| sc_payload := Payload.new 19 [] [] [] [] ∅; aggregate_sig := []; signers := [] |}.

Lemma prune_keeps_checkpoints_witness :
  size (events solo_pruned) < size (events solo_graph) ∧
  succeeds (checkpoint_payload solo_graph 20 zero_hash zero_hash) = true ∧
  checkpoint_payload solo_pruned 20 zero_hash zero_hash = checkpoint_payload solo_graph 20 zero_hash zero_hash.
Proof.
  split; [apply Nat.ltb_lt; vm_compute; reflexivity|]. split; [vm_compute; reflexivity|].
  destruct (run_ok (prune_before_round 4 solo_graph)) as [l Hl]; [vm_compute; reflexivity|].
  refine (proj1 (prune_keeps_checkpoints solo_graph solo_pruned l 4 20 zero_hash zero_hash ∅ [round19] round19
    Hl _ _ _ _)).
  - done.
  - by left.
  - done.
  - done.
Defined.

#[local] Instance wf_window_record_dec h r : Decision (wf_window_record h r).
Proof.
  assert (∀ o, Decision (wf_opt_u64 o)) by (intros [v|]; simpl; apply _).
  refine (cast_if (decide (((length h = 32 ∧ is_u64 (rec_seq r)) ∧ is_u64 (rec_round r)) ∧
    (wf_opt_u64 (rec_round_received r) ∧ wf_opt_u64 (rec_consensus_timestamp r) ∧
     Forall is_u64 (rec_ancestor_seqs r))))).
  - abstract (constructor; tauto).
  - abstract (intros []; tauto).
Defined.



Definition demo_items : list RecordsRootItem :=
  (λ i, {| item_event_hash := be_bytes 32 (N.of_nat i); item_tx_index := N.of_nat i;
           item_tx_payload := be_bytes i 9 |}) <$> seq 0 3.

Lemma demo_items_wf :
  Forall wf_item demo_items ∧
  Forall (λ item, is_u32 (N.of_nat (length (item_tx_payload item)))) demo_items.
Proof. split; repeat constructor. Qed.

Definition root_of (m : res PrimError bytes) : bytes := match m with Ok r => r | _ => [] end.

Lemma root_of_ok m : succeeds m = true → m = Ok (root_of m).
Proof. by destruct m. Qed.




Lemma records_proofs_correct_witness :
  ∃ root proofs, try_compute_records_root_with_proofs demo_items = Ok (root, proofs) ∧ length proofs = 3.
Proof.
  destruct (records_proofs_correct demo_items (proj1 demo_items_wf) (proj2 demo_items_wf) eq_refl)
    as (root & proofs & Hr & Hlen & _).
  exists root, proofs. split; [exact Hr|exact Hlen].
Defined.

(** *** Signatures of three of four members *)

Definition demo_payload (round : N) : CheckpointPayload :=
  Payload.new round (be_bytes 32 1) (be_bytes 32 2) (be_bytes 32 3) (be_bytes 32 4) (demo_registry 4).

Definition demo_sig (round n : N) : CheckpointSig :=
  {| sig_round := round; sig_signer := n;
     sig_bls := BlsWrapper.sign (be_bytes 48 n) (Payload.signing_bytes (demo_payload round)) |}.

Definition demo_signed (round : N) (ids : list N) : SignedCheckpoint :=
  default round19 (head (add_sigs (demo_registry 4) (demo_sig round <$> ids)
                           (Accumulator.new (demo_payload round) [])).1).

Lemma demo_sigs_valid : Forall (valid_sig (demo_payload 5)) (demo_sig 5 <$> [3; 1; 1; 4]%N).
Proof. repeat (constructor; [split; vm_compute; reflexivity|]). constructor. Qed.

Lemma quorum_accepted_witness :
  ∃ sc, (add_sigs (demo_registry 4) (demo_sig 5 <$> [3; 1; 1; 4]%N) (Accumulator.new (demo_payload 5) [])).1 = [sc] ∧
    sc_payload sc = demo_payload 5 ∧ verify sc = true ∧
    Forall (λ k, k ∈ sig_signer <$> (demo_sig 5 <$> [3; 1; 1; 4]%N)) (signers sc).
Proof.
  refine (proj1 (quorum_accepted (demo_payload 5) [] (demo_sig 5 <$> [3; 1; 1; 4]%N) ∅ [] _ demo_sigs_valid _)).
  - intros l pks _ _ _. reflexivity.
  - vm_compute. reflexivity.
Defined.

Lemma demo_registry4_wf : wf_registry (demo_registry 4).
Proof.
  repeat (apply RegistryFacts.wf_register; [|split; [done|]; split; [apply length_be_bytes|]; split;
    [done|apply length_be_bytes]]). apply map_Forall_empty.
Qed.

Lemma demo_payload_wf round : is_u64 round → wf_payload (demo_payload round).
Proof. intros Hr. split; try apply length_be_bytes; [done|done|]. apply demo_registry4_wf. Qed.

Lemma demo_signed_payload :
  sc_payload (demo_signed 5 [1; 2; 3]%N) = demo_payload 5 ∧ sc_payload (demo_signed 6 [2; 3; 4]%N) = demo_payload 6.
Proof. split; vm_compute; reflexivity. Qed.


Definition demo_retained : RetainedEvent :=
  {| re_event := demo_event [] 7 (1%N, None, None); re_seq := 1; re_round := 1; re_ancestor_seqs := [1; 0]%N;
     re_round_received := None; re_consensus_timestamp := None |}.

Definition bytes_of (m : res PrimError bytes) : bytes := root_of m.

Lemma demo_retained_wf : wf_retained demo_retained.
Proof.
  split; [apply (bool_decide_eq_true_1 _); vm_compute; reflexivity|done|done|by repeat constructor|done|done].
Qed.

Lemma demo_history_wf : wf_roster_history (Roster.new (demo_registry 4)).
Proof. split; [done|]. apply map_Forall_singleton. split; [done|apply demo_registry4_wf]. Qed.

Lemma demo_signed_wf : wf_signed (demo_signed 5 [1; 2; 3]%N).
Proof.
  split; [rewrite (proj1 demo_signed_payload); by apply demo_payload_wf|].
  split; [|split; vm_compute; reflexivity].
  apply (bool_decide_eq_true_1 _). vm_compute. reflexivity.
Qed.

Lemma reconnect_codecs_roundtrip_witness :
  decode_retained_event (bytes_of (encode_retained_event demo_retained)) = Ok demo_retained.
Proof.
  refine (proj1 (reconnect_codecs_roundtrip demo_retained demo_retained (Roster.new (demo_registry 4))
    (demo_sig 5 1) (demo_signed 5 [1; 2; 3]%N) (bytes_of (encode_retained_event demo_retained))
    (bytes_of (encode_roster_history (Roster.new (demo_registry 4))))
    (bytes_of (encode_signed_checkpoint (demo_signed 5 [1; 2; 3]%N))) []
    demo_retained_wf (root_of_ok _ _) demo_retained_wf eq_refl demo_history_wf (root_of_ok _ _) _
    demo_signed_wf (root_of_ok _ _))).
  1-2: vm_compute; reflexivity.
  - split; [done|]. split; [done|]. split; vm_compute; reflexivity.
  - vm_compute. reflexivity.
Defined.
