(* ===== verification/EventLog.v ===== *)
(** * The durable event log

    [storage/src/event_log.rs]: every inserted event with its record, by log
    position and by hash, in two keyspaces of one [fjall] database that are
    written in atomic batches.  The write lock serialises the operations; it
    is never poisoned unless one of them panics, so [Poisoned] does not
    arise in a run. *)

From S2P Require Import Prelude Codec External Primitives Membership Graph Insert Retain Reconnect.

(** ** The database

    The [fjall] crate is not part of the repository.  What the log uses of it:
    three ordered maps of byte strings, seen through [log_view]; an operation
    that reports success has done its work, and a batch is applied completely
    or not at all, whatever it reports. *)

Inductive log_space := BySeq | ByHash | RosterSpace.

#[export] Instance log_space_eq_dec : EqDecision log_space.
Proof. solve_decision. Defined.

Inductive batch_op :=
| BatchInsert (space : log_space) (key value : bytes)
| BatchRemove (space : log_space) (key : bytes).

Abbreviation log_maps := (log_space → gmap bytes bytes).

Definition write_space (space : log_space) (m : gmap bytes bytes) (v : log_maps) : log_maps :=
  λ s, if decide (s = space) then m else v s.

Definition run_batch_op (v : log_maps) (op : batch_op) : log_maps :=
  match op with
  | BatchInsert space key value => write_space space (<[key := value]> (v space)) v
  | BatchRemove space key => write_space space (delete key (v space)) v
  end.

Class LogDb := {
  log_db : Type;
  log_db_error : Type;
  log_view : log_db → log_maps;
  db_get : log_db → log_space → bytes → res log_db_error (option bytes);
  db_iter : log_db → log_space → res log_db_error (list (bytes * bytes));
  db_last_key : log_db → log_space → res log_db_error (option bytes);
  db_len : log_db → log_space → res log_db_error nat;
  db_insert : log_space → bytes → bytes → stM log_db log_db_error unit;
  db_commit : list batch_op → stM log_db log_db_error unit;
  db_sync : log_db → res log_db_error unit;
  db_get_Ok : ∀ db s k o, db_get db s k = Ok o → o = log_view db s !! k;
  db_iter_Ok : ∀ db s l, db_iter db s = Ok l → l = bt_entries bytes_le (log_view db s);
  db_last_key_Ok : ∀ db s o, db_last_key db s = Ok o →
    o = fst <$> last (bt_entries bytes_le (log_view db s));
  db_len_Ok : ∀ db s n, db_len db s = Ok n → n = size (log_view db s);
  db_insert_Ok : ∀ s k v db db', db_insert s k v db = (Ok tt, db') →
    ∀ s', log_view db' s' = run_batch_op (log_view db) (BatchInsert s k v) s';
  db_commit_Ok : ∀ ops db db', db_commit ops db = (Ok tt, db') →
    ∀ s, log_view db' s = foldl run_batch_op (log_view db) ops s;
  db_commit_atomic : ∀ ops r db db', db_commit ops db = (r, db') →
    (∀ s, log_view db' s = foldl run_batch_op (log_view db) ops s) ∨
    (∀ s, log_view db' s = log_view db s);
  db_get_safe : ∀ db s k, no_crash (db_get db s k);
  db_commit_safe : ∀ ops db, no_crash (db_commit ops db).1;
}.

(** [EventLogError]; the text of the cause is left out of [Corrupt]. *)
Inductive EventLogError `{LogDb} :=
| LogIo (e : log_db_error)
| Corrupt (reason : string)
| Poisoned.

Record EventLog `{LogDb} := mkEventLog { log_handle : log_db; next_seq : N }.

Section log.
Context `{Sha256} `{L : LogDb}.

Definition set_handle (db : log_db) (log : EventLog) : EventLog := mkEventLog L db (next_seq log).
Definition set_next_seq (n : N) (log : EventLog) : EventLog := mkEventLog L (log_handle log) n.

Abbreviation log_action := (stM EventLog EventLogError).

Definition log_io {A} (m : res log_db_error A) : res EventLogError A := map_err LogIo m.

(** A write to the database. *)
Definition log_write (m : stM log_db log_db_error unit) : log_action unit := λ log,
  let (r, db) := m (log_handle log) in (log_io r, set_handle db log).

Definition log_get (space : log_space) (key : bytes) : log_action (option bytes) :=
  st_lift (λ log, log_io (db_get (log_handle log) space key)).

(** ** Values *)

Definition encode_value {E} (log_seq : N) (record : RetainedEvent) : res E bytes :=
  match encode_retained_event record with
  | Ok encoded => Ok (u64_be log_seq ++ encoded)
  | Err _ => Crash Panicked
  | Crash c => Crash c
  end.

Definition decode_value (bs : bytes) : res unit (N * RetainedEvent) :=
  if decide (length bs < 8) then Err tt else
  record ← decode_retained_event (drop 8 bs);
  mret (of_be (take 8 bs), record).

Definition decode_stored (bs : bytes) : res EventLogError (N * RetainedEvent) :=
  map_err (λ _, Corrupt "stored record undecodable") (decode_value bs).

(** ** Opening *)

Definition recover_next_seq (db : log_db) : res EventLogError N :=
  last ← log_io (db_last_key db BySeq);
  match last with
  | None => mret 0%N
  | Some key =>
      if decide (length key < 8) then Err (Corrupt "by_seq key too short") else
      ok_or (u64_checked_add (of_be (take 8 key)) 1) (Corrupt "by_seq key space exhausted; refusing to wrap")
  end.

(** [EventLog::open] on the opened database. *)
Definition open (db : log_db) : res EventLogError EventLog :=
  next ← recover_next_seq db; mret (mkEventLog L db next).

(** ** Operations *)

Definition write_both (log_seq : N) (hash : EventHash) (record : RetainedEvent) : log_action unit :=
  value ← st_lift (λ _, encode_value log_seq record);
  log_write (db_commit [BatchInsert BySeq (u64_be log_seq) value; BatchInsert ByHash hash value]).

Definition with_ordering (round_received : option N) (ts : option Timestamp) (r : RetainedEvent) : RetainedEvent :=
  {| re_event := re_event r; re_seq := re_seq r; re_round := re_round r;
     re_ancestor_seqs := re_ancestor_seqs r; re_round_received := round_received;
     re_consensus_timestamp := ts |}.

Definition append (record : RetainedEvent) : log_action bool :=
  hash ← st_lift (λ _, map_err (λ _, Corrupt "hash failed") (event_hash (re_event record)));
  existing ← log_get ByHash hash;
  match existing with
  | Some value =>
      stored ← st_lift (λ _, decode_stored value);
      (if decide (re_round_received stored.2 = None ∧ is_Some (re_round_received record))
       then write_both stored.1 hash
              (with_ordering (re_round_received record) (re_consensus_timestamp record) stored.2)
       else mret tt) ;;
      mret false
  | None =>
      log ← st_get;
      let log_seq := next_seq log in
      if decide (log_seq = u64_max) then st_fail (Corrupt "by_seq key space exhausted; refusing to wrap") else
      st_modify (set_next_seq (log_seq + 1)) ;;
      write_both log_seq hash record ;;
      mret true
  end.

Definition set_ordering (hash : EventHash) (round_received : N) (ts : option Timestamp) : log_action unit :=
  existing ← log_get ByHash hash;
  match existing with
  | None => mret tt
  | Some value =>
      stored ← st_lift (λ _, decode_stored value);
      if decide (is_Some (re_round_received stored.2)) then mret tt else
      write_both stored.1 hash (with_ordering (Some round_received) ts stored.2)
  end.

Fixpoint decode_all (l : list (bytes * bytes)) : res EventLogError (list RetainedEvent) :=
  match l with
  | [] => mret []
  | e :: l => stored ← decode_stored e.2; records ← decode_all l; mret (stored.2 :: records)
  end.

Definition replay (log : EventLog) : res EventLogError (list RetainedEvent) :=
  entries ← log_io (db_iter (log_handle log) BySeq); decode_all entries.

Definition log_contains (log : EventLog) (hash : EventHash) : res EventLogError bool :=
  o ← log_io (db_get (log_handle log) ByHash hash); mret (bool_decide (is_Some o)).

Definition event_count (log : EventLog) : res EventLogError nat := log_io (db_len (log_handle log) BySeq).

(** The batch of removals; unknown hashes are skipped. *)
Fixpoint prune_batch (hashes : list EventHash) : log_action (list batch_op) :=
  match hashes with
  | [] => mret []
  | hash :: hashes =>
      existing ← log_get ByHash hash;
      ops ← match existing with
            | None => mret []
            | Some value =>
                stored ← st_lift (λ _, decode_stored value);
                mret [BatchRemove BySeq (u64_be stored.1); BatchRemove ByHash hash]
            end;
      rest ← prune_batch hashes;
      mret (ops ++ rest)
  end.

Definition log_prune (hashes : list EventHash) : log_action unit :=
  match hashes with
  | [] => mret tt
  | _ =>
      batch ← prune_batch hashes;
      match batch with [] => mret tt | _ => log_write (db_commit batch) end
  end.

Definition ROSTER_HISTORY_KEY : bytes := String.list_byte_of_string "history".

Definition log_roster_history (log : EventLog) : res EventLogError (option bytes) :=
  log_io (db_get (log_handle log) RosterSpace ROSTER_HISTORY_KEY).

Definition set_roster_history (bs : bytes) : log_action unit :=
  log_write (db_insert RosterSpace ROSTER_HISTORY_KEY bs).

Definition log_flush (log : EventLog) : res EventLogError unit := log_io (db_sync (log_handle log)).

(** ** [EventSink]: errors are printed and dropped *)

Definition sink {A} (m : log_action A) : stM EventLog unit unit := λ log,
  let (r, log') := m log in (match r with Crash c => Crash c | _ => Ok tt end, log').

Definition sink_append (record : RetainedEvent) : stM EventLog unit unit := sink (append record).
Definition sink_set_ordering (hash : EventHash) (rr : N) (ts : option Timestamp) : stM EventLog unit unit :=
  sink (set_ordering hash rr ts).
Definition sink_set_roster_history (bs : bytes) : stM EventLog unit unit := sink (set_roster_history bs).
Definition sink_prune (hashes : list EventHash) : stM EventLog unit unit := sink (log_prune hashes).
End log.

(** ** A database in memory, for evaluating the model *)

Definition memory_db : LogDb.
Proof.
  refine {| log_db := gmap bytes bytes * gmap bytes bytes * gmap bytes bytes; log_db_error := Empty_set;
    log_view := λ db s, match s with BySeq => db.1.1 | ByHash => db.1.2 | RosterSpace => db.2 end;
    db_get := λ db s k, Ok (match s with BySeq => db.1.1 | ByHash => db.1.2 | RosterSpace => db.2 end !! k);
    db_iter := λ db s, Ok (bt_entries bytes_le (match s with BySeq => db.1.1 | ByHash => db.1.2 | RosterSpace => db.2 end));
    db_last_key := λ db s, Ok (fst <$> last (bt_entries bytes_le
       (match s with BySeq => db.1.1 | ByHash => db.1.2 | RosterSpace => db.2 end)));
    db_len := λ db s, Ok (size (match s with BySeq => db.1.1 | ByHash => db.1.2 | RosterSpace => db.2 end));
    db_insert := λ s k v db, (Ok tt, match s with
       | BySeq => (<[k := v]> db.1.1, db.1.2, db.2) | ByHash => (db.1.1, <[k := v]> db.1.2, db.2)
       | RosterSpace => (db.1.1, db.1.2, <[k := v]> db.2) end);
    db_commit := λ ops db, (Ok tt,
       let v := foldl run_batch_op (λ s, match s with BySeq => db.1.1 | ByHash => db.1.2 | RosterSpace => db.2 end) ops in
       (v BySeq, v ByHash, v RosterSpace));
    db_sync := λ _, Ok tt |}; try (by intros; simplify_eq); try done.
  - by intros [] k v db db' [= <-] [].
  - by intros ops db db' [= <-] [].
  - intros ops r db db' [= _ <-]. left. by intros [].
Defined.
