(* ===== verification/EventLogFacts.v ===== *)
(** * The event log as a list of records

    The two keyspaces of [EventLog] represent one list of records in insertion
    order without duplicates ([represents]); every operation acts on it as the
    abstract operation does ([spec_op]), also when the database reports an
    error, and a reopened log represents the same list. *)

From S2P Require Import Prelude Codec External Primitives Membership Graph Insert Retain Reconnect EventLog.

(** ** Big-endian keys sort like numbers *)

Lemma of_be_cons b l : of_be (b :: l) = (Byte.to_N b * 256 ^ N.of_nat (length l) + of_be l)%N.
Proof.
  induction l as [|c l IH] using rev_ind.
  { change [b] with ([] ++ [b]). rewrite of_be_snoc. change (of_be []) with 0%N. simpl. lia. }
  rewrite app_comm_cons, !of_be_snoc, IH, length_app, Nat2N.inj_add. simpl (length [c]).
  rewrite N.pow_add_r. lia.
Qed.

Lemma bytes_leb_of_be l1 l2 : length l1 = length l2 → bytes_leb l1 l2 = (of_be l1 <=? of_be l2)%N.
Proof.
  revert l2. induction l1 as [|b1 l1 IH]; intros [|b2 l2] Hl; try done. injection Hl as Hl.
  cbn [bytes_leb]. rewrite !of_be_cons, Hl, (IH l2 Hl).
  pose proof (of_be_lt l1) as H1. pose proof (of_be_lt l2) as H2. rewrite Hl in H1.
  set (p := (256 ^ N.of_nat (length l2))%N) in *.
  case_decide as Hb.
  - subst b2. destruct (N.leb_spec (of_be l1) (of_be l2)), (N.leb_spec (Byte.to_N b1 * p + of_be l1) (Byte.to_N b1 * p + of_be l2)); lia.
  - assert (Byte.to_N b1 ≠ Byte.to_N b2) as Hne by (by intros ?%to_N_inj).
    destruct (N.ltb_spec (Byte.to_N b1) (Byte.to_N b2)), (N.leb_spec (Byte.to_N b1 * p + of_be l1) (Byte.to_N b2 * p + of_be l2)); nia.
Qed.

Lemma u64_be_le a b : is_u64 a → is_u64 b → bytes_le (u64_be a) (u64_be b) ↔ (a ≤ b)%N.
Proof.
  intros Ha Hb. unfold bytes_le. rewrite bytes_leb_of_be by (by rewrite !length_be_bytes).
  rewrite (of_be_be_bytes 8 a Ha), (of_be_be_bytes 8 b Hb). apply N.leb_le.
Qed.

(** ** Maps given by a list *)

Section keyed.
Context {A V K : Type} `{Countable K} (key : A → K) (val : A → V).

Abbreviation keyed l := (list_to_map ((λ a, (key a, val a)) <$> l) : gmap K V).

Lemma keyed_lookup l k v :
  NoDup (key <$> l) → (keyed l !! k = Some v ↔ ∃ a, a ∈ l ∧ key a = k ∧ val a = v).
Proof.
  intros Hnd. rewrite <- elem_of_list_to_map, list_elem_of_fmap; [|by rewrite <- list_fmap_compose].
  split; [intros (a & [= -> ->] & Ha); by eauto|intros (a & Ha & <- & <-); by eauto].
Qed.

Lemma keyed_None l k : keyed l !! k = None ↔ k ∉ key <$> l.
Proof. rewrite <- not_elem_of_list_to_map, <- list_fmap_compose. done. Qed.

Lemma keyed_snoc l a : key a ∉ key <$> l → keyed (l ++ [a]) = <[key a := val a]> (keyed l).
Proof. intros Hk. rewrite fmap_app. simpl. apply list_to_map_snoc. by rewrite <- list_fmap_compose. Qed.

Lemma keyed_update l i a a' :
  NoDup (key <$> l) → l !! i = Some a → key a' = key a →
  keyed (<[i := a']> l) = <[key a := val a']> (keyed l).
Proof.
  intros Hnd Hi Hk. revert i Hi Hnd. induction l as [|b l IH]; intros [|i] Hi Hnd; [done..| |]; simpl in *.
  - injection Hi as ->. by rewrite insert_insert_eq, Hk.
  - apply NoDup_cons in Hnd as [Hb Hnd]. rewrite IH by done. apply insert_insert_ne. intros Heq.
    apply Hb. rewrite Heq. apply list_elem_of_fmap_2. by eapply list_elem_of_lookup_2.
Qed.

Lemma keyed_delete l k : delete k (keyed l) = keyed (filter (λ a, key a ≠ k) l).
Proof.
  induction l as [|b l IH]; [apply delete_empty|]. rewrite filter_cons. case_decide as Hb; csimpl.
  - by rewrite delete_insert_ne, IH by done.
  - subst k. by rewrite delete_insert_eq, IH.
Qed.
End keyed.

Lemma filter_ext_in {A} (P Q : A → Prop) `{!∀ x, Decision (P x), !∀ x, Decision (Q x)} (l : list A) :
  (∀ x, x ∈ l → P x ↔ Q x) → filter P l = filter Q l.
Proof.
  induction l as [|a l IH]; intros Hl; [done|]. rewrite !filter_cons, IH by (intros x Hx; apply Hl; by right).
  destruct (Hl a) as [H1 H2]; [by left|]. by destruct (decide (P a)), (decide (Q a)); auto; exfalso; auto.
Qed.

Lemma filter_fmap {A B} (f : A → B) (P : B → Prop) `{!∀ x, Decision (P x)} (l : list A) :
  filter P (f <$> l) = f <$> filter (λ a, P (f a)) l.
Proof. induction l as [|a l IH]; [done|]. csimpl. rewrite !filter_cons, IH. by case_decide. Qed.

(** ** The abstract log *)

Section spec.
Context `{Sha256}.

Definition record_hash (r : RetainedEvent) : EventHash :=
  match event_hash (re_event r) with Ok h => h | _ => [] end.

(** Fill in the ordering of the event [h], unless it has one. *)
Definition merge_ordering (h : EventHash) (rr : option N) (ts : option Timestamp)
    (l : list RetainedEvent) : list RetainedEvent :=
  (λ r, if decide (record_hash r = h ∧ re_round_received r = None) then with_ordering rr ts r else r) <$> l.

Inductive log_op :=
| OpAppend (record : RetainedEvent)
| OpSetOrdering (hash : EventHash) (round_received : N) (ts : option Timestamp)
| OpPrune (hashes : list EventHash).

Definition spec_op (op : log_op) (l : list RetainedEvent) : list RetainedEvent :=
  match op with
  | OpAppend r =>
      if decide (record_hash r ∈ record_hash <$> l) then
        if decide (is_Some (re_round_received r))
        then merge_ordering (record_hash r) (re_round_received r) (re_consensus_timestamp r) l
        else l
      else l ++ [r]
  | OpSetOrdering h rr ts => merge_ordering h (Some rr) ts l
  | OpPrune hashes => filter (λ r, record_hash r ∉ hashes) l
  end.

Definition run_op `{L : LogDb} (op : log_op) : stM EventLog EventLogError unit :=
  match op with
  | OpAppend r => append r ;; mret tt
  | OpSetOrdering h rr ts => set_ordering h rr ts
  | OpPrune hashes => log_prune hashes
  end.

(** ** Representation *)

Definition record_bytes (r : RetainedEvent) : bytes :=
  match encode_retained_event r with Ok w => w | _ => [] end.

(** A record whose fields fit the format. *)
Record storable (r : RetainedEvent) : Prop := {
  so_wf : wf_retained r;
  so_bytes : encode_retained_event r = Ok (record_bytes r);
  so_hash : event_hash (re_event r) = Ok (record_hash r);
}.

Definition op_ok (op : log_op) : Prop :=
  match op with
  | OpAppend r => storable r
  | OpSetOrdering _ rr ts => is_u64 rr ∧ wf_opt_u64 ts
  | OpPrune _ => True
  end.

Abbreviation entry := (N * RetainedEvent)%type.

Definition stored_value (e : entry) : bytes := u64_be e.1 ++ record_bytes e.2.
Definition seq_key (e : entry) : bytes := u64_be e.1.
Definition hash_key (e : entry) : bytes := record_hash e.2.

Definition seq_map (l : list entry) : gmap bytes bytes := list_to_map ((λ e, (seq_key e, stored_value e)) <$> l).
Definition hash_map (l : list entry) : gmap bytes bytes := list_to_map ((λ e, (hash_key e, stored_value e)) <$> l).

(** The maps and the counter are those of the entries [l]. *)
Record entries_wf (next : N) (l : list entry) : Prop := {
  ew_sorted : StronglySorted N.lt l.*1;
  ew_next : Forall (λ e, (e.1 < next)%N) l;
  ew_bound : (next ≤ u64_max)%N;
  ew_distinct : NoDup (hash_key <$> l);
  ew_storable : Forall (λ e, storable e.2) l;
}.

Definition represents `{L : LogDb} (log : EventLog) (l : list entry) : Prop :=
  log_view (log_handle log) BySeq = seq_map l ∧ log_view (log_handle log) ByHash = hash_map l ∧
  entries_wf (next_seq log) l.

Lemma entry_u64 next l e : entries_wf next l → e ∈ l → is_u64 e.1.
Proof.
  intros Hw He. pose proof (ew_bound _ _ Hw). eapply Forall_forall in He; [|exact (ew_next _ _ Hw)].
  unfold u64_max, is_u64 in *. simpl in He. lia.
Qed.

Lemma seq_keys_NoDup next l : entries_wf next l → NoDup (seq_key <$> l).
Proof.
  intros Hw. change (seq_key <$> l) with ((u64_be ∘ fst) <$> l). rewrite (list_fmap_compose fst u64_be).
  apply NoDup_fmap_2_strong.
  - intros a b (ea & -> & Ha)%list_elem_of_fmap (eb & -> & Hb)%list_elem_of_fmap Heq.
    apply be_bytes_inj in Heq; [done|exact (entry_u64 _ _ _ Hw Ha)|exact (entry_u64 _ _ _ Hw Hb)].
  - clear -Hw. destruct Hw as [Hs _ _ _ _]. induction Hs as [|x l' _ IH Hf]; constructor; [|done].
    intros Hin. eapply Forall_forall in Hf; [|exact Hin]. lia.
Qed.

Lemma decode_stored_value next l e :
  entries_wf next l → e ∈ l → decode_value (stored_value e) = Ok e.
Proof.
  intros Hw He. pose proof (entry_u64 _ _ _ Hw He) as Hn.
  pose proof (ew_storable _ _ Hw) as Hso. eapply Forall_forall in Hso as [Hwf Hb _]; [|exact He].
  unfold decode_value, stored_value.
  rewrite decide_False by (rewrite length_app, length_be_bytes; lia).
  rewrite drop_app_length', take_app_length' by (by rewrite length_be_bytes).
  rewrite (decode_encode_retained _ _ Hwf Hb). simpl. rewrite (of_be_be_bytes 8 _ Hn). by destruct e.
Qed.

(** ** Replay *)

Lemma seq_map_entries next l :
  entries_wf next l → bt_entries bytes_le (seq_map l) = (λ e, (seq_key e, stored_value e)) <$> l.
Proof.
  intros Hw. apply (bt_entries_list_to_map bytes_le).
  - rewrite <- list_fmap_compose. by eapply seq_keys_NoDup.
  - pose proof (ew_sorted _ _ Hw) as Hs.
    assert (Forall (λ e : entry, is_u64 e.1) l) as Hu by (apply Forall_forall; intros e; by eapply entry_u64).
    clear Hw. induction l as [|e l IH]; [constructor|]. apply Forall_cons in Hu as [He Hu].
    apply StronglySorted_inv in Hs as [Hs Hf]. constructor; [by apply IH|].
    apply Forall_forall. intros p (e' & -> & Hin)%list_elem_of_fmap.
    rewrite Forall_forall in Hf. rewrite Forall_forall in Hu. apply u64_be_le; [done|by apply Hu|]. apply N.lt_le_incl, Hf.
    by apply list_elem_of_fmap_2.
Qed.

Lemma decode_all_entries `{L : LogDb} next l l' :
  entries_wf next l' → (∀ e, e ∈ l → e ∈ l') →
  decode_all ((λ e, (seq_key e, stored_value e)) <$> l) = Ok l.*2.
Proof.
  intros Hw. induction l as [|e l IH]; intros Hin; [done|]. csimpl. unfold decode_stored.
  rewrite (decode_stored_value _ _ e Hw) by (apply Hin; by left). csimpl.
  rewrite IH; [done|]. intros e' He'. apply Hin. by right.
Qed.

(** A replay that succeeds returns the records in insertion order. *)
Lemma replay_represents `{L : LogDb} log l :
  represents log l → ∀ entries, db_iter (log_handle log) BySeq = Ok entries → replay log = Ok l.*2.
Proof.
  intros (Hs & _ & Hw) entries Hi. unfold replay. rewrite Hi. apply db_iter_Ok in Hi as ->.
  rewrite Hs, (seq_map_entries _ _ Hw). simpl. by eapply decode_all_entries.
Qed.

(** ** Writing one record *)

Lemma storable_ordering r rr ts :
  storable r → wf_opt_u64 rr → wf_opt_u64 ts → storable (with_ordering rr ts r).
Proof.
  intros [[He Hs Hr Ha _ _] Hb Hh] Hrr Hts. split; [by split| |done].
  unfold record_bytes. destruct (encode_retained_event (with_ordering rr ts r)) as [w| |] eqn:Hw; [done|..]; exfalso.
  all: apply res_bind_Ok in Hb as (al & Hal & (eb & Heb & (el & Hel & _)%res_bind_Ok)%res_bind_Ok).
  all: unfold encode_retained_event in Hw; simpl in Hw; rewrite Hal in Hw; simpl in Hw; rewrite Heb in Hw; simpl in Hw.
  all: rewrite Hel in Hw; done.
Qed.

Lemma write_both_run `{L : LogDb} n r (log : EventLog) res log' :
  storable r → write_both n (record_hash r) r log = (res, log') →
  no_crash res ∧ next_seq log' = next_seq log ∧
  ((log_view (log_handle log') BySeq = <[u64_be n := stored_value (n, r)]> (log_view (log_handle log) BySeq) ∧
    log_view (log_handle log') ByHash = <[record_hash r := stored_value (n, r)]> (log_view (log_handle log) ByHash)) ∨
   (res ≠ Ok tt ∧ ∀ s, log_view (log_handle log') s = log_view (log_handle log) s)).
Proof.
  intros Hr. unfold write_both, encode_value. rewrite (so_bytes _ Hr). simpl.
  unfold mbind, stM_bind, st_lift, log_write. simpl.
  set (ops := [BatchInsert BySeq _ _; _]). pose proof (db_commit_safe ops (log_handle log)) as Hsafe.
  destruct (db_commit ops (log_handle log)) as [r' db'] eqn:Hc. intros [= <- <-]. simpl.
  split; [destruct r' as [|e|c]; [done|done|by destruct (Hsafe c)]|]. split; [done|].
  destruct (db_commit_atomic _ _ _ _ Hc) as [Hv|Hv]; [left; by split; rewrite Hv|].
  destruct r' as [[]|e|c]; [left|right; by split|right; by split].
  pose proof (db_commit_Ok _ _ _ Hc) as Hv'. by split; rewrite Hv'.
Qed.

Lemma hash_map_lookup next l h v :
  entries_wf next l → hash_map l !! h = Some v ↔ ∃ i e, l !! i = Some e ∧ hash_key e = h ∧ stored_value e = v.
Proof.
  intros Hw. unfold hash_map. rewrite keyed_lookup by apply (ew_distinct _ _ Hw). split.
  - intros (e & [i Hi]%list_elem_of_lookup & <- & <-). by eauto.
  - intros (i & e & Hi%list_elem_of_lookup_2 & <- & <-). by eauto.
Qed.

Lemma hash_map_None l h : hash_map l !! h = None ↔ h ∉ record_hash <$> l.*2.
Proof. unfold hash_map. rewrite keyed_None, <- list_fmap_compose. done. Qed.

(** ** Replacing the record of an entry *)

Lemma entries_update next l i e r' :
  entries_wf next l → l !! i = Some e → storable r' → record_hash r' = hash_key e →
  entries_wf next (<[i := (e.1, r')]> l) ∧
  seq_map (<[i := (e.1, r')]> l) = <[seq_key e := stored_value (e.1, r')]> (seq_map l) ∧
  hash_map (<[i := (e.1, r')]> l) = <[hash_key e := stored_value (e.1, r')]> (hash_map l).
Proof.
  intros Hw Hi Hr Hh. split_and!.
  - assert ((<[i := (e.1, r')]> l).*1 = l.*1) as H1
      by (rewrite list_fmap_insert; apply list_insert_id; by rewrite list_lookup_fmap, Hi).
    assert (hash_key <$> <[i := (e.1, r')]> l = hash_key <$> l) as H2.
    { rewrite list_fmap_insert. apply list_insert_id. rewrite list_lookup_fmap, Hi. simpl. by rewrite <- Hh. }
    split; [rewrite H1; apply Hw| |apply Hw|rewrite H2; apply Hw|].
    + apply Forall_insert; [apply Hw|]. simpl. apply list_elem_of_lookup_2 in Hi.
      eapply Forall_forall in Hi; [|exact (ew_next _ _ Hw)]. done.
    + apply Forall_insert; [apply Hw|done].
  - apply keyed_update; [by eapply seq_keys_NoDup|done|done].
  - apply keyed_update; [apply (ew_distinct _ _ Hw)|done|done].
Qed.

Lemma merge_ordering_update next l i e rr ts :
  entries_wf next l → l !! i = Some e → re_round_received e.2 = None →
  (<[i := (e.1, with_ordering rr ts e.2)]> l).*2 = merge_ordering (hash_key e) rr ts l.*2.
Proof.
  intros Hw Hi Hn. unfold merge_ordering. rewrite list_fmap_insert. apply list_eq. intros j.
  rewrite list_lookup_fmap. destruct (decide (i = j)) as [<-|Hne].
  - rewrite list_lookup_insert_eq by (rewrite length_fmap; by eapply lookup_lt_Some).
    rewrite list_lookup_fmap, Hi. simpl. by rewrite decide_True.
  - rewrite list_lookup_insert_ne, list_lookup_fmap by done. destruct (l !! j) as [e'|] eqn:Hj; [|done]. simpl.
    rewrite decide_False; [done|]. intros [Heq _]. apply Hne.
    eapply (NoDup_lookup (hash_key <$> l) i j (hash_key e)); [apply Hw|by rewrite list_lookup_fmap, Hi|].
    rewrite list_lookup_fmap, Hj. simpl. by f_equal.
Qed.

Lemma merge_ordering_id h rr ts l :
  (∀ r, r ∈ l → record_hash r = h → re_round_received r ≠ None) → merge_ordering h rr ts l = l.
Proof.
  intros Hl. unfold merge_ordering. transitivity (id <$> l); [|apply list_fmap_id].
  apply list_fmap_ext. intros i r Hr. rewrite decide_False; [done|]. intros [Hh Hn]. eapply Hl; [by eapply list_elem_of_lookup_2|done|done].
Qed.

(** The record of a hash that has an ordering already stays as it is. *)
Lemma merge_ordering_done next l i e rr ts :
  entries_wf next l → l !! i = Some e → re_round_received e.2 ≠ None →
  merge_ordering (hash_key e) rr ts l.*2 = l.*2.
Proof.
  intros Hw Hi Hn. apply merge_ordering_id. intros r [j Hj]%list_elem_of_lookup Hh.
  rewrite list_lookup_fmap in Hj. destruct (l !! j) as [e'|] eqn:Hj'; [|done]. injection Hj as <-.
  assert (i = j) as <-; [|by simplify_eq].
  eapply (NoDup_lookup (hash_key <$> l) i j (hash_key e)); [apply Hw|by rewrite list_lookup_fmap, Hi|].
  rewrite list_lookup_fmap, Hj'. simpl. by f_equal.
Qed.

(** ** Every operation *)

Section ops.
Context `{L : LogDb}.

(** What a run may leave behind: after success the records [f], after an error
    those or the old ones. *)
Definition lands {A} (l : list entry) (f : list RetainedEvent) (out : res EventLogError A * EventLog) : Prop :=
  no_crash out.1 ∧ ∃ l', represents out.2 l' ∧
    ((∃ a, out.1 = Ok a) → l'.*2 = f) ∧ (l'.*2 = l.*2 ∨ l'.*2 = f).

Lemma lands_stay {A} (r : res EventLogError A) log l f :
  represents log l → no_crash r → ((∃ a, r = Ok a) → l.*2 = f) → lands l f (r, log).
Proof. intros Hr Hc Hf. split; [done|]. exists l. auto. Qed.

Lemma lands_error {A} (e : EventLogError) log l f : represents log l → lands l f (Err e : res _ A, log).
Proof. intros Hr. apply lands_stay; [done..|]. by intros [a ?]. Qed.

Lemma lands_ret {A B} (m : stM EventLog EventLogError A) (b : B) log l f :
  lands l f (m log) → lands l f ((m ;; mret b) log).
Proof.
  unfold lands, mbind, stM_bind. destruct (m log) as [[a|e|c] log']; simpl; [| |by intros [Hc _]; destruct (Hc c)].
  all: intros (_ & l' & Hr & Hok & Hor); split; [done|]; exists l'; split; [done|]; split; [|done].
  - intros _. by apply Hok; exists a.
  - by intros [? ?].
Qed.

Lemma lands_get {A} s k (f : option bytes → stM EventLog EventLogError A) log l t :
  represents log l → lands l t (f (log_view (log_handle log) s !! k) log) →
  lands l t ((o ← log_get s k; f o) log).
Proof.
  intros Hrep. unfold mbind, stM_bind, log_get, st_lift. pose proof (db_get_safe (log_handle log) s k) as Hsafe.
  destruct (db_get (log_handle log) s k) as [o|e|c] eqn:Hg; simpl.
  - by apply db_get_Ok in Hg as ->.
  - intros _. by apply lands_error.
  - by destruct (Hsafe c).
Qed.

Lemma represents_views log log' l :
  represents log l → (∀ s, log_view (log_handle log') s = log_view (log_handle log) s) →
  (next_seq log ≤ next_seq log')%N → (next_seq log' ≤ u64_max)%N → represents log' l.
Proof.
  intros (Hs & Hh & [Hso Hn _ Hd Hst]) Hv Hle Hb. split; [by rewrite Hv|]. split; [by rewrite Hv|].
  split; [done| |done..]. eapply Forall_impl; [exact Hn|]. intros e He. simpl in *. lia.
Qed.

(** Overwriting the ordering of a stored event. *)
Lemma write_ordering log l i e rr ts :
  represents log l → l !! i = Some e → re_round_received e.2 = None → wf_opt_u64 rr → wf_opt_u64 ts →
  lands l (merge_ordering (hash_key e) rr ts l.*2) (write_both e.1 (hash_key e) (with_ordering rr ts e.2) log).
Proof.
  intros Hrep Hi Hn Hrr Hts. pose proof Hrep as (Hs & Hh & Hw).
  assert (storable (with_ordering rr ts e.2)) as Hso.
  { apply storable_ordering; [|done..]. apply list_elem_of_lookup_2 in Hi.
    pose proof (ew_storable _ _ Hw) as Hf. by eapply Forall_forall in Hf. }
  destruct (write_both e.1 _ _ log) as [res log'] eqn:Hrun.
  destruct (write_both_run e.1 (with_ordering rr ts e.2) log res log' Hso Hrun) as (Hc & Hnext & Hv).
  split; [done|]. destruct Hv as [[Hv1 Hv2]|[Hne Hv]]; simpl.
  - destruct (entries_update _ l i e (with_ordering rr ts e.2) Hw Hi Hso eq_refl) as (Hw' & Hs' & Hh').
    exists (<[i := (e.1, with_ordering rr ts e.2)]> l). rewrite (merge_ordering_update _ _ _ _ _ _ Hw Hi Hn).
    split; [|by auto]. split; [rewrite Hv1, Hs, Hs'; done|]. split; [rewrite Hv2, Hh, Hh'; done|]. by rewrite Hnext.
  - exists l. split; [|split; [by intros [[] ?]|by left]].
    eapply represents_views; [exact Hrep|done|by rewrite Hnext|rewrite Hnext; apply Hw].
Qed.

(** A stored value decodes to the entry it was written for. *)
Lemma stored_entry log l h v :
  represents log l → log_view (log_handle log) ByHash !! h = Some v →
  ∃ i e, l !! i = Some e ∧ hash_key e = h ∧ decode_stored v = Ok e.
Proof.
  intros (_ & Hh & Hw) Hl. rewrite Hh in Hl. apply (hash_map_lookup _ _ _ _ Hw) in Hl as (i & e & Hi & <- & <-).
  exists i, e. split; [done|]. split; [done|]. unfold decode_stored.
  by rewrite (decode_stored_value _ _ _ Hw) by (by eapply list_elem_of_lookup_2).
Qed.

Lemma set_ordering_lands h rr ts log l :
  is_u64 rr → wf_opt_u64 ts → represents log l →
  lands l (merge_ordering h (Some rr) ts l.*2) (set_ordering h rr ts log).
Proof.
  intros Hrr Hts Hrep. pose proof Hrep as (Hs & Hh & Hw). apply lands_get; [done|].
  destruct (log_view (log_handle log) ByHash !! h) as [v|] eqn:Hl.
  - destruct (stored_entry _ _ _ _ Hrep Hl) as (i & e & Hi & <- & He).
    unfold mbind, stM_bind, st_lift. rewrite He. case_decide as Hd.
    + apply lands_stay; [done..|]. intros _. symmetry. eapply merge_ordering_done; [done..|].
      destruct Hd as [x Hx]. by rewrite Hx.
    + apply (write_ordering _ _ i); [done|done| |done|done]. by apply eq_None_not_Some.
  - apply lands_stay; [done..|]. intros _. symmetry. rewrite Hh in Hl. apply hash_map_None in Hl.
    apply merge_ordering_id. intros r Hr <-. by destruct Hl; apply list_elem_of_fmap_2.
Qed.

Lemma entries_append next l r :
  entries_wf next l → (next ≠ u64_max)%N → storable r → record_hash r ∉ record_hash <$> l.*2 →
  entries_wf (next + 1) (l ++ [(next, r)]) ∧
  seq_map (l ++ [(next, r)]) = <[u64_be next := stored_value (next, r)]> (seq_map l) ∧
  hash_map (l ++ [(next, r)]) = <[record_hash r := stored_value (next, r)]> (hash_map l).
Proof.
  intros Hw Hne Hr Hfresh. rewrite <- list_fmap_compose in Hfresh.
  assert (is_u64 next) as Hu by (pose proof (ew_bound _ _ Hw); unfold is_u64, u64_max in *; lia).
  split_and!.
  - destruct Hw as [Hs Hn Hb Hd Hst]. split.
    + rewrite fmap_app. apply StronglySorted_app_2; [|done|repeat constructor].
      intros a b (e & -> & He)%list_elem_of_fmap ->%list_elem_of_singleton. by eapply Forall_forall in Hn.
    + apply Forall_app. split; [|constructor; [simpl; lia|done]]. eapply Forall_impl; [exact Hn|]. simpl. lia.
    + unfold u64_max in *. lia.
    + rewrite fmap_app. apply NoDup_app. split; [done|]. split; [|apply NoDup_singleton].
      intros h Hh ->%list_elem_of_singleton. done.
    + apply Forall_app. split; [done|by apply Forall_singleton].
  - apply (keyed_snoc seq_key stored_value l (next, r)). intros (e & Heq & He)%list_elem_of_fmap.
    pose proof (entry_u64 _ _ _ Hw He) as Hue. apply be_bytes_inj in Heq; [|exact Hu|exact Hue].
    eapply Forall_forall in He; [|exact (ew_next _ _ Hw)]. simpl in *. lia.
  - by apply (keyed_snoc hash_key stored_value l (next, r)).
Qed.

Lemma append_new log l r :
  represents log l → storable r → record_hash r ∉ record_hash <$> l.*2 → next_seq log ≠ u64_max →
  lands l (l.*2 ++ [r]) (write_both (next_seq log) (record_hash r) r (set_next_seq (next_seq log + 1) log)).
Proof.
  intros Hrep Hr Hfresh Hn. pose proof Hrep as (Hs & Hh & Hw).
  destruct (write_both _ _ _ _) as [res log'] eqn:Hrun.
  destruct (write_both_run _ _ _ _ _ Hr Hrun) as (Hc & Hnext & Hv). split; [done|]. simpl in *.
  destruct (entries_append _ _ _ Hw Hn Hr Hfresh) as (Hw' & Hs' & Hh').
  destruct Hv as [[Hv1 Hv2]|[Hne Hv]].
  - exists (l ++ [(next_seq log, r)]). rewrite fmap_app. split; [|by auto].
    split; [by rewrite Hv1, Hs, Hs'|]. split; [by rewrite Hv2, Hh, Hh'|]. by rewrite Hnext.
  - exists l. split; [|split; [by intros [[] ?]|by left]].
    eapply represents_views; [exact Hrep|done| |]; rewrite Hnext; [lia|apply Hw'].
Qed.

Lemma append_lands r log l :
  storable r → represents log l → lands l (spec_op (OpAppend r) l.*2) (append r log).
Proof.
  intros Hr Hrep. pose proof Hrep as (Hs & Hh & Hw). pose proof Hr as [[_ _ _ _ Hrr Hts] _ Hhash].
  unfold append. rewrite Hhash. change (lands l (spec_op (OpAppend r) l.*2) ((existing ← log_get ByHash (record_hash r);
    match existing with
    | Some value => stored ← st_lift (λ _, decode_stored value);
      (if decide (re_round_received stored.2 = None ∧ is_Some (re_round_received r))
       then write_both stored.1 (record_hash r) (with_ordering (re_round_received r) (re_consensus_timestamp r) stored.2)
       else mret tt) ;; mret false
    | None => log ← st_get;
      if decide (next_seq log = u64_max) then st_fail (Corrupt "by_seq key space exhausted; refusing to wrap") else
      st_modify (set_next_seq (next_seq log + 1)) ;; write_both (next_seq log) (record_hash r) r ;; mret true
    end) log)).
  apply lands_get; [done|]. unfold spec_op.
  destruct (log_view (log_handle log) ByHash !! record_hash r) as [v|] eqn:Hl.
  - destruct (stored_entry _ _ _ _ Hrep Hl) as (i & e & Hi & He' & He).
    unfold mbind at 1, stM_bind at 1, st_lift. rewrite He.
    rewrite decide_True by (rewrite <- He'; apply (list_elem_of_fmap_2 record_hash), list_elem_of_fmap_2; by eapply list_elem_of_lookup_2).
    apply lands_ret. rewrite <- He'. case_decide as Hs1; case_decide as Hs2.
    + destruct Hs2 as [Hs2 _]. by apply (write_ordering _ _ i).
    + apply lands_stay; [done..|]. intros _. symmetry. eapply merge_ordering_done; [done..|]. intros Hn. by apply Hs2.
    + by destruct Hs2.
    + by apply lands_stay.
  - rewrite Hh in Hl. apply hash_map_None in Hl. rewrite decide_False by done.
    unfold mbind at 1, stM_bind at 1, st_get. case_decide as Hm; [by apply lands_error|].
    unfold mbind at 1, stM_bind at 1, st_modify. apply lands_ret. by apply append_new.
Qed.

(** With the positions used up nothing is appended. *)
Lemma append_exhausted r log l :
  storable r → represents log l → record_hash r ∉ record_hash <$> l.*2 → next_seq log = u64_max →
  ∃ e, append r log = (Err e, log).
Proof.
  intros Hr (_ & Hh & _) Hfresh Hmax. unfold append. rewrite (so_hash _ Hr).
  unfold log_get, st_lift, mbind, stM_bind. simpl.
  pose proof (db_get_safe (log_handle log) ByHash (record_hash r)) as Hsafe.
  destruct (db_get (log_handle log) ByHash (record_hash r)) as [o|e|c] eqn:Hg; simpl;
    [|by eexists|by destruct (Hsafe c)].
  apply db_get_Ok in Hg as ->. rewrite Hh, (proj2 (hash_map_None l (record_hash r)) Hfresh).
  unfold st_get. simpl. rewrite decide_True by done. by eexists.
Qed.

(** ** Removal *)

Lemma entries_filter next l (P : entry → Prop) `{!∀ e, Decision (P e)} :
  entries_wf next l → entries_wf next (filter P l).
Proof.
  intros [Hs Hn Hb Hd Hst]. split; [| |done| |].
  - clear -Hs. induction l as [|e l IH]; [done|]. csimpl in Hs. apply StronglySorted_inv in Hs as [Hs Hf].
    rewrite filter_cons. case_decide; csimpl; [|by apply IH]. constructor; [by apply IH|].
    apply Forall_forall. intros n (e' & -> & [_ He']%list_elem_of_filter)%list_elem_of_fmap.
    rewrite Forall_forall in Hf. by apply Hf, list_elem_of_fmap_2.
  - rewrite Forall_forall in Hn. apply Forall_forall. intros e [_ He]%list_elem_of_filter. by apply Hn.
  - eapply sublist_NoDup; [exact Hd|]. apply fmap_sublist, sublist_filter.
  - rewrite Forall_forall in Hst. apply Forall_forall. intros e [_ He]%list_elem_of_filter. by apply Hst.
Qed.

(** Two entries share their position exactly when they share their hash. *)
Lemma same_entry next l e e' :
  entries_wf next l → e ∈ l → e' ∈ l → seq_key e = seq_key e' ↔ hash_key e = hash_key e'.
Proof.
  intros Hw [i Hi]%list_elem_of_lookup [j Hj]%list_elem_of_lookup.
  assert (∀ (k : entry → bytes), NoDup (k <$> l) → k e = k e' → e = e') as Hk.
  { intros k Hnd Heq. assert (i = j) as <-; [|by simplify_eq].
    eapply (NoDup_lookup (k <$> l) i j (k e)); [done|by rewrite list_lookup_fmap, Hi|].
    rewrite list_lookup_fmap, Hj. simpl. by f_equal. }
  split; intros Heq; f_equal; [apply (Hk seq_key)|apply (Hk hash_key)]; try done;
    [by eapply seq_keys_NoDup|apply (ew_distinct _ _ Hw)].
Qed.

Abbreviation remaining h l := (filter (λ e, hash_key e ≠ h) l) (only parsing).

(** Removing an entry of the log from what is left of it. *)
Lemma remove_entry (next : N) (l l0 : list entry) (e : entry) (v : log_maps) :
  entries_wf next l → e ∈ l → (∀ e', e' ∈ l0 → e' ∈ l) →
  v BySeq = seq_map l0 → v ByHash = hash_map l0 →
  let v' := foldl run_batch_op v [BatchRemove BySeq (seq_key e); BatchRemove ByHash (hash_key e)] in
  v' BySeq = seq_map (remaining (hash_key e) l0) ∧ v' ByHash = hash_map (remaining (hash_key e) l0).
Proof.
  intros Hw He Hl0 Hs Hh v'. unfold v'; simpl. unfold write_space. simpl. rewrite Hs, Hh. split.
  - unfold seq_map. rewrite keyed_delete. do 3 f_equal. apply filter_ext_in.
    intros e' He'. by rewrite (same_entry next l e' e) by auto.
  - apply keyed_delete.
Qed.

Definition removals (l : list entry) (hashes : list EventHash) (ops : list batch_op) : Prop :=
  ∀ (l0 : list entry) (v : log_maps), (∀ e, e ∈ l0 → e ∈ l) → v BySeq = seq_map l0 → v ByHash = hash_map l0 →
    let l1 := filter (λ e, hash_key e ∉ hashes) l0 in
    foldl run_batch_op v ops BySeq = seq_map l1 ∧ foldl run_batch_op v ops ByHash = hash_map l1.

Lemma filter_cons_hash h hashes (l0 : list entry) :
  filter (λ e, hash_key e ∉ hashes) (remaining h l0) = filter (λ e, hash_key e ∉ h :: hashes) l0.
Proof. rewrite list_filter_filter. apply list_filter_iff. intros e. rewrite not_elem_of_cons. tauto. Qed.

Lemma removals_nil l : removals l [] [].
Proof.
  intros l0 v _ Hs Hh l1. unfold l1.
  rewrite filter_all; [done|]. intros e _. apply not_elem_of_nil.
Qed.

Lemma removals_skip l h hashes ops :
  h ∉ record_hash <$> l.*2 → removals l hashes ops → removals l (h :: hashes) ops.
Proof.
  intros Hn Hops l0 v Hin Hs Hh l1. unfold l1. rewrite <- filter_cons_hash.
  rewrite (filter_all (λ e, hash_key e ≠ h)); [by apply Hops|]. intros e He <-. apply Hn.
  apply (list_elem_of_fmap_2 record_hash), list_elem_of_fmap_2. by apply Hin.
Qed.

Lemma removals_cons next l (e : entry) hashes ops :
  entries_wf next l → e ∈ l → removals l hashes ops →
  removals l (hash_key e :: hashes)
    ([BatchRemove BySeq (seq_key e); BatchRemove ByHash (hash_key e)] ++ ops).
Proof.
  intros Hw He Hops l0 v Hin Hs Hh l1. unfold l1. rewrite <- filter_cons_hash, foldl_app.
  destruct (remove_entry _ _ _ _ _ Hw He Hin Hs Hh) as [Hs' Hh']. apply Hops; [|exact Hs'|exact Hh'].
  intros e' [_ He']%list_elem_of_filter. by apply Hin.
Qed.

Lemma prune_batch_run hashes log l :
  represents log l →
  (∃ e, prune_batch hashes log = (Err e, log)) ∨
  ∃ ops, prune_batch hashes log = (Ok ops, log) ∧ removals l hashes ops.
Proof.
  intros Hrep. pose proof Hrep as (_ & Hh & Hw). induction hashes as [|h hashes IH]; [right; exists []; split; [done|apply removals_nil]|].
  cbn [prune_batch]. unfold mbind, stM_bind, log_get, st_lift.
  pose proof (db_get_safe (log_handle log) ByHash h) as Hsafe.
  destruct (db_get (log_handle log) ByHash h) as [o|e|c] eqn:Hg; [|by left; eexists|by destruct (Hsafe c)].
  apply db_get_Ok in Hg as ->. simpl.
  destruct (log_view (log_handle log) ByHash !! h) as [v|] eqn:Hl.
  - destruct (stored_entry _ _ _ _ Hrep Hl) as (i & e & Hi%list_elem_of_lookup_2 & <- & He). rewrite He. simpl.
    destruct IH as [[e' ->]|(ops & -> & Hops)]; [by left; eexists|right]. eexists. split; [done|].
    by eapply removals_cons.
  - simpl. destruct IH as [[e' ->]|(ops & -> & Hops)]; [by left; eexists|right]. eexists. split; [done|].
    apply removals_skip; [|done]. apply hash_map_None. by rewrite <- Hh.
Qed.

(** The views after the batch represent the records that are left. *)
Lemma removals_represents log log' l hashes ops :
  represents log l → removals l hashes ops → next_seq log' = next_seq log →
  (∀ s, log_view (log_handle log') s = foldl run_batch_op (log_view (log_handle log)) ops s) →
  represents log' (filter (λ e, hash_key e ∉ hashes) l).
Proof.
  intros (Hs & Hh & Hw) Hops Hn Hv. destruct (Hops l (log_view (log_handle log))) as [Hs' Hh']; [done..|].
  split; [by rewrite Hv|]. split; [by rewrite Hv|]. rewrite Hn. by apply entries_filter.
Qed.

Lemma log_prune_lands hashes log l :
  represents log l → lands l (spec_op (OpPrune hashes) l.*2) (log_prune hashes log).
Proof.
  intros Hrep. simpl. rewrite filter_fmap. change (λ a : entry, record_hash a.2 ∉ hashes) with (λ e, hash_key e ∉ hashes).
  assert (∀ ops log' r, removals l hashes ops → next_seq log' = next_seq log → no_crash r →
    (∀ s, log_view (log_handle log') s = foldl run_batch_op (log_view (log_handle log)) ops s) →
    lands l (filter (λ e, hash_key e ∉ hashes) l).*2 (r : res EventLogError unit, log')) as Hdone.
  { intros ops log' r Hops Hn Hr Hv. split; [done|]. exists (filter (λ e, hash_key e ∉ hashes) l).
    split; [by eapply removals_represents|]. by auto. }
  destruct hashes as [|h hashes]; [by apply (Hdone []); [apply removals_nil|..]|].
  unfold log_prune, mbind, stM_bind.
  destruct (prune_batch_run (h :: hashes) log l Hrep) as [[e ->]|(ops & -> & Hops)]; [by apply lands_error|].
  destruct ops as [|op ops]; [by apply (Hdone [])|]. unfold log_write.
  pose proof (db_commit_safe (op :: ops) (log_handle log)) as Hsafe.
  destruct (db_commit (op :: ops) (log_handle log)) as [r db'] eqn:Hc.
  assert (no_crash (log_io r)) as Hr by (destruct r as [|e|c]; [done|done|by destruct (Hsafe c)]).
  destruct (db_commit_atomic _ _ _ _ Hc) as [Hv|Hv]; [by apply (Hdone (op :: ops))|].
  destruct r as [[]|e|c]; [|apply lands_error|by destruct (Hsafe c)].
  - apply (Hdone (op :: ops)); [done..|]. exact (db_commit_Ok _ _ _ Hc).
  - eapply represents_views; [exact Hrep|done|done|apply Hrep].
Qed.

Lemma run_op_lands op log l :
  op_ok op → represents log l → lands l (spec_op op l.*2) (run_op op log).
Proof.
  destruct op as [r|h rr ts|hashes]; intros Hop Hrep.
  - by apply lands_ret, append_lands.
  - destruct Hop. by apply set_ordering_lands.
  - by apply log_prune_lands.
Qed.

(** ** A log that is opened again *)

Lemma last_seq_max next (l : list entry) e e' :
  entries_wf next l → last l = Some e → e' ∈ l → (e'.1 ≤ e.1)%N.
Proof.
  intros Hw He He'. apply last_Some in He as [l0 ->].
  apply elem_of_app in He' as [He'| ->%list_elem_of_singleton]; [|done].
  pose proof (ew_sorted _ _ Hw) as Hs. rewrite fmap_app in Hs.
  apply StronglySorted_app_1_elem_of with (x1 := e'.1) (x2 := e.1) in Hs; [lia| |by left].
  by apply list_elem_of_fmap_2.
Qed.

Lemma open_represents log l o :
  represents log l → db_last_key (log_handle log) BySeq = Ok o →
  ∃ log', open (log_handle log) = Ok log' ∧ log_handle log' = log_handle log ∧ represents log' l.
Proof.
  intros (Hs & Hh & Hw) Ho. unfold open, recover_next_seq. rewrite Ho. apply db_last_key_Ok in Ho as ->.
  rewrite Hs, (seq_map_entries _ _ Hw), fmap_last. simpl.
  destruct (last l) as [e|] eqn:He; simpl.
  - assert (e ∈ l) as Hin by (by apply last_Some_elem_of). pose proof (entry_u64 _ _ _ Hw Hin) as Hu.
    assert (e.1 + 1 ≤ u64_max)%N as Hlt.
    { pose proof (ew_bound _ _ Hw). eapply Forall_forall in Hin; [|exact (ew_next _ _ Hw)]. simpl in Hin. lia. }
    unfold seq_key. rewrite decide_False by (rewrite length_be_bytes; lia).
    rewrite take_ge by (by rewrite length_be_bytes). rewrite (of_be_be_bytes 8 _ Hu).
    unfold u64_checked_add. rewrite decide_True by (unfold u64_max, u64_modulus in *; lia).
    eexists. split; [done|]. split; [done|]. split; [done|]. split; [done|].
    split; [apply Hw| |exact Hlt|apply Hw|apply Hw].
    apply Forall_forall. intros e' He'. simpl. pose proof (last_seq_max _ _ _ _ Hw He He'). lia.
  - apply last_None in He as ->. eexists. split; [done|]. split; [done|]. split; [done|]. split; [done|].
    by split; try constructor.
Qed.

(** ** Reading *)

Lemma contains_represents log l h o :
  represents log l → log_contains log h = Ok o → o = bool_decide (h ∈ record_hash <$> l.*2).
Proof.
  intros (_ & Hh & Hw) Hc. unfold log_contains in Hc.
  destruct (db_get (log_handle log) ByHash h) as [v| |] eqn:Hg; [|done..]. apply db_get_Ok in Hg as ->.
  injection Hc as <-. apply bool_decide_ext. rewrite Hh, <- not_eq_None_Some, hash_map_None.
  split; [apply dec_stable|auto].
Qed.

Lemma event_count_represents log l n : represents log l → event_count log = Ok n → n = length l.
Proof.
  intros (Hs & _ & Hw) Hc. unfold event_count in Hc.
  destruct (db_len (log_handle log) BySeq) as [m| |] eqn:Hg; [|done..]. apply db_len_Ok in Hg as ->.
  injection Hc as <-. rewrite Hs. unfold seq_map. rewrite map_size_list_to_map, length_fmap; [done|].
  rewrite <- list_fmap_compose. by eapply seq_keys_NoDup.
Qed.

(** ** A run through the sink *)

Definition sink_op (op : log_op) : stM EventLog unit unit :=
  match op with
  | OpAppend r => sink_append r
  | OpSetOrdering h rr ts => sink_set_ordering h rr ts
  | OpPrune hashes => sink_prune hashes
  end.

Fixpoint sink_ops (ops : list log_op) : stM EventLog unit unit :=
  match ops with [] => mret tt | op :: ops => sink_op op ;; sink_ops ops end.

Lemma sink_op_run op log : (sink_op op log).2 = (run_op op log).2.
Proof.
  destruct op; simpl; unfold sink_append, sink_set_ordering, sink_prune, sink, mbind, stM_bind.
  - by destruct (append record log) as [[]].
  - by destruct (set_ordering hash round_received ts log).
  - by destruct (log_prune hashes log).
Qed.

Lemma sink_op_Ok op log : no_crash (run_op op log).1 → (sink_op op log).1 = Ok tt.
Proof.
  destruct op; simpl; unfold sink_append, sink_set_ordering, sink_prune, sink, mbind, stM_bind; intros Hc.
  - destruct (append record log) as [[| |c]]; [done..|by destruct (Hc c)].
  - destruct (set_ordering hash round_received ts log) as [[| |c]]; [done..|by destruct (Hc c)].
  - destruct (log_prune hashes log) as [[| |c]]; [done..|by destruct (Hc c)].
Qed.

Lemma sink_op_lands op log l :
  op_ok op → represents log l →
  ∃ log' l', sink_op op log = (Ok tt, log') ∧ represents log' l' ∧ (l'.*2 = l.*2 ∨ l'.*2 = spec_op op l.*2).
Proof.
  intros Hop Hrep. destruct (run_op_lands op log l Hop Hrep) as (Hc & l' & Hrep' & _ & Hor).
  exists (sink_op op log).2, l'. rewrite <- (sink_op_Ok op log Hc), sink_op_run.
  split; [|done]. rewrite <- sink_op_run. by destruct (sink_op op log).
Qed.

(** Whatever fails in between, the log holds what some of the operations,
    applied in their order, make of it. *)
Lemma sink_ops_lands ops log l :
  Forall op_ok ops → represents log l →
  ∃ log' l' done, sink_ops ops log = (Ok tt, log') ∧ represents log' l' ∧
    done `sublist_of` ops ∧ l'.*2 = foldl (λ s op, spec_op op s) l.*2 done.
Proof.
  intros Hops. revert log l. induction Hops as [|op ops Hop _ IH]; intros log l Hrep.
  { exists log, l, []. split; [done|]. split; [done|]. split; [constructor|done]. }
  destruct (sink_op_lands op log l Hop Hrep) as (log1 & l1 & Hrun & Hrep1 & Hor).
  destruct (IH log1 l1 Hrep1) as (log' & l' & done & Hrun' & Hrep' & Hsub & Heq).
  cbn [sink_ops]. unfold mbind, stM_bind. rewrite Hrun, Hrun'. exists log', l'.
  destruct Hor as [Hor|Hor]; rewrite Hor in Heq.
  - exists done. split; [done|]. split; [done|]. split; [by constructor|done].
  - exists (op :: done). split; [done|]. split; [done|]. split; [by constructor|done].
Qed.
End ops.
End spec.
