(* ===== verification/EventLogProps.v ===== *)
(** * Correctness of the event log

    The log refines a list of records, and what is left of it when the
    database fails. *)

From S2P Require Import Prelude Codec External Primitives Membership Graph Insert Reachable Demo.
From S2P Require Import Retain Reconnect EventLog EventLogFacts.

Section log.
Context `{Sha256} `{L : LogDb}.

(** C15: the event log is a list of records.  In a log that holds the records
    [l], an append of a record that fits the format adds it at the end, or,
    when the event is already there, only fills in a missing ordering; a
    [set_ordering] fills in a missing ordering and never changes one; a prune
    removes exactly the named events.  An operation that reports an error has
    done all of that or nothing, none panics, and a replay returns the records in
    insertion order, also after the database is opened again. *)
Theorem event_log_refines op log l :
  op_ok op → represents log l →
  (let (r, log') := run_op op log in
   no_crash r ∧ ∃ l', represents log' l' ∧
     (r = Ok tt → l'.*2 = spec_op op l.*2) ∧ (l'.*2 = l.*2 ∨ l'.*2 = spec_op op l.*2)) ∧
  (∀ entries, db_iter (log_handle log) BySeq = Ok entries → replay log = Ok l.*2) ∧
  (∀ h b, log_contains log h = Ok b → b = bool_decide (h ∈ record_hash <$> l.*2)) ∧
  (∀ n, event_count log = Ok n → n = length l) ∧
  (∀ key, db_last_key (log_handle log) BySeq = Ok key →
     ∃ log', open (log_handle log) = Ok log' ∧ represents log' l).
Proof.
  intros Hop Hrep. split; [|split; [|split; [|split]]].
  - destruct (run_op_lands op log l Hop Hrep) as (Hc & l' & Hrep' & Hok & Hor).
    destruct (run_op op log) as [r log']. split; [done|]. exists l'. split; [done|]. split; [|done].
    intros ->. apply Hok. by exists tt.
  - by apply replay_represents.
  - intros h b. by apply contains_represents.
  - intros n. by apply event_count_represents.
  - intros key Hk. destruct (open_represents log l key Hrep Hk) as (log' & Ho & _ & Hr). by eauto.
Qed.

(** losing writes does not damage the log.  The gossip layer drives the log
    through a sink that drops errors.  After any operations, whichever of them
    fail, the log again holds a list of records: what a subsequence of the
    operations makes of the old one.  An append that finds the positions
    exhausted reports it and leaves the log as it was. *)
Theorem event_log_survives_errors ops log l :
  Forall op_ok ops → represents log l →
  (∃ log' l' done, sink_ops ops log = (Ok tt, log') ∧ represents log' l' ∧
     done `sublist_of` ops ∧ l'.*2 = foldl (λ s op, spec_op op s) l.*2 done) ∧
  (∀ r, storable r → record_hash r ∉ record_hash <$> l.*2 → next_seq log = u64_max →
     ∃ e, append r log = (Err e, log)).
Proof.
  intros Hops Hrep. split; [by apply sink_ops_lands|].
  intros r Hr Hfresh Hmax. by apply (append_exhausted r log l).
Qed.
End log.

(** ** A log in memory *)

#[local] Existing Instance toy_sha256.
#[local] Existing Instance memory_db.

Definition empty_log : EventLog := mkEventLog memory_db (∅, ∅, ∅) 0.

Lemma empty_log_represents : represents empty_log [].
Proof. split; [done|]. split; [done|]. by split; try constructor. Qed.

Definition demo_record (n : N) : RetainedEvent :=
  {| re_event := demo_event [] 7 (n, None, None); re_seq := 1; re_round := 1; re_ancestor_seqs := [1; 0]%N;
     re_round_received := None; re_consensus_timestamp := None |}.

Lemma demo_record_storable : storable (demo_record 1) ∧ storable (demo_record 2).
Proof.
  split; (split; [split; [apply (bool_decide_eq_true_1 _); vm_compute; reflexivity|done|done|by repeat constructor|done|done]|..]);
    vm_compute; reflexivity.
Qed.

Lemma event_log_refines_witness :
  let (r, log') := run_op (OpAppend (demo_record 1)) empty_log in no_crash r ∧ ∃ l', represents log' l' ∧
    (r = Ok tt → l'.*2 = [demo_record 1]) ∧ (l'.*2 = [] ∨ l'.*2 = [demo_record 1]).
Proof.
  exact (proj1 (event_log_refines (OpAppend (demo_record 1)) empty_log [] (proj1 demo_record_storable) empty_log_represents)).
Defined.

Definition demo_ops : list log_op :=
  [OpAppend (demo_record 1); OpAppend (demo_record 2); OpSetOrdering (record_hash (demo_record 1)) 3 (Some 9%N);
   OpPrune [record_hash (demo_record 2)]].

Lemma demo_ops_ok : Forall op_ok demo_ops.
Proof. pose proof demo_record_storable as [H1 H2]. repeat constructor; try done; by apply H1 || apply H2. Qed.

Definition replayed (log : EventLog) : list RetainedEvent := match replay log with Ok l => l | _ => [] end.

(** The operations leave the first record with its ordering. *)
Lemma event_log_survives_errors_witness :
  (∃ log' l' done, sink_ops demo_ops empty_log = (Ok tt, log') ∧ represents log' l' ∧
     done `sublist_of` demo_ops ∧ l'.*2 = foldl (λ s op, spec_op op s) [] done) ∧
  replayed (sink_ops demo_ops empty_log).2 = [with_ordering (Some 3%N) (Some 9%N) (demo_record 1)].
Proof.
  split; [|vm_compute; reflexivity].
  exact (proj1 (event_log_survives_errors demo_ops empty_log [] demo_ops_ok empty_log_represents)).
Defined.
