(* ===== verification/Proto.v ===== *)
(** * The gossip wire format

    [gossip/src/proto.rs]: the frames two nodes exchange, as
    [tag || length || payload], with every decoder a peer can reach.  The
    cursor of a decoder is the part of the payload it has not read. *)

From S2P Require Import Prelude Codec External Primitives Membership Graph Insert Retain Reconnect Checkpoint.

(** ** Errors ([error.rs]); of a formatted text only the fixed part is kept *)

Inductive GossipError :=
| Io (reason : string)
| Closed
| Tls (reason : string)
| CertificateVerification (reason : string)
| Identity (reason : string)
| Framing (reason : string)
| UnexpectedFrame (expected got : string)
| Consensus (e : ConsensusError)
| Crypto (e : CryptoError)
| Sync (reason : string)
| ReconnectFailed (reason : string).

(** ** Messages *)

Inductive MessageType :=
| TSyncRequest | TSyncResponse | TEvent | TCheckpointSig | TReconnect | TReconnectResponse
| TBehind | TCheckpointRequest | TCheckpointResponse.

Definition message_tag (t : MessageType) : byte :=
  match t with
  | TSyncRequest => x00 | TSyncResponse => x01 | TEvent => x02 | TCheckpointSig => x03
  | TReconnect => x04 | TReconnectResponse => x05 | TBehind => x06
  | TCheckpointRequest => x07 | TCheckpointResponse => x08
  end.

Definition from_tag (tag : byte) : res GossipError MessageType :=
  match tag with
  | x00 => Ok TSyncRequest | x01 => Ok TSyncResponse | x02 => Ok TEvent | x03 => Ok TCheckpointSig
  | x04 => Ok TReconnect | x05 => Ok TReconnectResponse | x06 => Ok TBehind
  | x07 => Ok TCheckpointRequest | x08 => Ok TCheckpointResponse
  | _ => Err (Framing "unknown message tag")
  end.

Record SyncRequest := { sync_from : NodeId; sync_known : list (NodeId * N) }.
Record SyncResponse := { sync_events : list Event }.
Record ReconnectRequest := { reconnect_from : NodeId }.

Record ReconnectResponse := {
  rr_signed_checkpoint : SignedCheckpoint;
  rr_state_bytes : bytes;
  rr_roster_history_bytes : bytes;
  rr_decided_round : N;
  rr_retained : list RetainedEvent;
  rr_last_timestamp : N;
}.

Inductive Frame :=
| FrameSyncRequest (req : SyncRequest)
| FrameSyncResponse (resp : SyncResponse)
| FrameEvent (event : Event)
| FrameCheckpointSig (sig : CheckpointSig)
| FrameReconnect (req : ReconnectRequest)
| FrameReconnectResponse (resp : ReconnectResponse)
| FrameBehind
| FrameCheckpointRequest
| FrameCheckpointResponse (checkpoint : SignedCheckpoint).

Definition message_type (f : Frame) : MessageType :=
  match f with
  | FrameSyncRequest _ => TSyncRequest
  | FrameSyncResponse _ => TSyncResponse
  | FrameEvent _ => TEvent
  | FrameCheckpointSig _ => TCheckpointSig
  | FrameReconnect _ => TReconnect
  | FrameReconnectResponse _ => TReconnectResponse
  | FrameBehind => TBehind
  | FrameCheckpointRequest => TCheckpointRequest
  | FrameCheckpointResponse _ => TCheckpointResponse
  end.

(** ** Encoding *)

Definition as_framing {A} (m : res PrimError A) : res GossipError A := map_err (λ _, Framing "encoding") m.

(** [u32::try_from(len).map_err(|_| GossipError::framing(..))]. *)
Definition frame_len (len : nat) : res GossipError N :=
  if decide (N.of_nat len < u32_modulus)%N then Ok (N.of_nat len) else Err (Framing "length overflow").

Definition encode_sync_request (req : SyncRequest) : res PrimError bytes :=
  len ← u32_try_from "SyncRequest known length" (length (sync_known req));
  mret (encode_node_id (sync_from req) ++ u32_be len ++
        concat ((λ e, encode_node_id e.1 ++ u64_be e.2) <$> sync_known req)).

Fixpoint encode_events (l : list Event) : res PrimError bytes :=
  match l with
  | [] => mret []
  | e :: l => w ← encode_event e; ws ← encode_events l; mret (w ++ ws)
  end.

Definition encode_sync_response (resp : SyncResponse) : res PrimError bytes :=
  len ← u32_try_from "SyncResponse events length" (length (sync_events resp));
  body ← encode_events (sync_events resp);
  mret (u32_be len ++ body).

Definition frame_bytes (bs : bytes) : res GossipError bytes :=
  len ← frame_len (length bs); mret (u32_be len ++ bs).

Definition encode_retained (r : RetainedEvent) : res GossipError bytes :=
  ancestor_len ← frame_len (length (re_ancestor_seqs r));
  event_bytes ← as_framing (encode_event (re_event r));
  event ← frame_bytes event_bytes;
  mret (u64_be (re_seq r) ++ u64_be (re_round r) ++ encode_opt_u64 (re_round_received r) ++
        u32_be ancestor_len ++ concat (u64_be <$> re_ancestor_seqs r) ++ event ++
        encode_opt_u64 (re_consensus_timestamp r)).

Fixpoint encode_retained_list (l : list RetainedEvent) : res GossipError bytes :=
  match l with
  | [] => mret []
  | r :: l => w ← encode_retained r; ws ← encode_retained_list l; mret (w ++ ws)
  end.

Definition encode_reconnect_response (resp : ReconnectResponse) : res GossipError bytes :=
  cp_bytes ← as_framing (encode_signed_checkpoint (rr_signed_checkpoint resp));
  cp ← frame_bytes cp_bytes;
  state ← frame_bytes (rr_state_bytes resp);
  rh ← frame_bytes (rr_roster_history_bytes resp);
  retained_len ← frame_len (length (rr_retained resp));
  retained ← encode_retained_list (rr_retained resp);
  mret (cp ++ state ++ rh ++ u64_be (rr_decided_round resp) ++ u64_be (rr_last_timestamp resp) ++
        u32_be retained_len ++ retained).

Definition encode_payload (f : Frame) : res GossipError bytes :=
  match f with
  | FrameSyncRequest req => as_framing (encode_sync_request req)
  | FrameSyncResponse resp => as_framing (encode_sync_response resp)
  | FrameEvent event => as_framing (encode_event event)
  | FrameCheckpointSig sig => mret (encode_checkpoint_sig sig)
  | FrameReconnect req => mret (encode_node_id (reconnect_from req))
  | FrameReconnectResponse resp => encode_reconnect_response resp
  | FrameBehind | FrameCheckpointRequest => mret []
  | FrameCheckpointResponse checkpoint => as_framing (encode_signed_checkpoint checkpoint)
  end.

Definition to_bytes (f : Frame) : res GossipError bytes :=
  payload ← encode_payload f;
  body ← frame_bytes payload;
  mret (message_tag (message_type f) :: body).

(** ** Decoding *)

Definition truncated : GossipError := Framing "truncated frame payload".
Definition too_many : GossipError := Framing "declared count exceeds remaining buffer".
Definition trailing : GossipError := Framing "trailing bytes after payload".

Abbreviation reader := (stM bytes GossipError).

Definition read_byte : reader byte := take_byte truncated.
Definition read_u32 : reader N := take_u32 truncated.
Definition read_u64 : reader N := take_u64 truncated.
Definition read_bytes : reader bytes := take_bytes truncated.
Definition finish : reader unit := reject_trailing trailing.

(** A [u32] count with [count > cursor.remaining() / min] refused, then that
    many items. *)
Definition read_counted {A} (min : N) (item : reader A) : reader (list A) :=
  count ← read_u32;
  cursor ← st_get;
  if decide (N.of_nat (length cursor) / min < count)%N then st_fail too_many else
  take_n (N.to_nat count) item.

Definition decode_optional_hash : reader (option EventHash) :=
  tag ← read_byte;
  if decide (tag = x00) then mret None
  else if decide (tag = x01) then h ← take_exact truncated 32; mret (Some h)
  else st_fail (Framing "invalid optional-hash tag").

Definition MIN_TX : N := 4.

Definition decode_event : reader Event :=
  creator ← read_u64;
  self_parent ← decode_optional_hash;
  other_parent ← decode_optional_hash;
  timestamp ← read_u64;
  payload ← read_counted MIN_TX read_bytes;
  signature ← take_exact truncated 64;
  mret {| ev_unsigned := {| ue_creator := creator; ue_self_parent := self_parent;
                            ue_other_parent := other_parent; ue_timestamp := timestamp;
                            ue_payload := payload |};
          ev_signature := signature |}.

(** [Cursor::new(event_bytes)], [decode_event] and [finish] on it. *)
Definition decode_whole {A} (d : reader A) (bs : bytes) : res GossipError A :=
  ((a ← d; finish ;; mret a) bs).1.

Definition MIN_KNOWN_ENTRY : N := 8 + 8.

Definition decode_sync_request : reader SyncRequest :=
  from ← read_u64;
  known ← read_counted MIN_KNOWN_ENTRY (node ← read_u64; seq ← read_u64; mret (node, seq));
  mret {| sync_from := from; sync_known := known |}.

Definition MIN_EVENT : N := 8 + 1 + 1 + 8 + 4 + 64.

Definition decode_sync_response : reader SyncResponse :=
  events ← read_counted MIN_EVENT decode_event;
  mret {| sync_events := events |}.

Definition read_opt_u64 (bad_tag : GossipError) : reader (option N) :=
  tag ← read_byte;
  if decide (tag = x00) then mret None
  else if decide (tag = x01) then v ← read_u64; mret (Some v)
  else st_fail bad_tag.

Definition MIN_ANCESTOR_SEQ : N := 8.

(** One retained event; [ts] reads the trailing timestamp. *)
Definition read_retained (ts : reader (option Timestamp)) : reader RetainedEvent :=
  seq ← read_u64;
  round ← read_u64;
  round_received ← read_opt_u64 (Framing "invalid round-received tag");
  ancestor_seqs ← read_counted MIN_ANCESTOR_SEQ read_u64;
  event_bytes ← read_bytes;
  event ← st_lift (λ _, decode_whole decode_event event_bytes);
  consensus_timestamp ← ts;
  mret {| re_event := event; re_seq := seq; re_round := round; re_ancestor_seqs := ancestor_seqs;
          re_round_received := round_received; re_consensus_timestamp := consensus_timestamp |}.

(** The entries with their timestamps when that reads the whole payload, and
    else the older format without them. *)
Definition read_retained_list (count : nat) : reader (list RetainedEvent) := λ cursor,
  match take_n count (read_retained (read_opt_u64 (Framing "invalid timestamp tag"))) cursor with
  | (Ok retained, []) => (Ok retained, [])
  | (Crash c, rest) => (Crash c, rest)
  | _ => take_n count (read_retained (mret None)) cursor
  end.

Definition MAX_STATE_BYTES : N := 32 * 1024 * 1024.
Definition MIN_RETAINED : N := 8 + 8 + 1 + 4 + 4 + 86 + 1.

Definition read_state_bytes (too_large : GossipError) : reader bytes :=
  len ← read_u32;
  if decide (MAX_STATE_BYTES < len)%N then st_fail too_large else
  take_exact truncated len.

Section decode.
Context `{Sha256, Ed25519, Bls}.

Definition decode_reconnect_response : reader ReconnectResponse :=
  cp_bytes ← read_bytes;
  signed_checkpoint ← st_lift (λ _, map_err (λ _, Framing "invalid signed checkpoint in reconnect response")
                                      (decode_signed_checkpoint cp_bytes));
  state_bytes ← read_state_bytes (Framing "state_bytes too large");
  roster_history_bytes ← read_state_bytes (Framing "roster_history_bytes too large");
  decided_round ← read_u64;
  last_timestamp ← read_u64;
  retained_count ← read_u32;
  cursor ← st_get;
  if decide (N.of_nat (length cursor) / MIN_RETAINED < retained_count)%N then st_fail too_many else
  retained ← read_retained_list (N.to_nat retained_count);
  mret {| rr_signed_checkpoint := signed_checkpoint; rr_state_bytes := state_bytes;
          rr_roster_history_bytes := roster_history_bytes; rr_decided_round := decided_round;
          rr_retained := retained; rr_last_timestamp := last_timestamp |}.

Definition decode_payload (t : MessageType) (payload : bytes) : res GossipError Frame :=
  match t with
  | TSyncRequest => FrameSyncRequest <$> decode_whole decode_sync_request payload
  | TSyncResponse => FrameSyncResponse <$> decode_whole decode_sync_response payload
  | TEvent => FrameEvent <$> decode_whole decode_event payload
  | TCheckpointSig =>
      FrameCheckpointSig <$> map_err (λ _, Framing "invalid checkpoint signature frame") (decode_checkpoint_sig payload)
  | TReconnect => (λ from, FrameReconnect {| reconnect_from := from |}) <$> decode_whole read_u64 payload
  | TReconnectResponse => FrameReconnectResponse <$> decode_whole decode_reconnect_response payload
  | TBehind => (λ _, FrameBehind) <$> decode_whole (mret tt) payload
  | TCheckpointRequest => (λ _, FrameCheckpointRequest) <$> decode_whole (mret tt) payload
  | TCheckpointResponse =>
      FrameCheckpointResponse <$> map_err (λ _, Framing "invalid signed checkpoint in checkpoint response")
                                    (decode_signed_checkpoint payload)
  end.

Definition from_bytes (bs : bytes) : res GossipError Frame :=
  match bs with
  | tag :: b1 :: b2 :: b3 :: b4 :: payload =>
      if decide (N.of_nat (length payload) = of_be [b1; b2; b3; b4])
      then t ← from_tag tag; decode_payload t payload
      else Err (Framing "frame length mismatch")
  | _ => Err (Framing "frame too short")
  end.
End decode.
