(* ===== verification/ProtoFacts.v ===== *)
(** * The wire format reads what it writes

    Round trips of every frame and the totality of the decoders. *)

From S2P Require Import Prelude Codec External Primitives Membership Graph Insert Retain Reconnect.
From S2P Require Import Checkpoint CheckpointFacts CheckpointWindow CheckpointQuorum Proto.

(** ** Counted lists *)

Lemma decodes_take_n2 {E A} (p : stM bytes E A) xs ws :
  Forall2 (λ x w, decodes p w x) xs ws → decodes (take_n (length xs) p) (concat ws) xs.
Proof.
  induction 1 as [|x w xs ws Hx _ IH]; simpl; [apply decodes_ret|].
  eapply decodes_bind; [done|]. eapply decodes_bind_nil; [done|apply decodes_ret].
Qed.

Lemma concat_length_ge {A} (min : nat) (ws : list (list A)) :
  Forall (λ w, min ≤ length w) ws → length ws * min ≤ length (concat ws).
Proof. induction 1; simpl; [lia|]. rewrite length_app. lia. Qed.

(** A count that fits the bytes passes the check against their number. *)
Lemma count_fits {A} (min : N) (ws : list (list A)) (rest : list A) :
  (0 < min)%N → Forall (λ w, N.to_nat min ≤ length w) ws →
  ¬ (N.of_nat (length (concat ws ++ rest)) / min < N.of_nat (length ws))%N.
Proof.
  intros Hmin Hws%concat_length_ge. rewrite length_app. apply N.le_ngt, N.div_le_lower_bound; lia.
Qed.

(** What a writer of one item promises its reader. *)
Definition item_ok {A} (min : N) (item : reader A) (x : A) (w : bytes) : Prop :=
  decodes item w x ∧ N.to_nat min ≤ length w.

Lemma decodes_counted {A} (min : N) (item : reader A) xs ws :
  (0 < min)%N → is_u32 (N.of_nat (length xs)) → Forall2 (item_ok min item) xs ws →
  decodes (read_counted min item) (u32_be (N.of_nat (length xs)) ++ concat ws) xs.
Proof.
  intros Hmin Hlen Hws. unfold read_counted. codec_step; [by apply decodes_take_u32|].
  intros rest. unfold mbind, stM_bind, st_get. rewrite Nat2N.id, (Forall2_length _ _ _ Hws).
  rewrite decide_False by (apply count_fits; [done|]; clear -Hws; induction Hws as [|???? []]; by constructor).
  rewrite <- (Forall2_length _ _ _ Hws). apply decodes_take_n2.
  eapply Forall2_impl; [exact Hws|]. by intros ?? [? _].
Qed.

Lemma frame_len_Ok len n : frame_len len = Ok n → n = N.of_nat len ∧ is_u32 n.
Proof. unfold frame_len. case_decide; intros; by simplify_eq. Qed.

Lemma frame_bytes_Ok bs w :
  frame_bytes bs = Ok w → w = u32_be (N.of_nat (length bs)) ++ bs ∧ is_u32 (N.of_nat (length bs)).
Proof. by intros (n & [-> Hn]%frame_len_Ok & <-%res_ret_Ok)%res_bind_Ok. Qed.

Lemma as_framing_Ok {A} (m : res PrimError A) a : as_framing m = Ok a → m = Ok a.
Proof. destruct m; intros; by simplify_eq/=. Qed.

(** ** Events *)

Lemma transactions_body_items txs w :
  encode_transactions_body txs = Ok w →
  ∃ ws, w = concat ws ∧ Forall2 (item_ok MIN_TX read_bytes) txs ws.
Proof.
  revert w. induction txs as [|tx txs IH]; intros w; simpl.
  { intros <-%res_ret_Ok. exists []. by split. }
  intros (b & (len & [-> Hlen]%u32_try_from_Ok & <-%res_ret_Ok)%res_bind_Ok & (bs & Hbs & <-%res_ret_Ok)%res_bind_Ok)%res_bind_Ok.
  destruct (IH bs Hbs) as (ws & -> & Hws). exists ((u32_be (N.of_nat (length tx)) ++ tx) :: ws).
  split; [done|]. constructor; [|done]. split; [by apply decodes_take_bytes|].
  rewrite length_app, length_be_bytes. unfold MIN_TX. lia.
Qed.

Lemma decodes_optional_hash o :
  wf_opt_hash o → decodes decode_optional_hash (encode_opt_event_hash o) o.
Proof.
  intros Ho. destruct o as [h|]; simpl in *; unfold decode_optional_hash.
  - change (x01 :: encode_event_hash h) with ([x01] ++ h). codec_step; [apply decodes_take_byte|].
    rewrite decide_False, decide_True by done.
    codec_step; [apply decodes_take_exact; lia|apply decodes_ret].
  - codec_step; [apply decodes_take_byte|apply decodes_ret].
Qed.

Lemma decodes_wire_event e w : wf_event e → encode_event e = Ok w → decodes decode_event w e.
Proof.
  intros [Hc Hsp Hop Hts Hsig] (u & (txs & Htxs & <-%res_ret_Ok)%res_bind_Ok & <-%res_ret_Ok)%res_bind_Ok.
  apply res_bind_Ok in Htxs as (len & (-> & Hlen)%u32_try_from_Ok & (body & Hbody & <-%res_ret_Ok)%res_bind_Ok).
  apply transactions_body_items in Hbody as (ws & -> & Hws).
  unfold decode_event, encode_node_id, encode_timestamp, encode_signature. rewrite <- !(assoc_L (++)).
  codec_step; [by apply decodes_take_u64|].
  codec_step; [by apply decodes_optional_hash|].
  codec_step; [by apply decodes_optional_hash|].
  codec_step; [by apply decodes_take_u64|].
  rewrite (assoc_L (++) (u32_be _)). codec_step; [by apply decodes_counted|].
  codec_step; [apply decodes_take_exact; unfold signature in Hsig; by rewrite Hsig|].
  destruct e as [[] ]. apply decodes_ret.
Qed.

Lemma encode_event_length e w : wf_event e → encode_event e = Ok w → 86 ≤ length w.
Proof.
  intros [_ _ _ _ Hsig] (u & (txs & Htxs & <-%res_ret_Ok)%res_bind_Ok & <-%res_ret_Ok)%res_bind_Ok.
  apply res_bind_Ok in Htxs as (len & _ & (body & _ & <-%res_ret_Ok)%res_bind_Ok).
  unfold encode_signature, encode_node_id, encode_timestamp. rewrite !length_app, !length_be_bytes.
  unfold signature in Hsig. rewrite Hsig. destruct (ue_self_parent _), (ue_other_parent _); simpl; lia.
Qed.

Lemma encode_events_items l w :
  Forall wf_event l → encode_events l = Ok w →
  ∃ ws, w = concat ws ∧ Forall2 (item_ok MIN_EVENT decode_event) l ws.
Proof.
  intros Hl. revert w. induction Hl as [|e l He _ IH]; intros w; simpl.
  { intros <-%res_ret_Ok. exists []. by split. }
  intros (b & Hb & (bs & Hbs & <-%res_ret_Ok)%res_bind_Ok)%res_bind_Ok.
  destruct (IH bs Hbs) as (ws & -> & Hws). exists (b :: ws). split; [done|]. constructor; [|done].
  split; [by apply decodes_wire_event|]. by apply (encode_event_length e b).
Qed.

(** ** Payloads *)

Lemma decode_whole_encoded {A} (d : reader A) w a : decodes d w a → decode_whole d w = Ok a.
Proof. intros Hd. unfold decode_whole, mbind, stM_bind. by rewrite (decodes_all _ _ _ Hd). Qed.

Lemma decodes_read_opt_u64 err o : wf_opt_u64 o → decodes (read_opt_u64 err) (encode_opt_u64 o) o.
Proof.
  intros Ho. destruct o as [v|]; simpl in *; unfold read_opt_u64.
  - change (x01 :: u64_be v) with ([x01] ++ u64_be v). codec_step; [apply decodes_take_byte|].
    rewrite decide_False, decide_True by done.
    codec_step; [by apply decodes_take_u64|apply decodes_ret].
  - codec_step; [apply decodes_take_byte|apply decodes_ret].
Qed.

Lemma u64_items l : Forall is_u64 l → Forall2 (item_ok MIN_ANCESTOR_SEQ read_u64) l (u64_be <$> l).
Proof.
  induction 1 as [|n l Hn _ IH]; constructor; [|done]. split; [by apply decodes_take_u64|].
  by rewrite length_be_bytes.
Qed.

Lemma retained_item r w :
  wf_retained r → encode_retained r = Ok w →
  item_ok MIN_RETAINED (read_retained (read_opt_u64 (Framing "invalid timestamp tag"))) r w.
Proof.
  intros [He Hs Hr Ha Hrr Hts] (al & [-> Hal]%frame_len_Ok & (eb & Heb%as_framing_Ok & (fe & [-> Hel]%frame_bytes_Ok & <-%res_ret_Ok)%res_bind_Ok)%res_bind_Ok)%res_bind_Ok.
  split.
  - unfold read_retained. codec_step; [by apply decodes_take_u64|].
    codec_step; [by apply decodes_take_u64|]. codec_step; [by apply decodes_read_opt_u64|].
    rewrite (assoc_L (++) (u32_be _)). codec_step; [apply decodes_counted; [done|done|by apply u64_items]|].
    codec_step; [by apply decodes_take_bytes|].
    eapply decodes_lift; [by apply decode_whole_encoded, decodes_wire_event|].
    codec_step; [by apply decodes_read_opt_u64|]. destruct r. apply decodes_ret.
  - pose proof (encode_event_length _ _ He Heb) as Hlen. rewrite !length_app, !length_be_bytes.
    destruct (re_round_received r), (re_consensus_timestamp r); simpl; unfold MIN_RETAINED; lia.
Qed.

Lemma retained_items l w :
  Forall wf_retained l → encode_retained_list l = Ok w →
  ∃ ws, w = concat ws ∧
    Forall2 (item_ok MIN_RETAINED (read_retained (read_opt_u64 (Framing "invalid timestamp tag")))) l ws.
Proof.
  intros Hl. revert w. induction Hl as [|r l Hr _ IH]; intros w; simpl.
  { intros <-%res_ret_Ok. exists []. by split. }
  intros (b & Hb & (bs & Hbs & <-%res_ret_Ok)%res_bind_Ok)%res_bind_Ok.
  destruct (IH bs Hbs) as (ws & -> & Hws). exists (b :: ws). split; [done|]. constructor; [|done].
  by apply retained_item.
Qed.

Section frames.
Context `{Sha256, Ed25519, Bls}.

Record wf_reconnect (resp : ReconnectResponse) : Prop := {
  wfc_checkpoint : wf_signed (rr_signed_checkpoint resp);
  wfc_state : (N.of_nat (length (rr_state_bytes resp)) ≤ MAX_STATE_BYTES)%N;
  wfc_roster : (N.of_nat (length (rr_roster_history_bytes resp)) ≤ MAX_STATE_BYTES)%N;
  wfc_decided : is_u64 (rr_decided_round resp);
  wfc_timestamp : is_u64 (rr_last_timestamp resp);
  wfc_retained : Forall wf_retained (rr_retained resp);
}.

(** The widths of the fields of a frame, and the size limit of a snapshot. *)
Definition wf_frame (f : Frame) : Prop :=
  match f with
  | FrameSyncRequest req => is_u64 (sync_from req) ∧ Forall (λ e, is_u64 e.1 ∧ is_u64 e.2) (sync_known req)
  | FrameSyncResponse resp => Forall wf_event (sync_events resp)
  | FrameEvent event => wf_event event
  | FrameCheckpointSig sig => wf_checkpoint_sig sig
  | FrameReconnect req => is_u64 (reconnect_from req)
  | FrameReconnectResponse resp => wf_reconnect resp
  | FrameBehind | FrameCheckpointRequest => True
  | FrameCheckpointResponse checkpoint => wf_signed checkpoint
  end.

Lemma decodes_state_bytes err bs :
  (N.of_nat (length bs) ≤ MAX_STATE_BYTES)%N → is_u32 (N.of_nat (length bs)) →
  decodes (read_state_bytes err) (u32_be (N.of_nat (length bs)) ++ bs) bs.
Proof.
  intros Hmax Hlen. unfold read_state_bytes. codec_step; [by apply decodes_take_u32|].
  rewrite decide_False by lia. by apply decodes_take_exact.
Qed.

Lemma parses_retained_list l ws :
  Forall2 (item_ok MIN_RETAINED (read_retained (read_opt_u64 (Framing "invalid timestamp tag")))) l ws →
  parses (read_retained_list (length l)) (concat ws) l.
Proof.
  intros Hws. unfold parses, read_retained_list.
  erewrite (decodes_all _ (concat ws) l); [done|]. apply decodes_take_n2.
  eapply Forall2_impl; [exact Hws|]. by intros ?? [? _].
Qed.

Lemma parses_reconnect_response resp w :
  wf_reconnect resp → encode_reconnect_response resp = Ok w → parses decode_reconnect_response w resp.
Proof.
  intros [Hcp Hst Hrh Hd Ht Hr]
    (cpb & Hcpb%as_framing_Ok & (cp & [-> Hcpl]%frame_bytes_Ok & (st & [-> Hstl]%frame_bytes_Ok &
     (rh & [-> Hrhl]%frame_bytes_Ok & (n & [-> Hn]%frame_len_Ok & (body & Hbody & <-%res_ret_Ok)%res_bind_Ok
     )%res_bind_Ok)%res_bind_Ok)%res_bind_Ok)%res_bind_Ok)%res_bind_Ok.
  apply retained_items in Hbody as (ws & -> & Hws); [|done].
  unfold decode_reconnect_response.
  parse_step; [by apply decodes_take_bytes|].
  unfold parses, mbind at 1, stM_bind at 1, st_lift. rewrite (decode_encode_signed _ _ Hcp Hcpb). cbn [map_err].
  change (parses (state_bytes ← read_state_bytes (Framing "state_bytes too large");
    roster_history_bytes ← read_state_bytes (Framing "roster_history_bytes too large");
    decided_round ← read_u64; last_timestamp ← read_u64; retained_count ← read_u32; cursor ← st_get;
    if decide (N.of_nat (length cursor) / MIN_RETAINED < retained_count)%N then st_fail too_many else
    retained ← read_retained_list (N.to_nat retained_count);
    mret {| rr_signed_checkpoint := rr_signed_checkpoint resp; rr_state_bytes := state_bytes;
            rr_roster_history_bytes := roster_history_bytes; rr_decided_round := decided_round;
            rr_retained := retained; rr_last_timestamp := last_timestamp |})
    ((u32_be (N.of_nat (length (rr_state_bytes resp))) ++ rr_state_bytes resp) ++
     (u32_be (N.of_nat (length (rr_roster_history_bytes resp))) ++ rr_roster_history_bytes resp) ++
     u64_be (rr_decided_round resp) ++ u64_be (rr_last_timestamp resp) ++
     u32_be (N.of_nat (length (rr_retained resp))) ++ concat ws) resp).
  parse_step; [by apply decodes_state_bytes|]. parse_step; [by apply decodes_state_bytes|].
  parse_step; [by apply decodes_take_u64|]. parse_step; [by apply decodes_take_u64|].
  parse_step; [by apply decodes_take_u32|].
  unfold parses, mbind, stM_bind, st_get. rewrite Nat2N.id, (Forall2_length _ _ _ Hws).
  rewrite decide_False.
  2: { rewrite <- (right_id_L [] (++) (concat ws)). apply count_fits; [done|].
       clear -Hws. induction Hws as [|???? []]; by constructor. }
  rewrite <- (Forall2_length _ _ _ Hws), (parses_retained_list _ _ Hws). by destruct resp.
Qed.

Lemma decode_whole_parses {A} (d : reader A) w a : parses d w a → decode_whole d w = Ok a.
Proof. intros Hd. unfold decode_whole, mbind, stM_bind. by rewrite Hd. Qed.

Lemma known_items known :
  Forall (λ e : NodeId * N, is_u64 e.1 ∧ is_u64 e.2) known →
  Forall2 (item_ok MIN_KNOWN_ENTRY (node ← read_u64; seq ← read_u64; mret (node, seq))) known
    ((λ e, encode_node_id e.1 ++ u64_be e.2) <$> known).
Proof.
  induction 1 as [|[node seq] known [Hn Hs] _ IH]; constructor; [|done].
  split; [|by rewrite length_app, !length_be_bytes].
  codec_step; [by apply decodes_take_u64|]. codec_step; [by apply decodes_take_u64|apply decodes_ret].
Qed.

Lemma decode_encode_payload f w :
  wf_frame f → encode_payload f = Ok w → decode_payload (message_type f) w = Ok f.
Proof.
  destruct f as [[from known]|[events]|event|sig|[from]|resp| | |checkpoint]; simpl; intros Hwf Hw.
  - destruct Hwf as [Hf Hk]. apply as_framing_Ok, res_bind_Ok in Hw as (n & [-> Hn]%u32_try_from_Ok & <-%res_ret_Ok).
    erewrite decode_whole_encoded; [done|]. unfold decode_sync_request, encode_node_id; simpl.
    codec_step; [by apply decodes_take_u64|]. eapply decodes_bind_nil; [|apply decodes_ret].
    apply decodes_counted; [done|done|by apply known_items].
  - apply as_framing_Ok, res_bind_Ok in Hw as (n & [-> Hn]%u32_try_from_Ok & (body & Hb & <-%res_ret_Ok)%res_bind_Ok).
    apply encode_events_items in Hb as (ws & -> & Hws); [|done].
    erewrite decode_whole_encoded; [done|]. eapply decodes_bind_nil; [by apply decodes_counted|apply decodes_ret].
  - apply as_framing_Ok in Hw. by rewrite (decode_whole_encoded _ _ _ (decodes_wire_event _ _ Hwf Hw)).
  - apply res_ret_Ok in Hw as <-. by rewrite (proj2 (decode_encode_sig _ Hwf)).
  - apply res_ret_Ok in Hw as <-. by rewrite (decode_whole_encoded read_u64 (encode_node_id from) from (decodes_take_u64 truncated _ Hwf)).
  - by rewrite (decode_whole_parses _ _ _ (parses_reconnect_response _ _ Hwf Hw)).
  - by apply res_ret_Ok in Hw as <-.
  - by apply res_ret_Ok in Hw as <-.
  - apply as_framing_Ok in Hw. by rewrite (decode_encode_signed _ _ Hwf Hw).
Qed.

Lemma from_tag_message_tag t : from_tag (message_tag t) = Ok t.
Proof. by destruct t. Qed.

Lemma from_bytes_to_bytes f w : wf_frame f → to_bytes f = Ok w → from_bytes w = Ok f.
Proof.
  intros Hwf (payload & Hp & (body & [-> Hlen]%frame_bytes_Ok & <-%res_ret_Ok)%res_bind_Ok)%res_bind_Ok.
  pose proof (of_be_be_bytes 4 _ Hlen) as Hof. pose proof (length_be_bytes 4 (N.of_nat (length payload))) as Hb.
  unfold from_bytes. destruct (u32_be _) as [|b1 [|b2 [|b3 [|b4 [|]]]]]; try done. simpl.
  rewrite decide_True by done. rewrite from_tag_message_tag. by apply decode_encode_payload.
Qed.

(** ** Totality *)

Lemma total_read_counted {A} min (item : reader A) : never_panics item → never_panics (read_counted min item).
Proof.
  intros Hi. unfold read_counted. apply total_bind; [unfold read_u32; solve_total|intros n].
  apply total_get. intros c. case_decide; solve_total.
Qed.

Lemma total_optional_hash : never_panics decode_optional_hash.
Proof. unfold decode_optional_hash, read_byte. solve_total. Qed.

Lemma total_read_opt_u64 err : never_panics (read_opt_u64 err).
Proof. unfold read_opt_u64, read_byte, read_u64. solve_total. Qed.

Lemma total_wire_event : never_panics decode_event.
Proof.
  unfold decode_event, read_u64. pose proof total_optional_hash.
  do 4 (apply total_bind; [solve_total|intros ?]).
  apply total_bind; [apply total_read_counted; unfold read_bytes; solve_total|intros ?]. solve_total.
Qed.

Lemma decode_whole_no_crash {A} (d : reader A) bs : never_panics d → no_crash (decode_whole d bs).
Proof.
  intros Hd. unfold decode_whole. revert bs. change (never_panics (a ← d; finish ;; mret a)).
  unfold finish. solve_total.
Qed.

Lemma total_read_retained ts : never_panics ts → never_panics (read_retained ts).
Proof.
  intros Hts. unfold read_retained. pose proof total_read_opt_u64. unfold read_u64, read_bytes.
  apply total_bind; [solve_total|intros ?]. apply total_bind; [solve_total|intros ?].
  apply total_bind; [solve_total|intros ?]. apply total_bind; [apply total_read_counted; solve_total|intros ?].
  apply total_bind; [solve_total|intros ?].
  apply total_bind; [apply total_lift, decode_whole_no_crash, total_wire_event|intros ?]. solve_total.
Qed.

Lemma total_retained_list count : never_panics (read_retained_list count).
Proof.
  intros cursor. unfold read_retained_list.
  assert (never_panics (take_n count (read_retained (mret None)))) as Hold
    by (apply total_take_n, total_read_retained, total_ret).
  assert (never_panics (take_n count (read_retained (read_opt_u64 (Framing "invalid timestamp tag"))))) as Hnew
    by (apply total_take_n, total_read_retained, total_read_opt_u64).
  specialize (Hnew cursor). destruct (take_n count _ cursor) as [[l|e|c] [|b rest]]; try done; apply Hold.
Qed.

Lemma map_err_no_crash {E E' A} (f : E → E') (m : res E A) : no_crash m → no_crash (map_err f m).
Proof. intros Hm c. destruct m as [| |c']; [done|done|by destruct (Hm c')]. Qed.

Lemma fmap_no_crash {E A B} (f : A → B) (m : res E A) : no_crash m → no_crash (f <$> m).
Proof. intros Hm c. destruct m as [| |c']; [done|done|by destruct (Hm c')]. Qed.

Lemma total_reconnect_response : never_panics decode_reconnect_response.
Proof.
  unfold decode_reconnect_response, read_bytes, read_state_bytes, read_u32, read_u64.
  apply total_bind; [solve_total|intros ?].
  apply total_bind; [apply total_lift, map_err_no_crash, decode_signed_no_crash|intros ?].
  do 5 (apply total_bind; [solve_total|intros ?]). apply total_get. intros c.
  case_decide; [apply total_fail|]. apply total_bind; [apply total_retained_list|intros; apply total_ret].
Qed.

Lemma from_bytes_no_crash bs : no_crash (from_bytes bs).
Proof.
  unfold from_bytes. destruct bs as [|tag [|b1 [|b2 [|b3 [|b4 payload]]]]]; try done.
  case_decide; [|done]. destruct (from_tag tag) as [t|e|c] eqn:Ht; [|done|by destruct tag].
  unfold mbind, res_bind. destruct t; simpl; apply fmap_no_crash;
    first [apply map_err_no_crash; first [apply decode_sig_no_crash|apply decode_signed_no_crash]
          |apply decode_whole_no_crash].
  - unfold decode_sync_request, read_u64. apply total_bind; [solve_total|intros ?].
    apply total_bind; [apply total_read_counted; solve_total|intros; apply total_ret].
  - unfold decode_sync_response. apply total_bind; [apply total_read_counted, total_wire_event|intros; apply total_ret].
  - apply total_wire_event.
  - unfold read_u64. solve_total.
  - apply total_reconnect_response.
  - apply total_ret.
  - apply total_ret.
Qed.
End frames.
