(* ===== verification/Kahn.v ===== *)
(** * Kahn's sort

    The loop that [frontier.rs] ([topo_sort]) and [node.rs]
    ([topo_sort_retained]) share: nodes without unreleased predecessors are
    emitted in turn, and each emission releases the node's successors.  The
    tables are hash maps in the one and vectors in the other. *)

From S2P Require Import Prelude.

Section definitions.
Context {E K DT CT : Type} `{Lookup K N DT, Insert K N DT, Lookup K (list K) CT}.

(** Releasing the successors of an emitted node. *)
Fixpoint release (cs : list K) (indegree : DT) (queue : list K) : res E (DT * list K) :=
  match cs with
  | [] => mret (indegree, queue)
  | child :: cs =>
      degree ← expect (indegree !! child);
      if decide (degree = 0%N) then Crash Panicked else
      release cs (<[child := (degree - 1)%N]> indegree)
        (if decide (degree - 1 = 0)%N then queue ++ [child] else queue)
  end.

Fixpoint emit (fuel : nat) (children : CT) (indegree : DT) (queue ordered : list K) : res E (list K) :=
  match queue with
  | [] => mret ordered
  | node :: queue =>
      match fuel with
      | O => Crash OutOfFuel
      | S fuel =>
          cs ← expect (children !! node);
          '(indegree, queue) ← release cs indegree queue;
          emit fuel children indegree queue (ordered ++ [node])
      end
  end.
End definitions.

(** What the loop needs of the table of degrees. *)
Class Table (K V M : Type) `{Lookup K V M, Insert K V M} : Prop := {
  table_eq : ∀ (m : M) k v, is_Some (m !! k) → <[k := v]> m !! k = Some v;
  table_ne : ∀ (m : M) k k' v, k ≠ k' → <[k := v]> m !! k' = m !! k';
}.

#[export] Instance gmap_table `{Countable K} {V} : Table K V (gmap K V).
Proof. split; intros; [apply lookup_insert_eq|by apply lookup_insert_ne]. Qed.

#[export] Instance list_table {V} : Table nat V (list V).
Proof.
  split; intros; [by apply list_lookup_insert_eq, lookup_lt_is_Some_1|by apply list_lookup_insert_ne].
Qed.

(** ** Counting occurrences *)

Section occ.
Context {A : Type} `{EqDecision A}.

Definition occ (x : A) (l : list A) : nat := length (filter (λ y, y = x) l).

Lemma occ_cons x y l : occ x (y :: l) = (if decide (y = x) then 1 else 0) + occ x l.
Proof. unfold occ. rewrite filter_cons. by case_decide. Qed.

Lemma occ_app x l1 l2 : occ x (l1 ++ l2) = occ x l1 + occ x l2.
Proof. unfold occ. by rewrite filter_app, length_app. Qed.

Lemma occ_replicate x y n : occ x (replicate n y) = if decide (y = x) then n else 0.
Proof. induction n as [|n IH]; simpl; [by case_decide|]. rewrite occ_cons, IH. by case_decide. Qed.

Lemma occ_pos x l : x ∈ l ↔ 0 < occ x l.
Proof.
  induction l as [|y l IH]; [split; [by intros ?%not_elem_of_nil|unfold occ; simpl; lia]|].
  rewrite elem_of_cons, occ_cons, IH. case_decide; split; intros; [lia|by left|destruct H0; [congruence|lia]|by right].
Qed.

(** Removing one value from a list. *)
Lemma occ_filter_out (P : A → Prop) `{!∀ x, Decision (P x)} x l :
  P x → length (filter P l) = length (filter (λ y, P y ∧ y ≠ x) l) + occ x l.
Proof.
  intros Hx. unfold occ. induction l as [|y l IH]; [done|]. rewrite !filter_cons.
  destruct (decide (y = x)) as [->|Hne].
  - rewrite decide_True by done. rewrite decide_False by tauto. simpl. lia.
  - destruct (decide (P y)); [rewrite decide_True by done|rewrite decide_False by tauto]; simpl; lia.
Qed.
End occ.

(** ** The loop *)

Section loop.
Context {E : Type} `{Countable K} {DT CT : Type} `{Table K N DT} `{Lookup K (list K) CT}.

(** The graph: the predecessors of every node. *)
Context (nodes : gmap K (list K)).

Definition inner (p : K) : Prop := is_Some (nodes !! p).

Context (ch : CT).
Context (Hch : ∀ p, inner p → ∃ cs, ch !! p = Some cs ∧ (∀ c, c ∈ cs → inner c) ∧
  ∀ c e, nodes !! c = Some e → occ c cs = occ p e).

(** The predecessors that are still to be emitted. *)
Definition need (ordered : list K) (e : list K) : nat :=
  length (filter (λ p, inner p ∧ p ∉ ordered) e).

(** The tables while [extra] releases of each node are outstanding. *)
Record kahn (ordered queue : list K) (ind : DT) (extra : K → nat) : Prop := {
  k_nodup : NoDup (ordered ++ queue);
  k_dom : ∀ h, h ∈ ordered ++ queue → inner h;
  k_ind : ∀ h e, nodes !! h = Some e → ind !! h = Some (N.of_nat (need ordered e + extra h));
  k_zero : ∀ h e, nodes !! h = Some e → h ∈ ordered ++ queue ↔ need ordered e + extra h = 0;
  k_order : ∀ i h e p, ordered !! i = Some h → nodes !! h = Some e → p ∈ e → inner p →
    p ∈ take i ordered;
}.

Lemma release_Ok cs ordered queue ind :
  kahn ordered queue ind (λ c, occ c cs) → (∀ c, c ∈ cs → inner c) →
  ∃ ind' queue', release (E := E) cs ind queue = Ok (ind', queue') ∧ kahn ordered queue' ind' (λ _, 0).
Proof.
  revert queue ind. induction cs as [|c cs IH]; intros queue ind Hk Hcs; [by exists ind, queue|].
  destruct (Hcs c) as [e He]; [by left|]. destruct Hk as [Hnd Hdom Hind Hz Hord].
  assert (occ c (c :: cs) = S (occ c cs)) as Hocc by (rewrite occ_cons; by rewrite decide_True).
  cbn [release]. rewrite (Hind c e He). simpl. rewrite Hocc, decide_False by lia.
  apply IH; [|intros x Hx; apply Hcs; by right].
  assert (c ∉ ordered ++ queue) as Hnew by (rewrite (Hz c e He), Hocc; lia).
  assert (N.of_nat (need ordered e + S (occ c cs)) - 1 = N.of_nat (need ordered e + occ c cs))%N as Hsub by lia.
  rewrite Hsub. split.
  - case_decide; [|done]. rewrite (assoc_L (++)). apply NoDup_app. split; [done|]. split; [|apply NoDup_singleton].
    intros x Hx ->%list_elem_of_singleton. done.
  - case_decide; [|done]. rewrite (assoc_L (++)). intros h [Hh| ->%list_elem_of_singleton]%elem_of_app; [by apply Hdom|by exists e].
  - intros h e' He'. destruct (decide (h = c)) as [->|Hne].
    + rewrite table_eq by (eexists; by eapply Hind). by simplify_eq.
    + rewrite table_ne, (Hind h e' He'), occ_cons, decide_False by congruence. done.
  - intros h e' He'. destruct (decide (h = c)) as [->|Hne].
    + simplify_eq. case_decide as Hq.
      * rewrite (assoc_L (++)), elem_of_app. split; [intros _; lia|intros _; right; by apply list_elem_of_singleton].
      * split; [done|lia].
    + specialize (Hz h e' He'). rewrite occ_cons, decide_False in Hz by congruence. simpl in Hz. rewrite <- Hz.
      case_decide; [|done]. rewrite (assoc_L (++)), elem_of_app, list_elem_of_singleton. tauto.
  - done.
Qed.

Lemma need_step ordered hash e :
  inner hash → hash ∉ ordered → need ordered e = need (ordered ++ [hash]) e + occ hash e.
Proof.
  intros Hin Hh. unfold need. rewrite (occ_filter_out _ hash) by done. f_equal. f_equal.
  apply list_filter_iff. intros p. rewrite not_elem_of_app, list_elem_of_singleton. tauto.
Qed.

Lemma need_zero ordered e p : need ordered e = 0 → p ∈ e → inner p → p ∈ ordered.
Proof.
  intros Hn Hp Hin. destruct (decide (p ∈ ordered)) as [|Hno]; [done|]. exfalso.
  assert (p ∈ filter (λ p, inner p ∧ p ∉ ordered) e) as Hf by (by apply list_elem_of_filter).
  unfold need in Hn. apply nil_length_inv in Hn. rewrite Hn in Hf. by apply not_elem_of_nil in Hf.
Qed.

(** Emitting the head of the queue, before its children are released. *)
Lemma kahn_emit ordered hash queue ind cs :
  kahn ordered (hash :: queue) ind (λ _, 0) → inner hash →
  (∀ c e, nodes !! c = Some e → occ c cs = occ hash e) →
  kahn (ordered ++ [hash]) queue ind (λ c, occ c cs).
Proof.
  intros [Hnd Hdom Hind Hz Hord] Hin Hocc.
  assert (hash ∉ ordered) as Hh by (apply NoDup_app in Hnd as (_ & Hno & _); intros Hx; apply (Hno hash); [done|by left]).
  assert (∀ c e, nodes !! c = Some e → need (ordered ++ [hash]) e + occ c cs = need ordered e + 0) as Heq.
  { intros c e He. rewrite (Hocc c e He), (need_step ordered hash e Hin Hh). lia. }
  split.
  - by rewrite <- (assoc_L (++)).
  - by rewrite <- (assoc_L (++)).
  - intros h e He. rewrite (Hind h e He). by rewrite Heq.
  - intros h e He. rewrite Heq, <- (assoc_L (++)) by done. by apply Hz.
  - intros i h e p Hi He Hp Hip. apply lookup_app_Some in Hi as [Hi|[Hlen Hi]].
    + rewrite take_app_le by (apply lookup_lt_Some in Hi; lia). by eapply Hord.
    + apply list_lookup_singleton_Some in Hi as [Hi <-]. rewrite take_app_ge by lia.
      apply elem_of_app. left. eapply need_zero; [|exact Hp|exact Hip].
      assert (need ordered e + 0 = 0) as Hz0 by (apply (Hz hash e He), elem_of_app; right; by left). lia.
Qed.

Lemma inner_length l : NoDup l → (∀ h, h ∈ l → inner h) → length l ≤ size nodes.
Proof.
  intros Hnd Hin. rewrite <- size_dom. rewrite <- (size_list_to_set (C := gset K)) by done.
  apply subseteq_size. intros h Hh%elem_of_list_to_set. by apply elem_of_dom, Hin.
Qed.

Lemma emit_Ok fuel ordered queue ind :
  kahn ordered queue ind (λ _, 0) → length ordered + fuel = size nodes →
  ∃ ordered' ind', emit (E := E) fuel ch ind queue ordered = Ok ordered' ∧ kahn ordered' [] ind' (λ _, 0).
Proof.
  revert ordered queue ind. induction fuel as [|fuel IH]; intros ordered queue ind Hk Hlen.
  all: destruct queue as [|hash queue]; [by exists ordered, ind|].
  all: assert (inner hash) as Hin by (apply (k_dom _ _ _ _ Hk), elem_of_app; right; by left).
  all: assert (length ordered < size nodes) as Hlt
    by (pose proof (inner_length _ (k_nodup _ _ _ _ Hk) (k_dom _ _ _ _ Hk)) as Hl; rewrite length_app in Hl; simpl in Hl; lia).
  { lia. }
  cbn [emit]. destruct (Hch hash Hin) as (cs & -> & Hcs & Hocc). simpl.
  destruct (release_Ok cs (ordered ++ [hash]) queue ind) as (ind' & queue' & -> & Hk'); [by apply kahn_emit|done|].
  apply IH; [done|]. rewrite length_app. simpl. lia.
Qed.

Context (rank : K → nat).
Context (Hrank : ∀ h e p, nodes !! h = Some e → p ∈ e → inner p → rank p < rank h).

(** When the queue is empty everything has been emitted. *)
Lemma kahn_done ordered ind : kahn ordered [] ind (λ _, 0) → ∀ h, inner h → h ∈ ordered.
Proof.
  intros [_ _ _ Hz _] h. remember (rank h) as n eqn:Hn. revert h Hn.
  induction (lt_wf n) as [n _ IH]. intros h -> [e He].
  specialize (Hz h e He). rewrite app_nil_r in Hz. apply Hz. rewrite Nat.add_0_r.
  destruct (need ordered e) as [|k] eqn:Hneed; [done|]. exfalso.
  unfold need in Hneed. destruct (filter _ _) as [|p l] eqn:Hf; [done|].
  assert (p ∈ filter (λ p, inner p ∧ p ∉ ordered) e) as Hp by (rewrite Hf; by left).
  apply list_elem_of_filter in Hp as [[Hin Hno] Hp]. apply Hno. by apply (IH (rank p)); [eapply Hrank|..].
Qed.
End loop.
