(* ===== verification/Frontier.v ===== *)
(** * What a peer is missing

    [gossip/src/frontier.rs]: the summary a sync request carries, the delta a
    responder sends for it, Kahn's sort of the delta, and the filter of
    events sent recently.  [std::time::Instant] is the number of milliseconds
    an [Instant::now()] reads, passed in. *)

From S2P Require Import Prelude Codec External Primitives Membership Graph Ancestry.
From S2P Require Import Insert Retain Reconnect Checkpoint Proto Kahn.

(** ** Summary *)

Definition known_summary (hg : Hashgraph) (registry : MembershipRegistry) : list (NodeId * N) :=
  (λ node, (node, match latest_event_by hg node ≫= get hg with
                  | Some record => rec_seq record
                  | None => 0%N
                  end)) <$> Registry.member_ids registry.

(** [iter().copied().collect()] into a [HashMap]: a later entry replaces an
    earlier one. *)
Definition collect_map `{Countable K} {V} (l : list (K * V)) : gmap K V :=
  foldl (λ m e, <[e.1 := e.2]> m) ∅ l.

(** ** Sorting the delta *)

Section topo.
Context `{Sha256, HashOrder}.

Abbreviation event_map := (gmap EventHash Event).

(** One edge of the delta: a parent that is itself in the delta. *)
Definition add_edge (events : event_map) (hash : EventHash)
    (g : gmap EventHash N * gmap EventHash (list EventHash)) (parent : EventHash) :
    gmap EventHash N * gmap EventHash (list EventHash) :=
  let '(indegree, children) := g in
  if decide (is_Some (events !! parent))
  then (<[hash := (default 0 (indegree !! hash) + 1)%N]> indegree,
        <[parent := default [] (children !! parent) ++ [hash]]> children)
  else g.

Fixpoint add_edges (events : event_map) (l : list (EventHash * Event))
    (g : gmap EventHash N * gmap EventHash (list EventHash)) :
    res GossipError (gmap EventHash N * gmap EventHash (list EventHash)) :=
  match l with
  | [] => mret g
  | (_, event) :: l =>
      hash ← match event_hash event with Ok h => Ok h | _ => Crash Panicked end;
      add_edges events l (foldl (add_edge events hash) g (parents event))
  end.

Fixpoint index_events (events : event_map) (hashes : list EventHash) : res GossipError (list Event) :=
  match hashes with
  | [] => mret []
  | hash :: hashes => e ← expect (events !! hash); es ← index_events events hashes; mret (e :: es)
  end.

Definition topo_sort (events : event_map) : res GossipError (list Event) :=
  '(indegree, children) ← add_edges events (hm_iter events)
                            ((λ _, 0%N) <$> events, (λ _, []) <$> events);
  let queue := (filter (λ e, e.2 = 0%N) (hm_iter indegree)).*1 in
  ordered ← emit (size events) children indegree queue [];
  if decide (length ordered ≠ size events)
  then Err (Sync "delta contains a cycle or dangling parent") else
  index_events events ordered.

(** ** The delta *)

(** Down the self-parents of one creator to the known sequence number. *)
Fixpoint collect_chain (fuel : nat) (hg : Hashgraph) (frontier : N) (cursor : option EventHash)
    (collected : event_map) : res GossipError event_map :=
  match cursor with
  | None => mret collected
  | Some hash =>
      match fuel with
      | O => Crash OutOfFuel
      | S fuel =>
          record ← ok_or (get hg hash) (Sync "latest event missing from graph");
          if decide (rec_seq record ≤ frontier)%N then mret collected else
          collect_chain fuel hg frontier (self_parent (rec_event record))
            (<[hash := rec_event record]> collected)
      end
  end.

Fixpoint collect_creators (hg : Hashgraph) (known_seq : gmap NodeId N) (creators : list NodeId)
    (collected : event_map) : res GossipError event_map :=
  match creators with
  | [] => mret collected
  | c :: creators =>
      collected ← collect_chain (S (size (events hg))) hg (default 0%N (known_seq !! c))
                    (latest_event_by hg c) collected;
      collect_creators hg known_seq creators collected
  end.

Definition delta_creators (known_seq : gmap NodeId N) (registry : MembershipRegistry) : gset NodeId :=
  list_to_set (Registry.member_ids registry) ∪ dom known_seq.

Definition delta_events (hg : Hashgraph) (known : list (NodeId * N)) (registry : MembershipRegistry) :
    res GossipError (list Event) :=
  let known_seq := collect_map known in
  collected ← collect_creators hg known_seq (hash_order (elements (delta_creators known_seq registry))) ∅;
  topo_sort collected.
End topo.

(** ** Recently sent events *)

Record SyncConfig := {
  filter_likely_duplicates : bool;
  non_ancestor_threshold : N;
  ancestor_threshold : N;
  self_threshold : N;
}.

Definition default_sync_config : SyncConfig :=
  {| filter_likely_duplicates := true; non_ancestor_threshold := 3000;
     ancestor_threshold := 250; self_threshold := 1000 |}.

Abbreviation DedupState := (gmap (EventHash * NodeId) (N * bool * bool)).

Definition should_filter (now : N) (hash : EventHash) (target_peer : NodeId) (is_self is_ancestor : bool)
    (config : SyncConfig) (sent : DedupState) : bool * DedupState :=
  if negb (filter_likely_duplicates config) then (false, sent) else
  let fresh := (false, <[(hash, target_peer) := (now, is_self, is_ancestor)]> sent) in
  match sent !! (hash, target_peer) with
  | Some (sent_at, prev_self, prev_ancestor) =>
      let threshold :=
        if is_self || prev_self then self_threshold config
        else if is_ancestor || prev_ancestor then ancestor_threshold config
        else non_ancestor_threshold config in
      if (now - sent_at <? threshold)%N then (true, sent) else fresh
  | None => fresh
  end.

Definition prune_expired (now : N) (config : SyncConfig) (sent : DedupState) : DedupState :=
  let max := N.max (N.max (non_ancestor_threshold config) (ancestor_threshold config)) (self_threshold config) in
  filter (λ e, (now - e.2.1.1 < max + 1000)%N) sent.

Section filtered.
Context `{Sha256, HashOrder}.

(** [now hash] is the clock when the event [hash] is looked at. *)
Fixpoint filter_events (now : EventHash → N) (hg : Hashgraph) (self_id target_peer : NodeId) (config : SyncConfig)
    (events : list Event) (sent : DedupState) : res GossipError (list Event * DedupState) :=
  match events with
  | [] => mret ([], sent)
  | event :: events =>
      let is_self := bool_decide (creator event = self_id) in
      hash ← match event_hash event with Ok h => Ok h | _ => Crash Panicked end;
      is_ancestor ←
        (if is_self then mret false else
         match latest_event_by hg self_id with
         | Some latest => match is_ancestor hg hash latest with
                          | Ok b => mret b
                          | Err _ => mret false
                          | Crash c => Crash c
                          end
         | None => mret false
         end);
      let '(filtered, sent) := should_filter (now hash) hash target_peer is_self is_ancestor config sent in
      '(out, sent) ← filter_events now hg self_id target_peer config events sent;
      mret (if filtered : bool then out else event :: out, sent)
  end.

Definition delta_events_filtered (now : EventHash → N) (prune_now : N) (hg : Hashgraph) (known : list (NodeId * N))
    (registry : MembershipRegistry) (self_id target_peer : NodeId) (config : SyncConfig)
    (sent : DedupState) : res GossipError (list Event * DedupState) :=
  events ← delta_events hg known registry;
  if negb (filter_likely_duplicates config) then mret (events, sent) else
  '(out, sent) ← filter_events now hg self_id target_peer config events sent;
  mret (out, prune_expired prune_now config sent).
End filtered.
