(* ===== verification/FrontierFacts.v ===== *)
(** * Kahn's sort of a delta

    [topo_sort] returns every event of the delta once, parents first, and
    never fails on an acyclic delta. *)

From S2P Require Import Prelude Codec External Primitives Membership Graph Ancestry.
From S2P Require Import Insert Retain Reconnect Checkpoint Proto Kahn Frontier.

Section topo.
Context `{Sha256} (evs : gmap EventHash Event).

(** The delta as a graph: the declared parents of every event. *)
Definition declared : gmap EventHash (list EventHash) := parents <$> evs.

Abbreviation inner := (Kahn.inner declared).
Definition inner_parents (e : Event) : list EventHash := filter inner (parents e).

Lemma inner_iff p : inner p ↔ is_Some (evs !! p).
Proof. unfold Kahn.inner, declared. by rewrite lookup_fmap, fmap_is_Some. Qed.

Lemma declared_Some h e : evs !! h = Some e → declared !! h = Some (parents e).
Proof. intros He. unfold declared. by rewrite lookup_fmap, He. Qed.

Lemma declared_inv h ps : declared !! h = Some ps → ∃ e, evs !! h = Some e ∧ ps = parents e.
Proof. unfold declared. rewrite lookup_fmap. intros (e & -> & He)%fmap_Some. by exists e. Qed.

(** ** The edges *)

Lemma add_edge_foldl hash ps ind ch :
  inner hash → is_Some (ind !! hash) → (∀ p, inner p → is_Some (ch !! p)) →
  let '(ind', ch') := foldl (add_edge evs hash) (ind, ch) ps in
  (∀ h, ind' !! h = if decide (h = hash)
                    then (λ n, n + N.of_nat (length (filter inner ps)))%N <$> ind !! h else ind !! h) ∧
  (∀ p, inner p → ch' !! p = (λ cs, cs ++ replicate (occ p ps) hash) <$> ch !! p).
Proof.
  intros Hin. revert ind ch. induction ps as [|p ps IH]; intros ind ch Hind Hch; simpl.
  { split.
    - intros h. case_decide; [|done]. destruct (ind !! h) as [n|]; simpl; [f_equal; lia|done].
    - intros p Hp. destruct (Hch p Hp) as [cs ->]. simpl. by rewrite app_nil_r. }
  destruct (decide (is_Some (evs !! p))) as [Hp|Hp]; rewrite <- inner_iff in Hp.
  - specialize (IH (<[hash := (default 0 (ind !! hash) + 1)%N]> ind)
      (<[p := default [] (ch !! p) ++ [hash]]> ch)).
    destruct (foldl _ _ _) as [ind' ch']. destruct IH as [IH1 IH2].
    { rewrite lookup_insert_eq. by eexists. }
    { intros q Hq. destruct (decide (q = p)) as [->|]; [rewrite lookup_insert_eq; by eexists|].
      rewrite lookup_insert_ne by done. by apply Hch. }
    rewrite filter_cons, decide_True by done. split.
    + intros h. rewrite IH1. case_decide as Hh; [|by rewrite lookup_insert_ne].
      subst h. rewrite lookup_insert_eq. destruct Hind as [n ->]. simpl. f_equal. lia.
    + intros q Hq. rewrite IH2, occ_cons by done. destruct (decide (p = q)) as [->|Hne].
      * rewrite lookup_insert_eq. destruct (Hch q Hq) as [cs ->]. simpl. by rewrite <- (assoc_L (++)).
      * by rewrite lookup_insert_ne.
  - specialize (IH ind ch Hind Hch). destruct (foldl _ _ _) as [ind' ch']. destruct IH as [IH1 IH2].
    rewrite filter_cons, decide_False by done. split; [done|].
    intros q Hq. rewrite IH2, occ_cons by done. rewrite decide_False; [done|]. by intros ->.
Qed.

(** The tables when the events of [m] have been entered. *)
Record edges (m : gmap EventHash Event) (ind : gmap EventHash N) (ch : gmap EventHash (list EventHash)) : Prop := {
  ed_dom : ∀ h, is_Some (ind !! h) ↔ inner h;
  ed_ind : ∀ h, inner h → ind !! h =
    Some (match m !! h with Some e => N.of_nat (length (inner_parents e)) | None => 0%N end);
  ed_ch : ∀ p, inner p → ∃ cs, ch !! p = Some cs ∧ (∀ c, c ∈ cs → inner c) ∧
    ∀ c, occ c cs = match m !! c with Some e => occ p (parents e) | None => 0 end;
}.

Context (Hhash : ∀ h e, evs !! h = Some e → event_hash e = Ok h).

Lemma edges_add m ind ch h e :
  edges m ind ch → evs !! h = Some e → m !! h = None →
  let '(ind', ch') := foldl (add_edge evs h) (ind, ch) (parents e) in edges (<[h := e]> m) ind' ch'.
Proof.
  intros [Hd Hi Hc] He Hm. assert (inner h) as Hin by (apply inner_iff; by exists e).
  pose proof (add_edge_foldl h (parents e) ind ch Hin) as Hf.
  destruct (foldl _ _ _) as [ind' ch']. destruct Hf as [Hf1 Hf2].
  { by apply Hd. }
  { intros p Hp. destruct (Hc p Hp) as (cs & -> & _). by eexists. }
  split.
  - intros x. rewrite Hf1. case_decide as Hx; [|apply Hd]. rewrite fmap_is_Some. apply Hd.
  - intros x Hx. rewrite Hf1. case_decide as Hxh.
    + subst x. rewrite lookup_insert_eq, (Hi h Hin), Hm. simpl. f_equal.
    + rewrite lookup_insert_ne by done. by apply Hi.
  - intros p Hp. destruct (Hc p Hp) as (cs & Hcs & Hcin & Hocc).
    exists (cs ++ replicate (occ p (parents e)) h). rewrite Hf2, Hcs by done. split; [done|]. split.
    + intros c [Hc'|[-> _]%elem_of_replicate]%elem_of_app; [by apply Hcin|done].
    + intros c. rewrite occ_app, occ_replicate, Hocc. case_decide as Hch.
      * subst c. by rewrite lookup_insert_eq, Hm.
      * rewrite lookup_insert_ne by done. lia.
Qed.

Lemma add_edges_Ok l m ind ch :
  edges m ind ch → NoDup l.*1 → (∀ h e, (h, e) ∈ l → evs !! h = Some e ∧ m !! h = None) →
  ∃ ind' ch', add_edges evs l (ind, ch) = Ok (ind', ch') ∧ edges (foldl (λ m e, <[e.1 := e.2]> m) m l) ind' ch'.
Proof.
  revert m ind ch. induction l as [|[h e] l IH]; intros m ind ch Hed Hnd Hl; [by exists ind, ch|].
  apply NoDup_cons in Hnd as [Hh Hnd]. destruct (Hl h e) as [He Hm]; [by left|].
  simpl. rewrite (Hhash h e He). simpl. pose proof (edges_add m ind ch h e Hed He Hm) as Hstep.
  destruct (foldl (add_edge evs h) (ind, ch) (parents e)) as [ind1 ch1].
  apply IH; [done|done|]. intros h' e' Hin. destruct (Hl h' e') as [He' Hm']; [by right|].
  split; [done|]. rewrite lookup_insert_ne; [done|]. intros ->. apply Hh. simpl. by apply list_elem_of_fmap_2' with (h', e').
Qed.

(** The order of a sorted delta: all events, each after its parents. *)
Record sorted_delta (es : list Event) : Prop := {
  sd_complete : ∀ h e, evs !! h = Some e → e ∈ es;
  sd_sound : ∀ e, e ∈ es → ∃ h, evs !! h = Some e;
  sd_nodup : NoDup es;
  sd_order : ∀ i e p, es !! i = Some e → p ∈ parents e → is_Some (evs !! p) →
    ∃ j ep, j < i ∧ es !! j = Some ep ∧ evs !! p = Some ep;
}.

Lemma index_events_Ok l : (∀ h, h ∈ l → inner h) → ∃ es, index_events evs l = Ok es ∧ Forall2 (λ h e, evs !! h = Some e) l es.
Proof.
  induction l as [|h l IH]; intros Hl; [by exists []; split|].
  assert (is_Some (evs !! h)) as [e He] by (apply inner_iff, Hl; by left). destruct IH as (es & Hes & Hf); [intros x Hx; apply Hl; by right|].
  exists (e :: es). cbn [index_events]. rewrite He, Hes. split; [done|by constructor].
Qed.

Lemma kahn_sorted (ordered : list EventHash) (ind : gmap EventHash N) (es : list Event) :
  kahn declared ordered [] ind (λ _, 0) → (∀ h, inner h → h ∈ ordered) →
  Forall2 (λ h e, evs !! h = Some e) ordered es → sorted_delta es.
Proof.
  intros [Hnd Hdom _ _ Hord] Hall Hf. rewrite app_nil_r in Hnd, Hdom. split.
  - intros h e He. assert (h ∈ ordered) as [i Hi]%list_elem_of_lookup by (apply Hall, inner_iff; by exists e).
    destruct (Forall2_lookup_l _ _ _ _ _ Hf Hi) as (e' & Hi' & He'). simplify_eq. by eapply list_elem_of_lookup_2.
  - intros e [i Hi]%list_elem_of_lookup. destruct (Forall2_lookup_r _ _ _ _ _ Hf Hi) as (h & _ & Hh). by exists h.
  - apply NoDup_alt. intros i j e Hi Hj.
    destruct (Forall2_lookup_r _ _ _ _ _ Hf Hi) as (h1 & Hi' & Hh1), (Forall2_lookup_r _ _ _ _ _ Hf Hj) as (h2 & Hj' & Hh2).
    assert (h1 = h2) as -> by (apply Hhash in Hh1, Hh2; congruence). by eapply NoDup_lookup.
  - intros i e p Hi Hp Hin%inner_iff. destruct (Forall2_lookup_r _ _ _ _ _ Hf Hi) as (h & Hi' & Hh).
    pose proof (Hord i h (parents e) p Hi' (declared_Some h e Hh) Hp Hin) as [j Hj]%list_elem_of_lookup.
    apply lookup_take_Some in Hj as [Hj Hlt]. destruct (Forall2_lookup_l _ _ _ _ _ Hf Hj) as (ep & Hj' & Hep).
    by exists j, ep.
Qed.
End topo.

Lemma collect_map_lookup `{Countable K} {V} (l : list (K * V)) k v :
  NoDup l.*1 → collect_map l !! k = Some v ↔ (k, v) ∈ l.
Proof.
  unfold collect_map. induction l as [|[k' v'] l IH] using rev_ind; intros Hnd.
  { simpl. rewrite lookup_empty. split; [done|by intros ?%not_elem_of_nil]. }
  rewrite fmap_app in Hnd. apply NoDup_app in Hnd as (Hnd & Hno & _).
  rewrite foldl_app, elem_of_app, list_elem_of_singleton. simpl. destruct (decide (k = k')) as [->|Hne].
  - rewrite lookup_insert_eq. split; [intros [= ->]; by right|].
    intros [Hin|[= ->]]; [|done]. destruct (Hno k'); [by apply list_elem_of_fmap_2' with (k', v)|by left].
  - rewrite lookup_insert_ne, IH by done. split; [by left|]. intros [?|[= -> ->]]; done.
Qed.

Lemma NoDup_hm_iter `{HashOrder} `{Countable K} {V} (m : gmap K V) : NoDup (hm_iter m).*1.
Proof. unfold hm_iter. rewrite hash_order_perm. apply NoDup_fst_map_to_list. Qed.

Lemma collect_hm_iter `{HashOrder} `{Countable K} {V} (m : gmap K V) : collect_map (hm_iter m) = m.
Proof.
  apply map_eq. intros k. apply option_eq. intros v.
  rewrite collect_map_lookup by apply NoDup_hm_iter. apply elem_of_hm_iter.
Qed.

Lemma need_nil evs e : need (declared evs) [] (parents e) = length (inner_parents evs e).
Proof.
  unfold need, inner_parents. f_equal. apply list_filter_iff. intros p. pose proof (not_elem_of_nil p). tauto.
Qed.

(** The queue the loop starts from. *)
Lemma kahn_start `{HashOrder} evs ind ch :
  edges evs evs ind ch → kahn (declared evs) [] (filter (λ e, e.2 = 0%N) (hm_iter ind)).*1 ind (λ _, 0).
Proof.
  intros Hed. set (queue := (filter _ (hm_iter ind)).*1).
  assert (∀ h, h ∈ queue ↔ ind !! h = Some 0%N) as Hqueue.
  { intros h. unfold queue. rewrite list_elem_of_fmap. split.
    - intros ([h' n] & -> & [Hn Hin]%list_elem_of_filter). simpl in *. subst n. by apply elem_of_hm_iter in Hin.
    - intros Hh. exists (h, 0%N). split; [done|]. apply list_elem_of_filter. split; [done|by apply elem_of_hm_iter]. }
  split.
  - simpl. eapply sublist_NoDup; [apply (NoDup_hm_iter ind)|]. apply fmap_sublist, sublist_filter.
  - intros h Hh%Hqueue. apply (ed_dom _ _ _ _ Hed). by eexists.
  - intros h ps (e & He & ->)%declared_inv. rewrite (ed_ind _ _ _ _ Hed) by (apply inner_iff; by exists e).
    by rewrite He, need_nil, Nat.add_0_r.
  - intros h ps (e & He & ->)%declared_inv. simpl.
    rewrite Hqueue, (ed_ind _ _ _ _ Hed) by (apply inner_iff; by exists e). rewrite He, need_nil.
    split; [intros [= Hn]; lia|]. intros Hn. do 2 f_equal. lia.
  - by intros i h e p Hi.
Qed.

Lemma edges_start evs : edges evs ∅ ((λ _, 0%N) <$> evs) ((λ _, []) <$> evs).
Proof.
  split.
  - intros h. by rewrite lookup_fmap, fmap_is_Some, inner_iff.
  - intros h [e He]%inner_iff. by rewrite lookup_fmap, He, lookup_empty.
  - intros p [e He]%inner_iff. exists []. rewrite lookup_fmap, He. split; [done|]. split; [by intros c ?%not_elem_of_nil|].
    intros c. by rewrite lookup_empty.
Qed.

(** Sorting an acyclic delta succeeds. *)
Lemma topo_sort_Ok `{Sha256, HashOrder} (evs : gmap EventHash Event) (rank : EventHash → nat) :
  (∀ h e, evs !! h = Some e → event_hash e = Ok h) →
  (∀ h e p, evs !! h = Some e → p ∈ parents e → is_Some (evs !! p) → rank p < rank h) →
  ∃ es, topo_sort evs = Ok es ∧ sorted_delta evs es.
Proof.
  intros Hhash Hrank. unfold topo_sort.
  destruct (add_edges_Ok evs Hhash (hm_iter evs) ∅ _ _ (edges_start evs) (NoDup_hm_iter evs))
    as (ind & ch & -> & Hed).
  { intros h e He. rewrite lookup_empty. by apply elem_of_hm_iter in He. }
  change (foldl _ ∅ (hm_iter evs)) with (collect_map (hm_iter evs)) in Hed. rewrite collect_hm_iter in Hed.
  unfold mbind at 1, res_bind at 1.
  destruct (emit_Ok (E := GossipError) (DT := gmap EventHash N) (declared evs) ch) with (fuel := size evs) (ordered := [] : list EventHash)
    (queue := (filter (λ e, e.2 = 0%N) (hm_iter ind)).*1) (ind := ind) as (ordered & ind' & -> & Hk').
  { intros p Hp. destruct (ed_ch _ _ _ _ Hed p Hp) as (cs & Hcs & Hin & Hocc). exists cs.
    split; [done|]. split; [done|]. intros c ps (e & He & ->)%declared_inv. by rewrite Hocc, He. }
  { by eapply kahn_start. }
  { unfold declared. by rewrite map_size_fmap. }
  assert (∀ h, Kahn.inner (declared evs) h → h ∈ ordered) as Hall.
  { eapply (kahn_done _ rank); [|exact Hk']. intros h ps p (e & He & ->)%declared_inv Hp Hin%inner_iff. by eapply Hrank. }
  pose proof (k_nodup _ _ _ _ _ Hk') as Hnd. pose proof (k_dom _ _ _ _ _ Hk') as Hdom. rewrite app_nil_r in Hnd, Hdom.
  destruct (index_events_Ok evs ordered Hdom) as (es & Hes & Hf).
  exists es. split; [|by eapply kahn_sorted].
  unfold mbind at 1, res_bind at 1. rewrite decide_False; [done|]. intros Hne. apply Hne.
  rewrite <- size_dom. rewrite <- (size_list_to_set (C := gset EventHash)) by done. f_equal.
  apply set_eq. intros h. rewrite elem_of_list_to_set, elem_of_dom, <- inner_iff. by split; [apply Hdom|apply Hall].
Qed.
