(* ===== verification/Sync.v ===== *)
(** * One sync round

    [gossip/src/sync.rs]: the initiator's side of a sync round, over the
    graph the node holds.  The transport is what it delivers: the frame the
    peer answers with, and whether the pushed event reached the peer.  The
    time [insert_verified] measures is left out. *)

From S2P Require Import Prelude Codec External Primitives Membership Graph Ancestry.
From S2P Require Import Insert Retain Reconnect Checkpoint Proto Frontier.

Record SyncOutcome := {
  fresh : list EventHash;
  pushback_delivered : bool;
  blocked : nat;
}.

Definition needs_reconnect (o : SyncOutcome) : bool := bool_decide (0 < blocked o).

Definition frame_name (f : Frame) : string :=
  match f with
  | FrameSyncRequest _ => "SyncRequest"
  | FrameSyncResponse _ => "SyncResponse"
  | FrameEvent _ => "Event"
  | FrameCheckpointSig _ => "CheckpointSig"
  | FrameReconnect _ => "Reconnect"
  | FrameReconnectResponse _ => "ReconnectResponse"
  | FrameBehind => "Behind"
  | FrameCheckpointRequest => "CheckpointRequest"
  | FrameCheckpointResponse _ => "CheckpointResponse"
  end.

Section sync.
Context `{Sha256, Ed25519, HashOrder}.

Abbreviation sync_action := (stM Hashgraph GossipError).

(** A duplicate is not an error. *)
Definition insert_or_skip (verified : Event) : sync_action (option EventHash) := λ hg,
  match insert verified hg with
  | (Ok hash, hg) => (Ok (Some hash), hg)
  | (Err (AlreadyPresent _), hg) => (Ok None, hg)
  | (Err error, hg) => (Err (Consensus error), hg)
  | (Crash c, hg) => (Crash c, hg)
  end.

Definition insert_verified (registry : MembershipRegistry) (event : Event) : sync_action (option EventHash) :=
  verified ← st_lift (λ _, map_err Crypto (verify_event registry event));
  insert_or_skip verified.

(** The loop over the received delta: the first [MissingParent] blocks the
    rest. *)
Fixpoint apply_delta (registry : MembershipRegistry) (events : list Event) (fresh : list EventHash) :
    sync_action (list EventHash * nat) :=
  match events with
  | [] => mret (fresh, 0)
  | event :: events => λ hg,
      match insert_verified registry event hg with
      | (Ok (Some hash), hg) => apply_delta registry events (fresh ++ [hash]) hg
      | (Ok None, hg) => apply_delta registry events fresh hg
      | (Err (Consensus (MissingParent _)), hg) => (Ok (fresh, 1 + length events), hg)
      | (Err error, hg) => (Err error, hg)
      | (Crash c, hg) => (Crash c, hg)
      end
  end.

Definition sync_request (hg : Hashgraph) (registry : MembershipRegistry) (node_id : NodeId) : Frame :=
  FrameSyncRequest {| sync_from := node_id; sync_known := known_summary hg registry |}.

(** [exchange_delta] on the frame received for the request. *)
Definition exchange_delta (registry : MembershipRegistry) (reply : Frame) :
    sync_action (list EventHash * nat) :=
  match reply with
  | FrameSyncResponse response => apply_delta registry (sync_events response) []
  | FrameBehind => st_fail (ReconnectFailed "peer reports this node is behind its retained history")
  | other => st_fail (UnexpectedFrame "SyncResponse" (frame_name other))
  end.

Definition insert_own_event (registry : MembershipRegistry) (node_id : NodeId) (signing_key : bytes)
    (self_parent other_parent : option EventHash) (payload : list Transaction) (timestamp : Timestamp) :
    sync_action (option (Event * EventHash)) :=
  let unsigned := {| ue_creator := node_id; ue_self_parent := self_parent; ue_other_parent := other_parent;
                     ue_timestamp := timestamp; ue_payload := payload |} in
  event ← st_lift (λ _, map_err (λ e, Crypto (Base e)) (sign_event signing_key unsigned));
  inserted ← insert_verified registry event;
  mret ((λ hash, (event, hash)) <$> inserted).

Definition create_own_event (registry : MembershipRegistry) (node_id : NodeId) (signing_key : bytes)
    (peer_id : NodeId) (payload : list Transaction) (timestamp : Timestamp) :
    sync_action (option (Event * EventHash)) :=
  hg ← st_get;
  insert_own_event registry node_id signing_key (latest_event_by hg node_id) (latest_event_by hg peer_id)
    payload timestamp.

(** [run_sync]; [delivered] is whether the frame with the own event was sent. *)
Definition run_sync (registry : MembershipRegistry) (node_id : NodeId) (signing_key : bytes)
    (peer_id : NodeId) (payload : list Transaction) (timestamp : Timestamp) (reply : Frame)
    (delivered : bool) : sync_action SyncOutcome :=
  '(fresh, blocked) ← exchange_delta registry reply;
  if decide (0 < blocked)
  then mret {| fresh := fresh; pushback_delivered := true; blocked := blocked |} else
  created ← create_own_event registry node_id signing_key peer_id payload timestamp;
  mret match created with
       | Some (_, hash) => {| fresh := fresh ++ [hash]; pushback_delivered := delivered; blocked := blocked |}
       | None => {| fresh := fresh; pushback_delivered := true; blocked := blocked |}
       end.
End sync.

(** ** Timestamps of own events: [max(clock_millis, last + 1)] *)

Definition next_timestamp_with_clock (clock_millis : N) : stM N GossipError Timestamp := λ last,
  let candidate := N.max clock_millis (u64_saturating_add last 1) in (Ok candidate, candidate).
