(* ===== verification/SyncFacts.v ===== *)
(** * A sync round brings the initiator up to date

    The delta computed for a node's summary is, without forks, exactly what
    the node is missing, and inserting it in the order received succeeds. *)

From S2P Require Import Prelude Codec External Primitives Membership Graph Ancestry Reach Order.
From S2P Require Import Fame Insert Wf Quorum Store Rounds OrderFacts Voting Reachable Finality.
From S2P Require Import Agreement Ballots ForkFree.
From S2P Require Import Retain Reconnect Checkpoint Proto Frontier FrontierFacts Sync.

(** ** The latest event of each creator *)

Definition latest_top (g : Hashgraph) : Prop :=
  ∀ h r, get g h = Some r → ∃ hl rl, latest_by_creator g !! creator (rec_event r) = Some hl ∧
    get g hl = Some rl ∧ creator (rec_event rl) = creator (rec_event r) ∧ (rec_seq r ≤ rec_seq rl)%N.

Lemma latest_top_shape g1 g2 : same_shape g1 g2 → latest_top g1 → latest_top g2.
Proof.
  intros Hs Ht h r2 H2. destruct (shape_get_Some _ _ _ _ (symmetry Hs) H2) as (r1 & H1 & E1 & S1 & _).
  destruct (Ht h r1 H1) as (hl & rl & Hl & Hrl & Hc & Hle).
  destruct (shape_get_Some _ _ _ _ Hs Hrl) as (rl2 & Hrl2 & E2 & S2 & _).
  exists hl, rl2. rewrite <- (shape_latest _ _ Hs), E1, <- E2, S1, <- S2. by split_and!.
Qed.

Lemma latest_top_stored `{Sha256} g g1 e hash i sp op sq row :
  graph_wf g → checked g e hash i sp op → stored g g1 e hash i sp op sq row → latest_top g → latest_top g1.
Proof.
  intros Hg Hck Hst Ht.
  pose proof (stored_new g g1 e hash i sp op sq row Hst) as Hnew.
  assert (∀ h r, get g h = Some r → get g1 h = Some r) as Hold by (intros; by eapply stored_old).
  assert (∀ c, c ≠ creator e → latest_by_creator g1 !! c = latest_by_creator g !! c) as Hother.
  { intros c Hc. rewrite (st_latest _ _ _ _ _ _ _ _ _ Hst). unfold note_latest.
    destruct (latest_by_creator g !! creator e); [case_decide|]; by rewrite ?lookup_insert_ne by done. }
  assert (∃ hl rl, latest_by_creator g1 !! creator e = Some hl ∧ get g1 hl = Some rl ∧
    creator (rec_event rl) = creator e ∧ (sq ≤ rec_seq rl)%N ∧
    ∀ h0 r0, latest_by_creator g !! creator e = Some h0 → get g h0 = Some r0 → (rec_seq r0 ≤ rec_seq rl)%N)
    as (hl & rl & Hl & Hrl & Hc & Hsq & Hmax).
  { rewrite (st_latest _ _ _ _ _ _ _ _ _ Hst). unfold note_latest.
    destruct (latest_by_creator g !! creator e) as [h0|] eqn:H0.
    - destruct (wf_latest _ Hg _ _ H0) as (r0 & Hr0 & Hc0). rewrite Hr0. case_decide as Hd.
      + exists hash. eexists. rewrite lookup_insert_eq. split_and!; [done|exact Hnew|done|done|].
        intros ? ? [= <-] ?. simplify_eq. simpl. lia.
      + exists h0, r0. split_and!; [done|by apply Hold|done|lia|]. intros ? ? [= <-] ?. by simplify_eq.
    - exists hash. eexists. rewrite lookup_insert_eq. by split_and!. }
  intros h r Hr. destruct (decide (creator (rec_event r) = creator e)) as [Hce|Hce].
  - rewrite Hce. exists hl, rl. split_and!; [done..|].
    destruct (stored_inv g g1 e hash i sp op sq row Hst h r Hr) as [[-> ->]|Hr']; [done|].
    destruct (Ht h r Hr') as (h0 & r0 & H0 & Hr0 & _ & Hle). rewrite Hce in H0.
    pose proof (Hmax h0 r0 H0 Hr0). lia.
  - destruct (stored_inv g g1 e hash i sp op sq row Hst h r Hr) as [[-> ->]|Hr']; [done|].
    destruct (Ht h r Hr') as (h0 & r0 & H0 & Hr0 & Hc0 & Hle). exists h0, r0.
    rewrite Hother by done. split_and!; [done|by apply Hold|done|done].
Qed.

(** ** What an accepted event adds *)

Section insert.
Context `{Sha256, HashOrder} (B : N) (g : Hashgraph) (e : Event).
Context (Hr : ready B g) (He : wf_event e) (HB1 : (1 ≤ B)%N) (Hcap : (B + 4 < u64_modulus)%N).

Lemma insert_latest_top r g' : insert e g = (r, g') → latest_top g → latest_top g'.
Proof.
  intros Hins Ht. destruct (insert_total B g e Hr (wf_signature _ He) Hcap HB1)
    as [[err Herr]|(hash & i & sp & op & g2 & g3 & Hok & _ & Hin & Hsk & _)].
  { by assert (g' = g) as -> by congruence. }
  assert (g' = g3) as -> by congruence. pose proof (ins_checked _ _ _ _ _ _ _ _ Hin) as Hck.
  destruct (ins_stored _ _ _ _ _ _ _ _ Hin) as (g1 & sq & row & total & Hst & _ & _ & Hg2). cbn zeta in Hg2.
  apply (latest_top_shape g2); [apply Hsk|]. rewrite Hg2.
  eapply latest_top_shape; [apply finalized_shape|]. by eapply latest_top_stored; [apply Hr|..].
Qed.

(** An accepted event is added, and nothing else changes in the set of
    events. *)
Lemma insert_Ok_adds hash g' :
  insert e g = (Ok hash, g') → event_hash e = Ok hash ∧ get g hash = None ∧ ready (B + 2) g' ∧
  ∀ h, rec_event <$> get g' h = if decide (h = hash) then Some e else rec_event <$> get g h.
Proof.
  intros Hins. destruct (insert_total B g e Hr (wf_signature _ He) Hcap HB1)
    as [[err Herr]|(hash' & i' & sp' & op' & g2 & g3 & Hok & _ & Hin & Hsk & Hrdy)]; [congruence|].
  assert (hash' = hash) as -> by congruence. assert (g3 = g') as -> by congruence.
  pose proof (ins_checked _ _ _ _ _ _ _ _ Hin) as Hck.
  split; [apply Hck|]. split; [apply Hck|]. split; [done|]. intros h.
  destruct (ins_stored _ _ _ _ _ _ _ _ Hin) as (g1 & sq & row & total & Hst & _ & _ & Hg2). cbn zeta in Hg2.
  assert (same_shape g1 g') as Hs.
  { etrans; [|apply (skel_shape _ _ Hsk)]. rewrite Hg2. apply finalized_shape. }
  assert (rec_event <$> get g' h = rec_event <$> get g1 h) as ->.
  { destruct (shape_cases _ _ h Hs) as [[-> ->]|(? & ? & -> & -> & E & _)]; [done|]. simpl. by rewrite E. }
  rewrite (st_events _ _ _ _ _ _ _ _ _ Hst). by case_decide.
Qed.

Lemma insert_adds hash i sp op :
  insert_checks g e = Ok (hash, i, sp, op) →
  ∃ g', insert e g = (Ok hash, g') ∧ ready (B + 2) g' ∧
    ∀ h, rec_event <$> get g' h = if decide (h = hash) then Some e else rec_event <$> get g h.
Proof.
  intros Hchk. destruct (insert_checks_cases g e) as [[err' ?]|(h' & i' & sp' & op' & Hchk' & Hck)]; [congruence|].
  assert (h' = hash) as -> by congruence.
  destruct (insert_run B g e Hr (wf_signature _ He) Hcap hash i' sp' op' Hchk' Hck HB1) as (g2 & Hins & Hrun).
  destruct (settle_Ok B g e (wf_signature _ He) Hcap hash i' sp' op' g2 Hins) as (_ & g4 & _ & _ & _ & Hs & _).
  unfold mbind, stM_bind in Hrun. rewrite Hs in Hrun. exists g4. split; [done|]. by apply insert_Ok_adds.
Qed.

(** An event on top of the creator's latest one is not a fork. *)
Lemma insert_on_latest hash g' :
  insert e g = (Ok hash, g') → self_parent e = latest_event_by g (creator e) →
  latest_top g → no_forks g g → no_forks g' g'.
Proof.
  intros Hins Hsp Ht Hnf. destruct (insert_Ok_adds hash g' Hins) as (_ & _ & _ & Hev).
  assert (∀ h r, get g' h = Some r → (h = hash ∧ rec_event r = e) ∨
    ∃ r0, get g h = Some r0 ∧ rec_event r = rec_event r0) as Hcases.
  { intros h r Hh. specialize (Hev h). rewrite Hh in Hev. case_decide; [left; split; [done|by injection Hev]|].
    right. destruct (get g h) as [r0|]; [|done]. exists r0. split; [done|by injection Hev]. }
  assert (∀ h r0, get g h = Some r0 → creator (rec_event r0) = creator e →
    self_parent (rec_event r0) ≠ self_parent e) as Hnew.
  { intros h r0 Hg Hc Hp. destruct (Ht h r0 Hg) as (hl & rl & Hl & Hrl & _ & Hle).
    rewrite Hc in Hl. rewrite Hsp in Hp. unfold latest_event_by in Hp. rewrite Hl in Hp.
    pose proof (rw_seq _ _ _ (wf_record _ (rdy_graph _ _ Hr) _ _ Hg)) as Hs. rewrite Hp in Hs.
    destruct Hs as (rp & Hrp & _ & Hs). simplify_eq. lia. }
  intros h1 h2 r1 r2 G1 G2 Hc Hp.
  destruct (Hcases h1 r1 G1) as [[-> E1]|(q1 & Q1 & E1)], (Hcases h2 r2 G2) as [[-> E2]|(q2 & Q2 & E2)].
  - done.
  - destruct (Hnew h2 q2 Q2); congruence.
  - destruct (Hnew h1 q1 Q1); congruence.
  - apply (Hnf h1 h2 q1 q2 Q1 Q2); congruence.
Qed.
End insert.

Lemma verify_event_same `{Ed25519} registry e v : verify_event registry e = Ok v → v = e.
Proof.
  intros (key & _ & (bs & _ & Hv)%res_bind_Ok)%res_bind_Ok. destruct (ed_verify_strict _ _ _); [|done].
  by apply res_ret_Ok in Hv.
Qed.

Lemma create_own_event_run `{Sha256, Ed25519, HashOrder} registry node key peer payload ts g e h g' :
  create_own_event registry node key peer payload ts g = (Ok (Some (e, h)), g') →
  creator e = node ∧ self_parent e = latest_event_by g node ∧ insert e g = (Ok h, g').
Proof.
  unfold create_own_event, insert_own_event. unfold mbind, stM_bind, st_get, st_lift.
  set (u := {| ue_creator := node |}). destruct (sign_event key u) as [ev| |] eqn:Hsign; [|done..]. simpl.
  destruct (insert_verified registry ev g) as [[[hash|]| |] g1] eqn:Hiv; [|done..]. simpl. intros [= -> -> ->].
  apply res_bind_Ok in Hsign as (bs & _ & <-%res_ret_Ok). split; [done|]. split; [done|].
  unfold insert_verified, mbind, stM_bind, st_lift in Hiv.
  destruct (verify_event registry _) as [v| |] eqn:Hv; [|done..]. simpl in Hiv.
  apply verify_event_same in Hv as ->.
  unfold insert_or_skip in Hiv. destruct (insert _ g) as [[hash|err|c] g2]; [by simplify_eq| |done].
  by destruct err.
Qed.

(** ** The delta *)

(** Entries that record events of the graph. *)
Definition of_graph (g : Hashgraph) (m : gmap EventHash Event) : Prop :=
  ∀ x e, m !! x = Some e → ∃ r, get g x = Some r ∧ rec_event r = e.

Definition above (g : Hashgraph) (s : N) (h x : EventHash) (e : Event) : Prop :=
  rtc (self_parent_of g) h x ∧ ∃ r, get g x = Some r ∧ (s < rec_seq r)%N ∧ rec_event r = e.

Section delta.
Context (g : Hashgraph) (Hg : graph_wf g).

Lemma chain_seq_le h r x rx :
  rtc (self_parent_of g) h x → get g h = Some r → get g x = Some rx → (rec_seq rx ≤ rec_seq r)%N.
Proof.
  intros Hx. revert r. induction Hx as [h|h p x (q & Hq & Hp) _ IH]; intros r Hr Hrx; [by simplify_eq|].
  assert (r = q) as -> by congruence. pose proof (rw_seq _ _ _ (wf_record _ Hg _ _ Hr)) as Hs. rewrite Hp in Hs.
  destruct Hs as (rp & Hrp & _ & ->). pose proof (IH rp Hrp Hrx). lia.
Qed.

Lemma above_step s h r x e :
  get g h = Some r → (s < rec_seq r)%N →
  above g s h x e ↔ (x = h ∧ e = rec_event r) ∨ ∃ p, self_parent (rec_event r) = Some p ∧ above g s p x e.
Proof.
  intros Hr Hs. split.
  - intros [Hx (rx & Hrx & Hsx & <-)]. destruct Hx as [|h p x (q & Hq & Hp) Hx]; simplify_eq; [by left|].
    right. exists p. split; [done|]. split; [done|by exists rx].
  - intros [[-> ->]|(p & Hp & Hx & Hrx)]; [split; [done|by exists r]|].
    split; [|done]. eapply rtc_l; [by exists r|done].
Qed.

Lemma collect_chain_spec (fuel : nat) (visited : gset EventHash) s h r acc :
  get g h = Some r → of_graph g acc →
  (∀ v, v ∈ visited → ∃ rv, get g v = Some rv ∧ (rec_seq r < rec_seq rv)%N) →
  size (events g) < fuel + size visited →
  ∃ acc', collect_chain fuel g s (Some h) acc = Ok acc' ∧ of_graph g acc' ∧
    ∀ x e, acc' !! x = Some e ↔ above g s h x e ∨ acc !! x = Some e.
Proof.
  revert visited h r acc. induction fuel as [|fuel IH]; intros visited h r acc Hh Hacc Hv Hsz.
  { assert (visited ⊆ dom (events g)) as Hsub%subseteq_size.
    { intros v (rv & Hrv & _)%Hv. apply elem_of_dom. by exists rv. }
    rewrite size_dom in Hsub. lia. }
  cbn [collect_chain]. rewrite Hh. simpl. case_decide as Hs.
  { exists acc. split; [done|]. split; [done|]. intros x e. split; [by right|].
    intros [[Hx (rx & Hrx & Hsx & _)]|]; [|done]. pose proof (chain_seq_le _ _ _ _ Hx Hh Hrx). lia. }
  assert (of_graph g (<[h := rec_event r]> acc)) as Hacc'.
  { intros x e [[<- <-]|[_ Hx]]%lookup_insert_Some; [by exists r|by apply Hacc]. }
  assert (∀ x e, <[h := rec_event r]> acc !! x = Some e ↔ (x = h ∧ e = rec_event r) ∨ acc !! x = Some e) as Hins.
  { intros x e. destruct (decide (x = h)) as [->|Hne].
    - rewrite lookup_insert_eq. split; [intros [= ->]; by left|]. intros [[_ ->]|Hx]; [done|].
      destruct (Hacc h e Hx) as (r' & ? & <-). by simplify_eq.
    - rewrite lookup_insert_ne by done. split; [by right|]. intros [[? _]|]; done. }
  pose proof (rw_seq _ _ _ (wf_record _ Hg _ _ Hh)) as Hseq.
  destruct (self_parent (rec_event r)) as [p|] eqn:Hp.
  - destruct Hseq as (rp & Hrp & _ & Hsq).
    destruct (IH ({[ h ]} ∪ visited) p rp (<[h := rec_event r]> acc)) as (acc' & -> & Hof & Hacc''); [done|done|..].
    + intros v [->%elem_of_singleton|Hin]%elem_of_union; [exists r; split; [done|lia]|].
      destruct (Hv v Hin) as (rv & ? & ?). exists rv. split; [done|lia].
    + rewrite size_union, size_singleton; [lia|].
      intros h' ->%elem_of_singleton (rv & ? & ?)%Hv. simplify_eq. lia.
    + exists acc'. split; [done|]. split; [done|]. intros x e.
      rewrite Hacc'', Hins, (above_step s h r x e Hh ltac:(lia)), Hp. naive_solver.
  - exists (<[h := rec_event r]> acc). split; [by destruct fuel|]. split; [done|]. intros x e.
    rewrite Hins, (above_step s h r x e Hh ltac:(lia)), Hp. naive_solver.
Qed.

Lemma collect_creators_spec `{Sha256, HashOrder} known_seq cs acc :
  of_graph g acc →
  ∃ acc', collect_creators g known_seq cs acc = Ok acc' ∧ of_graph g acc' ∧
    ∀ x e, acc' !! x = Some e ↔
      (∃ c h, c ∈ cs ∧ latest_by_creator g !! c = Some h ∧ above g (default 0%N (known_seq !! c)) h x e) ∨
      acc !! x = Some e.
Proof.
  revert acc. induction cs as [|c cs IH]; intros acc Hacc.
  { exists acc. split; [done|]. split; [done|]. intros x e. split; [by right|].
    intros [(c & h & ?%not_elem_of_nil & _)|]; done. }
  cbn [collect_creators]. unfold latest_event_by.
  destruct (latest_by_creator g !! c) as [h|] eqn:Hl.
  - destruct (wf_latest _ Hg _ _ Hl) as (r & Hr & _).
    destruct (collect_chain_spec (S (size (events g))) ∅ (default 0%N (known_seq !! c)) h r acc Hr Hacc)
      as (acc1 & -> & Hof1 & Hacc1); [by intros v ?%elem_of_empty|rewrite size_empty; lia|].
    destruct (IH acc1 Hof1) as (acc2 & Hrun & Hof2 & Hacc2). exists acc2. split; [done|]. split; [done|].
    intros x e. rewrite Hacc2, Hacc1. split.
    + intros [(c' & h' & ? & ? & ?)|[?|?]]; [left; exists c', h'; split; [by right|done]| |by right].
      left. exists c, h. split; [by left|done].
    + intros [(c' & h' & [->|Hin]%elem_of_cons & Hh & Hab)|?]; [|left; by exists c', h'|by right; right].
      right; left. by simplify_eq.
  - destruct (IH acc Hacc) as (acc2 & Hrun & Hof2 & Hacc2). exists acc2. split; [done|]. split; [done|].
    intros x e. rewrite Hacc2. split.
    + intros [(c' & h' & ? & ? & ?)|?]; [left; exists c', h'; split; [by right|done]|by right].
    + intros [(c' & h' & [->|Hin]%elem_of_cons & Hh & Hab)|?]; [congruence|left; by exists c', h'|by right].
Qed.
End delta.

(** ** The delta is what the initiator is missing *)

Definition latest_seq (g : Hashgraph) (c : NodeId) : N :=
  match latest_event_by g c ≫= get g with Some r => rec_seq r | None => 0%N end.

Lemma member_ids_NoDup reg : NoDup (Registry.member_ids reg).
Proof. unfold Registry.member_ids. rewrite merge_sort_Permutation. apply NoDup_fst_map_to_list. Qed.

Lemma known_seq_lookup g reg c :
  c ∈ Registry.member_ids reg → collect_map (known_summary g reg) !! c = Some (latest_seq g c).
Proof.
  intros Hc. apply collect_map_lookup.
  - unfold known_summary. rewrite <- list_fmap_compose, (list_fmap_ext _ id); [|done].
    rewrite list_fmap_id. apply member_ids_NoDup.
  - unfold known_summary. apply list_elem_of_fmap. by exists c.
Qed.

Section pair.
Context `{Sha256} (o1 o2 : HashOrder) (genesis : MembershipRegistry) (g1 g2 : Hashgraph) (B1 B2 : N).
Context (Hd1 : determined (H0 := o1) genesis g1) (Hd2 : determined (H0 := o2) genesis g2).
Context (Hr1 : ready B1 g1) (Hr2 : ready B2 g2) (Ht1 : latest_top g1) (Ht2 : latest_top g2).
Context (Hf2 : no_forks g2 g2) (Hf : no_forks g1 g2).
Context (Hsame : ∀ x, pair_same g1 g2 x).

Lemma creator_member x r : get g2 x = Some r → creator (rec_event r) ∈ Registry.member_ids genesis.
Proof.
  intros Hx. destruct (rw_creator _ _ _ (wf_record _ (rdy_graph _ _ Hr2) _ _ Hx)) as [i Hi].
  rewrite (dt_index _ _ Hd2) in Hi. by apply lookup_index_members in Hi as ?%list_elem_of_lookup_2.
Qed.

(** The initiator lacks exactly the events above its summary. *)
Lemma missing_above x r :
  get g2 x = Some r → (latest_seq g1 (creator (rec_event r)) < rec_seq r)%N ↔ get g1 x = None.
Proof.
  intros Hx. split.
  - intros Hlt. destruct (get g1 x) as [r1|] eqn:Hx1; [|done]. exfalso.
    destruct (Hsame x r1 r Hx1 Hx) as [Hs _].
    destruct (Ht1 x r1 Hx1) as (hl & rl & Hl & Hrl & _ & Hle).
    rewrite <- (shape_event _ _ Hs), <- (shape_seq _ _ Hs) in Hlt. unfold latest_seq, latest_event_by in Hlt.
    rewrite Hl in Hlt. simpl in Hlt. rewrite Hrl in Hlt. lia.
  - intros Hx1. apply N.nle_gt. intros Hle.
    unfold latest_seq, latest_event_by in Hle.
    pose proof (wf_seq_pos g2 (rdy_graph _ _ Hr2) x r Hx) as Hpos.
    destruct (latest_by_creator g1 !! creator (rec_event r)) as [hl|] eqn:Hl; simpl in Hle; [|lia].
    destruct (wf_latest _ (rdy_graph _ _ Hr1) _ _ Hl) as (rl & Hrl & Hc). rewrite Hrl in Hle.
    destruct (wf_chain_down g1 (rdy_graph _ _ Hr1) hl rl (rec_seq r) Hrl) as (y & _ & Hm); [lia|].
    rewrite Hc in Hm. assert (y = x) as ->.
    { eapply (chain_same g1 g2 (rdy_graph _ _ Hr1) (rdy_graph _ _ Hr2) Hf _ (rec_seq r)); [exact Hm|by exists r]. }
    destruct Hm as (r1 & ? & _). congruence.
Qed.

Lemma collected_missing :
  ∃ m, collect_creators g2 (collect_map (known_summary g1 genesis))
         (hash_order (HashOrder := o2) (elements (delta_creators (collect_map (known_summary g1 genesis)) genesis))) ∅ = Ok m ∧
    ∀ x e, m !! x = Some e ↔ get g1 x = None ∧ ∃ r, get g2 x = Some r ∧ rec_event r = e.
Proof.
  destruct (collect_creators_spec g2 (rdy_graph _ _ Hr2) (H0 := o2) (collect_map (known_summary g1 genesis))
    (hash_order (HashOrder := o2) (elements (delta_creators (collect_map (known_summary g1 genesis)) genesis))) ∅)
    as (m & Hm & _ & Hlook); [by intros x e ?%lookup_empty_Some|].
  exists m. split; [done|]. intros x e. rewrite Hlook, lookup_empty. split.
  - intros [(c & h & _ & Hl & Hch & (r & Hx & Hlt & <-))|]; [|done].
    destruct (wf_latest _ (rdy_graph _ _ Hr2) _ _ Hl) as (rl & Hrl & Hc).
    destruct (self_anc_creator g2 (rdy_graph _ _ Hr2) h x rl Hch Hrl) as (r' & Hx' & Hc').
    assert (r' = r) as -> by congruence. assert (c = creator (rec_event r)) as -> by congruence.
    rewrite known_seq_lookup in Hlt by (by eapply creator_member). simpl in Hlt.
    split; [by apply (missing_above x r)|by exists r].
  - intros (Hx1 & r & Hx & <-). left. pose proof (creator_member x r Hx) as Hmem.
    destruct (Ht2 x r Hx) as (hl & rl & Hl & Hrl & Hc & Hle).
    exists (creator (rec_event r)), hl. split.
    { rewrite (hash_order_perm (HashOrder := o2)). unfold delta_creators.
      apply elem_of_elements, elem_of_union_l. by apply elem_of_list_to_set. }
    split; [done|]. split.
    + eapply (chain_below g2 g2 (rdy_graph _ _ Hr2) (rdy_graph _ _ Hr2) Hf2 (creator (rec_event r)));
        [by exists r|by exists rl|done].
    + exists r. split; [done|]. split; [|done]. rewrite known_seq_lookup by done. simpl.
      by apply (missing_above x r).
Qed.

(** ** Inserting the delta *)

Context `{Ed25519}.
Context (Hver : ∀ x r, get g2 x = Some r → verify_event genesis (rec_event r) = Ok (rec_event r)).

(** The graph while the first events of the delta [es] are in. *)
Record applied (es : list Event) (i : nat) (g : Hashgraph) : Prop := {
  ap_determined : determined (H0 := o1) genesis g;
  ap_ready : ready (B1 + 2 * N.of_nat i) g;
  ap_events : ∀ x e, rec_event <$> get g x = Some e ↔
    rec_event <$> get g1 x = Some e ∨ ∃ j, j < i ∧ es !! j = Some e ∧ event_hash e = Ok x;
}.

Context (m : gmap EventHash Event) (es : list Event).
Context (Hm : ∀ x e, m !! x = Some e ↔ get g1 x = None ∧ ∃ r, get g2 x = Some r ∧ rec_event r = e).
Context (Hes : sorted_delta m es).
Context (HB1 : (1 ≤ B1)%N) (Hcap : (B1 + 2 * N.of_nat (length es) + 4 < u64_modulus)%N).

Lemma delta_event e : e ∈ es → ∃ x r, get g2 x = Some r ∧ rec_event r = e ∧ get g1 x = None ∧ event_hash e = Ok x ∧ wf_event e.
Proof.
  intros (x & [Hx1 (r & Hx & <-)]%Hm)%(sd_sound _ _ Hes). destruct (dt_hash _ _ Hd2 x r Hx). by exists x, r.
Qed.

(** Every parent of the next event is there. *)
Lemma parent_there i g e p :
  applied es i g → es !! i = Some e → p ∈ parents e →
  ∃ rp r2, get g p = Some rp ∧ get g2 p = Some r2 ∧ rec_event rp = rec_event r2.
Proof.
  intros [_ _ Hev] He Hp. destruct (delta_event e) as (x & r & Hx & <- & _); [by eapply list_elem_of_lookup_2|].
  destruct (rw_parents _ _ _ (wf_record _ (rdy_graph _ _ Hr2) _ _ Hx) p Hp) as [r2 Hp2].
  assert (rec_event <$> get g p = Some (rec_event r2)) as Hgp.
  { apply Hev. destruct (get g1 p) as [r1|] eqn:Hp1.
    - left. simpl. f_equal. apply shape_event. by apply (Hsame p r1 r2).
    - right. destruct (sd_order _ _ Hes i _ p He Hp) as (j & ep & Hlt & Hj & Hep).
      { exists (rec_event r2). apply Hm. split; [done|by exists r2]. }
      apply Hm in Hep as (_ & r' & ? & <-). simplify_eq. exists j. split; [done|]. split; [done|]. by apply (dt_hash _ _ Hd2). }
  destruct (get g p) as [rp|] eqn:Hgp'; [|done]. simpl in Hgp. exists rp, r2. split; [done|]. split; [done|]. congruence.
Qed.

Lemma next_checks i g e x :
  applied es i g → es !! i = Some e → event_hash e = Ok x → get g x = None →
  ∃ idx sp op, insert_checks g e = Ok (x, idx, sp, op).
Proof.
  intros Hap He Hx Hfresh.
  destruct (delta_event e) as (x' & r & Hx2 & Hre & _); [by eapply list_elem_of_lookup_2|].
  pose proof (wf_record _ (rdy_graph _ _ Hr2) _ _ Hx2) as Hw.
  destruct (rw_creator _ _ _ Hw) as [idx Hidx]. rewrite (dt_index _ _ Hd2), <- (dt_index _ _ (ap_determined _ _ _ Hap)), Hre in Hidx.
  assert (∀ o, (∀ p, o = Some p → p ∈ parents e) → ∃ q, lookup_parent g o = Ok q ∧
    (∀ p, o = Some p → ∃ rp r2, q = Some rp ∧ get g p = Some rp ∧ get g2 p = Some r2 ∧ rec_event rp = rec_event r2) ∧
    (o = None → q = None)) as Hlook.
  { intros [p|] Hp; simpl; [|by exists None]. destruct (parent_there i g e p Hap He (Hp p eq_refl)) as (rp & r2 & Hgp & Hp2 & Heq).
    rewrite Hgp. simpl. exists (Some rp). split; [done|]. split; [|done]. intros ? [= <-]. by exists rp, r2. }
  destruct (Hlook (self_parent e)) as (sp & Hsp & Hsp1 & Hsp0); [intros p Hp; apply elem_of_parents; by left|].
  destruct (Hlook (other_parent e)) as (op & Hop & _); [intros p Hp; apply elem_of_parents; by right|].
  exists idx, sp, op. unfold insert_checks. rewrite Hx. simpl. rewrite decide_False by (rewrite Hfresh; by intros [? ?]).
  unfold member_index_of. rewrite Hidx. simpl. rewrite Hsp. simpl. rewrite Hop. simpl.
  pose proof (rw_seq _ _ _ Hw) as Hseq. rewrite Hre in Hseq.
  destruct (self_parent e) as [p|]; [|by rewrite Hsp0].
  destruct (Hsp1 p eq_refl) as (rp & r2 & -> & _ & Hp2 & Heq). destruct Hseq as (r2' & ? & Hc & _). simplify_eq.
  rewrite decide_False; [done|]. rewrite Heq. intros Hne. by apply Hne.
Qed.

Lemma next_fresh i g e x :
  applied es i g → es !! i = Some e → event_hash e = Ok x → get g x = None.
Proof.
  intros [_ _ Hev] He Hx. destruct (get g x) as [r|] eqn:Hg; [|done]. exfalso.
  destruct (delta_event e) as (x' & r2 & Hx2 & Hre & Hx1 & Hh & _); [by eapply list_elem_of_lookup_2|].
  assert (x' = x) as -> by congruence.
  destruct (proj1 (Hev x (rec_event r))) as [Hin|(j & Hlt & Hj & Hjh)]; [by rewrite Hg|by rewrite Hx1 in Hin|].
  destruct (delta_event (rec_event r)) as (y & r3 & Hy2 & Hr3 & _ & Hyh & _); [by eapply list_elem_of_lookup_2|].
  assert (y = x) as -> by congruence. assert (r3 = r2) as -> by congruence. rewrite <- Hr3, Hre in Hj.
  pose proof (NoDup_lookup _ _ _ _ (sd_nodup _ _ Hes) He Hj). lia.
Qed.

Lemma apply_step i g e :
  applied es i g → es !! i = Some e →
  ∃ x g', insert_verified (H1 := o1) genesis e g = (Ok (Some x), g') ∧ applied es (S i) g'.
Proof.
  intros Hap He. pose proof (lookup_lt_Some _ _ _ He) as Hlt.
  destruct (delta_event e) as (x & r2 & Hx2 & Hre & Hx1 & Hh & Hwf); [by eapply list_elem_of_lookup_2|].
  destruct (next_checks i g e x Hap He Hh (next_fresh i g e x Hap He Hh)) as (idx & sp & op & Hchk).
  destruct (insert_adds (H0 := o1) (B1 + 2 * N.of_nat i) g e (ap_ready _ _ _ Hap) Hwf ltac:(lia) ltac:(lia) x idx sp op Hchk)
    as (g' & Hins & Hrdy & Hadd).
  exists x, g'. split.
  { unfold insert_verified, mbind, stM_bind, st_lift. rewrite <- Hre, (Hver x r2 Hx2). simpl.
    unfold insert_or_skip. by rewrite Hre, Hins. }
  split.
  - eapply (insert_determined (H0 := o1)); [apply Hap|apply Hap|exact Hwf|..|exact Hins]; lia.
  - by replace (B1 + 2 * N.of_nat (S i))%N with (B1 + 2 * N.of_nat i + 2)%N by lia.
  - intros y e'. rewrite Hadd. case_decide as Hy.
    + subst y. split.
      * intros [= <-]. right. exists i. split; [lia|done].
      * rewrite Hx1. intros [?|(j & Hj & Hje & Hjh)]; [done|]. f_equal.
        destruct (delta_event e') as (y & r3 & Hy2 & Hr3 & _ & Hyh & _); [by eapply list_elem_of_lookup_2|].
        assert (y = x) as -> by congruence. congruence.
    + rewrite (ap_events _ _ _ Hap). split; intros [?|(j & Hj & Hje & Hjh)]; [by left|right|by left|right].
      * exists j. split; [lia|done].
      * exists j. split; [|done]. destruct (decide (j = i)) as [->|]; [|lia].
        exfalso. apply Hy. congruence.
Qed.

Lemma apply_delta_Ok k i g acc :
  applied es i g → length es = i + k →
  ∃ acc' g', apply_delta (H1 := o1) genesis (drop i es) acc g = (Ok (acc', 0), g') ∧ applied es (length es) g'.
Proof.
  revert i g acc. induction k as [|k IH]; intros i g acc Hap Hlen.
  - rewrite drop_ge by lia. exists acc, g. split; [done|]. by replace (length es) with i by lia.
  - destruct (lookup_lt_is_Some_2 es i) as [e He]; [lia|]. rewrite (drop_S _ _ _ He). cbn [apply_delta].
    destruct (apply_step i g e Hap He) as (x & g' & -> & Hap'). apply IH; [done|lia].
Qed.

(** The events after the whole delta: those of both graphs. *)
Lemma applied_all g x :
  applied es (length es) g → is_Some (get g x) ↔ is_Some (get g1 x) ∨ is_Some (get g2 x).
Proof.
  intros [_ _ Hev].
  assert (∀ g0 : Hashgraph, is_Some (get g0 x) ↔ ∃ e, rec_event <$> get g0 x = Some e) as Hsome.
  { intros g0. rewrite <- (fmap_is_Some rec_event). split; [by intros [e ?]; exists e|by intros [e ?]; exists e]. }
  rewrite !Hsome. split.
  - intros [e [He|(j & _ & Hj & Hh)]%Hev]; [left; by exists e|right].
    destruct (delta_event e) as (y & r & Hy & Hr & _ & Hyh & _); [by eapply list_elem_of_lookup_2|].
    assert (y = x) as -> by congruence. exists e. by rewrite Hy, <- Hr.
  - intros [[e He]|[e He]]; [exists e; apply Hev; by left|].
    destruct (get g1 x) as [r1|] eqn:Hx1; [exists (rec_event r1); apply Hev; left; by rewrite Hx1|].
    destruct (get g2 x) as [r2|] eqn:Hx2; [|done]. injection He as <-.
    assert (rec_event r2 ∈ es) as [j Hj]%list_elem_of_lookup.
    { apply (sd_complete _ _ Hes x), Hm. split; [done|by exists r2]. }
    exists (rec_event r2). apply Hev. right. exists j. split; [by eapply lookup_lt_Some|]. split; [done|].
    by apply (dt_hash _ _ Hd2).
Qed.
End pair.

(** ** The whole round *)

Lemma later_latest_top `{Sha256, HashOrder} genesis n g :
  later (new genesis) n g → (2 * N.of_nat n + 3 < u64_modulus)%N → latest_top g.
Proof.
  intros Hl Hcap.
  assert (∀ m g', later (new genesis) m g' → m ≤ n → ready (1 + 2 * N.of_nat m) g') as Hready.
  { intros m g' Hm Hle. eapply later_extends; [exact Hm|apply new_ready|..]; lia. }
  induction Hl as [|n g1 g2 e r Hl IH He Hi].
  - intros h r. unfold get. simpl. by rewrite lookup_empty.
  - eapply insert_latest_top; [apply (Hready n); [done|lia]|exact He|..|exact Hi|apply IH]; try lia.
    intros; apply Hready; [done|lia].
Qed.

Lemma sync_round `{Sha256, Ed25519} (o1 o2 : HashOrder) genesis n1 n2 g1 g2 :
  later (H0 := o1) (new genesis) n1 g1 → later (H0 := o2) (new genesis) n2 g2 →
  (2 * N.of_nat (n1 + size (events g2)) + 5 < u64_modulus)%N → (2 * N.of_nat n2 + 3 < u64_modulus)%N →
  no_forks g2 g2 → no_forks g1 g2 →
  (∀ x r, get g2 x = Some r → verify_event genesis (rec_event r) = Ok (rec_event r)) →
  (∃ es fresh g', delta_events (H0 := o2) g2 (known_summary g1 genesis) genesis = Ok es ∧
     apply_delta (H1 := o1) genesis es [] g1 = (Ok (fresh, 0), g') ∧
     ∀ x, is_Some (get g' x) ↔ is_Some (get g1 x) ∨ is_Some (get g2 x)) ∨ sha256_collision.
Proof.
  intros Hl1 Hl2 Hn1 Hn2 Hf2 Hf Hver.
  destruct (agreement o1 o2 genesis n1 n2 g1 g2 Hl1 Hl2) as [Hsame|?]; [lia|lia|left|by right].
  destruct (later_determined (H0 := o1) genesis n1 g1 Hl1 ltac:(lia)) as [Hd1 Hr1].
  destruct (later_determined (H0 := o2) genesis n2 g2 Hl2 Hn2) as [Hd2 Hr2].
  pose proof (later_latest_top (H0 := o1) genesis n1 g1 Hl1 ltac:(lia)) as Ht1.
  pose proof (later_latest_top (H0 := o2) genesis n2 g2 Hl2 Hn2) as Ht2.
  destruct (collected_missing o2 genesis g1 g2 _ _ Hd2 Hr1 Hr2 Ht1 Ht2 Hf2 Hf Hsame) as (m & Hcol & Hm).
  assert (∀ h e, m !! h = Some e → event_hash e = Ok h) as Hhash.
  { intros h e (_ & r & Hr & <-)%Hm. by apply (dt_hash _ _ Hd2). }
  destruct (wf_acyclic _ (rdy_graph _ _ Hr2)) as [rank Hrank].
  destruct (topo_sort_Ok (H0 := o2) m rank Hhash) as (es & Hsort & Hes).
  { intros h e p (_ & r & Hr & <-)%Hm Hp _. apply Hrank. by exists r. }
  assert (length es ≤ size (events g2)) as Hlen.
  { rewrite <- length_map_to_list, <- (length_fmap (λ p, rec_event p.2)).
    apply submseteq_length, NoDup_submseteq; [apply Hes|].
    intros e (x & (_ & r & Hr & <-)%Hm)%(sd_sound _ _ Hes). apply list_elem_of_fmap. exists (x, r).
    split; [done|by apply elem_of_map_to_list]. }
  destruct (apply_delta_Ok o1 o2 genesis g1 g2 (2 * N.of_nat n1 + 1) _ Hd2 Hr2 Hsame Hver m es Hm Hes ltac:(lia) ltac:(lia)
    (length es) 0 g1 []) as (fresh & g' & Hrun & Hap); [|done|].
  { split; [done|by rewrite N.add_0_r|]. intros x e. split; [by left|]. intros [?|(j & ? & _)]; [done|lia]. }
  exists es, fresh, g'. split.
  { unfold delta_events. by rewrite Hcol. }
  split; [by rewrite drop_0 in Hrun|]. intros x. eapply (applied_all o1 o2); [exact Hd2|exact Hm|exact Hes|exact Hap].
Qed.
