(* ===== verification/GossipProps.v ===== *)
(** * Correctness of the gossip protocol

    The wire format, the sync round and the events a node creates. *)

From S2P Require Import Prelude Codec External Primitives Membership Graph Ancestry Reach Order.
From S2P Require Import Fame Insert Wf Quorum Store Rounds OrderFacts Voting Reachable Demo Finality.
From S2P Require Import Agreement Ballots ForkFree VotePairs OrderAgreement AgreementDemo.
From S2P Require Import Retain Reconnect Checkpoint CheckpointFacts CheckpointWindow CheckpointQuorum.
From S2P Require Import Proto ProtoFacts Frontier FrontierFacts Sync SyncFacts.


(** a node does not fork itself.  The event that a completed sync round
    creates names the creator's latest event as its self-parent, so a graph
    in which no creator has two events on one self-parent stays such a graph. *)
Theorem own_events_never_fork `{Sha256, Ed25519, HashOrder} genesis n g registry node key peer payload ts e h g' :
  later (new genesis) n g → (2 * N.of_nat n + 5 < u64_modulus)%N → no_forks g g →
  create_own_event registry node key peer payload ts g = (Ok (Some (e, h)), g') → wf_event e →
  creator e = node ∧ self_parent e = latest_event_by g node ∧ get g h = None ∧
  no_forks g' g' ∧ rec_event <$> get g' h = Some e.
Proof.
  intros Hl Hcap Hnf Hrun Hwf.
  destruct (later_determined genesis n g Hl ltac:(lia)) as [_ Hr].
  pose proof (later_latest_top genesis n g Hl ltac:(lia)) as Ht.
  apply create_own_event_run in Hrun as (Hc & Hsp & Hins).
  destruct (insert_Ok_adds _ g e Hr Hwf ltac:(lia) ltac:(lia) h g' Hins) as (_ & Hfresh & _ & Hev).
  split; [done|]. split; [done|]. split; [done|]. split.
  - eapply (insert_on_latest _ g e Hr Hwf); [lia|lia|exact Hins|by rewrite Hc|done|done].
  - rewrite Hev. by rewrite decide_True.
Qed.

(** C33: the wire format.  Every frame whose fields fit the format and whose
    snapshot and roster history stay within the size limit is read back from
    its encoding, and no byte string makes the decoder panic. *)
Theorem wire_frames_roundtrip `{Sha256, Ed25519, Bls} f w :
  wf_frame f → to_bytes f = Ok w → from_bytes w = Ok f ∧ ∀ bs, no_crash (from_bytes bs).
Proof. intros Hf Hw. split; [by apply from_bytes_to_bytes|apply from_bytes_no_crash]. Qed.

(** ** Instances *)

#[local] Existing Instance toy_sha256.
#[local] Existing Instance toy_ed25519.
#[local] Existing Instance toy_bls.



Definition ring5 : list Event := Eval vm_compute in take 5 ring16.

Lemma ring5_wf : Forall wf_event ring5.
Proof. apply (bool_decide_eq_true_1 _). vm_compute. reflexivity. Qed.


(** A node with five events of the ring, and one with nine. *)
Definition behind : Hashgraph := demo_graph (H := reverse_order) 4 ring5.

Lemma behind_later : later (H0 := reverse_order) (new (demo_registry 4)) 5 behind.
Proof. refine (prompt_later _ _ _ (demo_prompt (H := reverse_order) 4 ring5 ring5_wf _)). vm_compute. reflexivity. Qed.


Lemma behind_forks : no_forks behind behind.
Proof. apply no_forks_by_check. vm_compute. reflexivity. Qed.




(** Member 2 creates an event after hearing from member 1. *)
Definition own_run := create_own_event (H1 := reverse_order) (demo_registry 4) 2 (demo_key 2) 1 [] 500 behind.
Definition own_made : Event * EventHash :=
  match own_run.1 with Ok (Some p) => p | _ => (demo_event [] 0 (0%N, None, None), []) end.

Lemma own_events_never_fork_witness :
  creator own_made.1 = 2%N ∧ no_forks own_run.2 own_run.2.
Proof.
  assert (own_run = (Ok (Some (own_made.1, own_made.2)), own_run.2)) as Hrun.
  { transitivity (own_run.1, own_run.2); [apply surjective_pairing|].
    apply (f_equal (λ r, (r, own_run.2))). vm_compute. reflexivity. }
  destruct (own_events_never_fork (H1 := reverse_order) (demo_registry 4) 5 behind (demo_registry 4) 2 (demo_key 2) 1
    [] 500 own_made.1 own_made.2 own_run.2 behind_later eq_refl behind_forks Hrun) as (Hc & _ & _ & Hnf & _).
  - apply (bool_decide_eq_true_1 _). vm_compute. reflexivity.
  - split; [exact Hc|exact Hnf].
Defined.

Definition demo_frame : Frame := FrameSyncResponse {| sync_events := ring5 |}.
Definition demo_wire : bytes := Eval vm_compute in match to_bytes demo_frame with Ok w => w | _ => [] end.

Lemma wire_frames_roundtrip_witness : from_bytes demo_wire = Ok demo_frame.
Proof.
  refine (proj1 (wire_frames_roundtrip demo_frame demo_wire _ _)); [exact ring5_wf|vm_compute; reflexivity].
Defined.
