(* ===== verification/CodecProps.v ===== *)
(** * What the wire formats guarantee

    Events ([crypto/src/canonical_impls.rs], [consensus/src/reconnect.rs]),
    member registries ([crypto/src/membership.rs]), membership operations and
    roster histories ([crypto/src/roster.rs]). *)

From S2P Require Import Prelude Codec External Primitives Membership Demo.

#[local] Existing Instance toy_sha256.
#[local] Existing Instance toy_ed25519.

Section props.
Context `{Sha256, Ed25519}.

(** the canonical encoding of events is injective and decoded by
    [decode_event_bytes]: decoding the encoding of a well-formed event gives
    the event back, and two events with the same hash are equal or exhibit a
    SHA-256 collision. *)
Theorem event_encoding_faithful e w h e' :
  wf_event e → wf_event e' → encode_event e = Ok w →
  decode_event_bytes tt w = Ok e ∧
  (event_hash e = Ok h → event_hash e' = Ok h → e = e' ∨ sha256_collision).
Proof.
  intros He He' Hw. split; [by apply decode_encode_event|]. by apply event_hash_collision.
Qed.

(** member registries round-trip through their byte form, which
    determines them, and [from_bytes] never panics on any input. *)
Theorem registry_roundtrip r1 r2 bs :
  wf_registry r1 → wf_registry r2 →
  Registry.from_bytes (Registry.to_bytes r1) = Ok r1 ∧
  (Registry.to_bytes r1 = Registry.to_bytes r2 → r1 = r2) ∧
  no_crash (Registry.from_bytes bs) ∧
  (∀ r, Registry.from_bytes bs = Ok r → wf_registry r).
Proof.
  intros H1 H2. split_and!.
  - by apply RegistryFacts.from_to_bytes.
  - by apply RegistryFacts.to_bytes_inj.
  - by apply RegistryFacts.from_bytes_loop_safe.
  - intros r. apply RegistryFacts.from_bytes_loop_wf. by apply map_Forall_empty.
Qed.

(** every well-formed membership operation encodes, and decoding gives
    it back up to the IPv6 flow label and scope id, which the encoding drops;
    decoding arbitrary bytes never panics. *)
Theorem membership_op_roundtrip op bs :
  wf_op op →
  (∃ w, MemOp.encode op = Ok w ∧ MemOp.decode w = Ok (canonical_op op)) ∧
  no_crash (MemOp.decode bs).
Proof.
  intros Hop. split; [|apply MemOpFacts.decode_no_crash].
  destruct (MemOpFacts.encode_total op Hop) as [w Hw].
  exists w. split; [done|]. by apply MemOpFacts.decode_encode.
Qed.

(** scheduling a roster changes no earlier round and governs its own
    round on; pruning the history below [keep] changes no roster from [keep]
    on; a history read back from its snapshots is the same history. *)
Theorem roster_history_lookups {E} rh a reg keep r :
  snapshots rh ≠ ∅ →
  ((r < a)%N → Roster.roster_for_round (E := E) (Roster.schedule rh a reg) r
               = Roster.roster_for_round rh r) ∧
  ((a ≤ r)%N → (∀ a', is_Some (snapshots rh !! a') → (a' ≤ r)%N → (a' ≤ a)%N) →
     Roster.roster_for_round (E := E) (Roster.schedule rh a reg) r = Ok reg) ∧
  ((keep ≤ r)%N → Roster.roster_for_round (E := E) (Roster.prune_before rh keep) r
                  = Roster.roster_for_round rh r) ∧
  Roster.from_snapshots (Roster.entries rh) = Some rh.
Proof.
  intros Hne. split_and!.
  - apply RosterFacts.roster_for_round_schedule_before.
  - apply RosterFacts.roster_for_round_schedule_from.
  - apply RosterFacts.roster_for_round_prune_before.
  - by apply RosterFacts.from_snapshots_entries.
Qed.
End props.

(** ** Instances *)

Definition an_event : Event := demo_event [] 7 (1%N, None, None).
Definition an_event_bytes : bytes := match encode_event an_event with Ok w => w | _ => [] end.

Lemma an_event_wf : wf_event an_event.
Proof. apply (bool_decide_eq_true_1 _). vm_compute. reflexivity. Qed.

Lemma event_encoding_faithful_witness : decode_event_bytes tt an_event_bytes = Ok an_event.
Proof.
  apply (event_encoding_faithful an_event an_event_bytes [] an_event);
    [apply an_event_wf|apply an_event_wf|vm_compute; reflexivity].
Defined.

Lemma demo_registry_wf : wf_registry (demo_registry 2).
Proof.
  apply (RegistryFacts.wf_register); [apply RegistryFacts.wf_register; [apply map_Forall_empty|]|];
    by split_and!.
Qed.

Lemma registry_roundtrip_witness :
  Registry.from_bytes (Registry.to_bytes (demo_registry 2)) = Ok (demo_registry 2).
Proof.
  apply (registry_roundtrip (demo_registry 2) (demo_registry 2) []); apply demo_registry_wf.
Defined.

Definition an_op : MembershipOp :=
  Add 7 (demo_key 7) (be_bytes 48 7) (be_bytes 96 7) (SocketV4 (be_bytes 4 1) 80)
    (Some (SocketV6 (be_bytes 16 1) 81 5 6)).

Lemma membership_op_roundtrip_witness :
  ∃ w, MemOp.encode an_op = Ok w ∧ MemOp.decode w = Ok (canonical_op an_op).
Proof.
  apply (membership_op_roundtrip an_op []). vm_compute. by split_and!.
Defined.

Lemma roster_history_lookups_witness :
  Roster.from_snapshots (Roster.entries (Roster.new (demo_registry 2))) = Some (Roster.new (demo_registry 2)).
Proof.
  apply (roster_history_lookups (E := unit) (Roster.new (demo_registry 2)) 5 (demo_registry 3) 3 4).
  discriminate.
Defined.
