(* ===== verification/MerkleLog.v ===== *)
(** * The RFC-6962 actor log (executor/state/src/merkle_log.rs)

    Hashes of append-only lists: the tree head [mth], inclusion and consistency
    proofs, their verifiers and their wire format.  A function that the source
    writes with [Option] returns [res unit]: [Err tt] is [None], and running out
    of recursion fuel is kept apart as [Crash OutOfFuel], so that a theorem about
    a result is also a theorem about termination. *)

From S2P Require Import Prelude Codec External.

(** [pub type Hash = [u8; 32]]: 32 bytes, which the theorems assume of the
    hashes they are given. *)
Abbreviation Hash := (list Byte.byte).

Definition EMPTY_ROOT : Hash :=
  byte_of_N <$>
    [0xe3; 0xb0; 0xc4; 0x42; 0x98; 0xfc; 0x1c; 0x14; 0x9a; 0xfb; 0xf4; 0xc8; 0x99; 0x6f; 0xb9; 0x24;
     0x27; 0xae; 0x41; 0xe4; 0x64; 0x9b; 0x93; 0x4c; 0xa4; 0x95; 0x99; 0x1b; 0x78; 0x52; 0xb8;
     0x55]%N.

(** [1u64 << n.ilog2()], halved when it is [n] itself. *)
Definition largest_pow2_below (n : N) : N :=
  let floor := (2 ^ N.log2 n)%N in
  if (floor =? n)%N then (floor / 2)%N else floor.

Definition split_point (leaves : list Hash) : nat :=
  N.to_nat (largest_pow2_below (N.of_nat (length leaves))).

(** [slice.split_first()?]. *)
Definition split_first {A} (l : list A) : res unit (A * list A) :=
  match l with [] => Err tt | x :: rest => Ok (x, rest) end.

(** [head.as_chunks::<w>()]: the full chunks and the remainder. *)
Fixpoint as_chunks_loop (fuel w : nat) (l : bytes) : list bytes * bytes :=
  match fuel with
  | O => ([], l)
  | S fuel =>
    if decide (w ≤ length l)
    then let '(chunks, remainder) := as_chunks_loop fuel w (drop w l) in
         (take w l :: chunks, remainder)
    else ([], l)
  end.

Definition as_chunks (w : nat) (l : bytes) : list bytes * bytes := as_chunks_loop (length l) w l.

Record ConsistencyProof := mkConsistencyProof {
  old_leaf_count : N;
  new_leaf_count : N;
  cons_nodes : list Hash;
}.

Record InclusionProof := mkInclusionProof {
  leaf_index : N;
  leaf_count : N;
  incl_nodes : list Hash;
}.

(** The recursions halve their size argument, so its logarithm bounds them. *)
Definition tree_fuel (n : N) : nat := S (N.to_nat (N.log2_up n)).

Section merkle_log.
Context `{Sha256}.

Definition leaf_hash (data : bytes) : Hash := sha256 (x00 :: data).
Definition node_hash (l r : Hash) : Hash := sha256 (x01 :: l ++ r).

Fixpoint mth_loop (fuel : nat) (leaf_hashes : list Hash) : Hash :=
  match leaf_hashes, fuel with
  | [], _ | _, O => EMPTY_ROOT
  | [leaf], _ => leaf
  | _, S fuel =>
    let k := split_point leaf_hashes in
    node_hash (mth_loop fuel (take k leaf_hashes)) (mth_loop fuel (drop k leaf_hashes))
  end.

Definition mth (leaf_hashes : list Hash) : Hash := mth_loop (length leaf_hashes) leaf_hashes.

(** ** Proofs *)

Fixpoint inclusion_path (fuel : nat) (m : N) (leaves : list Hash) : res unit (list Hash) :=
  match fuel with
  | O => Crash OutOfFuel
  | S fuel =>
    if length leaves <=? 1 then mret [] else
    let k := split_point leaves in
    if (m <? N.of_nat k)%N
    then out ← inclusion_path fuel m (take k leaves); mret (out ++ [mth (drop k leaves)])
    else out ← inclusion_path fuel (m - N.of_nat k) (drop k leaves);
         mret (out ++ [mth (take k leaves)])
  end.

Definition prove_inclusion (leaf_hashes : list Hash) (index : nat) : res unit InclusionProof :=
  let n := N.of_nat (length leaf_hashes) in
  if length leaf_hashes <=? index then Err tt else
  nodes ← inclusion_path (tree_fuel n) (N.of_nat index) leaf_hashes;
  mret (mkInclusionProof (N.of_nat index) n nodes).

Fixpoint inclusion_rec (fuel : nat) (m n : N) (leaf : Hash) (proof : list Hash)
    : res unit (Hash * list Hash) :=
  match fuel with
  | O => Crash OutOfFuel
  | S fuel =>
    if (n =? 1)%N then (if (m =? 0)%N then mret (leaf, proof) else Err tt) else
    if (n <=? m)%N then Err tt else
    let k := largest_pow2_below n in
    if (m <? k)%N then
      '(folded, rest) ← inclusion_rec fuel m k leaf proof;
      '(sibling, rest) ← split_first rest;
      mret (node_hash folded sibling, rest)
    else
      '(folded, rest) ← inclusion_rec fuel (m - k) (n - k) leaf proof;
      '(sibling, rest) ← split_first rest;
      mret (node_hash sibling folded, rest)
  end.

(** [match .. { Some((calc, rest)) => .., None => false }]. *)
Definition accepts {A} (r : res unit A) (ok : A → bool) : res unit bool :=
  match r with Ok a => Ok (ok a) | Err _ => Ok false | Crash c => Crash c end.

Definition is_empty {A} (l : list A) : bool := match l with [] => true | _ => false end.

Definition verify_inclusion (leaf : Hash) (proof : InclusionProof) (root : Hash) : res unit bool :=
  if ((leaf_count proof =? 0) || (leaf_count proof <=? leaf_index proof))%N then Ok false else
  accepts
    (inclusion_rec (tree_fuel (leaf_count proof)) (leaf_index proof) (leaf_count proof)
       leaf (incl_nodes proof))
    (λ '(calc, rest), is_empty rest && bool_decide (calc = root)).

Fixpoint consistency_subproof (fuel : nat) (m : N) (leaves : list Hash) (b : bool)
    : res unit (list Hash) :=
  match fuel with
  | O => Crash OutOfFuel
  | S fuel =>
    if (m =? N.of_nat (length leaves))%N then mret (if b then [] else [mth leaves]) else
    let k := split_point leaves in
    if (m <=? N.of_nat k)%N
    then out ← consistency_subproof fuel m (take k leaves) b; mret (out ++ [mth (drop k leaves)])
    else out ← consistency_subproof fuel (m - N.of_nat k) (drop k leaves) false;
         mret (out ++ [mth (take k leaves)])
  end.

Definition prove_consistency (leaf_hashes : list Hash) (old_count : nat)
    : res unit ConsistencyProof :=
  let n := N.of_nat (length leaf_hashes) in
  if length leaf_hashes <? old_count then Err tt else
  nodes ←
    (if (0 <? old_count) && (old_count <? length leaf_hashes)
     then consistency_subproof (tree_fuel n) (N.of_nat old_count) leaf_hashes true
     else mret []);
  mret (mkConsistencyProof (N.of_nat old_count) n nodes).

Fixpoint consistency_rec (fuel : nat) (m n : N) (b : bool) (proof : list Hash) (known_old : Hash)
    : res unit ((Hash * Hash) * list Hash) :=
  match fuel with
  | O => Crash OutOfFuel
  | S fuel =>
    if (m =? n)%N then
      if b then mret ((known_old, known_old), proof)
      else '(head, rest) ← split_first proof; mret ((head, head), rest)
    else
    if (n <? m)%N then Err tt else
    let k := largest_pow2_below n in
    if (m <=? k)%N then
      '((old_side, left_new), rest) ← consistency_rec fuel m k b proof known_old;
      '(sibling, rest) ← split_first rest;
      mret ((old_side, node_hash left_new sibling), rest)
    else
      '((old_side, right_new), rest) ← consistency_rec fuel (m - k) (n - k) false proof known_old;
      '(sibling, rest) ← split_first rest;
      mret ((node_hash sibling old_side, node_hash sibling right_new), rest)
  end.

Definition verify_consistency (old_root : Hash) (proof : ConsistencyProof) (new_root : Hash)
    : res unit bool :=
  let m := old_leaf_count proof in
  let n := new_leaf_count proof in
  if (n <? m)%N then Ok false else
  if (m =? 0)%N then Ok (is_empty (cons_nodes proof) && bool_decide (old_root = EMPTY_ROOT)) else
  if (m =? n)%N then Ok (is_empty (cons_nodes proof) && bool_decide (old_root = new_root)) else
  accepts
    (consistency_rec (tree_fuel n) m n true (cons_nodes proof) old_root)
    (λ '((calc_old, calc_new), rest),
       is_empty rest && bool_decide (calc_old = old_root) && bool_decide (calc_new = new_root)).
End merkle_log.

(** ** Wire format *)

Definition read_u64 : stM bytes unit N := take_u64 tt.
Definition read_u32 : stM bytes unit N := take_u32 tt.

(** [count.checked_mul(32)] cannot overflow a 64-bit [usize]: [count] is a
    [u32]. *)
Definition read_hashes_from : stM bytes unit (list Hash) :=
  count ← read_u32;
  head ← take_exact tt (count * 32);
  let '(chunks, remainder) := as_chunks 32 head in
  if is_empty remainder then mret chunks else st_fail tt.

(** [u32::try_from(nodes.len()).expect(..)] and the nodes, back to back. *)
Definition write_hashes {E} (nodes : list Hash) : res E bytes :=
  if decide (N.of_nat (length nodes) < u32_modulus)%N
  then Ok (u32_be (N.of_nat (length nodes)) ++ concat nodes)
  else Crash Panicked.

Module Consistency.

Definition encode {E} (proof : ConsistencyProof) : res E bytes :=
  nodes ← write_hashes (cons_nodes proof);
  mret (u64_be (old_leaf_count proof) ++ u64_be (new_leaf_count proof) ++ nodes).

Definition decode_from : stM bytes unit ConsistencyProof :=
  old_leaf_count ← read_u64;
  new_leaf_count ← read_u64;
  nodes ← read_hashes_from;
  mret (mkConsistencyProof old_leaf_count new_leaf_count nodes).

Definition decode (input : bytes) : res unit ConsistencyProof :=
  ((proof ← decode_from; reject_trailing tt;; mret proof) input).1.

End Consistency.

Module Inclusion.

Definition encode {E} (proof : InclusionProof) : res E bytes :=
  nodes ← write_hashes (incl_nodes proof);
  mret (u64_be (leaf_index proof) ++ u64_be (leaf_count proof) ++ nodes).

Definition decode_from : stM bytes unit InclusionProof :=
  leaf_index ← read_u64;
  leaf_count ← read_u64;
  nodes ← read_hashes_from;
  mret (mkInclusionProof leaf_index leaf_count nodes).

Definition decode (input : bytes) : res unit InclusionProof :=
  ((proof ← decode_from; reject_trailing tt;; mret proof) input).1.

End Inclusion.
