(* ===== verification/MerkleLogFacts.v ===== *)
(** * Correctness of the actor log

    Completeness of the two provers (an honest proof verifies), soundness of the
    two verifiers (a proof that verifies against the head of a list tells the
    truth about that list, up to a SHA-256 collision), and the append-only
    discipline they give together. *)

From S2P Require Import Prelude Codec External MerkleLog.

(** ** The split point *)

Lemma largest_pow2_below_spec n :
  (1 < n)%N →
  ∃ j, (largest_pow2_below n = 2 ^ j ∧ 2 ^ j < n ≤ 2 * 2 ^ j ∧ N.log2_up n = j + 1)%N.
Proof.
  intros Hn. unfold largest_pow2_below.
  destruct (N.log2_spec n) as [Hlo Hhi]; [lia|].
  rewrite N.pow_succ_r' in Hhi.
  destruct (N.eqb_spec (2 ^ N.log2 n) n) as [Heq|Hne].
  - assert (0 < N.log2 n)%N as Hpos by (apply N.log2_pos; lia).
    exists (N.log2 n - 1)%N.
    assert (2 ^ N.log2 n = 2 * 2 ^ (N.log2 n - 1))%N as Hdouble.
    { rewrite <- N.pow_succ_r'. f_equal. lia. }
    rewrite Hdouble, N.mul_comm, N.div_mul by lia.
    split; [done|]. split; [lia|].
    rewrite <- Heq at 1. rewrite N.log2_up_pow2; lia.
  - exists (N.log2 n). split; [done|]. split; [lia|].
    apply N.log2_up_unique; [lia|]. rewrite N.add_1_r, N.pred_succ, N.pow_succ_r'. lia.
Qed.

Lemma largest_pow2_below_unique n j :
  (2 ^ j < n ≤ 2 * 2 ^ j)%N → largest_pow2_below n = (2 ^ j)%N.
Proof.
  intros Hj. pose proof (N.pow_nonzero 2 j ltac:(done)).
  destruct (largest_pow2_below_spec n) as (i & -> & Hi & Hlog); [lia|].
  assert (N.log2_up n = N.succ j) as Hlog'.
  { apply N.log2_up_unique; [lia|]. rewrite N.pred_succ, N.pow_succ_r'. lia. }
  do 2 f_equal. lia.
Qed.

(** Both halves have a smaller logarithm, so [tree_fuel] decreases. *)
Lemma split_bounds n k :
  (1 < n)%N → largest_pow2_below n = k →
  (0 < k < n)%N ∧ (n ≤ 2 * k)%N ∧
  tree_fuel k < tree_fuel n ∧ tree_fuel (n - k) < tree_fuel n.
Proof.
  intros Hn <-. destruct (largest_pow2_below_spec n Hn) as (j & -> & Hj & Hlog).
  pose proof (N.pow_nonzero 2 j ltac:(done)). unfold tree_fuel. rewrite Hlog.
  assert (N.log2_up (2 ^ j) = j) as -> by (by apply N.log2_up_pow2; lia).
  assert (N.log2_up (n - 2 ^ j) ≤ j)%N as Hle.
  { rewrite <- (N.log2_up_pow2 j) at 2 by lia. apply N.log2_up_le_mono. lia. }
  repeat split; lia.
Qed.

(** The prefix of a list is split where the list is, once it is longer than the
    left half. *)
Lemma largest_pow2_below_prefix n m :
  (1 < n)%N → (largest_pow2_below n < m ≤ n)%N → largest_pow2_below m = largest_pow2_below n.
Proof.
  intros Hn Hm. destruct (largest_pow2_below_spec n Hn) as (j & Hk & Hj & _).
  rewrite Hk in *. apply largest_pow2_below_unique. lia.
Qed.

Lemma split_point_bounds (leaves : list Hash) :
  1 < length leaves →
  0 < split_point leaves < length leaves ∧
  N.of_nat (split_point leaves) = largest_pow2_below (N.of_nat (length leaves)).
Proof.
  intros Hn. unfold split_point.
  destruct (split_bounds (N.of_nat (length leaves)) _ ltac:(lia) eq_refl) as (? & _).
  split; lia.
Qed.

(** Induction over the shape of the tree. *)
Lemma tree_ind (P : list Hash → Prop) :
  P [] → (∀ leaf, P [leaf]) →
  (∀ leaves, 1 < length leaves → P (take (split_point leaves) leaves) →
     P (drop (split_point leaves) leaves) → P leaves) →
  ∀ leaves, P leaves.
Proof.
  intros Hnil Hone Hsplit leaves.
  induction leaves as [leaves IH] using (induction_ltof1 _ (@length Hash)).
  unfold ltof in IH. destruct leaves as [|x [|y leaves]]; [done..|].
  destruct (split_point_bounds (x :: y :: leaves)) as [Hk _]; [simpl; lia|].
  apply Hsplit; [simpl; lia|apply IH; rewrite length_take; lia|apply IH; rewrite length_drop; lia].
Qed.

Definition hash_sized (h : Hash) : Prop := length h = 32.

Section facts.
Context `{Sha256}.

Lemma mth_loop_S fuel (leaves : list Hash) :
  1 < length leaves →
  mth_loop (S fuel) leaves = node_hash (mth_loop fuel (take (split_point leaves) leaves))
                                       (mth_loop fuel (drop (split_point leaves) leaves)).
Proof. destruct leaves as [|x [|y leaves]]; simpl; [lia..|done]. Qed.

Lemma mth_loop_enough fuel (leaves : list Hash) :
  length leaves ≤ fuel → mth_loop fuel leaves = mth leaves.
Proof.
  unfold mth. revert fuel.
  induction leaves as [|x|leaves Hn IHl IHr] using tree_ind; intros fuel Hfuel.
  - by destruct fuel.
  - destruct fuel; [simpl in Hfuel; lia|done].
  - destruct (split_point_bounds leaves Hn) as [Hk _].
    destruct fuel as [|fuel]; [lia|]. destruct (length leaves) as [|n] eqn:Hlen; [lia|].
    rewrite !mth_loop_S by lia.
    f_equal; (etrans; [|symmetry]); first [apply IHl | apply IHr];
      rewrite ?length_take, ?length_drop; lia.
Qed.

Lemma mth_split (leaves : list Hash) :
  1 < length leaves →
  mth leaves = node_hash (mth (take (split_point leaves) leaves))
                         (mth (drop (split_point leaves) leaves)).
Proof.
  intros Hn. unfold mth at 1. destruct (split_point_bounds leaves Hn) as [Hk _].
  destruct (length leaves) as [|n] eqn:Hlen; [lia|]. rewrite mth_loop_S by lia.
  f_equal; apply mth_loop_enough; rewrite ?length_take, ?length_drop; lia.
Qed.

Lemma node_hash_inj l1 r1 l2 r2 :
  length l1 = length l2 → node_hash l1 r1 = node_hash l2 r2 →
  (l1 = l2 ∧ r1 = r2) ∨ sha256_collision.
Proof.
  intros Hlen Heq. destruct (decide (x01 :: l1 ++ r1 = x01 :: l2 ++ r2)) as [Hsame|Hdiff].
  - left. injection Hsame as Hsame. by apply app_inj_1.
  - right. by eexists _, _.
Qed.

Lemma mth_sized (leaves : list Hash) : Forall hash_sized leaves → hash_sized (mth leaves).
Proof.
  induction leaves as [|leaf|leaves Hn IHl IHr] using tree_ind; intros Hall.
  - done.
  - by inversion Hall.
  - rewrite mth_split by done. apply sha256_length.
Qed.

(** The head determines the list, given its length. *)
Lemma mth_inj (l1 l2 : list Hash) :
  Forall hash_sized l1 → Forall hash_sized l2 → length l1 = length l2 →
  mth l1 = mth l2 → l1 = l2 ∨ sha256_collision.
Proof.
  revert l2. induction l1 as [|leaf|l1 Hn IHl IHr] using tree_ind; intros l2 H1 H2 Hlen Heq.
  - left. symmetry. by apply nil_length_inv.
  - destruct l2 as [|y [|]]; try done. left. by unfold mth in Heq; simpl in Heq; subst.
  - destruct (split_point_bounds l1 Hn) as [Hk _].
    assert (split_point l2 = split_point l1) as Hsp by (unfold split_point; by rewrite Hlen).
    rewrite (mth_split l1), (mth_split l2), Hsp in Heq by lia.
    apply node_hash_inj in Heq as [[Hl Hr]|?]; [|by right|].
    + apply IHl in Hl as [Hl|?]; [|by right|by apply Forall_take..|by rewrite !length_take; lia].
      apply IHr in Hr as [Hr|?]; [|by right|by apply Forall_drop..|by rewrite !length_drop; lia].
      left. rewrite <- (take_drop (split_point l1) l1), Hl, Hr. apply take_drop.
    + by rewrite !mth_sized by (by apply Forall_take).
Qed.

(** ** Inclusion *)

Lemma inclusion_rec_step fuel m n leaf proof k :
  (1 < n)%N → (m < n)%N → largest_pow2_below n = k →
  inclusion_rec (S fuel) m n leaf proof =
    if (m <? k)%N
    then '(folded, rest) ← inclusion_rec fuel m k leaf proof;
         '(sibling, rest) ← split_first rest; mret (node_hash folded sibling, rest)
    else '(folded, rest) ← inclusion_rec fuel (m - k) (n - k) leaf proof;
         '(sibling, rest) ← split_first rest; mret (node_hash sibling folded, rest).
Proof.
  intros Hn Hm <-. cbn [inclusion_rec].
  rewrite (proj2 (N.eqb_neq n 1)), (proj2 (N.leb_gt n m)) by lia. done.
Qed.

Lemma inclusion_path_step fuel m (leaves : list Hash) :
  1 < length leaves →
  inclusion_path (S fuel) m leaves =
    let k := split_point leaves in
    if (m <? N.of_nat k)%N
    then out ← inclusion_path fuel m (take k leaves); mret (out ++ [mth (drop k leaves)])
    else out ← inclusion_path fuel (m - N.of_nat k) (drop k leaves);
         mret (out ++ [mth (take k leaves)]).
Proof. intros Hn. cbn [inclusion_path]. by rewrite (proj2 (Nat.leb_gt _ _)) by lia. Qed.

Lemma tree_fuel_S n : ∃ f, tree_fuel n = S f.
Proof. by eexists. Qed.

(** Every in-range leaf has a path, and folding the leaf along it, whatever
    follows it, gives the head. *)
Lemma inclusion_complete (leaves : list Hash) :
  ∀ fuel m leaf, tree_fuel (N.of_nat (length leaves)) ≤ fuel →
    leaves !! N.to_nat m = Some leaf →
    ∃ path, inclusion_path fuel m leaves = Ok path ∧
      ∀ rest, inclusion_rec fuel m (N.of_nat (length leaves)) leaf (path ++ rest) =
              Ok (mth leaves, rest).
Proof.
  induction leaves as [|x|leaves Hn IHl IHr] using tree_ind; intros fuel m leaf Hfuel Hm.
  - done.
  - destruct fuel as [|fuel]; [unfold tree_fuel in Hfuel; lia|].
    apply lookup_lt_Some in Hm as Hlt. simpl in Hlt. assert (m = 0%N) as -> by lia.
    injection Hm as <-. by exists [].
  - destruct fuel as [|fuel]; [unfold tree_fuel in Hfuel; lia|].
    destruct (split_point_bounds leaves Hn) as [Hk Hsp].
    apply lookup_lt_Some in Hm as Hlt.
    destruct (split_bounds (N.of_nat (length leaves)) _ ltac:(lia) eq_refl)
      as (_ & _ & Hfl & Hfr).
    rewrite <- Hsp in Hfl, Hfr. rewrite inclusion_path_step by done.
    cbv zeta. destruct (m <? N.of_nat (split_point leaves))%N eqn:Hside;
      [apply N.ltb_lt in Hside as Hlt'|apply N.ltb_ge in Hside as Hge].
    + destruct (IHl fuel m leaf) as (path & Hpath & Hrec).
      { rewrite length_take_le by lia. lia. }
      { rewrite lookup_take_lt by lia. done. }
      exists (path ++ [mth (drop (split_point leaves) leaves)]).
      rewrite Hpath. split; [done|]. intros rest.
      rewrite inclusion_rec_step with (k := N.of_nat (split_point leaves)) by (done || lia).
      rewrite Hside.
      rewrite length_take_le in Hrec by lia. rewrite <- (assoc_L (++)), Hrec.
      simpl. by rewrite <- mth_split.
    + destruct (IHr fuel (m - N.of_nat (split_point leaves))%N leaf) as (path & Hpath & Hrec).
      { rewrite length_drop. rewrite Nat2N.inj_sub. lia. }
      { rewrite lookup_drop, <- Hm. f_equal. lia. }
      exists (path ++ [mth (take (split_point leaves) leaves)]).
      rewrite Hpath. split; [done|]. intros rest.
      rewrite inclusion_rec_step with (k := N.of_nat (split_point leaves)) by (done || lia).
      rewrite Hside.
      rewrite length_drop, Nat2N.inj_sub in Hrec. rewrite <- (assoc_L (++)), Hrec.
      simpl. by rewrite <- mth_split.
Qed.

Lemma split_first_Ok {A} (l : list A) x rest : split_first l = Ok (x, rest) ↔ l = x :: rest.
Proof. destruct l; simpl; naive_solver. Qed.

Lemma split_first_no_crash {A} (l : list A) : no_crash (split_first l).
Proof. by destruct l. Qed.

(** What a verifier recursion needs at each level: the folded value is a hash,
    and the sibling comes from the proof. *)
Lemma inclusion_rec_sized fuel m n leaf proof calc rest :
  inclusion_rec fuel m n leaf proof = Ok (calc, rest) →
  hash_sized leaf → Forall hash_sized proof → hash_sized calc ∧ Forall hash_sized rest.
Proof.
  revert m n calc rest. induction fuel as [|fuel IH]; intros m n calc rest Hrec Hleaf Hproof;
    [done|]. cbn [inclusion_rec] in Hrec.
  destruct (n =? 1)%N; [destruct (m =? 0)%N; [by apply res_ret_Ok in Hrec; simplify_eq|done]|].
  destruct (n <=? m)%N; [done|].
  destruct (m <? largest_pow2_below n)%N;
    apply res_bind_Ok in Hrec as ([folded rest'] & Hrec & Htail);
    apply res_bind_Ok in Htail as ([sibling rest''] & Hhd & Htail);
    apply split_first_Ok in Hhd as ->; apply res_ret_Ok in Htail; simplify_eq;
    apply IH in Hrec as [_ [_ Hrest]%Forall_cons]; try done; split; try done;
    apply sha256_length.
Qed.

(** A verified path cannot lie about the leaf at its index. *)
Lemma inclusion_sound (leaves : list Hash) :
  ∀ fuel m leaf proof rest,
    Forall hash_sized leaves → hash_sized leaf → Forall hash_sized proof →
    leaves ≠ [] →
    inclusion_rec fuel m (N.of_nat (length leaves)) leaf proof = Ok (mth leaves, rest) →
    leaves !! N.to_nat m = Some leaf ∨ sha256_collision.
Proof.
  induction leaves as [|x|leaves Hn IHl IHr] using tree_ind;
    intros fuel m leaf proof rest Hleaves Hleaf Hproof Hne Hrec.
  - done.
  - destruct fuel as [|fuel]; [done|]. simpl in Hrec.
    destruct (N.eqb_spec m 0) as [->|]; [|done].
    apply res_ret_Ok in Hrec. simplify_eq. by left.
  - destruct fuel as [|fuel]; [done|].
    destruct (split_point_bounds leaves Hn) as [Hk Hsp].
    assert (m < N.of_nat (length leaves))%N as Hm.
    { cbn [inclusion_rec] in Hrec. rewrite (proj2 (N.eqb_neq _ 1)) in Hrec by lia.
      destruct (N.leb_spec (N.of_nat (length leaves)) m); done. }
    rewrite inclusion_rec_step with (k := N.of_nat (split_point leaves)) in Hrec by (done || lia).
    rewrite mth_split in Hrec by done.
    assert (Forall hash_sized (take (split_point leaves) leaves)) as Hl by by apply Forall_take.
    assert (Forall hash_sized (drop (split_point leaves) leaves)) as Hr by by apply Forall_drop.
    destruct (N.ltb_spec m (N.of_nat (split_point leaves))) as [Hlt|Hge];
      apply res_bind_Ok in Hrec as ([folded rest'] & Hrec & Htail);
      apply res_bind_Ok in Htail as ([sibling rest''] & Hhd & Htail);
      apply split_first_Ok in Hhd as ->; apply res_ret_Ok in Htail;
      injection Htail as Htail ->;
      destruct (inclusion_rec_sized _ _ _ _ _ _ _ Hrec Hleaf Hproof) as [Hfs [Hss _]%Forall_cons];
      apply node_hash_inj in Htail as [[-> ->]|?]; try (by right);
      try (by rewrite mth_sized).
    + specialize (IHl fuel m leaf proof (mth (drop (split_point leaves) leaves) :: rest)).
      rewrite length_take_le in IHl by lia. rewrite lookup_take_lt in IHl by lia.
      apply IHl; try done. intros Hnil%(f_equal length).
      rewrite length_take in Hnil. simpl in Hnil. lia.
    + specialize (IHr fuel (m - N.of_nat (split_point leaves))%N leaf proof
        (mth (take (split_point leaves) leaves) :: rest)).
      rewrite length_drop, Nat2N.inj_sub, lookup_drop in IHr.
      replace (split_point leaves + N.to_nat (m - N.of_nat (split_point leaves)))
        with (N.to_nat m) in IHr by lia.
      apply IHr; try done. intros Hnil%(f_equal length).
      rewrite length_drop in Hnil. simpl in Hnil. lia.
Qed.

Lemma inclusion_rec_total fuel m n leaf proof :
  (0 < n)%N → tree_fuel n ≤ fuel → no_crash (inclusion_rec fuel m n leaf proof).
Proof.
  revert m n. induction fuel as [|fuel IH]; intros m n Hn Hfuel; [unfold tree_fuel in Hfuel; lia|].
  cbn [inclusion_rec]. destruct (N.eqb_spec n 1) as [|Hne]; [by destruct (m =? 0)%N|].
  destruct (N.leb_spec n m); [done|].
  destruct (split_bounds n _ ltac:(lia) eq_refl) as (Hk & _ & Hfl & Hfr).
  destruct (m <? largest_pow2_below n)%N.
  - specialize (IH m (largest_pow2_below n) ltac:(lia) ltac:(lia)).
    destruct (inclusion_rec _ _ _ _ _) as [[folded rest]| |c]; [|done|by destruct (IH c)].
    by destruct rest.
  - specialize (IH (m - largest_pow2_below n) (n - largest_pow2_below n) ltac:(lia) ltac:(lia))%N.
    destruct (inclusion_rec _ _ _ _ _) as [[folded rest]| |c]; [|done|by destruct (IH c)].
    by destruct rest.
Qed.

Lemma accepts_true {A} (r : res unit A) ok : accepts r ok = Ok true ↔ ∃ a, r = Ok a ∧ ok a = true.
Proof.
  split.
  - destruct r as [a| |]; simpl; [|done..]. intros [= Hok]. by exists a.
  - intros (a & -> & Hok). simpl. by rewrite Hok.
Qed.

Lemma accepts_total {A} (r : res unit A) ok : no_crash r → ∃ b, accepts r ok = Ok b.
Proof. intros Hr. destruct r as [a| |c]; simpl; [by eexists..|by destruct (Hr c)]. Qed.

Lemma is_empty_true {A} (l : list A) : is_empty l = true ↔ l = [].
Proof. by destruct l. Qed.

(** ** Consistency *)

Lemma consistency_rec_step fuel m n b proof known k :
  (1 < n)%N → (m < n)%N → largest_pow2_below n = k →
  consistency_rec (S fuel) m n b proof known =
    if (m <=? k)%N
    then '((old_side, left_new), rest) ← consistency_rec fuel m k b proof known;
         '(sibling, rest) ← split_first rest;
         mret ((old_side, node_hash left_new sibling), rest)
    else '((old_side, right_new), rest) ← consistency_rec fuel (m - k) (n - k) false proof known;
         '(sibling, rest) ← split_first rest;
         mret ((node_hash sibling old_side, node_hash sibling right_new), rest).
Proof.
  intros Hn Hm <-. cbn [consistency_rec].
  rewrite (proj2 (N.eqb_neq m n)), (proj2 (N.ltb_ge n m)) by lia. done.
Qed.

Lemma consistency_subproof_step fuel m (leaves : list Hash) b :
  (m < N.of_nat (length leaves))%N →
  consistency_subproof (S fuel) m leaves b =
    let k := split_point leaves in
    if (m <=? N.of_nat k)%N
    then out ← consistency_subproof fuel m (take k leaves) b; mret (out ++ [mth (drop k leaves)])
    else out ← consistency_subproof fuel (m - N.of_nat k) (drop k leaves) false;
         mret (out ++ [mth (take k leaves)]).
Proof. intros Hn. cbn [consistency_subproof]. by rewrite (proj2 (N.eqb_neq _ _)) by lia. Qed.

(** The head of a prefix that reaches into the right half. *)
Lemma mth_take_right (leaves : list Hash) m :
  1 < length leaves → split_point leaves < m ≤ length leaves →
  mth (take m leaves) = node_hash (mth (take (split_point leaves) leaves))
    (mth (take (m - split_point leaves) (drop (split_point leaves) leaves))).
Proof.
  intros Hn Hm. destruct (split_point_bounds leaves Hn) as [Hk Hsp].
  assert (split_point (take m leaves) = split_point leaves) as Hsame.
  { unfold split_point at 1. rewrite length_take_le by lia.
    rewrite (largest_pow2_below_prefix (N.of_nat (length leaves))), <- Hsp by lia. lia. }
  rewrite mth_split, Hsame by (rewrite length_take_le; lia).
  rewrite take_take, Nat.min_l by lia. do 2 f_equal. rewrite take_drop_commute. do 2 f_equal. lia.
Qed.

Lemma mth_take_left (leaves : list Hash) m :
  m ≤ split_point leaves → mth (take m (take (split_point leaves) leaves)) = mth (take m leaves).
Proof. intros. by rewrite take_take, Nat.min_l by lia. Qed.

Lemma consistency_complete (leaves : list Hash) :
  ∀ fuel m b known, tree_fuel (N.of_nat (length leaves)) ≤ fuel →
    0 < m ≤ length leaves → (b = true → known = mth (take m leaves)) →
    ∃ path, consistency_subproof fuel (N.of_nat m) leaves b = Ok path ∧
      ∀ rest, consistency_rec fuel (N.of_nat m) (N.of_nat (length leaves)) b (path ++ rest) known =
              Ok ((mth (take m leaves), mth leaves), rest).
Proof.
  induction leaves as [|x|leaves Hn IHl IHr] using tree_ind; intros fuel m b known Hfuel Hm Hb;
    (destruct fuel as [|fuel]; [unfold tree_fuel in Hfuel; lia|]).
  - simpl in Hm. lia.
  - simpl in Hm. assert (m = 1) as -> by lia. destruct b.
    + exists []. split; [done|]. intros rest. simpl. by rewrite Hb.
    + by exists [mth [x]].
  - destruct (split_point_bounds leaves Hn) as [Hk Hsp].
    destruct (decide (m = length leaves)) as [->|Hne].
    { rewrite firstn_all in *. cbn [consistency_subproof consistency_rec].
      rewrite N.eqb_refl. destruct b.
      - exists []. split; [done|]. intros rest. simpl. by rewrite Hb.
      - by exists [mth leaves]. }
    destruct (split_bounds (N.of_nat (length leaves)) _ ltac:(lia) eq_refl)
      as (_ & _ & Hfl & Hfr).
    rewrite <- Hsp in Hfl, Hfr. rewrite consistency_subproof_step by lia. cbv zeta.
    destruct (N.of_nat m <=? N.of_nat (split_point leaves))%N eqn:Hside;
      [apply N.leb_le in Hside as Hle|apply N.leb_gt in Hside as Hgt].
    + destruct (IHl fuel m b known) as (path & Hpath & Hrec);
        rewrite ?length_take_le in *; rewrite ?mth_take_left in * by lia; try lia; try done.
      exists (path ++ [mth (drop (split_point leaves) leaves)]).
      rewrite Hpath. split; [done|]. intros rest.
      rewrite consistency_rec_step with (k := N.of_nat (split_point leaves)) by (done || lia).
      rewrite Hside, <- (assoc_L (++)), Hrec. simpl. by rewrite <- mth_split.
    + destruct (IHr fuel (m - split_point leaves) false known) as (path & Hpath & Hrec);
        rewrite ?length_drop, ?Nat2N.inj_sub in *; try lia; try done.
      exists (path ++ [mth (take (split_point leaves) leaves)]).
      rewrite Hpath. split; [done|]. intros rest.
      rewrite consistency_rec_step with (k := N.of_nat (split_point leaves)) by (done || lia).
      rewrite Hside, <- (assoc_L (++)), Hrec. simpl.
      by rewrite <- mth_split, <- mth_take_right by lia.
Qed.

Lemma consistency_rec_sized fuel m n b proof known old_side new_side rest :
  consistency_rec fuel m n b proof known = Ok ((old_side, new_side), rest) →
  hash_sized known → Forall hash_sized proof →
  hash_sized old_side ∧ hash_sized new_side ∧ Forall hash_sized rest.
Proof.
  revert m n b old_side new_side rest.
  induction fuel as [|fuel IH]; intros m n b old_side new_side rest Hrec Hknown Hproof; [done|].
  cbn [consistency_rec] in Hrec. destruct (m =? n)%N.
  { destruct b; [by apply res_ret_Ok in Hrec; simplify_eq|].
    apply res_bind_Ok in Hrec as ([hd tl] & ->%split_first_Ok & Htail).
    apply res_ret_Ok in Htail. simplify_eq. by apply Forall_cons in Hproof as [? ?]. }
  destruct (n <? m)%N; [done|].
  destruct (m <=? largest_pow2_below n)%N;
    apply res_bind_Ok in Hrec as ([[o w] rest'] & Hrec & Htail);
    apply res_bind_Ok in Htail as ([sibling rest''] & ->%split_first_Ok & Htail);
    apply res_ret_Ok in Htail; simplify_eq;
    apply IH in Hrec as (Ho & Hw & [_ Hrest]%Forall_cons); try done;
    repeat split; try done; apply sha256_length.
Qed.

(** A verified consistency proof whose new side is the head of [leaves] has the
    head of the prefix of [leaves] as its old side. *)
Lemma consistency_sound (leaves : list Hash) :
  ∀ fuel m b proof known old_side rest,
    Forall hash_sized leaves → hash_sized known → Forall hash_sized proof → 0 < m →
    consistency_rec fuel (N.of_nat m) (N.of_nat (length leaves)) b proof known =
      Ok ((old_side, mth leaves), rest) →
    old_side = mth (take m leaves) ∨ sha256_collision.
Proof.
  induction leaves as [|x|leaves Hn IHl IHr] using tree_ind;
    intros fuel m b proof known old_side rest Hleaves Hknown Hproof Hm Hrec;
    (destruct fuel as [|fuel]; [done|]).
  1: { cbn [consistency_rec] in Hrec. rewrite (proj2 (N.eqb_neq _ _)) in Hrec by (simpl; lia).
       by rewrite (proj2 (N.ltb_lt _ _)) in Hrec by (simpl; lia). }
  all: match type of Hrec with _ = Ok ((_, mth ?l), _) =>
         destruct (decide (m = length l)) as [->|Hne];
         [|destruct (decide (length l < m));
           [cbn [consistency_rec] in Hrec; rewrite (proj2 (N.eqb_neq _ _)) in Hrec by lia;
            by rewrite (proj2 (N.ltb_lt _ _)) in Hrec by lia|]]
       end; [|try (simpl in *; lia)].
  1,2: left; rewrite firstn_all; cbn [consistency_rec] in Hrec; rewrite N.eqb_refl in Hrec;
    (destruct b; [by apply res_ret_Ok in Hrec; simplify_eq|]);
    apply res_bind_Ok in Hrec as ([hd tl] & _ & Htail); apply res_ret_Ok in Htail; by simplify_eq.
  destruct (split_point_bounds leaves Hn) as [Hk Hsp].
  rewrite consistency_rec_step with (k := N.of_nat (split_point leaves)) in Hrec by (done || lia).
  rewrite mth_split in Hrec by done.
  assert (Forall hash_sized (take (split_point leaves) leaves)) as Hl by by apply Forall_take.
  assert (Forall hash_sized (drop (split_point leaves) leaves)) as Hr by by apply Forall_drop.
  destruct (N.leb_spec (N.of_nat m) (N.of_nat (split_point leaves))) as [Hle|Hgt];
    apply res_bind_Ok in Hrec as ([[o w] rest'] & Hrec & Htail);
    apply res_bind_Ok in Htail as ([sibling rest''] & ->%split_first_Ok & Htail);
    apply res_ret_Ok in Htail; injection Htail as <- Htail ->;
    destruct (consistency_rec_sized _ _ _ _ _ _ _ _ _ Hrec Hknown Hproof)
      as (Ho & Hw & [Hs _]%Forall_cons);
    apply node_hash_inj in Htail as [[-> ->]|?]; try (by right); try (by rewrite mth_sized).
  - rewrite <- mth_take_left by lia.
    eapply (IHl fuel m b proof known); try done. by rewrite length_take_le by lia.
  - rewrite (mth_take_right leaves m) by lia.
    assert (o = mth (take (m - split_point leaves) (drop (split_point leaves) leaves)) ∨
            sha256_collision) as [-> | ?]; [|by left|by right].
    eapply (IHr fuel (m - split_point leaves) false proof known); try done; [lia|].
    rewrite length_drop, !Nat2N.inj_sub in *. exact Hrec.
Qed.

Lemma consistency_rec_total fuel m n b proof known :
  (0 < m)%N → tree_fuel n ≤ fuel → no_crash (consistency_rec fuel m n b proof known).
Proof.
  revert m n b. induction fuel as [|fuel IH]; intros m n b Hm Hfuel;
    [unfold tree_fuel in Hfuel; lia|].
  cbn [consistency_rec]. destruct (N.eqb_spec m n); [destruct b; [done|by destruct proof]|].
  destruct (N.ltb_spec n m); [done|].
  destruct (split_bounds n _ ltac:(lia) eq_refl) as (Hk & _ & Hfl & Hfr).
  destruct (N.leb_spec m (largest_pow2_below n)).
  - specialize (IH m (largest_pow2_below n) b ltac:(lia) ltac:(lia)).
    destruct (consistency_rec _ _ _ _ _ _) as [[[o w] rest]| |c]; [|done|by destruct (IH c)].
    by destruct rest.
  - specialize (IH (m - largest_pow2_below n) (n - largest_pow2_below n) false
      ltac:(lia) ltac:(lia))%N.
    destruct (consistency_rec _ _ _ _ _ _) as [[[o w] rest]| |c]; [|done|by destruct (IH c)].
    by destruct rest.
Qed.

(** ** The public operations *)

Lemma verify_inclusion_total leaf proof root :
  ∃ b, verify_inclusion leaf proof root = Ok b.
Proof.
  unfold verify_inclusion. destruct (orb _ _) eqn:Hguard; [by eexists|].
  apply orb_false_iff in Hguard as [Hpos%N.eqb_neq _].
  apply accepts_total, inclusion_rec_total; [lia|done].
Qed.

Lemma verify_consistency_total old_root proof new_root :
  ∃ b, verify_consistency old_root proof new_root = Ok b.
Proof.
  unfold verify_consistency. destruct (_ <? _)%N; [by eexists|].
  destruct (N.eqb_spec (old_leaf_count proof) 0); [by eexists|].
  destruct (_ =? _)%N; [by eexists|].
  apply accepts_total, consistency_rec_total; [lia|done].
Qed.

Lemma prove_inclusion_verifies (leaves : list Hash) i leaf :
  leaves !! i = Some leaf →
  ∃ proof, prove_inclusion leaves i = Ok proof ∧
    leaf_index proof = N.of_nat i ∧ leaf_count proof = N.of_nat (length leaves) ∧
    verify_inclusion leaf proof (mth leaves) = Ok true.
Proof.
  intros Hi. apply lookup_lt_Some in Hi as Hlt. unfold prove_inclusion.
  rewrite (proj2 (Nat.leb_gt _ _)) by lia.
  destruct (inclusion_complete leaves _ (N.of_nat i) leaf (le_n _)) as (path & Hpath & Hrec);
    [by rewrite Nat2N.id|].
  rewrite Hpath. eexists. split; [done|]. split; [done|]. split; [done|].
  unfold verify_inclusion. cbn [leaf_count leaf_index incl_nodes].
  rewrite (proj2 (N.eqb_neq _ _)), (proj2 (N.leb_gt _ _)) by lia. cbn [orb].
  specialize (Hrec []). rewrite (right_id_L [] (++)) in Hrec. rewrite Hrec. simpl.
  by rewrite bool_decide_eq_true_2.
Qed.

Lemma verify_inclusion_sound (leaves : list Hash) leaf proof :
  Forall hash_sized leaves → hash_sized leaf → Forall hash_sized (incl_nodes proof) →
  leaf_count proof = N.of_nat (length leaves) →
  verify_inclusion leaf proof (mth leaves) = Ok true →
  leaves !! N.to_nat (leaf_index proof) = Some leaf ∨ sha256_collision.
Proof.
  intros Hleaves Hleaf Hnodes Hcount Hver. unfold verify_inclusion in Hver.
  destruct (orb _ _) eqn:Hguard; [done|]. apply accepts_true in Hver as ([calc rest] & Hrec & Hok).
  apply andb_true_iff in Hok as [_ ->%bool_decide_eq_true]. rewrite Hcount in Hrec, Hguard.
  eapply inclusion_sound; [..|done]; try done. intros ->. done.
Qed.

Lemma prove_consistency_verifies (leaves : list Hash) m :
  m ≤ length leaves →
  ∃ proof, prove_consistency leaves m = Ok proof ∧
    old_leaf_count proof = N.of_nat m ∧ new_leaf_count proof = N.of_nat (length leaves) ∧
    verify_consistency (mth (take m leaves)) proof (mth leaves) = Ok true.
Proof.
  intros Hm. unfold prove_consistency. rewrite (proj2 (Nat.ltb_ge _ _)) by lia.
  destruct (decide (m = 0)) as [->|Hpos].
  { eexists. split; [done|]. split; [done|]. split; [done|]. unfold verify_consistency.
    cbn [old_leaf_count new_leaf_count cons_nodes].
    by rewrite (proj2 (N.ltb_ge _ _)) by lia. }
  destruct (decide (m = length leaves)) as [->|Hlt].
  { rewrite Nat.ltb_irrefl, andb_false_r, firstn_all. eexists. split; [done|].
    split; [done|]. split; [done|]. unfold verify_consistency.
    cbn [old_leaf_count new_leaf_count cons_nodes].
    rewrite N.ltb_irrefl, N.eqb_refl, (proj2 (N.eqb_neq _ _)) by lia.
    by rewrite bool_decide_eq_true_2. }
  rewrite !(proj2 (Nat.ltb_lt _ _)) by lia. cbn [andb].
  destruct (consistency_complete leaves _ m true (mth (take m leaves)) (le_n _))
    as (path & Hpath & Hrec); [lia|done|].
  rewrite Hpath. eexists. split; [done|]. split; [done|]. split; [done|].
  unfold verify_consistency. cbn [old_leaf_count new_leaf_count cons_nodes].
  rewrite (proj2 (N.ltb_ge _ _)), !(proj2 (N.eqb_neq _ _)) by lia.
  specialize (Hrec []). rewrite (right_id_L [] (++)) in Hrec. rewrite Hrec. simpl.
  by rewrite !bool_decide_eq_true_2.
Qed.

Lemma verify_consistency_sound (leaves : list Hash) old_root proof :
  Forall hash_sized leaves → hash_sized old_root → Forall hash_sized (cons_nodes proof) →
  new_leaf_count proof = N.of_nat (length leaves) →
  verify_consistency old_root proof (mth leaves) = Ok true →
  (old_leaf_count proof ≤ N.of_nat (length leaves))%N ∧
  (old_root = mth (take (N.to_nat (old_leaf_count proof)) leaves) ∨ sha256_collision).
Proof.
  intros Hleaves Hold Hnodes Hcount Hver. unfold verify_consistency in Hver.
  rewrite Hcount in Hver. destruct (N.ltb_spec (N.of_nat (length leaves)) (old_leaf_count proof));
    [done|]. split; [done|].
  destruct (N.eqb_spec (old_leaf_count proof) 0) as [Hz|Hnz].
  { injection Hver as Hver. apply andb_true_iff in Hver as [_ ->%bool_decide_eq_true].
    left. by rewrite Hz. }
  destruct (N.eqb_spec (old_leaf_count proof) (N.of_nat (length leaves))) as [Heq|Hne].
  { injection Hver as Hver. apply andb_true_iff in Hver as [_ ->%bool_decide_eq_true].
    left. by rewrite Heq, Nat2N.id, firstn_all. }
  apply accepts_true in Hver as ([[o w] rest] & Hrec & Hok).
  apply andb_true_iff in Hok as [[_ ->%bool_decide_eq_true]%andb_true_iff ->%bool_decide_eq_true].
  rewrite <- (N2Nat.id (old_leaf_count proof)) in Hrec.
  eapply consistency_sound in Hrec; try done. lia.
Qed.

(** Appending: a consistency proof from [old] to a log of one leaf more, and an
    inclusion proof of [leaf] at the last index, pin the new log down. *)
Lemma append_sound (old new : list Hash) leaf cproof iproof :
  Forall hash_sized old → Forall hash_sized new → hash_sized leaf →
  Forall hash_sized (cons_nodes cproof) → Forall hash_sized (incl_nodes iproof) →
  length new = S (length old) →
  old_leaf_count cproof = N.of_nat (length old) → new_leaf_count cproof = N.of_nat (length new) →
  leaf_index iproof = N.of_nat (length old) → leaf_count iproof = N.of_nat (length new) →
  verify_consistency (mth old) cproof (mth new) = Ok true →
  verify_inclusion leaf iproof (mth new) = Ok true →
  new = old ++ [leaf] ∨ sha256_collision.
Proof.
  intros Ho Hn Hl Hc Hi Hlen Hco Hcn Hii Hic Hcons Hincl.
  apply verify_consistency_sound in Hcons as [_ [Heq|?]]; [|by right|by try apply mth_sized..].
  apply verify_inclusion_sound in Hincl as [Hlast|?]; [|by right|done..].
  rewrite Hco, Nat2N.id in Heq. rewrite Hii, Nat2N.id in Hlast.
  apply mth_inj in Heq as [Heq|?]; [|by right|done|by apply Forall_take|rewrite length_take; lia].
  left. rewrite Heq at 1. apply take_S_r in Hlast. rewrite <- Hlast, firstn_all2 by lia. done.
Qed.

(** Appending, when only the old log is known: the two proofs that a mint carries
    determine the new head. *)
Lemma mth_snoc_boundary (old : list Hash) leaf :
  old ≠ [] → split_point (old ++ [leaf]) = length old →
  mth (old ++ [leaf]) = node_hash (mth old) leaf.
Proof.
  intros Hne Hsp. rewrite mth_split, Hsp.
  - by rewrite take_app_length, drop_app_length.
  - rewrite length_app. simpl. destruct old; [done|]. simpl. lia.
Qed.

Lemma mth_snoc_right (old : list Hash) leaf k :
  split_point (old ++ [leaf]) = k → 0 < k < length old →
  mth (old ++ [leaf]) = node_hash (mth (take k old)) (mth (drop k old ++ [leaf])) ∧
  mth old = node_hash (mth (take k old)) (mth (drop k old)).
Proof.
  intros Hsp Hk.
  assert (1 < length (old ++ [leaf])) as Hn by (rewrite length_app; simpl; lia).
  destruct (split_point_bounds _ Hn) as [_ Hsp'].
  assert (split_point old = k) as Hold.
  { unfold split_point. rewrite length_app in Hsp', Hn. simpl in *.
    rewrite (largest_pow2_below_prefix (N.of_nat (length old + 1))); lia. }
  split.
  - rewrite mth_split by done. rewrite Hsp, take_app_le, drop_app_le by lia. done.
  - rewrite mth_split by lia. by rewrite Hold.
Qed.

Lemma append_rec (old : list Hash) leaf :
  ∀ fuel1 fuel2 b known cproof iproof w rest1 rest2,
    old ≠ [] → Forall hash_sized old → hash_sized leaf → hash_sized known →
    Forall hash_sized cproof → Forall hash_sized iproof →
    consistency_rec fuel1 (N.of_nat (length old)) (N.of_nat (length old) + 1) b cproof known =
      Ok ((mth old, w), rest1) →
    inclusion_rec fuel2 (N.of_nat (length old)) (N.of_nat (length old) + 1) leaf iproof =
      Ok (w, rest2) →
    w = mth (old ++ [leaf]) ∨ sha256_collision.
Proof.
  induction old as [old IH] using (induction_ltof1 _ (@length Hash)). unfold ltof in IH.
  intros fuel1 fuel2 b known cproof iproof w rest1 rest2 Hne Hold Hleaf Hknown Hc Hi Hcons Hincl.
  assert (0 < length old) as Hpos by (destruct old; [done|simpl; lia]).
  destruct fuel1 as [|fuel1]; [done|]. destruct fuel2 as [|fuel2]; [done|].
  assert (length (old ++ [leaf]) = length old + 1) as Hlen by (by rewrite length_app).
  destruct (split_point_bounds (old ++ [leaf])) as [Hk Hsp]; [lia|].
  set (k := split_point (old ++ [leaf])) in *. rewrite Hlen, Nat2N.inj_add in Hsp.
  rewrite consistency_rec_step with (k := N.of_nat k) in Hcons by (done || lia).
  rewrite inclusion_rec_step with (k := N.of_nat k) in Hincl by (done || lia).
  destruct (N.ltb_spec (N.of_nat (length old)) (N.of_nat k)); [lia|].
  apply res_bind_Ok in Hincl as ([folded r1] & Hincl & Htail).
  apply res_bind_Ok in Htail as ([sib r2] & ->%split_first_Ok & Htail).
  apply res_ret_Ok in Htail. injection Htail as <- ->.
  destruct (inclusion_rec_sized _ _ _ _ _ _ _ Hincl Hleaf Hi) as [Hfs [Hss _]%Forall_cons].
  destruct (N.leb_spec (N.of_nat (length old)) (N.of_nat k)) as [Hle|Hgt];
    apply res_bind_Ok in Hcons as ([[o v] r3] & Hcons & Htail);
    apply res_bind_Ok in Htail as ([sib' r4] & ->%split_first_Ok & Htail);
    apply res_ret_Ok in Htail.
  - assert (k = length old) as Hkl by lia. injection Htail as -> Hnode ->.
    destruct (consistency_rec_sized _ _ _ _ _ _ _ _ _ Hcons Hknown Hc) as (Ho & Hv & _).
    apply node_hash_inj in Hnode as [[<- <-]|?]; [|by right|congruence].
    rewrite Hkl, N.sub_diag, N.add_sub_swap, N.sub_diag in Hincl by lia.
    destruct fuel2 as [|fuel2]; [done|]. cbn in Hincl. injection Hincl as <- _.
    destruct fuel1 as [|fuel1]; [done|]. cbn [consistency_rec] in Hcons.
    rewrite Hkl, N.eqb_refl in Hcons. left. rewrite mth_snoc_boundary by done. f_equal.
    destruct b; [by apply res_ret_Ok in Hcons; simplify_eq|].
    apply res_bind_Ok in Hcons as ([hd tl] & _ & Htail). apply res_ret_Ok in Htail.
    by simplify_eq.
  - injection Htail as Hroot Hnode ->. destruct (mth_snoc_right old leaf k eq_refl) as [Hnew Holdm];
      [lia|]. rewrite Holdm in Hroot. rewrite Hnew.
    destruct (consistency_rec_sized _ _ _ _ _ _ _ _ _ Hcons Hknown Hc) as (Ho & Hv & [Hs' _]%Forall_cons).
    apply node_hash_inj in Hnode as [[-> ->]|?]; [|by right|congruence].
    assert (Forall hash_sized (take k old)) by by apply Forall_take.
    assert (Forall hash_sized (drop k old)) by by apply Forall_drop.
    apply node_hash_inj in Hroot as [[-> ->]|?]; [|by right|rewrite mth_sized; done].
    assert (N.of_nat (length (drop k old)) = N.of_nat (length old) - N.of_nat k)%N as Hdl.
    { rewrite length_drop. lia. }
    assert (folded = mth (drop k old ++ [leaf]) ∨ sha256_collision) as [->|?];
      [|by left|by right].
    eapply (IH (drop k old)) with (known := known) (cproof := cproof) (iproof := iproof); [rewrite length_drop; lia| |done..| |].
    + intros Hnil%(f_equal length). rewrite length_drop in Hnil. simpl in Hnil. lia.
    + rewrite Hdl, <- N.add_sub_swap by lia. exact Hcons.
    + rewrite Hdl, <- N.add_sub_swap by lia. exact Hincl.
Qed.

Lemma append_determines (old : list Hash) leaf cproof iproof new_head :
  Forall hash_sized old → hash_sized leaf → hash_sized new_head →
  Forall hash_sized (cons_nodes cproof) → Forall hash_sized (incl_nodes iproof) →
  old_leaf_count cproof = N.of_nat (length old) →
  new_leaf_count cproof = (N.of_nat (length old) + 1)%N →
  leaf_index iproof = N.of_nat (length old) →
  leaf_count iproof = (N.of_nat (length old) + 1)%N →
  verify_consistency (mth old) cproof new_head = Ok true →
  verify_inclusion leaf iproof new_head = Ok true →
  new_head = mth (old ++ [leaf]) ∨ sha256_collision.
Proof.
  intros Hold Hleaf Hnew Hc Hi Hco Hcn Hii Hic Hcons Hincl.
  unfold verify_inclusion in Hincl. rewrite Hii, Hic in Hincl.
  destruct (orb _ _); [done|]. apply accepts_true in Hincl as ([w r1] & Hincl & Hok).
  apply andb_true_iff in Hok as [_ ->%bool_decide_eq_true].
  unfold verify_consistency in Hcons. rewrite Hco, Hcn in Hcons.
  rewrite (proj2 (N.ltb_ge _ _)) in Hcons by lia.
  destruct old as [|x old].
  { left. cbn in Hincl. injection Hincl as <- _. done. }
  rewrite !(proj2 (N.eqb_neq _ _)) in Hcons by (simpl; lia).
  apply accepts_true in Hcons as ([[o w] r2] & Hcons & Hok).
  apply andb_true_iff in Hok as [[_ ->%bool_decide_eq_true]%andb_true_iff ->%bool_decide_eq_true].
  eapply append_rec; [..|exact Hcons|exact Hincl]; try done. by apply mth_sized.
Qed.
End facts.

(** ** Wire format *)

Definition wf_nodes (nodes : list Hash) : Prop :=
  Forall hash_sized nodes ∧ is_u32 (N.of_nat (length nodes)).

Lemma length_concat_hashes (nodes : list Hash) :
  Forall hash_sized nodes → length (concat nodes) = length nodes * 32.
Proof.
  induction 1 as [|node nodes Hnode _ IH]; [done|].
  simpl. rewrite length_app, IH. unfold hash_sized in Hnode. lia.
Qed.

Lemma as_chunks_concat (nodes : list Hash) fuel :
  Forall hash_sized nodes → length nodes ≤ fuel →
  as_chunks_loop fuel 32 (concat nodes) = (nodes, []).
Proof.
  intros Hnodes. revert fuel. induction Hnodes as [|node nodes Hnode _ IH]; intros fuel Hfuel.
  { by destruct fuel. }
  destruct fuel as [|fuel]; [simpl in Hfuel; lia|]. unfold hash_sized in Hnode.
  cbn [as_chunks_loop concat]. rewrite decide_True by (rewrite length_app; lia).
  rewrite drop_app_length', take_app_length' by done.
  by rewrite IH by (simpl in Hfuel; lia).
Qed.

Lemma decodes_read_hashes nodes :
  wf_nodes nodes →
  decodes read_hashes_from (u32_be (N.of_nat (length nodes)) ++ concat nodes) nodes.
Proof.
  intros [Hnodes Hlen]. unfold read_hashes_from. codec_step; [by apply decodes_take_u32|].
  pose proof (length_concat_hashes nodes Hnodes) as Hconcat.
  codec_step; [apply decodes_take_exact; lia|].
  unfold as_chunks. rewrite as_chunks_concat by (done || lia). apply decodes_ret.
Qed.

Lemma write_hashes_Ok {E} nodes :
  wf_nodes nodes →
  write_hashes (E := E) nodes = Ok (u32_be (N.of_nat (length nodes)) ++ concat nodes).
Proof. intros [_ Hlen]. unfold write_hashes. by rewrite decide_True. Qed.

Definition wf_consistency (p : ConsistencyProof) : Prop :=
  is_u64 (old_leaf_count p) ∧ is_u64 (new_leaf_count p) ∧ wf_nodes (cons_nodes p).

Definition wf_inclusion (p : InclusionProof) : Prop :=
  is_u64 (leaf_index p) ∧ is_u64 (leaf_count p) ∧ wf_nodes (incl_nodes p).

Lemma decodes_consistency {E} p :
  wf_consistency p →
  ∃ w, Consistency.encode (E := E) p = Ok w ∧ decodes Consistency.decode_from w p.
Proof.
  intros (Hold & Hnew & Hnodes). unfold Consistency.encode. rewrite write_hashes_Ok by done.
  eexists. split; [done|]. unfold Consistency.decode_from.
  codec_step; [by apply decodes_take_u64|]. codec_step; [by apply decodes_take_u64|].
  eapply decodes_bind_nil; [by apply decodes_read_hashes|]. by destruct p.
Qed.

Lemma decodes_inclusion {E} p :
  wf_inclusion p →
  ∃ w, Inclusion.encode (E := E) p = Ok w ∧ decodes Inclusion.decode_from w p.
Proof.
  intros (Hi & Hn & Hnodes). unfold Inclusion.encode. rewrite write_hashes_Ok by done.
  eexists. split; [done|]. unfold Inclusion.decode_from.
  codec_step; [by apply decodes_take_u64|]. codec_step; [by apply decodes_take_u64|].
  eapply decodes_bind_nil; [by apply decodes_read_hashes|]. by destruct p.
Qed.

Lemma read_hashes_sized cursor nodes rest :
  read_hashes_from cursor = (Ok nodes, rest) → Forall hash_sized nodes.
Proof.
  unfold read_hashes_from, mbind, stM_bind.
  destruct (read_u32 cursor) as [[count| |] c1]; [|done..].
  destruct (take_exact tt (count * 32) c1) as [[hd| |] c2]; [|done..].
  assert (∀ fuel (l : bytes), Forall hash_sized (as_chunks_loop fuel 32 l).1) as Hsized.
  { induction fuel as [|fuel IH]; intros l; [constructor|]. cbn [as_chunks_loop].
    case_decide; [|constructor]. specialize (IH (drop 32 l)).
    destruct (as_chunks_loop fuel 32 (drop 32 l)) as [chunks remainder]. simpl in *.
    constructor; [|done]. unfold hash_sized. by apply length_take_le. }
  specialize (Hsized (length hd) hd). unfold as_chunks.
  destruct (as_chunks_loop (length hd) 32 hd) as [chunks remainder]. simpl in *.
  destruct (is_empty remainder); [|done]. by intros [= -> _].
Qed.

Lemma total_read_hashes : never_panics read_hashes_from.
Proof.
  unfold read_hashes_from, read_u32. apply total_bind; [solve_total|]. intros count.
  apply total_bind; [solve_total|]. intros hd. destruct (as_chunks 32 hd). solve_total.
Qed.

#[export] Hint Resolve total_read_hashes : total.

Lemma total_consistency : never_panics Consistency.decode_from.
Proof. unfold Consistency.decode_from, read_u64. solve_total. Qed.

Lemma total_inclusion : never_panics Inclusion.decode_from.
Proof. unfold Inclusion.decode_from, read_u64. solve_total. Qed.

#[export] Hint Resolve total_consistency total_inclusion : total.
