(* ===== verification/SparseMerkle.v ===== *)
(** * The sparse Merkle tree of the state (executor/state/src/merkle.rs)

    A 256-level tree whose leaves sit at [SHA-256(key)].  Only leaf hashes and
    non-empty branch hashes are stored, and an update recomputes the branches on
    one path.  [ref_hash] is the reference: the hash of a whole subtree, defined
    from the leaves alone by recursion over the levels. *)

From S2P Require Import Prelude Codec External MerkleLog.

Definition DEPTH : nat := 256.

(** Byte positions are within a 32-byte path; [path[byte]] is total there. *)
Definition path_bit (path : Hash) (bit : nat) : N :=
  let byte := bit / 8 in
  let shift := 7 - bit mod 8 in
  N.land (N.shiftr (Byte.to_N (path !!! byte)) (N.of_nat shift)) 1.

Definition flip (path : Hash) (bit : nat) : Hash :=
  let byte := bit / 8 in
  let shift := 7 - bit mod 8 in
  alter (λ b, byte_of_N (N.lxor (Byte.to_N b) (N.shiftl 1 (N.of_nat shift)))) byte path.

(** [for byte in out.iter_mut().skip(zero_from)] clears the tail; the [u8] shift
    [0xFF << (8 - rem)] drops the bits above the byte. *)
Definition mask (path : Hash) (depth : nat) : Hash :=
  let full := depth / 8 in
  let rem := depth mod 8 in
  let zero_from := if rem =? 0 then full else S full in
  let out := take zero_from path ++ ((λ _, x00) <$> drop zero_from path) in
  if rem =? 0 then out else
  alter (λ b, byte_of_N (N.land (Byte.to_N b) (N.shiftl 255 (N.of_nat (8 - rem)) `mod` 256)))
    full out.

Record SparseMerkleTree := mkTree {
  leaves : gmap Hash Hash;
  nodes : gmap (nat * Hash) Hash;
  tree_root : Hash;
}.

Record MerkleProof := mkMerkleProof {
  proof_key : bytes;
  proof_value : bytes;
  siblings : list Hash;
}.

Section smt.
Context `{Sha256} {E : Type}.

Definition empty : Hash := sha256 [x00].
Definition path_of (key : bytes) : Hash := sha256 key.

Definition smt_leaf (key value : bytes) : res E Hash :=
  k ← write_bytes key;
  v ← write_bytes value;
  mret (sha256 (x00 :: k ++ v)).

Definition internal (l r : Hash) : Hash := sha256 (x02 :: l ++ r).
Definition singleton (child : Hash) : Hash := sha256 (x01 :: child).

Definition combine (l r : Hash) : Hash :=
  match bool_decide (l = empty), bool_decide (r = empty) with
  | true, true => empty
  | true, false => singleton r
  | false, true => singleton l
  | false, false => internal l r
  end.

(** The parent of [current] at [depth] on [path], given its sibling. *)
Definition combine_at (path : Hash) (depth : nat) (current sibling : Hash) : Hash :=
  if (path_bit path depth =? 0)%N then combine current sibling else combine sibling current.

Definition new_tree : SparseMerkleTree := mkTree ∅ ∅ empty.

Definition subtree_hash (t : SparseMerkleTree) (depth : nat) (path : Hash) : Hash :=
  if depth =? DEPTH then default empty (leaves t !! path)
  else default empty (nodes t !! (depth, mask path depth)).

Definition set_branch (depth : nat) (path hash : Hash) (t : SparseMerkleTree) : SparseMerkleTree :=
  if bool_decide (hash = empty)
  then mkTree (leaves t) (delete (depth, path) (nodes t)) (tree_root t)
  else mkTree (leaves t) (<[(depth, path) := hash]> (nodes t)) (tree_root t).

(** The loop [for depth in (0..DEPTH).rev()] of [insert] and [delete], from the
    levels [0..n] upwards. *)
Fixpoint rehash (n : nat) (path current : Hash) (t : SparseMerkleTree) : Hash * SparseMerkleTree :=
  match n with
  | O => (current, t)
  | S depth =>
    let sibling := subtree_hash t (depth + 1) (flip path depth) in
    let current := combine_at path depth current sibling in
    rehash depth path current (set_branch depth (mask path depth) current t)
  end.

Definition set_leaves (ls : gmap Hash Hash) (t : SparseMerkleTree) : SparseMerkleTree :=
  mkTree ls (nodes t) (tree_root t).

Definition set_root (r : Hash) (t : SparseMerkleTree) : SparseMerkleTree :=
  mkTree (leaves t) (nodes t) r.

Definition insert_leaf (path leaf : Hash) (t : SparseMerkleTree) : SparseMerkleTree :=
  let '(current, t) := rehash DEPTH path leaf (set_leaves (<[path := leaf]> (leaves t)) t) in
  set_root current t.

Definition tree_insert (key value : bytes) (t : SparseMerkleTree) : res E SparseMerkleTree :=
  let path := path_of key in
  leaf ← smt_leaf key value;
  mret (insert_leaf path leaf t).

Definition tree_delete (key : bytes) (t : SparseMerkleTree) : bool * SparseMerkleTree :=
  let path := path_of key in
  match leaves t !! path with
  | None => (false, t)
  | Some _ =>
    let '(current, t) := rehash DEPTH path empty (set_leaves (delete path (leaves t)) t) in
    (true, set_root current t)
  end.

(** [(0..n).rev()], deepest first. *)
Fixpoint depths_rev (n : nat) : list nat :=
  match n with O => [] | S n => n :: depths_rev n end.

Definition proof_siblings (t : SparseMerkleTree) (key : bytes) : option (list Hash) :=
  let path := path_of key in
  if decide (is_Some (leaves t !! path))
  then Some ((λ depth, subtree_hash t (depth + 1) (flip path depth)) <$> depths_rev DEPTH)
  else None.

(** The walk of [MerkleProof::verify]: [(0..DEPTH).rev().zip(&self.siblings)]. *)
Fixpoint fold_path (n : nat) (path current : Hash) (sibs : list Hash) : Hash :=
  match n, sibs with
  | S depth, sibling :: sibs => fold_path depth path (combine_at path depth current sibling) sibs
  | _, _ => current
  end.

Definition verify_proof (proof : MerkleProof) (root : Hash) : res E bool :=
  if negb (length (siblings proof) =? DEPTH) then mret false else
  let path := path_of (proof_key proof) in
  leaf ← smt_leaf (proof_key proof) (proof_value proof);
  mret (bool_decide (fold_path DEPTH path leaf (siblings proof) = root)).

(** ** The reference *)

(** The hash of the subtree of [n] levels below the masked path [p]: its left
    child has the next bit clear, as [p] has, its right child has it set. *)
Fixpoint ref_hash (n : nat) (ls : gmap Hash Hash) (p : Hash) : Hash :=
  match n with
  | O => default empty (ls !! p)
  | S n => combine (ref_hash n ls p) (ref_hash n ls (flip p (DEPTH - S n)))
  end.

Definition ref_root (ls : gmap Hash Hash) : Hash := ref_hash DEPTH ls (replicate 32 x00).
End smt.






(** ** Wire format *)

Definition encode_proof {E} (proof : MerkleProof) : res E bytes :=
  k ← write_bytes (proof_key proof);
  v ← write_bytes (proof_value proof);
  s ← write_hashes (siblings proof);
  mret (k ++ v ++ s).

Definition decode_proof_body : stM bytes unit MerkleProof :=
  key ← take_bytes tt;
  value ← take_bytes tt;
  count ← take_u32 tt;
  if negb (count =? N.of_nat DEPTH)%N then st_fail tt else
  siblings ← take_n DEPTH (take_exact tt 32);
  reject_trailing tt;;
  mret (mkMerkleProof key value siblings).

Definition decode_proof (input : bytes) : res unit MerkleProof := (decode_proof_body input).1.
