(* ===== verification/SparseMerkleFacts.v ===== *)
(** * Correctness of the sparse Merkle tree

    The incrementally maintained tree always holds the reference hashes of its
    leaves; proofs are complete and, up to a SHA-256 collision, sound. *)

From S2P Require Import Prelude Codec External MerkleLog MerkleLogFacts SparseMerkle.

(** ** Paths of the sparse Merkle tree as bit strings

    [bit], [flip] and [mask] work on the bytes of a path.  Here they are
    characterised by the 256 bits of the path, most significant first, and the
    identities the tree needs follow by extensionality. *)

Definition is_path (p : Hash) : Prop := length p = 32.

(** The [d]-th bit of a path. *)
Definition tb (p : Hash) (d : nat) : bool :=
  N.testbit (Byte.to_N (p !!! (d / 8))) (N.of_nat (7 - d mod 8)).

Lemma testbit_to_N_high (b : byte) n : (8 ≤ n)%N → N.testbit (Byte.to_N b) n = false.
Proof.
  intros Hn. pose proof (to_N_lt b) as Hlt.
  destruct (decide (Byte.to_N b = 0%N)) as [->|Hnz]; [apply N.bits_0|].
  apply N.bits_above_log2, N.log2_lt_pow2; [lia|].
  eapply N.lt_le_trans; [exact Hlt|]. change 256%N with (2 ^ 8)%N. by apply N.pow_le_mono_r.
Qed.

Lemma testbit_byte_of_N n j : (j < 8)%N → N.testbit (Byte.to_N (byte_of_N n)) j = N.testbit n j.
Proof.
  intros Hj. rewrite to_N_byte_of_N. change 256%N with (2 ^ 8)%N. by apply N.mod_pow2_bits_low.
Qed.

Lemma byte_ext (a b : byte) :
  (∀ j, (j < 8) → N.testbit (Byte.to_N a) (N.of_nat j) = N.testbit (Byte.to_N b) (N.of_nat j)) →
  a = b.
Proof.
  intros Heq. apply (inj Byte.to_N). apply N.bits_inj. intros j.
  destruct (decide (j < 8)%N) as [Hj|Hj].
  - rewrite <- (N2Nat.id j). apply Heq. lia.
  - by rewrite !testbit_to_N_high by lia.
Qed.

Lemma path_ext (p q : Hash) :
  is_path p → is_path q → (∀ d, d < 256 → tb p d = tb q d) → p = q.
Proof.
  intros Hp Hq Heq. apply list_eq_same_length with 32; [done..|].
  intros i x y Hi Hx Hy. apply byte_ext. intros j Hj.
  specialize (Heq (8 * i + (7 - j)) ltac:(lia)). unfold tb in Heq.
  replace ((8 * i + (7 - j)) / 8) with i in Heq by (apply Nat.div_unique with (7 - j); lia).
  replace ((8 * i + (7 - j)) mod 8) with (7 - j) in Heq by (apply Nat.mod_unique with i; lia).
  replace (7 - (7 - j)) with j in Heq by lia.
  by rewrite (list_lookup_total_correct _ _ _ Hx), (list_lookup_total_correct _ _ _ Hy) in Heq.
Qed.

Lemma path_bit_tb p d : path_bit p d = if tb p d then 1%N else 0%N.
Proof.
  unfold path_bit, tb. set (b := Byte.to_N _). set (k := N.of_nat _).
  change 1%N with (N.ones 1) at 1. rewrite N.land_ones, <- N.bit0_mod, N.shiftr_spec' by lia.
  rewrite N.add_0_l. by destruct (N.testbit b k).
Qed.

Lemma path_bit_clear p d : (path_bit p d =? 0)%N = negb (tb p d).
Proof. rewrite path_bit_tb. by destruct (tb p d). Qed.

(** Two levels have the same bit position only if they are the same. *)
Lemma bit_position d e :
  d / 8 = e / 8 → 7 - d mod 8 = 7 - e mod 8 → d = e.
Proof.
  intros Hdiv Hmod. pose proof (Nat.mod_upper_bound d 8 ltac:(lia)).
  pose proof (Nat.mod_upper_bound e 8 ltac:(lia)).
  rewrite (Nat.div_mod_eq d 8), (Nat.div_mod_eq e 8), Hdiv. lia.
Qed.

Lemma flip_path p d : is_path p → is_path (flip p d).
Proof. intros Hp. unfold is_path, flip. etrans; [apply length_alter|done]. Qed.

Lemma div8_lt d : d < 256 → d / 8 < 32.
Proof. intros. apply Nat.Div0.div_lt_upper_bound. lia. Qed.

Lemma tb_flip p d e :
  is_path p → d < 256 → e < 256 → tb (flip p d) e = xorb (tb p e) (bool_decide (e = d)).
Proof.
  intros Hp Hd He. unfold tb, flip. cbv zeta. apply div8_lt in Hd as Hdb, He as Heb.
  destruct (decide (e / 8 = d / 8)) as [Hbyte|Hbyte].
  - destruct (lookup_lt_is_Some_2 p (d / 8)) as [b Hb]; [unfold is_path in Hp; lia|].
    rewrite !Hbyte. rewrite (list_lookup_total_correct (alter _ _ _) _ _
      (eq_trans (list_lookup_alter_eq _ _ _) (f_equal (fmap _) Hb))).
    rewrite (list_lookup_total_correct _ _ _ Hb).
    rewrite testbit_byte_of_N by (pose proof (Nat.mod_upper_bound e 8); lia).
    rewrite N.lxor_spec. f_equal. rewrite N.shiftl_1_l.
    destruct (decide (e = d)) as [->|Hne].
    + by rewrite N.pow2_bits_true, bool_decide_eq_true_2.
    + rewrite bool_decide_eq_false_2 by done. apply N.pow2_bits_false.
      intros Heq. apply Hne, bit_position; [done|lia].
  - rewrite bool_decide_eq_false_2 by congruence. rewrite xorb_false_r.
    do 2 f_equal. rewrite !list_lookup_total_alt. by rewrite list_lookup_alter_ne by congruence.
Qed.

(** [out] of [mask] before its boundary byte is masked. *)
Lemma lookup_total_cleared (p : Hash) z i :
  is_path p → i < 32 →
  (take z p ++ ((λ _, x00) <$> drop z p)) !!! i = if i <? z then p !!! i else x00.
Proof.
  intros Hp Hi. rewrite !list_lookup_total_alt. unfold is_path in Hp.
  destruct (Nat.ltb_spec i z).
  - rewrite lookup_app_l by (rewrite length_take; lia). by rewrite lookup_take_lt by lia.
  - rewrite lookup_app_r by (rewrite length_take; lia).
    rewrite list_lookup_fmap, lookup_drop, length_take, Nat.min_l by lia.
    by destruct (p !! _).
Qed.

Lemma length_cleared (p : Hash) z : length (take z p ++ ((λ _, x00) <$> drop z p)) = length p.
Proof. rewrite length_app, length_fmap, length_take, length_drop. lia. Qed.

Lemma mask_path p d : is_path p → is_path (mask p d).
Proof.
  intros Hp. unfold is_path, mask. cbv zeta.
  destruct (d mod 8 =? 0); [|rewrite length_alter]; by rewrite length_cleared.
Qed.

Lemma testbit_top_bits rem j :
  0 < rem < 8 → j < 8 →
  N.testbit (N.shiftl 255 (N.of_nat (8 - rem)) `mod` 256) (N.of_nat j) = bool_decide (8 - rem ≤ j).
Proof.
  intros Hrem Hj. change 256%N with (2 ^ 8)%N. rewrite N.mod_pow2_bits_low by lia.
  case_bool_decide.
  - rewrite N.shiftl_spec_high' by lia. change 255%N with (N.ones 8).
    apply N.ones_spec_low. lia.
  - apply N.shiftl_spec_low. lia.
Qed.

Lemma lookup_total_alter_eq (f : byte → byte) (l : bytes) i :
  i < length l → alter f i l !!! i = f (l !!! i).
Proof.
  intros [b Hb]%lookup_lt_is_Some_2.
  rewrite (list_lookup_total_correct _ _ _ Hb). apply list_lookup_total_correct.
  by rewrite list_lookup_alter_eq, Hb.
Qed.

Lemma lookup_total_alter_ne (f : byte → byte) (l : bytes) i j :
  i ≠ j → alter f i l !!! j = l !!! j.
Proof. intros. by rewrite !list_lookup_total_alt, list_lookup_alter_ne. Qed.

Lemma tb_mask p d e :
  is_path p → d ≤ 256 → e < 256 → tb (mask p d) e = bool_decide (e < d) && tb p e.
Proof.
  intros Hp Hd He. unfold tb, mask. cbv zeta. apply div8_lt in He as Heb.
  pose proof (Nat.div_mod_eq d 8) as Hdd. pose proof (Nat.div_mod_eq e 8) as Hee.
  pose proof (Nat.mod_upper_bound d 8 ltac:(lia)). pose proof (Nat.mod_upper_bound e 8 ltac:(lia)).
  set (dq := d / 8) in *. set (dr := d mod 8) in *. set (eq := e / 8) in *. set (er := e mod 8) in *.
  assert (Byte.to_N x00 = 0%N) as Hzero by done.
  destruct (Nat.eqb_spec dr 0) as [Hz|Hnz].
  - rewrite lookup_total_cleared by done. destruct (Nat.ltb_spec eq dq).
    + by rewrite bool_decide_eq_true_2 by lia.
    + rewrite bool_decide_eq_false_2 by lia. by rewrite Hzero, N.bits_0.
  - destruct (decide (eq = dq)) as [Heq|Hne].
    + rewrite Heq, lookup_total_alter_eq by (rewrite length_cleared, Hp; lia).
      rewrite lookup_total_cleared, (proj2 (Nat.ltb_lt _ _)) by (done || lia).
      rewrite testbit_byte_of_N by lia.
      rewrite N.land_spec, testbit_top_bits, andb_comm by lia. f_equal.
      apply bool_decide_ext. lia.
    + rewrite lookup_total_alter_ne, lookup_total_cleared by done.
      destruct (Nat.ltb_spec eq (S dq)).
      * by rewrite bool_decide_eq_true_2 by lia.
      * rewrite bool_decide_eq_false_2 by lia. by rewrite Hzero, N.bits_0.
Qed.

(** ** The identities the tree uses *)

Create HintDb path.
#[export] Hint Resolve flip_path mask_path : path.

Ltac solve_path :=
  apply path_ext; [by eauto with path|by eauto with path|];
  let e := fresh "e" in let He := fresh "He" in intros e He;
  repeat first [rewrite tb_mask by eauto with path lia | rewrite tb_flip by eauto with path lia];
  repeat case_bool_decide; simplify_eq/=; try lia;
  try match goal with
  | Hlt : ?e < S ?d, Hge : ¬ ?e < ?d |- _ => assert (e = d) as -> by lia
  end;
  repeat match goal with H : tb _ _ = _ |- _ => rewrite H end;
  rewrite ?xorb_false_r, ?xorb_true_r; simpl; try done; try lia.

Lemma mask_full p : is_path p → mask p 256 = p.
Proof. intros Hp. solve_path. Qed.

Lemma mask_0 p : is_path p → mask p 0 = replicate 32 x00.
Proof.
  intros Hp. apply path_ext; [by apply mask_path|done|].
  intros e He. rewrite tb_mask, bool_decide_eq_false_2, andb_false_l by (done || lia).
  unfold tb. apply div8_lt in He. by rewrite lookup_total_replicate_2, N.bits_0 by done.
Qed.

Lemma mask_mask p d e : is_path p → d ≤ e → e ≤ 256 → mask (mask p e) d = mask p d.
Proof. intros Hp Hde He. solve_path. Qed.

Lemma mask_flip p d : is_path p → d < 256 → mask (flip p d) d = mask p d.
Proof. intros Hp Hd. solve_path. Qed.

(** One level further down: the child on the path, and its sibling. *)
Lemma mask_S_clear p d :
  is_path p → d < 256 → tb p d = false →
  mask p (S d) = mask p d ∧ mask (flip p d) (S d) = flip (mask p d) d.
Proof. intros Hp Hd Hbit. split; solve_path. Qed.

Lemma mask_S_set p d :
  is_path p → d < 256 → tb p d = true →
  mask p (S d) = flip (mask p d) d ∧ mask (flip p d) (S d) = mask p d.
Proof. intros Hp Hd Hbit. split; solve_path. Qed.

Lemma flip_mask_mask p d : is_path p → d < 256 → mask (flip (mask p d) d) d = mask p d.
Proof. intros Hp Hd. solve_path. Qed.

Lemma flip_ne p d : is_path p → d < 256 → flip p d ≠ p.
Proof.
  intros Hp Hd Heq. assert (tb (flip p d) d = tb p d) as Hbit by by rewrite Heq.
  rewrite tb_flip, bool_decide_eq_true_2 in Hbit by done. by destruct (tb p d).
Qed.

Lemma mask_mask_ge p d e : is_path p → d ≤ e → e ≤ 256 → mask (mask p d) e = mask p d.
Proof. intros Hp Hde He. solve_path. Qed.

Lemma mask_flip_mask p d :
  is_path p → d < 256 → mask (flip (mask p d) d) (S d) = flip (mask p d) d.
Proof. intros Hp Hd. solve_path. Qed.

(** ** The tree *)

Section facts.
Context `{Sha256}.

Implicit Types (ls : gmap Hash Hash) (t : SparseMerkleTree) (p q path : Hash).

Lemma ref_hash_0 ls p : ref_hash 0 ls p = default empty (ls !! p).
Proof. done. Qed.

Lemma ref_hash_S n ls p :
  ref_hash (S n) ls p = combine (ref_hash n ls p) (ref_hash n ls (flip p (DEPTH - S n))).
Proof. done. Qed.

Lemma rehash_0 path current t : rehash 0 path current t = (current, t).
Proof. done. Qed.

Lemma rehash_S depth path current t :
  rehash (S depth) path current t =
  let current := combine_at path depth current (subtree_hash t (depth + 1) (flip path depth)) in
  rehash depth path current (set_branch depth (mask path depth) current t).
Proof. done. Qed.

Lemma fold_path_S depth path current sibling sibs :
  fold_path (S depth) path current (sibling :: sibs) =
  fold_path depth path (combine_at path depth current sibling) sibs.
Proof. done. Qed.

Lemma depths_rev_S n : depths_rev (S n) = n :: depths_rev n.
Proof. done. Qed.

Lemma depths_rev_0 : depths_rev 0 = [].
Proof. done. Qed.

Opaque ref_hash rehash fold_path depths_rev.

(** ** The reference depends only on the leaves below it *)

Lemma ref_local n ls ls' p :
  n ≤ 256 → is_path p → mask p (256 - n) = p →
  (∀ q, is_path q → mask q (256 - n) = p → ls !! q = ls' !! q) →
  ref_hash n ls p = ref_hash n ls' p.
Proof.
  revert p. induction n as [|n IH]; intros p Hn Hp Hmask Hag.
  { by rewrite !ref_hash_0, (Hag p Hp Hmask). }
  rewrite !ref_hash_S.
  assert (256 - n = S (256 - S n)) as Hd by lia. unfold DEPTH. set (d := 256 - S n) in *.
  rewrite Hd in IH. f_equal; apply IH; try lia; eauto with path.
  - by rewrite <- Hmask, mask_mask_ge by (done || lia).
  - intros q Hq Heq. apply Hag; [done|]. rewrite <- (mask_mask q d (S d)), Heq by (done || lia). done.
  - by rewrite <- Hmask, mask_flip_mask by (done || lia).
  - intros q Hq Heq. apply Hag; [done|]. rewrite <- (mask_mask q d (S d)), Heq by (done || lia).
    by rewrite mask_flip by (done || lia).
Qed.

(** One level of the reference, seen from a path. *)
Lemma ref_hash_step d ls path :
  is_path path → d < 256 →
  ref_hash (256 - d) ls (mask path d) =
  combine_at path d (ref_hash (256 - S d) ls (mask path (S d)))
                    (ref_hash (256 - S d) ls (mask (flip path d) (S d))).
Proof.
  intros Hp Hd. replace (256 - d) with (S (256 - S d)) by lia. rewrite ref_hash_S.
  replace (DEPTH - S (256 - S d)) with d by (unfold DEPTH; lia).
  unfold combine_at. rewrite path_bit_clear. destruct (tb path d) eqn:Hbit; simpl.
  - by destruct (mask_S_set path d Hp Hd Hbit) as [-> ->].
  - by destruct (mask_S_clear path d Hp Hd Hbit) as [-> ->].
Qed.

(** ** The stored branches *)

Definition branches (lo hi : nat) (ls : gmap Hash Hash) (t : SparseMerkleTree) : Prop :=
  ∀ d p, lo ≤ d < hi → is_path p →
    default empty (nodes t !! (d, mask p d)) = ref_hash (256 - d) ls (mask p d).

Record tree_ok (t : SparseMerkleTree) : Prop := {
  ok_branches : branches 0 256 (leaves t) t;
  ok_root : tree_root t = ref_root (leaves t);
  ok_leaves : ∀ p, is_Some (leaves t !! p) → is_path p;
}.

Lemma subtree_hash_branch lo ls t d p :
  branches lo 256 ls t → leaves t = ls → lo ≤ d ≤ 256 → is_path p →
  subtree_hash t d p = ref_hash (256 - d) ls (mask p d).
Proof.
  intros Hb Hl Hd Hp. unfold subtree_hash, DEPTH. destruct (Nat.eqb_spec d 256) as [->|Hne].
  - by rewrite mask_full, Hl by done.
  - apply Hb; [lia|done].
Qed.

Lemma nodes_set_branch d p h t d' p' :
  default empty (nodes (set_branch d p h t) !! (d', p')) =
  if decide ((d, p) = (d', p')) then h else default empty (nodes t !! (d', p')).
Proof.
  unfold set_branch. case_bool_decide as Hh; simpl; case_decide as Heq.
  - rewrite <- Heq, lookup_delete_eq. by rewrite Hh.
  - by rewrite lookup_delete_ne.
  - by rewrite <- Heq, lookup_insert_eq.
  - by rewrite lookup_insert_ne.
Qed.

Lemma leaves_set_branch d p h t : leaves (set_branch d p h t) = leaves t.
Proof. unfold set_branch. by case_bool_decide. Qed.

(** The rehash loop, from depth [n] up: below [n] the branches are those of the
    new leaves, above it those of the old ones. *)
Lemma rehash_spec n ls ls0 path current t :
  n ≤ 256 → is_path path →
  (∀ q, q ≠ path → ls !! q = ls0 !! q) →
  leaves t = ls → branches n 256 ls t → branches 0 n ls0 t →
  current = ref_hash (256 - n) ls (mask path n) →
  leaves (rehash n path current t).2 = ls ∧
  branches 0 256 ls (rehash n path current t).2 ∧
  (rehash n path current t).1 = ref_root ls.
Proof.
  intros Hn Hp Hag. revert current t. induction n as [|d IH];
    intros current t Hl Hbelow Habove Hcur.
  { rewrite rehash_0, Hcur, mask_0 by done. cbn [fst snd]. rewrite Nat.sub_0_r.
    split; [exact Hl|]. split; [exact Hbelow|]. unfold ref_root, DEPTH. reflexivity. }
  rewrite rehash_S. cbv zeta. rewrite Nat.add_1_r. set (cur' := combine_at _ _ _ _).
  assert (cur' = ref_hash (256 - d) ls (mask path d)) as Hcur'.
  { unfold cur'. rewrite ref_hash_step by (done || lia). rewrite Hcur.
    f_equal. apply (subtree_hash_branch (S d)); eauto with path; lia. }
  apply IH; [lia| | | |done].
  - by rewrite leaves_set_branch.
  - intros d' p Hd' Hp'. rewrite nodes_set_branch. case_decide as Heq.
    + by injection Heq as <- <-.
    + destruct (decide (d' = d)) as [->|Hne]; [|apply Hbelow; [lia|done]].
      rewrite Habove by (done || lia).
      apply ref_local; replace (256 - (256 - d)) with d by lia;
        [lia|by eauto with path|apply mask_mask; (done || lia)|].
      intros q Hq Hmq. symmetry. apply Hag. intros ->. congruence.
  - intros d' p Hd' Hp'. rewrite nodes_set_branch, decide_False by (intros [=]; lia).
    apply Habove; [lia|done].
Qed.

Lemma rehash_leaf_ok path leaf ls t :
  tree_ok t → is_path path → (∀ q, q ≠ path → ls !! q = leaves t !! q) →
  (∀ p, is_Some (ls !! p) → is_path p) →
  default empty (ls !! path) = leaf →
  let r := rehash DEPTH path leaf (set_leaves ls t) in
  tree_ok (set_root r.1 r.2) ∧ leaves r.2 = ls.
Proof.
  intros Hok Hp Hag Hpaths Hleaf.
  destruct (rehash_spec 256 ls (leaves t) path leaf (set_leaves ls t)) as (Hl & Hb & Hr).
  - apply le_n.
  - exact Hp.
  - exact Hag.
  - reflexivity.
  - intros d p Hd. lia.
  - exact (ok_branches t Hok).
  - by rewrite mask_full.
  - cbv zeta. unfold DEPTH. revert Hl Hb Hr. generalize (rehash 256 path leaf (set_leaves ls t)).
    intros r Hl Hb Hr. split; [|exact Hl]. split; cbn [set_root leaves nodes tree_root].
    + rewrite Hl. exact Hb.
    + rewrite Hl. exact Hr.
    + rewrite Hl. exact Hpaths.
Qed.

Lemma new_tree_ok : tree_ok new_tree.
Proof.
  assert (∀ n p, ref_hash n ∅ p = empty) as Hempty.
  { induction n as [|n IH]; intros p;
      [by rewrite ref_hash_0, lookup_empty|]. rewrite ref_hash_S, !IH. unfold combine. by rewrite bool_decide_eq_true_2. }
  split.
  - intros d p _ _. simpl. by rewrite Hempty, lookup_empty.
  - unfold ref_root. by rewrite Hempty.
  - intros p [? Hp]. cbn [new_tree leaves] in Hp. by rewrite lookup_empty in Hp.
Qed.

Lemma path_of_path key : is_path (path_of key).
Proof. apply sha256_length. Qed.

Lemma insert_leaf_ok path leaf t :
  tree_ok t → is_path path →
  tree_ok (insert_leaf path leaf t) ∧ leaves (insert_leaf path leaf t) = <[path := leaf]> (leaves t).
Proof.
  intros Hok Hp. unfold insert_leaf.
  destruct (rehash_leaf_ok path leaf (<[path := leaf]> (leaves t)) t) as [Hok' Hl].
  - exact Hok.
  - exact Hp.
  - intros q Hq. by rewrite lookup_insert_ne.
  - intros p [? Hx]. destruct (decide (p = path)) as [->|Hne]; [done|].
    rewrite lookup_insert_ne in Hx by done. by apply (ok_leaves t Hok).
  - by rewrite lookup_insert_eq.
  - revert Hok' Hl. generalize (rehash DEPTH path leaf (set_leaves (<[path:=leaf]> (leaves t)) t)).
    intros [cur t'] Hok' Hl. exact (conj Hok' Hl).
Qed.

Lemma tree_delete_ok key t :
  tree_ok t →
  tree_ok (tree_delete key t).2 ∧ leaves (tree_delete key t).2 = delete (path_of key) (leaves t) ∧
  ((tree_delete key t).1 = true ↔ is_Some (leaves t !! path_of key)).
Proof.
  intros Hok. unfold tree_delete. cbv zeta. destruct (leaves t !! path_of key) as [leaf|] eqn:Hleaf.
  - destruct (rehash_leaf_ok (path_of key) empty (delete (path_of key) (leaves t)) t) as [Hok' Hl].
    + exact Hok.
    + apply path_of_path.
    + intros q Hq. by rewrite lookup_delete_ne.
    + intros p [? [_ Hx]%lookup_delete_Some]. by apply (ok_leaves t Hok).
    + by rewrite lookup_delete_eq.
    + revert Hok' Hl. generalize
        (rehash DEPTH (path_of key) empty (set_leaves (delete (path_of key) (leaves t)) t)).
      intros [cur t'] Hok' Hl. split; [exact Hok'|]. split; [exact Hl|]. by split.
  - cbn [fst snd]. rewrite delete_id by exact Hleaf. split; [exact Hok|]. split; [reflexivity|].
    split; [done|]. by intros [? ?].
Qed.

(** ** Proofs *)

Lemma fold_path_0 path current sibs : fold_path 0 path current sibs = current.
Proof. by destruct sibs. Qed.

(** Folding the stored siblings rebuilds the root. *)
Lemma fold_path_complete t n path :
  tree_ok t → is_path path → n ≤ 256 →
  fold_path n path (ref_hash (256 - n) (leaves t) (mask path n))
    ((λ depth, subtree_hash t (depth + 1) (flip path depth)) <$> depths_rev n) = tree_root t.
Proof.
  intros Hok Hp. induction n as [|d IH]; intros Hn.
  - rewrite fold_path_0, (ok_root t Hok), mask_0 by exact Hp. rewrite Nat.sub_0_r.
    unfold ref_root, DEPTH. reflexivity.
  - rewrite depths_rev_S, fmap_cons, fold_path_S, <- IH by lia. f_equal.
    rewrite (ref_hash_step d) by (exact Hp || lia). f_equal.
    rewrite Nat.add_1_r. apply (subtree_hash_branch 0); eauto using ok_branches with path; lia.
Qed.

Lemma singleton_ne_empty h : singleton h = empty → sha256_collision.
Proof. intros [?|?]%collides; done. Qed.

Lemma internal_ne_empty l r : internal l r = empty → sha256_collision.
Proof. intros [?|?]%collides; done. Qed.

Lemma combine_ne_empty l r : l ≠ empty ∨ r ≠ empty → combine l r = empty → sha256_collision.
Proof.
  intros Hne. unfold combine. repeat case_bool_decide; try (intros; by destruct Hne).
  - apply singleton_ne_empty.
  - apply singleton_ne_empty.
  - apply internal_ne_empty.
Qed.

(** Up to the side it hangs on, a non-empty child is determined by the parent:
    a lone child is hashed without its side. *)
Lemma combine_children l r l' r' c :
  hash_sized l → hash_sized l' → (c = l ∨ c = r) → c ≠ empty →
  combine l r = combine l' r' → (c = l' ∨ c = r') ∨ sha256_collision.
Proof.
  intros Hl Hl' Hc Hne Heq. unfold hash_sized in *. unfold combine in Heq.
  repeat case_bool_decide; subst; try (by destruct Hc; congruence);
    try (by right; eapply singleton_ne_empty; eauto);
    try (by right; eapply internal_ne_empty; eauto);
    apply collides in Heq as [Heq|?]; try (by right); try done;
    left; injection Heq as Heq; try (apply app_inj_1 in Heq as [-> ->]; [|congruence]);
    destruct Hc; subst; auto; congruence.
Qed.

Lemma combine_sized l r : hash_sized (combine l r).
Proof. unfold combine, hash_sized. repeat case_match; apply sha256_length. Qed.

Lemma ref_hash_sized n ls p :
  map_Forall (λ _ leaf, hash_sized leaf) ls → hash_sized (ref_hash n ls p).
Proof.
  intros Hls. destruct n as [|n]; [|rewrite ref_hash_S; apply combine_sized].
  rewrite ref_hash_0. destruct (ls !! p) eqn:Hp; [by eapply Hls|apply sha256_length].
Qed.

(** Whatever path a proof folds along, its leaf hash is one of the tree's. *)
Lemma fold_path_sound n ls path current sibs p0 :
  map_Forall (λ _ leaf, hash_sized leaf) ls →
  n ≤ 256 → length sibs = n → Forall hash_sized sibs → hash_sized current → current ≠ empty →
  fold_path n path current sibs = ref_hash 256 ls p0 →
  (∃ p, current = ref_hash (256 - n) ls p) ∨ sha256_collision.
Proof.
  intros Hls. revert current sibs. induction n as [|d IH];
    intros current sibs Hn Hlen Hsibs Hcur Hne Heq.
  { rewrite fold_path_0 in Heq. left. exists p0. by rewrite Nat.sub_0_r. }
  destruct sibs as [|sib sibs]; [done|]. apply Forall_cons in Hsibs as [Hsib Hsibs].
  rewrite fold_path_S in Heq. injection Hlen as Hlen.
  assert (combine_at path d current sib ≠ empty ∨ sha256_collision) as [Hne'|?]; [| |by right].
  { destruct (decide (combine_at path d current sib = empty)) as [He|]; [right|by left].
    unfold combine_at in He. case_match; (eapply combine_ne_empty; [|exact He]); auto. }
  apply IH in Heq as [[p Hp]|?]; [|by right|lia|done|done| |done].
  - replace (256 - d) with (S (256 - S d)) in Hp by lia. rewrite ref_hash_S in Hp.
    assert ((current = ref_hash (256 - S d) ls p ∨
             current = ref_hash (256 - S d) ls (flip p (DEPTH - S (256 - S d)))) ∨
            sha256_collision) as [[Hc|Hc]|?]; [|left; by eexists|left; by eexists|by right].
    pose proof (ref_hash_sized (256 - S d) ls p Hls).
    unfold combine_at in Hp. case_match; eapply combine_children in Hp; eauto.
  - unfold combine_at. case_match; apply combine_sized.
Qed.

(** ** Keys and values *)

Definition wf_entry (key value : bytes) : Prop :=
  is_u32 (N.of_nat (length key)) ∧ is_u32 (N.of_nat (length value)).

Lemma smt_leaf_Ok {E} key value :
  wf_entry key value →
  smt_leaf (E := E) key value =
    Ok (sha256 (x00 :: (u32_be (N.of_nat (length key)) ++ key) ++
                        u32_be (N.of_nat (length value)) ++ value)).
Proof. intros [Hk Hv]. unfold smt_leaf. by rewrite !write_bytes_Ok. Qed.

Lemma smt_leaf_inv {E} key value leaf :
  smt_leaf (E := E) key value = Ok leaf → wf_entry key value.
Proof.
  unfold smt_leaf, wf_entry, is_u32, write_bytes.
  by destruct (decide (N.of_nat (length key) < _)%N), (decide (N.of_nat (length value) < _)%N).
Qed.

Lemma smt_leaf_sized {E} key value leaf :
  smt_leaf (E := E) key value = Ok leaf → hash_sized leaf.
Proof.
  intros Hleaf. rewrite smt_leaf_Ok in Hleaf by by eapply smt_leaf_inv.
  injection Hleaf as <-. apply sha256_length.
Qed.

(** Two length-prefixed fields can be read back, so their concatenation
    determines both. *)
Lemma framed_inj (k1 v1 k2 v2 : bytes) :
  wf_entry k1 v1 → wf_entry k2 v2 →
  (u32_be (N.of_nat (length k1)) ++ k1) ++ u32_be (N.of_nat (length v1)) ++ v1 =
  (u32_be (N.of_nat (length k2)) ++ k2) ++ u32_be (N.of_nat (length v2)) ++ v2 →
  k1 = k2 ∧ v1 = v2.
Proof.
  intros [Hk1 Hv1] [Hk2 Hv2] Heq.
  apply (decodes_inj (take_bytes tt) _ _ k1 k2) in Heq as [-> Heq]; eauto with codec.
  split; [done|].
  rewrite <- (app_nil_r (_ ++ v1)), <- (app_nil_r (_ ++ v2)) in Heq.
  by apply (decodes_inj (take_bytes tt) _ _ v1 v2) in Heq as [-> _]; eauto with codec.
Qed.

Lemma smt_leaf_inj {E} k1 v1 k2 v2 leaf :
  smt_leaf (E := E) k1 v1 = Ok leaf → smt_leaf (E := E) k2 v2 = Ok leaf →
  (k1 = k2 ∧ v1 = v2) ∨ sha256_collision.
Proof.
  intros H1 H2. pose proof (smt_leaf_inv _ _ _ H1) as W1. pose proof (smt_leaf_inv _ _ _ H2) as W2.
  rewrite smt_leaf_Ok in H1, H2 by done. injection H1 as H1. injection H2 as H2.
  rewrite <- H2 in H1. apply collides in H1 as [Heq|?]; [left|by right].
  apply cons_eq_inj in Heq as [_ Heq]. by apply framed_inj.
Qed.

Lemma smt_leaf_ne_empty {E} key value leaf :
  smt_leaf (E := E) key value = Ok leaf → leaf = empty → sha256_collision.
Proof.
  intros Hleaf ->. rewrite smt_leaf_Ok in Hleaf by by eapply smt_leaf_inv.
  injection Hleaf as Heq. apply collides in Heq as [Heq|?]; [|done].
  exfalso. apply cons_eq_inj in Heq as [_ Heq]. apply (f_equal length) in Heq.
  rewrite !length_app, length_be_bytes in Heq. simpl in Heq. lia.
Qed.

(** [commits t m]: the leaves of [t] are those of the entries of [m]. *)
Record commits (t : SparseMerkleTree) (m : gmap bytes bytes) : Prop := {
  com_tree : tree_ok t;
  com_entry : ∀ k v, m !! k = Some v →
    ∃ leaf, smt_leaf (E := Empty_set) k v = Ok leaf ∧ leaves t !! path_of k = Some leaf;
  com_leaf : ∀ p leaf, leaves t !! p = Some leaf →
    ∃ k v, m !! k = Some v ∧ p = path_of k ∧ smt_leaf (E := Empty_set) k v = Ok leaf;
}.

Lemma smt_leaf_any {E F} k v leaf :
  smt_leaf (E := E) k v = Ok leaf → smt_leaf (E := F) k v = Ok leaf.
Proof.
  intros Hl. pose proof (smt_leaf_inv _ _ _ Hl) as Hwf. rewrite smt_leaf_Ok by done.
  rewrite smt_leaf_Ok in Hl by done. by injection Hl as <-.
Qed.

Lemma commits_new : commits new_tree ∅.
Proof.
  split; [apply new_tree_ok| |].
  - intros k v Hk. by rewrite lookup_empty in Hk.
  - intros p leaf Hp. cbn [new_tree leaves] in Hp. by rewrite lookup_empty in Hp.
Qed.

(** No other key of the map has the path of [k]. *)
Definition path_free (m : gmap bytes bytes) (k : bytes) : Prop :=
  map_Forall (λ k' _, k' = k ∨ path_of k' ≠ path_of k) m.

Lemma path_free_or_collision m k : path_free m k ∨ sha256_collision.
Proof.
  destruct (decide (map_Forall (λ k' (_ : bytes), k' = k ∨ path_of k' ≠ path_of k) m)) as [Hnone|Hsome];
    [by left|right].
  apply map_not_Forall in Hsome as (k' & _ & _ & [Hne Heq]%Decidable.not_or); [|apply _].
  exists k', k. split; [done|]. by apply dec_stable.
Qed.

Lemma commits_insert_free {E} t m k v t' :
  commits t m → path_free m k → tree_insert (E := E) k v t = Ok t' → commits t' (<[k := v]> m).
Proof.
  intros [Hok Hentry Hleaf] Hnone Hins. apply res_bind_Ok in Hins as (leaf & Hl & Hret).
  apply res_ret_Ok in Hret as <-.
  destruct (insert_leaf_ok (path_of k) leaf t Hok (path_of_path k)) as [Hok' Hls].
  revert Hok' Hls. generalize (insert_leaf (path_of k) leaf t). intros t' Hok' Hls.
  split; [done| |]; rewrite Hls.
  - intros k' v' [[<- <-]|[Hne Hk']]%lookup_insert_Some.
    + exists leaf. split; [by eapply smt_leaf_any|by rewrite lookup_insert_eq].
    + destruct (Hentry k' v' Hk') as (leaf' & Hl' & Hp'). exists leaf'. split; [done|].
      rewrite lookup_insert_ne; [done|]. intros Heq.
      destruct (Hnone k' v' Hk') as [->|Hd]; [exact (Hne eq_refl)|exact (Hd (eq_sym Heq))].
  - intros p leaf' [[<- <-]|[Hne Hp]]%lookup_insert_Some.
    + exists k, v. rewrite lookup_insert_eq. eauto using smt_leaf_any.
    + destruct (Hleaf p leaf' Hp) as (k' & v' & Hk' & -> & Hl'). exists k', v'.
      rewrite lookup_insert_ne by congruence. done.
Qed.

Lemma commits_insert {E} t m k v t' :
  commits t m → tree_insert (E := E) k v t = Ok t' → commits t' (<[k := v]> m) ∨ sha256_collision.
Proof.
  intros Hc Hins. destruct (path_free_or_collision m k) as [Hf|?]; [left|by right].
  by eapply commits_insert_free.
Qed.

Lemma commits_delete t m k :
  commits t m → commits (tree_delete k t).2 (delete k m) ∨ sha256_collision.
Proof.
  intros [Hok Hentry Hleaf]. destruct (tree_delete_ok k t Hok) as (Hok' & Hls & _).
  revert Hok' Hls. generalize (tree_delete k t).2. intros t' Hok' Hls.
  destruct (path_free_or_collision m k) as [Hnone|?]; [|by right].
  left. split; [done| |]; rewrite Hls.
  - intros k' v' [Hne Hk']%lookup_delete_Some.
    destruct (Hentry k' v' Hk') as (leaf' & Hl' & Hp'). exists leaf'. split; [done|].
    rewrite lookup_delete_ne; [done|]. intros Heq. by destruct (Hnone k' v' Hk').
  - intros p leaf' [Hne Hp]%lookup_delete_Some.
    destruct (Hleaf p leaf' Hp) as (k' & v' & Hk' & -> & Hl'). exists k', v'.
    rewrite lookup_delete_ne by congruence. done.
Qed.

(** The root is a function of the entries. *)
Lemma commits_root t1 t2 m : commits t1 m → commits t2 m → tree_root t1 = tree_root t2.
Proof.
  intros [Hok1 He1 Hl1] [Hok2 He2 Hl2]. rewrite (ok_root _ Hok1), (ok_root _ Hok2). f_equal.
  apply map_eq. intros p. apply option_eq. intros leaf. split.
  - intros (k & v & Hk & -> & Hleaf)%Hl1. destruct (He2 k v Hk) as (leaf' & Hleaf' & Hp). congruence.
  - intros (k & v & Hk & -> & Hleaf)%Hl2. destruct (He1 k v Hk) as (leaf' & Hleaf' & Hp). congruence.
Qed.

Lemma commits_sized t m : commits t m → map_Forall (λ _ leaf, hash_sized leaf) (leaves t).
Proof.
  intros Hc p leaf (k & v & _ & _ & Hleaf)%(com_leaf t m Hc). by eapply smt_leaf_sized.
Qed.

Lemma length_depths_rev n : length (depths_rev n) = n.
Proof. induction n as [|n IH]; [done|]. rewrite depths_rev_S. simpl. by rewrite IH. Qed.

Lemma verify_proof_Ok {E} proof root leaf :
  length (siblings proof) = DEPTH →
  smt_leaf (E := E) (proof_key proof) (proof_value proof) = Ok leaf →
  verify_proof (E := E) proof root =
    Ok (bool_decide (fold_path DEPTH (path_of (proof_key proof)) leaf (siblings proof) = root)).
Proof. intros Hlen Hleaf. unfold verify_proof. by rewrite Hlen, Nat.eqb_refl, Hleaf. Qed.

(** Completeness: every entry has a proof, and it verifies. *)
Lemma proof_complete {E} t m k v :
  commits t m → m !! k = Some v →
  ∃ sibs, proof_siblings t k = Some sibs ∧
    verify_proof (E := E) (mkMerkleProof k v sibs) (tree_root t) = Ok true.
Proof.
  intros Hc Hk. destruct (com_entry t m Hc k v Hk) as (leaf & Hleaf & Hp).
  unfold proof_siblings. rewrite decide_True by by eexists. eexists. split; [done|].
  erewrite verify_proof_Ok; [|cbn [siblings]; by rewrite length_fmap, length_depths_rev|by eapply smt_leaf_any].
  f_equal. apply bool_decide_eq_true_2.
  rewrite <- (fold_path_complete t 256 (path_of k) (com_tree t m Hc) (path_of_path k) (le_n _)).
  rewrite mask_full by apply path_of_path. rewrite Nat.sub_diag, ref_hash_0, Hp. reflexivity.
Qed.

(** Soundness: a proof that verifies against the root is about an entry. *)
Lemma proof_sound {E} t m proof :
  commits t m → Forall hash_sized (siblings proof) →
  verify_proof (E := E) proof (tree_root t) = Ok true →
  m !! proof_key proof = Some (proof_value proof) ∨ sha256_collision.
Proof.
  intros Hc Hsibs Hver. unfold verify_proof in Hver.
  destruct (Nat.eqb_spec (length (siblings proof)) DEPTH) as [Hlen|]; [|done]. cbn [negb] in Hver.
  apply res_bind_Ok in Hver as (leaf & Hleaf & Hver). apply res_ret_Ok in Hver.
  apply bool_decide_eq_true in Hver. rewrite (ok_root t (com_tree t m Hc)) in Hver.
  destruct (decide (leaf = empty)) as [He|Hne]; [right; by eapply smt_leaf_ne_empty|].
  unfold ref_root, DEPTH in Hver.
  apply fold_path_sound in Hver as [[p Hp]|?]; [|by right|by eapply commits_sized|done..| |done].
  - rewrite Nat.sub_diag, ref_hash_0 in Hp. destruct (leaves t !! p) as [leaf'|] eqn:Hlp; [|done].
    simpl in Hp. subst leaf'. apply (com_leaf t m Hc) in Hlp as (k & v & Hk & _ & Hleaf').
    eapply smt_leaf_any in Hleaf'. destruct (smt_leaf_inj _ _ _ _ _ Hleaf Hleaf') as [[-> ->]|?].
    + by left.
    + by right.
  - by eapply smt_leaf_sized.
Qed.

Lemma elem_of_depths_rev d n : d ∈ depths_rev n ↔ d < n.
Proof.
  induction n as [|n IH]; [|rewrite depths_rev_S, elem_of_cons, IH; lia].
  rewrite depths_rev_0, elem_of_nil. lia.
Qed.

Lemma proof_siblings_sized t m k sibs :
  commits t m → proof_siblings t k = Some sibs → Forall hash_sized sibs.
Proof.
  intros Hc. unfold proof_siblings. case_decide; [|done]. intros [= <-].
  apply Forall_fmap, Forall_forall. intros d Hd%elem_of_depths_rev. unfold compose, DEPTH in *.
  rewrite (subtree_hash_branch 0 (leaves t)); [|apply (com_tree t m Hc)|done|lia|].
  - eapply ref_hash_sized, commits_sized, Hc.
  - apply flip_path, path_of_path.
Qed.

(** Binding: one root cannot stand for two different maps. *)
Lemma commits_binding t1 t2 m1 m2 :
  commits t1 m1 → commits t2 m2 → tree_root t1 = tree_root t2 → m1 = m2 ∨ sha256_collision.
Proof.
  intros Hc1 Hc2 Hroot.
  assert (∀ t t' m m', commits t m → commits t' m' → tree_root t = tree_root t' →
            map_Forall (λ k v, m' !! k = Some v) m ∨ sha256_collision) as Hsub.
  { intros t t' m m' Hc Hc' Hr. destruct (decide (map_Forall (λ k v, m' !! k = Some v) m)) as [|Hn];
      [by left|right].
    apply map_not_Forall in Hn as (k & v & Hk & Hk'); [|apply _].
    destruct (proof_complete (E := Empty_set) t m k v Hc Hk) as (sibs & Hsibs & Hver).
    rewrite Hr in Hver. apply (proof_sound t' m') in Hver as [?|?]; try done.
    exact (proof_siblings_sized t m k sibs Hc Hsibs). }
  destruct (Hsub t1 t2 m1 m2) as [H12|?]; [done..| |by right].
  destruct (Hsub t2 t1 m2 m1) as [H21|?]; [done..| |by right].
  left. apply map_eq. intros k. apply option_eq. intros v. split; [apply H12|apply H21].
Qed.
End facts.

(** ** Wire format *)

Lemma decode_encode_proof {E} proof :
  wf_entry (proof_key proof) (proof_value proof) →
  length (siblings proof) = DEPTH → Forall hash_sized (siblings proof) →
  ∃ w, encode_proof (E := E) proof = Ok w ∧ decode_proof w = Ok proof.
Proof.
  intros [Hk Hv] Hlen Hsized. unfold encode_proof.
  assert (wf_nodes (siblings proof)) as Hnodes by (split; [done|by rewrite Hlen]).
  rewrite !write_bytes_Ok, write_hashes_Ok by done.
  eexists. split; [reflexivity|]. unfold decode_proof. apply parses_result.
  unfold decode_proof_body. parse_step; [by apply decodes_take_bytes|].
  parse_step; [by apply decodes_take_bytes|].
  parse_step; [apply decodes_take_u32; by rewrite Hlen|].
  rewrite Hlen, N.eqb_refl. cbn [negb]. rewrite <- Hlen.
  eapply parses_bind_nil.
  - rewrite <- (list_fmap_id (siblings proof)) at 2.
    apply decodes_take_n, Forall_impl with hash_sized; [done|].
    intros h Hh. apply decodes_take_exact. unfold hash_sized in Hh. by rewrite Hh.
  - by destruct proof.
Qed.
