(* ===== verification/LogProps.v ===== *)
(** * What the two Merkle commitments guarantee

    The RFC 6962 log of [executor/state/src/merkle_log.rs], which commits to
    the sub-actors of a DID, and the sparse Merkle tree of [merkle.rs], which
    commits to the whole key-value state.  Soundness is always "the claim
    holds or two inputs of SHA-256 collide". *)

From S2P Require Import Prelude Codec External MerkleLog MerkleLogFacts SparseMerkle.
From S2P Require Import SparseMerkleFacts.

#[local] Existing Instance toy_sha256.

Section props.
Context `{Sha256}.

(** inclusion proofs are complete and sound.  The proof built for a leaf
    verifies against the log's head; conversely a proof that verifies against
    a head of the same size is for the leaf that is at that index. *)
Theorem inclusion_proofs_correct (leaves : list Hash) i leaf leaf' proof' :
  Forall hash_sized leaves → hash_sized leaf' → Forall hash_sized (incl_nodes proof') →
  leaf_count proof' = N.of_nat (length leaves) → leaves !! i = Some leaf →
  (∃ proof, prove_inclusion leaves i = Ok proof ∧
     verify_inclusion leaf proof (mth leaves) = Ok true) ∧
  (verify_inclusion leaf' proof' (mth leaves) = Ok true →
   leaves !! N.to_nat (leaf_index proof') = Some leaf' ∨ sha256_collision).
Proof.
  intros Hl Hl' Hp Hc Hi. split.
  - destruct (prove_inclusion_verifies leaves i leaf Hi) as (p & ? & _ & _ & ?). eauto.
  - by apply verify_inclusion_sound.
Qed.

(** consistency proofs are complete and sound.  The proof built between
    a prefix and the log verifies; conversely a proof that verifies against
    the log's head shows that the old head is the head of a prefix. *)
Theorem consistency_proofs_correct (leaves : list Hash) m old_root proof' :
  Forall hash_sized leaves → hash_sized old_root → Forall hash_sized (cons_nodes proof') →
  new_leaf_count proof' = N.of_nat (length leaves) → m ≤ length leaves →
  (∃ proof, prove_consistency leaves m = Ok proof ∧
     verify_consistency (mth (take m leaves)) proof (mth leaves) = Ok true) ∧
  (verify_consistency old_root proof' (mth leaves) = Ok true →
   (old_leaf_count proof' ≤ N.of_nat (length leaves))%N ∧
   (old_root = mth (take (N.to_nat (old_leaf_count proof')) leaves) ∨ sha256_collision)).
Proof.
  intros Hl Hr Hp Hc Hm. split.
  - destruct (prove_consistency_verifies leaves m Hm) as (p & ? & _ & _ & ?). eauto.
  - by apply verify_consistency_sound.
Qed.

(** an append is fully determined.  A consistency proof from the head of
    [old] together with an inclusion proof of [leaf] at the next index, both
    against a claimed new head, force that head to be the head of [old]
    followed by [leaf]; the verifier never sees the leaves. *)
Theorem append_forces_head (old : list Hash) leaf cproof iproof new_head :
  Forall hash_sized old → hash_sized leaf → hash_sized new_head →
  Forall hash_sized (cons_nodes cproof) → Forall hash_sized (incl_nodes iproof) →
  old_leaf_count cproof = N.of_nat (length old) →
  new_leaf_count cproof = (N.of_nat (length old) + 1)%N →
  leaf_index iproof = N.of_nat (length old) →
  leaf_count iproof = (N.of_nat (length old) + 1)%N →
  verify_consistency (mth old) cproof new_head = Ok true →
  verify_inclusion leaf iproof new_head = Ok true →
  new_head = mth (old ++ [leaf]) ∨ sha256_collision.
Proof. apply append_determines. Qed.

(** both verifiers return a verdict on every input, however malformed:
    no panic, no overflow, and the recursion ends within the logarithm of the
    claimed leaf count. *)
Theorem log_verifiers_total leaf iproof cproof old_root root :
  (∃ b, verify_inclusion leaf iproof root = Ok b) ∧
  (∃ b, verify_consistency old_root cproof root = Ok b).
Proof. split; [apply verify_inclusion_total|apply verify_consistency_total]. Qed.

(** the incrementally maintained sparse tree equals the reference tree.
    From the empty tree, every insertion and deletion keeps the cached inner
    nodes and the root equal to what recomputing all 256 levels from the leaf
    set gives. *)
Theorem sparse_tree_incremental path leaf key t :
  tree_ok t → is_path path →
  tree_ok new_tree ∧
  (let t' := insert_leaf path leaf t in
   tree_ok t' ∧ leaves t' = <[path := leaf]> (leaves t) ∧ tree_root t' = ref_root (leaves t')) ∧
  (let t' := (tree_delete key t).2 in
   tree_ok t' ∧ leaves t' = delete (path_of key) (leaves t) ∧ tree_root t' = ref_root (leaves t')).
Proof.
  intros Ht Hp. split; [apply new_tree_ok|]. split.
  - destruct (insert_leaf_ok path leaf t Ht Hp) as [Hok Hl].
    split; [exact Hok|]. split; [exact Hl|]. exact (ok_root _ Hok).
  - destruct (tree_delete_ok key t Ht) as (Hok & Hl & _).
    split; [exact Hok|]. split; [exact Hl|]. exact (ok_root _ Hok).
Qed.

(** membership proofs of the sparse tree are complete and sound: the
    proof of a stored entry verifies against the root, and a proof that
    verifies against the root is of a stored entry. *)
Theorem sparse_proofs_correct {E} t m k v proof' :
  commits t m → m !! k = Some v → Forall hash_sized (siblings proof') →
  (∃ sibs, proof_siblings t k = Some sibs ∧
     verify_proof (E := E) (mkMerkleProof k v sibs) (tree_root t) = Ok true) ∧
  (verify_proof (E := E) proof' (tree_root t) = Ok true →
   m !! proof_key proof' = Some (proof_value proof') ∨ sha256_collision).
Proof.
  intros Hc Hk Hs. split; [by eapply proof_complete|by apply proof_sound].
Qed.

(** the root determines the whole map, and the map the root: two
    committed maps with one root are equal or exhibit a collision, and the
    root does not depend on the history of insertions and deletions. *)
Theorem sparse_root_binds t1 t2 m1 m2 :
  commits t1 m1 → commits t2 m2 →
  (tree_root t1 = tree_root t2 → m1 = m2 ∨ sha256_collision) ∧
  (m1 = m2 → tree_root t1 = tree_root t2).
Proof.
  intros H1 H2. split; [by apply commits_binding|]. intros ->. by eapply commits_root.
Qed.
End props.

(** ** Instances *)

Definition some_leaves : list Hash := (λ n, leaf_hash [byte_of_N n]) <$> [1; 2; 3; 4; 5]%N.
Definition a_leaf : Hash := leaf_hash [byte_of_N 3].
Definition next_leaf : Hash := leaf_hash [byte_of_N 6].

Lemma some_leaves_sized : Forall hash_sized some_leaves.
Proof. repeat constructor; apply sha256_length. Qed.

Definition inclusion_of (l : list Hash) (i : nat) : InclusionProof :=
  match prove_inclusion l i with Ok p => p | _ => mkInclusionProof 0 0 [] end.
Definition consistency_of (l : list Hash) (m : nat) : ConsistencyProof :=
  match prove_consistency l m with Ok p => p | _ => mkConsistencyProof 0 0 [] end.

Lemma sized_by_length (l : list Hash) : forallb (λ h, length h =? 32) l = true → Forall hash_sized l.
Proof. intros Hl. apply Forall_forall. intros h Hh. by apply Nat.eqb_eq, (proj1 (forallb_forall _ _) Hl), list_elem_of_In. Qed.

Lemma inclusion_proofs_correct_witness :
  some_leaves !! 2 = Some a_leaf ∨ sha256_collision.
Proof.
  apply (inclusion_proofs_correct some_leaves 2 a_leaf a_leaf (inclusion_of some_leaves 2));
    [apply some_leaves_sized|apply sha256_length|apply sized_by_length|..]; vm_compute; reflexivity.
Defined.

Lemma consistency_proofs_correct_witness :
  verify_consistency (mth (take 3 some_leaves)) (consistency_of some_leaves 3) (mth some_leaves) = Ok true ∧
  (mth (take 3 some_leaves)
   = mth (take (N.to_nat (old_leaf_count (consistency_of some_leaves 3))) some_leaves) ∨ sha256_collision).
Proof.
  split; [vm_compute; reflexivity|].
  apply (consistency_proofs_correct some_leaves 3 (mth (take 3 some_leaves)) (consistency_of some_leaves 3));
    [apply some_leaves_sized|apply sha256_length|apply sized_by_length|..];
    try (vm_compute; reflexivity). simpl. lia.
Defined.

Lemma append_forces_head_witness :
  mth (some_leaves ++ [next_leaf]) = mth (some_leaves ++ [next_leaf]) ∨ sha256_collision.
Proof.
  apply (append_forces_head some_leaves next_leaf (consistency_of (some_leaves ++ [next_leaf]) 5)
    (inclusion_of (some_leaves ++ [next_leaf]) 5));
    [apply some_leaves_sized|apply sha256_length|apply sha256_length
    |apply sized_by_length|apply sized_by_length|..]; vm_compute; reflexivity.
Defined.

Definition a_key : bytes := [byte_of_N 107].
Definition a_value : bytes := [byte_of_N 118].

Lemma sparse_tree_incremental_witness :
  tree_root (insert_leaf (path_of a_key) a_leaf new_tree)
  = ref_root (leaves (insert_leaf (path_of a_key) a_leaf new_tree)).
Proof.
  destruct (sparse_tree_incremental (path_of a_key) a_leaf a_key new_tree new_tree_ok
    (path_of_path a_key)) as (_ & (_ & _ & Hroot) & _). exact Hroot.
Defined.

(** A tree that commits to one entry, built by the model. *)
Definition one_entry : SparseMerkleTree :=
  match tree_insert (E := unit) a_key a_value new_tree with Ok t => t | _ => new_tree end.

Lemma one_entry_commits : commits one_entry {[ a_key := a_value ]}.
Proof.
  apply (commits_insert_free (E := unit) new_tree ∅ a_key a_value);
    [apply commits_new|apply map_Forall_empty|].
  unfold one_entry, tree_insert. generalize (insert_leaf (path_of a_key)). intros f.
  by rewrite (smt_leaf_Ok (E := unit)) by (by vm_compute).
Qed.

Lemma sparse_proofs_correct_witness :
  ∃ sibs, proof_siblings one_entry a_key = Some sibs ∧
    verify_proof (E := unit) (mkMerkleProof a_key a_value sibs) (tree_root one_entry) = Ok true.
Proof.
  apply (sparse_proofs_correct (E := unit) one_entry {[ a_key := a_value ]} a_key a_value
    (mkMerkleProof a_key a_value [])); [apply one_entry_commits|apply lookup_singleton_eq|constructor].
Defined.

(** The same entry written twice. *)
Definition rewritten : SparseMerkleTree :=
  match tree_insert (E := unit) a_key a_value one_entry with Ok t => t | _ => new_tree end.

Lemma rewritten_commits : commits rewritten {[ a_key := a_value ]}.
Proof.
  assert (<[ a_key := a_value ]> {[ a_key := a_value ]} = ({[ a_key := a_value ]} : gmap bytes bytes)) as <-
    by apply insert_singleton_eq.
  apply (commits_insert_free (E := unit) one_entry {[ a_key := a_value ]} a_key a_value);
    [apply one_entry_commits|intros k v [<- _]%lookup_singleton_Some; by left|].
  unfold rewritten, tree_insert. generalize (insert_leaf (path_of a_key)). intros f.
  by rewrite (smt_leaf_Ok (E := unit)) by (by vm_compute).
Qed.

Lemma sparse_root_binds_witness : tree_root one_entry = tree_root rewritten.
Proof.
  destruct (sparse_root_binds one_entry rewritten {[ a_key := a_value ]} {[ a_key := a_value ]}
    one_entry_commits rewritten_commits) as [_ Hsame].
  exact (Hsame eq_refl).
Defined.
