(* ===== verification/Did.v ===== *)
(** * DID identifiers, documents and operations (executor/state/src/did.rs)

    A Rust [String] is the list of its UTF-8 bytes; [utf8_valid] is the check of
    [String::from_utf8].  A character below 0x80 occurs in a valid string exactly
    where its byte does, so [contains(':')] and [split_once(':')] look at bytes. *)

From S2P Require Import Prelude Codec External.

(** executor/state/src/error.rs *)
Inductive ExecutorError :=
  | EmptyPayload
  | Truncated
  | UnknownOpcode (opcode : byte)
  | TrailingBytes
  | MalformedMembershipOp
  | MalformedDidOp
  | MalformedSubActorOp
  | MalformedRebindOp
  | InvalidDid
  | ReservedKeyPrefix (prefix : byte)
  | UnsupportedDidDocumentVersion (version : byte)
  | UnknownVerificationMethodType (method_type : byte)
  | NoSigningMethod
  | UnknownActorIdVariant (variant : byte)
  | UnknownActorTag (tag : byte)
  | ActorIndexOutOfRange (index : N)
  | ExpectedSubActor.

Inductive DidParseError := MissingPrefix | MissingSeparator | InvalidUuid | ParseInvalidDid.

(** ** Strings *)

(** [core::str::from_utf8]: the table of well-formed sequences of the Unicode
    standard (no overlong forms, no surrogates, nothing above U+10FFFF). *)
Definition in_range (lo hi : N) (b : byte) : bool := (lo <=? Byte.to_N b)%N && (Byte.to_N b <=? hi)%N.
Definition continuation (b : byte) : bool := in_range 0x80 0xBF b.

Fixpoint utf8_valid (s : bytes) : bool :=
  match s with
  | [] => true
  | a :: s =>
    if in_range 0x00 0x7F a then utf8_valid s else
    match s with
    | b :: s =>
      if in_range 0xC2 0xDF a then continuation b && utf8_valid s else
      match s with
      | c :: s =>
        if in_range 0xE0 0xEF a then
          in_range (if (Byte.to_N a =? 0xE0)%N then 0xA0 else 0x80)
                   (if (Byte.to_N a =? 0xED)%N then 0x9F else 0xBF) b &&
          continuation c && utf8_valid s
        else
        match s with
        | d :: s =>
          in_range 0xF0 0xF4 a &&
          in_range (if (Byte.to_N a =? 0xF0)%N then 0x90 else 0x80)
                   (if (Byte.to_N a =? 0xF4)%N then 0x8F else 0xBF) b &&
          continuation c && continuation d && utf8_valid s
        | [] => false
        end
      | [] => false
      end
    | [] => false
    end
  end.

Definition colon : byte := x3a.
Definition contains_colon (s : bytes) : bool := bool_decide (colon ∈ s).

(** [s.split_once(':')]: at the first occurrence. *)
Fixpoint split_once_colon (s : bytes) : option (bytes * bytes) :=
  match s with
  | [] => None
  | b :: s =>
    if bool_decide (b = colon) then Some ([], s)
    else '(l, r) ← split_once_colon s; Some (b :: l, r)
  end.

(** [s.strip_prefix(p)]. *)
Fixpoint strip_prefix (p s : bytes) : option bytes :=
  match p, s with
  | [], _ => Some s
  | a :: p, b :: s => if bool_decide (a = b) then strip_prefix p s else None
  | _ :: _, [] => None
  end.

Definition hex_char (n : N) : byte := byte_of_N (if (n <? 10)%N then 48 + n else 87 + n).

(** [format!("{b:02x}")] of every byte. *)
Definition hex_encode (bs : bytes) : bytes :=
  bs ≫= λ b, [hex_char (Byte.to_N b / 16); hex_char (Byte.to_N b mod 16)].

Definition hex_digit (b : byte) : option N :=
  let n := Byte.to_N b in
  if in_range 48 57 b then Some (n - 48)%N
  else if in_range 97 102 b then Some (n - 97 + 10)%N
  else if in_range 65 70 b then Some (n - 65 + 10)%N
  else None.

(** The loop over [hex.as_bytes().chunks(2)]; the length was checked. *)
Fixpoint hex_decode (hex : bytes) : option bytes :=
  match hex with
  | a :: b :: hex =>
    hi ← hex_digit a;
    lo ← hex_digit b;
    rest ← hex_decode hex;
    Some (byte_of_N (N.lor (N.shiftl hi 4) lo) :: rest)
  | [_] => None
  | [] => Some []
  end.

(** ** Identifiers *)

Definition UUID_LEN : nat := 16.

Record DidId := mkDidId { network : bytes; alias : bytes; uuid : bytes }.

#[export] Instance did_id_eq_dec : EqDecision DidId.
Proof. solve_decision. Defined.

Module Did.

Definition new (network alias uuid : bytes) : res DidParseError DidId :=
  if contains_colon network || contains_colon alias then Err ParseInvalidDid
  else Ok (mkDidId network alias uuid).

(** ["did:jkain:"]. *)
Definition did_prefix : bytes := [x64; x69; x64; x3a; x6a; x6b; x61; x69; x6e; x3a].

Definition parse (s : bytes) : res DidParseError DidId :=
  rest ← ok_or (strip_prefix did_prefix s) MissingPrefix;
  '(network, rest) ← ok_or (split_once_colon rest) MissingSeparator;
  '(alias, uuid_hex) ← ok_or (split_once_colon rest) MissingSeparator;
  if contains_colon network || contains_colon alias || contains_colon uuid_hex
  then Err ParseInvalidDid else
  if negb (length uuid_hex =? UUID_LEN * 2) then Err InvalidUuid else
  uuid ← ok_or (hex_decode uuid_hex) InvalidUuid;
  mret (mkDidId network alias uuid).

(** [Display::fmt]. *)
Definition display (id : DidId) : bytes :=
  did_prefix ++ network id ++ [colon] ++ alias id ++ [colon] ++ hex_encode (uuid id).

Definition encode {E} (id : DidId) : res E bytes :=
  n ← write_bytes (network id);
  a ← write_bytes (alias id);
  mret (n ++ a ++ uuid id).

Definition decode : stM bytes ExecutorError DidId :=
  network_bytes ← take_bytes Truncated;
  alias_bytes ← take_bytes Truncated;
  uuid ← take_exact Truncated (N.of_nat UUID_LEN);
  if negb (utf8_valid network_bytes) then st_fail InvalidDid else
  if negb (utf8_valid alias_bytes) then st_fail InvalidDid else
  if contains_colon network_bytes || contains_colon alias_bytes then st_fail InvalidDid else
  mret (mkDidId network_bytes alias_bytes uuid).

End Did.

Definition DID_STATE_PREFIX : byte := xd1.

Definition did_state_key {E} (id : DidId) : res E bytes :=
  e ← Did.encode id;
  mret (DID_STATE_PREFIX :: e).

(** ** Documents *)

Definition DID_DOCUMENT_VERSION : byte := x02.
Definition METHOD_TYPE_ED25519 : byte := x01.
Definition METHOD_TYPE_X25519 : byte := x02.
Definition MAX_VERIFICATION_METHODS : nat := 5.

Inductive VerificationMethod :=
  | Signing (key : bytes)
  | Agreement (key : bytes).

Record DidDocument := mkDocument {
  doc_control_key : bytes;
  methods : list VerificationMethod;
  deactivated : bool;
}.

Definition is_signing (m : VerificationMethod) : bool :=
  match m with Signing _ => true | Agreement _ => false end.

Definition bool_byte (b : bool) : byte := if b then x01 else x00.

Module Document.

Definition new (control_key : bytes) (methods : list VerificationMethod) (deactivated : bool)
    : res ExecutorError DidDocument :=
  if (length methods =? 0) || (MAX_VERIFICATION_METHODS <? length methods) then Err Truncated else
  if negb (existsb is_signing methods) then Err NoSigningMethod else
  Ok (mkDocument control_key methods deactivated).

Definition signing_key (doc : DidDocument) (index : nat) : option bytes :=
  omap (λ m, match m with Signing key => Some key | Agreement _ => None end) (methods doc) !! index.

Definition method_type (m : VerificationMethod) : byte :=
  match m with Signing _ => METHOD_TYPE_ED25519 | Agreement _ => METHOD_TYPE_X25519 end.

Definition key_bytes (m : VerificationMethod) : bytes :=
  match m with Signing key | Agreement key => key end.

Definition encode_method (m : VerificationMethod) : bytes := method_type m :: key_bytes m.

Definition encode (doc : DidDocument) : bytes :=
  [DID_DOCUMENT_VERSION] ++ doc_control_key doc ++
  [byte_of_N (N.of_nat (length (methods doc)))] ++
  concat (encode_method <$> methods doc) ++
  [bool_byte (deactivated doc)].

Section decode.
Context `{Ed25519}.

Definition decode_method : stM bytes ExecutorError VerificationMethod :=
  method_type ← take_byte Truncated;
  arr ← take_exact Truncated 32;
  if bool_decide (method_type = METHOD_TYPE_ED25519) then
    key ← st_lift (λ _, vk_from_bytes Truncated arr);
    mret (Signing key)
  else if bool_decide (method_type = METHOD_TYPE_X25519) then mret (Agreement arr)
  else st_fail (UnknownVerificationMethodType method_type).

Definition decode : stM bytes ExecutorError DidDocument :=
  version ← take_byte Truncated;
  if negb (bool_decide (version = DID_DOCUMENT_VERSION))
  then st_fail (UnsupportedDidDocumentVersion version) else
  control_arr ← take_exact Truncated 32;
  control_key ← st_lift (λ _, vk_from_bytes Truncated control_arr);
  num_methods ← take_byte Truncated;
  let num_methods := N.to_nat (Byte.to_N num_methods) in
  if (num_methods =? 0) || (MAX_VERIFICATION_METHODS <? num_methods) then st_fail Truncated else
  methods ← take_n num_methods decode_method;
  deactivated_byte ← take_byte Truncated;
  if negb (existsb is_signing methods) then st_fail NoSigningMethod else
  mret (mkDocument control_key methods (negb (bool_decide (deactivated_byte = x00)))).
End decode.

End Document.

(** ** Operations *)

Record DidOp := mkDidOp {
  did_id : DidId;
  document : DidDocument;
  did_signature : bytes;
  did_signed_by : byte;
  is_creation : bool;
}.

(** [b"jkain:did:v1"]. *)
Definition DID_SIGNED_DOMAIN : bytes :=
  [x6a; x6b; x61; x69; x6e; x3a; x64; x69; x64; x3a; x76; x31].

Module DidOps.

Definition encode {E} (op : DidOp) : res E bytes :=
  id ← Did.encode (did_id op);
  mret (id ++ Document.encode (document op) ++ did_signature op ++
        [did_signed_by op] ++ [bool_byte (is_creation op)]).

Definition signed_payload {E} (op : DidOp) : res E bytes :=
  id ← Did.encode (did_id op);
  mret (DID_SIGNED_DOMAIN ++ id ++ Document.encode (document op)).

Section decode.
Context `{Ed25519}.

Definition decode_body : stM bytes ExecutorError DidOp :=
  id ← Did.decode;
  document ← Document.decode;
  signature ← take_exact Truncated 64;
  signed_by ← take_byte Truncated;
  creation ← take_byte Truncated;
  reject_trailing TrailingBytes;;
  mret (mkDidOp id document signature signed_by (negb (bool_decide (creation = x00)))).

Definition decode (payload : bytes) : res ExecutorError DidOp := (decode_body payload).1.
End decode.

End DidOps.
