(* ===== verification/Actor.v ===== *)
(** * Actors (executor/state/src/root_actor.rs, sub_actor.rs)

    Actor identities, the root-actor record that commits to a DID's log of
    sub-actors, sub-actor records, and the mint and rebind operations. *)

From S2P Require Import Prelude Codec External MerkleLog Did.

Definition ACTOR_STATE_PREFIX : byte := xa1.
Definition ACTOR_VARIANT_ROOT : byte := x00.
Definition ACTOR_VARIANT_SUB : byte := x01.
Definition MAX_ACTOR_INDEX_PLUS_ONE : N := 0x80000000.

Inductive Tag := Defi | Messenger | Game | Generic.

#[export] Instance tag_eq_dec : EqDecision Tag.
Proof. solve_decision. Defined.

Definition tag_code (t : Tag) : byte :=
  match t with Defi => x00 | Messenger => x01 | Game => x02 | Generic => x03 end.

Definition tag_from_code (code : byte) : option Tag :=
  match code with
  | x00 => Some Defi
  | x01 => Some Messenger
  | x02 => Some Game
  | x03 => Some Generic
  | _ => None
  end.

Inductive ActorId :=
  | Root (did : DidId)
  | Sub (root_did : DidId) (tag : Tag) (index : N).

#[export] Instance actor_id_eq_dec : EqDecision ActorId.
Proof. solve_decision. Defined.

(** [let Some(tag) = Tag::from_code(c) else { return Err(..) }] and the u31
    index, as [ActorId::decode] and [SubActorOp::decode] read them. *)
Definition take_tag : stM bytes ExecutorError Tag :=
  code ← take_byte Truncated;
  st_lift (λ _, ok_or (tag_from_code code) (UnknownActorTag code)).

Definition take_index : stM bytes ExecutorError N :=
  index ← take_u32 Truncated;
  if (MAX_ACTOR_INDEX_PLUS_ONE <=? index)%N then st_fail (ActorIndexOutOfRange index)
  else mret index.

Module Actor.

Definition encode {E} (id : ActorId) : res E bytes :=
  match id with
  | Root did => d ← Did.encode did; mret (ACTOR_VARIANT_ROOT :: d)
  | Sub root_did tag index =>
    d ← Did.encode root_did;
    mret (ACTOR_VARIANT_SUB :: d ++ [tag_code tag] ++ u32_be index)
  end.

Definition decode : stM bytes ExecutorError ActorId :=
  variant ← take_byte Truncated;
  if bool_decide (variant = ACTOR_VARIANT_ROOT) then did ← Did.decode; mret (Root did)
  else if bool_decide (variant = ACTOR_VARIANT_SUB) then
    root_did ← Did.decode;
    tag ← take_tag;
    index ← take_index;
    mret (Sub root_did tag index)
  else st_fail (UnknownActorIdVariant variant).

End Actor.

Definition actor_state_key {E} (id : ActorId) : res E bytes :=
  e ← Actor.encode id;
  mret (ACTOR_STATE_PREFIX :: e).

Record RootActor := mkRootActor {
  root_did_id : DidId;
  merkle_root : Hash;
  root_leaf_count : N;
  root_control_key : bytes;
}.

Record SubActor := mkSubActor {
  actor_id : ActorId;
  sub_control_key : bytes;
  operating_key : bytes;
}.

Definition is_root (id : ActorId) : bool := match id with Root _ => true | Sub _ _ _ => false end.

(** [decode_key]. *)
Definition decode_key `{Ed25519} : stM bytes ExecutorError bytes :=
  arr ← take_exact Truncated 32;
  st_lift (λ _, vk_from_bytes Truncated arr).

Module RootRecord.

Definition encode {E} (root : RootActor) : res E bytes :=
  d ← Did.encode (root_did_id root);
  mret (d ++ merkle_root root ++ u64_be (root_leaf_count root) ++ root_control_key root).

Definition decode `{Ed25519} : stM bytes ExecutorError RootActor :=
  did_id ← Did.decode;
  merkle_root ← take_exact Truncated 32;
  leaf_count ← take_u64 Truncated;
  control_key ← decode_key;
  mret (mkRootActor did_id merkle_root leaf_count control_key).

End RootRecord.

Module SubRecord.

Definition new (id : ActorId) (control_key operating_key : bytes) : res ExecutorError SubActor :=
  if is_root id then Err ExpectedSubActor else Ok (mkSubActor id control_key operating_key).

Definition encode {E} (sub : SubActor) : res E bytes :=
  id ← Actor.encode (actor_id sub);
  mret (id ++ sub_control_key sub ++ operating_key sub).

Definition decode `{Ed25519} : stM bytes ExecutorError SubActor :=
  actor_id ← Actor.decode;
  if is_root actor_id then st_fail ExpectedSubActor else
  control_key ← decode_key;
  operating_key ← decode_key;
  mret (mkSubActor actor_id control_key operating_key).

End SubRecord.

(** [b"jkain:subactor-leaf:v1"], [b"jkain:subactor:v1"], [b"jkain:rebind:v1"]. *)
Definition SUBACTOR_LEAF_DOMAIN : bytes :=
  [x6a; x6b; x61; x69; x6e; x3a; x73; x75; x62; x61; x63; x74; x6f; x72; x2d; x6c; x65; x61; x66;
   x3a; x76; x31].
Definition SUBACTOR_SIGNED_DOMAIN : bytes :=
  [x6a; x6b; x61; x69; x6e; x3a; x73; x75; x62; x61; x63; x74; x6f; x72; x3a; x76; x31].
Definition REBIND_SIGNED_DOMAIN : bytes :=
  [x6a; x6b; x61; x69; x6e; x3a; x72; x65; x62; x69; x6e; x64; x3a; x76; x31].

Definition subactor_leaf_data {E} (id : ActorId) (control_key : bytes) : res E bytes :=
  id_bytes ← Actor.encode id;
  framed ← write_bytes id_bytes;
  mret (SUBACTOR_LEAF_DOMAIN ++ framed ++ control_key).

Definition subactor_leaf_hash `{Sha256} {E} (id : ActorId) (control_key : bytes) : res E Hash :=
  leaf_hash <$> subactor_leaf_data id control_key.

(** ** Minting *)

Record SubActorOp := mkSubActorOp {
  op_root_did : DidId;
  op_tag : Tag;
  op_index : N;
  op_control_key : bytes;
  op_operating_key : bytes;
  new_root : Hash;
  consistency_proof : ConsistencyProof;
  inclusion_proof : InclusionProof;
  op_signature : bytes;
  op_signed_by : byte;
}.

Definition op_actor_id (op : SubActorOp) : ActorId := Sub (op_root_did op) (op_tag op) (op_index op).

(** [let Some(p) = Proof::decode_from(&mut cursor) else { Truncated }]: the
    proofs are read by the log's own decoder. *)
Definition or_truncated {A} (d : stM bytes unit A) : stM bytes ExecutorError A := λ cursor,
  let '(r, rest) := d cursor in (map_err (λ _, Truncated) r, rest).

Module SubActorOps.

Definition encode {E} (op : SubActorOp) : res E bytes :=
  d ← Did.encode (op_root_did op);
  c ← Consistency.encode (consistency_proof op);
  i ← Inclusion.encode (inclusion_proof op);
  mret (d ++ [tag_code (op_tag op)] ++ u32_be (op_index op) ++ op_control_key op ++
        op_operating_key op ++ new_root op ++ c ++ i ++ op_signature op ++ [op_signed_by op]).

Definition decode_body `{Ed25519} : stM bytes ExecutorError SubActorOp :=
  root_did ← Did.decode;
  tag ← take_tag;
  index ← take_index;
  control_key ← decode_key;
  operating_key ← decode_key;
  new_root ← take_exact Truncated 32;
  consistency_proof ← or_truncated Consistency.decode_from;
  inclusion_proof ← or_truncated Inclusion.decode_from;
  signature ← take_exact Truncated 64;
  signed_by ← take_byte Truncated;
  reject_trailing TrailingBytes;;
  mret (mkSubActorOp root_did tag index control_key operating_key new_root consistency_proof
          inclusion_proof signature signed_by).

Definition decode `{Ed25519} (payload : bytes) : res ExecutorError SubActorOp :=
  (decode_body payload).1.

Definition signed_payload {E} (op : SubActorOp) : res E bytes :=
  id_bytes ← Actor.encode (op_actor_id op);
  framed ← write_bytes id_bytes;
  mret (SUBACTOR_SIGNED_DOMAIN ++ framed ++ op_control_key op ++ op_operating_key op).

End SubActorOps.

(** ** Rebinding *)

Record RebindOp := mkRebindOp {
  rebind_actor_id : ActorId;
  new_operating_key : bytes;
  proof_of_possession : bytes;
  authorizing_signature : bytes;
}.

Module RebindOps.

Definition encode {E} (op : RebindOp) : res E bytes :=
  id ← Actor.encode (rebind_actor_id op);
  mret (id ++ new_operating_key op ++ proof_of_possession op ++ authorizing_signature op).

Definition decode_body `{Ed25519} : stM bytes ExecutorError RebindOp :=
  actor_id ← Actor.decode;
  new_operating_key ← decode_key;
  pop ← take_exact Truncated 64;
  auth ← take_exact Truncated 64;
  reject_trailing TrailingBytes;;
  mret (mkRebindOp actor_id new_operating_key pop auth).

Definition decode `{Ed25519} (payload : bytes) : res ExecutorError RebindOp :=
  (decode_body payload).1.

Definition signed_payload {E} (op : RebindOp) (old_operating_key : bytes) : res E bytes :=
  id_bytes ← Actor.encode (rebind_actor_id op);
  framed ← write_bytes id_bytes;
  mret (REBIND_SIGNED_DOMAIN ++ framed ++ old_operating_key ++ new_operating_key op).

End RebindOps.
