(* ===== verification/DidFacts.v ===== *)
(** * Round trips of the DID and actor formats *)

From S2P Require Import Prelude Codec External MerkleLog MerkleLogFacts Did Actor.

(** ** Round trips of the DID formats *)

Definition wf_did (id : DidId) : Prop :=
  is_u32 (N.of_nat (length (network id))) ∧ is_u32 (N.of_nat (length (alias id))) ∧
  length (uuid id) = UUID_LEN ∧
  utf8_valid (network id) = true ∧ utf8_valid (alias id) = true ∧
  contains_colon (network id) = false ∧ contains_colon (alias id) = false.

(** ** Text form *)

Lemma strip_prefix_app p s : strip_prefix p (p ++ s) = Some s.
Proof. induction p as [|a p IH]; simpl; [done|]. by rewrite bool_decide_eq_true_2. Qed.

Lemma split_once_colon_app l r :
  contains_colon l = false → split_once_colon (l ++ colon :: r) = Some (l, r).
Proof.
  unfold contains_colon. induction l as [|b l IH]; simpl; intros Hl.
  - done.
  - apply bool_decide_eq_false in Hl. rewrite bool_decide_eq_false_2 by set_solver.
    rewrite IH by (apply bool_decide_eq_false_2; set_solver). done.
Qed.

Lemma hex_char_spec n :
  (n < 16)%N → hex_digit (hex_char n) = Some n ∧ hex_char n ≠ colon.
Proof.
  intros Hn. assert (n ∈ N.of_nat <$> seq 0 16) as Hin.
  { apply list_elem_of_fmap. exists (N.to_nat n). split; [lia|]. apply elem_of_seq. lia. }
  revert n Hn Hin. cut (Forall (λ n, hex_digit (hex_char n) = Some n ∧ hex_char n ≠ colon)
    (N.of_nat <$> seq 0 16)).
  { intros Hall n _ Hin. by eapply Forall_forall in Hall. }
  apply (bool_decide_unpack _). vm_compute. done.
Qed.

Lemma nibbles (b : byte) :
  (Byte.to_N b / 16 < 16)%N ∧ (Byte.to_N b mod 16 < 16)%N ∧
  byte_of_N (N.lor (N.shiftl (Byte.to_N b / 16) 4) (Byte.to_N b mod 16)) = b.
Proof.
  pose proof (to_N_lt b) as Hb. split; [apply N.Div0.div_lt_upper_bound; lia|].
  split; [apply N.mod_lt; lia|]. rewrite <- (byte_of_N_to_N b) at 3. f_equal.
  change 16%N with (2 ^ 4)%N. rewrite <- N.shiftr_div_pow2, <- N.land_ones.
  apply N.bits_inj. intros i. rewrite N.lor_spec, N.land_spec.
  destruct (decide (i < 4)%N) as [Hi|Hi].
  - rewrite N.shiftl_spec_low by done. by rewrite N.ones_spec_low, andb_true_r.
  - rewrite N.shiftl_spec_high', N.shiftr_spec' by lia. rewrite N.ones_spec_high by lia.
    rewrite andb_false_r, orb_false_r. f_equal. lia.
Qed.

Lemma hex_decode_encode bs : hex_decode (hex_encode bs) = Some bs.
Proof.
  induction bs as [|b bs IH]; [done|]. destruct (nibbles b) as (Hhi & Hlo & Hb).
  unfold hex_encode in *. rewrite bind_cons. cbn [app hex_decode].
  destruct (hex_char_spec _ Hhi) as [-> _], (hex_char_spec _ Hlo) as [-> _].
  simpl. rewrite IH. simpl. by rewrite Hb.
Qed.

Lemma length_hex_encode bs : length (hex_encode bs) = length bs * 2.
Proof.
  induction bs as [|b bs IH]; [done|]. unfold hex_encode in *.
  rewrite bind_cons, length_app, IH. simpl. lia.
Qed.

Lemma hex_encode_no_colon bs : contains_colon (hex_encode bs) = false.
Proof.
  apply bool_decide_eq_false. intros Hin. apply list_elem_of_bind in Hin as (b & Hb & _).
  destruct (nibbles b) as (Hhi & Hlo & _).
  destruct (hex_char_spec _ Hhi) as [_ ?], (hex_char_spec _ Hlo) as [_ ?]. set_solver.
Qed.

Lemma parse_display id : wf_did id → Did.parse (Did.display id) = Ok id.
Proof.
  intros (_ & _ & Huuid & _ & _ & Hn & Ha). unfold Did.parse, Did.display.
  rewrite strip_prefix_app. simpl.
  rewrite (split_once_colon_app (network id)) by done. simpl.
  rewrite (split_once_colon_app (alias id)) by done. simpl.
  rewrite Hn, Ha, hex_encode_no_colon, length_hex_encode, Huuid. simpl.
  rewrite hex_decode_encode. simpl. by destruct id.
Qed.

(** ** Binary forms *)

Lemma did_encode_Ok {E} id :
  wf_did id →
  Did.encode (E := E) id =
    Ok ((u32_be (N.of_nat (length (network id))) ++ network id) ++
        (u32_be (N.of_nat (length (alias id))) ++ alias id) ++ uuid id).
Proof. intros (Hn & Ha & _). unfold Did.encode. by rewrite !write_bytes_Ok. Qed.

Lemma decodes_did {E} id w :
  wf_did id → Did.encode (E := E) id = Ok w → decodes Did.decode w id.
Proof.
  intros Hwf. rewrite did_encode_Ok by done. intros [= <-].
  destruct Hwf as (Hn & Ha & Hu & Hvn & Hva & Hcn & Hca). unfold Did.decode.
  codec_step; [by apply decodes_take_bytes|]. codec_step; [by apply decodes_take_bytes|].
  codec_step; [apply decodes_take_exact; by rewrite Hu|].
  rewrite Hvn, Hva, Hcn, Hca. by destruct id.
Qed.

Lemma total_did_decode : never_panics Did.decode.
Proof. unfold Did.decode. solve_total. Qed.

#[export] Hint Resolve total_did_decode : total.

Lemma yields_did : yields Did.decode wf_did.
Proof.
  unfold Did.decode. yield_step. intros n Hn. yield_step. intros a Ha. yield_step. intros u Hu.
  destruct (utf8_valid n) eqn:Hvn; [|apply yields_fail].
  destruct (utf8_valid a) eqn:Hva; [|apply yields_fail]. simpl.
  destruct (contains_colon n) eqn:Hcn; [apply yields_fail|].
  destruct (contains_colon a) eqn:Hca; [apply yields_fail|].
  apply yields_ret. unfold wf_did. simpl. split_and!; try done. lia.
Qed.

#[export] Hint Resolve yields_did : yields.

Section document.
Context `{Ed25519}.

Definition wf_key (key : bytes) : Prop := length key = 32 ∧ vk_valid key = true.

Definition wf_method (m : VerificationMethod) : Prop :=
  match m with Signing key => wf_key key | Agreement key => length key = 32 end.

Definition wf_document (doc : DidDocument) : Prop :=
  wf_key (doc_control_key doc) ∧ Forall wf_method (methods doc) ∧
  1 ≤ length (methods doc) ≤ MAX_VERIFICATION_METHODS ∧
  existsb is_signing (methods doc) = true.

Lemma vk_from_bytes_Ok key : wf_key key → vk_from_bytes Truncated key = Ok key.
Proof. intros [_ Hv]. unfold vk_from_bytes. by rewrite Hv. Qed.

Lemma decodes_vk_bytes key : wf_key key → decodes (take_exact Truncated 32) key key.
Proof. intros [Hlen _]. apply decodes_take_exact. by rewrite Hlen. Qed.

Lemma yields_vk arr :
  N.of_nat (length arr) = 32%N →
  yields (st_lift (λ _ : bytes, vk_from_bytes Truncated arr)) wf_key.
Proof.
  intros Harr. apply yields_lift. intros key. unfold vk_from_bytes.
  destruct (vk_valid arr) eqn:Hv; [|done]. intros [= <-]. split; [lia|done].
Qed.

Lemma decodes_method m : wf_method m → decodes Document.decode_method (Document.encode_method m) m.
Proof.
  intros Hm. unfold Document.encode_method, Document.decode_method.
  change (Document.method_type m :: Document.key_bytes m)
    with ([Document.method_type m] ++ Document.key_bytes m).
  codec_step; [apply decodes_take_byte|]. destruct m as [key|key]; simpl in *.
  - codec_step; [by apply decodes_vk_bytes|].
    eapply decodes_lift; [by apply vk_from_bytes_Ok|]. apply decodes_ret.
  - codec_step; [apply decodes_take_exact; by rewrite Hm|]. apply decodes_ret.
Qed.

Lemma yields_method : yields Document.decode_method wf_method.
Proof.
  unfold Document.decode_method. apply yields_seq. intros ty. yield_step. intros arr Harr.
  case_bool_decide; [|case_bool_decide; [apply yields_ret; simpl; lia|apply yields_fail]].
  eapply yields_bind; [by apply yields_vk|]. intros key Hkey. by apply yields_ret.
Qed.

Lemma total_vk arr : never_panics (st_lift (λ _ : bytes, vk_from_bytes Truncated arr)).
Proof. apply total_lift. intros c. unfold vk_from_bytes. by destruct (vk_valid arr). Qed.

Lemma total_method : never_panics Document.decode_method.
Proof.
  unfold Document.decode_method. apply total_bind; [solve_total|]. intros ty.
  apply total_bind; [solve_total|]. intros arr. case_bool_decide.
  - apply total_bind; [apply total_vk|solve_total].
  - solve_total.
Qed.

Lemma methods_count (doc : DidDocument) :
  wf_document doc →
  N.to_nat (Byte.to_N (byte_of_N (N.of_nat (length (methods doc))))) = length (methods doc).
Proof.
  intros (_ & _ & Hlen & _). unfold MAX_VERIFICATION_METHODS in Hlen. rewrite to_N_byte_of_N.
  rewrite N.mod_small by lia. lia.
Qed.

Lemma decodes_document doc :
  wf_document doc → decodes Document.decode (Document.encode doc) doc.
Proof.
  intros Hwf. pose proof (methods_count doc Hwf) as Hcount.
  destruct Hwf as (Hkey & Hms & Hlen & Hsign). unfold Document.encode, Document.decode.
  codec_step; [apply decodes_take_byte|]. cbn [negb bool_decide decide_rel].
  rewrite bool_decide_eq_true_2 by done. cbn [negb].
  codec_step; [by apply decodes_vk_bytes|].
  eapply decodes_lift; [by apply vk_from_bytes_Ok|].
  codec_step; [apply decodes_take_byte|]. cbv zeta. rewrite Hcount.
  rewrite (proj2 (Nat.eqb_neq _ _)), (proj2 (Nat.ltb_ge _ _)) by lia. cbn [orb].
  codec_step; [apply decodes_take_n|].
  { eapply Forall_impl; [done|]. apply decodes_method. }
  codec_step; [apply decodes_take_byte|]. rewrite Hsign. cbn [negb].
  destruct doc as [key ms []]; apply decodes_ret.
Qed.

Lemma yields_document : yields Document.decode wf_document.
Proof.
  unfold Document.decode. apply yields_seq. intros version.
  destruct (negb _); [apply yields_fail|]. yield_step. intros arr Harr.
  eapply yields_bind; [by apply yields_vk|]. intros key Hkey. apply yields_seq. intros num.
  cbv zeta. destruct (orb _ _) eqn:Hnum; [apply yields_fail|].
  apply orb_false_iff in Hnum as [Hpos%Nat.eqb_neq Hmax%Nat.ltb_ge].
  eapply yields_bind; [apply yields_take_n, yields_method|]. intros ms [Hlen Hms].
  apply yields_seq. intros flag. destruct (existsb _ _) eqn:Hsign; [|apply yields_fail].
  apply yields_ret. split_and!; simpl; try done; lia.
Qed.

Lemma total_document : never_panics Document.decode.
Proof.
  unfold Document.decode. apply total_bind; [solve_total|]. intros version.
  destruct (negb _); [solve_total|]. apply total_bind; [solve_total|]. intros arr.
  apply total_bind; [apply total_vk|]. intros key. apply total_bind; [solve_total|]. intros num.
  cbv zeta. destruct (orb _ _); [solve_total|].
  apply total_bind; [apply total_take_n, total_method|]. solve_total.
Qed.

(** ** Operations *)

Definition wf_did_op (op : DidOp) : Prop :=
  wf_did (did_id op) ∧ wf_document (document op) ∧ length (did_signature op) = 64.

Lemma decode_encode_did_op {E} op :
  wf_did_op op → ∃ w, DidOps.encode (E := E) op = Ok w ∧ DidOps.decode w = Ok op.
Proof.
  intros (Hid & Hdoc & Hsig). unfold DidOps.encode.
  destruct (Did.encode (did_id op)) as [w| |] eqn:Henc; rewrite did_encode_Ok in Henc by done;
    [|done..]. eexists. split; [done|]. apply parses_result. unfold DidOps.decode_body.
  parse_step; [eapply decodes_did; [done|by rewrite did_encode_Ok]|].
  parse_step; [by apply decodes_document|].
  parse_step; [apply decodes_take_exact; by rewrite Hsig|].
  parse_step; [apply decodes_take_byte|]. parse_step; [apply decodes_take_byte|].
  destruct op as [id doc sig by_ []]; apply parses_end.
Qed.

Lemma yields_did_op : yields DidOps.decode_body wf_did_op.
Proof.
  unfold DidOps.decode_body. yield_step. intros id Hid.
  eapply yields_bind; [apply yields_document|]. intros doc Hdoc. yield_step. intros sig Hsig.
  apply yields_seq. intros signer. apply yields_seq. intros creation. apply yields_seq. intros _.
  apply yields_ret. split_and!; simpl; try done. lia.
Qed.

Lemma decode_did_op_wf payload op : DidOps.decode payload = Ok op → wf_did_op op.
Proof.
  unfold DidOps.decode. destruct (DidOps.decode_body payload) as [r rest] eqn:Hd. simpl. intros ->.
  by eapply yields_did_op.
Qed.

Lemma decode_did_op_no_crash payload : no_crash (DidOps.decode payload).
Proof.
  unfold DidOps.decode. generalize payload. change (never_panics DidOps.decode_body).
  unfold DidOps.decode_body. apply total_bind; [solve_total|]. intros id.
  apply total_bind; [apply total_document|]. solve_total.
Qed.
End document.

(** ** Round trips of the actor formats *)

Definition wf_actor (id : ActorId) : Prop :=
  match id with
  | Root did => wf_did did
  | Sub did _ index => wf_did did ∧ (index < MAX_ACTOR_INDEX_PLUS_ONE)%N
  end.

Lemma did_encode_total {E} id : wf_did id → ∃ w, Did.encode (E := E) id = Ok w.
Proof. intros Hid. rewrite did_encode_Ok by done. by eexists. Qed.

Lemma decodes_take_tag tag : decodes take_tag [tag_code tag] tag.
Proof. eapply decodes_bind_nil; [apply decodes_take_byte|]. by destruct tag. Qed.

Lemma decodes_take_index index :
  (index < MAX_ACTOR_INDEX_PLUS_ONE)%N → decodes take_index (u32_be index) index.
Proof.
  intros Hi. unfold take_index. codec_step.
  - apply decodes_take_u32. unfold is_u32, MAX_ACTOR_INDEX_PLUS_ONE, u32_modulus in *. lia.
  - rewrite (proj2 (N.leb_gt _ _)) by done. apply decodes_ret.
Qed.

Lemma decodes_actor {E} id w :
  wf_actor id → Actor.encode (E := E) id = Ok w → decodes Actor.decode w id.
Proof.
  destruct id as [did|did tag index]; cbn [wf_actor Actor.encode].
  - intros Hid Henc. destruct (Did.encode did) as [d| |] eqn:Hd; [|done..]. apply res_ret_Ok in Henc as <-.
    change (ACTOR_VARIANT_ROOT :: d) with ([ACTOR_VARIANT_ROOT] ++ d). unfold Actor.decode.
    codec_step; [apply decodes_take_byte|]. simpl.
    eapply decodes_bind_nil; [by eapply decodes_did|apply decodes_ret].
  - intros [Hid Hi] Henc. destruct (Did.encode did) as [d| |] eqn:Hd; [|done..]. apply res_ret_Ok in Henc as <-.
    change (ACTOR_VARIANT_SUB :: ?r) with ([ACTOR_VARIANT_SUB] ++ r). unfold Actor.decode.
    codec_step; [apply decodes_take_byte|]. rewrite bool_decide_eq_false_2 by done.
    rewrite bool_decide_eq_true_2 by done.
    codec_step; [by eapply decodes_did|]. codec_step; [apply decodes_take_tag|].
    codec_step; [by apply decodes_take_index|]. apply decodes_ret.
Qed.

Lemma actor_encode_total {E} id : wf_actor id → ∃ w, Actor.encode (E := E) id = Ok w.
Proof.
  destruct id as [did|did tag index]; simpl.
  - intros Hid. destruct (did_encode_total (E := E) did Hid) as [w ->]. by eexists.
  - intros [Hid _]. destruct (did_encode_total (E := E) did Hid) as [w ->]. by eexists.
Qed.

Lemma yields_take_index : yields take_index (λ i, (i < MAX_ACTOR_INDEX_PLUS_ONE)%N).
Proof.
  unfold take_index. apply yields_seq. intros i.
  destruct (N.leb_spec MAX_ACTOR_INDEX_PLUS_ONE i); [apply yields_fail|by apply yields_ret].
Qed.

Lemma yields_actor : yields Actor.decode wf_actor.
Proof.
  unfold Actor.decode. apply yields_seq. intros variant. case_bool_decide.
  - yield_step. intros did Hdid. by apply yields_ret.
  - case_bool_decide; [|apply yields_fail]. yield_step. intros did Hdid.
    apply yields_seq. intros tag. eapply yields_bind; [apply yields_take_index|].
    intros index Hi. by apply yields_ret.
Qed.

Lemma total_take_tag : never_panics take_tag.
Proof.
  unfold take_tag. apply total_bind; [solve_total|]. intros code. apply total_lift.
  intros c. by destruct (tag_from_code code).
Qed.

Lemma total_take_index : never_panics take_index.
Proof. unfold take_index. solve_total. Qed.

#[export] Hint Resolve total_take_tag total_take_index yields_take_index yields_actor : total yields.

Lemma total_actor : never_panics Actor.decode.
Proof.
  unfold Actor.decode. apply total_bind; [solve_total|]. intros v.
  case_bool_decide; [solve_total|]. case_bool_decide; solve_total.
Qed.

#[export] Hint Resolve total_actor : total.

Section records.
Context `{Ed25519}.

Lemma decodes_decode_key key : wf_key key → decodes decode_key key key.
Proof.
  intros Hkey. unfold decode_key. eapply decodes_bind_nil; [by apply decodes_vk_bytes|].
  intros rest. unfold st_lift. by rewrite vk_from_bytes_Ok.
Qed.

Lemma yields_decode_key : yields decode_key wf_key.
Proof. unfold decode_key. yield_step. intros arr. apply yields_vk. Qed.

Lemma total_decode_key : never_panics decode_key.
Proof. unfold decode_key. apply total_bind; [solve_total|]. intros arr. apply total_vk. Qed.

Definition wf_root (root : RootActor) : Prop :=
  wf_did (root_did_id root) ∧ hash_sized (merkle_root root) ∧
  is_u64 (root_leaf_count root) ∧ wf_key (root_control_key root).

Lemma decodes_root {E} root w :
  wf_root root → RootRecord.encode (E := E) root = Ok w → decodes RootRecord.decode w root.
Proof.
  intros (Hid & Hroot & Hcount & Hkey) Henc. unfold RootRecord.encode in Henc.
  destruct (Did.encode (root_did_id root)) as [d| |] eqn:Hd; [|done..].
  apply res_ret_Ok in Henc as <-. unfold RootRecord.decode.
  codec_step; [by eapply decodes_did|].
  codec_step; [apply decodes_take_exact; unfold hash_sized in Hroot; by rewrite Hroot|].
  codec_step; [by apply decodes_take_u64|].
  codec_step; [by apply decodes_decode_key|]. destruct root; apply decodes_ret.
Qed.

Lemma root_encode_total {E} root : wf_root root → ∃ w, RootRecord.encode (E := E) root = Ok w.
Proof.
  intros (Hid & _). unfold RootRecord.encode.
  destruct (did_encode_total (E := E) _ Hid) as [d ->]. by eexists.
Qed.

Lemma yields_root : yields RootRecord.decode wf_root.
Proof.
  unfold RootRecord.decode. yield_step. intros id Hid. yield_step. intros h Hh.
  yield_step. intros n Hn. eapply yields_bind; [apply yields_decode_key|]. intros key Hkey.
  apply yields_ret. split_and!; simpl; try done. unfold hash_sized. lia.
Qed.

Lemma total_root : never_panics RootRecord.decode.
Proof.
  unfold RootRecord.decode. repeat (apply total_bind; [by solve_total|]; intros ?).
  apply total_bind; [apply total_decode_key|]. solve_total.
Qed.

Definition wf_sub (sub : SubActor) : Prop :=
  wf_actor (actor_id sub) ∧ is_root (actor_id sub) = false ∧
  wf_key (sub_control_key sub) ∧ wf_key (operating_key sub).

Lemma decodes_sub {E} sub w :
  wf_sub sub → SubRecord.encode (E := E) sub = Ok w → decodes SubRecord.decode w sub.
Proof.
  intros (Hid & Hsub & Hck & Hok) Henc. unfold SubRecord.encode in Henc.
  destruct (Actor.encode (actor_id sub)) as [d| |] eqn:Hd; [|done..].
  apply res_ret_Ok in Henc as <-. unfold SubRecord.decode.
  codec_step; [by eapply decodes_actor|]. rewrite Hsub.
  codec_step; [by apply decodes_decode_key|]. codec_step; [by apply decodes_decode_key|].
  destruct sub; apply decodes_ret.
Qed.

Lemma yields_sub : yields SubRecord.decode wf_sub.
Proof.
  unfold SubRecord.decode. yield_step. intros id Hid.
  destruct (is_root id) eqn:Hr; [apply yields_fail|].
  eapply yields_bind; [apply yields_decode_key|]. intros ck Hck.
  eapply yields_bind; [apply yields_decode_key|]. intros ok Hok. by apply yields_ret.
Qed.

Lemma total_sub : never_panics SubRecord.decode.
Proof.
  unfold SubRecord.decode. apply total_bind; [solve_total|]. intros id.
  destruct (is_root id); [solve_total|]. apply total_bind; [apply total_decode_key|]. intros ck.
  apply total_bind; [apply total_decode_key|]. solve_total.
Qed.

(** ** Operations *)

Definition wf_sub_op (op : SubActorOp) : Prop :=
  wf_did (op_root_did op) ∧ (op_index op < MAX_ACTOR_INDEX_PLUS_ONE)%N ∧
  wf_key (op_control_key op) ∧ wf_key (op_operating_key op) ∧ hash_sized (new_root op) ∧
  wf_consistency (consistency_proof op) ∧ wf_inclusion (inclusion_proof op) ∧
  length (op_signature op) = 64.

Lemma decodes_or_truncated {A} (d : stM bytes unit A) w a :
  decodes d w a → decodes (or_truncated d) w a.
Proof. intros Hd rest. unfold or_truncated. by rewrite Hd. Qed.

Lemma total_or_truncated {A} (d : stM bytes unit A) : never_panics d → never_panics (or_truncated d).
Proof.
  intros Hd cursor. specialize (Hd cursor). unfold or_truncated.
  destruct (d cursor) as [[a| |c] rest]; simpl in *; [done|done|]. by destruct (Hd c).
Qed.

Lemma yields_or_truncated {A} (d : stM bytes unit A) Q : yields d Q → yields (or_truncated d) Q.
Proof.
  intros Hd cursor a rest. unfold or_truncated.
  destruct (d cursor) as [[b| |c] r] eqn:Hrun; simpl; [|done..]. intros [= <- <-]. by eapply Hd.
Qed.

Lemma yields_read_hashes : yields read_hashes_from wf_nodes.
Proof.
  intros cursor nodes rest Hrun. split; [by eapply read_hashes_sized|].
  unfold read_hashes_from, mbind, stM_bind in Hrun.
  destruct (read_u32 cursor) as [[count| |] c1] eqn:Hc; [|done..].
  apply (yields_take_u32 tt) in Hc.
  destruct (take_exact tt (count * 32) c1) as [[hd| |] c2] eqn:Hh; [|done..].
  apply (yields_take_exact tt) in Hh.
  assert (∀ fuel (l : bytes), length (as_chunks_loop fuel 32 l).1 * 32 ≤ length l) as Hlen.
  { induction fuel as [|fuel IH]; intros l; simpl; [lia|]. case_decide; [|simpl; lia].
    specialize (IH (drop 32 l)). destruct (as_chunks_loop fuel 32 (drop 32 l)). simpl in *.
    rewrite length_drop in IH. lia. }
  specialize (Hlen (length hd) hd). unfold as_chunks in Hrun.
  destruct (as_chunks_loop (length hd) 32 hd) as [chunks remainder]. simpl in *.
  destruct (is_empty remainder); [|done]. injection Hrun as -> _.
  unfold is_u32, u32_modulus in *. lia.
Qed.

Lemma yields_consistency : yields Consistency.decode_from wf_consistency.
Proof.
  unfold Consistency.decode_from. yield_step. intros a Ha. yield_step. intros b Hb.
  eapply yields_bind; [apply yields_read_hashes|]. intros nodes Hn. by apply yields_ret.
Qed.

Lemma yields_inclusion : yields Inclusion.decode_from wf_inclusion.
Proof.
  unfold Inclusion.decode_from. yield_step. intros a Ha. yield_step. intros b Hb.
  eapply yields_bind; [apply yields_read_hashes|]. intros nodes Hn. by apply yields_ret.
Qed.

Lemma decode_encode_sub_op {E} op :
  wf_sub_op op → ∃ w, SubActorOps.encode (E := E) op = Ok w ∧ SubActorOps.decode w = Ok op.
Proof.
  intros (Hid & Hi & Hck & Hok & Hr & Hc & Hinc & Hsig). unfold SubActorOps.encode.
  destruct (did_encode_total (E := E) _ Hid) as [d Hd]. rewrite Hd.
  destruct (decodes_consistency (E := E) _ Hc) as (c & Hce & Hcd). rewrite Hce.
  destruct (decodes_inclusion (E := E) _ Hinc) as (i & Hie & Hid'). cbn [mbind res_bind]. rewrite Hie.
  eexists. split; [reflexivity|]. apply parses_result. unfold SubActorOps.decode_body.
  parse_step; [by eapply decodes_did|]. parse_step; [apply decodes_take_tag|].
  parse_step; [by apply decodes_take_index|]. parse_step; [by apply decodes_decode_key|].
  parse_step; [by apply decodes_decode_key|].
  parse_step; [apply decodes_take_exact; unfold hash_sized in Hr; by rewrite Hr|].
  parse_step; [by apply decodes_or_truncated|]. parse_step; [by apply decodes_or_truncated|].
  parse_step; [apply decodes_take_exact; by rewrite Hsig|].
  parse_step; [apply decodes_take_byte|]. destruct op; apply parses_end.
Qed.

Lemma yields_sub_op : yields SubActorOps.decode_body wf_sub_op.
Proof.
  unfold SubActorOps.decode_body. yield_step. intros id Hid. apply yields_seq. intros tag.
  yield_step. intros index Hi. eapply yields_bind; [apply yields_decode_key|]. intros ck Hck.
  eapply yields_bind; [apply yields_decode_key|]. intros ok Hok. yield_step. intros r Hr.
  eapply yields_bind; [apply yields_or_truncated, yields_consistency|]. intros c Hc.
  eapply yields_bind; [apply yields_or_truncated, yields_inclusion|]. intros i Hinc.
  yield_step. intros sig Hsig. apply yields_seq. intros signer. apply yields_seq. intros _.
  apply yields_ret. split_and!; simpl; try done; unfold hash_sized; lia.
Qed.

Lemma decode_sub_op_wf payload op : SubActorOps.decode payload = Ok op → wf_sub_op op.
Proof.
  unfold SubActorOps.decode. destruct (SubActorOps.decode_body payload) as [r rest] eqn:Hd. simpl.
  intros ->. by eapply yields_sub_op.
Qed.

Lemma total_sub_op : never_panics SubActorOps.decode_body.
Proof.
  unfold SubActorOps.decode_body. repeat (apply total_bind; [by solve_total|]; intros ?).
  apply total_bind; [apply total_decode_key|]. intros ck.
  apply total_bind; [apply total_decode_key|]. intros ok. apply total_bind; [solve_total|]. intros r.
  apply total_bind; [apply total_or_truncated, total_consistency|]. intros c.
  apply total_bind; [apply total_or_truncated, total_inclusion|]. solve_total.
Qed.

Definition wf_rebind_op (op : RebindOp) : Prop :=
  wf_actor (rebind_actor_id op) ∧ wf_key (new_operating_key op) ∧
  length (proof_of_possession op) = 64 ∧ length (authorizing_signature op) = 64.

Lemma decode_encode_rebind_op {E} op :
  wf_rebind_op op → ∃ w, RebindOps.encode (E := E) op = Ok w ∧ RebindOps.decode w = Ok op.
Proof.
  intros (Hid & Hk & Hp & Ha). unfold RebindOps.encode.
  destruct (actor_encode_total (E := E) _ Hid) as [d Hd]. rewrite Hd.
  eexists. split; [reflexivity|]. apply parses_result. unfold RebindOps.decode_body.
  parse_step; [by eapply decodes_actor|]. parse_step; [by apply decodes_decode_key|].
  parse_step; [apply decodes_take_exact; by rewrite Hp|].
  parse_step; [apply decodes_take_exact; by rewrite Ha|]. destruct op; apply parses_end.
Qed.

Lemma yields_rebind_op : yields RebindOps.decode_body wf_rebind_op.
Proof.
  unfold RebindOps.decode_body. yield_step. intros id Hid.
  eapply yields_bind; [apply yields_decode_key|]. intros key Hkey.
  yield_step. intros pop Hpop. yield_step. intros auth Hauth. apply yields_seq. intros _.
  apply yields_ret. split_and!; simpl; try done; lia.
Qed.

Lemma decode_rebind_op_wf payload op : RebindOps.decode payload = Ok op → wf_rebind_op op.
Proof.
  unfold RebindOps.decode. destruct (RebindOps.decode_body payload) as [r rest] eqn:Hd. simpl.
  intros ->. by eapply yields_rebind_op.
Qed.

Lemma total_rebind_op : never_panics RebindOps.decode_body.
Proof.
  unfold RebindOps.decode_body. apply total_bind; [solve_total|]. intros id.
  apply total_bind; [apply total_decode_key|]. solve_total.
Qed.
End records.
