(* ===== verification/Op.v ===== *)
(** * Transaction operations (executor/state/src/op.rs)

    [Op] is a key-value write, [DecodedOp] any operation a transaction payload can
    carry.  The first byte selects the format; generic writes may not touch the
    key prefixes reserved for DID and actor records. *)

From S2P Require Import Prelude Codec External Membership Did Actor.

Definition OP_PUT : byte := x00.
Definition OP_DELETE : byte := x01.
Definition OP_MEMBERSHIP : byte := x02.
Definition OP_DID : byte := x03.
Definition OP_SUB_ACTOR : byte := x04.
Definition OP_REBIND : byte := x05.

Definition RESERVED_DID_PREFIX : byte := xd1.
Definition RESERVED_ACTOR_PREFIX : byte := xa1.

Inductive Op :=
  | Put (key value : bytes)
  | Delete (key : bytes).

Inductive DecodedOp :=
  | Kv (op : Op)
  | MembershipTx (op : MembershipOp)
  | DidTx (op : DidOp)
  | SubActorTx (op : SubActorOp)
  | RebindTx (op : RebindOp).

Definition op_key (op : Op) : bytes := match op with Put key _ | Delete key => key end.

Definition reject_reserved_prefix (key : bytes) : res ExecutorError unit :=
  match key with
  | b :: _ =>
    if bool_decide (b = RESERVED_DID_PREFIX) then Err (ReservedKeyPrefix RESERVED_DID_PREFIX)
    else if bool_decide (b = RESERVED_ACTOR_PREFIX) then Err (ReservedKeyPrefix RESERVED_ACTOR_PREFIX)
    else Ok tt
  | [] => Ok tt
  end.

Definition put_body : stM bytes ExecutorError Op :=
  key ← take_bytes Truncated;
  st_lift (λ _, reject_reserved_prefix key);;
  value ← take_bytes Truncated;
  reject_trailing TrailingBytes;;
  mret (Put key value).

Definition delete_body : stM bytes ExecutorError Op :=
  key ← take_bytes Truncated;
  st_lift (λ _, reject_reserved_prefix key);;
  reject_trailing TrailingBytes;;
  mret (Delete key).

Module Ops.

Definition decode (payload : bytes) : res ExecutorError Op :=
  match payload with
  | [] => Err EmptyPayload
  | opcode :: cursor =>
    if bool_decide (opcode = OP_PUT) then (put_body cursor).1
    else if bool_decide (opcode = OP_DELETE) then (delete_body cursor).1
    else Err (UnknownOpcode opcode)
  end.

Definition encode {E} (op : Op) : res E bytes :=
  match op with
  | Put key value => k ← write_bytes key; v ← write_bytes value; mret (OP_PUT :: k ++ v)
  | Delete key => k ← write_bytes key; mret (OP_DELETE :: k)
  end.

End Ops.

Definition decode_op `{Ed25519} (payload : bytes) : res ExecutorError DecodedOp :=
  match payload with
  | [] => Err EmptyPayload
  | opcode :: cursor =>
    if bool_decide (opcode = OP_PUT) then Kv <$> (put_body cursor).1
    else if bool_decide (opcode = OP_DELETE) then Kv <$> (delete_body cursor).1
    else if bool_decide (opcode = OP_MEMBERSHIP) then
      map_err (λ _, MalformedMembershipOp) (MembershipTx <$> MemOp.decode cursor)
    else if bool_decide (opcode = OP_DID) then
      map_err (λ _, MalformedDidOp) (DidTx <$> DidOps.decode cursor)
    else if bool_decide (opcode = OP_SUB_ACTOR) then
      map_err (λ _, MalformedSubActorOp) (SubActorTx <$> SubActorOps.decode cursor)
    else if bool_decide (opcode = OP_REBIND) then
      map_err (λ _, MalformedRebindOp) (RebindTx <$> RebindOps.decode cursor)
    else Err (UnknownOpcode opcode)
  end.
