(* ===== verification/State.v ===== *)
(** * The executor's state (executor/state/src/state.rs, state_db.rs)

    The [fjall] crate is not part of the repository: [Fjall] states what the
    program relies on, an ordered map from byte strings to byte strings each of
    whose operations may fail.  A [State] pairs a keyspace with the Merkle tree of
    its entries. *)

From S2P Require Import Prelude Codec External MerkleLog SparseMerkle Did Op.

(** A keyspace, seen through [kv_view].  An operation that reports success has
    done its work; [kv_remove_batch] is an atomic batch of removals. *)
Class Fjall := {
  keyspace : Type;
  fjall_error : Type;
  kv_view : keyspace → gmap bytes bytes;
  kv_get : keyspace → bytes → res fjall_error (option bytes);
  kv_insert : bytes → bytes → stM keyspace fjall_error unit;
  kv_remove : bytes → stM keyspace fjall_error unit;
  kv_remove_batch : list bytes → stM keyspace fjall_error unit;
  kv_iter : keyspace → res fjall_error (list (bytes * bytes));
  kv_len : keyspace → res fjall_error nat;
  db_persist : list keyspace → res fjall_error unit;
  kv_get_Ok : ∀ ks k o, kv_get ks k = Ok o → o = kv_view ks !! k;
  kv_insert_Ok : ∀ k v ks ks', kv_insert k v ks = (Ok tt, ks') →
    kv_view ks' = <[k := v]> (kv_view ks);
  kv_remove_Ok : ∀ k ks ks', kv_remove k ks = (Ok tt, ks') → kv_view ks' = delete k (kv_view ks);
  kv_remove_batch_Ok : ∀ keys ks ks', kv_remove_batch keys ks = (Ok tt, ks') →
    kv_view ks' = foldr delete (kv_view ks) keys;
  kv_iter_Ok : ∀ ks l, kv_iter ks = Ok l → l = bt_entries bytes_le (kv_view ks);
  kv_get_safe : ∀ ks k, no_crash (kv_get ks k);
  kv_insert_safe : ∀ k v ks, no_crash (kv_insert k v ks).1;
  kv_remove_safe : ∀ k ks, no_crash (kv_remove k ks).1;
  kv_remove_batch_safe : ∀ keys ks, no_crash (kv_remove_batch keys ks).1;
  kv_iter_safe : ∀ ks, no_crash (kv_iter ks);
  db_persist_safe : ∀ l, no_crash (db_persist l);
}.

(** A store whose reads succeed; [State::get] treats a failed read as an absent
    key. *)
Class Reliable (F : Fjall) : Prop :=
  reads_succeed : ∀ ks k, kv_get ks k = Ok (kv_view ks !! k).

Inductive StateDbError `{Fjall} :=
  | Io (e : fjall_error)
  | CorruptWatermark (len : nat).

Definition io `{Fjall} {A} (m : res fjall_error A) : res StateDbError A := map_err Io m.

Definition st_map_err {S E F A} (f : E → F) (m : stM S E A) : stM S F A :=
  λ s, let '(r, s') := m s in (map_err f r, s').

Record State `{Fjall} := mkState { kv : keyspace; tree : SparseMerkleTree }.

Section state.
Context `{Sha256} `{F : Fjall}.

Definition set_kv (ks : keyspace) (s : State) : State := mkState F ks (tree s).
Definition set_tree (t : SparseMerkleTree) (s : State) : State := mkState F (kv s) t.

Definition new_state (ks : keyspace) : State := mkState F ks new_tree.

(** [self.kv.get(key).ok().flatten()]. *)
Definition get (s : State) (key : bytes) : option bytes :=
  match kv_get (kv s) key with Ok o => o | _ => None end.

Definition contains (s : State) (key : bytes) : bool := bool_decide (is_Some (get s key)).

Definition state_len (s : State) : nat := match kv_len (kv s) with Ok n => n | _ => 0 end.

Definition root (s : State) : Hash := tree_root (tree s).

Definition proof (s : State) (key : bytes) : option MerkleProof :=
  value ← get s key;
  siblings ← proof_siblings (tree s) key;
  Some (mkMerkleProof key value siblings).

Definition apply (op : Op) : stM State StateDbError unit :=
  match op with
  | Put key value =>
    st_zoom kv set_kv (st_map_err Io (kv_insert key value));;
    s ← st_get;
    t ← st_lift (λ _, tree_insert key value (tree s));
    st_modify (set_tree t)
  | Delete key =>
    st_zoom kv set_kv (st_map_err Io (kv_remove key));;
    st_modify (λ s, set_tree (tree_delete key (tree s)).2 s)
  end.

Definition write_entry {E} (e : bytes * bytes) : res E bytes :=
  k ← write_bytes e.1;
  v ← write_bytes e.2;
  mret (k ++ v).

Fixpoint write_entries {E} (l : list (bytes * bytes)) : res E bytes :=
  match l with
  | [] => mret []
  | e :: l => b ← write_entry e; bs ← write_entries l; mret (b ++ bs)
  end.

Definition to_bytes (s : State) : res StateDbError bytes :=
  entries ← io (kv_iter (kv s));
  write_entries entries.

(** One pair of the serialization, with the ascending-key check against the
    previous key. *)
Definition read_entry (prev_key : option bytes) : stM bytes unit (bytes * bytes) :=
  key ← take_bytes tt;
  value ← take_bytes tt;
  match prev_key with
  | Some prev => if bytes_leb key prev then st_fail tt else mret (key, value)
  | None => mret (key, value)
  end.

(** The [while !cursor.is_empty()] loop of [from_bytes]; every iteration reads at
    least eight bytes, so the input's length is enough fuel.  The keyspace keeps
    what was inserted before a failure. *)
Fixpoint from_bytes_loop (fuel : nat) (prev_key : option bytes) (cursor : bytes)
    (t : SparseMerkleTree) : stM keyspace unit SparseMerkleTree :=
  match cursor, fuel with
  | [], _ => mret t
  | _, O => st_lift (λ _, Crash OutOfFuel)
  | _, S fuel =>
    match read_entry prev_key cursor with
    | (Ok (key, value), cursor) =>
      st_map_err (λ _, tt) (kv_insert key value);;
      t ← st_lift (λ _, tree_insert key value t);
      from_bytes_loop fuel (Some key) cursor t
    | (Err e, _) => st_fail e
    | (Crash c, _) => st_lift (λ _, Crash c)
    end
  end.

Definition from_bytes (input : bytes) : stM keyspace unit State := λ ks,
  let '(r, ks) := from_bytes_loop (length input) None input new_tree ks in
  (mkState F ks <$> r, ks).

Fixpoint root_of_bytes_loop (fuel : nat) (prev_key : option bytes) (cursor : bytes)
    (t : SparseMerkleTree) : res unit Hash :=
  match cursor, fuel with
  | [], _ => mret (tree_root t)
  | _, O => Crash OutOfFuel
  | _, S fuel =>
    '(key, value) ← (read_entry prev_key cursor).1;
    t ← tree_insert key value t;
    root_of_bytes_loop fuel (Some key) (read_entry prev_key cursor).2 t
  end.

Definition root_of_bytes (input : bytes) : res unit Hash :=
  root_of_bytes_loop (length input) None input new_tree.

(** [PartialEq for State]. *)
Definition state_eq (a b : State) : bool :=
  match to_bytes a, to_bytes b with
  | Ok x, Ok y => bool_decide (x = y)
  | _, _ => false
  end.
End state.

(** ** The database *)

Record StateDb `{Fjall} := mkStateDb {
  db_state : keyspace;
  db_snap : keyspace;
  db_meta : keyspace;
}.

(** [b"last_timestamp"]. *)
Definition WATERMARK_KEY : bytes :=
  [x6c; x61; x73; x74; x5f; x74; x69; x6d; x65; x73; x74; x61; x6d; x70].

Module Db.
Section db.
Context `{F : Fjall}.

Definition on_state {A} (m : stM keyspace fjall_error A) : stM StateDb StateDbError A :=
  st_zoom db_state (λ ks db, mkStateDb F ks (db_snap db) (db_meta db)) (st_map_err Io m).
Definition on_snap {A} (m : stM keyspace fjall_error A) : stM StateDb StateDbError A :=
  st_zoom db_snap (λ ks db, mkStateDb F (db_state db) ks (db_meta db)) (st_map_err Io m).
Definition on_meta {A} (m : stM keyspace fjall_error A) : stM StateDb StateDbError A :=
  st_zoom db_meta (λ ks db, mkStateDb F (db_state db) (db_snap db) ks) (st_map_err Io m).

Definition flush : stM StateDb StateDbError unit :=
  st_lift (λ db, io (db_persist [db_state db; db_snap db; db_meta db])).

Definition snapshot (round : N) (data : bytes) : stM StateDb StateDbError unit :=
  on_snap (kv_insert (u64_be round) data).

Definition snapshot_and_flush (round : N) (data : bytes) : stM StateDb StateDbError unit :=
  snapshot round data;; flush.

Definition snapshot_for (round : N) : stM StateDb StateDbError (option bytes) :=
  st_lift (λ db, io (kv_get (db_snap db) (u64_be round))).

(** The keys with at least eight bytes whose first eight are a round below
    [keep_from_round]. *)
Definition stale_snapshot (keep_from_round : N) (key : bytes) : bool :=
  (8 <=? length key) && (of_be (take 8 key) <? keep_from_round)%N.

(** [if !batch.is_empty() { batch.commit()? }]. *)
Definition commit_batch (keys : list bytes) : stM keyspace fjall_error unit :=
  match keys with [] => mret tt | _ => kv_remove_batch keys end.

Definition prune_snapshots_before (keep_from_round : N) : stM StateDb StateDbError unit :=
  db ← st_get;
  entries ← st_lift (λ _, io (kv_iter (db_snap db)));
  on_snap (commit_batch (filter (λ k, stale_snapshot keep_from_round k = true) entries.*1)).

Definition clear_state : stM StateDb StateDbError unit :=
  db ← st_get;
  entries ← st_lift (λ _, io (kv_iter (db_state db)));
  on_state (commit_batch entries.*1).

Definition set_watermark (watermark : N) : stM StateDb StateDbError unit :=
  on_meta (kv_insert WATERMARK_KEY (u64_be watermark)).

Definition set_watermark_and_flush (watermark : N) : stM StateDb StateDbError unit :=
  set_watermark watermark;; flush.

Definition watermark : stM StateDb StateDbError (option N) := st_lift (λ db,
  o ← io (kv_get (db_meta db) WATERMARK_KEY);
  match o with
  | None => mret None
  | Some [] => mret (Some 0%N)
  | Some data =>
    if length data =? 8 then mret (Some (of_be data)) else Err (CorruptWatermark (length data))
  end).
End db.
End Db.

(** An in-memory store, for evaluating the model. *)
Definition mem_fjall : Fjall.
Proof.
  refine {|
    keyspace := gmap bytes bytes;
    fjall_error := Empty_set;
    kv_view := λ ks, ks;
    kv_get := λ ks k, Ok (ks !! k);
    kv_insert := λ k v ks, (Ok tt, <[k := v]> ks);
    kv_remove := λ k ks, (Ok tt, delete k ks);
    kv_remove_batch := λ keys ks, (Ok tt, foldr delete ks keys);
    kv_iter := λ ks, Ok (bt_entries bytes_le ks);
    kv_len := λ ks, Ok (size ks);
    db_persist := λ _, Ok tt |}; unfold no_crash; intros; by simplify_eq/=.
Defined.

#[export] Instance mem_fjall_reliable : Reliable mem_fjall.
Proof. done. Qed.
