(* ===== verification/Executor.v ===== *)
(** * The executor (executor/state/src/executor.rs)

    Folds the transactions of finalized events into the [State].  A storage error
    is an [Err] of the state monad (it aborts the event); the semantic outcome of
    an operation is a sum inside it, as in [StateDbResult<Result<_, DidError>>]. *)

From S2P Require Import Prelude Codec External Primitives Membership Graph Order Retain MerkleLog.
From S2P Require Import SparseMerkle Did Actor Op State.

Inductive DidError :=
  | DidUnknownSigner
  | DidInvalidSignature
  | IdentifierAlreadyExists
  | UnknownIdentifier
  | AlreadyDeactivated
  | CreationDeactivated.

Inductive ActorError :=
  | UnknownRootDid
  | RootDeactivated
  | UnknownRootActor
  | SubActorAlreadyExists
  | UnknownSubActor
  | ExpectedSubActorId
  | UnknownSigner
  | InvalidSignature
  | InclusionProofInvalid
  | ConsistencyProofInvalid
  | InvalidProofOfPossession
  | InvalidAuthorization.

Inductive OpError := DidFailed (e : DidError) | ActorFailed (e : ActorError).

Record ExecuteResult := mkResult {
  errors : list ExecutorError;
  membership_ops : list MembershipOp;
  op_errors : list OpError;
}.

Definition no_result : ExecuteResult := mkResult [] [] [].
Definition push_error (e : ExecutorError) (r : ExecuteResult) : ExecuteResult :=
  mkResult (errors r ++ [e]) (membership_ops r) (op_errors r).
Definition push_membership (m : MembershipOp) (r : ExecuteResult) : ExecuteResult :=
  mkResult (errors r) (membership_ops r ++ [m]) (op_errors r).
Definition push_op_error (e : OpError) (r : ExecuteResult) : ExecuteResult :=
  mkResult (errors r) (membership_ops r) (op_errors r ++ [e]).

(** [match T::decode(&mut cursor) { Ok(x) if cursor.is_empty() => .., _ => .. }]. *)
Definition decode_all {A} (d : stM bytes ExecutorError A) (input : bytes) : option A :=
  match d input with (Ok a, []) => Some a | _ => None end.

(** [BTreeMap<Vec<u8>, Option<Vec<u8>>>]: the after-image of every written key. *)
Abbreviation Diffs := (gmap (list Byte.byte) (option (list Byte.byte))).

Section executor.
Context `{Sha256} `{Ed25519} `{F : Fjall}.

Abbreviation exec := (stM State StateDbError).

(** The checks of [apply_did_op], as the error they return. *)
Definition did_verification (op : DidOp) (signed_payload : bytes) (stored : option bytes)
    : option DidError :=
  let signed_by := N.to_nat (Byte.to_N (did_signed_by op)) in
  match is_creation op, stored with
  | true, Some _ => Some IdentifierAlreadyExists
  | false, None => Some UnknownIdentifier
  | true, None =>
    if deactivated (document op) then Some CreationDeactivated else
    match Document.signing_key (document op) signed_by with
    | None => Some DidUnknownSigner
    | Some verifying_key =>
      if ed_verify verifying_key signed_payload (did_signature op) then None
      else Some DidInvalidSignature
    end
  | false, Some encoded_doc =>
    match decode_all Document.decode encoded_doc with
    | None => Some DidInvalidSignature
    | Some prior_doc =>
      if deactivated prior_doc then Some AlreadyDeactivated else
      match Document.signing_key prior_doc signed_by with
      | None => Some DidUnknownSigner
      | Some verifying_key =>
        if ed_verify verifying_key signed_payload (did_signature op) then None
        else Some DidInvalidSignature
      end
    end
  end.

(** The root-actor record the transition writes, unless it deactivates. *)
Definition did_root_write (op : DidOp) (s : State) : res StateDbError (option (bytes * bytes)) :=
  let new_control := doc_control_key (document op) in
  if deactivated (document op) then mret None else
  root_key ← actor_state_key (Root (did_id op));
  let fresh := mkRootActor (did_id op) EMPTY_ROOT 0 new_control in
  let updated :=
    if is_creation op then fresh else
    match get s root_key ≫= decode_all RootRecord.decode with
    | Some root => mkRootActor (did_id op) (merkle_root root) (root_leaf_count root) new_control
    | None => fresh
    end in
  value ← RootRecord.encode updated;
  mret (Some (root_key, value)).

Definition apply_did_op (op : DidOp) : exec (DidError + option (bytes * bytes)) :=
  key ← st_lift (λ _, did_state_key (did_id op));
  signed_payload ← st_lift (λ _, DidOps.signed_payload op);
  s ← st_get;
  match did_verification op signed_payload (get s key) with
  | Some e => mret (inl e)
  | None =>
    root_write ← st_lift (did_root_write op);
    apply (Put key (Document.encode (document op)));;
    match root_write with
    | Some (root_key, value) => apply (Put root_key value);; mret (inr (Some (root_key, value)))
    | None => mret (inr None)
    end
  end.

(** The authoritative root document of an actor operation, or why there is none. *)
Definition active_root_document (s : State) (did_key : bytes) : ActorError + DidDocument :=
  match get s did_key ≫= decode_all Document.decode with
  | None => inl UnknownRootDid
  | Some root_doc => if deactivated root_doc then inl RootDeactivated else inr root_doc
  end.

Definition root_record (s : State) (root_key : bytes) : option RootActor :=
  get s root_key ≫= decode_all RootRecord.decode.

Record SubActorAfterImage := mkAfterImage {
  after_sub : bytes * bytes;
  after_root : bytes * bytes;
}.

(** Whether the two proofs append exactly [leaf] to the committed log. *)
Definition append_check (op : SubActorOp) (leaf : Hash) (record : RootActor)
    : res unit (option ActorError) :=
  let old_leaf_count := root_leaf_count record in
  let new_leaf_count' := u64_wrapping_add old_leaf_count 1 in
  let inclusion := inclusion_proof op in
  let consistency := consistency_proof op in
  included ← verify_inclusion leaf inclusion (new_root op);
  if negb (leaf_index inclusion =? old_leaf_count)%N
     || negb (leaf_count inclusion =? new_leaf_count')%N || negb included
  then mret (Some InclusionProofInvalid) else
  consistent ← verify_consistency (merkle_root record) consistency (new_root op);
  if negb (old_leaf_count =? MerkleLog.old_leaf_count consistency)%N
     || negb (new_leaf_count consistency =? new_leaf_count')%N || negb consistent
  then mret (Some ConsistencyProofInvalid) else
  mret None.

(** A verifier's [None] is [Ok false], so it returns no [Err]. *)
Definition infallible {A} (m : res unit A) : res StateDbError A :=
  match m with Ok a => Ok a | Err _ => Crash Panicked | Crash c => Crash c end.

Definition apply_sub_actor_op (op : SubActorOp) : exec (ActorError + SubActorAfterImage) :=
  let id := op_actor_id op in
  sub_key ← st_lift (λ _, actor_state_key id);
  s ← st_get;
  if contains s sub_key then mret (inl SubActorAlreadyExists) else
  did_key ← st_lift (λ _, did_state_key (op_root_did op));
  match active_root_document s did_key with
  | inl e => mret (inl e)
  | inr root_doc =>
    root_key ← st_lift (λ _, actor_state_key (Root (op_root_did op)));
    match root_record s root_key with
    | None => mret (inl UnknownRootActor)
    | Some record =>
      signed_payload ← st_lift (λ _, SubActorOps.signed_payload op);
      match Document.signing_key root_doc (N.to_nat (Byte.to_N (op_signed_by op))) with
      | None => mret (inl UnknownSigner)
      | Some verifying_key =>
        if negb (ed_verify verifying_key signed_payload (op_signature op))
        then mret (inl InvalidSignature) else
        leaf ← st_lift (λ _, subactor_leaf_hash id (op_control_key op));
        check ← st_lift (λ _, infallible (append_check op leaf record));
        match check with
        | Some e => mret (inl e)
        | None =>
          match SubRecord.new id (op_control_key op) (op_operating_key op) with
          | Ok sub_actor =>
            sub_value ← st_lift (λ _, SubRecord.encode sub_actor);
            root_value ← st_lift (λ _, RootRecord.encode
              (mkRootActor (op_root_did op) (new_root op)
                 (u64_wrapping_add (root_leaf_count record) 1) (root_control_key record)));
            apply (Put sub_key sub_value);;
            apply (Put root_key root_value);;
            mret (inr (mkAfterImage (sub_key, sub_value) (root_key, root_value)))
          | _ => mret (inl ExpectedSubActorId)
          end
        end
      end
    end
  end.

Definition apply_rebind_op (op : RebindOp) : exec (ActorError + bytes * bytes) :=
  match rebind_actor_id op with
  | Root _ => mret (inl ExpectedSubActorId)
  | Sub root_did _ _ =>
    sub_key ← st_lift (λ _, actor_state_key (rebind_actor_id op));
    s ← st_get;
    match get s sub_key ≫= decode_all SubRecord.decode with
    | None => mret (inl UnknownSubActor)
    | Some sub_record =>
      did_key ← st_lift (λ _, did_state_key root_did);
      match active_root_document s did_key with
      | inl e => mret (inl e)
      | inr _ =>
        root_key ← st_lift (λ _, actor_state_key (Root root_did));
        match root_record s root_key with
        | None => mret (inl UnknownRootActor)
        | Some record =>
          payload ← st_lift (λ _, RebindOps.signed_payload op (operating_key sub_record));
          if negb (ed_verify (new_operating_key op) payload (proof_of_possession op))
          then mret (inl InvalidProofOfPossession) else
          if negb (ed_verify (root_control_key record) payload (authorizing_signature op))
          then mret (inl InvalidAuthorization) else
          match SubRecord.new (rebind_actor_id op) (sub_control_key sub_record)
                  (new_operating_key op) with
          | Ok updated =>
            value ← st_lift (λ _, SubRecord.encode updated);
            apply (Put sub_key value);;
            mret (inr (sub_key, value))
          | _ => mret (inl ExpectedSubActorId)
          end
        end
      end
    end
  end.

(** ** Events *)

(** One transaction of [execute_event], with the result so far. *)
Definition execute_tx (tx : Transaction) (r : ExecuteResult) : exec ExecuteResult :=
  match decode_op tx with
  | Ok (Kv op) => apply op;; mret r
  | Ok (MembershipTx mem_op) => mret (push_membership mem_op r)
  | Ok (DidTx op) =>
    out ← apply_did_op op;
    mret (match out with inr _ => r | inl e => push_op_error (DidFailed e) r end)
  | Ok (SubActorTx op) =>
    out ← apply_sub_actor_op op;
    mret (match out with inr _ => r | inl e => push_op_error (ActorFailed e) r end)
  | Ok (RebindTx op) =>
    out ← apply_rebind_op op;
    mret (match out with inr _ => r | inl e => push_op_error (ActorFailed e) r end)
  | Err e => mret (push_error e r)
  | Crash c => st_lift (λ _, Crash c)
  end.

Fixpoint execute_txs (txs : list Transaction) (r : ExecuteResult) : exec ExecuteResult :=
  match txs with
  | [] => mret r
  | tx :: txs => r ← execute_tx tx r; execute_txs txs r
  end.

Definition execute_event (e : Event) : exec ExecuteResult := execute_txs (payload e) no_result.

(** One transaction of [execute_event_with_diffs]: the state is the [State] and
    the [&mut] map of diffs. *)
Definition on_exec {A} (m : exec A) : stM (State * Diffs) StateDbError A :=
  st_zoom fst (λ s p, (s, p.2)) m.

Definition diff (key : bytes) (value : option bytes) : stM (State * Diffs) StateDbError unit :=
  st_modify (λ p, (p.1, <[key := value]> p.2)).

Definition op_entry (op : Op) : bytes * option bytes :=
  match op with Put key value => (key, Some value) | Delete key => (key, None) end.

Definition execute_tx_with_diffs (tx : Transaction) (r : ExecuteResult)
    : stM (State * Diffs) StateDbError ExecuteResult :=
  match decode_op tx with
  | Ok (Kv op) =>
    on_exec (apply op);;
    diff (op_entry op).1 (op_entry op).2;;
    mret r
  | Ok (MembershipTx mem_op) => mret (push_membership mem_op r)
  | Ok (DidTx op) =>
    did_key ← st_lift (λ _, did_state_key (did_id op));
    out ← on_exec (apply_did_op op);
    match out with
    | inr root_write =>
      diff did_key (Some (Document.encode (document op)));;
      match root_write with
      | Some (root_key, root_value) => diff root_key (Some root_value);; mret r
      | None => mret r
      end
    | inl e => mret (push_op_error (DidFailed e) r)
    end
  | Ok (SubActorTx op) =>
    out ← on_exec (apply_sub_actor_op op);
    match out with
    | inr after =>
      diff (after_sub after).1 (Some (after_sub after).2);;
      diff (after_root after).1 (Some (after_root after).2);;
      mret r
    | inl e => mret (push_op_error (ActorFailed e) r)
    end
  | Ok (RebindTx op) =>
    out ← on_exec (apply_rebind_op op);
    match out with
    | inr (key, value) => diff key (Some value);; mret r
    | inl e => mret (push_op_error (ActorFailed e) r)
    end
  | Err e => mret (push_error e r)
  | Crash c => st_lift (λ _, Crash c)
  end.

Fixpoint execute_txs_with_diffs (txs : list Transaction) (r : ExecuteResult)
    : stM (State * Diffs) StateDbError ExecuteResult :=
  match txs with
  | [] => mret r
  | tx :: txs => r ← execute_tx_with_diffs tx r; execute_txs_with_diffs txs r
  end.

Definition execute_event_with_diffs (e : Event) : stM (State * Diffs) StateDbError ExecuteResult :=
  execute_txs_with_diffs (payload e) no_result.

(** ** Finalized batches *)

Record Executor := mkExecutor { state : State; executed : gset EventHash }.

Definition new_executor (ks : keyspace) : Executor := mkExecutor (new_state ks) ∅.
Definition from_state (s : State) : Executor := mkExecutor s ∅.

(** The executor and the caller's [&mut] arguments. *)
Record Batch := mkBatch {
  executor : Executor;
  pending : gmap N (list MembershipOp);
  processed_through_round : N;
}.

Definition set_executor_state (s : State) (b : Batch) : Batch :=
  mkBatch (mkExecutor s (executed (executor b))) (pending b) (processed_through_round b).
Definition mark_executed (h : EventHash) (b : Batch) : Batch :=
  mkBatch (mkExecutor (state (executor b)) ({[h]} ∪ executed (executor b))) (pending b)
    (processed_through_round b).

(** [pending.entry(round).or_default().extend(ops)], unless there are none. *)
Definition extend_pending (round : N) (ops : list MembershipOp) (b : Batch) : Batch :=
  match ops with
  | [] => b
  | _ => mkBatch (executor b) (<[round := default [] (pending b !! round) ++ ops]> (pending b))
           (processed_through_round b)
  end.

Definition set_processed (round : N) (b : Batch) : Batch :=
  mkBatch (executor b) (pending b) round.

(** One iteration; the result says whether the event was new. *)
Definition bucket_event (e : Event) (round_received : N) : stM Batch StateDbError bool :=
  h ← st_lift (λ _, match event_hash e with Ok h => Ok h | _ => Crash Panicked end);
  b ← st_get;
  if bool_decide (h ∈ executed (executor b)) then mret false else
  result ← st_zoom (λ b, state (executor b)) set_executor_state (execute_event e);
  st_modify (extend_pending round_received (membership_ops result));;
  st_modify (mark_executed h);;
  mret true.

Fixpoint bucket_loop (finalized : list (Event * N)) (any_new : bool) : stM Batch StateDbError bool :=
  match finalized with
  | [] => mret any_new
  | (e, round) :: finalized =>
    fresh ← bucket_event e round;
    bucket_loop finalized (any_new || fresh)
  end.

Definition bucket_finalized (finalized : list (Event * N)) : stM Batch StateDbError unit :=
  match finalized with
  | [] => mret tt
  | _ =>
    let new_max := foldr N.max 0%N finalized.*2 in
    any_new ← bucket_loop finalized false;
    b ← st_get;
    if any_new && (processed_through_round b <? new_max)%N then st_modify (set_processed new_max)
    else mret tt
  end.

(** *** With diffs *)

Record StateDiff := mkDiff { diff_key : bytes; diff_value : option bytes }.

(** [execute_event_with_diffs(event, diffs_by_round.entry(round).or_default())]. *)
Definition execute_into_round (e : Event) (round : N)
    : stM (Batch * gmap N Diffs) StateDbError ExecuteResult := λ p,
  let '(r, (s, ds)) :=
    execute_event_with_diffs e (state (executor p.1), default ∅ (p.2 !! round)) in
  (r, (set_executor_state s p.1, <[round := ds]> p.2)).

Definition on_batch (f : Batch → Batch) (p : Batch * gmap N Diffs) : Batch * gmap N Diffs :=
  (f p.1, p.2).

Definition bucket_event_with_diffs (e : Event) (round_received : N)
    : stM (Batch * gmap N Diffs) StateDbError bool :=
  h ← st_lift (λ _, match event_hash e with Ok h => Ok h | _ => Crash Panicked end);
  p ← st_get;
  if bool_decide (h ∈ executed (executor p.1)) then mret false else
  result ← execute_into_round e round_received;
  st_modify (on_batch (extend_pending round_received (membership_ops result)));;
  st_modify (on_batch (mark_executed h));;
  mret true.

Fixpoint bucket_loop_with_diffs (finalized : list (Event * N)) (any_new : bool)
    : stM (Batch * gmap N Diffs) StateDbError bool :=
  match finalized with
  | [] => mret any_new
  | (e, round) :: finalized =>
    fresh ← bucket_event_with_diffs e round;
    bucket_loop_with_diffs finalized (any_new || fresh)
  end.

Definition diff_list (m : Diffs) : list StateDiff :=
  (λ e, mkDiff e.1 e.2) <$> bt_entries bytes_le m.

Definition bucket_finalized_with_diffs (finalized : list (Event * N))
    : stM Batch StateDbError (gmap N (list StateDiff)) := λ b,
  match finalized with
  | [] => (Ok ∅, b)
  | _ =>
    let new_max := foldr N.max 0%N finalized.*2 in
    let '(r, (b, diffs_by_round)) := bucket_loop_with_diffs finalized false (b, ∅) in
    match r with
    | Ok any_new =>
      let b :=
        if any_new && (processed_through_round b <? new_max)%N then set_processed new_max b else b in
      (Ok (omap (λ m, if bool_decide (m = ∅) then None else Some (diff_list m)) diffs_by_round), b)
    | Err e => (Err e, b)
    | Crash c => (Crash c, b)
    end
  end.

(** [(1..=max).flat_map(consensus_order).filter_map(get)]. *)
Definition finalized_events `{HashOrder} (hg : Hashgraph) : list Event :=
  omap (λ h, rec_event <$> Graph.get hg h)
    (range_inclusive 1 (max_ordered_round hg) ≫= consensus_order hg).
End executor.
