(* ===== verification/StateFacts.v ===== *)
(** * Correctness of the state

    The Merkle tree always commits to the entries of the keyspace; the canonical
    serialization round-trips, and its root can be recomputed from the bytes. *)

From S2P Require Import Prelude Codec External MerkleLog MerkleLogFacts SparseMerkle.
From S2P Require Import SparseMerkleFacts Did Op State.

(** A store whose writes succeed. *)
Class Writable (F : Fjall) : Prop :=
  writes_succeed : ∀ k v ks, (kv_insert k v ks).1 = Ok tt.

#[export] Instance mem_fjall_writable : Writable mem_fjall.
Proof. done. Qed.

(** What an operation does to the entries. *)
Definition op_effect (op : Op) (m : gmap bytes bytes) : gmap bytes bytes :=
  match op with Put key value => <[key := value]> m | Delete key => delete key m end.

Section facts.
Context `{Sha256} `{F : Fjall}.

Definition view (s : State) : gmap bytes bytes := kv_view (kv s).

(** The invariant of a state. *)
Definition state_ok (s : State) : Prop := commits (tree s) (view s).

Lemma new_state_ok ks : kv_view ks = ∅ → state_ok (new_state ks).
Proof. intros Hks. unfold state_ok, view. simpl. rewrite Hks. apply commits_new. Qed.

Lemma get_view `{!Reliable F} s k : get s k = view s !! k.
Proof. unfold get. by rewrite reads_succeed. Qed.

(** [apply] does its operation to the entries and keeps the tree in step. *)
Lemma apply_Ok op s s' :
  apply op s = (Ok tt, s') →
  view s' = op_effect op (view s) ∧ (state_ok s → state_ok s' ∨ sha256_collision).
Proof.
  unfold apply, st_zoom, st_map_err, st_get, st_lift, st_modify, mbind, stM_bind.
  destruct op as [key value|key].
  - destruct (kv_insert key value (kv s)) as [[[]| |] ks] eqn:Hins; [|done..].
    cbn [map_err]. destruct (tree_insert key value (tree (set_kv ks s))) as [t| |] eqn:Ht; [|done..].
    intros [= <-]. apply kv_insert_Ok in Hins. split; [exact Hins|].
    intros Hok. unfold state_ok, view. simpl. rewrite Hins. by eapply commits_insert.
  - destruct (kv_remove key (kv s)) as [[[]| |] ks] eqn:Hrem; [|done..].
    intros [= <-]. apply kv_remove_Ok in Hrem. split; [exact Hrem|].
    intros Hok. unfold state_ok, view. cbn [set_tree set_kv kv tree]. rewrite Hrem.
    by apply commits_delete.
Qed.

(** On a reliable store [get] and [proof] speak about the entries. *)
Lemma proof_verifies `{!Reliable F} {E} s k v :
  state_ok s → view s !! k = Some v →
  ∃ p, proof s k = Some p ∧ proof_key p = k ∧ proof_value p = v ∧
    verify_proof (E := E) p (root s) = Ok true.
Proof.
  intros Hok Hk. destruct (proof_complete (E := E) _ _ _ _ Hok Hk) as (sibs & Hsibs & Hver).
  exists (mkMerkleProof k v sibs). unfold proof. rewrite get_view, Hk. simpl. by rewrite Hsibs.
Qed.

(** ** Serialization *)

Definition entry_bytes (e : bytes * bytes) : bytes :=
  (u32_be (N.of_nat (length e.1)) ++ e.1) ++ u32_be (N.of_nat (length e.2)) ++ e.2.

Lemma write_entries_Ok {E} (l : list (bytes * bytes)) :
  Forall (λ e, wf_entry e.1 e.2) l →
  write_entries (E := E) l = Ok (concat (entry_bytes <$> l)).
Proof.
  induction 1 as [|e l [Hk Hv] _ IH]; [done|]. simpl. unfold write_entry.
  rewrite !write_bytes_Ok by done. simpl. by rewrite IH.
Qed.

Lemma decodes_entry e prev :
  wf_entry e.1 e.2 → (∀ p, prev = Some p → bytes_leb e.1 p = false) →
  decodes (read_entry prev) (entry_bytes e) e.
Proof.
  intros [Hk Hv] Hprev. unfold read_entry, entry_bytes.
  codec_step; [by apply decodes_take_bytes|].
  eapply decodes_bind_nil; [by apply decodes_take_bytes|].
  destruct prev as [p|]; [rewrite (Hprev p) by done|]; destruct e; apply decodes_ret.
Qed.

(** Strictly ascending keys, the order of [kv_iter]. *)
Fixpoint ascending (prev : option bytes) (l : list (bytes * bytes)) : Prop :=
  match l with
  | [] => True
  | e :: l => (∀ p, prev = Some p → bytes_leb e.1 p = false) ∧ ascending (Some e.1) l
  end.

Lemma sorted_ascending (l : list (bytes * bytes)) :
  StronglySorted (key_le bytes_le) l → NoDup l.*1 → ∀ prev,
  (∀ p e, prev = Some p → e ∈ l → bytes_le p e.1 ∧ p ≠ e.1) → ascending prev l.
Proof.
  assert (∀ a b, bytes_le a b → a ≠ b → bytes_leb b a = false) as Hlt.
  { intros a b Hab Hne. destruct (bytes_leb b a) eqn:Hba; [|done].
    destruct Hne. by apply (anti_symm bytes_le). }
  induction 1 as [|e l Hl IH Hall]; intros Hnd prev Hprev; [done|]. simpl in *.
  apply NoDup_cons in Hnd as [Hni Hnd]. split.
  - intros p ->. destruct (Hprev p e eq_refl) as [Hle Hne]; [by left|]. by apply Hlt.
  - apply IH; [done|]. intros p e' [= <-] He'. split.
    + eapply Forall_forall in Hall; [|done]. exact Hall.
    + intros Heq. apply Hni. rewrite Heq. by apply list_elem_of_fmap_2.
Qed.

Lemma bt_entries_ascending (m : gmap bytes bytes) : ascending None (bt_entries bytes_le m).
Proof.
  apply sorted_ascending; [apply bt_entries_sorted; apply _|apply bt_entries_keys_NoDup|done].
Qed.

(** Inserting a list of entries into a tree. *)
Fixpoint insert_all (l : list (bytes * bytes)) (t : SparseMerkleTree) : res unit SparseMerkleTree :=
  match l with
  | [] => mret t
  | e :: l => t ← tree_insert e.1 e.2 t; insert_all l t
  end.

Lemma insert_all_commits (l : list (bytes * bytes)) t m t' :
  commits t m → insert_all l t = Ok t' →
  commits t' (foldl (λ m e, <[e.1 := e.2]> m) m l) ∨ sha256_collision.
Proof.
  revert t m. induction l as [|e l IH]; intros t m Hc Hall; simpl in *.
  - injection Hall as <-. by left.
  - apply res_bind_Ok in Hall as (t1 & Ht1 & Hall).
    destruct (commits_insert _ _ _ _ _ Hc Ht1) as [Hc1|?]; [|by right]. by eapply IH.
Qed.

Lemma insert_all_total (l : list (bytes * bytes)) t :
  Forall (λ e, wf_entry e.1 e.2) l → ∃ t', insert_all l t = Ok t'.
Proof.
  intros Hl. revert t. induction Hl as [|e l He _ IH]; intros t; simpl; [by eexists|].
  unfold tree_insert. rewrite smt_leaf_Ok by done. cbn [mbind res_bind mret res_ret]. apply IH.
Qed.

(** The parsing loop sees exactly the entries that were written. *)
Lemma root_of_bytes_loop_spec (l : list (bytes * bytes)) fuel prev t :
  Forall (λ e, wf_entry e.1 e.2) l → ascending prev l → length l ≤ fuel →
  root_of_bytes_loop fuel prev (concat (entry_bytes <$> l)) t = tree_root <$> insert_all l t.
Proof.
  intros Hl. revert fuel prev t. induction Hl as [|e l He _ IH]; intros fuel prev t Hasc Hfuel.
  { by destruct fuel. }
  destruct Hasc as [Hprev Hasc]. destruct fuel as [|fuel]; [simpl in Hfuel; lia|].
  rewrite fmap_cons. cbn [concat]. pose proof (decodes_entry e prev He Hprev
    (concat (entry_bytes <$> l))) as Hd.
  assert (∃ b rest, entry_bytes e ++ concat (entry_bytes <$> l) = b :: rest) as (b & rest & Heq).
  { unfold entry_bytes. simpl. by eexists _, _. }
  rewrite Heq in *. cbn [root_of_bytes_loop]. rewrite Hd. destruct e as [k v]. cbn.
  destruct (tree_insert k v t) as [t'| |]; [|done..]. simpl. apply IH; [done|simpl in Hfuel; lia].
Qed.

Lemma foldl_insert_entries (l : list (bytes * bytes)) (m : gmap bytes bytes) :
  NoDup l.*1 → (∀ k, k ∈ l.*1 → m !! k = None) →
  foldl (λ m e, <[e.1 := e.2]> m) m l = list_to_map l ∪ m.
Proof.
  revert m. induction l as [|[k v] l IH]; intros m Hnd Hm; simpl in *.
  { by rewrite (left_id_L ∅ (∪)). }
  apply NoDup_cons in Hnd as [Hni Hnd]. rewrite IH; [|done|].
  - rewrite <- insert_union_l, insert_union_r; [done|]. by apply not_elem_of_list_to_map.
  - intros k' Hk'. rewrite lookup_insert_ne by set_solver. apply Hm. by right.
Qed.

Lemma foldl_insert_view (m : gmap bytes bytes) :
  foldl (λ m e, <[e.1 := e.2]> m) ∅ (bt_entries bytes_le m) = m.
Proof.
  rewrite foldl_insert_entries by (apply bt_entries_keys_NoDup || intros; apply lookup_empty).
  rewrite (right_id_L ∅ (∪)). rewrite (list_to_map_proper (M := gmap bytes) _ (map_to_list m)).
  - apply list_to_map_to_list.
  - apply bt_entries_keys_NoDup.
  - apply bt_entries_perm.
Qed.

Lemma view_entries_wf s : state_ok s → Forall (λ e, wf_entry e.1 e.2) (bt_entries bytes_le (view s)).
Proof.
  intros Hok. apply Forall_forall. intros [k v] Hin. apply elem_of_bt_entries in Hin.
  destruct (com_entry _ _ Hok k v Hin) as (leaf & Hleaf & _). by eapply smt_leaf_inv.
Qed.

Lemma to_bytes_inv s bs :
  state_ok s → to_bytes s = Ok bs → bs = concat (entry_bytes <$> bt_entries bytes_le (view s)).
Proof.
  intros Hok. unfold to_bytes, io. destruct (kv_iter (kv s)) as [l| |] eqn:Hl; [|done..].
  apply kv_iter_Ok in Hl as ->. cbn [map_err mbind res_bind].
  rewrite write_entries_Ok by by apply view_entries_wf. by intros [= <-].
Qed.

Lemma length_entries (l : list (bytes * bytes)) : length l ≤ length (concat (entry_bytes <$> l)).
Proof.
  induction l as [|e l IH]; [done|]. rewrite fmap_cons. cbn [concat]. rewrite length_app.
  unfold entry_bytes at 1. rewrite !length_app, length_be_bytes. simpl. lia.
Qed.

Lemma insert_all_view s :
  state_ok s → ∃ t, insert_all (bt_entries bytes_le (view s)) new_tree = Ok t ∧
    (commits t (view s) ∨ sha256_collision).
Proof.
  intros Hok. destruct (insert_all_total (bt_entries bytes_le (view s)) new_tree) as [t Ht];
    [by apply view_entries_wf|].
  exists t. split; [done|]. pose proof (insert_all_commits _ _ _ _ commits_new Ht) as Hc.
  by rewrite foldl_insert_view in Hc.
Qed.

(** The root can be recomputed from the serialization alone. *)
Lemma root_of_to_bytes s bs :
  state_ok s → to_bytes s = Ok bs →
  ∃ h, root_of_bytes bs = Ok h ∧ (h = root s ∨ sha256_collision).
Proof.
  intros Hok ->%to_bytes_inv; [|done]. unfold root_of_bytes.
  rewrite root_of_bytes_loop_spec;
    [|by apply view_entries_wf|apply bt_entries_ascending|apply length_entries].
  destruct (insert_all_view s Hok) as (t & -> & Hc). eexists. split; [done|].
  destruct Hc as [Hc|?]; [left|by right]. by eapply commits_root.
Qed.

Lemma from_bytes_loop_spec `{!Writable F} (l : list (bytes * bytes)) fuel prev t t' ks :
  Forall (λ e, wf_entry e.1 e.2) l → ascending prev l → length l ≤ fuel →
  insert_all l t = Ok t' →
  ∃ ks', from_bytes_loop fuel prev (concat (entry_bytes <$> l)) t ks = (Ok t', ks') ∧
    kv_view ks' = foldl (λ m e, <[e.1 := e.2]> m) (kv_view ks) l.
Proof.
  intros Hl. revert fuel prev t ks. induction Hl as [|e l He _ IH];
    intros fuel prev t ks Hasc Hfuel Hall.
  { exists ks. simpl in Hall. injection Hall as ->. by destruct fuel. }
  destruct Hasc as [Hprev Hasc]. destruct fuel as [|fuel]; [simpl in Hfuel; lia|].
  rewrite fmap_cons. cbn [concat]. pose proof (decodes_entry e prev He Hprev
    (concat (entry_bytes <$> l))) as Hd.
  assert (∃ b rest, entry_bytes e ++ concat (entry_bytes <$> l) = b :: rest) as (b & rest & Heq).
  { unfold entry_bytes. simpl. by eexists _, _. }
  rewrite Heq in *. cbn [from_bytes_loop]. rewrite Hd. destruct e as [k v]. cbn [fst snd] in *.
  cbn [insert_all] in Hall. apply res_bind_Ok in Hall as (t1 & Ht1 & Hall). cbn [fst snd] in Ht1.
  unfold st_map_err, st_lift, mbind, stM_bind.
  pose proof (writes_succeed k v ks) as Hw. destruct (kv_insert k v ks) as [r ks1] eqn:Hins.
  simpl in Hw. subst r. cbn [map_err]. rewrite Ht1.
  destruct (IH fuel (Some k) t1 ks1) as (ks' & Hrun & Hview); [done|simpl in Hfuel; lia|done|].
  exists ks'. split; [exact Hrun|]. rewrite Hview. cbn [foldl].
  by rewrite (kv_insert_Ok _ _ _ _ Hins).
Qed.

(** Restoring a snapshot into an empty keyspace gives the state back. *)
Lemma state_from_to_bytes `{!Writable F} s bs ks :
  state_ok s → to_bytes s = Ok bs → kv_view ks = ∅ →
  ∃ s' ks', from_bytes bs ks = (Ok s', ks') ∧ kv s' = ks' ∧ view s' = view s ∧
    ((state_ok s' ∧ root s' = root s) ∨ sha256_collision).
Proof.
  intros Hok ->%to_bytes_inv Hks; [|done]. unfold from_bytes.
  destruct (insert_all_view s Hok) as (t & Ht & Hc).
  destruct (from_bytes_loop_spec (bt_entries bytes_le (view s))
    (length (concat (entry_bytes <$> bt_entries bytes_le (view s)))) None new_tree t ks)
    as (ks' & Hrun & Hview);
    [by apply view_entries_wf|apply bt_entries_ascending|apply length_entries|done|].
  rewrite Hrun. exists (mkState F ks' t), ks'. rewrite Hks, foldl_insert_view in Hview.
  split; [done|]. split; [done|]. unfold state_ok, root, view in *. cbn [kv tree] in *.
  rewrite Hview. split; [done|]. destruct Hc as [Hc|?]; [left|by right].
  split; [done|]. by eapply commits_root.
Qed.
End facts.

(** ** Snapshots authenticated by their root

    [State::root_of_bytes] accepts only canonical serializations: the bytes of
    a snapshot are determined by its root, and rebuilding them into an empty
    keyspace succeeds with that root. *)

(** ** What was read *)

Lemma take_exact_inv {E} (err : E) len cursor b rest :
  take_exact err len cursor = (Ok b, rest) → cursor = b ++ rest ∧ N.of_nat (length b) = len.
Proof.
  unfold take_exact. case_decide as Hl; [|done]. intros [= <- <-]. split; [by rewrite take_drop|].
  rewrite length_take. lia.
Qed.

Lemma take_bytes_inv {E} (err : E) cursor b rest :
  take_bytes err cursor = (Ok b, rest) →
  cursor = (u32_be (N.of_nat (length b)) ++ b) ++ rest ∧ is_u32 (N.of_nat (length b)).
Proof.
  intros Hrun. split; [|by eapply yields_take_bytes].
  unfold take_bytes, take_u32 in Hrun. st_inv Hrun. st_inv Hr. apply take_exact_inv in Hr0 as [-> Hn].
  apply st_ret_Ok in Hr as [-> ->]. apply take_exact_inv in Hrun as [-> Hb].
  rewrite (assoc_L (++)). f_equal. f_equal. rewrite Hb.
  pose proof (be_bytes_of_be a0) as Ha. replace (length a0) with 4 in Ha by lia. by rewrite Ha.
Qed.

Section bytes.
Context `{Sha256}.

Lemma read_entry_inv prev cursor k v rest :
  read_entry prev cursor = (Ok (k, v), rest) →
  cursor = entry_bytes (k, v) ++ rest ∧ wf_entry k v ∧ (∀ p, prev = Some p → bytes_leb k p = false).
Proof.
  intros Hrun. unfold read_entry in Hrun. st_inv Hrun. st_inv Hrun.
  apply take_bytes_inv in Hr as [-> Hk], Hr0 as [-> Hv].
  assert (a = k ∧ a0 = v ∧ s0 = rest ∧ ∀ p, prev = Some p → bytes_leb a p = false) as (-> & -> & -> & Hp).
  { destruct prev as [p|]; [|by apply st_ret_Ok in Hrun as [[= -> ->] ->]].
    destruct (bytes_leb a p) eqn:Hle; [done|]. apply st_ret_Ok in Hrun as [[= -> ->] ->].
    split_and!; [done..|]. by intros ? [= <-]. }
  split; [|done]. unfold entry_bytes. simpl. by rewrite <- !(assoc_L (++)).
Qed.

Lemma root_loop_inv fuel prev cursor t h :
  root_of_bytes_loop fuel prev cursor t = Ok h →
  ∃ l t', cursor = concat (entry_bytes <$> l) ∧ Forall (λ e, wf_entry e.1 e.2) l ∧ ascending prev l ∧
    insert_all l t = Ok t' ∧ h = tree_root t'.
Proof.
  revert prev cursor t. induction fuel as [|fuel IH]; intros prev [|b cursor] t Hrun; simpl in Hrun; try done.
  1, 2: apply res_ret_Ok in Hrun as <-; by exists [], t.
  apply res_bind_Ok in Hrun as ([k v] & He & (t1 & Ht & Hrun)%res_bind_Ok).
  destruct (read_entry prev (b :: cursor)) as [r rest] eqn:Hread. simpl in He, Hrun. subst r.
  apply read_entry_inv in Hread as (-> & Hwf & Hprev).
  destruct (IH _ _ _ Hrun) as (l & t' & -> & Hl & Hasc & Hins & ->).
  exists ((k, v) :: l), t'. split; [done|]. split; [by constructor|]. split; [done|]. split; [|done].
  simpl. by rewrite Ht.
Qed.

Lemma ascending_sorted (l : list (bytes * bytes)) prev :
  ascending prev l →
  (∀ p e, prev = Some p → e ∈ l → bytes_le p e.1 ∧ p ≠ e.1) ∧ NoDup l.*1 ∧ StronglySorted (key_le bytes_le) l.
Proof.
  assert (∀ a b, bytes_leb b a = false → bytes_le a b ∧ a ≠ b) as Hlt.
  { intros a b Hf. split; [|intros ->].
    - destruct (total bytes_le a b) as [?|Hba]; [done|]. unfold bytes_le in Hba. congruence.
    - destruct (total bytes_le b b) as [Hr|Hr]; unfold bytes_le in Hr; congruence. }
  revert prev. induction l as [|e l IH]; intros prev Hasc; simpl.
  { split; [by intros ? ? _ ?%elem_of_nil|]. split; constructor. }
  destruct Hasc as [Hprev Hasc]. destruct (IH _ Hasc) as (Hall & Hnd & Hs). split; [|split].
  - intros p e' -> He'. destruct (Hlt p e.1 (Hprev p eq_refl)) as [Hle Hne].
    apply elem_of_cons in He' as [->|He']; [done|].
    destruct (Hall e.1 e' eq_refl He') as [Hle' Hne']. split; [by trans e.1|]. intros ->.
    apply Hne. by apply (anti_symm bytes_le).
  - constructor; [|done]. intros (e' & Heq & He')%list_elem_of_fmap. by destruct (Hall e.1 e' eq_refl He').
  - constructor; [done|]. apply Forall_forall. intros e' He'. by destruct (Hall e.1 e' eq_refl He').
Qed.

(** The entries that a snapshot lists. *)
Lemma root_of_bytes_inv bs h :
  root_of_bytes bs = Ok h →
  ∃ m t, bs = concat (entry_bytes <$> bt_entries bytes_le m) ∧
    Forall (λ e, wf_entry e.1 e.2) (bt_entries bytes_le m) ∧
    insert_all (bt_entries bytes_le m) new_tree = Ok t ∧ h = tree_root t ∧ (commits t m ∨ sha256_collision).
Proof.
  intros (l & t & -> & Hl & Hasc & Hins & ->)%root_loop_inv.
  destruct (ascending_sorted l None Hasc) as (_ & Hnd & Hs).
  exists (list_to_map l), t. rewrite bt_entries_list_to_map by (done || apply _).
  split_and!; [done..|]. pose proof (insert_all_commits _ _ _ _ commits_new Hins) as Hc.
  rewrite <- (bt_entries_list_to_map bytes_le l) in Hc at 1 by (done || apply _).
  by rewrite foldl_insert_view in Hc.
Qed.

(** One root has one serialization. *)
Lemma snapshot_binds bs1 bs2 h :
  root_of_bytes bs1 = Ok h → root_of_bytes bs2 = Ok h → bs1 = bs2 ∨ sha256_collision.
Proof.
  intros (m1 & t1 & -> & _ & _ & -> & [Hc1|?])%root_of_bytes_inv; [|by right].
  intros (m2 & t2 & -> & _ & _ & Hr & [Hc2|?])%root_of_bytes_inv; [|by right].
  destruct (commits_binding _ _ _ _ Hc1 Hc2 Hr) as [->|?]; [by left|by right].
Qed.

(** The length of the input is enough fuel, and reading never panics. *)
Lemma read_entry_never_panics prev : never_panics (read_entry prev).
Proof. unfold read_entry. destruct prev; solve_total. Qed.

Lemma root_loop_no_crash fuel prev cursor t :
  length cursor ≤ fuel → no_crash (root_of_bytes_loop fuel prev cursor t).
Proof.
  revert prev cursor t. induction fuel as [|fuel IH]; intros prev [|b cursor] t Hf; simpl; [done|simpl in Hf; lia|done|].
  pose proof (read_entry_never_panics prev (b :: cursor)) as Hnp.
  destruct (read_entry prev (b :: cursor)) as [[[k v]|e|c] rest] eqn:Hread; simpl in *; [|done|by destruct (Hnp c)].
  apply read_entry_inv in Hread as (Heq & Hwf & _). unfold tree_insert. rewrite smt_leaf_Ok by done. cbn [mbind res_bind mret res_ret].
  apply IH. apply (f_equal length) in Heq. unfold entry_bytes in Heq. rewrite !length_app in Heq.
  rewrite length_be_bytes in Heq. simpl in Heq. lia.
Qed.

Lemma root_of_bytes_no_crash bs : no_crash (root_of_bytes bs).
Proof. by apply root_loop_no_crash. Qed.

(** What [root_of_bytes] accepted, [from_bytes] rebuilds. *)
Lemma from_bytes_root `{F : Fjall} `{!Writable F} bs h ks :
  root_of_bytes bs = Ok h → kv_view ks = ∅ →
  ∃ s ks', from_bytes bs ks = (Ok s, ks') ∧ kv s = ks' ∧ root s = h ∧ (state_ok s ∨ sha256_collision).
Proof.
  intros (m & t & -> & Hwf & Hins & -> & Hc)%root_of_bytes_inv Hks. unfold from_bytes.
  destruct (from_bytes_loop_spec _ (length (concat (entry_bytes <$> bt_entries bytes_le m))) None new_tree t ks Hwf)
    as (ks' & -> & Hview); [apply bt_entries_ascending|apply length_entries|done|].
  rewrite Hks, foldl_insert_view in Hview. exists (mkState F ks' t), ks'.
  split_and!; [done..|]. destruct Hc as [Hc|?]; [left|by right]. unfold state_ok, view. simpl. by rewrite Hview.
Qed.
End bytes.
