(* ===== verification/Ledger.v ===== *)
(** * The abstract ledger and the executor's refinement of it

    [ledger_step] says what a transaction may do to the entries of the state:
    which records it may read, what must be true of them, and what it writes.
    The theorem of the file is that every transaction the executor runs is such a
    step; the invariants of the ledger are then proved by induction on steps. *)

From S2P Require Import Prelude Codec External Primitives Membership MerkleLog MerkleLogFacts.
From S2P Require Import SparseMerkle SparseMerkleFacts Did DidFacts Actor Op State.
From S2P Require Import StateFacts Executor.

(** ** Keys and values of the records *)

Definition did_bytes (id : DidId) : bytes :=
  (u32_be (N.of_nat (length (network id))) ++ network id) ++
  (u32_be (N.of_nat (length (alias id))) ++ alias id) ++ uuid id.

Definition actor_bytes (id : ActorId) : bytes :=
  match id with
  | Root did => ACTOR_VARIANT_ROOT :: did_bytes did
  | Sub did tag index => ACTOR_VARIANT_SUB :: did_bytes did ++ [tag_code tag] ++ u32_be index
  end.

Definition did_key (id : DidId) : bytes := DID_STATE_PREFIX :: did_bytes id.
Definition actor_key (id : ActorId) : bytes := ACTOR_STATE_PREFIX :: actor_bytes id.

Definition record_bytes (root : RootActor) : bytes :=
  did_bytes (root_did_id root) ++ merkle_root root ++ u64_be (root_leaf_count root) ++
  root_control_key root.

Definition sub_bytes (sub : SubActor) : bytes :=
  actor_bytes (actor_id sub) ++ sub_control_key sub ++ operating_key sub.

Definition did_payload (op : DidOp) : bytes :=
  DID_SIGNED_DOMAIN ++ did_bytes (did_id op) ++ Document.encode (document op).

Definition reserved (k : bytes) : bool :=
  match k with
  | b :: _ => bool_decide (b = RESERVED_DID_PREFIX) || bool_decide (b = RESERVED_ACTOR_PREFIX)
  | [] => false
  end.

Section encodings.
Context {E : Type}.

Lemma did_encode_bytes id : wf_did id → Did.encode (E := E) id = Ok (did_bytes id).
Proof. apply did_encode_Ok. Qed.

Lemma did_state_key_bytes id : wf_did id → did_state_key (E := E) id = Ok (did_key id).
Proof. intros Hid. unfold did_state_key. by rewrite did_encode_bytes. Qed.

Lemma actor_encode_bytes id : wf_actor id → Actor.encode (E := E) id = Ok (actor_bytes id).
Proof.
  destruct id as [did|did tag index]; simpl; [intros Hid|intros [Hid _]];
    by rewrite did_encode_bytes.
Qed.

Lemma actor_state_key_bytes id : wf_actor id → actor_state_key (E := E) id = Ok (actor_key id).
Proof. intros Hid. unfold actor_state_key. by rewrite actor_encode_bytes. Qed.

Lemma record_encode_bytes root :
  wf_did (root_did_id root) → RootRecord.encode (E := E) root = Ok (record_bytes root).
Proof. intros Hid. unfold RootRecord.encode. by rewrite did_encode_bytes. Qed.

Lemma sub_encode_bytes sub :
  wf_actor (actor_id sub) → SubRecord.encode (E := E) sub = Ok (sub_bytes sub).
Proof. intros Hid. unfold SubRecord.encode. by rewrite actor_encode_bytes. Qed.

Lemma did_payload_bytes op :
  wf_did (did_id op) → DidOps.signed_payload (E := E) op = Ok (did_payload op).
Proof. intros Hid. unfold DidOps.signed_payload. by rewrite did_encode_bytes. Qed.
End encodings.

(** The keys are injective and of disjoint kinds. *)
Lemma did_key_inj id1 id2 : wf_did id1 → wf_did id2 → did_key id1 = did_key id2 → id1 = id2.
Proof.
  intros H1 H2 Heq. apply cons_eq_inj in Heq as [_ Heq].
  pose proof (decodes_did (E := unit) id1 _ H1 (did_encode_bytes id1 H1)) as D1.
  pose proof (decodes_did (E := unit) id2 _ H2 (did_encode_bytes id2 H2)) as D2.
  rewrite Heq in D1. by eapply decodes_fun.
Qed.

Lemma actor_key_inj id1 id2 : wf_actor id1 → wf_actor id2 → actor_key id1 = actor_key id2 → id1 = id2.
Proof.
  intros H1 H2 Heq. apply cons_eq_inj in Heq as [_ Heq].
  pose proof (decodes_actor (E := unit) id1 _ H1 (actor_encode_bytes id1 H1)) as D1.
  pose proof (decodes_actor (E := unit) id2 _ H2 (actor_encode_bytes id2 H2)) as D2.
  rewrite Heq in D1. by eapply decodes_fun.
Qed.

Lemma did_actor_key id aid : did_key id ≠ actor_key aid.
Proof. by intros [=]. Qed.

Lemma actor_did_key id aid : actor_key aid ≠ did_key id.
Proof. by intros [=]. Qed.

Lemma reserved_did id : reserved (did_key id) = true.
Proof. done. Qed.

Lemma reserved_actor id : reserved (actor_key id) = true.
Proof. done. Qed.

Section ledger.
Context `{Sha256} `{Ed25519}.

Implicit Type V : gmap bytes bytes.

Definition doc_of V (id : DidId) : option DidDocument :=
  V !! did_key id ≫= decode_all Document.decode.
Definition record_of V (id : DidId) : option RootActor :=
  V !! actor_key (Root id) ≫= decode_all RootRecord.decode.
Definition sub_of V (id : ActorId) : option SubActor :=
  V !! actor_key id ≫= decode_all SubRecord.decode.

(** [op] is signed by the signing method of [doc] it names. *)
Definition did_signed (doc : DidDocument) (op : DidOp) : Prop :=
  ∃ key, Document.signing_key doc (N.to_nat (Byte.to_N (did_signed_by op))) = Some key ∧
    ed_verify key (did_payload op) (did_signature op) = true.

Definition mint_signed (doc : DidDocument) (op : SubActorOp) : Prop :=
  ∃ key sp, Document.signing_key doc (N.to_nat (Byte.to_N (op_signed_by op))) = Some key ∧
    SubActorOps.signed_payload (E := unit) op = Ok sp ∧
    ed_verify key sp (op_signature op) = true.

(** The root record of a fresh DID, and of one whose control key rotates. *)
Definition created_record (op : DidOp) : RootActor :=
  mkRootActor (did_id op) EMPTY_ROOT 0 (doc_control_key (document op)).

Definition rotated_record V (op : DidOp) : RootActor :=
  match record_of V (did_id op) with
  | Some r => mkRootActor (did_id op) (merkle_root r) (root_leaf_count r)
                (doc_control_key (document op))
  | None => created_record op
  end.

Definition minted_record (op : SubActorOp) (r : RootActor) : RootActor :=
  mkRootActor (op_root_did op) (new_root op) (u64_wrapping_add (root_leaf_count r) 1)
    (root_control_key r).

Definition put_did V (op : DidOp) : gmap bytes bytes :=
  <[did_key (did_id op) := Document.encode (document op)]> V.

Inductive ledger_step V : gmap bytes bytes → Prop :=
  | step_none : ledger_step V V
  | step_kv op :
      reserved (op_key op) = false → ledger_step V (op_effect op V)
  | step_create op :
      wf_did_op op → V !! did_key (did_id op) = None → deactivated (document op) = false →
      did_signed (document op) op →
      ledger_step V
        (<[actor_key (Root (did_id op)) := record_bytes (created_record op)]> (put_did V op))
  | step_rotate op prior :
      wf_did_op op → doc_of V (did_id op) = Some prior → deactivated prior = false →
      did_signed prior op → deactivated (document op) = false →
      ledger_step V
        (<[actor_key (Root (did_id op)) := record_bytes (rotated_record V op)]> (put_did V op))
  | step_deactivate op prior :
      wf_did_op op → doc_of V (did_id op) = Some prior → deactivated prior = false →
      did_signed prior op → deactivated (document op) = true →
      ledger_step V (put_did V op)
  | step_mint op doc record leaf :
      wf_sub_op op → V !! actor_key (op_actor_id op) = None →
      doc_of V (op_root_did op) = Some doc → deactivated doc = false →
      record_of V (op_root_did op) = Some record →
      mint_signed doc op →
      subactor_leaf_hash (E := unit) (op_actor_id op) (op_control_key op) = Ok leaf →
      append_check op leaf record = Ok None →
      ledger_step V
        (<[actor_key (Root (op_root_did op)) := record_bytes (minted_record op record)]>
          (<[actor_key (op_actor_id op) :=
               sub_bytes (mkSubActor (op_actor_id op) (op_control_key op) (op_operating_key op))]> V))
  | step_rebind op did tag index sub doc record payload :
      wf_rebind_op op → rebind_actor_id op = Sub did tag index →
      sub_of V (rebind_actor_id op) = Some sub →
      doc_of V did = Some doc → deactivated doc = false → record_of V did = Some record →
      RebindOps.signed_payload (E := unit) op (operating_key sub) = Ok payload →
      ed_verify (new_operating_key op) payload (proof_of_possession op) = true →
      ed_verify (root_control_key record) payload (authorizing_signature op) = true →
      ledger_step V
        (<[actor_key (rebind_actor_id op) :=
             sub_bytes (mkSubActor (rebind_actor_id op) (sub_control_key sub)
                          (new_operating_key op))]> V).

(** ** Refinement *)

Context `{F : Fjall} `{!Reliable F}.

Lemma apply_put_view k v s r s' :
  apply (Put k v) s = (Ok r, s') → view s' = <[k := v]> (view s).
Proof. destruct r. by intros [Hv _]%apply_Ok. Qed.

Lemma did_verification_None op sp stored :
  did_verification op sp stored = None →
  (is_creation op = true ∧ stored = None ∧ deactivated (document op) = false ∧
     ∃ key, Document.signing_key (document op) (N.to_nat (Byte.to_N (did_signed_by op))) = Some key ∧
       ed_verify key sp (did_signature op) = true) ∨
  (is_creation op = false ∧ ∃ prior, stored ≫= decode_all Document.decode = Some prior ∧
     deactivated prior = false ∧
     ∃ key, Document.signing_key prior (N.to_nat (Byte.to_N (did_signed_by op))) = Some key ∧
       ed_verify key sp (did_signature op) = true).
Proof.
  unfold did_verification. destruct (is_creation op), stored as [b|]; try done.
  - destruct (deactivated (document op)); [done|].
    destruct (Document.signing_key _ _) as [key|]; [|done].
    destruct (ed_verify _ _ _) eqn:Hv; [|done]. intros _. left. eauto 10.
  - destruct (decode_all Document.decode b) as [prior|] eqn:Hp; [|done].
    destruct (deactivated prior) eqn:Hd; [done|].
    destruct (Document.signing_key _ _) as [key|] eqn:Hk; [|done].
    destruct (ed_verify _ _ _) eqn:Hv; [|done]. intros _. right. split; [done|].
    exists prior. simpl. eauto 10.
Qed.

Lemma did_root_write_Ok op s w :
  wf_did (did_id op) → did_root_write op s = Ok w →
  w = if deactivated (document op) then None else
      Some (actor_key (Root (did_id op)),
            record_bytes (if is_creation op then created_record op
                          else rotated_record (view s) op)).
Proof.
  intros Hid. unfold did_root_write. destruct (deactivated (document op)); [by intros [= <-]|].
  rewrite actor_state_key_bytes by done. cbn [mbind res_bind]. rewrite get_view.
  unfold rotated_record, record_of.
  destruct (is_creation op); [rewrite record_encode_bytes by done; by intros [= <-]|].
  destruct (view s !! _ ≫= _) as [r|]; (rewrite record_encode_bytes by done); by intros [= <-].
Qed.

Lemma apply_did_op_step op s out s' :
  wf_did_op op → apply_did_op op s = (Ok out, s') →
  ledger_step (view s) (view s').
Proof.
  intros Hwf Hrun. destruct (Hwf) as (Hid & _). unfold apply_did_op in Hrun.
  st_inv Hrun. rewrite did_state_key_bytes in Hl by done. injection Hl as <-.
  st_inv Hrun. rewrite did_payload_bytes in Hl by done. injection Hl as <-.
  st_inv Hrun. rewrite get_view in Hrun.
  destruct (did_verification _ _ _) as [e|] eqn:Hver.
  { st_inv Hrun. apply step_none. }
  st_inv Hrun. apply did_root_write_Ok in Hl as ->; [|done]. st_inv Hrun.
  apply apply_put_view in Hr.
  apply did_verification_None in Hver as [(Hc & Hnone & Hact & Hkey)|(Hc & prior & Hp & Hact & Hkey)];
    rewrite Hc in Hrun.
  - rewrite Hact in Hrun. st_inv Hrun. apply apply_put_view in Hr0. st_inv Hrun.
    rewrite Hr0, Hr. by apply step_create.
  - destruct (deactivated (document op)) eqn:Hd.
    + st_inv Hrun. rewrite Hr. by eapply step_deactivate.
    + st_inv Hrun. apply apply_put_view in Hr0. st_inv Hrun.
      rewrite Hr0, Hr. by eapply step_rotate.
Qed.

Lemma active_root_document_inr s k doc :
  active_root_document s k = inr doc →
  view s !! k ≫= decode_all Document.decode = Some doc ∧ deactivated doc = false.
Proof.
  unfold active_root_document. rewrite get_view.
  destruct (view s !! k ≫= _) as [d|]; [|done]. destruct (deactivated d) eqn:Hd; [done|].
  by intros [= <-].
Qed.

(** A framed payload does not depend on the error type of its caller. *)
Lemma framed_any {E1 E2} id (g : bytes → bytes) w :
  wf_actor id →
  (b ← Actor.encode (E := E1) id; framed ← write_bytes b; mret (g framed)) = Ok w →
  (b ← Actor.encode (E := E2) id; framed ← write_bytes b; mret (g framed)) = Ok w.
Proof.
  intros Hid. rewrite !actor_encode_bytes by done. cbn [mbind res_bind].
  unfold write_bytes. case_decide; [|done]. cbn. by intros [= <-].
Qed.

Lemma apply_sub_actor_op_step op s out s' :
  wf_sub_op op → apply_sub_actor_op op s = (Ok out, s') → ledger_step (view s) (view s').
Proof.
  intros Hwf Hrun. destruct (Hwf) as (Hid & Hi & _).
  assert (wf_actor (op_actor_id op)) as Haid by done. unfold apply_sub_actor_op in Hrun.
  st_inv Hrun. rewrite actor_state_key_bytes in Hl by done. injection Hl as <-. st_inv Hrun.
  destruct (contains s _) eqn:Hcon; [st_inv Hrun; apply step_none|].
  apply bool_decide_eq_false, eq_None_not_Some in Hcon. rewrite get_view in Hcon.
  st_inv Hrun. rewrite did_state_key_bytes in Hl by done. injection Hl as <-.
  destruct (active_root_document s _) as [e|doc] eqn:Hdoc; [st_inv Hrun; apply step_none|].
  apply active_root_document_inr in Hdoc as [Hdoc Hact].
  st_inv Hrun. rewrite actor_state_key_bytes in Hl by done. injection Hl as <-.
  unfold root_record in Hrun. rewrite get_view in Hrun.
  destruct (view s !! actor_key (Root _) ≫= _) as [record|] eqn:Hrec;
    [|st_inv Hrun; apply step_none].
  st_inv Hrun. rename a into sp, Hl into Hsp.
  destruct (Document.signing_key _ _) as [key|] eqn:Hkey; [|st_inv Hrun; apply step_none].
  destruct (ed_verify key sp _) eqn:Hver; cbn [negb] in Hrun;
    [|st_inv Hrun; apply step_none].
  st_inv Hrun. rename a into leaf, Hl into Hleaf. st_inv Hrun.
  destruct (append_check op leaf record) as [c| |] eqn:Hchk; [|done..].
  injection Hl as <-. destruct c as [e|]; [st_inv Hrun; apply step_none|].
  cbn [SubRecord.new is_root op_actor_id] in Hrun.
  st_inv Hrun. rewrite sub_encode_bytes in Hl by done. injection Hl as <-.
  st_inv Hrun. rewrite record_encode_bytes in Hl by done. injection Hl as <-.
  st_inv Hrun. apply apply_put_view in Hr. st_inv Hrun. apply apply_put_view in Hr0. st_inv Hrun.
  rewrite Hr0, Hr. eapply step_mint; try done.
  - exists key, sp. split; [done|]. split; [|done]. by eapply framed_any.
  - unfold subactor_leaf_hash, subactor_leaf_data in *.
    destruct (b ← Actor.encode _; _) as [d| |] eqn:Hd in Hleaf; [|done..].
    eapply framed_any in Hd; [|done]. rewrite Hd. by injection Hleaf as <-.
Qed.

Lemma apply_rebind_op_step op s out s' :
  wf_rebind_op op → apply_rebind_op op s = (Ok out, s') → ledger_step (view s) (view s').
Proof.
  intros Hwf Hrun. destruct (Hwf) as (Haid & _). unfold apply_rebind_op in Hrun.
  destruct (rebind_actor_id op) as [did|did tag index] eqn:Hid; [st_inv Hrun; apply step_none|].
  assert (wf_did did) as Hdid by apply Haid.
  st_inv Hrun. rewrite actor_state_key_bytes in Hl by done. injection Hl as <-. st_inv Hrun.
  rewrite get_view in Hrun.
  destruct (view s !! _ ≫= _) as [sub|] eqn:Hsub; [|st_inv Hrun; apply step_none].
  st_inv Hrun. rewrite did_state_key_bytes in Hl by done. injection Hl as <-.
  destruct (active_root_document s _) as [e|doc] eqn:Hdoc; [st_inv Hrun; apply step_none|].
  apply active_root_document_inr in Hdoc as [Hdoc Hact].
  st_inv Hrun. rewrite actor_state_key_bytes in Hl by done. injection Hl as <-.
  unfold root_record in Hrun. rewrite get_view in Hrun.
  destruct (view s !! actor_key (Root _) ≫= _) as [record|] eqn:Hrec;
    [|st_inv Hrun; apply step_none].
  st_inv Hrun. rename a into payload, Hl into Hp.
  destruct (ed_verify (new_operating_key op) _ _) eqn:Hpop; cbn [negb] in Hrun;
    [|st_inv Hrun; apply step_none].
  destruct (ed_verify (root_control_key record) _ _) eqn:Hauth; cbn [negb] in Hrun;
    [|st_inv Hrun; apply step_none].
  cbn [SubRecord.new is_root] in Hrun. st_inv Hrun. rewrite sub_encode_bytes in Hl by done. injection Hl as <-.
  st_inv Hrun. apply apply_put_view in Hr. st_inv Hrun. rewrite Hr, <- Hid.
  rewrite <- Hid in Hsub. eapply step_rebind; try done.
  unfold RebindOps.signed_payload in *. rewrite Hid in *. by eapply framed_any.
Qed.

Lemma reject_reserved_Ok key u : reject_reserved_prefix key = Ok u → reserved key = false.
Proof.
  unfold reject_reserved_prefix, reserved. destruct key as [|b key]; [done|].
  by repeat case_bool_decide.
Qed.

Lemma yields_put : yields put_body (λ op, reserved (op_key op) = false).
Proof.
  unfold put_body. apply yields_seq. intros key.
  eapply yields_bind; [apply (yields_lift (λ _, reserved key = false)), reject_reserved_Ok|].
  intros u Hr. apply yields_seq. intros v. apply yields_seq. intros _. by apply yields_ret.
Qed.

Lemma yields_delete : yields delete_body (λ op, reserved (op_key op) = false).
Proof.
  unfold delete_body. apply yields_seq. intros key.
  eapply yields_bind; [apply (yields_lift (λ _, reserved key = false)), reject_reserved_Ok|].
  intros u Hr. apply yields_seq. intros _. by apply yields_ret.
Qed.

Lemma yields_result {E A} (d : stM bytes E A) Q cursor a :
  yields d Q → (d cursor).1 = Ok a → Q a.
Proof.
  intros Hd. destruct (d cursor) as [r rest] eqn:Hrun. simpl. intros ->. by eapply Hd.
Qed.

Lemma res_fmap_Ok {E A B} (f : A → B) (m : res E A) b :
  f <$> m = Ok b → ∃ a, m = Ok a ∧ f a = b.
Proof. destruct m as [a| |]; [|done..]. intros [= <-]. eauto. Qed.

(** What decoding guarantees about an operation. *)
Definition decoded_ok (d : DecodedOp) : Prop :=
  match d with
  | Kv op => reserved (op_key op) = false
  | MembershipTx _ => True
  | DidTx op => wf_did_op op
  | SubActorTx op => wf_sub_op op
  | RebindTx op => wf_rebind_op op
  end.

Lemma decode_op_ok tx d : decode_op tx = Ok d → decoded_ok d.
Proof.
  unfold decode_op. destruct tx as [|opcode cursor]; [done|].
  repeat case_bool_decide; intros Hd; try done; try apply map_err_Ok in Hd;
    apply res_fmap_Ok in Hd as (op & Hop & <-); simpl.
  - exact (yields_result _ _ _ _ yields_put Hop).
  - exact (yields_result _ _ _ _ yields_delete Hop).
  - done.
  - by eapply decode_did_op_wf.
  - by eapply decode_sub_op_wf.
  - by eapply decode_rebind_op_wf.
Qed.

(** The executor refines the ledger, transaction by transaction. *)
Lemma execute_tx_step tx r s r' s' :
  execute_tx tx r s = (Ok r', s') → ledger_step (view s) (view s').
Proof.
  unfold execute_tx. destruct (decode_op tx) as [d| |c] eqn:Hd; [|intros [= _ <-]; apply step_none|done].
  apply decode_op_ok in Hd. destruct d as [op|m|op|op|op]; simpl in Hd; intros Hrun.
  - st_inv Hrun. destruct a. apply apply_Ok in Hr as [Hv _]. st_inv Hrun. rewrite Hv.
    by apply step_kv.
  - injection Hrun as _ <-. apply step_none.
  - st_inv Hrun. apply apply_did_op_step in Hr; [|done]. by st_inv Hrun.
  - st_inv Hrun. apply apply_sub_actor_op_step in Hr; [|done]. by st_inv Hrun.
  - st_inv Hrun. apply apply_rebind_op_step in Hr; [|done]. by st_inv Hrun.
Qed.

Lemma execute_txs_steps txs r s r' s' :
  execute_txs txs r s = (Ok r', s') → rtc ledger_step (view s) (view s').
Proof.
  revert r s. induction txs as [|tx txs IH]; intros r s Hrun; cbn [execute_txs] in Hrun.
  - injection Hrun as _ <-. done.
  - st_inv Hrun. apply execute_tx_step in Hr. eapply rtc_l; [done|]. by eapply IH.
Qed.
End ledger.
