(* ===== verification/LedgerFacts.v ===== *)
(** * Invariants of the ledger

    Proved by cases on [ledger_step] and carried along executions: the log of
    sub-actors of a DID only grows, every sub-actor record is committed in it, a
    deactivated DID is frozen, and documents and keys change only under the
    signatures of their owners. *)

From S2P Require Import Prelude Codec External MerkleLog MerkleLogFacts Did DidFacts Actor.
From S2P Require Import Op State StateFacts Executor Ledger.

Lemma decode_all_decodes {A} (d : stM bytes ExecutorError A) w a :
  decodes d w a → decode_all d w = Some a.
Proof. intros Hd%decodes_all. unfold decode_all. by rewrite Hd. Qed.

Lemma decode_all_yields {A} (d : stM bytes ExecutorError A) Q w a :
  yields d Q → decode_all d w = Some a → Q a.
Proof.
  intros Hd. unfold decode_all. destruct (d w) as [[x| |] [|]] eqn:Hrun; try done.
  intros [= ->]. by eapply Hd.
Qed.

Lemma op_effect_reserved op V k :
  reserved (op_key op) = false → reserved k = true → op_effect op V !! k = V !! k.
Proof.
  intros Hop Hk. assert (op_key op ≠ k) by congruence.
  destruct op; simpl in *; [by rewrite lookup_insert_ne|by rewrite lookup_delete_ne].
Qed.

Section facts.
Context `{Sha256} `{Ed25519}.

Implicit Types (V : gmap bytes bytes) (L : list Hash).

Lemma decode_record r : wf_root r → decode_all RootRecord.decode (record_bytes r) = Some r.
Proof.
  intros Hr. apply decode_all_decodes. destruct (Hr) as (Hid & _).
  eapply (decodes_root (E := unit)); [done|by apply record_encode_bytes].
Qed.

Lemma decode_sub s : wf_sub s → decode_all SubRecord.decode (sub_bytes s) = Some s.
Proof.
  intros Hs. apply decode_all_decodes. destruct (Hs) as (Hid & _).
  eapply (decodes_sub (E := unit)); [done|by apply sub_encode_bytes].
Qed.

Lemma decode_doc d : wf_document d → decode_all Document.decode (Document.encode d) = Some d.
Proof. intros Hd. by apply decode_all_decodes, decodes_document. Qed.

Lemma record_of_wf V did r : record_of V did = Some r → wf_root r.
Proof.
  unfold record_of. intros (b & _ & Hb)%bind_Some. by eapply decode_all_yields; [apply yields_root|].
Qed.

Lemma sub_of_wf V id s : sub_of V id = Some s → wf_sub s.
Proof.
  unfold sub_of. intros (b & _ & Hb)%bind_Some. by eapply decode_all_yields; [apply yields_sub|].
Qed.

(** [committed V did L]: the root record of [did] is the head of the log [L]. *)
Definition committed V (did : DidId) L : Prop :=
  ∃ r, record_of V did = Some r ∧ merkle_root r = mth L ∧
    root_leaf_count r = N.of_nat (length L) ∧ Forall hash_sized L.

Lemma committed_lookup V V' did L :
  V' !! actor_key (Root did) = V !! actor_key (Root did) → committed V did L → committed V' did L.
Proof. intros Hk (r & Hr & Hrest). exists r. split; [|done]. unfold record_of in *. by rewrite Hk. Qed.

Lemma root_key_ne did1 did2 :
  wf_did did1 → wf_did did2 → did1 ≠ did2 → actor_key (Root did1) ≠ actor_key (Root did2).
Proof. intros H1 H2 Hne Heq. apply actor_key_inj in Heq; [|done..]. congruence. Qed.

Lemma root_sub_key_ne did did' tag index :
  wf_did did → wf_actor (Sub did' tag index) → actor_key (Root did) ≠ actor_key (Sub did' tag index).
Proof. intros H1 H2 Heq. by apply actor_key_inj in Heq. Qed.

(** ** Minting appends *)

Lemma append_check_None op leaf r :
  append_check op leaf r = Ok None →
  leaf_index (inclusion_proof op) = root_leaf_count r ∧
  leaf_count (inclusion_proof op) = u64_wrapping_add (root_leaf_count r) 1 ∧
  verify_inclusion leaf (inclusion_proof op) (new_root op) = Ok true ∧
  old_leaf_count (consistency_proof op) = root_leaf_count r ∧
  new_leaf_count (consistency_proof op) = u64_wrapping_add (root_leaf_count r) 1 ∧
  verify_consistency (merkle_root r) (consistency_proof op) (new_root op) = Ok true.
Proof.
  unfold append_check. intros Hchk. apply res_bind_Ok in Hchk as (inc & Hinc & Hchk).
  destruct (N.eqb_spec (leaf_index (inclusion_proof op)) (root_leaf_count r)); [|done].
  destruct (N.eqb_spec (leaf_count (inclusion_proof op)) (u64_wrapping_add (root_leaf_count r) 1));
    [|done].
  destruct inc; [|done]. cbn [negb orb] in Hchk. apply res_bind_Ok in Hchk as (con & Hcon & Hchk).
  destruct (N.eqb_spec (root_leaf_count r) (old_leaf_count (consistency_proof op))); [|done].
  destruct (N.eqb_spec (new_leaf_count (consistency_proof op))
              (u64_wrapping_add (root_leaf_count r) 1)); [|done].
  by destruct con.
Qed.

Lemma subactor_leaf_sized {E} id key leaf :
  subactor_leaf_hash (E := E) id key = Ok leaf → hash_sized leaf.
Proof.
  unfold subactor_leaf_hash. destruct (subactor_leaf_data id key); [|done..].
  intros [= <-]. apply sha256_length.
Qed.

(** A verified inclusion at the old length cannot come from a wrapped count. *)
Lemma mint_count leaf proof h (n : N) :
  is_u64 n → leaf_index proof = n → leaf_count proof = u64_wrapping_add n 1 →
  verify_inclusion leaf proof h = Ok true →
  u64_wrapping_add n 1 = (n + 1)%N ∧ is_u64 (n + 1)%N.
Proof.
  intros Hn Hi Hc Hver. unfold verify_inclusion in Hver. rewrite Hi, Hc in Hver.
  destruct (orb _ _) eqn:Hguard; [done|].
  apply orb_false_iff in Hguard as [_ Hlt%N.leb_gt]. unfold u64_wrapping_add, is_u64 in *.
  destruct (decide (n + 1 < u64_modulus)%N) as [Hs|Hs]; [by rewrite N.mod_small|].
  assert (n + 1 = u64_modulus)%N as Heq by lia. rewrite Heq, N.Div0.mod_same in Hlt. lia.
Qed.

Lemma mint_appends V op r leaf L :
  wf_sub_op op → record_of V (op_root_did op) = Some r → merkle_root r = mth L →
  root_leaf_count r = N.of_nat (length L) → Forall hash_sized L →
  subactor_leaf_hash (E := unit) (op_actor_id op) (op_control_key op) = Ok leaf →
  append_check op leaf r = Ok None →
  (wf_root (minted_record op r) ∧ root_leaf_count (minted_record op r) = N.of_nat (length (L ++ [leaf])))
  ∧ (new_root op = mth (L ++ [leaf]) ∨ sha256_collision).
Proof.
  intros Hop Hrec Hroot Hcount HL Hleaf Hchk.
  destruct (Hop) as (Hid & _ & _ & _ & Hnew & Hcp & Hip & _).
  destruct (record_of_wf _ _ _ Hrec) as (_ & _ & Hu64 & Hkey).
  apply append_check_None in Hchk as (Hi & Hc & Hver & Hco & Hcn & Hcons).
  destruct (mint_count _ _ _ _ Hu64 Hi Hc Hver) as [Hwrap Hbound].
  rewrite Hwrap in *. split.
  - unfold minted_record. rewrite Hwrap. split; [done|]. simpl.
    rewrite length_app, Hcount. simpl. lia.
  - eapply append_determines; try done.
    + by eapply subactor_leaf_sized.
    + apply Hcp.
    + apply Hip.
    + by rewrite Hco.
    + by rewrite Hcn, Hcount.
    + by rewrite Hi.
    + by rewrite Hc, Hcount.
    + by rewrite <- Hroot.
Qed.

(** ** The records of one DID *)

Definition owned (did : DidId) (k : bytes) : Prop :=
  k = did_key did ∨ ∃ id, wf_actor id ∧ k = actor_key id ∧
    match id with Root d | Sub d _ _ => d = did end.

Lemma own_doc did : owned did (did_key did).
Proof. by left. Qed.

Lemma own_root did : wf_did did → owned did (actor_key (Root did)).
Proof. intros Hw. right. by exists (Root did). Qed.

Lemma own_sub did tag index :
  wf_actor (Sub did tag index) → owned did (actor_key (Sub did tag index)).
Proof. intros Hw. right. by exists (Sub did tag index). Qed.

Hint Resolve own_doc own_root own_sub : core.

Lemma owned_reserved did k : owned did k → reserved k = true.
Proof. intros [->|(id & _ & -> & _)]; [apply reserved_did|apply reserved_actor]. Qed.

Lemma owned_disjoint did did' k :
  wf_did did → wf_did did' → owned did k → owned did' k → did = did'.
Proof.
  intros Hw Hw' [->|(id & Hid & -> & Hd)] [Heq|(id' & Hid' & Heq & Hd')].
  - by apply did_key_inj.
  - by apply did_actor_key in Heq.
  - symmetry in Heq. by apply did_actor_key in Heq.
  - apply actor_key_inj in Heq as ->; [|done..]. destruct id'; congruence.
Qed.

(** Nothing of [did] changes between [V] and [V']. *)
Definition unchanged (did : DidId) V V' : Prop := ∀ k, owned did k → V' !! k = V !! k.

Lemma unchanged_insert did did' k v V V' :
  wf_did did → wf_did did' → did ≠ did' → owned did' k →
  unchanged did V V' → unchanged did V (<[k := v]> V').
Proof.
  intros Hw Hw' Hne Hk Hu k' Hk'. rewrite lookup_insert_ne; [by apply Hu|].
  intros ->. by eapply Hne, owned_disjoint.
Qed.

Lemma unchanged_refl did V : unchanged did V V.
Proof. by intros k _. Qed.

Lemma unchanged_kv did V op : reserved (op_key op) = false → unchanged did V (op_effect op V).
Proof. intros Hres k Hk. eapply op_effect_reserved; [done|by eapply owned_reserved]. Qed.

(** [other_did]: a write to the records of another DID. *)
Ltac other_did :=
  repeat (eapply unchanged_insert; [done|done|done|by eauto|]); apply unchanged_refl.

(** ** The invariant *)

(** Every sub-actor record of [did] is a leaf of [L]. *)
Definition minted_in V (did : DidId) L : Prop :=
  ∀ tag index b, wf_actor (Sub did tag index) → V !! actor_key (Sub did tag index) = Some b →
    ∃ sub leaf, decode_all SubRecord.decode b = Some sub ∧ actor_id sub = Sub did tag index ∧
      subactor_leaf_hash (E := unit) (actor_id sub) (sub_control_key sub) = Ok leaf ∧ leaf ∈ L.

Record did_ok V (did : DidId) : Prop := {
  ok_doc : is_Some (V !! actor_key (Root did)) → is_Some (V !! did_key did);
  ok_log : is_Some (V !! actor_key (Root did)) → ∃ L, committed V did L ∧ minted_in V did L;
  ok_sub : V !! actor_key (Root did) = None →
    ∀ tag index, wf_actor (Sub did tag index) → V !! actor_key (Sub did tag index) = None;
}.

Definition grows V V' (did : DidId) : Prop :=
  ∀ L, committed V did L → (∃ L', committed V' did (L ++ L')) ∨ sha256_collision.

Lemma did_ok_empty did : did_ok ∅ did.
Proof.
  split; [by intros [? ?%lookup_empty_Some]..|]. intros _ tag index _. apply lookup_empty.
Qed.

Lemma ok_unchanged V V' did :
  wf_did did → unchanged did V V' → did_ok V did → did_ok V' did ∧ grows V V' did.
Proof.
  intros Hw Hu [Hdoc Hlog Hsub].
  assert (V' !! actor_key (Root did) = V !! actor_key (Root did)) as Hroot by auto.
  split; [split|].
  - rewrite Hroot, (Hu (did_key did)) by auto. done.
  - rewrite Hroot. intros (L & Hc & Hm)%Hlog. exists L. split; [by eapply committed_lookup|].
    intros tag index b Hid Hb. rewrite Hu in Hb by auto. by eapply Hm.
  - rewrite Hroot. intros Hnone tag index Hid. rewrite Hu by auto. by apply Hsub.
  - intros L Hc. left. exists []. rewrite app_nil_r. by eapply committed_lookup.
Qed.

Lemma committed_write V did r L :
  wf_root r → root_did_id r = did → merkle_root r = mth L →
  root_leaf_count r = N.of_nat (length L) → Forall hash_sized L →
  V !! actor_key (Root did) = Some (record_bytes r) → committed V did L.
Proof.
  intros Hr Hid Hm Hc HL Hk. exists r. split; [|done]. unfold record_of. rewrite Hk. simpl.
  by apply decode_record.
Qed.

Lemma created_record_wf op : wf_did_op op → wf_root (created_record op).
Proof. intros (Hid & (Hkey & _) & _). done. Qed.

Lemma create_ok V op :
  wf_did_op op → V !! did_key (did_id op) = None → did_ok V (did_id op) →
  let V' := <[actor_key (Root (did_id op)) := record_bytes (created_record op)]> (put_did V op) in
  did_ok V' (did_id op) ∧ grows V V' (did_id op).
Proof.
  intros Hop Hnone [Hdoc Hlog Hsub]. destruct (Hop) as (Hid & _). cbv zeta.
  assert (V !! actor_key (Root (did_id op)) = None) as Hroot.
  { destruct (V !! actor_key (Root (did_id op))) eqn:Hr; [|done].
    destruct Hdoc as [? ?]; [done|congruence]. }
  assert (committed (<[actor_key (Root (did_id op)) := record_bytes (created_record op)]>
    (put_did V op)) (did_id op) []) as Hc.
  { apply (committed_write _ _ (created_record op)); try done; [by apply created_record_wf|].
    apply lookup_insert_eq. }
  split; [split|].
  - intros _. unfold put_did. rewrite lookup_insert_ne by apply actor_did_key.
    rewrite lookup_insert_eq. done.
  - intros _. exists []. split; [done|]. intros tag index b Hs Hb. exfalso.
    unfold put_did in Hb. rewrite lookup_insert_ne in Hb by by apply root_sub_key_ne.
    rewrite lookup_insert_ne, Hsub in Hb by (done || apply did_actor_key). done.
  - intros Hn. by rewrite lookup_insert_eq in Hn.
  - intros L (r & Hr & _). unfold record_of in Hr. by rewrite Hroot in Hr.
Qed.

(** Writing a new record of [did] that keeps its log, and leaving the sub-actors. *)
Lemma rewrite_record_ok V V' did :
  did_ok V did →
  is_Some (V' !! did_key did) →
  (∀ L, committed V did L → committed V' did L) →
  (V !! actor_key (Root did) = None → committed V' did []) →
  (V' !! actor_key (Root did) ≠ None) →
  (∀ tag index, wf_actor (Sub did tag index) →
     V' !! actor_key (Sub did tag index) = V !! actor_key (Sub did tag index)) →
  did_ok V' did ∧ grows V V' did.
Proof.
  intros [Hdoc Hlog Hsub] Hd Hkeep Hfresh Hsome Hsubs. split; [split|]; try done.
  - intros _. destruct (V !! actor_key (Root did)) as [b|] eqn:Hr.
    + destruct Hlog as (L & Hc & Hm); [done|]. exists L. split; [by apply Hkeep|].
      intros tag index b' Hid Hb. rewrite Hsubs in Hb by done. by eapply Hm.
    + exists []. split; [by apply Hfresh|]. intros tag index b' Hid Hb.
      rewrite Hsubs, Hsub in Hb by done. done.
  - intros L Hc. left. exists []. rewrite app_nil_r. by apply Hkeep.
Qed.

Lemma rotate_ok V op :
  wf_did_op op → did_ok V (did_id op) →
  let V' := <[actor_key (Root (did_id op)) := record_bytes (rotated_record V op)]> (put_did V op) in
  did_ok V' (did_id op) ∧ grows V V' (did_id op).
Proof.
  intros Hop Hok. destruct (Hop) as (Hid & (Hkey & _) & _). cbv zeta.
  apply rewrite_record_ok; [done| | | | |].
  - unfold put_did. rewrite lookup_insert_ne by apply actor_did_key.
    by rewrite lookup_insert_eq.
  - intros L (r & Hr & Hm & Hc & HL). pose proof (record_of_wf _ _ _ Hr) as (_ & Hs & Hu & _).
    assert (rotated_record V op = mkRootActor (did_id op) (merkle_root r) (root_leaf_count r)
              (doc_control_key (document op))) as Heq by (unfold rotated_record; by rewrite Hr).
    rewrite Heq. eapply (committed_write _ _ (mkRootActor _ _ _ _)); [|done..|apply lookup_insert_eq].
    done.
  - intros Hnone. assert (rotated_record V op = created_record op) as ->.
    { unfold rotated_record, record_of. by rewrite Hnone. }
    apply (committed_write _ _ (created_record op)); try done. apply lookup_insert_eq.
  - by rewrite lookup_insert_eq.
  - intros tag index Hs. unfold put_did. rewrite lookup_insert_ne by by apply root_sub_key_ne.
    by rewrite lookup_insert_ne by apply did_actor_key.
Qed.

Lemma deactivate_ok V op :
  wf_did_op op → is_Some (V !! did_key (did_id op)) → did_ok V (did_id op) →
  did_ok (put_did V op) (did_id op) ∧ grows V (put_did V op) (did_id op).
Proof.
  intros Hop Hdoc [Hd Hlog Hsub]. destruct (Hop) as (Hid & _).
  assert (∀ id, put_did V op !! actor_key id = V !! actor_key id) as Hsame.
  { intros id. unfold put_did. by rewrite lookup_insert_ne by apply did_actor_key. }
  split; [split|].
  - intros _. unfold put_did. by rewrite lookup_insert_eq.
  - rewrite Hsame. intros (L & Hc & Hm)%Hlog. exists L. split; [by apply (committed_lookup V); [apply Hsame|]|].
    intros tag index b Hs. rewrite Hsame. by apply Hm.
  - rewrite Hsame. intros Hn tag index Hs. rewrite Hsame. by apply Hsub.
  - intros L Hc. left. exists []. rewrite app_nil_r. by apply (committed_lookup V); [apply Hsame|].
Qed.

Lemma mint_ok V op r leaf :
  wf_sub_op op → V !! actor_key (op_actor_id op) = None →
  record_of V (op_root_did op) = Some r →
  subactor_leaf_hash (E := unit) (op_actor_id op) (op_control_key op) = Ok leaf →
  append_check op leaf r = Ok None → did_ok V (op_root_did op) →
  let V' := <[actor_key (Root (op_root_did op)) := record_bytes (minted_record op r)]>
    (<[actor_key (op_actor_id op) :=
         sub_bytes (mkSubActor (op_actor_id op) (op_control_key op) (op_operating_key op))]> V) in
  (did_ok V' (op_root_did op) ∨ sha256_collision) ∧
  (∀ L, committed V (op_root_did op) L →
     committed V' (op_root_did op) (L ++ [leaf]) ∨ sha256_collision).
Proof.
  intros Hop Hnew Hrec Hleaf Hchk [Hdoc Hlog Hsub]. cbv zeta. set (did := op_root_did op) in *.
  destruct (Hop) as (Hid & Hi & Hck & Hopk & _).
  assert (wf_actor (op_actor_id op)) as Haid by done.
  assert (is_Some (V !! actor_key (Root did))) as Hroot.
  { unfold record_of in Hrec. destruct (V !! actor_key (Root did)); [done|]. done. }
  set (V' := <[actor_key (Root did) := _]> _).
  assert (∀ L, committed V did L → committed V' did (L ++ [leaf]) ∨ sha256_collision) as Hgrow.
  { intros L (r0 & Hr0 & Hm0 & Hc0 & HL0). assert (r0 = r) as -> by congruence.
    destruct (mint_appends V op r leaf L) as [[Hwf Hcount] [Hnewroot|?]]; try done; [left|by right].
    apply (committed_write _ _ (minted_record op r)); try done; [|apply lookup_insert_eq].
    apply Forall_app. split; [done|]. constructor; [|constructor]. by eapply subactor_leaf_sized. }
  split; [|done]. destruct (Hlog Hroot) as (L & Hc & Hm).
  destruct (Hgrow L Hc) as [Hc'|?]; [left|by right]. split.
  + intros _. unfold V'. rewrite !lookup_insert_ne by apply actor_did_key. by apply Hdoc.
  + intros _. exists (L ++ [leaf]). split; [done|].
    intros tag index b Hs Hb. unfold V' in Hb. rewrite lookup_insert_ne in Hb by by apply root_sub_key_ne.
    apply lookup_insert_Some in Hb as [[Heq <-]|[Hne Hb]].
    * apply actor_key_inj in Heq; [|done..]. eexists _, leaf. rewrite decode_sub by done.
      split; [done|]. simpl. split; [done|]. split; [done|]. set_solver.
    * destruct (Hm tag index b Hs Hb) as (sub & leaf' & ? & ? & ? & ?). exists sub, leaf'.
      set_solver.
  + intros Hn. unfold V' in Hn. by rewrite lookup_insert_eq in Hn.
Qed.

Lemma rebind_ok V op did tag index sub b :
  wf_rebind_op op → rebind_actor_id op = Sub did tag index →
  V !! actor_key (Sub did tag index) = Some b → decode_all SubRecord.decode b = Some sub →
  did_ok V did →
  let V' := <[actor_key (Sub did tag index) :=
    sub_bytes (mkSubActor (Sub did tag index) (sub_control_key sub) (new_operating_key op))]> V in
  did_ok V' did ∧ grows V V' did.
Proof.
  intros Hop Hid Hb Hsub [Hdoc Hlog Hsubs]. cbv zeta. destruct (Hop) as (Haid & Hkey & _).
  rewrite Hid in Haid. assert (wf_did did) as Hw by apply Haid.
  pose proof (decode_all_yields _ _ _ _ yields_sub Hsub) as (_ & _ & Hck & _).
  set (V' := <[_ := _]> V).
  assert (V' !! actor_key (Root did) = V !! actor_key (Root did)) as Hroot.
  { apply lookup_insert_ne. intros Heq. symmetry in Heq. revert Heq. by apply root_sub_key_ne. }
  split; [split|]; rewrite ?Hroot.
  - intros Hr. unfold V'. rewrite lookup_insert_ne by apply actor_did_key. by apply Hdoc.
  - intros Hr. destruct (Hlog Hr) as (L & Hc & Hm). exists L.
    split; [by eapply committed_lookup|]. intros tag' index' b' Hs Hb'. unfold V' in Hb'.
    apply lookup_insert_Some in Hb' as [[Heq <-]|[_ Hb']]; [|by eapply Hm].
    apply actor_key_inj in Heq; [|done..]. injection Heq as <- <-.
    destruct (Hm tag index b Haid Hb) as (sub' & leaf & Hd & Hsid & Hleaf & Hin).
    assert (sub' = sub) as -> by congruence. eexists _, leaf. rewrite decode_sub by done.
    split; [done|]. simpl. split; [done|]. split; [|done]. by rewrite <- Hsid.
  - intros Hn tag' index' Hs. unfold V'. rewrite lookup_insert_ne; [by apply Hsubs|].
    intros Heq. apply actor_key_inj in Heq; [|done..]. injection Heq as <- <-.
    by rewrite Hsubs in Hb.
  - intros L Hc. left. exists []. rewrite app_nil_r. by eapply committed_lookup.
Qed.

Lemma step_ok V V' did :
  wf_did did → ledger_step V V' → did_ok V did →
  (did_ok V' did ∨ sha256_collision) ∧ grows V V' did.
Proof.
  intros Hw Hstep Hok. destruct Hstep as
    [|op Hres|op Hop Hnone _ _|op prior Hop _ _ _ _|op prior Hop Hdoc _ _ _
    |op doc r leaf Hop Hnew _ _ Hrec _ Hleaf Hchk|op did' tag index sub doc r payload Hop Hid Hsub].
  - destruct (ok_unchanged V V did) as [? ?]; auto using unchanged_refl.
  - destruct (ok_unchanged V (op_effect op V) did) as [? ?]; auto using unchanged_kv.
  - destruct (Hop) as (Hw' & _). destruct (decide (did = did_id op)) as [->|Hne].
    + destruct (create_ok V op Hop Hnone Hok); auto.
    + edestruct (ok_unchanged V) as [? ?]; [exact Hw| |exact Hok|split; [by left|eassumption]].
      other_did.
  - destruct (Hop) as (Hw' & _). destruct (decide (did = did_id op)) as [->|Hne].
    + destruct (rotate_ok V op Hop Hok); auto.
    + edestruct (ok_unchanged V) as [? ?]; [exact Hw| |exact Hok|split; [by left|eassumption]].
      other_did.
  - destruct (Hop) as (Hw' & _). destruct (decide (did = did_id op)) as [->|Hne].
    + destruct (deactivate_ok V op Hop) as [? ?]; auto.
      unfold doc_of in Hdoc. by destruct (V !! did_key (did_id op)).
    + edestruct (ok_unchanged V) as [? ?]; [exact Hw| |exact Hok|split; [by left|eassumption]].
      other_did.
  - destruct (Hop) as (Hw' & Hi & _). destruct (decide (did = op_root_did op)) as [->|Hne].
    + destruct (mint_ok V op r leaf Hop Hnew Hrec Hleaf Hchk Hok) as [? Hg]. split; [done|].
      intros L Hc. destruct (Hg L Hc) as [?|?]; [left; by eexists|by right].
    + edestruct (ok_unchanged V) as [? ?]; [exact Hw| |exact Hok|split; [by left|eassumption]].
      assert (owned (op_root_did op) (actor_key (op_actor_id op))) by by apply own_sub.
      other_did.
  - destruct (Hop) as (Haid & _). rewrite Hid in *. assert (wf_did did') as Hw' by apply Haid.
    destruct (decide (did = did')) as [->|Hne].
    + unfold sub_of in Hsub. apply bind_Some in Hsub as (b & Hb & Hdec).
      destruct (rebind_ok V op did' tag index sub b Hop Hid Hb Hdec Hok); auto.
    + edestruct (ok_unchanged V) as [? ?]; [exact Hw| |exact Hok|split; [by left|eassumption]].
      assert (owned did' (actor_key (Sub did' tag index))) by by apply own_sub.
      other_did.
Qed.

Lemma steps_ok V V' did :
  wf_did did → rtc ledger_step V V' → did_ok V did →
  (did_ok V' did ∨ sha256_collision) ∧ grows V V' did.
Proof.
  intros Hw Hsteps. induction Hsteps as [V|V V1 V' Hstep _ IH]; intros Hok.
  { split; [by left|]. intros L Hc. left. exists []. by rewrite app_nil_r. }
  destruct (step_ok V V1 did Hw Hstep Hok) as [[Hok1|?] Hg1].
  - destruct (IH Hok1) as [Hok' Hg']. split; [done|]. intros L Hc.
    destruct (Hg1 L Hc) as [[L1 Hc1]|?]; [|by right].
    destruct (Hg' _ Hc1) as [[L2 Hc2]|?]; [|by right]. left. exists (L1 ++ L2). by rewrite (assoc_L (++)).
  - split; [by right|]. intros L _. by right.
Qed.

(** ** Deactivation is final *)

Lemma doc_of_put V op :
  wf_did_op op → doc_of (put_did V op) (did_id op) = Some (document op).
Proof.
  intros (_ & Hdoc & _). unfold doc_of, put_did. rewrite lookup_insert_eq. simpl.
  by apply decode_doc.
Qed.

Lemma step_frozen V V' did doc :
  wf_did did → ledger_step V V' → doc_of V did = Some doc → deactivated doc = true →
  unchanged did V V'.
Proof.
  intros Hw Hstep Hdoc Hd. destruct Hstep as
    [|op Hres|op Hop Hnone _ _|op prior Hop Hprior Hact _ _|op prior Hop Hprior Hact _ _
    |op doc' r leaf Hop _ Hdoc' Hact _ _ _ _|op did' tag index sub doc' r payload Hop Hid _ Hdoc' Hact _ _ _ _].
  - apply unchanged_refl.
  - by apply unchanged_kv.
  - destruct (Hop) as (Hw' & _). destruct (decide (did = did_id op)) as [->|Hne]; [|other_did].
    unfold doc_of in Hdoc. by rewrite Hnone in Hdoc.
  - destruct (Hop) as (Hw' & _). destruct (decide (did = did_id op)) as [->|Hne]; [congruence|other_did].
  - destruct (Hop) as (Hw' & _). destruct (decide (did = did_id op)) as [->|Hne]; [congruence|other_did].
  - destruct (Hop) as (Hw' & Hi & _).
    destruct (decide (did = op_root_did op)) as [->|Hne]; [congruence|].
    assert (owned (op_root_did op) (actor_key (op_actor_id op))) by by apply own_sub. other_did.
  - destruct (Hop) as (Haid & _). rewrite Hid in *. assert (wf_did did') as Hw' by apply Haid.
    destruct (decide (did = did')) as [->|Hne]; [congruence|].
    assert (owned did' (actor_key (Sub did' tag index))) by by apply own_sub. other_did.
Qed.

Lemma steps_frozen V V' did doc :
  wf_did did → rtc ledger_step V V' → doc_of V did = Some doc → deactivated doc = true →
  unchanged did V V'.
Proof.
  intros Hw Hsteps. induction Hsteps as [V|V V1 V' Hstep _ IH]; intros Hdoc Hd.
  { apply unchanged_refl. }
  pose proof (step_frozen V V1 did doc Hw Hstep Hdoc Hd) as Hu.
  assert (doc_of V1 did = Some doc) as Hdoc1.
  { unfold doc_of. by rewrite Hu by apply own_doc. }
  intros k Hk. rewrite (IH Hdoc1 Hd) by done. by apply Hu.
Qed.

(** ** Authorization *)

(** An existing document is replaced only by an operation its own signing method
    signed. *)
Lemma step_document V V' did prior :
  wf_did did → ledger_step V V' → doc_of V did = Some prior →
  V' !! did_key did = V !! did_key did ∨
  ∃ op, wf_did_op op ∧ did_id op = did ∧ deactivated prior = false ∧ did_signed prior op ∧
    V' !! did_key did = Some (Document.encode (document op)).
Proof.
  intros Hw Hstep Hdoc. destruct Hstep as
    [|op Hres|op Hop Hnone _ _|op p Hop Hp Hact Hsig _|op p Hop Hp Hact Hsig _
    |op doc' r leaf Hop _ _ _ _ _ _ _|op did' tag index sub doc' r payload Hop _ _ _ _ _ _ _ _].
  - by left.
  - left. by apply op_effect_reserved.
  - destruct (Hop) as (Hw' & _). left. rewrite lookup_insert_ne by apply actor_did_key.
    unfold put_did. destruct (decide (did = did_id op)) as [->|Hne].
    + unfold doc_of in Hdoc. by rewrite Hnone in Hdoc.
    + rewrite lookup_insert_ne; [done|]. intros Heq. by apply did_key_inj in Heq.
  - destruct (Hop) as (Hw' & _). rewrite lookup_insert_ne by apply actor_did_key.
    unfold put_did. destruct (decide (did = did_id op)) as [->|Hne].
    + right. exists op. rewrite lookup_insert_eq. assert (p = prior) as -> by congruence. done.
    + left. rewrite lookup_insert_ne; [done|]. intros Heq. by apply did_key_inj in Heq.
  - destruct (Hop) as (Hw' & _). unfold put_did. destruct (decide (did = did_id op)) as [->|Hne].
    + right. exists op. rewrite lookup_insert_eq. assert (p = prior) as -> by congruence. done.
    + left. rewrite lookup_insert_ne; [done|]. intros Heq. by apply did_key_inj in Heq.
  - left. by rewrite !lookup_insert_ne by apply actor_did_key.
  - left. by rewrite lookup_insert_ne by apply actor_did_key.
Qed.

(** A sub-actor record keeps its control key for ever, and its operating key
    changes only under the signatures of the new key and of the root control key. *)
Lemma step_sub_actor V V' id sub :
  wf_actor id → is_root id = false → ledger_step V V' → sub_of V id = Some sub → actor_id sub = id →
  ∃ sub', sub_of V' id = Some sub' ∧ actor_id sub' = id ∧
    sub_control_key sub' = sub_control_key sub ∧
    (operating_key sub' = operating_key sub ∨
     ∃ op payload did record, rebind_actor_id op = id ∧ new_operating_key op = operating_key sub' ∧
       RebindOps.signed_payload (E := unit) op (operating_key sub) = Ok payload ∧
       record_of V did = Some record ∧
       ed_verify (operating_key sub') payload (proof_of_possession op) = true ∧
       ed_verify (root_control_key record) payload (authorizing_signature op) = true).
Proof.
  intros Hw Hnr Hstep Hsub Hsid.
  assert (∀ V1, V1 !! actor_key id = V !! actor_key id → sub_of V1 id = Some sub) as Hsame.
  { intros V1 Heq. unfold sub_of in *. by rewrite Heq. }
  assert (∀ did, wf_did did → actor_key (Root did) ≠ actor_key id) as Hne_root.
  { intros did Hd Heq. apply actor_key_inj in Heq as <-; done. }
  destruct Hstep as
    [|op Hres|op Hop _ _ _|op p Hop _ _ _ _|op p Hop _ _ _ _
    |op doc' r leaf Hop Hnew _ _ _ _ _ _|op did tag index sub0 doc' r payload Hop Hid Hsub0 _ _ Hr Hp Hpop Hauth].
  - exists sub. auto.
  - exists sub. split; [|auto]. apply Hsame. by apply op_effect_reserved.
  - exists sub. split; [|auto]. apply Hsame. destruct (Hop) as (Hd & _).
    rewrite lookup_insert_ne by auto. by apply lookup_insert_ne, did_actor_key.
  - exists sub. split; [|auto]. apply Hsame. destruct (Hop) as (Hd & _).
    rewrite lookup_insert_ne by auto. by apply lookup_insert_ne, did_actor_key.
  - exists sub. split; [|auto]. apply Hsame. by apply lookup_insert_ne, did_actor_key.
  - exists sub. split; [|auto]. apply Hsame. destruct (Hop) as (Hd & Hi & _).
    rewrite lookup_insert_ne by auto. apply lookup_insert_ne. intros Heq.
    unfold sub_of in Hsub. by rewrite <- Heq, Hnew in Hsub.
  - destruct (decide (rebind_actor_id op = id)) as [Heq|Hne].
    + assert (sub0 = sub) as -> by congruence. destruct (Hop) as (_ & Hk & _).
      destruct (sub_of_wf _ _ _ Hsub) as (_ & _ & Hck & _).
      exists (mkSubActor id (sub_control_key sub) (new_operating_key op)). rewrite Heq.
      split; [|split; [done|]; split; [done|]; right; exists op, payload, did, r; by split_and!].
      unfold sub_of. rewrite lookup_insert_eq. simpl. by apply decode_sub.
    + exists sub. split; [|auto]. apply Hsame, lookup_insert_ne. intros Heq.
      apply actor_key_inj in Heq; [done|apply Hop|done].
Qed.
End facts.
