(* ===== verification/LedgerDemo.v ===== *)
(** * An example ledger

    A DID is created, mints a sub-actor, rebinds it and is deactivated, over
    the in-memory store and the polynomial checksum of [External]. *)

From S2P Require Import Prelude Codec External Primitives Membership Graph MerkleLog.
From S2P Require Import MerkleLogFacts SparseMerkle SparseMerkleFacts Did DidFacts Actor.
From S2P Require Import Op State Executor StateFacts Ledger.

#[local] Existing Instance toy_sha256.
#[local] Existing Instance toy_ed25519.
#[local] Existing Instance mem_fjall.

Definition or_nil {E} (r : res E bytes) : bytes := match r with Ok b => b | _ => [] end.

Definition a_did : DidId := mkDidId [byte_of_N 110] [byte_of_N 97] (be_bytes 16 1).
Definition key (n : N) : bytes := be_bytes 32 n.

Definition a_document (dead : bool) : DidDocument := mkDocument (key 1) [Signing (key 2)] dead.

Definition sign_did (op : DidOp) : DidOp :=
  mkDidOp (did_id op) (document op)
    (ed_sign (key 2) (or_nil (DidOps.signed_payload (E := unit) op))) (did_signed_by op) (is_creation op).

Definition create_op : DidOp := sign_did (mkDidOp a_did (a_document false) [] x00 true).
Definition deactivate_op : DidOp := sign_did (mkDidOp a_did (a_document true) [] x00 false).

Definition minted_leaf : Hash :=
  or_nil (subactor_leaf_hash (E := unit) (Sub a_did Game 0) (key 3)).

Definition mint_op : SubActorOp :=
  let op sig := mkSubActorOp a_did Game 0 (key 3) (key 4) (mth [minted_leaf])
    (mkConsistencyProof 0 1 []) (mkInclusionProof 0 1 []) sig x00 in
  op (ed_sign (key 2) (or_nil (SubActorOps.signed_payload (E := unit) (op [])))).

Definition rebind_op : RebindOp :=
  let op p a := mkRebindOp (Sub a_did Game 0) (key 5) p a in
  let sp := or_nil (RebindOps.signed_payload (E := unit) (op [] []) (key 4)) in
  op (ed_sign (key 5) sp) (ed_sign (key 1) sp).

Definition tx_did (op : DidOp) : Transaction := OP_DID :: or_nil (DidOps.encode (E := unit) op).
Definition tx_mint : Transaction := OP_SUB_ACTOR :: or_nil (SubActorOps.encode (E := unit) mint_op).
Definition tx_rebind : Transaction := OP_REBIND :: or_nil (RebindOps.encode (E := unit) rebind_op).
Definition tx_put : Transaction :=
  or_nil (Ops.encode (E := unit) (Put [byte_of_N 107] [byte_of_N 118])).

Definition block (txs : list Transaction) : Event :=
  {| ev_unsigned := {| ue_creator := 1; ue_self_parent := None; ue_other_parent := None;
                       ue_timestamp := 0; ue_payload := txs |};
     ev_signature := [] |}.

Definition empty_state : State := new_state (∅ : @keyspace mem_fjall).

(** The state after a block of transactions. *)
Definition after (txs : list Transaction) (s : State) : State := (execute_event (block txs) s).2.
