(* ===== verification/LedgerProps.v ===== *)
(** * What the executor guarantees

    The state machine of [executor/state/src/executor.rs] over the
    authenticated store of [state.rs]: every transaction is one step of the
    abstract ledger of [Ledger], and the ledger's invariants carry over to
    every sequence of executed events. *)

From S2P Require Import Prelude Codec External Primitives Membership Graph MerkleLog.
From S2P Require Import MerkleLogFacts SparseMerkle SparseMerkleFacts Did DidFacts Actor.
From S2P Require Import Op State Executor StateFacts Ledger LedgerFacts ExecutorFacts.
From S2P Require Import LedgerDemo LogProps.

#[local] Existing Instance toy_sha256.
#[local] Existing Instance toy_ed25519.
#[local] Existing Instance mem_fjall.

Section props.
Context `{Sha256} `{Ed25519} `{F : Fjall} `{!Reliable F}.


(** executing an event keeps the Merkle tree committed to the stored
    entries, so that afterwards the inclusion proof of every stored key
    verifies against the state root. *)
Theorem execute_event_committed {E} e s r s' k v :
  state_ok s → execute_event e s = (Ok r, s') → view s' !! k = Some v →
  (state_ok s' ∧ ∃ p, proof s' k = Some p ∧ proof_key p = k ∧ proof_value p = v ∧
     verify_proof (E := E) p (root s') = Ok true) ∨ sha256_collision.
Proof.
  intros Hs He Hk. destruct (execute_txs_in_step _ _ _ _ _ He Hs) as [Hs'|?]; [left|by right].
  split; [done|]. by apply proof_verifies.
Qed.

(** [DidId::parse] inverts [Display], and the binary form of every
    identifier decodes to it. *)
Theorem did_roundtrip {E} id :
  wf_did id →
  Did.parse (Did.display id) = Ok id ∧
  ∃ w, Did.encode (E := E) id = Ok w ∧ ∀ rest, Did.decode (w ++ rest) = (Ok id, rest).
Proof.
  intros Hid. split; [by apply parse_display|].
  destruct (did_encode_total (E := E) id Hid) as [w Hw].
  exists w. split; [done|]. by apply (decodes_did (E := E)).
Qed.

(** the three signed operations round-trip through their encodings, a
    decoded operation is always well formed, and their decoders never panic,
    whatever the bytes. *)
Theorem signed_ops_roundtrip {E} dop sop rop bs :
  wf_did_op dop → wf_sub_op sop → wf_rebind_op rop →
  (∃ w, DidOps.encode (E := E) dop = Ok w ∧ DidOps.decode w = Ok dop) ∧
  (∃ w, SubActorOps.encode (E := E) sop = Ok w ∧ SubActorOps.decode w = Ok sop) ∧
  (∃ w, RebindOps.encode (E := E) rop = Ok w ∧ RebindOps.decode w = Ok rop) ∧
  (∀ op, DidOps.decode bs = Ok op → wf_did_op op) ∧
  (∀ op, SubActorOps.decode bs = Ok op → wf_sub_op op) ∧
  (∀ op, RebindOps.decode bs = Ok op → wf_rebind_op op) ∧
  no_crash (DidOps.decode bs) ∧ no_crash (SubActorOps.decode bs) ∧ no_crash (RebindOps.decode bs).
Proof.
  intros Hd Hs Hr. split_and!.
  - by apply decode_encode_did_op.
  - by apply decode_encode_sub_op.
  - by apply decode_encode_rebind_op.
  - apply decode_did_op_wf.
  - apply decode_sub_op_wf.
  - apply decode_rebind_op_wf.
  - apply decode_did_op_no_crash.
  - apply total_sub_op.
  - apply total_rebind_op.
Qed.






(** [execute_event_with_diffs] computes what [execute_event] computes:
    the same result, error or panic and the same final state, and on success
    its diffs are exactly the change of the store. *)
Theorem with_diffs_faithful e s D r p :
  (execute_event_with_diffs e (s, D)).1 = (execute_event e s).1 ∧
  (execute_event_with_diffs e (s, D)).2.1 = (execute_event e s).2 ∧
  (execute_event_with_diffs e (s, ∅) = (Ok r, p) → tracks p.2 (view s) (view p.1)).
Proof.
  split_and!.
  - apply with_diffs_same.
  - apply with_diffs_same.
  - intros He. eapply with_diffs_tracks; [exact He|]. apply tracks_empty.
Qed.
End props.

(** ** Instances *)

Definition is_ok {E A} (r : res E A) : bool := match r with Ok _ => true | _ => false end.


Definition outcome (r : res (@StateDbError mem_fjall) ExecuteResult) : ExecuteResult :=
  match r with Ok a => a | _ => no_result end.

Lemma executed txs s :
  is_ok (execute_event (block txs) s).1 = true →
  execute_event (block txs) s = (Ok (outcome (execute_event (block txs) s).1), after txs s).
Proof. unfold after. by destruct (execute_event (block txs) s) as [[] ?]; simpl. Qed.


Lemma lookup_by_run (o : option bytes) (v : bytes) : bool_decide (o = Some v) = true → o = Some v.
Proof. apply bool_decide_eq_true_1. Qed.

Lemma a_did_wf : wf_did a_did.
Proof. by split_and!. Qed.

Lemma wf_key_demo n : wf_key (key n).
Proof. split; [apply length_be_bytes|done]. Qed.





Lemma put_executes : is_ok (execute_event (block [tx_put]) empty_state).1 = true.
Proof. vm_compute. reflexivity. Qed.

Lemma put_stored : view (after [tx_put] empty_state) !! a_key = Some a_value.
Proof. apply lookup_by_run. vm_compute. reflexivity. Qed.

Lemma execute_event_committed_witness :
  (state_ok (after [tx_put] empty_state) ∧ ∃ p, proof (after [tx_put] empty_state) a_key = Some p ∧
     proof_key p = a_key ∧ proof_value p = a_value ∧
     verify_proof (E := unit) p (root (after [tx_put] empty_state)) = Ok true) ∨ sha256_collision.
Proof.
  exact (execute_event_committed (E := unit) (block [tx_put]) empty_state _ (after [tx_put] empty_state)
    a_key a_value (new_state_ok (∅ : @keyspace mem_fjall) eq_refl) (executed _ _ put_executes) put_stored).
Defined.

Lemma did_roundtrip_witness : Did.parse (Did.display a_did) = Ok a_did.
Proof. exact (proj1 (did_roundtrip (E := unit) a_did a_did_wf)). Defined.

Lemma signed_ops_roundtrip_witness :
  ∃ w, SubActorOps.encode (E := unit) mint_op = Ok w ∧ SubActorOps.decode w = Ok mint_op.
Proof.
  destruct (signed_ops_roundtrip (E := unit) create_op mint_op rebind_op []) as (_ & Hmint & _);
    [| | |exact Hmint].
  - split_and!; [apply a_did_wf| |reflexivity].
    split_and!; [apply wf_key_demo|repeat constructor|..]; [done..|simpl; lia|simpl; unfold MAX_VERIFICATION_METHODS; lia|done].
  - split_and!; [apply a_did_wf|done|apply wf_key_demo|apply wf_key_demo|apply length_be_bytes|..|done];
      split_and!; (done || (split; [constructor|done])).
  - split_and!; [split; [apply a_did_wf|done]|apply wf_key_demo|done..].
Defined.
















