(* ===== verification/Node.v ===== *)
(** * The gossip node

    [gossip/src/node.rs]: the state of a node and the handlers that change it.
    The tables of a [GossipNode] sit behind locks of their own; here they are
    fields of one record and a handler runs to its end before the next starts.
    Metrics, log messages and the notifications for tests are left out.  The
    executor and the state database write to the same keyspace, which is
    therefore one field ([ls_db]) with the Merkle tree beside it.  A call of a
    registered sink is appended to [nd_calls].  A storage error that a handler
    logs and drops is [None]; a panic is [Crash]. *)

From S2P Require Import Prelude Codec External Primitives Membership Graph Ancestry Order Insert Retain Reconnect.
From S2P Require Import Checkpoint Proto Frontier Sync MerkleLog SparseMerkle Did Op State Executor.

(** ** Peers ([peer.rs], [peer_manager.rs]) *)

Record PeerInfo := {
  pi_node_id : NodeId;
  pi_addr : SocketAddr;
  pi_reconnect_addr : option SocketAddr;
  pi_fingerprint : bytes;
}.

Definition SPKI_HEADER : bytes := [x30; x2a; x30; x05; x06; x03; x2b; x65; x70; x03; x21; x00].

Definition spki_fingerprint_of `{Sha256} (key : bytes) : bytes := sha256 (SPKI_HEADER ++ key).

Definition add_peer_from_key `{Sha256} (node_id : NodeId) (key : bytes) (addr : SocketAddr)
    (reconnect_addr : option SocketAddr) (peers : list PeerInfo) : list PeerInfo :=
  if decide (node_id ∈ pi_node_id <$> peers) then peers
  else peers ++ [{| pi_node_id := node_id; pi_addr := addr; pi_reconnect_addr := reconnect_addr;
                    pi_fingerprint := spki_fingerprint_of key |}].

(** ** State *)

Inductive SinkKind := EventSink | StreamSink | CheckpointSink | RecordSink | ProofSink.

#[export] Instance sink_kind_eq_dec : EqDecision SinkKind.
Proof. solve_decision. Defined.

Inductive SinkCall :=
| Append (record : RetainedEvent)
| SetOrdering (hash : EventHash) (rr : N) (ts : option Timestamp)
| SetRosterHistory (bs : bytes)
| Prune (hashes : list EventHash)
| Flush
| PersistCheckpoint (checkpoint : SignedCheckpoint)
| PersistRecord (checkpoint : SignedCheckpoint) (diffs : list StateDiff).

(** What is fixed when the node starts; [proof_is_record] is the pointer
    equality of the record and proof writers. *)
Record NodeConfig := {
  node_id : NodeId;
  signing_key : bytes;
  bls_secret : bytes;
  sync_config : SyncConfig;
  sinks : list SinkKind;
  proof_is_record : bool;
}.

Record GossipState := {
  gs_hashgraph : Hashgraph;
  gs_registry : MembershipRegistry;
  gs_peers : list PeerInfo;
  gs_dedup : gmap NodeId DedupState;
  gs_transactions : list bytes;
  gs_last_timestamp : N;
  gs_needs_reconnect : bool;
  gs_needs_checkpoint_sync : bool;
}.

Record ActivationState := {
  act_pending : gmap N (list MembershipOp);
  act_processed_through_round : N;
  act_checkpoint_watermark : N;
}.

Record LedgerState `{Fjall} := {
  ls_db : StateDb;
  ls_tree : SparseMerkleTree;
  ls_executed : gset EventHash;
  ls_activation : ActivationState;
}.

Record CheckpointState := {
  cs_accumulators : gmap N CheckpointAccumulator;
  cs_diffs : gmap N (list StateDiff);
  cs_signed : list SignedCheckpoint;
  cs_snapshots : gmap N bytes;
  cs_outbound : list CheckpointSig;
  cs_pending_sigs : gmap N (list CheckpointSig);
  cs_state_hashes : gmap N bytes;
}.

Record GossipNode `{Fjall} := {
  nd_config : NodeConfig;
  nd_gossip : GossipState;
  nd_ledger : LedgerState;
  nd_checkpoints : CheckpointState;
  nd_calls : list (SinkKind * SinkCall);
}.

(** Writing one field of a part. *)
Module Gs.
Definition hashgraph (v : Hashgraph) (s : GossipState) : GossipState :=
  {| gs_hashgraph := v; gs_registry := gs_registry s; gs_peers := gs_peers s; gs_dedup := gs_dedup s;
     gs_transactions := gs_transactions s; gs_last_timestamp := gs_last_timestamp s;
     gs_needs_reconnect := gs_needs_reconnect s; gs_needs_checkpoint_sync := gs_needs_checkpoint_sync s |}.
Definition registry (v : MembershipRegistry) (s : GossipState) : GossipState :=
  {| gs_hashgraph := gs_hashgraph s; gs_registry := v; gs_peers := gs_peers s; gs_dedup := gs_dedup s;
     gs_transactions := gs_transactions s; gs_last_timestamp := gs_last_timestamp s;
     gs_needs_reconnect := gs_needs_reconnect s; gs_needs_checkpoint_sync := gs_needs_checkpoint_sync s |}.
Definition peers (v : list PeerInfo) (s : GossipState) : GossipState :=
  {| gs_hashgraph := gs_hashgraph s; gs_registry := gs_registry s; gs_peers := v; gs_dedup := gs_dedup s;
     gs_transactions := gs_transactions s; gs_last_timestamp := gs_last_timestamp s;
     gs_needs_reconnect := gs_needs_reconnect s; gs_needs_checkpoint_sync := gs_needs_checkpoint_sync s |}.
Definition dedup (v : gmap NodeId DedupState) (s : GossipState) : GossipState :=
  {| gs_hashgraph := gs_hashgraph s; gs_registry := gs_registry s; gs_peers := gs_peers s; gs_dedup := v;
     gs_transactions := gs_transactions s; gs_last_timestamp := gs_last_timestamp s;
     gs_needs_reconnect := gs_needs_reconnect s; gs_needs_checkpoint_sync := gs_needs_checkpoint_sync s |}.
Definition transactions (v : list bytes) (s : GossipState) : GossipState :=
  {| gs_hashgraph := gs_hashgraph s; gs_registry := gs_registry s; gs_peers := gs_peers s;
     gs_dedup := gs_dedup s; gs_transactions := v; gs_last_timestamp := gs_last_timestamp s;
     gs_needs_reconnect := gs_needs_reconnect s; gs_needs_checkpoint_sync := gs_needs_checkpoint_sync s |}.
Definition last_timestamp (v : N) (s : GossipState) : GossipState :=
  {| gs_hashgraph := gs_hashgraph s; gs_registry := gs_registry s; gs_peers := gs_peers s;
     gs_dedup := gs_dedup s; gs_transactions := gs_transactions s; gs_last_timestamp := v;
     gs_needs_reconnect := gs_needs_reconnect s; gs_needs_checkpoint_sync := gs_needs_checkpoint_sync s |}.
Definition needs_reconnect (v : bool) (s : GossipState) : GossipState :=
  {| gs_hashgraph := gs_hashgraph s; gs_registry := gs_registry s; gs_peers := gs_peers s;
     gs_dedup := gs_dedup s; gs_transactions := gs_transactions s; gs_last_timestamp := gs_last_timestamp s;
     gs_needs_reconnect := v; gs_needs_checkpoint_sync := gs_needs_checkpoint_sync s |}.
Definition needs_checkpoint_sync (v : bool) (s : GossipState) : GossipState :=
  {| gs_hashgraph := gs_hashgraph s; gs_registry := gs_registry s; gs_peers := gs_peers s;
     gs_dedup := gs_dedup s; gs_transactions := gs_transactions s; gs_last_timestamp := gs_last_timestamp s;
     gs_needs_reconnect := gs_needs_reconnect s; gs_needs_checkpoint_sync := v |}.
End Gs.

Module Cs.
Definition accumulators (v : gmap N CheckpointAccumulator) (s : CheckpointState) : CheckpointState :=
  {| cs_accumulators := v; cs_diffs := cs_diffs s; cs_signed := cs_signed s; cs_snapshots := cs_snapshots s;
     cs_outbound := cs_outbound s; cs_pending_sigs := cs_pending_sigs s; cs_state_hashes := cs_state_hashes s |}.
Definition diffs (v : gmap N (list StateDiff)) (s : CheckpointState) : CheckpointState :=
  {| cs_accumulators := cs_accumulators s; cs_diffs := v; cs_signed := cs_signed s;
     cs_snapshots := cs_snapshots s; cs_outbound := cs_outbound s; cs_pending_sigs := cs_pending_sigs s;
     cs_state_hashes := cs_state_hashes s |}.
Definition signed (v : list SignedCheckpoint) (s : CheckpointState) : CheckpointState :=
  {| cs_accumulators := cs_accumulators s; cs_diffs := cs_diffs s; cs_signed := v;
     cs_snapshots := cs_snapshots s; cs_outbound := cs_outbound s; cs_pending_sigs := cs_pending_sigs s;
     cs_state_hashes := cs_state_hashes s |}.
Definition snapshots (v : gmap N bytes) (s : CheckpointState) : CheckpointState :=
  {| cs_accumulators := cs_accumulators s; cs_diffs := cs_diffs s; cs_signed := cs_signed s; cs_snapshots := v;
     cs_outbound := cs_outbound s; cs_pending_sigs := cs_pending_sigs s; cs_state_hashes := cs_state_hashes s |}.
Definition outbound (v : list CheckpointSig) (s : CheckpointState) : CheckpointState :=
  {| cs_accumulators := cs_accumulators s; cs_diffs := cs_diffs s; cs_signed := cs_signed s;
     cs_snapshots := cs_snapshots s; cs_outbound := v; cs_pending_sigs := cs_pending_sigs s;
     cs_state_hashes := cs_state_hashes s |}.
Definition pending_sigs (v : gmap N (list CheckpointSig)) (s : CheckpointState) : CheckpointState :=
  {| cs_accumulators := cs_accumulators s; cs_diffs := cs_diffs s; cs_signed := cs_signed s;
     cs_snapshots := cs_snapshots s; cs_outbound := cs_outbound s; cs_pending_sigs := v;
     cs_state_hashes := cs_state_hashes s |}.
Definition state_hashes (v : gmap N bytes) (s : CheckpointState) : CheckpointState :=
  {| cs_accumulators := cs_accumulators s; cs_diffs := cs_diffs s; cs_signed := cs_signed s;
     cs_snapshots := cs_snapshots s; cs_outbound := cs_outbound s; cs_pending_sigs := cs_pending_sigs s;
     cs_state_hashes := v |}.
End Cs.

(** [GossipNode::new_with_bls] on an opened database. *)
Definition new_node `{Sha256} `{F : Fjall} (cfg : NodeConfig) (registry : MembershipRegistry) (peers : list PeerInfo)
    (db : StateDb) : GossipNode :=
  {| nd_config := cfg;
     nd_gossip :=
       {| gs_hashgraph := Graph.new registry; gs_registry := registry;
          gs_peers := filter (λ p, pi_node_id p ≠ node_id cfg) peers; gs_dedup := ∅; gs_transactions := [];
          gs_last_timestamp := 0; gs_needs_reconnect := false; gs_needs_checkpoint_sync := false |};
     nd_ledger :=
       {| ls_db := db; ls_tree := new_tree; ls_executed := ∅;
          ls_activation := {| act_pending := ∅; act_processed_through_round := 0; act_checkpoint_watermark := 0 |} |};
     nd_checkpoints :=
       {| cs_accumulators := ∅; cs_diffs := ∅; cs_signed := []; cs_snapshots := ∅; cs_outbound := [];
          cs_pending_sigs := ∅; cs_state_hashes := {[ 0%N := tree_root new_tree ]} |};
     nd_calls := [] |}.

(** [m] with an error as a panic, for calls whose error type is empty or
    whose error is an [expect]. *)
Definition or_panic {E F A} (m : res E A) : res F A :=
  match m with Ok a => Ok a | Err _ => Crash Panicked | Crash c => Crash c end.

Section node.
Context `{Sha256, Ed25519, Bls, HashOrder} `{F : Fjall}.

Abbreviation node_action := (stM GossipNode Empty_set).

Definition set_gossip (v : GossipState) (nd : GossipNode) : GossipNode :=
  {| nd_config := nd_config nd; nd_gossip := v; nd_ledger := nd_ledger nd;
     nd_checkpoints := nd_checkpoints nd; nd_calls := nd_calls nd |}.
Definition set_ledger (v : LedgerState) (nd : GossipNode) : GossipNode :=
  {| nd_config := nd_config nd; nd_gossip := nd_gossip nd; nd_ledger := v;
     nd_checkpoints := nd_checkpoints nd; nd_calls := nd_calls nd |}.
Definition set_checkpoints (v : CheckpointState) (nd : GossipNode) : GossipNode :=
  {| nd_config := nd_config nd; nd_gossip := nd_gossip nd; nd_ledger := nd_ledger nd;
     nd_checkpoints := v; nd_calls := nd_calls nd |}.
Definition set_calls (v : list (SinkKind * SinkCall)) (nd : GossipNode) : GossipNode :=
  {| nd_config := nd_config nd; nd_gossip := nd_gossip nd; nd_ledger := nd_ledger nd;
     nd_checkpoints := nd_checkpoints nd; nd_calls := v |}.

Definition hashgraph (nd : GossipNode) : Hashgraph := gs_hashgraph (nd_gossip nd).
Definition own_id (nd : GossipNode) : NodeId := node_id (nd_config nd).
Definition with_gossip (f : GossipState → GossipState) : node_action unit :=
  st_modify (λ nd, set_gossip (f (nd_gossip nd)) nd).
Definition with_checkpoints (f : CheckpointState → CheckpointState) : node_action unit :=
  st_modify (λ nd, set_checkpoints (f (nd_checkpoints nd)) nd).

(** An operation on the hashgraph, and one on the database. *)
Definition on_hashgraph {E A} (m : stM Hashgraph E A) : stM GossipNode E A :=
  st_zoom hashgraph (λ hg nd, set_gossip (Gs.hashgraph hg (nd_gossip nd)) nd) m.

Definition set_db (db : StateDb) (nd : GossipNode) : GossipNode :=
  set_ledger {| ls_db := db; ls_tree := ls_tree (nd_ledger nd); ls_executed := ls_executed (nd_ledger nd);
                ls_activation := ls_activation (nd_ledger nd) |} nd.
Definition set_activation (v : ActivationState) (nd : GossipNode) : GossipNode :=
  set_ledger {| ls_db := ls_db (nd_ledger nd); ls_tree := ls_tree (nd_ledger nd);
                ls_executed := ls_executed (nd_ledger nd); ls_activation := v |} nd.

Definition on_db {A} (m : stM StateDb StateDbError A) : node_action (option A) :=
  st_zoom (λ nd, ls_db (nd_ledger nd)) set_db (logged m).

(** [if let Some(sink) = &self.sink { sink.call(..) }]. *)
Definition sink_call (kind : SinkKind) (c : SinkCall) : node_action unit :=
  st_modify (λ nd, if decide (kind ∈ sinks (nd_config nd)) then set_calls (nd_calls nd ++ [(kind, c)]) nd else nd).

(** ** Submitted transactions *)

Definition TX_PER_SYNC : nat := 64.
Definition MAX_PENDING_TRANSACTIONS : nat := 1024.

Definition submit_transaction (payload : bytes) : node_action bool :=
  nd ← st_get;
  let pending := gs_transactions (nd_gossip nd) in
  if decide (MAX_PENDING_TRANSACTIONS ≤ length pending) then mret false else
  with_gossip (Gs.transactions (pending ++ [payload])) ;; mret true.

Definition drain_pending_transactions : node_action (list Transaction) :=
  nd ← st_get;
  let pending := gs_transactions (nd_gossip nd) in
  with_gossip (Gs.transactions (drop TX_PER_SYNC pending)) ;; mret (take TX_PER_SYNC pending).

(** The loop over [txs.iter().rev()], which pushes to the front while there
    is room. *)
Definition requeue (txs pending : list bytes) : list bytes :=
  foldl (λ pending tx, if decide (MAX_PENDING_TRANSACTIONS ≤ length pending) then pending else tx :: pending)
    pending (reverse txs).

Definition requeue_pending_transactions (txs : list Transaction) : node_action unit :=
  with_gossip (λ gs, Gs.transactions (requeue txs (gs_transactions gs)) gs).

(** [next_timestamp]; a clock before the epoch reads 0. *)
Definition next_timestamp (clock_millis : N) : node_action Timestamp := λ nd,
  let '(r, last) := next_timestamp_with_clock clock_millis (gs_last_timestamp (nd_gossip nd)) in
  (or_panic r, set_gossip (Gs.last_timestamp last (nd_gossip nd)) nd).

(** ** The durable log of inserted events *)

Definition MAX_SYNC_EVENT_COUNT : nat := 4096.

Definition unordered_record (r : EventRecord) : RetainedEvent :=
  {| re_event := rec_event r; re_seq := rec_seq r; re_round := rec_round r;
     re_ancestor_seqs := rec_ancestor_seqs r; re_round_received := None; re_consensus_timestamp := None |}.

Definition log_fresh_inserts (fresh : list EventHash) : node_action unit :=
  nd ← st_get;
  st_for (omap (λ h, unordered_record <$> Graph.get (hashgraph nd) h) (take MAX_SYNC_EVENT_COUNT fresh))
    (λ retained, sink_call EventSink (Append retained) ;; sink_call StreamSink (Append retained)).

(** ** Accepting a checkpoint *)

Definition MAX_PENDING_SIGS_PER_ROUND : nat := 64.
Definition CHECKPOINT_LAG_ROUNDS : N := 16.
Definition SNAPSHOT_RETENTION_ROUNDS : N := 2.

Definition round_le (a b : SignedCheckpoint) : Prop := (cp_round (sc_payload a) ≤ cp_round (sc_payload b))%N.
#[global] Instance round_le_dec : RelDecision round_le.
Proof. intros a b. unfold round_le. apply _. Defined.

(** [signed_checkpoints.last().map(|c| c.payload.round)]. *)
Definition latest_accepted_checkpoint_round (nd : GossipNode) : option N :=
  (λ sc, cp_round (sc_payload sc)) <$> last (cs_signed (nd_checkpoints nd)).
Definition accepted_watermark (nd : GossipNode) : N := default 0%N (latest_accepted_checkpoint_round nd).

(** The tables after the acceptance of [accepted] at [round]. *)
Definition record_accepted (accepted : SignedCheckpoint) (round : N) (snapshot : bytes) (cs : CheckpointState) :
    CheckpointState :=
  let keep := (round - SNAPSHOT_RETENTION_ROUNDS)%N in
  {| cs_accumulators := cs_accumulators cs;
     cs_diffs := filter (λ e, (round < e.1)%N) (cs_diffs cs);
     cs_signed := merge_sort round_le (cs_signed cs ++ [accepted]);
     cs_snapshots := filter (λ e, (keep ≤ e.1)%N) (<[round := snapshot]> (cs_snapshots cs));
     cs_outbound := filter (λ s, (round < sig_round s)%N) (cs_outbound cs);
     cs_pending_sigs := filter (λ e, (round < e.1)%N) (cs_pending_sigs cs);
     cs_state_hashes := filter (λ e, e.1 = 0%N ∨ (keep ≤ e.1)%N) (cs_state_hashes cs) |}.

Definition accept_checkpoint (accepted : SignedCheckpoint) (snapshot : bytes) (diffs : list StateDiff) :
    node_action unit :=
  let round := cp_round (sc_payload accepted) in
  root ← st_lift (λ _, match root_of_bytes snapshot with
                       | Ok r => Ok (Some r) | Err _ => Ok None | Crash c => Crash c end);
  if decide (root ≠ Some (state_hash (sc_payload accepted))) then mret tt else
  nd ← st_get;
  marked ← on_db (Db.set_watermark (gs_last_timestamp (nd_gossip nd)));
  if decide (marked = None) then mret tt else
  saved ← on_db (Db.snapshot_and_flush round snapshot);
  if decide (saved = None) then mret tt else
  sink_call CheckpointSink (PersistCheckpoint accepted) ;;
  sink_call RecordSink (PersistRecord accepted diffs) ;;
  (if proof_is_record (nd_config nd) then mret tt else sink_call ProofSink (PersistRecord accepted diffs)) ;;
  with_checkpoints (record_accepted accepted round snapshot) ;;
  _ ← on_db (Db.prune_snapshots_before (round - SNAPSHOT_RETENTION_ROUNDS));
  r ← on_hashgraph (logged (prune_before_round (round - RETENTION_ROUNDS)));
  match r with
  | Some pruned => sink_call EventSink (Prune pruned) ;; sink_call EventSink Flush
  | None => st_lift (λ _, Crash Panicked)
  end ;;
  sink_call StreamSink Flush ;;
  _ ← on_db Db.flush;
  mret tt.

(** ** Collecting signatures *)

Definition registry_at (round : N) : node_action MembershipRegistry :=
  st_lift (λ nd, or_panic (registry_at_round (hashgraph nd) round)).

Definition is_pending_sig_admissible (s : CheckpointSig) : node_action bool :=
  roster ← registry_at (sig_round s); mret (Registry.contains roster (sig_signer s)).

Definition buffer_sig (s : CheckpointSig) (pending : gmap N (list CheckpointSig)) : gmap N (list CheckpointSig) :=
  let entry := default [] (pending !! sig_round s) in
  <[sig_round s :=
      if decide (sig_signer s ∈ sig_signer <$> entry ∨ MAX_PENDING_SIGS_PER_ROUND ≤ length entry)
      then entry else entry ++ [s]]> pending.

Definition buffer_pending_sig (s : CheckpointSig) : node_action unit :=
  with_checkpoints (λ cs, Cs.pending_sigs (buffer_sig s (cs_pending_sigs cs)) cs).

Definition set_accumulator (round : N) (acc : option CheckpointAccumulator) : node_action unit :=
  with_checkpoints (λ cs, Cs.accumulators
    (match acc with Some a => <[round := a]> (cs_accumulators cs) | None => delete round (cs_accumulators cs) end) cs).

Definition feed_checkpoint_sig (s : CheckpointSig) : node_action unit :=
  nd ← st_get;
  if decide (sig_round s ≤ accepted_watermark nd)%N then mret tt else
  admissible ← is_pending_sig_admissible s;
  if negb admissible then mret tt else
  match cs_accumulators (nd_checkpoints nd) !! sig_round s with
  | None => buffer_pending_sig s
  | Some acc =>
      roster ← registry_at (sig_round s);
      if negb (verify_checkpoint_sig s (Payload.signing_bytes (acc_payload acc)) roster) then mret tt else
      match Accumulator.add_sig s roster acc with
      | (Some accepted, acc) =>
          set_accumulator (sig_round s) None ;; accept_checkpoint accepted (acc_snapshot acc) []
      | (None, acc) => set_accumulator (sig_round s) (Some acc)
      end
  end.

Definition submit_checkpoint_sig (s : CheckpointSig) : node_action unit :=
  nd ← st_get;
  if decide (sig_round s ≤ accepted_watermark nd)%N then mret tt else
  admissible ← is_pending_sig_admissible s;
  if negb admissible then mret tt else
  if is_round_decided (hashgraph nd) (sig_round s) then feed_checkpoint_sig s else buffer_pending_sig s.

(** ** Adopting an aggregate of the peers *)

Definition adopt_signed_checkpoint (checkpoint : SignedCheckpoint) : node_action bool :=
  let round := cp_round (sc_payload checkpoint) in
  nd ← st_get;
  if decide (round ≤ accepted_watermark nd)%N then mret false else
  if decide (highest_decided_round (hashgraph nd) < round)%N then mret false else
  match cs_accumulators (nd_checkpoints nd) !! round with
  | None => mret false
  | Some acc =>
      if decide (Payload.signing_bytes (sc_payload checkpoint) ≠ Payload.signing_bytes (acc_payload acc))
      then mret false else
      if negb (verify checkpoint) then mret false else
      set_accumulator round None ;;
      let diffs := default [] (cs_diffs (nd_checkpoints nd) !! round) in
      with_checkpoints (λ cs, Cs.diffs (delete round (cs_diffs cs)) cs) ;;
      accept_checkpoint checkpoint (acc_snapshot acc) diffs ;;
      nd ← st_get;
      mret match latest_accepted_checkpoint_round nd with Some r => (round <=? r)%N | None => false end
  end.

Definition arm_checkpoint_lag_reconnect : node_action unit :=
  nd ← st_get;
  if decide (CHECKPOINT_LAG_ROUNDS < highest_decided_round (hashgraph nd) - accepted_watermark nd)%N
  then with_gossip (Gs.needs_checkpoint_sync true) else mret tt.

(** ** Producing checkpoints *)

(** The signatures that arrived early, until one completes a quorum. *)
Fixpoint flush_pending (pending : list CheckpointSig) (roster : MembershipRegistry)
    (accepted : option SignedCheckpoint) (acc : CheckpointAccumulator) :
    option SignedCheckpoint * CheckpointAccumulator :=
  match pending, accepted with
  | s :: pending, None =>
      if verify_checkpoint_sig s (Payload.signing_bytes (acc_payload acc)) roster
      then let '(accepted, acc) := Accumulator.add_sig s roster acc in flush_pending pending roster accepted acc
      else flush_pending pending roster None acc
  | _, _ => (accepted, acc)
  end.

Definition produce_checkpoint (round : N) (state_hashes snapshots : gmap N bytes)
    (diffs : gmap N (list StateDiff)) : node_action unit :=
  match snd <$> bt_last N.le (λ r, (r ≤ round)%N) snapshots with
  | None => mret tt
  | Some snapshot_bytes =>
      let diffs_for_round := default [] (diffs !! round) in
      with_checkpoints (λ cs, Cs.diffs (<[round := diffs_for_round]> (cs_diffs cs)) cs) ;;
      nd ← st_get;
      match canonical_checkpoint_payload_chained (hashgraph nd) round state_hashes
              (cs_signed (nd_checkpoints nd)) with
      | Crash c => st_lift (λ _, Crash c)
      | Err _ => mret tt
      | Ok payload =>
          let own_sig := {| sig_round := round; sig_signer := own_id nd;
                            sig_bls := BlsWrapper.sign (bls_secret (nd_config nd)) (Payload.signing_bytes payload) |} in
          with_checkpoints (λ cs, Cs.outbound (cs_outbound cs ++ [own_sig]) cs) ;;
          roster ← registry_at round;
          let pending := default [] (cs_pending_sigs (nd_checkpoints nd) !! round) in
          with_checkpoints (λ cs, Cs.pending_sigs (delete round (cs_pending_sigs cs)) cs) ;;
          let acc := default (Accumulator.new payload snapshot_bytes) (cs_accumulators (nd_checkpoints nd) !! round) in
          let '(accepted, acc) := Accumulator.add_sig own_sig roster acc in
          match flush_pending pending roster accepted acc with
          | (Some accepted, acc) =>
              set_accumulator round None ;; accept_checkpoint accepted (acc_snapshot acc) diffs_for_round
          | (None, acc) => set_accumulator round (Some acc)
          end
      end
  end.

Definition set_checkpoint_watermark (round : N) : node_action unit := st_modify (λ nd,
  set_activation {| act_pending := act_pending (ls_activation (nd_ledger nd));
                    act_processed_through_round := act_processed_through_round (ls_activation (nd_ledger nd));
                    act_checkpoint_watermark := round |} nd).

(** [loop { .. if !decided { break } .. }]. *)
Fixpoint produce_loop (fuel : nat) (state_hashes snapshots : gmap N bytes) (diffs : gmap N (list StateDiff)) :
    node_action unit :=
  nd ← st_get;
  let round := u64_wrapping_add (act_checkpoint_watermark (ls_activation (nd_ledger nd))) 1 in
  if negb (is_round_decided (hashgraph nd) round) then mret tt else
  match fuel with
  | O => st_lift (λ _, Crash OutOfFuel)
  | S fuel =>
      set_checkpoint_watermark round ;;
      produce_checkpoint round state_hashes snapshots diffs ;;
      produce_loop fuel state_hashes snapshots diffs
  end.

Definition produce_pending_checkpoints (state_hashes snapshots : gmap N bytes)
    (diffs : gmap N (list StateDiff)) : node_action unit :=
  nd ← st_get;
  produce_loop (size (fully_decided_rounds (hashgraph nd))) state_hashes snapshots diffs.

(** ** Executing finalized rounds *)

(** The executor, over the database's state keyspace. *)
Definition node_state (nd : GossipNode) : State := mkState F (db_state (ls_db (nd_ledger nd))) (ls_tree (nd_ledger nd)).

Definition node_batch (nd : GossipNode) : Batch :=
  mkBatch (mkExecutor (node_state nd) (ls_executed (nd_ledger nd)))
    (act_pending (ls_activation (nd_ledger nd))) (act_processed_through_round (ls_activation (nd_ledger nd))).

Definition set_batch (b : Batch) (nd : GossipNode) : GossipNode :=
  let db := ls_db (nd_ledger nd) in
  set_ledger
    {| ls_db := mkStateDb F (kv (state (executor b))) (db_snap db) (db_meta db);
       ls_tree := tree (state (executor b)); ls_executed := executed (executor b);
       ls_activation := {| act_pending := pending b; act_processed_through_round := processed_through_round b;
                           act_checkpoint_watermark := act_checkpoint_watermark (ls_activation (nd_ledger nd)) |} |} nd.

Definition on_batch {A} (m : stM Batch StateDbError A) : node_action (option A) :=
  st_zoom node_batch set_batch (logged m).

Definition state_to_bytes : node_action (option bytes) := logged (st_lift (λ nd, State.to_bytes (node_state nd))).

(** Phase A: the finalized events with their place in the order. *)
Fixpoint place_events (hg : Hashgraph) (events : list Event) : res Empty_set (list (Event * N * option Timestamp)) :=
  match events with
  | [] => mret []
  | event :: events =>
      hash ← or_panic (event_hash event);
      rest ← place_events hg events;
      mret match round_received hg hash with
           | Some rr => (event, rr, consensus_timestamp hg hash) :: rest
           | None => rest
           end
  end.

(** Phase A.5. *)
Definition log_ordering (finalized : list (Event * N * option Timestamp)) : node_action unit :=
  st_for finalized (λ e,
    hash ← st_lift (λ _, or_panic (event_hash e.1.1));
    sink_call EventSink (SetOrdering hash e.1.2 e.2)).

(** [by_round.entry(rr).or_default().push((event, rr))]. *)
Definition group_by_round (finalized : list (Event * N * option Timestamp)) : gmap N (list (Event * N)) :=
  foldl (λ m e, <[e.1.2 := default [] (m !! e.1.2) ++ [(e.1.1, e.1.2)]]> m) ∅ finalized.

(** What one pass collects per round. *)
Record Pass := {
  pass_hashes : gmap N bytes;
  pass_snapshots : gmap N bytes;
  pass_diffs : gmap N (list StateDiff);
}.

Definition merge_diffs (existing fresh : list StateDiff) : list StateDiff :=
  diff_list (foldl (λ m d, <[diff_key d := diff_value d]> m) ∅ (existing ++ fresh)).

(** The record of a round executed on time, and of late events of a round
    processed before. *)
Definition note_round (round original_watermark processed : N) (before_root after_root snapshot : bytes)
    (round_diffs : list StateDiff) (p : Pass) : Pass :=
  if decide (original_watermark < round)%N then
    {| pass_hashes := <[round := after_root]> (pass_hashes p);
       pass_snapshots := <[round := snapshot]> (pass_snapshots p);
       pass_diffs := <[round := round_diffs]> (pass_diffs p) |}
  else
    {| pass_hashes := if decide (after_root ≠ before_root) then <[processed := after_root]> (pass_hashes p)
                      else pass_hashes p;
       pass_snapshots := if decide (after_root ≠ before_root) then <[processed := snapshot]> (pass_snapshots p)
                         else pass_snapshots p;
       pass_diffs := match round_diffs with
                     | [] => pass_diffs p
                     | _ => <[processed := merge_diffs (default [] (pass_diffs p !! processed)) round_diffs]>
                              (pass_diffs p)
                     end |}.

(** Phase B for one round; [None] is the [return] on a failed snapshot. *)
Definition execute_round (original_watermark round : N) (events : list (Event * N)) (p : Pass) :
    node_action (option Pass) :=
  nd ← st_get;
  executed ← on_batch (bucket_finalized_with_diffs events);
  match executed with
  | None => mret (Some p)
  | Some round_diffs =>
      snapshot ← state_to_bytes;
      nd' ← st_get;
      mret (match snapshot with
            | None => None
            | Some snapshot =>
                Some (note_round round original_watermark
                        (act_processed_through_round (ls_activation (nd_ledger nd')))
                        (State.root (node_state nd)) (State.root (node_state nd')) snapshot
                        (default [] (round_diffs !! round)) p)
            end)
  end.

Fixpoint execute_rounds (original_watermark : N) (rounds : list (N * list (Event * N))) (p : Pass) :
    node_action (option Pass) :=
  match rounds with
  | [] => mret (Some p)
  | (round, events) :: rounds =>
      o ← execute_round original_watermark round events p;
      match o with None => mret None | Some p => execute_rounds original_watermark rounds p end
  end.

(** *** Phase C: membership *)

Definition verify_pop_bytes (bls_key pop : bytes) : bool :=
  bls_pk_valid bls_key && bls_sig_valid pop && BlsWrapper.verify_pop bls_key pop.

Definition activate_op (activation_round : N) (op : MembershipOp) : node_action unit :=
  match op with
  | Remove _ => mret tt
  | Add node key bls_key pop addr reconnect_addr =>
      nd ← st_get;
      if is_member (hashgraph nd) node then mret tt else
      if negb (verify_pop_bytes bls_key pop) then mret tt else
      roster ← registry_at activation_round;
      _ ← on_hashgraph (logged (add_member node activation_round (Registry.register roster node key bls_key)));
      nd ← st_get;
      roster_bytes ← st_lift (λ _, or_panic (encode_roster_history (roster_history (hashgraph nd))));
      sink_call EventSink (SetRosterHistory roster_bytes) ;;
      with_gossip (λ gs, Gs.registry (Registry.register (gs_registry gs) node key bls_key) gs) ;;
      with_gossip (λ gs, Gs.peers (add_peer_from_key node key addr reconnect_addr (gs_peers gs)) gs)
  end.

Definition set_pending (v : gmap N (list MembershipOp)) : node_action unit := st_modify (λ nd,
  set_activation {| act_pending := v;
                    act_processed_through_round := act_processed_through_round (ls_activation (nd_ledger nd));
                    act_checkpoint_watermark := act_checkpoint_watermark (ls_activation (nd_ledger nd)) |} nd).

Definition activate_round (rr : N) : node_action unit :=
  let activation_round := u64_wrapping_add rr 1 in
  nd ← st_get;
  if negb (is_round_decided (hashgraph nd) activation_round) then mret tt else
  let pending := act_pending (ls_activation (nd_ledger nd)) in
  set_pending (delete rr pending) ;;
  st_for (default [] (pending !! rr)) (activate_op activation_round).

Definition activate_pending : node_action unit :=
  nd ← st_get;
  st_for (bt_entries N.le (act_pending (ls_activation (nd_ledger nd)))).*1 activate_round.

(** *** The whole pass *)

Definition process_finalized_batch (finalized : list (Event * N * option Timestamp)) : node_action bool :=
  nd ← st_get;
  pre_batch ← state_to_bytes;
  match pre_batch with
  | None => mret false
  | Some pre_batch_bytes =>
      o ← execute_rounds (act_processed_through_round (ls_activation (nd_ledger nd)))
            (bt_entries N.le (group_by_round finalized))
            {| pass_hashes := {[ 0%N := State.root (node_state nd) ]};
               pass_snapshots := {[ 0%N := pre_batch_bytes ]}; pass_diffs := ∅ |};
      match o with
      | None => mret false
      | Some p =>
          activate_pending ;;
          with_checkpoints (λ cs, Cs.state_hashes
            (filter (λ e, e.1 ≠ 0%N) (pass_hashes p) ∪ cs_state_hashes cs) cs) ;;
          nd ← st_get;
          produce_pending_checkpoints (cs_state_hashes (nd_checkpoints nd)) (pass_snapshots p) (pass_diffs p) ;;
          mret true
      end
  end.

Definition process_without_events : node_action bool :=
  o ← state_to_bytes;
  match o with
  | None => mret false
  | Some bs =>
      nd ← st_get;
      produce_pending_checkpoints (cs_state_hashes (nd_checkpoints nd)) {[ 0%N := bs ]} ∅ ;;
      mret true
  end.

Definition process_finalized_rounds : node_action unit :=
  nd ← st_get;
  finalized ← st_lift (λ _, place_events (hashgraph nd) (finalized_events (hashgraph nd)));
  log_ordering finalized ;;
  completed ← (if decide (finalized = []) then process_without_events else process_finalized_batch finalized);
  if (completed : bool) then arm_checkpoint_lag_reconnect else mret tt.

(** ** Inbound frames *)

Inductive Reaction := Reply (f : Frame) | Continue | Close.

Definition handle_sync_request (now : EventHash → N) (prune_now : N) (request : SyncRequest) : node_action Reaction :=
  nd ← st_get;
  let gs := nd_gossip nd in
  let from := sync_from request in
  let sent := default ∅ (gs_dedup gs !! from) in
  match delta_events_filtered now prune_now (hashgraph nd) (sync_known request) (gs_registry gs) (own_id nd) from
          (sync_config (nd_config nd)) sent with
  | Ok (events, sent) =>
      with_gossip (Gs.dedup (<[from := sent]> (gs_dedup gs))) ;;
      mret (Reply (FrameSyncResponse {| sync_events := events |}))
  | Err _ =>
      with_gossip (Gs.dedup (<[from := sent]> (gs_dedup gs))) ;;
      mret (Reply FrameBehind)
  | Crash c => st_lift (λ _, Crash c)
  end.

(** One turn of [handle_inbound]; a reply that cannot be sent closes the
    connection. *)
Definition handle_frame (now : EventHash → N) (prune_now : N) (f : Frame) : node_action Reaction :=
  match f with
  | FrameSyncRequest request => handle_sync_request now prune_now request
  | FrameEvent event =>
      nd ← st_get;
      o ← on_hashgraph (logged (insert_verified (gs_registry (nd_gossip nd)) event));
      match o with
      | Some (Some hash) => log_fresh_inserts [hash] ;; mret Continue
      | Some None => mret Continue
      | None => mret Close
      end
  | FrameCheckpointSig s => submit_checkpoint_sig s ;; mret Continue
  | FrameSyncResponse _ | FrameReconnect _ | FrameReconnectResponse _ | FrameBehind
  | FrameCheckpointRequest | FrameCheckpointResponse _ => mret Close
  end.

(** ** A sync round as the initiator (the driver for one peer) *)

(** The frame answering the request, or the error of the connection; and how
    the push of the own event ended. *)
Inductive Push := Delivered | Undelivered | TimedOut.

Definition sync_result (registry : MembershipRegistry) (nd : GossipNode) (peer_id : NodeId) (payload : list Transaction)
    (ts : Timestamp) (reply : GossipError + Frame) (push : Push) : stM Hashgraph GossipError SyncOutcome :=
  match reply with
  | inl e => st_fail e
  | inr reply =>
      outcome ← run_sync registry (own_id nd) (signing_key (nd_config nd)) peer_id payload ts reply
                  (match push with Delivered => true | _ => false end);
      match push with
      | TimedOut => if pushback_delivered outcome then mret outcome else st_fail (Sync "sync round timed out")
      | _ => mret outcome
      end
  end.

Definition needs_state_transfer (e : GossipError) : bool :=
  match e with Consensus (MissingParent _) | ReconnectFailed _ => true | _ => false end.

(** [Ok]'s and [Err]'s handling after the round. *)
Definition settle_sync (payload : list Transaction) (r : GossipError + SyncOutcome) : node_action unit :=
  match r with
  | inl e =>
      requeue_pending_transactions payload ;;
      (if needs_state_transfer e then with_gossip (Gs.needs_reconnect true) else mret tt)
  | inr outcome =>
      (if needs_reconnect outcome
       then requeue_pending_transactions payload ;; with_gossip (Gs.needs_reconnect true) else mret tt) ;;
      log_fresh_inserts (fresh outcome)
  end.

Definition attempt {S E A} (m : stM S E A) : stM S Empty_set (E + A) := λ s,
  let '(r, s) := m s in
  (match r with Ok a => Ok (inr a) | Err e => Ok (inl e) | Crash c => Crash c end, s).

Definition sync_with (peer_id : NodeId) (clock_millis : N) (reply : GossipError + Frame) (push : Push) :
    node_action unit :=
  nd ← st_get;
  payload ← drain_pending_transactions;
  ts ← next_timestamp clock_millis;
  r ← on_hashgraph (attempt (sync_result (gs_registry (nd_gossip nd)) nd peer_id payload ts reply push));
  settle_sync payload r ;;
  process_finalized_rounds.
End node.
