(* ===== verification/NodeFacts.v ===== *)
(** * Facts about the gossip node

    What the handlers leave alone, the bounds of the node's tables, and the
    runs in which a checkpoint is accepted. *)

From S2P Require Import Prelude Codec External Primitives Membership Graph Ancestry Order Insert Retain RetainFacts.
From S2P Require Import Reconnect Checkpoint CheckpointQuorum Proto Frontier Sync MerkleLog SparseMerkle Did Op State.
From S2P Require Import StateFacts Executor Node.

(** ** Frames *)

(** A part of the state that is not touched. *)
Definition same {S A} (f : S → A) (s s' : S) : Prop := f s' = f s.
#[export] Instance same_preorder {S A} (f : S → A) : PreOrder (same f).
Proof. split; [done|]. intros x y z Hxy Hyz. unfold same in *. congruence. Qed.

(** An invariant that is kept. *)
Definition kept {S} (P : S → Prop) (s s' : S) : Prop := P s → P s'.
#[export] Instance kept_preorder {S} (P : S → Prop) : PreOrder (kept P).
Proof. split; [intros x Hx; exact Hx|]. intros x y z Hxy Hyz Hx. by apply Hyz, Hxy. Qed.

Ltac keep_step :=
  match goal with
  | |- preserves _ (match ?x with _ => _ end) => destruct x
  | |- preserves _ (_ ≫= _) => apply preserves_bind; [apply _|try by auto with preserves|intros ?]
  | |- preserves _ st_get => apply preserves_get, _
  | |- preserves _ (mret _) => apply preserves_ret, _
  | |- preserves _ (st_lift _) => apply preserves_lift, _
  | |- preserves _ (st_for _ _) => apply preserves_for; [apply _|intros ?]
  | |- preserves _ _ => by auto with preserves
  end.
Ltac keep := cbv zeta; repeat keep_step.

Section frame.
Context `{Sha256, Ed25519, Bls, HashOrder} `{F : Fjall}.
Context (R : GossipNode → GossipNode → Prop) `{!PreOrder R}.

Lemma preserves_zoom {S T E A} (Q : S → S → Prop) (field : S → T) (update : T → S → S) (m : stM T E A) :
  (∀ s, Q s (update (m (field s)).2 s)) → preserves Q (st_zoom field update m).
Proof. intros Hq s. unfold st_zoom. specialize (Hq s). by destruct (m (field s)). Qed.

Lemma snd_logged {S E A} (m : stM S E A) s : (logged m s).2 = (m s).2.
Proof. unfold logged. by destruct (m s). Qed.

Section checkpoints.
Context (Hcs : ∀ v nd, R nd (set_checkpoints v nd)) (Hcalls : ∀ v nd, R nd (set_calls v nd)).
Context (Hdb : ∀ v nd, R nd (set_db v nd)).
Context (Hprune : ∀ t nd,
  R nd (set_gossip (Gs.hashgraph (prune_before_round t (hashgraph nd)).2 (nd_gossip nd)) nd)).

Lemma preserves_with_checkpoints f : preserves R (with_checkpoints f).
Proof. apply preserves_modify. intros nd. apply Hcs. Qed.

Lemma preserves_sink_call k c : preserves R (sink_call k c).
Proof. apply preserves_modify. intros nd. case_decide; [apply Hcalls|reflexivity]. Qed.

Lemma preserves_on_db {A} (m : stM StateDb StateDbError A) : preserves R (on_db m).
Proof. apply preserves_zoom. intros nd. apply Hdb. Qed.

Lemma preserves_registry_at round : preserves R (registry_at round).
Proof. by apply preserves_lift. Qed.

#[local] Hint Resolve preserves_with_checkpoints preserves_sink_call preserves_on_db preserves_registry_at : preserves.

Lemma preserves_accept sc snapshot diffs : preserves R (accept_checkpoint sc snapshot diffs).
Proof.
  unfold accept_checkpoint. keep.
  all: apply preserves_zoom; intros nd; rewrite snd_logged; apply Hprune.
Qed.

Lemma preserves_set_accumulator round acc : preserves R (set_accumulator round acc).
Proof. apply preserves_with_checkpoints. Qed.

Lemma preserves_buffer s : preserves R (buffer_pending_sig s).
Proof. apply preserves_with_checkpoints. Qed.

#[local] Hint Resolve preserves_accept preserves_set_accumulator preserves_buffer : preserves.

Lemma preserves_admissible s : preserves R (is_pending_sig_admissible s).
Proof. unfold is_pending_sig_admissible. keep. Qed.

#[local] Hint Resolve preserves_admissible : preserves.

Lemma preserves_feed s : preserves R (feed_checkpoint_sig s).
Proof. unfold feed_checkpoint_sig. keep. Qed.

#[local] Hint Resolve preserves_feed : preserves.

Lemma preserves_submit_sig s : preserves R (submit_checkpoint_sig s).
Proof. unfold submit_checkpoint_sig. keep. Qed.

Lemma preserves_adopt sc : preserves R (adopt_signed_checkpoint sc).
Proof. unfold adopt_signed_checkpoint. keep. Qed.

Lemma preserves_produce round hashes snaps diffs : preserves R (produce_checkpoint round hashes snaps diffs).
Proof. unfold produce_checkpoint. keep. Qed.
End checkpoints.

(** The pass over the finalized rounds, from what its parts preserve. *)
Section pass.
Context (Hproduce : ∀ round hashes snaps diffs, preserves R (produce_checkpoint round hashes snaps diffs)).
Context (Hhashes : ∀ f, preserves R (with_checkpoints (λ cs, Cs.state_hashes (f cs) cs))).
Context (Hcalls : ∀ v nd, R nd (set_calls v nd)) (Hact : ∀ v nd, R nd (set_activation v nd)).
Context (Hbatch : ∀ b nd, R nd (set_batch b nd)).
Context (Hgraph : ∀ hg nd, R nd (set_gossip (Gs.hashgraph hg (nd_gossip nd)) nd)).
Context (Hreg : ∀ v nd, R nd (set_gossip (Gs.registry v (nd_gossip nd)) nd)).
Context (Hpeers : ∀ v nd, R nd (set_gossip (Gs.peers v (nd_gossip nd)) nd)).
Context (Hlag : ∀ v nd, R nd (set_gossip (Gs.needs_checkpoint_sync v (nd_gossip nd)) nd)).

Lemma pass_sink_call k c : preserves R (sink_call k c).
Proof. by apply preserves_sink_call. Qed.
Lemma pass_registry_at round : preserves R (registry_at round).
Proof. by apply preserves_lift. Qed.
Lemma pass_on_batch {A} (m : stM Batch StateDbError A) : preserves R (Node.on_batch m).
Proof. apply preserves_zoom. intros nd. apply Hbatch. Qed.
Lemma pass_on_hashgraph {E A} (m : stM Hashgraph E A) : preserves R (on_hashgraph m).
Proof. apply preserves_zoom. intros nd. apply Hgraph. Qed.
Lemma pass_state_to_bytes : preserves R state_to_bytes.
Proof. intros nd. unfold state_to_bytes. rewrite snd_logged. simpl. reflexivity. Qed.
Lemma pass_watermark round : preserves R (set_checkpoint_watermark round).
Proof. apply preserves_modify. intros nd. apply Hact. Qed.
Lemma pass_set_pending v : preserves R (set_pending v).
Proof. apply preserves_modify. intros nd. apply Hact. Qed.
Lemma pass_registry f : preserves R (with_gossip (λ gs, Gs.registry (f gs) gs)).
Proof. apply preserves_modify. intros nd. apply Hreg. Qed.
Lemma pass_peers f : preserves R (with_gossip (λ gs, Gs.peers (f gs) gs)).
Proof. apply preserves_modify. intros nd. apply Hpeers. Qed.
Lemma pass_lag v : preserves R (with_gossip (Gs.needs_checkpoint_sync v)).
Proof. apply preserves_modify. intros nd. apply Hlag. Qed.

#[local] Hint Resolve pass_sink_call pass_registry_at pass_on_batch pass_on_hashgraph pass_state_to_bytes
  pass_watermark pass_set_pending pass_registry pass_peers pass_lag Hproduce Hhashes : preserves.

Lemma pass_produce_loop fuel hashes snaps diffs : preserves R (produce_loop fuel hashes snaps diffs).
Proof. induction fuel as [|fuel IH]; cbn [produce_loop]; keep. Qed.

Lemma pass_activate_op round op : preserves R (activate_op round op).
Proof. unfold activate_op. keep. Qed.

#[local] Hint Resolve pass_produce_loop pass_activate_op : preserves.

Lemma pass_activate_round rr : preserves R (activate_round rr).
Proof. unfold activate_round. keep. Qed.

Lemma pass_execute_round w round events p : preserves R (execute_round w round events p).
Proof. unfold execute_round. keep. Qed.

#[local] Hint Resolve pass_activate_round pass_execute_round : preserves.

Lemma pass_execute_rounds w rounds p : preserves R (execute_rounds w rounds p).
Proof. revert p. induction rounds as [|[round events] rounds IH]; intros p; cbn [execute_rounds]; keep. Qed.

#[local] Hint Resolve pass_execute_rounds : preserves.

Lemma preserves_process : preserves R process_finalized_rounds.
Proof.
  unfold process_finalized_rounds, log_ordering, process_without_events, process_finalized_batch, activate_pending,
    produce_pending_checkpoints, arm_checkpoint_lag_reconnect. keep.
Qed.
End pass.
End frame.

(** ** The loop over the decided rounds terminates *)

Section loop.
Context `{Sha256, Ed25519, Bls, HashOrder} `{F : Fjall}.

Lemma prune_keeps_decided t hg : fully_decided_rounds (prune_before_round t hg).2 = fully_decided_rounds hg.
Proof.
  destruct (prune_before_round t hg) as [r hg'] eqn:Hp. simpl. destruct r as [l|e|c].
  - by eapply prune_decided.
  - unfold prune_before_round in Hp. destruct (negb _); [done|]. by case_decide.
  - unfold prune_before_round in Hp. destruct (negb _); [by injection Hp as _ <-|]. by case_decide.
Qed.

Definition watermark_of (nd : GossipNode) : N := act_checkpoint_watermark (ls_activation (nd_ledger nd)).
Definition decided_of (nd : GossipNode) : gset N := fully_decided_rounds (hashgraph nd).

Lemma produce_loop_frame round hashes snaps diffs :
  preserves (same (λ nd, (decided_of nd, watermark_of nd))) (produce_checkpoint round hashes snaps diffs).
Proof.
  apply preserves_produce; [apply _|done..|]. intros t nd. unfold same, decided_of, hashgraph. simpl.
  f_equal. apply prune_keeps_decided.
Qed.

(** The decided rounds above the watermark. *)
Definition remaining (nd : GossipNode) : nat := length (filter (λ r, (watermark_of nd < r)%N) (elements (decided_of nd))).

Lemma remaining_size nd : remaining nd ≤ size (decided_of nd).
Proof. unfold remaining, size, set_size. simpl. apply length_filter. Qed.

Lemma filter_drop_one (w : N) (l : list N) :
  NoDup l → (w + 1 ∈ l)%N → length (filter (λ r, (w + 1 < r)%N) l) < length (filter (λ r, (w < r)%N) l).
Proof.
  induction l as [|x l IH]; intros Hnd Hin; [by apply not_elem_of_nil in Hin|].
  apply NoDup_cons in Hnd as [Hx Hnd]. rewrite !filter_cons. apply elem_of_cons in Hin as [<-|Hin].
  - rewrite decide_False, decide_True by lia. simpl. apply Nat.lt_succ_r.
    clear. induction l as [|y l IH]; [done|]. rewrite !filter_cons. repeat case_decide; simpl; lia.
  - specialize (IH Hnd Hin). repeat case_decide; simpl; lia.
Qed.

Lemma u64_wrapping_add_succ a : is_u64 a → u64_wrapping_add a 1 = (a + 1)%N ∨ u64_wrapping_add a 1 = 0%N.
Proof.
  intros Ha. destruct (decide (a + 1 < u64_modulus)%N); [left; by apply u64_wrapping_add_small|right].
  unfold u64_wrapping_add, is_u64 in *. assert (a + 1 = u64_modulus)%N as -> by lia. done.
Qed.

Lemma u64_wrapping_add_bound a b : is_u64 (u64_wrapping_add a b).
Proof. apply N.mod_lt. done. Qed.

Lemma produce_loop_eq fuel hashes snaps diffs nd :
  produce_loop fuel hashes snaps diffs nd =
  let round := u64_wrapping_add (watermark_of nd) 1 in
  if negb (is_round_decided (hashgraph nd) round) then (Ok tt, nd) else
  match fuel with
  | O => (Crash OutOfFuel, nd)
  | S fuel => (set_checkpoint_watermark round ;; produce_checkpoint round hashes snaps diffs ;;
               produce_loop fuel hashes snaps diffs) nd
  end.
Proof. destruct fuel; unfold watermark_of; simpl; unfold mbind, stM_bind, st_get; simpl; by destruct (negb _). Qed.

Lemma produce_loop_fuel fuel1 fuel2 hashes snaps diffs nd :
  0%N ∉ decided_of nd → is_u64 (watermark_of nd) → remaining nd ≤ fuel1 → remaining nd ≤ fuel2 →
  produce_loop fuel1 hashes snaps diffs nd = produce_loop fuel2 hashes snaps diffs nd.
Proof.
  revert fuel2 nd. induction fuel1 as [|fuel1 IH]; intros fuel2 nd Hz Hw Hf1 Hf2.
  all: rewrite !produce_loop_eq; cbv zeta.
  all: destruct (is_round_decided (hashgraph nd) (u64_wrapping_add (watermark_of nd) 1)) eqn:Hd; cbn [negb]; [|done].
  all: destruct fuel2 as [|fuel2]; apply bool_decide_eq_true in Hd.
  all: assert (u64_wrapping_add (watermark_of nd) 1 = watermark_of nd + 1)%N as Hr
    by (destruct (u64_wrapping_add_succ _ Hw) as [->|E0]; [done|rewrite E0 in Hd; done]).
  all: rewrite Hr in Hd; pose proof (filter_drop_one _ _ (NoDup_elements (decided_of nd))
         (proj2 (elem_of_elements _ _) Hd)) as Hlt; fold (remaining nd) in Hlt.
  1-3: lia.
  rewrite Hr. unfold mbind, stM_bind, set_checkpoint_watermark, st_modify.
  set (nd1 := set_activation _ nd).
  pose proof (produce_loop_frame (watermark_of nd + 1) hashes snaps diffs nd1) as Hs.
  destruct (produce_checkpoint _ _ _ _ nd1) as [[[]|e|c] nd2]; [|done..]. simpl in Hs.
  injection Hs as Hsd Hsw. change (decided_of nd1) with (decided_of nd) in Hsd.
  change (watermark_of nd1) with (watermark_of nd + 1)%N in Hsw.
  apply IH; unfold remaining; rewrite ?Hsd, ?Hsw; [done| |lia|lia].
  rewrite <- Hr. apply u64_wrapping_add_bound.
Qed.
End loop.

(** ** The bounds of the tables *)

Lemma map_Forall_filter `{Countable K} {A} (P : K → A → Prop) (Q : K * A → Prop) `{!∀ x, Decision (Q x)} (m : gmap K A) :
  map_Forall P m → map_Forall P (filter Q m).
Proof. intros HP k v [Hk _]%map_lookup_filter_Some. by apply HP. Qed.

Section tables.
Context `{Sha256, Ed25519, Bls, HashOrder} `{F : Fjall}.

Definition acc_ok (round : N) (acc : CheckpointAccumulator) : Prop :=
  cp_round (acc_payload acc) = round ∧
  map_Forall (λ k s, sig_signer s = k ∧ sig_round s = round) (acc_sigs acc).

Definition buffered_ok (round : N) (l : list CheckpointSig) : Prop :=
  Forall (λ s, sig_round s = round) l ∧ NoDup (sig_signer <$> l) ∧ length l ≤ MAX_PENDING_SIGS_PER_ROUND.

(** Early signatures are bounded and distinct, every collection is of its
    round, and every kept snapshot rebuilds to an accepted state hash. *)
Record tables_ok (cs : CheckpointState) : Prop := {
  t_pending : map_Forall buffered_ok (cs_pending_sigs cs);
  t_accumulators : map_Forall acc_ok (cs_accumulators cs);
  t_snapshots : map_Forall (λ round bs, ∃ sc, sc ∈ cs_signed cs ∧ cp_round (sc_payload sc) = round ∧
    root_of_bytes bs = Ok (state_hash (sc_payload sc))) (cs_snapshots cs);
}.

Definition node_ok (nd : GossipNode) : Prop :=
  length (gs_transactions (nd_gossip nd)) ≤ MAX_PENDING_TRANSACTIONS ∧ tables_ok (nd_checkpoints nd).

(** What [node_ok] reads. *)
Definition tables_of (nd : GossipNode) :=
  (gs_transactions (nd_gossip nd), cs_pending_sigs (nd_checkpoints nd), cs_accumulators (nd_checkpoints nd),
   cs_snapshots (nd_checkpoints nd), cs_signed (nd_checkpoints nd)).

Lemma node_ok_same nd nd' : same tables_of nd nd' → kept node_ok nd nd'.
Proof.
  unfold same, tables_of. intros [= Et Ep Ea Es Ec] [Htx [Hp Ha Hs]]. split; [by rewrite Et|].
  split; [by rewrite Ep|by rewrite Ea|rewrite Es, Ec; done].
Qed.

Lemma preserves_weaken {S E A} (R Q : S → S → Prop) (m : stM S E A) :
  (∀ s s', R s s' → Q s s') → preserves R m → preserves Q m.
Proof. intros HRQ Hm s. by apply HRQ. Qed.

(** A write to the tables that keeps them in order. *)
Lemma with_checkpoints_ok f : (∀ cs, tables_ok cs → tables_ok (f cs)) → preserves (kept node_ok) (with_checkpoints f).
Proof. intros Hf. apply preserves_modify. intros nd [Htx Ht]. split; [done|]. by apply Hf. Qed.

Lemma sink_call_ok k c : preserves (kept node_ok) (sink_call k c).
Proof. apply preserves_sink_call; [apply _|]. intros v nd. by apply node_ok_same. Qed.

Lemma on_db_ok {A} (m : stM StateDb StateDbError A) : preserves (kept node_ok) (on_db m).
Proof. apply preserves_on_db. intros v nd. by apply node_ok_same. Qed.

Lemma on_hashgraph_ok {E A} (m : stM Hashgraph E A) : preserves (kept node_ok) (on_hashgraph m).
Proof. apply preserves_zoom. intros nd. by apply node_ok_same. Qed.

Lemma registry_at_ok round : preserves (kept node_ok) (registry_at round).
Proof. apply preserves_lift, _. Qed.

Lemma get_ok {B} (f : GossipNode → stM GossipNode Empty_set B) :
  (∀ nd, node_ok nd → preserves (kept node_ok) (f nd)) → preserves (kept node_ok) (st_get ≫= f).
Proof. intros Hf nd Hok. exact (Hf nd Hok nd Hok). Qed.

#[local] Hint Resolve sink_call_ok on_db_ok on_hashgraph_ok registry_at_ok : preserves.

Lemma record_accepted_ok sc snapshot cs :
  root_of_bytes snapshot = Ok (state_hash (sc_payload sc)) → tables_ok cs →
  tables_ok (record_accepted sc (cp_round (sc_payload sc)) snapshot cs).
Proof.
  intros Hroot [Hp Ha Hs]. split; simpl.
  - by apply map_Forall_filter.
  - done.
  - apply map_Forall_filter, map_Forall_insert_2.
    + exists sc. split; [|done]. rewrite merge_sort_Permutation. apply elem_of_app. right. by left.
    + eapply map_Forall_impl; [exact Hs|]. intros r bs (sc' & Hin & Hr). exists sc'. split; [|done].
      rewrite merge_sort_Permutation. apply elem_of_app. by left.
Qed.

Lemma accept_ok sc snapshot diffs : preserves (kept node_ok) (accept_checkpoint sc snapshot diffs).
Proof.
  unfold accept_checkpoint. cbv zeta. destruct (root_of_bytes snapshot) as [root|e|c] eqn:Hroot.
  - intros nd. unfold mbind at 1, stM_bind at 1, st_lift at 1. simpl.
    destruct (decide (Some root ≠ Some (state_hash (sc_payload sc)))) as [Hne|Heq]; [by intros|].
    assert (root = state_hash (sc_payload sc)) as -> by (destruct (decide (root = state_hash (sc_payload sc))); naive_solver).
    revert nd. match goal with |- ∀ s, kept _ s (?m s).2 => change (preserves (kept node_ok) m) end.
    assert (preserves (kept node_ok) (with_checkpoints (record_accepted sc (cp_round (sc_payload sc)) snapshot)))
      by (apply with_checkpoints_ok; intros cs; by apply record_accepted_ok).
    keep.
  - intros nd. by unfold mbind, stM_bind, st_lift.
  - intros nd. by unfold mbind, stM_bind, st_lift.
Qed.

Lemma set_accumulator_ok round acc :
  (∀ a, acc = Some a → acc_ok round a) → preserves (kept node_ok) (set_accumulator round acc).
Proof.
  intros Ha. apply with_checkpoints_ok. intros cs [Hp Hacc Hs]. split; simpl; [done| |done].
  destruct acc as [a|]; [by apply map_Forall_insert_2; [apply Ha|]|by apply map_Forall_delete].
Qed.

Lemma buffer_ok s : preserves (kept node_ok) (buffer_pending_sig s).
Proof.
  apply with_checkpoints_ok. intros cs [Hp Ha Hs]. split; simpl; [|done|done].
  unfold buffer_sig. apply map_Forall_insert_2; [|done].
  assert (buffered_ok (sig_round s) (default [] (cs_pending_sigs cs !! sig_round s))) as (Hb1 & Hb2 & Hb3).
  { destruct (cs_pending_sigs cs !! sig_round s) as [l|] eqn:Hl; [exact (Hp _ _ Hl)|].
    split; [constructor|]. split; [constructor|simpl; lia]. }
  case_decide as Hc; [done|]. apply Decidable.not_or in Hc as [Hno Hlen]. split; [|split].
  - apply Forall_app_2; [done|by constructor].
  - rewrite fmap_app. apply NoDup_app. split; [done|]. split; [|apply NoDup_singleton].
    intros x Hx ->%list_elem_of_singleton. done.
  - rewrite length_app. simpl. lia.
Qed.

Lemma add_sig_ok round s roster acc : acc_ok round acc → acc_ok round (Accumulator.add_sig s roster acc).2.
Proof.
  intros [Hr Hf]. unfold Accumulator.add_sig. case_decide as Hrd; [done|]. destruct (negb _); [done|].
  destruct (supermajority _ _); [done|]. cbv zeta.
  assert (acc_ok round (Accumulator.note_sig s acc)) as Hok.
  { split; [done|]. intros k s'. rewrite note_sig_sigs. destruct (acc_sigs acc !! k) eqn:Hk.
    - intros [= <-]. by apply Hf.
    - case_decide; [|done]. intros [= <-]. split; [done|]. rewrite <- Hr. destruct (decide (sig_round s = cp_round (acc_payload acc))); [done|by destruct Hrd]. }
  by destruct (supermajority _ _).
Qed.

Lemma flush_pending_ok round pending roster accepted acc :
  acc_ok round acc → acc_ok round (flush_pending pending roster accepted acc).2.
Proof.
  revert accepted acc. induction pending as [|s pending IH]; intros accepted acc Hok; simpl; [done|].
  destruct accepted; [done|]. destruct (verify_checkpoint_sig _ _ _); [|by apply IH].
  pose proof (add_sig_ok round s roster acc Hok) as Hok'.
  destruct (Accumulator.add_sig s roster acc) as [accepted acc']. by apply IH.
Qed.

#[local] Hint Resolve accept_ok buffer_ok : preserves.

Lemma admissible_ok s : preserves (kept node_ok) (is_pending_sig_admissible s).
Proof. unfold is_pending_sig_admissible. keep. Qed.

#[local] Hint Resolve admissible_ok : preserves.

Lemma feed_ok s : preserves (kept node_ok) (feed_checkpoint_sig s).
Proof.
  apply get_ok. intros nd [_ Ht]. keep_step; [keep|]. keep_step. keep_step; [keep|].
  destruct (cs_accumulators (nd_checkpoints nd) !! sig_round s) as [acc|] eqn:Hacc; [|keep].
  keep_step. keep_step; [keep|].
  pose proof (add_sig_ok (sig_round s) s a0 acc (t_accumulators _ Ht _ _ Hacc)) as Hok.
  destruct (Accumulator.add_sig s a0 acc) as [[accepted|] acc']; [|apply set_accumulator_ok; naive_solver].
  apply preserves_bind; [apply _|by apply set_accumulator_ok|auto with preserves].
Qed.

#[local] Hint Resolve feed_ok : preserves.

Lemma submit_sig_ok s : preserves (kept node_ok) (submit_checkpoint_sig s).
Proof. unfold submit_checkpoint_sig. keep. Qed.

Lemma diffs_ok f : preserves (kept node_ok) (with_checkpoints (λ cs, Cs.diffs (f cs) cs)).
Proof. apply with_checkpoints_ok. by intros cs []. Qed.
Lemma outbound_ok f : preserves (kept node_ok) (with_checkpoints (λ cs, Cs.outbound (f cs) cs)).
Proof. apply with_checkpoints_ok. by intros cs []. Qed.
Lemma state_hashes_ok f : preserves (kept node_ok) (with_checkpoints (λ cs, Cs.state_hashes (f cs) cs)).
Proof. apply with_checkpoints_ok. by intros cs []. Qed.
Lemma drop_pending_ok round :
  preserves (kept node_ok) (with_checkpoints (λ cs, Cs.pending_sigs (delete round (cs_pending_sigs cs)) cs)).
Proof. apply with_checkpoints_ok. intros cs [Hp Ha Hs]. split; [by apply map_Forall_delete|done..]. Qed.

#[local] Hint Resolve submit_sig_ok diffs_ok outbound_ok state_hashes_ok drop_pending_ok : preserves.

Lemma drop_accumulator_ok round : preserves (kept node_ok) (set_accumulator round None).
Proof. by apply set_accumulator_ok. Qed.

#[local] Hint Resolve drop_accumulator_ok : preserves.

Lemma adopt_ok sc : preserves (kept node_ok) (adopt_signed_checkpoint sc).
Proof. unfold adopt_signed_checkpoint. keep. Qed.

Lemma chained_payload_spec hg round hashes signed p :
  canonical_checkpoint_payload_chained hg round hashes signed = Ok p →
  cp_round p = round ∧ is_round_decided hg round = true ∧ registry_at_round hg round = Ok (roster_snapshot p) ∧
  snd <$> bt_last N.le (λ r, (r ≤ round)%N) hashes = Some (state_hash p).
Proof.
  intros (base & Hb & (prev & _ & <-%res_ret_Ok)%res_bind_Ok)%res_bind_Ok. simpl.
  apply res_bind_Ok in Hb as (h & Hh & (items & _ & (root & _ & Hb)%res_bind_Ok)%res_bind_Ok).
  unfold checkpoint_payload in Hb. destruct (is_round_decided hg round); [|done]. cbn [negb] in Hb.
  apply res_bind_Ok in Hb as (ro & Hro & (wr & _ & (rr & _ & <-%res_ret_Ok)%res_bind_Ok)%res_bind_Ok). simpl.
  split; [done|]. split; [done|]. split.
  - unfold ok_opt, map_err in Hro. destruct (registry_at_round hg round); by simplify_eq.
  - destruct (snd <$> _); [by injection Hh as ->|done].
Qed.

Lemma produce_ok round hashes snaps diffs : preserves (kept node_ok) (produce_checkpoint round hashes snaps diffs).
Proof.
  unfold produce_checkpoint. keep_step; [|keep]. cbv zeta. keep_step. apply get_ok. intros nd [_ Ht].
  destruct (canonical_checkpoint_payload_chained _ _ _ _) as [payload|e|c] eqn:Hp; [|keep..].
  apply chained_payload_spec in Hp as [Hp _]. keep_step. keep_step. keep_step.
  set (acc0 := default _ _).
  assert (acc_ok round acc0) as Hok0.
  { unfold acc0. destruct (cs_accumulators (nd_checkpoints nd) !! round) as [acc|] eqn:Hacc; simpl.
    - exact (t_accumulators _ Ht _ _ Hacc).
    - split; [done|apply map_Forall_empty]. }
  destruct (Accumulator.add_sig _ _ acc0) as [accepted acc] eqn:Hadd.
  assert (acc_ok round acc) as Hok1 by (by eapply (eq_ind _ (λ x, acc_ok round x.2) (add_sig_ok round _ _ acc0 Hok0) _ Hadd)).
  pose proof (flush_pending_ok round (default [] (cs_pending_sigs (nd_checkpoints nd) !! round)) a1 accepted acc Hok1) as Hok2.
  destruct (flush_pending _ _ _ _) as [[done|] acc2]; [keep|apply set_accumulator_ok; naive_solver].
Qed.

(** *** Frames and sync rounds *)

Lemma process_ok : preserves (kept node_ok) process_finalized_rounds.
Proof.
  apply preserves_process; [apply _|apply produce_ok|apply state_hashes_ok|..]; intros; by apply node_ok_same.
Qed.

Lemma with_gossip_ok f :
  (∀ gs, gs_transactions (f gs) = gs_transactions gs) → preserves (kept node_ok) (with_gossip f).
Proof. intros Hf. apply preserves_modify. intros nd [Htx Ht]. split; [simpl; by rewrite Hf|done]. Qed.

Lemma log_fresh_ok fresh : preserves (kept node_ok) (log_fresh_inserts fresh).
Proof. unfold log_fresh_inserts. keep. Qed.

#[local] Hint Resolve process_ok log_fresh_ok : preserves.

Lemma handle_frame_ok now pn f : preserves (kept node_ok) (handle_frame now pn f).
Proof.
  unfold handle_frame, handle_sync_request. cbv zeta. destruct f; keep; by apply with_gossip_ok.
Qed.

Lemma requeue_length txs pending :
  length pending ≤ MAX_PENDING_TRANSACTIONS → length (requeue txs pending) ≤ MAX_PENDING_TRANSACTIONS.
Proof.
  unfold requeue. generalize (reverse txs). intros l. revert pending.
  induction l as [|tx l IH]; intros pending Hp; simpl; [done|]. apply IH. case_decide; simpl; lia.
Qed.

Lemma requeue_ok txs : preserves (kept node_ok) (requeue_pending_transactions txs).
Proof. apply preserves_modify. intros nd [Htx Ht]. split; [by apply requeue_length|done]. Qed.

Lemma submit_transaction_ok payload : preserves (kept node_ok) (submit_transaction payload).
Proof.
  intros nd [Htx Ht]. unfold submit_transaction, mbind, stM_bind, st_get. case_decide; [done|].
  split; [simpl; rewrite length_app; simpl; lia|done].
Qed.

Lemma drain_ok : preserves (kept node_ok) drain_pending_transactions.
Proof. intros nd [Htx Ht]. split; [simpl; rewrite length_drop; lia|done]. Qed.

Lemma next_timestamp_ok clock : preserves (kept node_ok) (next_timestamp clock).
Proof. intros nd. by apply node_ok_same. Qed.

#[local] Hint Resolve requeue_ok drain_ok next_timestamp_ok : preserves.

Lemma sync_with_ok peer clock reply push : preserves (kept node_ok) (sync_with peer clock reply push).
Proof. unfold sync_with, settle_sync. keep; by apply with_gossip_ok. Qed.
End tables.

(** ** Submitted transactions *)

Section transactions.
Context `{Sha256, Ed25519, Bls, HashOrder} `{F : Fjall}.

Lemma requeue_app txs pending :
  length txs + length pending ≤ MAX_PENDING_TRANSACTIONS → requeue txs pending = txs ++ pending.
Proof.
  unfold requeue. revert pending. induction txs as [|tx txs IH] using rev_ind; intros pending Hl; [done|].
  rewrite length_app in Hl. simpl in Hl. rewrite reverse_app. simpl. rewrite decide_False by lia.
  rewrite IH by (simpl; lia). by rewrite <- (assoc_L (++)).
Qed.

Definition queue_of (nd : GossipNode) : list bytes := gs_transactions (nd_gossip nd).

Lemma process_keeps_queue : preserves (same queue_of) process_finalized_rounds.
Proof.
  apply preserves_process; [apply _| |..]; try done. intros. apply preserves_produce; [apply _|done..].
Qed.

Lemma log_fresh_keeps_queue fresh : preserves (same queue_of) (log_fresh_inserts fresh).
Proof.
  assert (∀ k c, preserves (same queue_of) (sink_call k c)) by (intros; by apply preserves_sink_call; [apply _|]).
  unfold log_fresh_inserts. keep.
Qed.

(** The queue after the round has ended with [r]. *)
Lemma settle_queue payload r nd :
  length payload + length (queue_of nd) ≤ MAX_PENDING_TRANSACTIONS →
  queue_of (settle_sync payload r nd).2 =
  match r with
  | inl _ => payload ++ queue_of nd
  | inr outcome => if needs_reconnect outcome then payload ++ queue_of nd else queue_of nd
  end.
Proof.
  intros Hl. destruct r as [e|outcome]; simpl.
  - unfold mbind, stM_bind. destruct (needs_state_transfer e); simpl; unfold queue_of; simpl; by rewrite requeue_app.
  - unfold mbind, stM_bind. destruct (needs_reconnect outcome); simpl.
    + rewrite (log_fresh_keeps_queue (fresh outcome) _). unfold queue_of. simpl. by rewrite requeue_app.
    + by rewrite (log_fresh_keeps_queue (fresh outcome) _).
Qed.

Lemma settle_total payload r nd : ∃ nd', settle_sync payload r nd = (Ok tt, nd').
Proof.
  assert (∀ l nd, ∃ nd', st_for (E := Empty_set) l (λ retained, sink_call EventSink (Append retained) ;;
    sink_call StreamSink (Append retained)) nd = (Ok tt, nd')) as Hfor.
  { induction l as [|x l IH]; intros nd0; [by eexists|]. simpl. unfold mbind, stM_bind at 1. apply IH. }
  destruct r as [e|outcome]; simpl; unfold mbind, stM_bind.
  - destruct (needs_state_transfer e); by eexists.
  - destruct (needs_reconnect outcome); apply Hfor.
Qed.

(** The round itself, on the state it runs in. *)
Definition round_of_sync (nd : GossipNode) (peer : NodeId) (clock : N) (reply : GossipError + Frame) (push : Push) :=
  sync_result (gs_registry (nd_gossip nd)) nd peer (take TX_PER_SYNC (queue_of nd))
    (N.max clock (u64_saturating_add (gs_last_timestamp (nd_gossip nd)) 1)) reply push (hashgraph nd).

(** The node while the round runs: the payload drained, the timestamp taken. *)
Definition started (nd : GossipNode) (clock : N) : GossipNode :=
  set_gossip (Gs.last_timestamp (N.max clock (u64_saturating_add (gs_last_timestamp (nd_gossip nd)) 1))
    (Gs.transactions (drop TX_PER_SYNC (queue_of nd)) (nd_gossip nd))) nd.

Lemma sync_with_eq nd peer clock reply push :
  sync_with peer clock reply push nd =
  let '(r, hg) := round_of_sync nd peer clock reply push in
  let nd1 := set_gossip (Gs.hashgraph hg (nd_gossip (started nd clock))) (started nd clock) in
  match r with
  | Ok outcome => (settle_sync (take TX_PER_SYNC (queue_of nd)) (inr outcome) ;; process_finalized_rounds) nd1
  | Err e => (settle_sync (take TX_PER_SYNC (queue_of nd)) (inl e) ;; process_finalized_rounds) nd1
  | Crash c => (Crash c, nd1)
  end.
Proof.
  unfold sync_with, drain_pending_transactions, next_timestamp, next_timestamp_with_clock, on_hashgraph, st_zoom,
    attempt, hashgraph, round_of_sync, mbind, stM_bind, st_get, with_gossip, st_modify, queue_of.
  cbn -[sync_result settle_sync process_finalized_rounds take drop N.max u64_saturating_add started].
  by destruct (sync_result _ _ _ _ _ _ _ _) as [[] hg].
Qed.

Lemma sync_queue nd peer clock reply push :
  length (queue_of nd) ≤ MAX_PENDING_TRANSACTIONS →
  queue_of (sync_with peer clock reply push nd).2 =
  match (round_of_sync nd peer clock reply push).1 with
  | Err _ => queue_of nd
  | Ok outcome => if needs_reconnect outcome then queue_of nd else drop TX_PER_SYNC (queue_of nd)
  | Crash _ => drop TX_PER_SYNC (queue_of nd)
  end.
Proof.
  intros Hl. rewrite sync_with_eq. destruct (round_of_sync nd peer clock reply push) as [r hg]. cbv zeta.
  set (nd1 := set_gossip (Gs.hashgraph hg _) _).
  assert (∀ r', queue_of ((settle_sync (take TX_PER_SYNC (queue_of nd)) r' ;; process_finalized_rounds) nd1).2 =
    queue_of (settle_sync (take TX_PER_SYNC (queue_of nd)) r' nd1).2) as Hp.
  { intros r'. destruct (settle_total (take TX_PER_SYNC (queue_of nd)) r' nd1) as [nd2 Hs].
    unfold mbind, stM_bind. rewrite Hs. apply process_keeps_queue. }
  assert (queue_of nd1 = drop TX_PER_SYNC (queue_of nd)) as Hq1 by done.
  assert (length (take TX_PER_SYNC (queue_of nd)) + length (queue_of nd1) ≤ MAX_PENDING_TRANSACTIONS) as Hl'
    by (rewrite Hq1, <- length_app, take_drop; done).
  destruct r as [outcome|e|c]; [| |done]; rewrite Hp, settle_queue, Hq1 by done; simpl; by rewrite ?take_drop.
Qed.
End transactions.
