(* ===== verification/NodeAccept.v ===== *)
(** * Accepting checkpoints

    On a database whose writes succeed, signatures of a quorum of the roster
    make the node accept its own checkpoint. *)

From S2P Require Import Prelude Codec External Primitives Membership Graph Ancestry Order Insert Retain RetainFacts.
From S2P Require Import Reconnect Checkpoint CheckpointQuorum Proto Frontier Sync MerkleLog SparseMerkle Did Op State.
From S2P Require Import StateFacts Executor Node NodeFacts.

(** A database whose operations succeed. *)
Class Durable (F : Fjall) : Prop := {
  durable_writable :: Writable F;
  flush_succeeds : ∀ l, db_persist l = Ok tt;
  iter_succeeds : ∀ ks, ∃ l, kv_iter ks = Ok l;
  batch_succeeds : ∀ keys ks, (kv_remove_batch keys ks).1 = Ok tt;
}.

#[export] Instance mem_fjall_durable : Durable mem_fjall.
Proof. split; try done. intros ks. by eexists. Qed.

Section accept.
Context `{Sha256, Ed25519, Bls, HashOrder} `{F : Fjall}.

Lemma bind_run {S E A B} (m : stM S E A) (f : A → stM S E B) s a s' :
  m s = (Ok a, s') → (m ≫= f) s = f a s'.
Proof. unfold mbind, stM_bind. by intros ->. Qed.

Lemma get_run {S E B} (f : S → stM S E B) s : (st_get ≫= f) s = f s s.
Proof. done. Qed.

Lemma on_db_run {A} (m : stM StateDb StateDbError A) nd :
  no_crash (m (ls_db (nd_ledger nd))).1 →
  ∃ o, on_db m nd = (Ok o, set_db (m (ls_db (nd_ledger nd))).2 nd) ∧
    ∀ a, (m (ls_db (nd_ledger nd))).1 = Ok a → o = Some a.
Proof.
  unfold on_db, st_zoom, logged. destruct (m _) as [[a|e|c] db']; simpl; intros Hc.
  - exists (Some a). split; [done|]. by intros ? [= ->].
  - by exists None.
  - by destruct (Hc c).
Qed.

(** *** The database operations do not panic *)

Lemma io_no_crash {A} (m : res fjall_error A) : no_crash m → no_crash (io m).
Proof. intros Hm c. unfold io. destruct m as [|e|c']; [done..|]. by destruct (Hm c'). Qed.

Lemma zoom_no_crash {S T E A} (f : S → T) (u : T → S → S) (m : stM T E A) s :
  no_crash (m (f s)).1 → no_crash (st_zoom f u m s).1.
Proof. unfold st_zoom. by destruct (m (f s)). Qed.

Lemma map_err_st_no_crash {S E E' A} (g : E → E') (m : stM S E A) s :
  no_crash (m s).1 → no_crash (st_map_err g m s).1.
Proof. unfold st_map_err. destruct (m s) as [[|e|c] s']; simpl; intros Hm c'; [done..|]. by destruct (Hm c). Qed.

Lemma on_snap_no_crash {A} (m : stM keyspace fjall_error A) db : no_crash (m (db_snap db)).1 → no_crash (Db.on_snap m db).1.
Proof. intros Hm. by apply zoom_no_crash, map_err_st_no_crash. Qed.
Lemma on_meta_no_crash {A} (m : stM keyspace fjall_error A) db : no_crash (m (db_meta db)).1 → no_crash (Db.on_meta m db).1.
Proof. intros Hm. by apply zoom_no_crash, map_err_st_no_crash. Qed.

Lemma bind_no_crash {S E A B} (m : stM S E A) (f : A → stM S E B) s :
  no_crash (m s).1 → (∀ a s', m s = (Ok a, s') → no_crash (f a s').1) → no_crash ((m ≫= f) s).1.
Proof.
  unfold mbind, stM_bind. destruct (m s) as [[a|e|c] s'] eqn:Hm; simpl; intros Hc Hf; [by apply Hf|done|].
  by destruct (Hc c).
Qed.

Lemma commit_batch_no_crash keys ks : no_crash (Db.commit_batch keys ks).1.
Proof. destruct keys; [done|]. apply kv_remove_batch_safe. Qed.

Lemma flush_no_crash db : no_crash (Db.flush db).1.
Proof. apply io_no_crash, db_persist_safe. Qed.

Lemma set_watermark_no_crash w db : no_crash (Db.set_watermark w db).1.
Proof. apply on_meta_no_crash, kv_insert_safe. Qed.

Lemma snapshot_no_crash round bs db : no_crash (Db.snapshot round bs db).1.
Proof. apply on_snap_no_crash, kv_insert_safe. Qed.

Lemma snapshot_and_flush_no_crash round bs db : no_crash (Db.snapshot_and_flush round bs db).1.
Proof. apply bind_no_crash; [apply snapshot_no_crash|]. intros a db' _. apply flush_no_crash. Qed.

Lemma prune_snapshots_no_crash round db : no_crash (Db.prune_snapshots_before round db).1.
Proof.
  unfold Db.prune_snapshots_before. apply bind_no_crash; [done|]. intros db0 db1 [= -> ->].
  apply bind_no_crash; [apply io_no_crash, kv_iter_safe|]. intros l db2 _. apply on_snap_no_crash, commit_batch_no_crash.
Qed.

(** *** What succeeds on a reliable database *)

Context `{!Durable F}.

Lemma zoom_Ok {S T E A} (f : S → T) (u : T → S → S) (m : stM T E A) s a :
  (m (f s)).1 = Ok a → (st_zoom f u m s).1 = Ok a.
Proof. unfold st_zoom. by destruct (m (f s)). Qed.

Lemma insert_Ok_io k v ks : (st_map_err Io (kv_insert k v) ks).1 = Ok tt.
Proof.
  unfold st_map_err. pose proof (writes_succeed k v ks) as Hw. destruct (kv_insert k v ks) as [r ks']. simpl in *. by subst r.
Qed.

Lemma set_watermark_Ok w db : (Db.set_watermark w db).1 = Ok tt.
Proof. apply zoom_Ok, insert_Ok_io. Qed.

Lemma snapshot_Ok round bs db : (Db.snapshot round bs db).1 = Ok tt.
Proof. apply zoom_Ok, insert_Ok_io. Qed.

Lemma snapshot_and_flush_Ok round bs db : (Db.snapshot_and_flush round bs db).1 = Ok tt.
Proof.
  unfold Db.snapshot_and_flush, mbind, stM_bind. pose proof (snapshot_Ok round bs db) as Hs.
  destruct (Db.snapshot round bs db) as [r db']. simpl in Hs. subst r. simpl. unfold io. by rewrite flush_succeeds.
Qed.

(** *** Acceptance *)

(** What an acceptance changes outside the database. *)
Record accepted_run (sc : SignedCheckpoint) (snapshot : bytes) (nd nd' : GossipNode) : Prop := {
  ar_config : nd_config nd' = nd_config nd;
  ar_tables : nd_checkpoints nd' = record_accepted sc (cp_round (sc_payload sc)) snapshot (nd_checkpoints nd);
  ar_graph : ∃ pruned, prune_before_round (cp_round (sc_payload sc) - RETENTION_ROUNDS) (hashgraph nd)
                       = (Ok pruned, hashgraph nd');
  ar_calls : CheckpointSink ∈ sinks (nd_config nd) →
    (CheckpointSink, PersistCheckpoint sc) ∈ nd_calls nd' ;
}.

Definition call_state (k : SinkKind) (c : SinkCall) (nd : GossipNode) : GossipNode :=
  if decide (k ∈ sinks (nd_config nd)) then set_calls (nd_calls nd ++ [(k, c)]) nd else nd.

Lemma sink_call_run k c nd : sink_call k c nd = (Ok tt, call_state k c nd).
Proof. done. Qed.

(** The parts a sink call or a database write leaves alone. *)
Definition rest_of (nd : GossipNode) := (nd_config nd, nd_gossip nd, nd_checkpoints nd).

Lemma call_state_rest k c nd : rest_of (call_state k c nd) = rest_of nd.
Proof. unfold call_state. by case_decide. Qed.

Lemma call_state_calls k c nd x : x ∈ nd_calls nd → x ∈ nd_calls (call_state k c nd).
Proof. unfold call_state. case_decide; [|done]. intros Hx. simpl. apply elem_of_app. by left. Qed.

Lemma call_state_new k c nd : k ∈ sinks (nd_config nd) → (k, c) ∈ nd_calls (call_state k c nd).
Proof. unfold call_state. intros Hk. rewrite decide_True by done. simpl. apply elem_of_app. right. by left. Qed.

(** Runs that keep [rest_of] and the calls made so far. *)
Definition quiet {A} (m : stM GossipNode Empty_set A) : Prop :=
  ∀ nd, ∃ a nd', m nd = (Ok a, nd') ∧ rest_of nd' = rest_of nd ∧ ∀ x, x ∈ nd_calls nd → x ∈ nd_calls nd'.

Lemma quiet_ret {A} (a : A) : quiet (mret a).
Proof. intros nd. by exists a, nd. Qed.

Lemma quiet_call k c : quiet (sink_call k c).
Proof. intros nd. exists tt, (call_state k c nd). split; [done|]. split; [apply call_state_rest|intros x; apply call_state_calls]. Qed.

Lemma quiet_db {A} (m : stM StateDb StateDbError A) : (∀ db, no_crash (m db).1) → quiet (on_db m).
Proof. intros Hm nd. destruct (on_db_run m nd (Hm _)) as (o & -> & _). by exists o, (set_db (m (ls_db (nd_ledger nd))).2 nd). Qed.

Lemma quiet_bind {A B} (m : stM GossipNode Empty_set A) (f : A → stM GossipNode Empty_set B) :
  quiet m → (∀ a, quiet (f a)) → quiet (m ≫= f).
Proof.
  intros Hm Hf nd. destruct (Hm nd) as (a & nd1 & E1 & R1 & C1). destruct (Hf a nd1) as (b & nd2 & E2 & R2 & C2).
  exists b, nd2. unfold mbind, stM_bind. rewrite E1. split; [done|]. split; [congruence|naive_solver].
Qed.

Lemma quiet_step {A B} (m : stM GossipNode Empty_set A) (f : A → stM GossipNode Empty_set B) nd
    (Q : res Empty_set B * GossipNode → Prop) :
  quiet m →
  (∀ a nd', rest_of nd' = rest_of nd → (∀ x, x ∈ nd_calls nd → x ∈ nd_calls nd') → Q (f a nd')) →
  Q ((m ≫= f) nd).
Proof.
  intros Hm Hf. destruct (Hm nd) as (a & nd' & E & R & C). unfold mbind, stM_bind. rewrite E. by apply Hf.
Qed.

(** A write that succeeds is not skipped. *)
Lemma saved_step {A} (m : stM StateDb StateDbError unit) (k : stM GossipNode Empty_set A) a nd
    (Q : res Empty_set A * GossipNode → Prop) :
  (∀ db, (m db).1 = Ok tt) →
  (∀ nd', rest_of nd' = rest_of nd → (∀ x, x ∈ nd_calls nd → x ∈ nd_calls nd') → Q (k nd')) →
  Q ((o ← on_db m; if decide (o = None) then mret a else k) nd).
Proof.
  intros Hm Hk. destruct (on_db_run m nd) as (o & E & O); [intros c; by rewrite Hm|].
  rewrite (O tt (Hm _)) in E. unfold mbind, stM_bind. rewrite E. simpl. by apply Hk.
Qed.

Lemma prune_Ok t hg : (t < next_round_to_order hg)%N → ∃ pruned, (prune_before_round t hg).1 = Ok pruned.
Proof. intros Ht%N.ltb_lt. unfold prune_before_round. rewrite Ht. simpl. case_decide; by eexists. Qed.

(** The tail of an acceptance, once the checkpoint is recorded. *)
Lemma quiet_finish pruned :
  quiet ((sink_call EventSink (Prune pruned) ;; sink_call EventSink Flush) ;; sink_call StreamSink Flush ;;
         _ ← on_db Db.flush; mret tt).
Proof.
  repeat (apply quiet_bind; [|intros _]); try apply quiet_call; [|apply quiet_ret].
  apply quiet_db, flush_no_crash.
Qed.

Lemma accept_run sc snapshot diffs nd :
  root_of_bytes snapshot = Ok (state_hash (sc_payload sc)) →
  (cp_round (sc_payload sc) - RETENTION_ROUNDS < next_round_to_order (hashgraph nd))%N →
  ∃ nd', accept_checkpoint sc snapshot diffs nd = (Ok tt, nd') ∧ accepted_run sc snapshot nd nd'.
Proof.
  intros Hroot Hlt. unfold accept_checkpoint. cbv zeta.
  unfold mbind at 1, stM_bind at 1, st_lift at 1. rewrite Hroot. cbn beta iota. rewrite decide_False by (by intros []).
  unfold mbind at 1, stM_bind at 1, st_get at 1. cbn beta iota.
  set (Q := λ r : res Empty_set unit * GossipNode, ∃ nd', r = (Ok tt, nd') ∧ accepted_run sc snapshot nd nd').
  match goal with |- ∃ nd', ?X = _ ∧ _ => change (Q X) end.
  apply saved_step; [apply set_watermark_Ok|]. intros nd1 R1 C1.
  apply saved_step; [apply snapshot_and_flush_Ok|]. intros nd2 R2 C2.
  unfold mbind at 1, stM_bind at 1. rewrite sink_call_run.
  pose proof (call_state_rest CheckpointSink (PersistCheckpoint sc) nd2) as R3.
  pose proof (call_state_new CheckpointSink (PersistCheckpoint sc) nd2) as C3.
  set (nd3 := call_state _ _ nd2) in *. rewrite R2, R1 in R3.
  assert (nd_config nd2 = nd_config nd) as Hc2 by (rewrite R1 in R2; by injection R2). rewrite Hc2 in C3.
  apply quiet_step; [apply quiet_call|]. intros _ nd4 R4 C4.
  apply quiet_step; [destruct (proof_is_record _); [apply quiet_ret|apply quiet_call]|]. intros _ nd5 R5 C5.
  rewrite R4, R3 in R5. unfold mbind at 1, stM_bind at 1. unfold with_checkpoints at 1, st_modify at 1.
  apply quiet_step; [apply quiet_db, prune_snapshots_no_crash|]. intros _ nd6 R6 C6.
  injection R5 as Hc5 Hg5 Hk5. injection R6 as Hc6 Hg6 Hk6. rewrite Hc5 in Hc6. rewrite Hg5 in Hg6. rewrite Hk5 in Hk6.
  assert (hashgraph nd6 = hashgraph nd) as Hh by (unfold hashgraph; by rewrite Hg6).
  unfold mbind at 1, stM_bind at 1, on_hashgraph at 1, st_zoom at 1, logged at 1. rewrite Hh.
  destruct (prune_Ok _ _ Hlt) as [pruned Hp].
  destruct (prune_before_round _ (hashgraph nd)) as [r hg'] eqn:Hrun. simpl in Hp. subst r. cbv beta iota.
  destruct (quiet_finish pruned (set_gossip (Gs.hashgraph hg' (nd_gossip nd6)) nd6)) as ([] & nd7 & E7 & R7 & C7).
  exists nd7. split; [exact E7|]. injection R7 as Hc7 Hg7 Hk7. split.
  - congruence.
  - by rewrite Hk7, Hk6.
  - exists pruned. rewrite Hrun. unfold hashgraph at 1. by rewrite Hg7.
  - intros Hs. apply C7, C6, C5, C4, C3, Hs.
Qed.

(** *** Signatures of a quorum *)

(** The node has produced the checkpoint of [payload]'s round and collects
    signatures for it. *)
Record collecting (payload : CheckpointPayload) (acc : CheckpointAccumulator) (nd : GossipNode) : Prop := {
  col_acc : cs_accumulators (nd_checkpoints nd) !! cp_round payload = Some acc;
  col_payload : acc_payload acc = payload;
  col_filed : filed acc;
  col_open : supermajority (size (acc_sigs acc)) (Registry.len (roster_snapshot payload)) = false;
  col_roster : registry_at_round (hashgraph nd) (cp_round payload) = Ok (roster_snapshot payload);
  col_decided : is_round_decided (hashgraph nd) (cp_round payload) = true;
  col_new : (accepted_watermark nd < cp_round payload)%N;
  col_root : root_of_bytes (acc_snapshot acc) = Ok (state_hash payload);
  col_kept : (cp_round payload - RETENTION_ROUNDS < next_round_to_order (hashgraph nd))%N;
}.

(** The node has accepted a checkpoint of [payload]. *)
Record has_accepted (payload : CheckpointPayload) (snapshot : bytes) (nd : GossipNode) : Prop := {
  ha_signed : ∃ sc, sc ∈ cs_signed (nd_checkpoints nd) ∧ sc_payload sc = payload ∧ verify sc = true ∧
    (CheckpointSink ∈ sinks (nd_config nd) → (CheckpointSink, PersistCheckpoint sc) ∈ nd_calls nd);
  ha_snapshot : cs_snapshots (nd_checkpoints nd) !! cp_round payload = Some snapshot;
  ha_watermark : (cp_round payload ≤ accepted_watermark nd)%N;
}.

#[local] Instance round_le_trans : Transitive round_le.
Proof. intros a b c. unfold round_le. lia. Qed.
#[local] Instance round_le_total : Total round_le.
Proof. intros a b. unfold round_le. lia. Qed.

Lemma last_merge_sort (l : list SignedCheckpoint) sc :
  sc ∈ l → ∃ top, last (merge_sort round_le l) = Some top ∧ round_le sc top.
Proof.
  intros Hin. assert (sc ∈ merge_sort round_le l) as Hin' by (by rewrite merge_sort_Permutation).
  pose proof (StronglySorted_merge_sort round_le l) as Hsorted. revert Hin' Hsorted.
  generalize (merge_sort round_le l). clear. intros l. destruct l as [|x l _] using rev_ind; [by intros ?%elem_of_nil|].
  rewrite last_snoc. intros [Hin| ->%list_elem_of_singleton]%elem_of_app Hs; exists x; (split; [done|]).
  - apply StronglySorted_app in Hs as (Hs & _ & _). apply (Hs sc x); [done|]. by left.
  - unfold round_le. lia.
Qed.

Lemma record_accepted_has sc snapshot nd nd' :
  verify sc = true → accepted_run sc snapshot nd nd' → has_accepted (sc_payload sc) snapshot nd'.
Proof.
  intros Hv [Hc Ht _ Hcall]. split.
  - exists sc. rewrite Ht, Hc. split; [|done]. simpl. rewrite merge_sort_Permutation. apply elem_of_app. right. by left.
  - rewrite Ht. simpl. apply map_lookup_filter_Some_2; [apply lookup_insert_eq|simpl; lia].
  - unfold accepted_watermark, latest_accepted_checkpoint_round. rewrite Ht. simpl.
    destruct (last_merge_sort (cs_signed (nd_checkpoints nd) ++ [sc]) sc) as (top & -> & Hle); [|done].
    apply elem_of_app. right. by left.
Qed.

(** Signatures of an accepted round are dropped. *)
Lemma submit_accepted s nd :
  (sig_round s ≤ accepted_watermark nd)%N → submit_checkpoint_sig s nd = (Ok tt, nd).
Proof. intros Hle. unfold submit_checkpoint_sig, mbind, stM_bind, st_get. by rewrite decide_True. Qed.

(** A valid signature for the round being collected reaches the accumulator. *)
Lemma submit_collecting payload acc s nd :
  collecting payload acc nd → valid_sig payload s →
  submit_checkpoint_sig s nd =
  match Accumulator.add_sig s (roster_snapshot payload) acc with
  | (Some accepted, acc) =>
      (set_accumulator (cp_round payload) None ;; accept_checkpoint accepted (acc_snapshot acc) []) nd
  | (None, acc) => set_accumulator (cp_round payload) (Some acc) nd
  end.
Proof.
  intros [Ha Hp Hf Ho Hr Hd Hn Hroot Hk] Hs. pose proof (valid_sig_member _ _ Hs) as Hm. destruct Hs as [Hs Hv].
  assert (registry_at (sig_round s) nd = (Ok (roster_snapshot payload), nd)) as Hreg.
  { unfold registry_at, st_lift. by rewrite Hs, Hr. }
  assert (is_pending_sig_admissible s nd = (Ok true, nd)) as Hadm.
  { unfold is_pending_sig_admissible, mbind, stM_bind. rewrite Hreg. unfold Registry.contains.
    by rewrite bool_decide_eq_true_2. }
  rewrite <- Hs in Ha, Hd. unfold submit_checkpoint_sig. rewrite get_run, decide_False by (rewrite Hs; lia).
  rewrite (bind_run _ _ _ _ _ Hadm). cbn [negb]. rewrite Hd.
  unfold feed_checkpoint_sig. rewrite get_run, decide_False by (rewrite Hs; lia).
  rewrite (bind_run _ _ _ _ _ Hadm). cbn [negb]. rewrite Ha.
  rewrite (bind_run _ _ _ _ _ Hreg), Hp, Hv. cbn [negb]. rewrite Hs.
  by destruct (Accumulator.add_sig _ _ _) as [[]].
Qed.

Lemma submit_all_accepted payload sigs nd :
  Forall (valid_sig payload) sigs → (cp_round payload ≤ accepted_watermark nd)%N →
  st_for sigs submit_checkpoint_sig nd = (Ok tt, nd).
Proof.
  intros Hv Hw. induction Hv as [|s' sigs [Hs' _] _ IHs]; [done|].
  cbn [st_for]. by rewrite (bind_run _ _ _ _ _ (submit_accepted s' nd ltac:(by rewrite Hs'))).
Qed.

Lemma quorum_run payload sigs acc nd :
  keys_independent payload → collecting payload acc nd → Forall (valid_sig payload) sigs →
  supermajority (size (list_to_set (sig_signer <$> sigs) ∪ dom (acc_sigs acc) : gset NodeId))
    (Registry.len (roster_snapshot payload)) = true →
  ∃ nd', st_for sigs submit_checkpoint_sig nd = (Ok tt, nd') ∧ has_accepted payload (acc_snapshot acc) nd'.
Proof.
  intros Hind. revert acc nd. induction sigs as [|s sigs IH]; intros acc nd Hcol Hv Hq.
  { simpl in Hq. rewrite (left_id_L ∅ (∪)), size_dom in Hq. destruct Hcol. congruence. }
  apply Forall_cons in Hv as [Hs Hv]. pose proof (submit_collecting _ _ _ _ Hcol Hs) as Hsub.
  pose proof Hcol as [Ha Hp Hf Ho Hr Hd Hn Hroot Hk].
  destruct (add_sig_valid s acc) as [Hf' Hadd]; [try rewrite Hp; done..|]. rewrite Hp in Hadd.
  set (acc' := Accumulator.note_sig s acc) in *. cbn [st_for]. unfold mbind at 1, stM_bind at 1. rewrite Hsub.
  destruct Hadd as [[Hq' ->]|(Hq' & sc & -> & Hpay & Hver & _)].
  - cbn. destruct (IH acc' (set_checkpoints (Cs.accumulators (<[cp_round payload := acc']>
      (cs_accumulators (nd_checkpoints nd))) (nd_checkpoints nd)) nd)) as (nd' & Hrun & Hacc); [|done| |].
    + split; try done; [apply lookup_insert_eq].
    + unfold acc'. rewrite note_sig_dom. rewrite <- Hq. do 2 f_equal. simpl. set_solver.
    + by exists nd'.
  - unfold mbind at 1, stM_bind at 1. unfold set_accumulator at 1, with_checkpoints at 1, st_modify at 1.
    set (nd1 := set_checkpoints _ nd).
    destruct (accept_run sc (acc_snapshot acc') [] nd1) as (nd2 & -> & Hrun); [by rewrite Hpay..|].
    apply record_accepted_has in Hrun as Hacc; [|done]. rewrite Hpay in Hacc. exists nd2. split; [|done].
    by apply (submit_all_accepted payload), Hacc.
Qed.
(** A peer's aggregate for the same payload is adopted. *)
Lemma adopt_run sc acc nd :
  collecting (sc_payload sc) acc nd → verify sc = true →
  (cp_round (sc_payload sc) ≤ highest_decided_round (hashgraph nd))%N →
  ∃ nd', adopt_signed_checkpoint sc nd = (Ok true, nd') ∧ has_accepted (sc_payload sc) (acc_snapshot acc) nd'.
Proof.
  intros [Ha Hp Hf Ho Hr Hd Hn Hroot Hk] Hv Hhigh. unfold adopt_signed_checkpoint. cbv zeta.
  rewrite get_run, !decide_False by lia. rewrite Ha, decide_False by (rewrite Hp; by intros []). rewrite Hv. cbn [negb].
  erewrite bind_run by done. erewrite bind_run by done.
  match goal with |- context [accept_checkpoint _ _ ?d ≫= ?k] =>
    match goal with |- context [(accept_checkpoint _ _ d ≫= k) ?nd0] =>
      destruct (accept_run sc (acc_snapshot acc) d nd0 Hroot Hk) as (nd2 & Hacc & Hrun)
    end end.
  rewrite (bind_run _ _ _ _ _ Hacc), get_run. apply record_accepted_has in Hrun as Hhas; [|done]. exists nd2. split; [|done].
  destruct Hhas as [(sc' & Hin & _) _ Hw]. unfold accepted_watermark in Hw. unfold mret, stM_ret. do 2 f_equal.
  destruct (latest_accepted_checkpoint_round nd2) as [r|] eqn:Hl; simpl in Hw; [by apply N.leb_le|].
  unfold latest_accepted_checkpoint_round in Hl. apply fmap_None, last_None in Hl. rewrite Hl in Hin. by apply elem_of_nil in Hin.
Qed.

(** *** Producing the checkpoint *)

(** An accumulator below the quorum, or the checkpoint that it yielded. *)
Definition progress (payload : CheckpointPayload) (snapshot : bytes) (r : option SignedCheckpoint * CheckpointAccumulator) : Prop :=
  acc_payload r.2 = payload ∧ acc_snapshot r.2 = snapshot ∧ filed r.2 ∧
  match r.1 with
  | None => supermajority (size (acc_sigs r.2)) (Registry.len (roster_snapshot payload)) = false
  | Some sc => sc_payload sc = payload ∧ verify sc = true
  end.

Lemma add_sig_progress payload snapshot s acc :
  keys_independent payload → progress payload snapshot (None, acc) →
  verify_checkpoint_sig s (Payload.signing_bytes payload) (roster_snapshot payload) = true →
  let r := Accumulator.add_sig s (roster_snapshot payload) acc in
  progress payload snapshot r ∧ dom (acc_sigs acc) ⊆ dom (acc_sigs r.2) ∧
  (sig_round s = cp_round payload → sig_signer s ∈ dom (acc_sigs r.2)).
Proof.
  intros Hind (Hp & Hsn & Hf & Hno) Hv. simpl in *. subst payload snapshot.
  destruct (decide (sig_round s = cp_round (acc_payload acc))) as [Hr|Hr].
  - assert (valid_sig (acc_payload acc) s) as Hs by done.
    destruct (add_sig_valid s acc Hind Hf Hs Hno) as [Hf' Hadd].
    assert (dom (acc_sigs acc) ⊆ dom (acc_sigs (Accumulator.note_sig s acc)) ∧
            sig_signer s ∈ dom (acc_sigs (Accumulator.note_sig s acc))) as [Hsub Hin] by (rewrite note_sig_dom; set_solver).
    destruct Hadd as [[Hq' ->]|(Hq' & sc & -> & Hpay & Hver & Hsig)]; (split; [|done]); done.
  - unfold Accumulator.add_sig. by rewrite decide_True.
Qed.

Lemma flush_progress payload snapshot pending accepted acc :
  keys_independent payload → progress payload snapshot (accepted, acc) →
  let r := flush_pending pending (roster_snapshot payload) accepted acc in
  progress payload snapshot r ∧ dom (acc_sigs acc) ⊆ dom (acc_sigs r.2).
Proof.
  cbv zeta. intros Hind. revert accepted acc. induction pending as [|s pending IH]; intros [sc|] acc Hpr; simpl; try done.
  pose proof Hpr as (Hp & _). simpl in Hp. rewrite Hp. destruct (verify_checkpoint_sig s _ _) eqn:Hv; [|by apply IH].
  destruct (add_sig_progress payload snapshot s acc Hind Hpr Hv) as (Hpr' & Hsub & _).
  destruct (Accumulator.add_sig s _ acc) as [accepted acc']. destruct (IH accepted acc' Hpr') as [Hpr'' Hsub'].
  split; [done|]. simpl in Hsub. set_solver.
Qed.

Lemma with_checkpoints_run f nd : with_checkpoints f nd = (Ok tt, set_checkpoints (f (nd_checkpoints nd)) nd).
Proof. done. Qed.

Lemma with_checkpoints_again f cs nd : with_checkpoints f (set_checkpoints cs nd) = (Ok tt, set_checkpoints (f cs) nd).
Proof. done. Qed.

(** What the first signatures lead to. *)
Lemma conclude_run payload snapshot r diffs cs nd :
  progress payload snapshot r →
  registry_at_round (hashgraph nd) (cp_round payload) = Ok (roster_snapshot payload) →
  is_round_decided (hashgraph nd) (cp_round payload) = true → root_of_bytes snapshot = Ok (state_hash payload) →
  cs_signed cs = cs_signed (nd_checkpoints nd) → (accepted_watermark nd < cp_round payload)%N →
  (cp_round payload - RETENTION_ROUNDS < next_round_to_order (hashgraph nd))%N →
  ∃ nd', match r with
         | (Some accepted, acc) =>
             set_accumulator (cp_round payload) None ;; accept_checkpoint accepted (acc_snapshot acc) diffs
         | (None, acc) => set_accumulator (cp_round payload) (Some acc)
         end (set_checkpoints cs nd) = (Ok tt, nd') ∧
    (has_accepted payload snapshot nd' ∨ collecting payload r.2 nd').
Proof.
  destruct r as [[sc|] acc]; intros (Hp & Hsn & Hf & Hr) Hreg Hdec Hroot Hcs Hnew Hkept; simpl in *.
  - destruct Hr as [Hpay Hver]. unfold set_accumulator. rewrite (bind_run _ _ _ _ _ (with_checkpoints_again _ cs nd)).
    match goal with |- context [accept_checkpoint _ _ _ ?nd0] =>
      destruct (accept_run sc (acc_snapshot acc) diffs nd0) as (nd2 & -> & Hrun); [by rewrite Hpay, Hsn|by rewrite Hpay|] end.
    exists nd2. split; [done|]. left. rewrite <- Hpay, <- Hsn. by eapply record_accepted_has.
  - eexists. split; [done|]. right. split; try done.
    + apply lookup_insert_eq.
    + unfold accepted_watermark, latest_accepted_checkpoint_round in *. simpl. by rewrite Hcs.
    + by rewrite Hsn.
Qed.

(** The node's key in the roster of a round is its own. *)
Definition own_key_registered (roster : MembershipRegistry) (nd : GossipNode) : Prop :=
  signer_key roster (own_id nd) = Some (bls_public (bls_secret (nd_config nd))).

(** Producing the checkpoint of a decided round ends in its acceptance, or in
    an accumulator that holds the node's own signature. *)
Lemma produce_run round hashes snaps diffs snapshot payload nd :
  keys_independent payload → own_key_registered (roster_snapshot payload) nd →
  snd <$> bt_last N.le (λ r, (r ≤ round)%N) snaps = Some snapshot →
  canonical_checkpoint_payload_chained (hashgraph nd) round hashes (cs_signed (nd_checkpoints nd)) = Ok payload →
  root_of_bytes snapshot = Ok (state_hash payload) →
  cs_accumulators (nd_checkpoints nd) !! round = None → (accepted_watermark nd < round)%N →
  (round - RETENTION_ROUNDS < next_round_to_order (hashgraph nd))%N →
  ∃ nd', produce_checkpoint round hashes snaps diffs nd = (Ok tt, nd') ∧
    (has_accepted payload snapshot nd' ∨
     ∃ acc, collecting payload acc nd' ∧ acc_snapshot acc = snapshot ∧ own_id nd ∈ dom (acc_sigs acc)).
Proof.
  intros Hind Hown Hsnap Hpay Hroot Hacc Hnew Hkept.
  pose proof (chained_payload_spec _ _ _ _ _ Hpay) as (Hround & Hdec & Hreg & _).
  unfold produce_checkpoint. rewrite Hsnap. cbv zeta.
  rewrite (bind_run _ _ _ _ _ (with_checkpoints_run _ nd)), get_run.
  set (nd1 := set_checkpoints _ nd). change (hashgraph nd1) with (hashgraph nd).
  change (cs_signed (nd_checkpoints nd1)) with (cs_signed (nd_checkpoints nd)). rewrite Hpay.
  change (cs_accumulators (nd_checkpoints nd1)) with (cs_accumulators (nd_checkpoints nd)). rewrite Hacc.
  change (nd_config nd1) with (nd_config nd). change (own_id nd1) with (own_id nd). cbn [default].
  set (own_sig := {| sig_round := round |}). unfold nd1.
  rewrite (bind_run _ _ _ _ _ (with_checkpoints_again _ _ nd)). set (cs2 := Cs.outbound _ _).
  assert (registry_at round (set_checkpoints cs2 nd) = (Ok (roster_snapshot payload), set_checkpoints cs2 nd)) as Hra.
  { unfold registry_at, st_lift. change (hashgraph (set_checkpoints cs2 nd)) with (hashgraph nd). by rewrite Hreg. }
  rewrite (bind_run _ _ _ _ _ Hra), (bind_run _ _ _ _ _ (with_checkpoints_again _ _ nd)).
  set (cs3 := Cs.pending_sigs _ _). set (pending := default [] _).
  destruct (add_sig_progress payload snapshot own_sig (Accumulator.new payload snapshot)) as (Hpr & _ & Hin); [done|..].
  { split; [done|]. split; [done|]. split; [intros k s Hk; simpl in Hk; by rewrite lookup_empty in Hk|].
    simpl. by rewrite map_size_empty. }
  { unfold verify_checkpoint_sig. simpl. rewrite Hown. apply bls_sign_verify. }
  destruct (Accumulator.add_sig own_sig _ _) as [accepted acc1]. specialize (Hin (eq_sym Hround)).
  destruct (flush_progress payload snapshot pending accepted acc1 Hind Hpr) as [Hpr2 Hsub].
  rewrite <- Hround in *.
  edestruct (conclude_run payload snapshot _ (default [] (diffs !! cp_round payload)) cs3 nd Hpr2) as (nd' & Hrun & Hres);
    try done.
  exists nd'. split; [exact Hrun|]. destruct Hres as [?|Hcol]; [by left|right].
  eexists. split; [exact Hcol|]. split; [by destruct Hpr2 as (_ & ? & _)|]. apply Hsub, Hin.
Qed.

(** The signatures of a quorum, the node's own included, arriving after the
    checkpoint was produced. *)
Lemma produced_quorum_run round hashes snaps diffs snapshot payload sigs nd :
  keys_independent payload → own_key_registered (roster_snapshot payload) nd →
  snd <$> bt_last N.le (λ r, (r ≤ round)%N) snaps = Some snapshot →
  canonical_checkpoint_payload_chained (hashgraph nd) round hashes (cs_signed (nd_checkpoints nd)) = Ok payload →
  root_of_bytes snapshot = Ok (state_hash payload) →
  cs_accumulators (nd_checkpoints nd) !! round = None → (accepted_watermark nd < round)%N →
  (round - RETENTION_ROUNDS < next_round_to_order (hashgraph nd))%N →
  Forall (valid_sig payload) sigs →
  supermajority (size ({[ own_id nd ]} ∪ list_to_set (sig_signer <$> sigs) : gset NodeId))
    (Registry.len (roster_snapshot payload)) = true →
  ∃ nd', (produce_checkpoint round hashes snaps diffs ;; st_for sigs submit_checkpoint_sig) nd = (Ok tt, nd') ∧
    has_accepted payload snapshot nd'.
Proof.
  intros Hind Hown Hsnap Hpay Hroot Hacc Hnew Hkept Hv Hq.
  destruct (produce_run round hashes snaps diffs snapshot payload nd) as (nd1 & Hrun & Hres); try done.
  rewrite (bind_run _ _ _ _ _ Hrun). destruct Hres as [Hdone|(acc & Hcol & <- & Hin)].
  - exists nd1. split; [|done]. by apply (submit_all_accepted payload), Hdone.
  - apply (quorum_run payload); [done..|]. apply supermajority_spec. apply supermajority_spec in Hq.
    enough (size ({[own_id nd]} ∪ list_to_set (sig_signer <$> sigs) : gset NodeId)
            ≤ size (list_to_set (sig_signer <$> sigs) ∪ dom (acc_sigs acc) : gset NodeId)) by lia.
    apply subseteq_size. set_solver.
Qed.
End accept.
