(* ===== verification/Recovery.v ===== *)
(** * Recovering a node

    [gossip/src/node.rs] and [reconnect.rs]: what a teacher serves to a node
    that fell behind, the validation of the response and its installation
    ([apply_checkpoint]); [node/src/restart.rs]: the same from the node's own
    database and event log.  A refused response is [Err tt] of the
    validation, and [false] of the handler. *)

From S2P Require Import Prelude Codec External Primitives Membership Graph Ancestry Order Insert Retain Reconnect.
From S2P Require Import Checkpoint EventLog Proto Kahn Frontier Sync MerkleLog SparseMerkle Did Op State Executor Node.

(** ** Sorting the retained events *)

Section topo.
Context `{Sha256}.

Fixpoint index_retained (index : nat) (l : list RetainedEvent) (m : gmap EventHash nat) :
    res unit (gmap EventHash nat) :=
  match l with
  | [] => mret m
  | record :: l => hash ← ok_opt (event_hash (re_event record)); index_retained (S index) l (<[hash := index]> m)
  end.

(** The edges into [index] from those of its parents that are in the
    transfer. *)
Fixpoint link_parents (by_hash : gmap EventHash nat) (index : nat) (ps : list EventHash)
    (incoming : list N) (children : list (list nat)) : res unit (list N * list (list nat)) :=
  match ps with
  | [] => mret (incoming, children)
  | p :: ps =>
      match by_hash !! p with
      | None => link_parents by_hash index ps incoming children
      | Some parent_index =>
          kids ← expect (children !! parent_index);
          degree ← expect (incoming !! index);
          link_parents by_hash index ps (<[index := (degree + 1)%N]> incoming)
            (<[parent_index := kids ++ [index]]> children)
      end
  end.

Fixpoint link_all (by_hash : gmap EventHash nat) (index : nat) (l : list RetainedEvent)
    (incoming : list N) (children : list (list nat)) : res unit (list N * list (list nat)) :=
  match l with
  | [] => mret (incoming, children)
  | record :: l =>
      '(incoming, children) ← link_parents by_hash index (parents (re_event record)) incoming children;
      link_all by_hash (S index) l incoming children
  end.

Definition topo_sort_retained (retained : list RetainedEvent) : res unit (list nat) :=
  let n := length retained in
  by_hash ← index_retained 0 retained ∅;
  '(incoming, children) ← link_all by_hash 0 retained (replicate n 0%N) (replicate n []);
  let ready := (filter (λ e, e.2 = 0%N) (imap pair incoming)).*1 in
  order ← emit n children incoming ready [];
  if decide (length order = n) then mret order else Err tt.
End topo.

(** ** Validation *)

Section recovery.
Context `{Sha256, Ed25519, Bls, HashOrder} `{F : Fjall}.

Definition guard_false (b : bool) : res unit unit := if b then Ok tt else Err tt.

(** Steps 1 to 3b: the state, the roster history and this node's own key. *)
Definition check_state (checkpoint : SignedCheckpoint) (state_bytes : bytes) : res unit unit :=
  verified_root ← root_of_bytes state_bytes;
  guard_false (bool_decide (verified_root = state_hash (sc_payload checkpoint))).

Definition check_roster (checkpoint : SignedCheckpoint) (rh : RosterHistory) : res unit unit :=
  let p := sc_payload checkpoint in
  roster_at_cp ← Roster.roster_for_round rh (cp_round p);
  guard_false (bool_decide (Registry.hash roster_at_cp = roster_hash p)) ;;
  root ← ok_opt (compute_roster_history_root rh (cp_round p) SIGNED_WINDOW_ROUNDS);
  guard_false (bool_decide (root = roster_history_root p)).

Definition check_own_key (checkpoint : SignedCheckpoint) (id : NodeId) (own_key : bytes) : res unit unit :=
  key ← ok_opt (Registry.key_for (roster_snapshot (sc_payload checkpoint)) id);
  guard_false (bool_decide (key = own_key)).

(** Step 4: every signature, against the checkpoint's roster. *)
Fixpoint verify_retained (registry : MembershipRegistry) (l : list RetainedEvent) : res unit unit :=
  match l with
  | [] => mret tt
  | record :: l => _ ← ok_opt (verify_event registry (re_event record)); verify_retained registry l
  end.

(** Step 5. *)
Definition check_decided_round (cp_round decided_round : N) (retained : list RetainedEvent) : res unit unit :=
  let max_retained_round := match retained with [] => cp_round | _ => foldr N.max 0%N (re_round <$> retained) end in
  guard_false (bool_decide (cp_round ≤ decided_round ∧ decided_round ≤ max_retained_round ∧
                            decided_round - cp_round ≤ N.of_nat (length retained))%N).

(** Step 7: [slots[index].take()] and [insert_accepted], in order. *)
Fixpoint insert_retained (decided_round : N) (order : list nat) (slots : list (option RetainedEvent))
    (hg : Hashgraph) : res unit Hashgraph :=
  match order with
  | [] => mret hg
  | index :: order =>
      slot ← expect (slots !! index);
      record ← ok_or slot tt;
      let '(r, hg) := insert_accepted record decided_round hg in
      _ ← ok_opt r;
      insert_retained decided_round order (<[index := None]> slots) hg
  end.

Definition rebuild_graph (checkpoint : SignedCheckpoint) (rh : RosterHistory) (decided_round : N)
    (retained : list RetainedEvent) : res unit Hashgraph :=
  let p := sc_payload checkpoint in
  order ← topo_sort_retained retained;
  canonical_roster ← ok_or (canonical_roster_history rh (cp_round p) SIGNED_WINDOW_ROUNDS) tt;
  hg ← insert_retained decided_round order (Some <$> retained)
         (from_checkpoint (cp_round p) (roster_snapshot p) canonical_roster);
  let '(r, hg) := mark_decided_through decided_round hg in
  _ ← ok_opt r;
  mret hg.

(** Step 7b, skipped for an empty transfer. *)
Definition check_window (checkpoint : SignedCheckpoint) (retained : list RetainedEvent) (hg : Hashgraph) :
    res unit unit :=
  match retained with
  | [] => mret tt
  | _ =>
      root ← ok_opt (try_compute_window_root hg (cp_round (sc_payload checkpoint)) SIGNED_WINDOW_ROUNDS);
      guard_false (bool_decide (root = window_root (sc_payload checkpoint)))
  end.

(** Every check of [apply_checkpoint]: the graph to install. *)
Definition validate_response (id : NodeId) (own_key : bytes) (resp : ReconnectResponse) : res unit Hashgraph :=
  let checkpoint := rr_signed_checkpoint resp in
  check_state checkpoint (rr_state_bytes resp) ;;
  rh ← decode_roster_history (rr_roster_history_bytes resp);
  check_roster checkpoint rh ;;
  check_own_key checkpoint id own_key ;;
  verify_retained (roster_snapshot (sc_payload checkpoint)) (rr_retained resp) ;;
  check_decided_round (cp_round (sc_payload checkpoint)) (rr_decided_round resp) (rr_retained resp) ;;
  hg ← rebuild_graph checkpoint rh (rr_decided_round resp) (rr_retained resp);
  check_window checkpoint (rr_retained resp) hg ;;
  mret hg.

(** ** Installation *)

Abbreviation node_action := (stM GossipNode Empty_set).

(** Step 8: [State::from_bytes] into the live keyspace. *)
Definition rebuild_state (state_bytes : bytes) : node_action (option State) := λ nd,
  let db := ls_db (nd_ledger nd) in
  let '(r, ks) := logged (State.from_bytes state_bytes) (db_state db) in
  (r, set_db (mkStateDb F ks (db_snap db) (db_meta db)) nd).

(** Step 9: the graph and the executor, and the tables of the round. *)
Definition install_ledger (s : State) (cp_round : N) (nd : GossipNode) : GossipNode :=
  let act := ls_activation (nd_ledger nd) in
  set_ledger {| ls_db := ls_db (nd_ledger nd); ls_tree := tree s; ls_executed := ∅;
                ls_activation :=
                  {| act_pending := act_pending act;
                     act_processed_through_round := N.max (act_processed_through_round act) cp_round;
                     act_checkpoint_watermark := N.max (act_checkpoint_watermark act) cp_round |} |} nd.

Definition install_tables (checkpoint : SignedCheckpoint) (state_bytes : bytes) (cs : CheckpointState) :
    CheckpointState :=
  let round := cp_round (sc_payload checkpoint) in
  Cs.snapshots (<[round := state_bytes]> (cs_snapshots cs))
    (Cs.state_hashes (<[round := state_hash (sc_payload checkpoint)]> {[ 0%N := tree_root new_tree ]})
       (Cs.signed (cs_signed cs ++ [checkpoint]) cs)).

(** Step 12b. *)
Definition restored_timestamp (id : NodeId) (last_timestamp : N) (retained : list RetainedEvent) : N :=
  N.max last_timestamp
    (foldr N.max 0%N ((λ r, timestamp (re_event r)) <$> filter (λ r, creator (re_event r) = id) retained)).

(** The commit after the durable writes; the recorded order of the writes to
    separate tables is immaterial, that of the sink calls is kept. *)
Definition install (resp : ReconnectResponse) (hg : Hashgraph) (s : State) : node_action unit :=
  let checkpoint := rr_signed_checkpoint resp in
  let p := sc_payload checkpoint in
  st_modify (install_ledger s (cp_round p)) ;;
  with_gossip (λ gs, Gs.registry (roster_snapshot p) (Gs.hashgraph hg gs)) ;;
  with_checkpoints (install_tables checkpoint (rr_state_bytes resp)) ;;
  st_for (rr_retained resp) (λ record,
    sink_call EventSink (Append record) ;; sink_call StreamSink (Append record)) ;;
  sink_call EventSink (SetRosterHistory (rr_roster_history_bytes resp)) ;;
  nd ← st_get;
  with_gossip (λ gs, Gs.last_timestamp
    (N.max (gs_last_timestamp gs) (restored_timestamp (own_id nd) (rr_last_timestamp resp) (rr_retained resp))) gs) ;;
  nd ← st_get;
  _ ← on_db (Db.set_watermark (gs_last_timestamp (nd_gossip nd)));
  sink_call CheckpointSink (PersistCheckpoint checkpoint).

Definition apply_checkpoint (resp : ReconnectResponse) : node_action bool :=
  nd ← st_get;
  match validate_response (own_id nd) (ed_public (signing_key (nd_config nd))) resp with
  | Crash c => st_lift (λ _, Crash c)
  | Err _ => mret false
  | Ok hg =>
      cleared ← on_db Db.clear_state;
      if decide (cleared = None) then mret false else
      rebuilt ← rebuild_state (rr_state_bytes resp);
      match rebuilt with
      | None => mret false
      | Some s =>
          saved ← on_db (Db.snapshot (cp_round (sc_payload (rr_signed_checkpoint resp))) (rr_state_bytes resp));
          if decide (saved = None) then mret false else
          install resp hg s ;; mret true
      end
  end.

(** ** The reconnect protocol *)

Definition verify_signed_checkpoint (checkpoint : SignedCheckpoint) (expected_roster_hash : bytes) : bool :=
  bool_decide (roster_hash (sc_payload checkpoint) = expected_roster_hash) && verify checkpoint.

(** [fetch_checkpoint] on the frame received. *)
Definition fetch_checkpoint (trusted_roster_hash : bytes) (reply : Frame) : res GossipError ReconnectResponse :=
  match reply with
  | FrameReconnectResponse resp =>
      if verify_signed_checkpoint (rr_signed_checkpoint resp) trusted_roster_hash then Ok resp
      else Err (ReconnectFailed "checkpoint failed quorum verification")
  | other => Err (UnexpectedFrame "ReconnectResponse" (frame_name other))
  end.

(** The driver with the reply of one candidate: whether it recovered. *)
Definition reconnect_with (reply : Frame) : node_action bool :=
  nd ← st_get;
  let registry := gs_registry (nd_gossip nd) in
  if decide (Registry.len registry = 0) then mret false else
  match fetch_checkpoint (Registry.hash registry) reply with
  | Ok resp =>
      applied ← apply_checkpoint resp;
      (if (applied : bool) then with_gossip (Gs.needs_reconnect false) else mret tt) ;;
      mret applied
  | Err _ => mret false
  | Crash c => st_lift (λ _, Crash c)
  end.

(** [handle_reconnect_inbound]: the response of a teacher, if it serves one. *)
Definition serve_reconnect (nd : GossipNode) : res Empty_set (option ReconnectResponse) :=
  match last (cs_signed (nd_checkpoints nd)) with
  | None => mret None
  | Some checkpoint =>
      let cp_round := cp_round (sc_payload checkpoint) in
      match snd <$> bt_last N.le (λ r, (r ≤ cp_round)%N) (cs_snapshots (nd_checkpoints nd)) with
      | None => mret None
      | Some snapshot =>
          match canonical_roster_history (roster_history (hashgraph nd)) cp_round SIGNED_WINDOW_ROUNDS with
          | None => mret None
          | Some canonical =>
              roster_history_bytes ← or_panic (encode_roster_history canonical);
              let watermark := match (Db.watermark (ls_db (nd_ledger nd))).1 with Ok o => o | _ => None end in
              mret (Some {| rr_signed_checkpoint := checkpoint; rr_state_bytes := snapshot;
                            rr_roster_history_bytes := roster_history_bytes;
                            rr_decided_round := highest_decided_round (hashgraph nd);
                            rr_retained := retained_events (hashgraph nd);
                            rr_last_timestamp := default (gs_last_timestamp (nd_gossip nd)) watermark |})
          end
      end
  end.

(** ** Restart ([restart.rs]); [Err tt] is the refusal to start *)

Definition verify_persisted (checkpoint : SignedCheckpoint) (db : StateDb) : res unit bool :=
  if negb (verify checkpoint) then mret false else
  match (Db.snapshot_for (cp_round (sc_payload checkpoint)) db).1 with
  | Ok (Some bs) =>
      match root_of_bytes bs with
      | Ok root => mret (bool_decide (root = state_hash (sc_payload checkpoint)))
      | Err _ => mret false
      | Crash c => Crash c
      end
  | Crash c => Crash c
  | _ => mret false
  end.

Definition snapshot_for_round (db : StateDb) (round : N) : res unit bytes :=
  o ← ok_opt (Db.snapshot_for round db).1; ok_or o tt.

Definition stored_watermark (db : StateDb) : N :=
  match (Db.watermark db).1 with Ok (Some w) => w | _ => 0%N end.

Definition build_reconnect_response (checkpoint : SignedCheckpoint) (db : StateDb) (id : NodeId)
    (expected_key : bytes) : res unit ReconnectResponse :=
  check_own_key checkpoint id expected_key ;;
  bs ← snapshot_for_round db (cp_round (sc_payload checkpoint));
  roster_history_bytes ← or_panic (encode_roster_history (Roster.new (roster_snapshot (sc_payload checkpoint))));
  mret {| rr_signed_checkpoint := checkpoint; rr_state_bytes := bs;
          rr_roster_history_bytes := roster_history_bytes; rr_decided_round := cp_round (sc_payload checkpoint);
          rr_retained := []; rr_last_timestamp := stored_watermark db |}.

(** Each record against the roster of its birth round. *)
Fixpoint verify_replayed (rh : RosterHistory) (l : list RetainedEvent) : res unit unit :=
  match l with
  | [] => mret tt
  | record :: l =>
      roster ← Roster.roster_for_round rh (re_round record);
      _ ← ok_opt (verify_event roster (re_event record));
      verify_replayed rh l
  end.

Definition replay_response `{L : LogDb} (checkpoint : SignedCheckpoint) (db : StateDb) (id : NodeId)
    (expected_key : bytes) (log : EventLog) : res unit ReconnectResponse :=
  check_own_key checkpoint id expected_key ;;
  bs ← snapshot_for_round db (cp_round (sc_payload checkpoint));
  stored ← ok_opt (log_roster_history log);
  rh ← match stored with
       | Some bs => decode_roster_history bs
       | None => mret (Roster.new (roster_snapshot (sc_payload checkpoint)))
       end;
  retained ← ok_opt (replay log);
  verify_replayed rh retained ;;
  roster_history_bytes ← or_panic (encode_roster_history rh);
  let max_ordered := foldr N.max 0%N (omap re_round_received retained) in
  mret {| rr_signed_checkpoint := checkpoint; rr_state_bytes := bs;
          rr_roster_history_bytes := roster_history_bytes;
          rr_decided_round := N.max (cp_round (sc_payload checkpoint)) max_ordered;
          rr_retained := retained;
          rr_last_timestamp := restored_timestamp id (stored_watermark db) retained |}.
End recovery.
