(* ===== verification/Rebuild.v ===== *)
(** * Rebuilding a graph from a transfer

    The retained events are sorted parents first, whatever their order, and
    inserting them one by one never panics, whatever the peer sent. *)

From S2P Require Import Prelude Codec External Primitives Membership Graph Ancestry Order Insert Wf Store Reachable Retain RetainFacts.
From S2P Require Import Reconnect Checkpoint EventLog Proto Kahn Frontier Sync MerkleLog SparseMerkle Did Op State Executor.
From S2P Require Import Node Recovery.

(** ** Sorting *)

Section topo.
Context `{Sha256}.

(** [by_hash] sends the hash of every listed event to the last position that
    holds it. *)
Record indexes (l : list RetainedEvent) (m : gmap EventHash nat) : Prop := {
  ix_sound : ∀ h i, m !! h = Some i → ∃ r, l !! i = Some r ∧ event_hash (re_event r) = Ok h;
  ix_complete : ∀ i r, l !! i = Some r → ∃ h j, event_hash (re_event r) = Ok h ∧ m !! h = Some j;
}.

Lemma index_retained_spec l done m :
  indexes done m →
  no_crash (index_retained (length done) l m) ∧
  ∀ m', index_retained (length done) l m = Ok m' → indexes (done ++ l) m'.
Proof.
  revert done m. induction l as [|r l IH]; intros done m Hix; simpl.
  { rewrite app_nil_r. split; [done|]. by intros m' [= <-]. }
  destruct (event_hash (re_event r)) as [h|e|c] eqn:Hh; simpl; [|by split|].
  - specialize (IH (done ++ [r]) (<[h := length done]> m)). rewrite length_app, Nat.add_1_r, <- (assoc_L (++)) in IH.
    apply IH. destruct Hix as [Hs Hc]. split.
    + intros h' i. destruct (decide (h' = h)) as [->|Hne].
      * rewrite lookup_insert_eq. intros [= <-]. exists r. by rewrite lookup_app_r, Nat.sub_diag by lia.
      * rewrite lookup_insert_ne by done. intros (r' & Hr' & Hh')%Hs. exists r'. split; [|done].
        by apply lookup_app_l_Some.
    + intros i r' [Hi|[_ Hi]]%lookup_app_Some.
      * destruct (Hc i r' Hi) as (h' & j & Hh' & Hj). exists h'. destruct (decide (h' = h)) as [->|Hne].
        -- exists (length done). by rewrite lookup_insert_eq.
        -- exists j. by rewrite lookup_insert_ne.
      * apply list_lookup_singleton_Some in Hi as [_ <-]. exists h, (length done). by rewrite lookup_insert_eq.
  - exfalso. by destruct (event_hash_no_crash (re_event r) c).
Qed.
(** The edges into a record, from the positions of its transferred parents. *)
Definition sources (by_hash : gmap EventHash nat) (r : RetainedEvent) : list nat :=
  omap (λ p, by_hash !! p) (parents (re_event r)).

Section links.
Context (retained : list RetainedEvent) (by_hash : gmap EventHash nat).
Context (Hin : ∀ h i, by_hash !! h = Some i → i < length retained).

Lemma link_parents_spec index ps incoming children :
  index < length retained → length incoming = length retained → length children = length retained →
  ∃ incoming' children', link_parents by_hash index ps incoming children = Ok (incoming', children') ∧
    length incoming' = length retained ∧ length children' = length retained ∧
    (∀ i, incoming' !! i = if decide (i = index)
       then (λ n, n + N.of_nat (length (omap (λ p, by_hash !! p) ps)))%N <$> incoming !! i else incoming !! i) ∧
    (∀ p, children' !! p = (λ cs, cs ++ replicate (occ p (omap (λ p, by_hash !! p) ps)) index) <$> children !! p).
Proof.
  intros Hidx. revert incoming children. induction ps as [|p ps IH]; intros incoming children Hli Hlc; simpl.
  { exists incoming, children. split_and!; [done..| |].
    - intros i. case_decide; [|done]. destruct (incoming !! i); simpl; [f_equal; lia|done].
    - intros q. destruct (children !! q) as [cs|]; simpl; [by rewrite app_nil_r|done]. }
  destruct (by_hash !! p) as [j|] eqn:Hj; [|by apply IH].
  destruct (lookup_lt_is_Some_2 children j) as [cs Hcs]; [rewrite Hlc; by eapply Hin|].
  destruct (lookup_lt_is_Some_2 incoming index) as [d Hd]; [by rewrite Hli|]. rewrite Hcs, Hd. simpl.
  destruct (IH (<[index := (d + 1)%N]> incoming) (<[j := cs ++ [index]]> children)) as (inc' & ch' & -> & L1 & L2 & E1 & E2);
    [by rewrite length_insert..|].
  exists inc', ch'. split_and!; [done..| |].
  - intros i. rewrite E1. case_decide as Hi; [|by rewrite list_lookup_insert_ne]. subst i.
    rewrite list_lookup_insert_eq, Hd by (by rewrite Hli). simpl. f_equal. unfold omap. lia.
  - intros q. rewrite E2, occ_cons. destruct (decide (j = q)) as [->|Hne].
    + rewrite list_lookup_insert_eq, Hcs by (rewrite Hlc; by eapply Hin). simpl. f_equal. by rewrite <- (assoc_L (++)).
    + by rewrite list_lookup_insert_ne.
Qed.

(** The tables when the first [k] records have been entered. *)
Record linked (k : nat) (incoming : list N) (children : list (list nat)) : Prop := {
  lk_incoming : length incoming = length retained;
  lk_children : length children = length retained;
  lk_degree : ∀ i r, retained !! i = Some r →
    incoming !! i = Some (if decide (i < k) then N.of_nat (length (sources by_hash r)) else 0%N);
  lk_kids : ∀ p cs, children !! p = Some cs →
    (∀ c, c ∈ cs → c < length retained) ∧
    ∀ c r, retained !! c = Some r → occ c cs = if decide (c < k) then occ p (sources by_hash r) else 0;
}.

Lemma linked_start : linked 0 (replicate (length retained) 0%N) (replicate (length retained) []).
Proof.
  split; [apply length_replicate..| |].
  - intros i r Hi%lookup_lt_Some. by rewrite lookup_replicate_2.
  - intros p cs [-> _]%lookup_replicate. split; [by intros c ?%elem_of_nil|done].
Qed.

Lemma linked_step k r incoming children :
  linked k incoming children → retained !! k = Some r →
  ∃ incoming' children', link_parents by_hash k (parents (re_event r)) incoming children = Ok (incoming', children') ∧
    linked (S k) incoming' children'.
Proof.
  intros [L1 L2 Hd Hk] Hr. pose proof (lookup_lt_Some _ _ _ Hr) as Hlt.
  destruct (link_parents_spec k (parents (re_event r)) incoming children Hlt L1 L2)
    as (inc' & ch' & Hrun & L1' & L2' & E1 & E2).
  exists inc', ch'. split; [done|]. split; [done|done| |].
  - intros i r' Hi. rewrite E1, (Hd i r' Hi). case_decide as Hik.
    + subst i. rewrite (decide_False (P := k < k)), decide_True by lia. simplify_eq. simpl. done.
    + destruct (decide (i < k)); [rewrite decide_True by lia|rewrite decide_False by lia]; done.
  - intros p cs'. rewrite E2. intros (cs & Hcs & ->)%fmap_Some. destruct (Hk p cs Hcs) as [Hc Hocc]. split.
    + intros c [?|[-> _]%elem_of_replicate]%elem_of_app; [by apply Hc|done].
    + intros c r' Hr'. rewrite occ_app, occ_replicate, (Hocc c r' Hr'). destruct (decide (k = c)) as [<-|Hne].
      * rewrite (decide_False (P := k < k)), decide_True by lia. by simplify_eq.
      * destruct (decide (c < k)); [rewrite decide_True by lia|rewrite decide_False by lia]; lia.
Qed.

Lemma link_all_spec k incoming children :
  linked k incoming children → k ≤ length retained →
  ∃ incoming' children', link_all by_hash k (drop k retained) incoming children = Ok (incoming', children') ∧
    linked (length retained) incoming' children'.
Proof.
  remember (length retained - k) as n eqn:Hn. revert k Hn incoming children.
  induction n as [|n IH]; intros k Hn incoming children Hl Hk.
  { rewrite drop_ge by lia. assert (k = length retained) as -> by lia. by exists incoming, children. }
  destruct (lookup_lt_is_Some_2 retained k) as [r Hr]; [lia|]. rewrite (drop_S _ _ _ Hr). simpl.
  destruct (linked_step k r incoming children Hl Hr) as (inc' & ch' & -> & Hl'). simpl. apply IH; [lia|done|lia].
Qed.
End links.

Lemma size_map_seq {A} (l : list A) : size (map_seq 0 l : gmap nat A) = length l.
Proof.
  rewrite <- size_dom, <- (length_seq (length l) 0).
  rewrite <- (size_list_to_set (C := gset nat)) by apply NoDup_seq. f_equal. apply set_eq. intros i.
  rewrite elem_of_dom, lookup_map_seq_0, lookup_lt_is_Some, elem_of_list_to_set, elem_of_seq. lia.
Qed.

(** The graph of the transfer, by position. *)
Definition transfer (by_hash : gmap EventHash nat) (retained : list RetainedEvent) : gmap nat (list nat) :=
  map_seq 0 (sources by_hash <$> retained).

Lemma transfer_Some by_hash retained i ps :
  transfer by_hash retained !! i = Some ps ↔ ∃ r, retained !! i = Some r ∧ ps = sources by_hash r.
Proof.
  unfold transfer. rewrite lookup_map_seq_0, list_lookup_fmap, fmap_Some. naive_solver.
Qed.

Lemma transfer_inner by_hash retained i : inner (transfer by_hash retained) i ↔ i < length retained.
Proof.
  unfold inner, transfer. by rewrite lookup_map_seq_0, list_lookup_fmap, fmap_is_Some, lookup_lt_is_Some.
Qed.

Lemma elem_of_ready (incoming : list N) i :
  i ∈ (filter (λ e, e.2 = 0%N) (imap pair incoming)).*1 ↔ incoming !! i = Some 0%N.
Proof.
  rewrite list_elem_of_fmap. split.
  - intros ([i' d] & -> & [Hd Hin]%list_elem_of_filter). simpl in *. subst d.
    apply elem_of_lookup_imap in Hin as (j & x & [= <- <-] & Hj). done.
  - intros Hi. exists (i, 0%N). split; [done|]. apply list_elem_of_filter. split; [done|].
    by apply (elem_of_lookup_imap_2 pair).
Qed.

Lemma NoDup_ready (incoming : list N) : NoDup (filter (λ e, e.2 = 0%N) (imap pair incoming)).*1.
Proof.
  eapply sublist_NoDup; [|apply fmap_sublist, sublist_filter].
  rewrite fmap_imap. rewrite (imap_ext _ (λ i _, i)) by done. rewrite (imap_seq_0 _ id), list_fmap_id. apply NoDup_seq.
Qed.

(** A sorted transfer: every record once, each after the transferred parents. *)
Record sorted_transfer (retained : list RetainedEvent) (order : list nat) : Prop := {
  st_perm : order ≡ₚ seq 0 (length retained);
  st_order : ∀ i j r p, order !! i = Some j → retained !! j = Some r → p ∈ parents (re_event r) →
    (∃ q, q ∈ retained ∧ event_hash (re_event q) = Ok p) →
    ∃ i' j' q, i' < i ∧ order !! i' = Some j' ∧ retained !! j' = Some q ∧ event_hash (re_event q) = Ok p;
}.

Section sort.
Context (retained : list RetainedEvent) (by_hash : gmap EventHash nat).
Context (Hix : indexes retained by_hash).

Lemma indexes_lt h i : by_hash !! h = Some i → i < length retained.
Proof. intros (r & Hr & _)%(ix_sound _ _ Hix). by eapply lookup_lt_Some. Qed.

Lemma sources_inner r p : p ∈ sources by_hash r → inner (transfer by_hash retained) p.
Proof. intros (h & _ & Hp)%list_elem_of_omap. apply transfer_inner. by eapply indexes_lt. Qed.

Lemma need_start r : need (transfer by_hash retained) [] (sources by_hash r) = length (sources by_hash r).
Proof.
  unfold need. f_equal. apply filter_all. intros p Hp. split; [by eapply sources_inner|].
  apply not_elem_of_nil.
Qed.

Lemma kahn_transfer incoming children :
  linked retained by_hash (length retained) incoming children →
  kahn (transfer by_hash retained) [] (filter (λ e, e.2 = 0%N) (imap pair incoming)).*1 incoming (λ _, 0).
Proof.
  intros [L1 L2 Hd Hk]. split.
  - apply NoDup_ready.
  - intros i Hi%elem_of_ready. apply transfer_inner. rewrite <- L1. by eapply lookup_lt_Some.
  - intros i ps (r & Hr & ->)%transfer_Some. rewrite (Hd i r Hr), need_start, Nat.add_0_r.
    by rewrite decide_True by (by eapply lookup_lt_Some).
  - intros i ps (r & Hr & ->)%transfer_Some. cbn [app]. rewrite elem_of_ready, (Hd i r Hr), need_start.
    rewrite decide_True by (by eapply lookup_lt_Some). split; [intros [= Hz]; lia|intros; do 2 f_equal; lia].
  - by intros i h e p Hi.
Qed.

Lemma kids_transfer incoming children p :
  linked retained by_hash (length retained) incoming children → inner (transfer by_hash retained) p →
  ∃ cs, children !! p = Some cs ∧ (∀ c, c ∈ cs → inner (transfer by_hash retained) c) ∧
    ∀ c ps, transfer by_hash retained !! c = Some ps → occ c cs = occ p ps.
Proof.
  intros [L1 L2 Hd Hk] Hp%transfer_inner. destruct (lookup_lt_is_Some_2 children p) as [cs Hcs]; [by rewrite L2|].
  destruct (Hk p cs Hcs) as [Hin Hocc]. exists cs. split; [done|]. split.
  - intros c Hc. by apply transfer_inner, Hin.
  - intros c ps (r & Hr & ->)%transfer_Some. rewrite (Hocc c r Hr).
    by rewrite decide_True by (by eapply lookup_lt_Some).
Qed.

Lemma kahn_sorted_transfer order (incoming : list N) :
  kahn (transfer by_hash retained) order [] incoming (λ _, 0) → length order = length retained →
  sorted_transfer retained order.
Proof.
  intros [Hnd Hdom _ _ Hord] Hlen. rewrite app_nil_r in Hnd, Hdom. split.
  - apply submseteq_length_Permutation; [|by rewrite length_seq, Hlen].
    apply NoDup_submseteq; [done|]. intros i Hi%Hdom%transfer_inner. apply elem_of_seq. lia.
  - intros i j r p Hi Hr Hp (q & [k Hk]%list_elem_of_lookup & Hq).
    destruct (ix_complete _ _ Hix k q Hk) as (h & j' & Hh & Hj'). rewrite Hq in Hh. injection Hh as <-.
    destruct (ix_sound _ _ Hix p j' Hj') as (q' & Hq' & Hqh).
    assert (j' ∈ take i order) as [i' Hi']%list_elem_of_lookup.
    { eapply (Hord i j (sources by_hash r)); [done| | |].
      - apply transfer_Some. by exists r.
      - apply list_elem_of_omap. by exists p.
      - apply transfer_inner. by eapply indexes_lt. }
    apply lookup_take_Some in Hi' as [Hi' Hlt]. by exists i', j', q'.
Qed.
End sort.

(** Sorting any transfer ends, without a panic; what it returns is sorted. *)
Lemma topo_sort_retained_spec retained :
  no_crash (topo_sort_retained retained) ∧
  ∀ order, topo_sort_retained retained = Ok order → sorted_transfer retained order.
Proof.
  unfold topo_sort_retained. cbv zeta.
  destruct (index_retained_spec retained [] ∅) as [Hnc Hix].
  { split; [by intros h i; rewrite lookup_empty|by intros i r]. }
  simpl in Hnc, Hix. destruct (index_retained 0 retained ∅) as [by_hash|e|c]; [|by split|by destruct (Hnc c)].
  specialize (Hix by_hash eq_refl). cbn [mbind res_bind].
  destruct (link_all_spec retained by_hash (indexes_lt _ _ Hix) 0 _ _ (linked_start retained by_hash))
    as (incoming & children & Hlink & Hl); [lia|]. rewrite drop_0 in Hlink. rewrite Hlink. cbn [mbind res_bind].
  destruct (emit_Ok (E := unit) (transfer by_hash retained) children) with (fuel := length retained) (ordered := [] : list nat)
    (queue := (filter (λ e, e.2 = 0%N) (imap pair incoming)).*1) (ind := incoming) as (order & inc' & -> & Hk').
  - intros p. by eapply kids_transfer.
  - by eapply kahn_transfer.
  - unfold transfer. by rewrite size_map_seq, length_fmap.
  - cbn [mbind res_bind]. case_decide as Hlen; (split; [done|]); [|done]. intros order' [= <-]. by eapply kahn_sorted_transfer.
Qed.
End topo.

(** ** Inserting *)

(** A graph without witnesses, whose vectors have the width of the roster. *)
Record bare (hg : Hashgraph) : Prop := {
  ba_witnesses : witnesses_by_round hg = ∅;
  ba_forkers : length (known_forkers hg) = member_count hg;
  ba_index : ∀ c i, member_index hg !! c = Some i → i < member_count hg;
  ba_rows : ∀ h r, Graph.get hg h = Some r → length (rec_ancestor_seqs r) = member_count hg;
}.

Lemma from_checkpoint_bare round reg rh : bare (from_checkpoint round reg rh).
Proof.
  split; simpl; [done|apply length_replicate| |done]. intros c i Hi%lookup_index_members. by eapply lookup_lt_Some.
Qed.

Section insert.
Context `{Sha256}.

(** The record that an accepted transfer stores. *)
Definition restored_record (width : nat) (record : RetainedEvent) : EventRecord :=
  fresh_record (re_event record) (re_seq record) (resize_row width (re_ancestor_seqs record)) (re_round record)
    (re_round_received record)
    (match re_round_received record, re_consensus_timestamp record with
     | Some _, Some ts => Some ts
     | Some _, None => Some 0%N
     | None, _ => None
     end).

(** What an accepted insertion leaves. *)
Record restored (record : RetainedEvent) (d : N) (hg : Hashgraph) (hash : EventHash) (hg' : Hashgraph) : Prop := {
  rs_accepted : accepted hg record d hash hg';
  rs_bare : bare hg';
  rs_events : events hg' = <[hash := restored_record (member_count hg) record]> (events hg);
  rs_count : member_count hg' = member_count hg;
  rs_roster : roster_history hg' = roster_history hg;
  rs_decided : fully_decided_rounds hg' = fully_decided_rounds hg;
  rs_next : next_round_to_order hg' = next_round_to_order hg;
}.

Lemma present_parent_row hg p :
  bare hg → match present_parent hg p with Some r => length (rec_ancestor_seqs r) = member_count hg | None => True end.
Proof.
  intros Hb. unfold present_parent. destruct p as [h|]; simpl; [|done].
  destruct (Graph.get hg h) as [r|] eqn:Hr; [|done]. by eapply ba_rows.
Qed.

Lemma check_seq_no_crash e sp sq : no_crash (check_retained_seq e sp sq).
Proof.
  unfold check_retained_seq. destruct sp as [r|].
  - destruct (u64_checked_add _ _); simpl; [by case_decide|done].
  - destruct (self_parent e); by case_decide.
Qed.

Lemma check_row_no_crash hg i e sp op sq row :
  i < member_count hg → length row = member_count hg →
  match sp with Some r => length (rec_ancestor_seqs r) = member_count hg | None => True end →
  match op with Some r => length (rec_ancestor_seqs r) = member_count hg | None => True end →
  no_crash (check_retained_row (member_count hg) i e sp op sq row).
Proof.
  intros Hi Hrow Hsp Hop. unfold check_retained_row. cbv zeta.
  destruct (merged_row_spec (E := ConsensusError) (member_count hg) sp op Hsp Hop) as (merged & -> & Hlen & _).
  destruct (lookup_lt_is_Some_2 row i) as [own ->]; [by rewrite Hrow|].
  unfold vec_set. cbn [mbind res_bind]. rewrite (decide_True (P := i < length merged)) by lia. simpl.
  repeat (case_match; try done).
Qed.

Lemma check_order_no_crash round rr ts d : no_crash (check_retained_order round rr ts d).
Proof. unfold check_retained_order. destruct rr; [by case_decide|by destruct ts]. Qed.

Lemma insert_accepted_no_crash record d hg : bare hg → no_crash (insert_accepted record d hg).1.
Proof.
  intros Hb. unfold insert_accepted. cbv zeta. intros c.
  destruct (event_hash (re_event record)) as [h|e|c'] eqn:Hh; simpl; [|done|by destruct (event_hash_no_crash (re_event record) c')].
  case_decide; [done|]. unfold member_index_of. destruct (member_index hg !! creator (re_event record)) as [i|] eqn:Hi; simpl; [|done].
  pose proof (ba_index _ Hb _ _ Hi) as Hlt. case_decide as Hw; [done|].
  assert (length (re_ancestor_seqs record) ≤ member_count hg) as Hle by lia.
  destruct (match present_parent hg (self_parent (re_event record)) with Some r => _ | None => _ end); [done|].
  pose proof (check_seq_no_crash (re_event record) (present_parent hg (self_parent (re_event record))) (re_seq record)) as Hs.
  destruct (check_retained_seq _ _ _) as [[]|e|c']; simpl; [|done|by destruct (Hs c')].
  pose proof (check_row_no_crash hg i (re_event record) (present_parent hg (self_parent (re_event record)))
    (present_parent hg (other_parent (re_event record))) (re_seq record)
    (resize_row (member_count hg) (re_ancestor_seqs record)) Hlt (length_resize_row _ _ Hle)
    (present_parent_row _ _ Hb) (present_parent_row _ _ Hb)) as Hr.
  destruct (check_retained_row _ _ _ _ _ _ _) as [[]|e|c']; simpl; [|done|by destruct (Hr c')].
  case_decide; [done|].
  pose proof (check_order_no_crash (re_round record) (re_round_received record) (re_consensus_timestamp record) d) as Ho.
  destruct (check_retained_order _ _ _ _) as [[]|e|c']; simpl; [|done|by destruct (Ho c')].
  destruct (note_branch_Ok (creator (re_event record)) i (self_parent (re_event record)) h (first_child hg) (known_forkers hg))
    as (fc & fk & -> & _); [by rewrite (ba_forkers _ Hb)|]. done.
Qed.

Lemma insert_accepted_fields record d hg hash hg' :
  insert_accepted record d hg = (Ok hash, hg') →
  length (re_ancestor_seqs record) ≤ member_count hg ∧
  ∃ i fc fk, member_index hg !! creator (re_event record) = Some i ∧
    note_branch (creator (re_event record)) i (self_parent (re_event record)) hash (first_child hg) (known_forkers hg) = Ok (fc, fk) ∧
    hg' = Upd.events (<[hash := restored_record (member_count hg) record]>)
      (Upd.indexes (push_children hash (filter (λ p, is_Some (Graph.get hg p)) (parents (re_event record))) (children hg)) fc
         (or_insert (creator (re_event record), re_seq record) hash (by_creator_seq hg))
         (note_latest hg (creator (re_event record)) (re_seq record) hash) fk hg).
Proof.
  unfold insert_accepted. cbv zeta. intros Hrun.
  match type of Hrun with match ?m with _ => _ end = _ => destruct m as [[hash0 hg0]|e|c] eqn:Hm; [|done..] end.
  injection Hrun as -> ->.
  apply res_bind_Ok in Hm as (h & Hh & Hm). case_decide as Hfresh; [done|].
  apply res_bind_Ok in Hm as (i & Hi%ok_or_Ok & Hm). case_decide; [done|].
  destruct (match present_parent hg (self_parent (re_event record)) with Some r => _ | None => _ end); [done|].
  apply res_bind_Ok in Hm as ([] & _ & ([] & _ & Hm)%res_bind_Ok). case_decide; [done|].
  apply res_bind_Ok in Hm as ([] & _ & ([fc fk] & Hnb & Hm)%res_bind_Ok). apply res_ret_Ok in Hm as [= -> <-].
  split; [lia|]. by exists i, fc, fk.
Qed.

(** Each record is refused, or stored as it was sent. *)
Lemma insert_accepted_cases record d hg :
  bare hg →
  (∃ e, insert_accepted record d hg = (Err e, hg)) ∨
  ∃ hash hg', insert_accepted record d hg = (Ok hash, hg') ∧ restored record d hg hash hg'.
Proof.
  intros Hb. destruct (insert_accepted record d hg) as [[hash|e|c] hg'] eqn:Hrun.
  - right. exists hash, hg'. split; [done|]. pose proof (insert_accepted_spec _ _ _ _ _ Hrun) as Hacc.
    destruct (insert_accepted_fields _ _ _ _ _ Hrun) as (Hle & i & fc & fk & Hi & Hnb & ->).
    assert (length fk = length (known_forkers hg)) as Hfk.
    { destruct (note_branch_Ok (creator (re_event record)) i (self_parent (re_event record)) hash (first_child hg) (known_forkers hg))
        as (fc' & fk' & Hnb' & Hlen); [rewrite (ba_forkers _ Hb); by eapply ba_index|]. by rewrite Hnb in Hnb'; simplify_eq. }
    split; try done. split; simpl.
    + apply Hb.
    + rewrite Hfk. apply Hb.
    + apply Hb.
    + intros h r. unfold Graph.get. simpl. destruct (decide (h = hash)) as [->|Hne].
      * rewrite lookup_insert_eq. intros [= <-]. simpl. by apply length_resize_row.
      * rewrite lookup_insert_ne by done. apply (ba_rows _ Hb).
  - left. exists e. by apply insert_accepted_Err in Hrun as ->.
  - exfalso. by eapply insert_accepted_no_crash; [|rewrite Hrun].
Qed.

(** The inserted graph against the transfer. *)
Record rebuilt (retained : list RetainedEvent) (hg0 hg : Hashgraph) : Prop := {
  rb_bare : bare hg;
  rb_count : member_count hg = member_count hg0;
  rb_roster : roster_history hg = roster_history hg0;
  rb_decided : fully_decided_rounds hg = fully_decided_rounds hg0;
  rb_next : next_round_to_order hg = next_round_to_order hg0;
  rb_sound : ∀ h r, Graph.get hg h = Some r → Graph.get hg0 h = Some r ∨
    ∃ q, q ∈ retained ∧ event_hash (re_event q) = Ok h ∧ r = restored_record (member_count hg0) q;
}.

Lemma rebuilt_refl retained hg : bare hg → rebuilt retained hg hg.
Proof. intros Hb. split; try done. by left. Qed.

Lemma rebuilt_step retained q d hg0 hg hash hg' :
  rebuilt retained hg0 hg → q ∈ retained → restored q d hg hash hg' → rebuilt retained hg0 hg'.
Proof.
  intros [Hb Hc Hro Hde Hn Hs] Hq [Hacc Hb' Hev Hc' Hro' Hde' Hn']. split; [done|congruence..|].
  intros h r. unfold Graph.get. rewrite Hev. destruct (decide (h = hash)) as [->|Hne].
  - rewrite lookup_insert_eq. intros [= <-]. right. exists q. rewrite Hc. split_and!; [done| |done]. apply Hacc.
  - rewrite lookup_insert_ne by done. apply Hs.
Qed.

Lemma insert_retained_spec retained d order slots hg0 hg :
  rebuilt retained hg0 hg → (∀ i, i ∈ order → i < length slots) → (∀ q, Some q ∈ slots → q ∈ retained) →
  no_crash (insert_retained d order slots hg) ∧
  ∀ hg', insert_retained d order slots hg = Ok hg' → rebuilt retained hg0 hg'.
Proof.
  revert slots hg. induction order as [|i order IH]; intros slots hg Hr Hlt Hslots; simpl.
  { split; [done|]. by intros hg' [= <-]. }
  destruct (lookup_lt_is_Some_2 slots i) as [slot Hslot]; [apply Hlt; by left|]. rewrite Hslot. simpl.
  destruct slot as [q|]; simpl; [|by split].
  assert (q ∈ retained) as Hq by (apply Hslots; by eapply list_elem_of_lookup_2).
  destruct (insert_accepted_cases q d hg (rb_bare _ _ _ Hr)) as [[e ->]|(hash & hg1 & -> & Hst)]; simpl; [by split|].
  apply IH; [by eapply rebuilt_step|intros j Hj; rewrite length_insert; apply Hlt; by right|].
  intros q' [j Hj]%list_elem_of_lookup. apply Hslots. destruct (decide (i = j)) as [<-|Hne].
  - rewrite list_lookup_insert_eq in Hj by (by eapply lookup_lt_Some). done.
  - rewrite list_lookup_insert_ne in Hj by done. by eapply list_elem_of_lookup_2.
Qed.

(** Every slot of the order is stored, and nothing is overwritten. *)
Lemma insert_retained_complete d order slots hg hg' :
  bare hg → NoDup order → insert_retained d order slots hg = Ok hg' →
  member_count hg' = member_count hg ∧ (∀ h r, Graph.get hg h = Some r → Graph.get hg' h = Some r) ∧
  ∀ i q, i ∈ order → slots !! i = Some (Some q) →
    ∃ h, event_hash (re_event q) = Ok h ∧ Graph.get hg' h = Some (restored_record (member_count hg) q).
Proof.
  revert slots hg. induction order as [|i order IH]; intros slots hg Hb Hnd Hrun; simpl in Hrun.
  { injection Hrun as <-. split_and!; [done..|]. by intros i q ?%elem_of_nil. }
  apply NoDup_cons in Hnd as [Hi Hnd].
  apply res_bind_Ok in Hrun as (slot & Hslot & (q & Hq & Hrun)%res_bind_Ok).
  apply ok_or_Ok in Hq. subst slot.
  assert (slots !! i = Some (Some q)) as Hsl by (destruct (slots !! i); simpl in Hslot; congruence).
  destruct (insert_accepted_cases q d hg Hb) as [[e Hacc]|(hash & hg1 & Hacc & Hst)]; rewrite Hacc in Hrun; [done|].
  destruct Hst as [Ha Hb1 Hev Hc _ _ _]. simpl in Hrun.
  destruct (IH _ _ Hb1 Hnd Hrun) as (Hc' & Hkeep & Hall). rewrite Hc in Hc', Hall.
  assert (∀ h r, Graph.get hg1 h = Some r → Graph.get hg' h = Some r) as Hkeep1 by done.
  split; [done|]. split.
  - intros h r Hr. apply Hkeep. unfold Graph.get. rewrite Hev, lookup_insert_ne; [done|]. intros <-.
    rewrite (acc_fresh _ _ _ _ _ Ha) in Hr. done.
  - intros j q' [->|Hj]%elem_of_cons Hs.
    + simplify_eq. exists hash. split; [apply Ha|]. apply Hkeep. unfold Graph.get. by rewrite Hev, lookup_insert_eq.
    + apply (Hall j q' Hj). rewrite list_lookup_insert_ne; [done|]. by intros <-.
Qed.
End insert.

(** ** Deciding the transferred rounds *)

Section decide.
Context `{HashOrder}.

Lemma assign_order_bare round hg : bare hg → assign_order round hg = (Ok tt, hg).
Proof.
  intros Hb. unfold assign_order, mbind, stM_bind, st_get.
  assert (famous_witnesses_of_round hg round = []) as ->; [|done].
  unfold famous_witnesses_of_round, witnesses_of_round. by rewrite (ba_witnesses _ Hb), lookup_empty.
Qed.

Lemma rounds_bare ds next hg : bare hg → bare (Upd.rounds ds next hg).
Proof. by intros []. Qed.

Lemma order_loop_stop fuel hg :
  next_round_to_order hg ∉ fully_decided_rounds hg → order_loop fuel hg = (Ok tt, hg).
Proof. intros Hn. destruct fuel; cbn [order_loop]; unfold mbind, stM_bind, st_get; by rewrite decide_False. Qed.

(** Without witnesses the loop over the decided rounds orders nothing. *)
Lemma order_loop_bare fuel hg :
  bare hg → 0%N ∉ fully_decided_rounds hg → is_u64 (next_round_to_order hg) →
  size (filter (λ r, (next_round_to_order hg ≤ r)%N) (fully_decided_rounds hg)) ≤ fuel →
  ∃ next, order_loop fuel hg = (Ok tt, Upd.rounds (fully_decided_rounds hg) next hg).
Proof.
  revert hg. induction fuel as [|fuel IH]; intros hg Hb H0 Hu Hfuel; cbn [order_loop]; unfold mbind at 1, stM_bind at 1, st_get at 1.
  all: case_decide as Hin; [|exists (next_round_to_order hg); by destruct hg].
  { assert (next_round_to_order hg ∈ filter (λ r, (next_round_to_order hg ≤ r)%N) (fully_decided_rounds hg)) as Hf
      by (apply elem_of_filter; split; [lia|done]).
    apply Nat.le_0_r, size_empty_inv in Hfuel. set_solver. }
  set (round := next_round_to_order hg) in *. set (hg1 := Upd.rounds (fully_decided_rounds hg) (u64_wrapping_add round 1) hg).
  unfold mbind at 1, stM_bind at 1, st_modify. fold hg1. unfold mbind at 1, stM_bind at 1.
  rewrite assign_order_bare by (by apply rounds_bare).
  destruct (decide (round + 1 < u64_modulus)%N) as [Hlt|Hge].
  - destruct (IH hg1) as [next Hrun]; [by apply rounds_bare|done|..].
    + unfold hg1. simpl. by rewrite u64_wrapping_add_small.
    + enough (size (filter (λ r, (u64_wrapping_add round 1 ≤ r)%N) (fully_decided_rounds hg))
              < size (filter (λ r, (round ≤ r)%N) (fully_decided_rounds hg))) by (unfold hg1; simpl; lia).
      rewrite u64_wrapping_add_small by lia. apply subset_size. split.
      * intros r [Hr Hr']%elem_of_filter. apply elem_of_filter. split; [lia|done].
      * intros Hsub. assert (round ∈ filter (λ r, (round ≤ r)%N) (fully_decided_rounds hg)) as [Hr _]%Hsub%elem_of_filter;
          [apply elem_of_filter; split; [lia|done]|lia].
    + exists next. rewrite Hrun. done.
  - exists 0%N. assert (u64_wrapping_add round 1 = 0%N) as Hz.
    { unfold u64_wrapping_add. assert (round + 1 = u64_modulus)%N as -> by (unfold is_u64 in Hu; lia). done. }
    unfold hg1 in *. rewrite Hz in *. by rewrite order_loop_stop.
Qed.

Lemma mark_decided_bare d hg :
  bare hg → 0%N ∉ fully_decided_rounds hg → is_u64 (next_round_to_order hg) → (1 ≤ next_round_to_order hg)%N →
  (∃ e, mark_decided_through d hg = (Err e, hg)) ∨
  ∃ ds next, mark_decided_through d hg = (Ok tt, Upd.rounds ds next hg).
Proof.
  intros Hb H0' Hu H1'. unfold mark_decided_through, mbind, stM_bind, st_get, st_modify.
  set (ds := list_to_set (range_inclusive (next_round_to_order hg) d) ∪ fully_decided_rounds hg).
  assert (∃ next, order_decided_rounds (Upd.rounds ds (next_round_to_order hg) hg) = (Ok tt, Upd.rounds ds next hg)) as [next Hrun].
  { destruct (order_loop_bare (size ds) (Upd.rounds ds (next_round_to_order hg) hg)) as [next Hrun]; try done.
    - by apply rounds_bare.
    - unfold ds. simpl. intros [Hr%elem_of_list_to_set%elem_of_range_inclusive|?]%elem_of_union; [lia|done].
    - simpl. apply subseteq_size. intros r [_ ?]%elem_of_filter. done.
    - exists next. exact Hrun. }
  destruct (max_retained_round hg) as [m|]; [case_decide; [left; by eexists|]|]; right; exists ds, next; exact Hrun.
Qed.
End decide.

(** ** The whole rebuild *)

Section rebuild.
Context `{Sha256, Ed25519, HashOrder}.

Lemma saturating_next round : is_u64 (u64_saturating_add round 1) ∧ (1 ≤ u64_saturating_add round 1)%N.
Proof.
  assert (1 < u64_modulus)%N as Hm by (vm_compute; done). unfold u64_saturating_add, is_u64, u64_max. lia.
Qed.

Definition width_of (checkpoint : SignedCheckpoint) : nat :=
  length (Registry.member_ids (roster_snapshot (sc_payload checkpoint))).

(** The graph a transfer was rebuilt into holds its records, under the roster
    history that the checkpoint selects. *)
Record rebuilt_from (checkpoint : SignedCheckpoint) (rh : RosterHistory) (retained : list RetainedEvent)
    (hg : Hashgraph) : Prop := {
  rf_bare : bare hg;
  rf_roster : canonical_roster_history rh (cp_round (sc_payload checkpoint)) SIGNED_WINDOW_ROUNDS
              = Some (roster_history hg);
  rf_sound : ∀ h r, Graph.get hg h = Some r →
    ∃ q, q ∈ retained ∧ event_hash (re_event q) = Ok h ∧ r = restored_record (width_of checkpoint) q;
  rf_complete : ∀ q, q ∈ retained → ∃ h, event_hash (re_event q) = Ok h ∧
    Graph.get hg h = Some (restored_record (width_of checkpoint) q);
}.

Lemma rebuild_graph_spec checkpoint rh d retained :
  no_crash (rebuild_graph checkpoint rh d retained) ∧
  ∀ hg, rebuild_graph checkpoint rh d retained = Ok hg → rebuilt_from checkpoint rh retained hg.
Proof.
  unfold rebuild_graph. cbv zeta. destruct (topo_sort_retained_spec retained) as [Hnc Hsort].
  destruct (topo_sort_retained retained) as [order|e|c]; simpl; [|by split|by destruct (Hnc c)].
  specialize (Hsort order eq_refl).
  destruct (canonical_roster_history rh _ _) as [canonical|] eqn:Hcan; simpl; [|by split].
  set (hg0 := from_checkpoint _ _ canonical).
  assert (rebuilt retained hg0 hg0) as Hr0 by (apply rebuilt_refl, from_checkpoint_bare).
  destruct (insert_retained_spec retained d order (Some <$> retained) hg0 hg0 Hr0) as [Hnc1 Hins].
  { intros i Hi. rewrite (st_perm _ _ Hsort) in Hi. apply elem_of_seq in Hi. rewrite length_fmap. lia. }
  { intros q (q' & [= ->] & Hq)%list_elem_of_fmap. done. }
  destruct (insert_retained d order _ hg0) as [hg1|e|c] eqn:Hrun; simpl; [|by split|by destruct (Hnc1 c)].
  specialize (Hins hg1 eq_refl).
  apply insert_retained_complete in Hrun as (_ & _ & Hall);
    [|apply from_checkpoint_bare|rewrite (st_perm _ _ Hsort); apply NoDup_seq].
  destruct (mark_decided_bare d hg1) as [[e ->]|(ds & next & ->)]; simpl; [apply Hins|..].
  - rewrite (rb_decided _ _ _ Hins). simpl. intros ?%elem_of_list_to_set%elem_of_range_inclusive. lia.
  - rewrite (rb_next _ _ _ Hins). simpl. apply saturating_next.
  - rewrite (rb_next _ _ _ Hins). simpl. apply saturating_next.
  - by split.
  - split; [done|]. intros hg [= <-]. split.
    + apply rounds_bare, Hins.
    + simpl. by rewrite (rb_roster _ _ _ Hins).
    + intros h r Hr. destruct (rb_sound _ _ _ Hins h r Hr) as [Hr'|?]; [done|]. done.
    + intros q [i Hi]%list_elem_of_lookup. apply (Hall i).
      * rewrite (st_perm _ _ Hsort). apply elem_of_seq. apply lookup_lt_Some in Hi. lia.
      * by rewrite list_lookup_fmap, Hi.
Qed.
End rebuild.
