(* ===== verification/RecoveryFacts.v ===== *)
(** * Recovering from a checkpoint

    A response that is refused leaves the node as it was; one that is applied
    installs a graph, a roster and a state that the quorum's signature commits
    to. *)

From S2P Require Import Prelude Codec External Primitives Membership Graph Ancestry Order Insert Reachable Retain RetainFacts.
From S2P Require Import Reconnect Checkpoint CheckpointFacts CheckpointWindow CheckpointQuorum EventLog Proto Frontier Sync.
From S2P Require Import MerkleLog MerkleLogFacts SparseMerkle SparseMerkleFacts Did Op State StateFacts Executor.
From S2P Require Import Node NodeFacts NodeAccept Recovery Rebuild.

(** ** What a validated response satisfies *)

Section validate.
Context `{Sha256, Ed25519, Bls, HashOrder}.

Lemma guard_Ok b : guard_false b = Ok tt → b = true.
Proof. by destruct b. Qed.

Lemma verify_retained_Ok registry l :
  verify_retained registry l = Ok tt → Forall (λ r, ∃ e, verify_event registry (re_event r) = Ok e) l.
Proof.
  induction l as [|r l IH]; [constructor|]. intros (e & He & Hl)%res_bind_Ok. constructor; [|by apply IH].
  exists e. unfold ok_opt, map_err in He. destruct (verify_event _ _); by simplify_eq.
Qed.

(** The checks, as facts about the response. *)
Record validated (id : NodeId) (own_key : bytes) (resp : ReconnectResponse) (hg : Hashgraph) : Prop := {
  va_state : root_of_bytes (rr_state_bytes resp) = Ok (state_hash (sc_payload (rr_signed_checkpoint resp)));
  va_roster : ∃ rh, decode_roster_history (rr_roster_history_bytes resp) = Ok rh ∧
    check_roster (rr_signed_checkpoint resp) rh = Ok tt ∧
    rebuild_graph (rr_signed_checkpoint resp) rh (rr_decided_round resp) (rr_retained resp) = Ok hg;
  va_key : Registry.key_for (roster_snapshot (sc_payload (rr_signed_checkpoint resp))) id = Ok own_key;
  va_signed : Forall (λ r, ∃ e, verify_event (roster_snapshot (sc_payload (rr_signed_checkpoint resp))) (re_event r) = Ok e)
    (rr_retained resp);
  va_window : rr_retained resp ≠ [] →
    try_compute_window_root hg (cp_round (sc_payload (rr_signed_checkpoint resp))) SIGNED_WINDOW_ROUNDS
    = Ok (window_root (sc_payload (rr_signed_checkpoint resp)));
}.

Lemma ok_opt_Ok {E A} (m : res E A) a : ok_opt m = Ok a → m = Ok a.
Proof. unfold ok_opt, map_err. destruct m; by intros [= ->]. Qed.

Lemma validate_Ok id own_key resp hg :
  validate_response id own_key resp = Ok hg → validated id own_key resp hg.
Proof.
  intros ([] & Hs & Hv)%res_bind_Ok.
  apply res_bind_Ok in Hv as (rh & Hrh & ([] & Hro & ([] & Hk & ([] & Hsig & ([] & Hd & Hv)%res_bind_Ok)%res_bind_Ok)%res_bind_Ok)%res_bind_Ok).
  apply res_bind_Ok in Hv as (hg' & Hg & ([] & Hw & <-%res_ret_Ok)%res_bind_Ok).
  split; [|by exists rh| |by apply verify_retained_Ok|].
  - apply res_bind_Ok in Hs as (root & Hroot & Hs%guard_Ok%bool_decide_eq_true). by rewrite Hroot, Hs.
  - apply res_bind_Ok in Hk as (key & Hkey%ok_opt_Ok & Hq%guard_Ok%bool_decide_eq_true). by rewrite Hkey, Hq.
  - intros Hne. unfold check_window in Hw. destruct (rr_retained resp) as [|r l]; [done|].
    apply res_bind_Ok in Hw as (root & Hroot%ok_opt_Ok & Hq%guard_Ok%bool_decide_eq_true). by rewrite Hroot, Hq.
Qed.

(** The roster history that is installed is the one the checkpoint commits
    to. *)
Lemma check_roster_Ok checkpoint rh :
  check_roster checkpoint rh = Ok tt →
  (∃ roster, Roster.roster_for_round rh (cp_round (sc_payload checkpoint)) = Ok (E := unit) roster ∧
     Registry.hash roster = roster_hash (sc_payload checkpoint)) ∧
  compute_roster_history_root rh (cp_round (sc_payload checkpoint)) SIGNED_WINDOW_ROUNDS
  = Ok (roster_history_root (sc_payload checkpoint)).
Proof.
  intros (roster & Hr & ([] & Hh%guard_Ok%bool_decide_eq_true & Hc)%res_bind_Ok)%res_bind_Ok.
  apply res_bind_Ok in Hc as (root & Hroot%ok_opt_Ok & Hq%guard_Ok%bool_decide_eq_true).
  split; [by exists roster|]. by rewrite Hroot, Hq.
Qed.
End validate.

(** ** Which responses panic *)

Section panics.
Context `{Sha256, Ed25519, Bls, HashOrder}.

Lemma ok_opt_no_crash {E A} (m : res E A) : no_crash m → no_crash (ok_opt m).
Proof. intros Hm c. unfold ok_opt, map_err. destruct m as [| |c']; [done..|]. by destruct (Hm c'). Qed.

Lemma res_bind_no_crash {E A B} (m : res E A) (f : A → res E B) :
  no_crash m → (∀ a, m = Ok a → no_crash (f a)) → no_crash (m ≫= f).
Proof. intros Hm Hf. destruct m as [a| |c]; [by apply Hf|done|by destruct (Hm c)]. Qed.

Lemma guard_no_crash b : no_crash (guard_false b).
Proof. by destruct b. Qed.

Lemma u32_no_crash s n : no_crash (u32_try_from s n).
Proof. unfold u32_try_from. by case_decide. Qed.

Lemma encode_unsigned_no_crash u : no_crash (encode_unsigned_event u).
Proof.
  intros c Hc. apply (event_hash_no_crash {| ev_unsigned := u; ev_signature := [] |} c).
  unfold event_hash, encode_event. simpl. by rewrite Hc.
Qed.

Lemma verify_event_no_crash reg e : no_crash (verify_event reg e).
Proof.
  unfold verify_event. apply res_bind_no_crash; [unfold Registry.key_for; by destruct (_ !! _)|]. intros key _.
  apply res_bind_no_crash; [|intros bs _; by destruct (ed_verify_strict _ _ _)].
  intros c. pose proof (encode_unsigned_no_crash (ev_unsigned e)) as He. unfold map_err.
  destruct (encode_unsigned_event _) as [| |c']; [done..|]. by destruct (He c').
Qed.

Lemma verify_retained_no_crash reg l : no_crash (verify_retained reg l).
Proof.
  induction l as [|r l IH]; [done|]. cbn [verify_retained]. apply res_bind_no_crash; [|by intros].
  apply ok_opt_no_crash, verify_event_no_crash.
Qed.

Lemma encode_roster_no_crash rh : no_crash (encode_roster_history rh).
Proof.
  unfold encode_roster_history. apply res_bind_no_crash; [apply u32_no_crash|]. intros n _.
  apply res_bind_no_crash; [|done]. generalize (Roster.entries rh). intros l. induction l as [|[r reg] l IH]; [done|].
  cbn [encode_roster_entries]. apply res_bind_no_crash; [apply u32_no_crash|]. intros len _.
  by apply res_bind_no_crash.
Qed.

Lemma history_root_no_crash rh round w : no_crash (compute_roster_history_root rh round w).
Proof.
  unfold compute_roster_history_root. destruct (canonical_roster_history rh round w); [|done].
  apply res_bind_no_crash; [apply encode_roster_no_crash|done].
Qed.

Lemma padded_root_no_crash leaves : no_crash (padded_root leaves).
Proof.
  unfold padded_root. destruct (fold_levels_Ok (E := PrimError) combine_hash _ (length leaves) _ (length_pad empty_hash leaves))
    as [root ->]; [apply log2_up_le|done].
Qed.

Lemma window_root_no_crash hg round w reg :
  Roster.roster_for_round (E := PrimError) (roster_history hg) round = Ok reg →
  no_crash (try_compute_window_root hg round w).
Proof.
  intros Hreg. unfold try_compute_window_root. destruct (window_hashes hg _ round) as [|h hs]; [done|].
  rewrite Hreg. simpl. apply res_bind_no_crash; [apply u32_no_crash|]. intros n _.
  apply (res_bind_no_crash (window_leaves hg (Registry.len reg) n (h :: hs))); [|intros; apply padded_root_no_crash].
  generalize (h :: hs). intros l. induction l as [|x l IH]; [done|]. cbn [window_leaves].
  apply res_bind_no_crash; [by destruct (Graph.get hg x)|]. intros r _. by apply res_bind_no_crash.
Qed.

(** A history that has a roster for the round. *)
Definition covers (rh : RosterHistory) (round : N) : Prop := ∃ a, is_Some (snapshots rh !! a) ∧ (a ≤ round)%N.

Lemma check_roster_no_crash checkpoint rh :
  covers rh (cp_round (sc_payload checkpoint)) → no_crash (check_roster checkpoint rh).
Proof.
  intros (a & Ha & Hle). unfold check_roster. cbv zeta.
  destruct (RosterFacts.roster_for_round_resolves (E := unit) rh _ a Ha Hle) as [reg ->]. simpl.
  apply res_bind_no_crash; [apply guard_no_crash|]. intros _ _.
  apply res_bind_no_crash; [apply ok_opt_no_crash, history_root_no_crash|]. intros; apply guard_no_crash.
Qed.

Lemma check_window_no_crash checkpoint rh retained hg :
  rebuilt_from checkpoint rh retained hg → covers rh (cp_round (sc_payload checkpoint)) →
  no_crash (check_window checkpoint retained hg).
Proof.
  intros Hrf (a & Ha & Hle). unfold check_window. destruct retained as [|r l]; [done|].
  apply res_bind_no_crash; [|intros; apply guard_no_crash]. apply ok_opt_no_crash.
  destruct (RosterFacts.roster_for_round_resolves (E := PrimError) rh _ a Ha Hle) as [reg Hreg].
  eapply window_root_no_crash. rewrite <- Hreg.
  eapply canonical_roster_lookup; [exact (rf_roster _ _ _ _ Hrf)|lia|lia].
Qed.

(** Every covered response is answered. *)
Lemma validate_no_crash id own_key resp :
  (∀ rh, decode_roster_history (rr_roster_history_bytes resp) = Ok rh →
     covers rh (cp_round (sc_payload (rr_signed_checkpoint resp)))) →
  no_crash (validate_response id own_key resp).
Proof.
  intros Hcov. unfold validate_response. cbv zeta.
  apply res_bind_no_crash.
  { unfold check_state. apply res_bind_no_crash; [apply root_of_bytes_no_crash|]. intros; apply guard_no_crash. }
  intros _ _. apply res_bind_no_crash; [apply decode_roster_no_crash|]. intros rh Hrh. specialize (Hcov rh Hrh).
  apply res_bind_no_crash; [by apply check_roster_no_crash|]. intros _ _.
  apply res_bind_no_crash.
  { unfold check_own_key. apply res_bind_no_crash; [|intros; apply guard_no_crash]. apply ok_opt_no_crash.
    unfold Registry.key_for. by destruct (_ !! _). }
  intros _ _. apply res_bind_no_crash; [apply verify_retained_no_crash|]. intros _ _.
  apply res_bind_no_crash; [apply guard_no_crash|]. intros _ _.
  destruct (rebuild_graph_spec (rr_signed_checkpoint resp) rh (rr_decided_round resp) (rr_retained resp)) as [Hnc Hrf].
  apply res_bind_no_crash; [done|]. intros hg Hhg. apply res_bind_no_crash; [|done].
  by eapply check_window_no_crash; [apply Hrf|].
Qed.

(** An uncovered history panics, once the state bytes match. *)
Lemma validate_panics id own_key resp rh :
  root_of_bytes (rr_state_bytes resp) = Ok (state_hash (sc_payload (rr_signed_checkpoint resp))) →
  decode_roster_history (rr_roster_history_bytes resp) = Ok rh →
  ¬ covers rh (cp_round (sc_payload (rr_signed_checkpoint resp))) →
  validate_response id own_key resp = Crash Panicked.
Proof.
  intros Hs Hrh Hn. unfold validate_response. cbv zeta. unfold check_state. rewrite Hs. simpl.
  rewrite bool_decide_eq_true_2 by done. simpl. rewrite Hrh. simpl. unfold check_roster. cbv zeta.
  rewrite RosterFacts.roster_for_round_crash; [done|]. intros a Ha.
  destruct (decide (a ≤ cp_round (sc_payload (rr_signed_checkpoint resp)))%N) as [Hle|]; [|lia]. destruct Hn. by exists a.
Qed.
End panics.

(** ** What the signed roots bind *)

Section binding.
Context `{Sha256, Ed25519}.

Lemma decode_roster_wf bs rh : decode_roster_history bs = Ok rh → wf_roster_history rh.
Proof.
  unfold decode_roster_history. destruct (take_roster_history bs) as [r rest] eqn:Hrun. simpl. intros ->.
  revert bs rh rest Hrun. change (yields take_roster_history wf_roster_history). unfold take_roster_history.
  eapply yields_bind; [apply yields_take_u32|]. intros n _ cursor rh rest Hrun. st_inv Hrun. case_decide; [done|].
  st_inv Hrun. st_inv Hrun. apply st_lift_Ok in Hrun as [Hs _]. apply ok_or_Ok in Hs.
  assert (Forall (λ e, is_u64 e.1 ∧ wf_registry e.2) a) as Hall.
  { eapply (yields_take_n (E := unit) (N.to_nat n) (λ e, is_u64 e.1 ∧ wf_registry e.2) take_roster_entry); [|exact Hr].
    unfold take_roster_entry. eapply yields_bind; [apply yields_take_u64|]. intros round Hround.
    eapply yields_bind; [apply yields_take_bytes|]. intros rb _ c [round' reg] rest' He. st_inv He.
    apply st_ret_Ok in He as [[= -> ->] _]. split; [done|].
    eapply RegistryFacts.from_bytes_loop_wf; [apply map_Forall_empty|exact Hl]. }
  unfold Roster.from_snapshots in Hs. case_decide as Hne; [done|]. injection Hs as <-. split; [done|]. simpl. clear -Hall.
  assert (map_Forall (λ round reg, is_u64 round ∧ wf_registry reg) (∅ : gmap N MembershipRegistry)) as H0' by apply map_Forall_empty.
  revert H0'. generalize (∅ : gmap N MembershipRegistry). induction Hall as [|e l He _ IH]; intros m Hm; [done|].
  simpl. apply IH. by apply map_Forall_insert_2.
Qed.

Lemma canonical_wf rh round w subset :
  wf_roster_history rh → canonical_roster_history rh round w = Some subset → wf_roster_history subset.
Proof.
  intros [_ Hwf] Hc. split.
  - unfold canonical_roster_history in Hc. destruct (select_snapshots _ _ _) as [pred sel].
    destruct (option_list pred ++ sel); [done|]. unfold Roster.from_snapshots in Hc. case_decide; [done|]. by injection Hc as <-.
  - intros a reg Ha. apply (canonical_roster_snapshot _ _ _ _ _ _ Hc) in Ha as [(Ha & _)%btN_last_Some|[Ha _]]; by apply Hwf.
Qed.

(** The root of a roster history determines the selection. *)
Lemma history_root_binds rh1 rh2 round w root :
  wf_roster_history rh1 → wf_roster_history rh2 →
  compute_roster_history_root rh1 round w = Ok root → compute_roster_history_root rh2 round w = Ok root →
  canonical_roster_history rh1 round w = canonical_roster_history rh2 round w ∨ sha256_collision.
Proof.
  intros Hw1 Hw2. unfold compute_roster_history_root.
  assert (∀ rh enc, encode_roster_history rh = Ok enc → enc ≠ []) as Hne.
  { intros rh enc (n & _ & (body & _ & <-%res_ret_Ok)%res_bind_Ok)%res_bind_Ok Hnil.
    apply (f_equal length) in Hnil. rewrite length_app, length_be_bytes in Hnil. simpl in Hnil. lia. }
  assert (∀ l : bytes, l ≠ [] → ROSTER_HISTORY_ROOT_DST ++ l ≠ ROSTER_HISTORY_ROOT_DST) as Happ.
  { intros l Hl Heq. apply Hl. rewrite <- (app_nil_r ROSTER_HISTORY_ROOT_DST) in Heq at 2. by apply app_inv_head in Heq. }
  destruct (canonical_roster_history rh1 round w) as [s1|] eqn:H1c, (canonical_roster_history rh2 round w) as [s2|] eqn:H2c.
  - intros (e1 & He1 & <-%res_ret_Ok)%res_bind_Ok (e2 & He2 & Hr%res_ret_Ok)%res_bind_Ok.
    apply collides in Hr as [Heq%app_inv_head|?]; [left|by right]. subst e2.
    pose proof (decode_encode_roster s1 e1 (canonical_wf _ _ _ _ Hw1 H1c) He1) as D1.
    pose proof (decode_encode_roster s2 e1 (canonical_wf _ _ _ _ Hw2 H2c) He2) as D2. congruence.
  - intros (e1 & He1 & <-%res_ret_Ok)%res_bind_Ok Hr%res_ret_Ok.
    apply collides in Hr as [Heq|?]; [|by right]. destruct (Happ e1); [by eapply Hne|done].
  - intros <-%res_ret_Ok (e2 & He2 & Hr%res_ret_Ok)%res_bind_Ok.
    apply collides in Hr as [Heq|?]; [|by right]. destruct (Happ e2); [by eapply Hne|done].
  - by left.
Qed.

(** The records of a rebuilt graph fit their leaves. *)
Lemma rebuilt_window checkpoint rh retained hg :
  Forall wf_retained retained → rebuilt_from checkpoint rh retained hg → map_Forall wf_window_record (events hg).
Proof.
  intros Hwf Hrf h r Hr. destruct (rf_sound _ _ _ _ Hrf h r Hr) as (q & Hq & Hh & ->).
  eapply Forall_forall in Hwf; [|exact Hq]. destruct Hwf as [_ Hs Hro Hrow Hrr Hts].
  split; [by eapply event_hash_length|done..| |]; simpl.
  - destruct (re_round_received q), (re_consensus_timestamp q); done.
  - unfold resize_row. apply Forall_app. split; [by apply Forall_take|]. by apply Forall_replicate.
Qed.
End binding.

(** ** Applying a response *)

Section apply.
Context `{Sha256, Ed25519, Bls, HashOrder} `{F : Fjall} `{!Durable F}.

Lemma clear_state_run db :
  ∃ ks, Db.clear_state db = (Ok tt, mkStateDb F ks (db_snap db) (db_meta db)) ∧ kv_view ks = ∅.
Proof.
  unfold Db.clear_state. rewrite get_run. destruct (iter_succeeds (db_state db)) as [l Hl].
  assert (st_lift (λ _, io (kv_iter (db_state db))) db = (Ok l, db)) as Hrun by (unfold st_lift, io; by rewrite Hl).
  rewrite (bind_run _ _ _ _ _ Hrun). apply kv_iter_Ok in Hl.
  assert (∀ m : gmap bytes bytes, foldr delete m (bt_entries bytes_le m).*1 = ∅) as Hdel.
  { intros m. apply map_empty. intros k. destruct (decide (k ∈ (bt_entries bytes_le m).*1)) as [Hk|Hk].
    - by apply lookup_foldr_delete.
    - rewrite lookup_foldr_delete_not_elem_of by done. apply eq_None_not_Some. intros [v Hv].
      apply Hk, list_elem_of_fmap. exists (k, v). split; [done|]. by apply elem_of_bt_entries. }
  unfold Db.on_state, st_zoom, st_map_err, Db.commit_batch.
  destruct l.*1 as [|k ks] eqn:Hks.
  - exists (db_state db). split; [by destruct db|]. apply fmap_nil_inv in Hks. subst l.
    pose proof (Hdel (kv_view (db_state db))) as Hd. by rewrite Hks in Hd.
  - pose proof (batch_succeeds (k :: ks) (db_state db)) as Hb.
    destruct (kv_remove_batch (k :: ks) (db_state db)) as [r ks'] eqn:Hrb. simpl in Hb. subst r.
    exists ks'. split; [done|]. apply kv_remove_batch_Ok in Hrb. rewrite Hrb, <- Hks, Hl. apply Hdel.
Qed.
(** Runs that only call sinks. *)
Definition only_calls (m : stM GossipNode Empty_set unit) : Prop := ∀ nd, ∃ calls, m nd = (Ok tt, set_calls calls nd).

Lemma only_calls_sink k c : only_calls (sink_call k c).
Proof.
  intros nd. rewrite sink_call_run. unfold call_state. case_decide; [by eexists|]. exists (nd_calls nd). by destruct nd.
Qed.

Lemma only_calls_bind m1 m2 : only_calls m1 → only_calls m2 → only_calls (m1 ;; m2).
Proof.
  intros Hm1 Hm2 nd. destruct (Hm1 nd) as [c1 E1]. rewrite (bind_run _ _ _ _ _ E1).
  destruct (Hm2 (set_calls c1 nd)) as [c2 ->]. by exists c2.
Qed.

Lemma only_calls_for {A} (l : list A) f : (∀ x, only_calls (f x)) → only_calls (st_for l f).
Proof.
  intros Hf. induction l as [|x l IH]; [|by apply only_calls_bind]. intros nd. exists (nd_calls nd). by destruct nd.
Qed.

(** The database after a write outside the state keyspace. *)
Definition keeps_state {A} (m : stM StateDb StateDbError A) : Prop := ∀ db, db_state (m db).2 = db_state db.

Lemma set_watermark_keeps w : keeps_state (Db.set_watermark w).
Proof. intros db. unfold Db.set_watermark, Db.on_meta, st_zoom. by destruct (st_map_err _ _ _). Qed.

Lemma snapshot_keeps round bs : keeps_state (Db.snapshot round bs).
Proof. intros db. unfold Db.snapshot, Db.on_snap, st_zoom. by destruct (st_map_err _ _ _). Qed.

(** What an applied response leaves in the node. *)
Record installed (resp : ReconnectResponse) (hg : Hashgraph) (nd nd' : GossipNode) : Prop := {
  in_config : nd_config nd' = nd_config nd;
  in_graph : hashgraph nd' = hg;
  in_registry : gs_registry (nd_gossip nd') = roster_snapshot (sc_payload (rr_signed_checkpoint resp));
  in_transactions : gs_transactions (nd_gossip nd') = gs_transactions (nd_gossip nd);
  in_clock : (gs_last_timestamp (nd_gossip nd) ≤ gs_last_timestamp (nd_gossip nd'))%N;
  in_root : root (node_state nd') = state_hash (sc_payload (rr_signed_checkpoint resp));
  in_state : state_ok (node_state nd') ∨ sha256_collision;
  in_processed : (cp_round (sc_payload (rr_signed_checkpoint resp))
                  ≤ act_processed_through_round (ls_activation (nd_ledger nd')))%N;
  in_tables : nd_checkpoints nd' = install_tables (rr_signed_checkpoint resp) (rr_state_bytes resp) (nd_checkpoints nd);
}.

Lemma install_run resp hg s nd :
  kv s = db_state (ls_db (nd_ledger nd)) → root s = state_hash (sc_payload (rr_signed_checkpoint resp)) →
  state_ok s ∨ sha256_collision →
  ∃ nd', install resp hg s nd = (Ok tt, nd') ∧ installed resp hg nd nd'.
Proof.
  intros Hkv Hroot Hok. unfold install. cbv zeta.
  erewrite bind_run by done. erewrite bind_run by done. erewrite bind_run by done.
  match goal with |- context [(st_for ?l ?f ≫= _) ?nd0] =>
    destruct (only_calls_for l f) with (nd := nd0) as [c1 E1];
      [intros; apply only_calls_bind; apply only_calls_sink|] end.
  rewrite (bind_run _ _ _ _ _ E1). clear E1.
  match goal with |- context [(sink_call ?k ?c ≫= _) ?nd0] => destruct (only_calls_sink k c nd0) as [c2 E2] end.
  rewrite (bind_run _ _ _ _ _ E2), get_run. clear E2. erewrite bind_run by done. rewrite get_run.
  match goal with |- context [(on_db ?m ≫= _) ?nd0] =>
    destruct (on_db_run m nd0 (set_watermark_no_crash _ _)) as (o & E3 & _);
    pose proof (set_watermark_keeps _ (ls_db (nd_ledger nd0)) : db_state (m (ls_db (nd_ledger nd0))).2 = _) as Hst end.
  rewrite (bind_run _ _ _ _ _ E3). clear E3.
  match goal with |- context [sink_call ?k ?c ?nd0] => destruct (only_calls_sink k c nd0) as [c3 ->] end.
  eexists. split; [done|].
  assert (∀ nd', db_state (ls_db (nd_ledger nd')) = kv s → ls_tree (nd_ledger nd') = tree s → node_state nd' = s) as Hns.
  { intros nd' H1' H2'. unfold node_state. rewrite H1', H2'. by destruct s. }
  split; try done.
  - apply N.le_max_l.
  - rewrite Hns; [done|rewrite Hkv; exact Hst|done].
  - apply N.le_max_r.
Qed.

Lemma apply_run resp hg nd :
  validate_response (own_id nd) (ed_public (signing_key (nd_config nd))) resp = Ok hg →
  ∃ nd', apply_checkpoint resp nd = (Ok true, nd') ∧ installed resp hg nd nd'.
Proof.
  intros Hv. unfold apply_checkpoint. rewrite get_run, Hv. apply validate_Ok in Hv.
  destruct (clear_state_run (ls_db (nd_ledger nd))) as (ks & Hclear & Hempty).
  destruct (on_db_run Db.clear_state nd) as (o & E1 & O1); [rewrite Hclear; by intros c|].
  rewrite (O1 tt) in E1 by (by rewrite Hclear). rewrite Hclear in E1. simpl in E1.
  rewrite (bind_run _ _ _ _ _ E1), decide_False by done. clear E1 O1.
  set (nd1 := set_db _ nd). destruct (from_bytes_root _ _ ks (va_state _ _ _ _ Hv) Hempty) as (s & ks' & Hfrom & Hkv & Hroot & Hok).
  assert (rebuild_state (rr_state_bytes resp) nd1 = (Ok (Some s), set_db (mkStateDb F ks' (db_snap (ls_db (nd_ledger nd1))) (db_meta (ls_db (nd_ledger nd1)))) nd1)) as E2.
  { unfold rebuild_state, logged. change (db_state (ls_db (nd_ledger nd1))) with ks. by rewrite Hfrom. }
  rewrite (bind_run _ _ _ _ _ E2). clear E2. set (nd2 := set_db _ nd1).
  set (round := cp_round _).
  destruct (on_db_run (Db.snapshot round (rr_state_bytes resp)) nd2) as (o3 & E3 & O3); [apply snapshot_no_crash|].
  rewrite (O3 tt (snapshot_Ok _ _ _)) in E3. rewrite (bind_run _ _ _ _ _ E3), decide_False by done. clear E3 O3.
  set (nd3 := set_db _ nd2). destruct (install_run resp hg s nd3) as (nd' & E4 & Hin); [|done|done|].
  { simpl. by rewrite snapshot_keeps. }
  rewrite (bind_run _ _ _ _ _ E4). exists nd'. split; [done|]. destruct Hin. by split.
Qed.

(** ** Reconnecting *)

(** A refused reply changes nothing; an applied one was signed by a quorum of
    the node's roster and passed every check. *)
Lemma reconnect_cases reply nd b nd' :
  reconnect_with reply nd = (Ok b, nd') →
  (b = false ∧ nd' = nd) ∨
  (b = true ∧ ∃ resp hg, reply = FrameReconnectResponse resp ∧
     verify_signed_checkpoint (rr_signed_checkpoint resp) (Registry.hash (gs_registry (nd_gossip nd))) = true ∧
     validated (own_id nd) (ed_public (signing_key (nd_config nd))) resp hg ∧ installed resp hg nd nd').
Proof.
  unfold reconnect_with. rewrite get_run. cbv zeta. case_decide; [by intros [= <- <-]; left|].
  unfold fetch_checkpoint. destruct reply as [| | | | |resp| | |]; try (by intros [= <- <-]; left).
  destruct (verify_signed_checkpoint _ _) eqn:Hver; [|by intros [= <- <-]; left].
  destruct (validate_response (own_id nd) (ed_public (signing_key (nd_config nd))) resp) as [hg|e|c] eqn:Hv.
  - destruct (apply_run resp hg nd Hv) as (nd1 & Hrun & Hin). rewrite (bind_run _ _ _ _ _ Hrun).
    intros [= <- <-]. right. split; [done|]. exists resp, hg. split_and!; [done..|by apply validate_Ok|]. by destruct Hin.
  - assert (apply_checkpoint resp nd = (Ok false, nd)) as Hrun.
    { unfold apply_checkpoint. by rewrite get_run, Hv. }
    rewrite (bind_run _ _ _ _ _ Hrun). intros [= <- <-]. by left.
  - unfold apply_checkpoint, mbind, stM_bind, st_get. by rewrite Hv.
Qed.

Lemma reconnect_no_crash reply nd :
  (∀ resp rh, reply = FrameReconnectResponse resp → decode_roster_history (rr_roster_history_bytes resp) = Ok rh →
     covers rh (cp_round (sc_payload (rr_signed_checkpoint resp)))) →
  no_crash (reconnect_with reply nd).1.
Proof.
  intros Hcov c. unfold reconnect_with. rewrite get_run. cbv zeta. case_decide; [done|].
  unfold fetch_checkpoint. destruct reply as [| | | | |resp| | |]; try done.
  destruct (verify_signed_checkpoint _ _); [|done].
  pose proof (validate_no_crash (own_id nd) (ed_public (signing_key (nd_config nd))) resp (λ rh, Hcov resp rh eq_refl)) as Hnc.
  destruct (validate_response _ _ resp) as [hg|e|c'] eqn:Hv; [| |by destruct (Hnc c')].
  - destruct (apply_run resp hg nd Hv) as (nd1 & Hrun & _). by rewrite (bind_run _ _ _ _ _ Hrun).
  - assert (apply_checkpoint resp nd = (Ok false, nd)) as Hrun by (unfold apply_checkpoint; by rewrite get_run, Hv).
    by rewrite (bind_run _ _ _ _ _ Hrun).
Qed.
End apply.

(** ** The tables of a reconnecting node *)

Section tables.
Context `{Sha256, Ed25519, Bls, HashOrder} `{F : Fjall}.

#[local] Hint Resolve sink_call_ok on_db_ok : preserves.

Lemma install_tables_ok checkpoint bs cs :
  root_of_bytes bs = Ok (state_hash (sc_payload checkpoint)) → tables_ok cs → tables_ok (install_tables checkpoint bs cs).
Proof.
  intros Hroot [Hp Ha Hs]. split; [done|done|]. simpl. apply map_Forall_insert_2.
  - exists checkpoint. split; [|done]. apply elem_of_app. right. by left.
  - eapply map_Forall_impl; [exact Hs|]. intros round bs' (sc & Hin & Hsc). exists sc. split; [|done].
    apply elem_of_app. by left.
Qed.

Lemma same_ok {E A} (m : stM GossipNode E A) : preserves (same tables_of) m → preserves (kept node_ok) m.
Proof. apply preserves_weaken. apply node_ok_same. Qed.

Lemma modify_ok f : (∀ nd, same tables_of nd (f nd)) → preserves (kept node_ok) (st_modify (E := Empty_set) f).
Proof. intros Hf. apply same_ok. by apply preserves_modify. Qed.

Lemma install_ok resp hg s :
  root_of_bytes (rr_state_bytes resp) = Ok (state_hash (sc_payload (rr_signed_checkpoint resp))) →
  preserves (kept node_ok) (install resp hg s).
Proof.
  intros Hroot. unfold install. cbv zeta.
  keep_step; [by apply modify_ok|]. keep_step; [by apply modify_ok|].
  keep_step; [apply with_checkpoints_ok; intros cs; by apply install_tables_ok|].
  keep. by apply modify_ok.
Qed.

Lemma reconnect_ok reply : preserves (kept node_ok) (reconnect_with reply).
Proof.
  unfold reconnect_with. keep_step; [apply preserves_get, _|]. cbv zeta. keep_step; [keep|].
  destruct (fetch_checkpoint _ reply) as [resp|e|c]; [|keep..].
  keep_step; [|keep; by apply modify_ok].
  unfold apply_checkpoint. keep_step; [apply preserves_get, _|].
  destruct (validate_response _ _ resp) as [hg|e|c] eqn:Hv; [|keep..]. apply validate_Ok, va_state in Hv.
  keep_step. keep_step; [keep|]. keep_step.
  { apply same_ok. intros nd. unfold rebuild_state, logged. destruct (State.from_bytes _ _) as [[]]; reflexivity. }
  keep_step; [|keep]. keep_step. keep_step; [keep|]. keep_step; [by apply install_ok|keep].
Qed.
End tables.
