(* ===== verification/NodeProps.v ===== *)
(** * Properties of the node

    The theorems about [GossipNode]: what its tables hold whatever arrives,
    which transactions a sync round consumes, when a checkpoint is accepted,
    and what a reconnect can and cannot do to it; evaluated on a network of
    four members. *)

From S2P Require Import Prelude Codec External Primitives Membership Graph Ancestry Order Insert Reachable Demo Retain RetainFacts.
From S2P Require Import Reconnect Checkpoint CheckpointFacts CheckpointWindow CheckpointQuorum EventLog Proto Frontier Sync.
From S2P Require Import MerkleLog MerkleLogFacts SparseMerkle SparseMerkleFacts Did Op State StateFacts Executor.
From S2P Require Import CheckpointProps Node NodeFacts NodeAccept Recovery Rebuild RecoveryFacts.

(** ** Theorems *)

Section props.
Context `{Sha256, Ed25519, Bls, HashOrder} `{F : Fjall}.

(** One call of the node, by its listeners, its driver or its clients. *)
Inductive handled : GossipNode → GossipNode → Prop :=
| handled_frame now prune_now f nd : handled nd (handle_frame now prune_now f nd).2
| handled_sync peer clock reply push nd : handled nd (sync_with peer clock reply push nd).2
| handled_transaction payload nd : handled nd (submit_transaction payload nd).2
| handled_checkpoint checkpoint nd : handled nd (adopt_signed_checkpoint checkpoint nd).2
| handled_reconnect reply nd : handled nd (reconnect_with reply nd).2.

(** C22: whatever a node handles, its tables stay in order.  From a fresh node, after any
    sequence of calls, the pool holds at most [MAX_PENDING_TRANSACTIONS]
    transactions; for no round are more than [MAX_PENDING_SIGS_PER_ROUND]
    early signatures kept, and they are of that round and of distinct
    signers; every collected signature is filed under its signer with the
    collection's round; and every state snapshot that can be served rebuilds
    to the state hash of an accepted checkpoint of its round. *)
Theorem node_tables_in_order cfg registry peers db nd :
  rtc handled (new_node cfg registry peers db) nd → node_ok nd.
Proof.
  assert (∀ nd nd', handled nd nd' → kept node_ok nd nd') as Hstep.
  { intros nd1 nd2 [now pn f nd'|peer clock reply push nd'|payload nd'|checkpoint nd'|reply nd'].
    - apply handle_frame_ok.
    - apply sync_with_ok.
    - apply submit_transaction_ok.
    - apply adopt_ok.
    - apply reconnect_ok. }
  intros Hr. remember (new_node cfg registry peers db) as nd0 eqn:H0'.
  assert (node_ok nd0) as Hok.
  { subst nd0. split; [simpl; unfold MAX_PENDING_TRANSACTIONS; lia|]. split; apply map_Forall_empty. }
  clear H0'. induction Hr as [|x y z Hxy _ IH]; [done|]. apply IH. by apply (Hstep x y).
Qed.

(** no transaction is lost in a failed round of gossip.  A sync round takes
    the first [TX_PER_SYNC] transactions of the pool into the node's own
    event; when the round fails, or when the peer turns out to be too far
    ahead, the pool is afterwards what it was, in the same order, and
    otherwise exactly the taken transactions are gone. *)
Theorem sync_keeps_transactions nd peer clock reply push :
  length (queue_of nd) ≤ MAX_PENDING_TRANSACTIONS →
  queue_of (sync_with peer clock reply push nd).2 =
  match (round_of_sync nd peer clock reply push).1 with
  | Err _ => queue_of nd
  | Ok outcome => if needs_reconnect outcome then queue_of nd else drop TX_PER_SYNC (queue_of nd)
  | Crash _ => drop TX_PER_SYNC (queue_of nd)
  end.
Proof. apply sync_queue. Qed.

(** C30: the checkpoint loop ends.  [produce_pending_checkpoints] turns once per
    decided round above the watermark: giving the loop more turns than there
    are decided rounds changes nothing. *)
Theorem checkpoint_loop_terminates fuel hashes snaps diffs nd :
  0%N ∉ decided_of nd → is_u64 (watermark_of nd) → size (decided_of nd) ≤ fuel →
  produce_loop fuel hashes snaps diffs nd = produce_pending_checkpoints hashes snaps diffs nd.
Proof.
  intros Hz Hw Hf. unfold produce_pending_checkpoints. rewrite get_run.
  assert (remaining nd ≤ size (decided_of nd)) as Hr by apply remaining_size.
  apply produce_loop_fuel; [done|done|lia|exact Hr].
Qed.


(** C10: a peer cannot damage a node by a reconnect.  On a working database,
    unless the served roster history has no roster for the checkpoint's
    round, whatever frame answers the request the node returns a verdict
    without a panic; when it refuses the reply, its graph, its rosters, its
    ledger, its tables and the calls it made are what they were. *)
Theorem reconnect_total_atomic `{!Durable F} reply nd :
  (∀ resp rh, reply = FrameReconnectResponse resp → decode_roster_history (rr_roster_history_bytes resp) = Ok rh →
     covers rh (cp_round (sc_payload (rr_signed_checkpoint resp)))) →
  ∃ b nd', reconnect_with reply nd = (Ok b, nd') ∧ (b = false → nd' = nd).
Proof.
  intros Hcov. destruct (reconnect_with reply nd) as [[b|[]|c] nd'] eqn:Hrun.
  - exists b, nd'. split; [done|]. by destruct (reconnect_cases _ _ _ _ Hrun) as [[_ ->]|[-> _]].
  - exfalso. by eapply reconnect_no_crash; [exact Hcov|rewrite Hrun].
Qed.

(** C38: a served roster history without a roster for the checkpoint's round
    panics the node.  The reply needs a quorum-signed checkpoint and its
    state bytes, which every peer that accepted the checkpoint has; the
    roster history is looked up before it is compared with the signed root. *)
Theorem uncovered_history_panics resp rh nd :
  Registry.len (gs_registry (nd_gossip nd)) ≠ 0 →
  verify_signed_checkpoint (rr_signed_checkpoint resp) (Registry.hash (gs_registry (nd_gossip nd))) = true →
  root_of_bytes (rr_state_bytes resp) = Ok (state_hash (sc_payload (rr_signed_checkpoint resp))) →
  decode_roster_history (rr_roster_history_bytes resp) = Ok rh →
  ¬ covers rh (cp_round (sc_payload (rr_signed_checkpoint resp))) →
  (reconnect_with (FrameReconnectResponse resp) nd).1 = Crash Panicked.
Proof.
  intros Hlen Hver Hroot Hrh Hn. unfold reconnect_with. rewrite get_run. cbv zeta. rewrite decide_False by done.
  unfold fetch_checkpoint. rewrite Hver.
  assert (apply_checkpoint resp nd = (Crash Panicked, nd)) as Hrun.
  { unfold apply_checkpoint. by rewrite get_run, (validate_panics _ _ _ rh Hroot Hrh Hn). }
  unfold mbind at 1, stM_bind at 1. by rewrite Hrun.
Qed.

End props.

(** ** A network of four members *)

#[local] Existing Instance toy_sha256.
#[local] Existing Instance toy_ed25519.
#[local] Existing Instance toy_bls.
#[local] Existing Instance identity_order.
#[local] Existing Instance mem_fjall.

Definition demo_config (n : N) : NodeConfig :=
  {| node_id := n; signing_key := demo_key n; bls_secret := be_bytes 48 n;
     sync_config := {| filter_likely_duplicates := false; non_ancestor_threshold := 0; ancestor_threshold := 0;
                       self_threshold := 0 |};
     sinks := [CheckpointSink]; proof_is_record := true |}.

(** A fresh node, and one that holds the events [es]. *)
Definition fresh_node (n : N) : GossipNode :=
  new_node (demo_config n) (demo_registry 4) [] (mkStateDb mem_fjall ∅ ∅ ∅).

Definition demo_node (n : N) (es : list Event) : GossipNode :=
  set_gossip (Gs.hashgraph (demo_graph 4 es) (nd_gossip (fresh_node n))) (fresh_node n).

Definition ring40 : list Event := Eval vm_compute in ring 40.

Lemma node_tables_in_order_witness :
  node_ok (submit_transaction [x01] (handle_frame (λ _, 0%N) 0 (FrameEvent (demo_event [] 7 (2%N, None, None)))
             (fresh_node 1)).2).2.
Proof.
  refine (node_tables_in_order (demo_config 1) (demo_registry 4) [] (mkStateDb mem_fjall ∅ ∅ ∅) _ _).
  eapply rtc_l; [apply (handled_frame (λ _, 0%N) 0)|]. apply rtc_once, (handled_transaction [x01]).
Defined.

(** *** Member 1 has decided four rounds *)

Definition teacher0 : GossipNode := demo_node 1 (take 24 ring40).

Definition no_hashes : gmap N bytes := {[ 0%N := tree_root new_tree ]}.
Definition no_snapshots : gmap N bytes := {[ 0%N := [] ]}.

Definition payload3 : CheckpointPayload :=
  Eval vm_compute in
  match canonical_checkpoint_payload_chained (hashgraph teacher0) 3 no_hashes [] with
  | Ok p => p | _ => Payload.new 0 [] [] [] [] ∅ end.

Definition sig3 (n : N) : CheckpointSig :=
  {| sig_round := 3; sig_signer := n; sig_bls := BlsWrapper.sign (be_bytes 48 n) (Payload.signing_bytes payload3) |}.



(** *** Transactions of a failed round *)

Definition busy_node : GossipNode := (submit_transaction [x02] (submit_transaction [x01] teacher0).2).2.

Lemma sync_keeps_transactions_witness :
  queue_of (sync_with 2 50 (inl (Sync "connection reset")) Undelivered busy_node).2 = [[x01]; [x02]].
Proof.
  assert (queue_of busy_node = [[x01]; [x02]]) as Hq by (vm_compute; reflexivity).
  pose proof (sync_keeps_transactions busy_node 2 50 (inl (Sync "connection reset")) Undelivered) as Ht.
  rewrite Hq in Ht. rewrite Ht; [|simpl; unfold MAX_PENDING_TRANSACTIONS; lia].
  vm_compute. reflexivity.
Defined.

Lemma not_in_check (x : N) (s : gset N) : bool_decide (x ∈ s) = false → x ∉ s.
Proof. apply bool_decide_eq_false_1. Qed.

Lemma small_check (s : gset N) n : (size s <=? n) = true → size s ≤ n.
Proof. apply Nat.leb_le. Qed.

Lemma checkpoint_loop_terminates_witness :
  produce_loop 100 no_hashes no_snapshots ∅ teacher0 = produce_pending_checkpoints no_hashes no_snapshots ∅ teacher0.
Proof.
  refine (checkpoint_loop_terminates 100 no_hashes no_snapshots ∅ teacher0 _ _ _).
  - apply not_in_check. vm_compute. reflexivity.
  - vm_compute. reflexivity.
  - apply small_check. vm_compute. reflexivity.
Defined.

(** *** Member 1 teaches member 4 *)

(** The first two of the other members have signed the checkpoint of round 3. *)
Definition teacher : GossipNode :=
  ((process_finalized_rounds ;; st_for [sig3 2; sig3 3] submit_checkpoint_sig) teacher0).2.

Definition no_response : ReconnectResponse :=
  {| rr_signed_checkpoint := {| sc_payload := payload3; aggregate_sig := []; signers := [] |};
     rr_state_bytes := []; rr_roster_history_bytes := []; rr_decided_round := 0; rr_retained := [];
     rr_last_timestamp := 0 |}.

Definition response_of (m : res Empty_set (option ReconnectResponse)) : ReconnectResponse :=
  match m with Ok (Some resp) => resp | _ => no_response end.

Definition demo_response : ReconnectResponse := Eval vm_compute in response_of (serve_reconnect teacher).

Definition learner0 : GossipNode := fresh_node 4.
Definition learner : GossipNode := (reconnect_with (FrameReconnectResponse demo_response) learner0).2.


#[local] Instance wf_retained_dec r : Decision (wf_retained r).
Proof.
  assert (∀ o, Decision (wf_opt_u64 o)) by (intros [v|]; simpl; apply _).
  refine (cast_if (decide ((wf_event (re_event r) ∧ is_u64 (re_seq r) ∧ is_u64 (re_round r)) ∧
    (Forall is_u64 (re_ancestor_seqs r) ∧ wf_opt_u64 (re_round_received r) ∧ wf_opt_u64 (re_consensus_timestamp r))))).
  - abstract (constructor; tauto).
  - abstract (intros []; tauto).
Defined.




(** *** A lying teacher *)

Definition with_state (bs : bytes) (resp : ReconnectResponse) : ReconnectResponse :=
  {| rr_signed_checkpoint := rr_signed_checkpoint resp; rr_state_bytes := bs;
     rr_roster_history_bytes := rr_roster_history_bytes resp; rr_decided_round := rr_decided_round resp;
     rr_retained := rr_retained resp; rr_last_timestamp := rr_last_timestamp resp |}.

Definition with_history (bs : bytes) (resp : ReconnectResponse) : ReconnectResponse :=
  {| rr_signed_checkpoint := rr_signed_checkpoint resp; rr_state_bytes := rr_state_bytes resp;
     rr_roster_history_bytes := bs; rr_decided_round := rr_decided_round resp;
     rr_retained := rr_retained resp; rr_last_timestamp := rr_last_timestamp resp |}.

(** The history served by member 1. *)
Lemma served_history : decode_roster_history (rr_roster_history_bytes demo_response) = Ok (Roster.new (demo_registry 4)).
Proof. vm_compute. reflexivity. Qed.

Lemma with_state_history bs resp : rr_roster_history_bytes (with_state bs resp) = rr_roster_history_bytes resp.
Proof. done. Qed.

Lemma reconnect_total_atomic_witness :
  ∃ b nd', reconnect_with (FrameReconnectResponse (with_state [x07] demo_response)) learner0 = (Ok b, nd') ∧
    (b = false → nd' = learner0).
Proof.
  refine (reconnect_total_atomic (FrameReconnectResponse (with_state [x07] demo_response)) learner0 _).
  intros resp rh [= <-] Hrh. rewrite with_state_history, served_history in Hrh. injection Hrh as <-.
  exists 1%N. split; [vm_compute; by eexists|vm_compute; done].
Defined.

(** Its roster starts at round 9, after the checkpoint of round 3. *)
Definition late_history : RosterHistory := {| snapshots := {[ 9%N := demo_registry 4 ]} |}.

Definition late_bytes : bytes := Eval vm_compute in match encode_roster_history late_history with Ok bs => bs | _ => [] end.

Lemma uncovered_history_panics_witness :
  (reconnect_with (FrameReconnectResponse (with_history late_bytes demo_response)) learner0).1 = Crash Panicked.
Proof.
  refine (uncovered_history_panics (with_history late_bytes demo_response) late_history learner0 _ _ _ _ _).
  - vm_compute. discriminate.
  - vm_compute. reflexivity.
  - vm_compute. reflexivity.
  - vm_compute. reflexivity.
  - intros (a & [reg Ha] & Hle). cbn in Ha. apply lookup_singleton_Some in Ha as [<- _].
    vm_compute in Hle. by destruct Hle.
Defined.

(** *** What the learner does next *)

(** The graphs of the teacher and of the learner after 16 more events. *)
Definition taught : Hashgraph := insert_all_events (drop 24 ring40) (hashgraph teacher).
Definition learned : Hashgraph := insert_all_events (drop 24 ring40) (hashgraph learner).

Definition holds_all (g : Hashgraph) (es : list Event) : bool :=
  forallb (λ e, bool_decide (is_Some (Graph.get g (demo_hash e)))) es.

Lemma holds_all_spec g es : holds_all g es = true → Forall (λ e, is_Some (Graph.get g (demo_hash e))) es.
Proof.
  unfold holds_all. rewrite forallb_forall. intros Hes. apply Forall_forall. intros e He.
  apply (bool_decide_eq_true_1 _), Hes. by apply list_elem_of_In.
Qed.

(** C37: after a reconnect to an honest teacher a node orders later events
    differently from its peers.  Member 1 serves its accepted checkpoint and
    its events, member 4 accepts them; then both insert the same 16 events in
    the same order.  Both decide the rounds up to 7, and an event that the
    teacher received in round 7 is received in round 6 by the learner.  The
    transferred events are stored without their witness status, so the
    learner counts no transferred witness when it assigns rounds and votes. *)
Theorem reconnect_splits_order :
  serve_reconnect teacher = Ok (Some demo_response) ∧
  (reconnect_with (FrameReconnectResponse demo_response) learner0).1 = Ok true ∧
  Forall (λ e, is_Some (Graph.get taught (demo_hash e))) ring40 ∧
  Forall (λ e, is_Some (Graph.get learned (demo_hash e))) ring40 ∧
  is_round_decided taught 7 = true ∧ is_round_decided learned 7 = true ∧
  ∃ e, ring40 !! 24 = Some e ∧
    round_received taught (demo_hash e) = Some 7%N ∧ round_received learned (demo_hash e) = Some 6%N.
Proof.
  split; [vm_compute; reflexivity|]. split; [vm_compute; reflexivity|].
  split; [apply holds_all_spec; vm_compute; reflexivity|]. split; [apply holds_all_spec; vm_compute; reflexivity|].
  split; [vm_compute; reflexivity|]. split; [vm_compute; reflexivity|].
  eexists. split; [vm_compute; reflexivity|]. split; vm_compute; reflexivity.
Qed.
