(* ===== verification/Stream.v ===== *)
(** * Stream files

    [consensus-node/protocol/stream]: the files a node writes for the mirror
    nodes.  Event files hold the inserted events, record files the ordered
    transactions of one round with its signed checkpoint; both are chained by
    a running hash.  Module [Pb] holds the messages of
    [proto/jkain_stream.proto]; their encoders and decoders are generated by
    the build and are the class [Protobuf].  A directory is a map from file
    names to contents; what the operating system does with a write is the
    class [Disk].  The writers' background loops handle one message per step;
    error texts are shortened. *)

From S2P Require Import Prelude Codec External Primitives Membership Graph Order Insert Retain Reconnect.
From S2P Require Import Checkpoint MerkleLog SparseMerkle Did Op State Executor.

(** ** Messages *)

Module Pb.
Record HashObject := { ho_algorithm : N; ho_length : N; ho_hash : bytes }.

Record SignatureObject := {
  so_type : N;
  so_length : N;
  so_signature : bytes;
  so_hash_object : option HashObject;
}.

Record SignatureFile := {
  file_signature : option SignatureObject;
  metadata_signature : option SignatureObject;
}.

(** A [Transaction] message is its payload. *)
Record Event := {
  pe_creator : N;
  pe_self_parent : option bytes;
  pe_other_parent : option bytes;
  pe_timestamp : N;
  pe_transactions : list bytes;
  pe_signature : bytes;
  pe_seq : N;
  pe_birth_round : N;
  pe_round_received : option N;
  pe_consensus_timestamp : option N;
}.

Record EventStreamFile := {
  ef_version : N;
  ef_start_running_hash : option HashObject;
  ef_events : list Event;
  ef_end_running_hash : option HashObject;
}.

Record RecordItem := { ri_event_hash : bytes; ri_tx_index : N; ri_tx_payload : bytes }.

Record RosterMember := { rm_node_id : N; rm_key : bytes; rm_bls_key : bytes; rm_pop : bytes }.

Record SignedCheckpoint := {
  pc_round : N;
  pc_state_hash : bytes;
  pc_roster_hash : bytes;
  pc_roster_snapshot : list RosterMember;
  pc_records_root : bytes;
  pc_aggregate_sig : bytes;
  pc_signers : list N;
  pc_prev_checkpoint_hash : bytes;
  pc_window_root : bytes;
  pc_roster_history_root : bytes;
}.

Record RecordStreamFile := {
  rf_version : N;
  rf_round : N;
  rf_start_running_hash : option HashObject;
  rf_items : list RecordItem;
  rf_end_running_hash : option HashObject;
  rf_checkpoint : option SignedCheckpoint;
  rf_state_diffs : list StateDiff;
}.

Record ProofStep := { ps_sibling_hash : bytes; ps_sibling_is_right : bool }.

Record ProofEntry := { pr_item_index : N; pr_proof_steps : list ProofStep }.

Record RecordsProofFile := { pf_version : N; pf_round : N; pf_proofs : list ProofEntry }.

(** The messages that are encoded on their own. *)
Inductive kind := KItem | KRecordFile | KEvent | KEventFile | KSignatureFile | KProofFile | KCheckpoint.

Definition msg (k : kind) : Type :=
  match k with
  | KItem => RecordItem
  | KRecordFile => RecordStreamFile
  | KEvent => Event
  | KEventFile => EventStreamFile
  | KSignatureFile => SignatureFile
  | KProofFile => RecordsProofFile
  | KCheckpoint => SignedCheckpoint
  end.

(** The widths of the integer fields. *)
Definition hash_object_fits (o : option HashObject) : Prop :=
  ∀ h, o = Some h → is_u32 (ho_algorithm h) ∧ is_u32 (ho_length h).

Definition signature_object_fits (o : option SignatureObject) : Prop :=
  ∀ s, o = Some s → is_u32 (so_type s) ∧ is_u32 (so_length s) ∧ hash_object_fits (so_hash_object s).

Definition event_fits (e : Event) : Prop :=
  is_u64 (pe_creator e) ∧ is_u64 (pe_timestamp e) ∧ is_u64 (pe_seq e) ∧ is_u64 (pe_birth_round e) ∧
  (∀ r, pe_round_received e = Some r → is_u64 r) ∧ (∀ t, pe_consensus_timestamp e = Some t → is_u64 t).

Definition item_fits (i : RecordItem) : Prop := is_u32 (ri_tx_index i).

Definition checkpoint_fits (c : SignedCheckpoint) : Prop :=
  is_u64 (pc_round c) ∧ Forall (λ m, is_u64 (rm_node_id m)) (pc_roster_snapshot c) ∧ Forall is_u64 (pc_signers c).

Definition fits (k : kind) : msg k → Prop :=
  match k with
  | KItem => item_fits
  | KRecordFile => λ f,
      is_u32 (rf_version f) ∧ is_u64 (rf_round f) ∧ hash_object_fits (rf_start_running_hash f) ∧
      Forall item_fits (rf_items f) ∧ hash_object_fits (rf_end_running_hash f) ∧
      (∀ c, rf_checkpoint f = Some c → checkpoint_fits c)
  | KEvent => event_fits
  | KEventFile => λ f,
      is_u32 (ef_version f) ∧ hash_object_fits (ef_start_running_hash f) ∧
      Forall event_fits (ef_events f) ∧ hash_object_fits (ef_end_running_hash f)
  | KSignatureFile => λ f,
      signature_object_fits (file_signature f) ∧ signature_object_fits (metadata_signature f)
  | KProofFile => λ f,
      is_u32 (pf_version f) ∧ is_u64 (pf_round f) ∧ Forall (λ p, is_u32 (pr_item_index p)) (pf_proofs f)
  | KCheckpoint => checkpoint_fits
  end.
End Pb.

(** A protobuf implementation: what is encoded is decoded again, and decoded
    integers have the width of their field.  [encoded_len] is the length of
    the encoding. *)
Class Protobuf := {
  pb_encode : ∀ k, Pb.msg k → bytes;
  pb_decode : ∀ k, bytes → option (Pb.msg k);
  pb_decode_encode : ∀ k m, Pb.fits k m → pb_decode k (pb_encode k m) = Some m;
  pb_decode_fits : ∀ k bs m, pb_decode k bs = Some m → Pb.fits k m;
}.

(** [BlsIdentity::from_ikm]: the public key of [SecretKey::key_gen]. *)
Class BlsKeygen := { bls_key_gen : bytes → option bytes }.

Inductive StreamError :=
| StreamIo
| BadVersion (version : N)
| BadSigFileVersion (version : byte)
| DecodeFailed
| MalformedStream (what : string)
| ChainDiscontinuity (where_ : string)
| BadSignature
| BadMetadataSignature
| BadQuorum
| BadChainStart
| TrailingStreamBytes
| MissingSignature (name : bytes)
| EmptyDirectory
| RoundGap (expected found : N)
| NoTrustedRoster.

#[export] Instance stream_error_eq_dec : EqDecision StreamError.
Proof. solve_decision. Defined.

(** ** File names ([lib.rs]) *)

Abbreviation lit := String.list_byte_of_string.

Definition STREAM_VERSION : N := 4.
Definition DEFAULT_EVENTS_PER_FILE : nat := 10000.
Definition EVENT_FILE_PREFIX : bytes := lit "events-".
Definition EVENT_FILE_SUFFIX : bytes := lit ".esf".
Definition EVENT_SIG_SUFFIX : bytes := lit ".esf_sig".
Definition RECORD_FILE_PREFIX : bytes := lit "round-".
Definition RECORD_FILE_SUFFIX : bytes := lit ".rsf".
Definition RECORD_SIG_SUFFIX : bytes := lit ".rsf_sig".
Definition RECORD_PROOF_SUFFIX : bytes := lit ".rsf_proofs".
Definition EVENT_FILE_INDEX_WIDTH : nat := 8.

(** [format!("{n}")] of a [u64], at most 20 digits. *)
Definition digit (d : N) : byte := byte_of_N (48 + d).

Fixpoint digits (fuel : nat) (n : N) : bytes :=
  match fuel with
  | O => []
  | S fuel => (if decide (n < 10)%N then [] else digits fuel (n / 10)%N) ++ [digit (n `mod` 10)%N]
  end.

Definition show_u64 (n : N) : bytes := digits 20 n.

(** [format!("{n:0width$}")]. *)
Definition show_padded (width : nat) (n : N) : bytes :=
  replicate (width - length (show_u64 n)) x30 ++ show_u64 n.

(** The loop of [u64::from_str] and [strconv.ParseUint]: decimal digits, with
    overflow an error. *)
Definition digit_value (b : byte) : option N :=
  if decide (48 ≤ Byte.to_N b ∧ Byte.to_N b ≤ 57)%N then Some (Byte.to_N b - 48)%N else None.

Fixpoint parse_digits (acc : N) (s : bytes) : option N :=
  match s with
  | [] => Some acc
  | b :: s =>
      d ← digit_value b;
      if decide (10 * acc + d < u64_modulus)%N then parse_digits (10 * acc + d)%N s else None
  end.

(** [str::parse::<u64>]: an optional [+], then at least one digit. *)
Definition parse_u64 (s : bytes) : option N :=
  let s := match s with x2b :: s => s | _ => s end in
  match s with [] => None | _ => parse_digits 0 s end.

Definition strip_suffix (p s : bytes) : option bytes :=
  let n := length s - length p in
  if decide (length p ≤ length s ∧ drop n s = p) then Some (take n s) else None.

Definition event_file_name (index : N) : bytes :=
  EVENT_FILE_PREFIX ++ show_padded EVENT_FILE_INDEX_WIDTH index ++ EVENT_FILE_SUFFIX.
Definition record_file_name (round : N) : bytes := RECORD_FILE_PREFIX ++ show_u64 round ++ RECORD_FILE_SUFFIX.
Definition record_proof_file_name (round : N) : bytes := RECORD_FILE_PREFIX ++ show_u64 round ++ RECORD_PROOF_SUFFIX.

Definition signature_file_name (name : bytes) : bytes :=
  match strip_suffix EVENT_FILE_SUFFIX name with
  | Some stem => stem ++ EVENT_SIG_SUFFIX
  | None => default name (strip_suffix RECORD_FILE_SUFFIX name) ++ RECORD_SIG_SUFFIX
  end.

(** ** Directories ([storage/src/atomic.rs]) *)

Record Dir := { files : gmap bytes bytes; attempts : nat }.

(** A write is renamed over the target and synced, fails before the rename
    and leaves the old file, or fails when the directory is synced after it.
    Which of the three may depend on when it is attempted. *)
Variant outcome := Written | Refused | Unsynced.

Class Disk := { disk_outcome : nat → bytes → bytes → outcome }.

Definition put_file (name content : bytes) (d : Dir) : Dir :=
  {| files := <[name := content]> (files d); attempts := S (attempts d) |}.

Definition write_atomic `{Disk} (name content : bytes) : stM Dir StreamError unit := λ d,
  match disk_outcome (attempts d) name content with
  | Written => (Ok tt, put_file name content d)
  | Refused => (Err StreamIo, {| files := files d; attempts := S (attempts d) |})
  | Unsynced => (Err StreamIo, put_file name content d)
  end.

(** [fs::read]. *)
Definition read_file (d : Dir) (name : bytes) : res StreamError bytes := ok_or (files d !! name) StreamIo.

(** [fs::read_dir] with the numbers of the names that have the prefix and the
    suffix; a name that is not UTF-8 has no such number. *)
Definition numbered (prefix suffix name : bytes) : option N :=
  rest ← strip_prefix prefix name; mid ← strip_suffix suffix rest; parse_u64 mid.

Definition by_number (a b : N * bytes) : Prop := (a.1 ≤ b.1)%N.

#[export] Instance by_number_dec : RelDecision by_number.
Proof. intros a b. unfold by_number. apply _. Defined.

Definition files_in `{HashOrder} (prefix suffix : bytes) (d : Dir) : list (N * bytes) :=
  merge_sort by_number
    (omap (λ e, (λ n, (n, e.1)) <$> numbered prefix suffix e.1) (hm_iter (files d))).

(** ** The running hash ([running_hash.rs]) *)

Section stream.
Context `{Sha256, Ed25519, Bls, BlsKeygen} `{P : Protobuf}.

Definition DOMAIN : bytes := [x6a; x6b; x2d; x6b].
Definition CHAIN_SEED : bytes := replicate 32 x00.

Definition item_hash (serialized_item : bytes) : bytes := sha256 (DOMAIN ++ lit "item" ++ serialized_item).
Definition chain_hash (running_hash item_hash : bytes) : bytes :=
  sha256 (DOMAIN ++ lit "chain" ++ running_hash ++ item_hash).

(** Folding items into the chain, as in [chain_items] and [verify_item_chain]. *)
Definition chain_items {A} (serialize : A → bytes) (start : bytes) (items : list A) : bytes :=
  foldl (λ cur item, chain_hash cur (item_hash (serialize item))) start items.

(** ** Signature files ([signature.rs]) *)

Definition SIG_FILE_VERSION : byte := x01.
Definition HASH_ALGORITHM_SHA256 : N := 0.
Definition HASH_LENGTH_SHA256 : N := 32.
Definition SIGNATURE_TYPE_ED25519 : N := 0.
Definition SIGNATURE_LENGTH_ED25519 : N := 64.

(** [hash_object] and [digest_hash_object]. *)
Definition digest_hash_object (digest : bytes) : Pb.HashObject :=
  {| Pb.ho_algorithm := HASH_ALGORITHM_SHA256; Pb.ho_length := HASH_LENGTH_SHA256; Pb.ho_hash := digest |}.

Definition signature_object (digest key : bytes) : Pb.SignatureObject :=
  {| Pb.so_type := SIGNATURE_TYPE_ED25519; Pb.so_length := SIGNATURE_LENGTH_ED25519;
     Pb.so_signature := ed_sign key digest; Pb.so_hash_object := Some (digest_hash_object digest) |}.

Definition metadata_bytes (version : N) (start end_ : bytes) (round : option N) : bytes :=
  u32_be version ++ start ++ end_ ++ match round with Some r => u64_be r | None => [] end.

Definition build_signature_file (file_bytes metadata key : bytes) : Pb.SignatureFile :=
  {| Pb.file_signature := Some (signature_object (sha256 file_bytes) key);
     Pb.metadata_signature := Some (signature_object (sha256 metadata) key) |}.

Definition write_signature_file `{Disk} (name : bytes) (f : Pb.SignatureFile) : stM Dir StreamError unit :=
  write_atomic name (SIG_FILE_VERSION :: pb_encode Pb.KSignatureFile f).

(** Decoding a whole message: prost accepts trailing bytes, the readers do
    not. *)
Definition decode_exact (k : Pb.kind) (bs : bytes) : res StreamError (Pb.msg k) :=
  m ← ok_or (pb_decode k bs) DecodeFailed;
  if decide (length (pb_encode k m) ≠ length bs) then Err TrailingStreamBytes else mret m.

Definition has_hash_object (o : option Pb.SignatureObject) : bool :=
  match o with Some s => bool_decide (is_Some (Pb.so_hash_object s)) | None => false end.

Definition read_signature_file (bs : bytes) : res StreamError Pb.SignatureFile :=
  match bs with
  | [] => Err (MalformedStream "signature file is empty")
  | version :: rest =>
      if decide (version ≠ SIG_FILE_VERSION) then Err (BadSigFileVersion version) else
      f ← decode_exact Pb.KSignatureFile rest;
      if negb (has_hash_object (Pb.file_signature f)) || negb (has_hash_object (Pb.metadata_signature f))
      then Err (MalformedStream "signature file is missing a signature or its hash object")
      else mret f
  end.

Definition verify_signature_object (s : Pb.SignatureObject) (expected_digest key : bytes) : bool :=
  match Pb.so_hash_object s with
  | None => false
  | Some h =>
      (Pb.ho_algorithm h =? HASH_ALGORITHM_SHA256)%N && (Pb.ho_length h =? HASH_LENGTH_SHA256)%N &&
      bool_decide (Pb.ho_hash h = expected_digest) &&
      (Pb.so_type s =? SIGNATURE_TYPE_ED25519)%N && (Pb.so_length s =? SIGNATURE_LENGTH_ED25519)%N &&
      bool_decide (length (Pb.so_signature s) = 64) &&
      ed_verify_strict key expected_digest (Pb.so_signature s)
  end.

(** ** Conversions ([convert.rs]) *)

(** [try_into().ok()?] to an array of [w] bytes. *)
Definition to_array (w : nat) (bs : bytes) : option bytes := if decide (length bs = w) then Some bs else None.

Definition retained_event_to_proto (record : RetainedEvent) : Pb.Event :=
  let e := re_event record in
  {| Pb.pe_creator := creator e; Pb.pe_self_parent := self_parent e; Pb.pe_other_parent := other_parent e;
     Pb.pe_timestamp := timestamp e; Pb.pe_transactions := payload e; Pb.pe_signature := signature e;
     Pb.pe_seq := re_seq record; Pb.pe_birth_round := re_round record;
     Pb.pe_round_received := re_round_received record; Pb.pe_consensus_timestamp := None |}.

Definition proto_hash (bs : option bytes) : option (option EventHash) :=
  match bs with None => Some None | Some bs => Some <$> to_array 32 bs end.

Definition proto_to_event (e : Pb.Event) : option Event :=
  self_parent ← proto_hash (Pb.pe_self_parent e);
  other_parent ← proto_hash (Pb.pe_other_parent e);
  signature ← to_array 64 (Pb.pe_signature e);
  Some {| ev_unsigned := {| ue_creator := Pb.pe_creator e; ue_self_parent := self_parent;
                            ue_other_parent := other_parent; ue_timestamp := Pb.pe_timestamp e;
                            ue_payload := Pb.pe_transactions e |};
          ev_signature := signature |}.

(** Every member of the roster in ascending order. *)
Definition signed_checkpoint_to_proto (sc : SignedCheckpoint) : Pb.SignedCheckpoint :=
  let p := sc_payload sc in
  {| Pb.pc_round := cp_round p; Pb.pc_state_hash := state_hash p; Pb.pc_roster_hash := roster_hash p;
     Pb.pc_roster_snapshot :=
       (λ m, {| Pb.rm_node_id := m.1; Pb.rm_key := m.2.1; Pb.rm_bls_key := m.2.2; Pb.rm_pop := [] |})
         <$> bt_entries N.le (roster_snapshot p);
     Pb.pc_records_root := records_root p; Pb.pc_aggregate_sig := aggregate_sig sc;
     Pb.pc_signers := signers sc; Pb.pc_prev_checkpoint_hash := prev_checkpoint_hash p;
     Pb.pc_window_root := window_root p; Pb.pc_roster_history_root := roster_history_root p |}.

(** The BLS key of a member; without one, that of the repeated id byte. *)
Definition member_bls_key (m : Pb.RosterMember) : option bytes :=
  match Pb.rm_bls_key m with
  | [] => secret ← bls_key_gen (replicate 32 (byte_of_N (Pb.rm_node_id m))); Some (bls_public secret)
  | bls_key => to_array 48 bls_key
  end.

Fixpoint roster_from_members_loop (registry : MembershipRegistry) (members : list Pb.RosterMember) :
    option MembershipRegistry :=
  match members with
  | [] => Some registry
  | m :: members =>
      if Registry.contains registry (Pb.rm_node_id m) then None else
      key_bytes ← to_array 32 (Pb.rm_key m);
      if negb (vk_valid key_bytes) then None else
      bls_key ← member_bls_key m;
      if decide (Pb.rm_pop m ≠ [] ∧ length (Pb.rm_pop m) ≠ 96) then None else
      if negb (bls_pk_valid bls_key) then None else
      roster_from_members_loop (Registry.register registry (Pb.rm_node_id m) key_bytes bls_key) members
  end.

Definition roster_from_members (members : list Pb.RosterMember) : option MembershipRegistry :=
  roster_from_members_loop ∅ members.

Definition proto_to_signed_checkpoint (c : Pb.SignedCheckpoint) : option SignedCheckpoint :=
  state_hash ← to_array 32 (Pb.pc_state_hash c);
  roster_hash ← to_array 32 (Pb.pc_roster_hash c);
  records_root ← to_array 32 (Pb.pc_records_root c);
  prev_checkpoint_hash ← to_array 32 (Pb.pc_prev_checkpoint_hash c);
  window_root ← to_array 32 (Pb.pc_window_root c);
  roster_history_root ← to_array 32 (Pb.pc_roster_history_root c);
  agg_bytes ← to_array 96 (Pb.pc_aggregate_sig c);
  if negb (bls_sig_valid agg_bytes) then None else
  roster_snapshot ← roster_from_members (Pb.pc_roster_snapshot c);
  if decide (Registry.hash roster_snapshot ≠ roster_hash) then None else
  Some {| sc_payload := {| cp_round := Pb.pc_round c; records_root := records_root; state_hash := state_hash;
                           roster_hash := roster_hash; prev_checkpoint_hash := prev_checkpoint_hash;
                           window_root := window_root; roster_history_root := roster_history_root;
                           roster_snapshot := roster_snapshot |};
          aggregate_sig := agg_bytes; signers := Pb.pc_signers c |}.

Definition checkpoint_member_key (c : Pb.SignedCheckpoint) (node_id : NodeId) : option bytes :=
  registry ← roster_from_members (Pb.pc_roster_snapshot c);
  res_ok (Registry.key_for registry node_id).

Definition item_to_proto (item : RecordsRootItem) : Pb.RecordItem :=
  {| Pb.ri_event_hash := item_event_hash item; Pb.ri_tx_index := item_tx_index item;
     Pb.ri_tx_payload := item_tx_payload item |}.

(** The loop is that of [record_items], over the same order. *)
Definition record_items_for_round `{HashOrder} (hg : Hashgraph) (round : N) : res unit (list Pb.RecordItem) :=
  items ← record_items hg (consensus_order hg round); mret (item_to_proto <$> (items : list RecordsRootItem)).

Definition hash_object_digest (h : Pb.HashObject) : option bytes :=
  if decide (Pb.ho_algorithm h ≠ HASH_ALGORITHM_SHA256 ∨ Pb.ho_length h ≠ HASH_LENGTH_SHA256) then None
  else to_array 32 (Pb.ho_hash h).

Definition commitment (o : option Pb.HashObject) : option bytes := o ≫= hash_object_digest.

Definition check_round_consistency (f : Pb.RecordStreamFile) : res StreamError unit :=
  match Pb.rf_checkpoint f with
  | None => Err (MalformedStream "record stream file has no checkpoint anchor")
  | Some c =>
      if decide (Pb.rf_round f ≠ Pb.pc_round c)
      then Err (MalformedStream "round disagrees with its checkpoint") else mret tt
  end.

(** ** Proof files ([proof.rs]) *)

Definition item_from_proto (item : Pb.RecordItem) : option RecordsRootItem :=
  hash ← to_array 32 (Pb.ri_event_hash item);
  Some {| item_event_hash := hash; item_tx_index := Pb.ri_tx_index item; item_tx_payload := Pb.ri_tx_payload item |}.

Definition proof_to_proto (p : RecordsProof) : Pb.ProofEntry :=
  {| Pb.pr_item_index := item_index p;
     Pb.pr_proof_steps := (λ s, {| Pb.ps_sibling_hash := sibling_hash s;
                                   Pb.ps_sibling_is_right := sibling_is_right s |}) <$> proof_steps p |}.

(** [consensus::build_records_proofs] is an [expect]. *)
Definition build_records_proofs {E} (items : list RecordsRootItem) : res E (list Pb.ProofEntry) :=
  match try_build_records_proofs items with
  | Ok proofs => Ok (proof_to_proto <$> proofs)
  | Err _ => Crash Panicked
  | Crash c => Crash c
  end.

Definition build_records_proofs_from_items {E} (items : list Pb.RecordItem) : res E (list Pb.ProofEntry) :=
  let rr_items := omap item_from_proto items in
  if decide (length rr_items ≠ length items) then mret [] else build_records_proofs rr_items.

Definition step_from_proto (s : Pb.ProofStep) : option RecordsProofStep :=
  hash ← to_array 32 (Pb.ps_sibling_hash s);
  Some {| sibling_hash := hash; sibling_is_right := Pb.ps_sibling_is_right s |}.

(** The index is a [u32], below [usize::MAX]. *)
Definition verify_proof (root : bytes) (item : RecordsRootItem) (p : Pb.ProofEntry) : bool :=
  let native_steps := omap step_from_proto (Pb.pr_proof_steps p) in
  if decide (length native_steps ≠ length (Pb.pr_proof_steps p)) then false
  else verify_records_proof root item {| item_index := Pb.pr_item_index p; proof_steps := native_steps |}.

Definition write_records_proof_file `{Disk} (round : N) (proofs : list Pb.ProofEntry) : stM Dir StreamError unit :=
  write_atomic (record_proof_file_name round)
    (pb_encode Pb.KProofFile {| Pb.pf_version := STREAM_VERSION; Pb.pf_round := round; Pb.pf_proofs := proofs |}).

Definition read_records_proof_file (bs : bytes) : res StreamError Pb.RecordsProofFile :=
  f ← decode_exact Pb.KProofFile bs;
  if decide (Pb.pf_version f ≠ STREAM_VERSION) then Err (BadVersion (Pb.pf_version f)) else
  if forallb (λ p, forallb (λ s, bool_decide (length (Pb.ps_sibling_hash s) = 32)) (Pb.pr_proof_steps p))
       (Pb.pf_proofs f)
  then mret f else Err (MalformedStream "proof step sibling_hash must be 32 bytes").

(** ** Readers *)

Definition read_event_stream_file (bs : bytes) : res StreamError Pb.EventStreamFile :=
  f ← decode_exact Pb.KEventFile bs;
  if decide (Pb.ef_version f ≠ STREAM_VERSION) then Err (BadVersion (Pb.ef_version f)) else
  if decide (commitment (Pb.ef_start_running_hash f) = None ∨ commitment (Pb.ef_end_running_hash f) = None)
  then Err (MalformedStream "missing a running-hash commitment") else mret f.

Definition read_record_stream_file (bs : bytes) : res StreamError Pb.RecordStreamFile :=
  f ← decode_exact Pb.KRecordFile bs;
  if decide (Pb.rf_version f ≠ STREAM_VERSION) then Err (BadVersion (Pb.rf_version f)) else
  check_round_consistency f ;;
  if decide (commitment (Pb.rf_start_running_hash f) = None ∨ commitment (Pb.rf_end_running_hash f) = None)
  then Err (MalformedStream "missing a running-hash commitment") else mret f.

(** The two [resume_state]s: the number after the highest readable file and
    the hash it ends with, or the start of the stream. *)
Definition resume_from (read_end : N → option bytes) (first : N) (numbers : list N) : N * bytes :=
  default (first, CHAIN_SEED)
    (head (omap (λ n, (λ end_, (u64_wrapping_add n 1, end_)) <$> read_end n) (reverse (merge_sort N.le numbers)))).

Definition record_end (d : Dir) (round : N) : option bytes :=
  bs ← files d !! record_file_name round;
  f ← res_ok (read_record_stream_file bs);
  commitment (Pb.rf_end_running_hash f).

Definition event_end (d : Dir) (index : N) : option bytes :=
  bs ← files d !! event_file_name index;
  f ← res_ok (read_event_stream_file bs);
  commitment (Pb.ef_end_running_hash f).

Definition resume_records `{HashOrder} (d : Dir) : N * bytes :=
  resume_from (record_end d) 1
    (omap (λ e, numbered RECORD_FILE_PREFIX RECORD_FILE_SUFFIX e.1) (hm_iter (files d))).

Definition resume_events `{HashOrder} (d : Dir) : N * bytes :=
  resume_from (event_end d) 0
    (omap (λ e, numbered EVENT_FILE_PREFIX EVENT_FILE_SUFFIX e.1) (hm_iter (files d))).

(** ** The record writer ([record.rs]) *)

Inductive RecordStreamMsg :=
| WriteRecord (checkpoint : SignedCheckpoint) (items : list Pb.RecordItem) (diffs : list StateDiff)
| RecordBarrier.

(** The state of the background task, with the directory it writes to. *)
Record RecordState := { rs_next_round : N; rs_running_hash : bytes; rs_dir : Dir }.

Definition record_stream_file (sc : SignedCheckpoint) (items : list Pb.RecordItem) (diffs : list StateDiff)
    (start_hash : bytes) : Pb.RecordStreamFile :=
  {| Pb.rf_version := STREAM_VERSION; Pb.rf_round := cp_round (sc_payload sc);
     Pb.rf_start_running_hash := Some (digest_hash_object start_hash);
     Pb.rf_items := items;
     Pb.rf_end_running_hash := Some (digest_hash_object (chain_items (pb_encode Pb.KItem) start_hash items));
     Pb.rf_checkpoint := Some (signed_checkpoint_to_proto sc);
     Pb.rf_state_diffs := diffs |}.

Section writers.
Context `{Disk}.

Definition write_proof_sidecar (round : N) (items : list Pb.RecordItem) : stM Dir StreamError unit :=
  proofs ← st_lift (λ _, build_records_proofs_from_items items);
  write_records_proof_file round proofs.

(** Returns the new running hash; a failed sidecar is only logged. *)
Definition write_record_file (sc : SignedCheckpoint) (items : list Pb.RecordItem) (diffs : list StateDiff)
    (running_hash : bytes) : stM Dir StreamError bytes := λ d,
  let round := cp_round (sc_payload sc) in
  let file := record_stream_file sc items diffs running_hash in
  match write_atomic (record_file_name round) (pb_encode Pb.KRecordFile file) d with
  | (Ok _, d) =>
      match logged (write_proof_sidecar round items) d with
      | (Crash c, d) => (Crash c, d)
      | (_, d) => (Ok (chain_items (pb_encode Pb.KItem) running_hash items), d)
      end
  | (Err e, d) => (Err e, d)
  | (Crash c, d) => (Crash c, d)
  end.

(** One turn of the record [run_writer]. *)
Definition record_step (m : RecordStreamMsg) : stM RecordState Empty_set unit := λ s,
  match m with
  | RecordBarrier => (Ok tt, s)
  | WriteRecord sc items diffs =>
      let round := cp_round (sc_payload sc) in
      if decide (rs_next_round s ≤ round)%N then
        match write_record_file sc items diffs (rs_running_hash s) (rs_dir s) with
        | (Ok hash, d) =>
            (Ok tt, {| rs_next_round := u64_wrapping_add round 1; rs_running_hash := hash; rs_dir := d |})
        | (Err _, d) =>
            (Ok tt, {| rs_next_round := rs_next_round s; rs_running_hash := rs_running_hash s; rs_dir := d |})
        | (Crash c, d) =>
            (Crash c, {| rs_next_round := rs_next_round s; rs_running_hash := rs_running_hash s; rs_dir := d |})
        end
      else (Ok tt, s)
  end.

Definition open_records `{HashOrder} (d : Dir) : RecordState :=
  {| rs_next_round := (resume_records d).1; rs_running_hash := (resume_records d).2; rs_dir := d |}.

(** [submit]: the message for an accepted checkpoint. *)
Definition submit `{HashOrder} (hg : Hashgraph) (sc : SignedCheckpoint) (diffs : list StateDiff) :
    res unit RecordStreamMsg :=
  items ← record_items_for_round hg (cp_round (sc_payload sc)); mret (WriteRecord sc items diffs).

(** ** The event writer ([event.rs]) *)

Inductive EventStreamMsg := AppendEvent (record : RetainedEvent) | FlushEvents | EventBarrier.

Record EventState := {
  es_next_index : N;
  es_running_hash : bytes;
  es_file_start_hash : bytes;
  es_buffer : list Pb.Event;
  es_dir : Dir;
}.

Definition event_stream_file (s : EventState) : Pb.EventStreamFile :=
  {| Pb.ef_version := STREAM_VERSION; Pb.ef_start_running_hash := Some (digest_hash_object (es_file_start_hash s));
     Pb.ef_events := es_buffer s; Pb.ef_end_running_hash := Some (digest_hash_object (es_running_hash s)) |}.

(** The signature file first, then the stream file. *)
Definition write_event_file (key : bytes) (s : EventState) : stM Dir StreamError unit :=
  let file_bytes := pb_encode Pb.KEventFile (event_stream_file s) in
  let metadata := metadata_bytes STREAM_VERSION (es_file_start_hash s) (es_running_hash s) None in
  let name := event_file_name (es_next_index s) in
  write_signature_file (signature_file_name name) (build_signature_file file_bytes metadata key) ;;
  write_atomic name file_bytes.

Definition from_resume (next_index : N) (running_hash : bytes) (d : Dir) : EventState :=
  {| es_next_index := next_index; es_running_hash := running_hash; es_file_start_hash := running_hash;
     es_buffer := []; es_dir := d |}.

Definition advance (s : EventState) : EventState :=
  from_resume (u64_wrapping_add (es_next_index s) 1) (es_running_hash s) (es_dir s).

Definition set_event_dir (d : Dir) (s : EventState) : EventState :=
  {| es_next_index := es_next_index s; es_running_hash := es_running_hash s;
     es_file_start_hash := es_file_start_hash s; es_buffer := es_buffer s; es_dir := d |}.

(** [match write_event_file(..) { Ok(()) => state.advance(), Err(e) => .. }]. *)
Definition close_file (key : bytes) : stM EventState Empty_set unit :=
  s ← st_get;
  o ← st_zoom es_dir set_event_dir (logged (write_event_file key s));
  match o with Some _ => st_modify advance | None => mret tt end.

Definition push_event (record : RetainedEvent) (s : EventState) : EventState :=
  let event := retained_event_to_proto record in
  {| es_next_index := es_next_index s;
     es_running_hash := chain_hash (es_running_hash s) (item_hash (pb_encode Pb.KEvent event));
     es_file_start_hash := es_file_start_hash s; es_buffer := es_buffer s ++ [event]; es_dir := es_dir s |}.

(** One turn of the event [run_writer]. *)
Definition event_step (key : bytes) (events_per_file : nat) (m : EventStreamMsg) : stM EventState Empty_set unit :=
  match m with
  | EventBarrier => mret tt
  | AppendEvent record =>
      st_modify (push_event record) ;;
      s ← st_get;
      if decide (events_per_file ≤ length (es_buffer s)) then close_file key else mret tt
  | FlushEvents =>
      s ← st_get;
      if decide (es_buffer s = []) then mret tt else close_file key
  end.

(** The last write when the channel is closed; the state is dropped. *)
Definition shutdown_events (key : bytes) (s : EventState) : res Empty_set unit * Dir :=
  if decide (es_buffer s = []) then (Ok tt, es_dir s)
  else let '(r, d) := logged (write_event_file key s) (es_dir s) in
       (match r with Crash c => Crash c | _ => Ok tt end, d).

Definition open_events `{HashOrder} (d : Dir) : EventState :=
  from_resume (resume_events d).1 (resume_events d).2 d.
End writers.

(** ** The verifier ([verify.rs]) *)

Definition check_chain_link (start : bytes) (previous_end : option bytes) : res StreamError unit :=
  match previous_end with
  | None => if decide (start ≠ CHAIN_SEED) then Err BadChainStart else mret tt
  | Some previous => if decide (start ≠ previous) then Err (ChainDiscontinuity "file start") else mret tt
  end.

Definition verify_item_chain {A} (serialize : A → bytes) (start end_ : bytes) (items : list A) :
    res StreamError unit :=
  if decide (chain_items serialize start items ≠ end_) then Err (ChainDiscontinuity "end_running_hash") else mret tt.

Definition digest_or_err (o : option Pb.HashObject) : res StreamError bytes :=
  ok_or (commitment o) (MalformedStream "missing a running hash").

Definition verify_signature_file_for (d : Dir) (name stream_bytes start end_ : bytes) (round : option N)
    (node_key : bytes) : res StreamError unit :=
  sig_bytes ← ok_or (files d !! signature_file_name name) (MissingSignature name);
  f ← read_signature_file sig_bytes;
  let ok o digest := match o with Some s => verify_signature_object s digest node_key | None => false end in
  if negb (ok (Pb.file_signature f) (sha256 stream_bytes)) then Err BadSignature else
  if negb (ok (Pb.metadata_signature f) (sha256 (metadata_bytes STREAM_VERSION start end_ round)))
  then Err BadMetadataSignature else mret tt.

Fixpoint verify_event_files (d : Dir) (node_key : bytes) (previous_end : option bytes) (l : list (N * bytes)) :
    res StreamError unit :=
  match l with
  | [] => mret tt
  | (index, name) :: l =>
      bs ← read_file d name;
      f ← read_event_stream_file bs;
      start ← digest_or_err (Pb.ef_start_running_hash f);
      end_ ← digest_or_err (Pb.ef_end_running_hash f);
      check_chain_link start previous_end ;;
      verify_item_chain (pb_encode Pb.KEvent) start end_ (Pb.ef_events f) ;;
      verify_signature_file_for d name bs start end_ None node_key ;;
      verify_event_files d node_key (Some end_) l
  end.

Definition verify_event_stream_dir `{HashOrder} (d : Dir) (node_key : bytes) : res StreamError unit :=
  match files_in EVENT_FILE_PREFIX EVENT_FILE_SUFFIX d with
  | [] => Err EmptyDirectory
  | l => verify_event_files d node_key None l
  end.

(** [None] when an event hash has the wrong width. *)
Definition records_root_from_items {E} (items : list Pb.RecordItem) : res E (option bytes) :=
  match mapM item_from_proto items with
  | None => mret None
  | Some rr_items => root ← compute_records_root rr_items; mret (Some root)
  end.

Definition verify_checkpoint_binding_set {E} (c : Pb.SignedCheckpoint) (trusted : list bytes)
    (items : list Pb.RecordItem) : res E bool :=
  match proto_to_signed_checkpoint c with
  | None => mret false
  | Some cp =>
      if negb (bool_decide (roster_hash (sc_payload cp) ∈ trusted)) then mret false else
      if negb (verify cp) then mret false else
      computed ← records_root_from_items items;
      mret (bool_decide (computed = Some (records_root (sc_payload cp))))
  end.

Fixpoint verify_record_files (d : Dir) (trusted : list bytes) (previous : option (N * bytes))
    (l : list (N * bytes)) : res StreamError unit :=
  match l with
  | [] => mret tt
  | (round, name) :: l =>
      match previous with
      | None => mret tt
      | Some (previous_round, _) =>
          expected ← ok_or (u64_checked_add previous_round 1) (RoundGap u64_max round);
          if decide (round ≠ expected) then Err (RoundGap expected round) else mret tt
      end ;;
      bs ← read_file d name;
      f ← read_record_stream_file bs;
      start ← digest_or_err (Pb.rf_start_running_hash f);
      end_ ← digest_or_err (Pb.rf_end_running_hash f);
      check_chain_link start (snd <$> previous) ;;
      verify_item_chain (pb_encode Pb.KItem) start end_ (Pb.rf_items f) ;;
      c ← ok_or (Pb.rf_checkpoint f) (MalformedStream "no checkpoint anchor");
      bound ← verify_checkpoint_binding_set c trusted (Pb.rf_items f);
      if negb bound then Err BadQuorum else
      verify_record_files d trusted (Some (round, end_)) l
  end.

Definition verify_record_stream_dir_rosters `{HashOrder} (d : Dir) (trusted : list bytes) : res StreamError unit :=
  match trusted with
  | [] => Err NoTrustedRoster
  | _ =>
      match files_in RECORD_FILE_PREFIX RECORD_FILE_SUFFIX d with
      | [] => Err EmptyDirectory
      | l => verify_record_files d trusted None l
      end
  end.
End stream.
