(* ===== verification/StreamFacts.v ===== *)
(** * Facts about stream files

    Decimal numbers and file names, the listing of a directory, and what the
    event writer leaves in it: module [EventDir] relates a directory to the
    list of files written so far, and shows that the writer keeps the relation,
    that one opened on such a directory resumes where the last one stopped, and
    that the verifier accepts it. *)

From S2P Require Import Prelude Codec External Primitives Membership Graph Order Insert Retain Reconnect.
From S2P Require Import Checkpoint CheckpointFacts CheckpointQuorum MerkleLog SparseMerkle Did DidFacts Op State Executor.
From S2P Require Import Stream.

(** ** Decimal numbers *)

Lemma parse_digits_app acc x y : parse_digits acc (x ++ y) = parse_digits acc x ≫= λ a, parse_digits a y.
Proof.
  revert acc. induction x as [|b x IH]; intros acc; [done|]. simpl.
  destruct (digit_value b) as [d|]; [simpl|done]. case_decide; [apply IH|done].
Qed.

Lemma digit_value_digit d : (d < 10)%N → digit_value (digit d) = Some d.
Proof.
  intros Hd. unfold digit_value, digit. rewrite to_N_byte_of_N.
  rewrite N.mod_small by lia. rewrite decide_True by lia. f_equal. lia.
Qed.

Lemma parse_digits_digits fuel n :
  (n < u64_modulus)%N → (n < 10 ^ N.of_nat fuel)%N → parse_digits 0 (digits fuel n) = Some n.
Proof.
  revert n. induction fuel as [|fuel IH]; intros n Hn Hf; [simpl in *; f_equal; lia|].
  rewrite Nat2N.inj_succ, N.pow_succ_r in Hf by lia. simpl digits.
  assert (n `mod` 10 < 10)%N as Hm by (apply N.mod_lt; lia).
  pose proof (N.div_mod n 10 ltac:(lia)) as Hd. rewrite parse_digits_app. case_decide as Hs.
  - simpl. rewrite digit_value_digit by done. simpl. rewrite N.mod_small by done. by rewrite decide_True by lia.
  - assert (n / 10 < u64_modulus)%N by (eapply N.le_lt_trans; [|exact Hn]; apply N.Div0.div_le_upper_bound; lia).
    rewrite IH; [|done|apply N.Div0.div_lt_upper_bound; done]. simpl. rewrite digit_value_digit by done. simpl.
    rewrite <- Hd. by rewrite decide_True by done.
Qed.

Lemma parse_show_u64 n : is_u64 n → parse_digits 0 (show_u64 n) = Some n.
Proof.
  intros Hn. apply parse_digits_digits; [done|]. eapply N.lt_le_trans; [exact Hn|]. by vm_compute.
Qed.

Lemma parse_show_padded w n : is_u64 n → parse_digits 0 (show_padded w n) = Some n.
Proof.
  intros Hn. unfold show_padded. rewrite parse_digits_app.
  assert (∀ k, parse_digits 0 (replicate k x30) = Some 0%N) as -> by (induction k as [|k IH]; [done|exact IH]).
  by apply parse_show_u64.
Qed.

Lemma digits_ne fuel n : digits (S fuel) n ≠ [].
Proof. simpl. by intros [_ ?]%app_eq_nil. Qed.

Lemma show_u64_ne n : show_u64 n ≠ [].
Proof. apply digits_ne. Qed.

Lemma show_padded_ne w n : show_padded w n ≠ [].
Proof. unfold show_padded. intros [_ ?%show_u64_ne]%app_eq_nil. done. Qed.

(** A string of digits has no sign. *)
Lemma parse_u64_digits s n : s ≠ [] → parse_digits 0 s = Some n → parse_u64 s = Some n.
Proof. unfold parse_u64. intros Hs Hp. destruct s as [|b s]; [done|]. by destruct b. Qed.

(** ** Prefixes and suffixes *)

Lemma strip_suffix_app p x q :
  length p ≤ length q → strip_suffix p (x ++ q) = (λ r, x ++ r) <$> strip_suffix p q.
Proof.
  intros Hl. unfold strip_suffix. rewrite length_app.
  replace (length x + length q - length p) with (length x + (length q - length p)) by lia.
  rewrite drop_app_add, take_app_add.
  destruct (decide (drop (length q - length p) q = p)) as [He|He].
  - rewrite decide_True by (split; [lia|done]). by rewrite decide_True.
  - rewrite decide_False by naive_solver. rewrite decide_False by naive_solver. done.
Qed.

Lemma strip_suffix_self p s : strip_suffix p (s ++ p) = Some s.
Proof.
  rewrite strip_suffix_app by done. unfold strip_suffix. rewrite Nat.sub_diag. simpl.
  rewrite decide_True by done. simpl. by rewrite app_nil_r.
Qed.

Lemma numbered_name p s mid n :
  mid ≠ [] → parse_digits 0 mid = Some n → numbered p s (p ++ mid ++ s) = Some n.
Proof.
  intros Hm Hn. unfold numbered. rewrite strip_prefix_app. simpl. rewrite strip_suffix_self. simpl.
  by apply parse_u64_digits.
Qed.

(** A name with a longer suffix has no number. *)
Lemma numbered_other p s mid q :
  length s ≤ length q → strip_suffix s q = None → numbered p s (p ++ mid ++ q) = None.
Proof.
  intros Hl Hs. unfold numbered. rewrite strip_prefix_app. simpl. rewrite strip_suffix_app by done. by rewrite Hs.
Qed.

Lemma numbered_event n : is_u64 n → numbered EVENT_FILE_PREFIX EVENT_FILE_SUFFIX (event_file_name n) = Some n.
Proof. intros Hn. apply numbered_name; [apply show_padded_ne|by apply parse_show_padded]. Qed.

Lemma numbered_record n : is_u64 n → numbered RECORD_FILE_PREFIX RECORD_FILE_SUFFIX (record_file_name n) = Some n.
Proof. intros Hn. apply numbered_name; [apply show_u64_ne|by apply parse_show_u64]. Qed.

Lemma numbered_proof n : numbered RECORD_FILE_PREFIX RECORD_FILE_SUFFIX (record_proof_file_name n) = None.
Proof. apply numbered_other; [simpl; lia|done]. Qed.

Lemma event_signature_name n :
  signature_file_name (event_file_name n) =
  EVENT_FILE_PREFIX ++ show_padded EVENT_FILE_INDEX_WIDTH n ++ EVENT_SIG_SUFFIX.
Proof.
  unfold signature_file_name, event_file_name. rewrite (assoc_L (++)), strip_suffix_self.
  by rewrite <- (assoc_L (++)).
Qed.

Lemma numbered_signature n :
  numbered EVENT_FILE_PREFIX EVENT_FILE_SUFFIX (signature_file_name (event_file_name n)) = None.
Proof. rewrite event_signature_name. apply numbered_other; [simpl; lia|done]. Qed.

Lemma event_name_inj n m : is_u64 n → is_u64 m → event_file_name n = event_file_name m → n = m.
Proof. intros Hn%numbered_event Hm%numbered_event Heq. rewrite Heq, Hm in Hn. by injection Hn. Qed.

Lemma record_name_inj n m : is_u64 n → is_u64 m → record_file_name n = record_file_name m → n = m.
Proof. intros Hn%numbered_record Hm%numbered_record Heq. rewrite Heq, Hm in Hn. by injection Hn. Qed.

Lemma signature_name_inj n m :
  is_u64 n → is_u64 m → signature_file_name (event_file_name n) = signature_file_name (event_file_name m) → n = m.
Proof.
  assert (∀ k, is_u64 k → numbered EVENT_FILE_PREFIX EVENT_SIG_SUFFIX
    (signature_file_name (event_file_name k)) = Some k) as Hnum.
  { intros k Hk. rewrite event_signature_name.
    apply numbered_name; [apply show_padded_ne|by apply parse_show_padded]. }
  intros Hn%Hnum Hm%Hnum Heq. rewrite Heq, Hm in Hn. by injection Hn.
Qed.

Lemma signature_name_ne n m : is_u64 n → event_file_name n ≠ signature_file_name (event_file_name m).
Proof. intros Hn%numbered_event Heq. by rewrite Heq, numbered_signature in Hn. Qed.

(** ** Listing a directory *)

#[export] Instance by_number_total : Total by_number.
Proof. intros a b. unfold by_number. lia. Qed.

#[export] Instance by_number_trans : Transitive by_number.
Proof. intros a b c. unfold by_number. lia. Qed.

Section listing.
Context `{HashOrder} (num : bytes → option N) (name : N → bytes).

(** The files of a directory that have a number are those of [ns]. *)
Record numbers (m : gmap bytes bytes) (ns : list N) : Prop := {
  num_sorted : StronglySorted N.lt ns;
  num_name : ∀ n, n ∈ ns → num (name n) = Some n ∧ is_Some (m !! name n);
  num_only : ∀ f n, is_Some (m !! f) → num f = Some n → n ∈ ns ∧ f = name n;
}.

Lemma NoDup_omap_inj {A B} (f : A → option B) (l : list A) :
  NoDup l → (∀ x y b, x ∈ l → y ∈ l → f x = Some b → f y = Some b → x = y) → NoDup (omap f l).
Proof.
  induction 1 as [|x l Hx Hl IH]; intros Hinj; [constructor|]. simpl.
  assert (NoDup (omap f l)) by (apply IH; set_solver). destruct (f x) as [b|] eqn:Hb; [|done].
  constructor; [|done]. intros (y & Hy & Hyb)%list_elem_of_omap.
  by rewrite (Hinj x y b) in Hx by (done || by constructor).
Qed.

Lemma sorted_lt_NoDup ns : StronglySorted N.lt ns → NoDup ns.
Proof.
  induction 1 as [|n ns Hs IH Hn]; constructor; [|done]. intros Hin. rewrite Forall_forall in Hn.
  specialize (Hn _ Hin). lia.
Qed.

Lemma numbers_perm m ns : numbers m ns → omap num (hm_iter m).*1 ≡ₚ ns.
Proof.
  intros [Hs Hn Ho]. assert (∀ f, f ∈ (hm_iter m).*1 ↔ is_Some (m !! f)) as Hk.
  { intros f. rewrite list_elem_of_fmap. split.
    - intros ([? v] & -> & ?%elem_of_hm_iter). by eexists.
    - intros [v ?]. exists (f, v). by rewrite elem_of_hm_iter. }
  apply NoDup_Permutation.
  - apply NoDup_omap_inj; [unfold hm_iter; rewrite hash_order_perm; apply NoDup_fst_map_to_list|].
    intros f g n Hf%Hk Hg%Hk Hfn Hgn. destruct (Ho _ _ Hf Hfn) as [_ ->]. by destruct (Ho _ _ Hg Hgn) as [_ ->].
  - by apply sorted_lt_NoDup.
  - intros n. rewrite list_elem_of_omap. split.
    + intros (f & Hf%Hk & Hfn). by destruct (Ho _ _ Hf Hfn).
    + intros Hin. destruct (Hn _ Hin). exists (name n). by rewrite Hk.
Qed.

Lemma sorted_lt_le ns : StronglySorted N.lt ns → StronglySorted N.le ns.
Proof. induction 1 as [|n ns Hs IH Hn]; constructor; [done|]. eapply Forall_impl; [exact Hn|]. lia. Qed.

Lemma sorted_numbers m ns : numbers m ns → merge_sort N.le (omap (λ e, num e.1) (hm_iter m)) = ns.
Proof.
  intros Hm. pose proof (numbers_perm _ _ Hm) as Hp. destruct Hm as [Hs _ _].
  apply (StronglySorted_unique N.le); [apply (StronglySorted_merge_sort N.le)|by apply sorted_lt_le|].
  rewrite merge_sort_Permutation, <- Hp. clear. by induction (hm_iter m) as [|e l IH]; simpl; [|destruct (num e.1); rewrite IH].
Qed.

Lemma listed_numbers m ns :
  numbers m ns →
  merge_sort by_number (omap (λ e, (λ n, (n, e.1)) <$> num e.1) (hm_iter m)) = (λ n, (n, name n)) <$> ns.
Proof.
  intros Hm. set (l := omap _ _). assert (l.*1 ≡ₚ ns) as Hl.
  { rewrite <- (numbers_perm _ _ Hm). subst l. clear. induction (hm_iter m) as [|[f v] k IH]; [done|].
    simpl. destruct (num f); simpl; [by f_equiv|done]. }
  assert (Forall (λ e, e = (e.1, name e.1)) (merge_sort by_number l)) as Hf.
  { rewrite merge_sort_Permutation. apply Forall_forall. intros e He. subst l.
    apply list_elem_of_omap in He as ([f v] & Hin & Hn). apply fmap_Some in Hn as (n & Hn & ->). simpl in *.
    apply elem_of_hm_iter in Hin. destruct (num_only _ _ Hm f n) as [_ ->]; [by eexists|done|done]. }
  assert ((merge_sort by_number l).*1 = ns) as <-.
  { apply (StronglySorted_unique N.le); [| |by rewrite merge_sort_Permutation].
    - assert (StronglySorted by_number (merge_sort by_number l)) as Hs.
      { apply (StronglySorted_merge_sort by_number). }
      clear - Hs. induction Hs as [|e k Hs IH He]; simpl; constructor; [done|]. by apply Forall_fmap.
    - apply sorted_lt_le, Hm. }
  rewrite <- list_fmap_compose. symmetry. rewrite <- (list_fmap_id (merge_sort by_number l)) at 2.
  apply list_fmap_ext. intros i e He. simpl. by destruct (Forall_lookup_1 _ _ _ _ Hf He).
Qed.
End listing.

(** ** Runs and writes *)

Lemma st_bind_step {S E A B} (m : stM S E A) (f : A → stM S E B) s a s' :
  m s = (Ok a, s') → (m ≫= f) s = f a s'.
Proof. intros Hm. unfold mbind, stM_bind. by rewrite Hm. Qed.

Lemma st_lift_step {S E A B} (m : S → res E A) (f : A → stM S E B) s a :
  m s = Ok a → (st_lift m ≫= f) s = f a s.
Proof. intros Hm. by apply st_bind_step; unfold st_lift; rewrite Hm. Qed.

Lemma st_bind_fail {S E A B} (m : stM S E A) (f : A → stM S E B) s e s' :
  m s = (Err e, s') → (m ≫= f) s = (Err e, s').
Proof. intros Hm. unfold mbind, stM_bind. by rewrite Hm. Qed.

Lemma st_for_app {S E A} (xs ys : list A) (body : A → stM S E unit) s :
  st_for (xs ++ ys) body s = (st_for xs body ;; st_for ys body) s.
Proof.
  revert s. induction xs as [|x xs IH]; intros s; [done|]. simpl. unfold mbind, stM_bind in *.
  destruct (body x s) as [[[]| |] s']; [apply IH|done..].
Qed.

(** Every failing write leaves the old file. *)
Definition synced `{Disk} : Prop := ∀ n name bs, disk_outcome n name bs ≠ Unsynced.

Lemma write_atomic_cases `{Disk} name bs d :
  synced →
  write_atomic name bs d = (Ok tt, put_file name bs d) ∨
  ∃ d', write_atomic name bs d = (Err StreamIo, d') ∧ files d' = files d ∧ ∃ n, disk_outcome n name bs ≠ Written.
Proof.
  intros Hs. unfold write_atomic. destruct (disk_outcome _ _ _) eqn:Ho; [by left| |by apply Hs in Ho].
  right. eexists. split; [done|]. split; [done|]. eexists. by rewrite Ho.
Qed.

(** ** Chains, hash objects and files that are read back *)

Section reading.
Context `{Sha256, Ed25519, Bls, BlsKeygen} `{P : Protobuf}.

Lemma length_chain_items {A} (serialize : A → bytes) start items :
  length start = 32 → length (chain_items serialize start items) = 32.
Proof.
  intros Hs. revert start Hs. induction items as [|item items IH]; intros start Hs; [done|].
  simpl. apply IH, sha256_length.
Qed.

Lemma chain_items_app {A} (serialize : A → bytes) start l1 l2 :
  chain_items serialize start (l1 ++ l2) = chain_items serialize (chain_items serialize start l1) l2.
Proof. apply foldl_app. Qed.

Lemma commitment_digest h : length h = 32 → commitment (Some (digest_hash_object h)) = Some h.
Proof.
  intros Hh. unfold commitment, hash_object_digest, to_array. simpl.
  by rewrite decide_True.
Qed.

Lemma digest_object_fits h : Pb.hash_object_fits (Some (digest_hash_object h)).
Proof. by intros ? [= <-]. Qed.

Lemma decode_exact_encode k m : Pb.fits k m → decode_exact k (pb_encode k m) = Ok m.
Proof. intros Hm. unfold decode_exact. rewrite pb_decode_encode by done. simpl. by rewrite decide_False by auto. Qed.

Lemma decode_exact_Ok k bs m : decode_exact k bs = Ok m → pb_decode k bs = Some m.
Proof.
  unfold decode_exact. intros (m' & Hm%ok_or_Ok & Hc)%res_bind_Ok. case_decide; [done|].
  by apply res_ret_Ok in Hc as ->.
Qed.

Lemma read_event_stream_file_encode f start end_ :
  Pb.ef_version f = STREAM_VERSION → Forall Pb.event_fits (Pb.ef_events f) →
  Pb.ef_start_running_hash f = Some (digest_hash_object start) → length start = 32 →
  Pb.ef_end_running_hash f = Some (digest_hash_object end_) → length end_ = 32 →
  read_event_stream_file (pb_encode Pb.KEventFile f) = Ok f.
Proof.
  intros Hv He Hs Hsl Hd Hdl. unfold read_event_stream_file. rewrite decode_exact_encode.
  - simpl. rewrite Hv, Hs, Hd, !commitment_digest by done. rewrite decide_False by auto.
    by rewrite decide_False by (intros [?|?]; done).
  - simpl. rewrite Hv, Hs, Hd. split; [done|]. split; [apply digest_object_fits|]. split; [done|].
    apply digest_object_fits.
Qed.

Lemma read_record_stream_file_encode f c start end_ :
  Pb.rf_version f = STREAM_VERSION → is_u64 (Pb.rf_round f) → Forall Pb.item_fits (Pb.rf_items f) →
  Pb.rf_start_running_hash f = Some (digest_hash_object start) → length start = 32 →
  Pb.rf_end_running_hash f = Some (digest_hash_object end_) → length end_ = 32 →
  Pb.rf_checkpoint f = Some c → Pb.pc_round c = Pb.rf_round f → Pb.checkpoint_fits c →
  Pb.fits Pb.KRecordFile f ∧ read_record_stream_file (pb_encode Pb.KRecordFile f) = Ok f.
Proof.
  intros Hv Hr Hi Hs Hsl Hd Hdl Hc Hcr Hcf. assert (Pb.fits Pb.KRecordFile f) as Hf.
  { simpl. rewrite Hv, Hs, Hd, Hc. split; [done|]. split; [done|]. split; [apply digest_object_fits|].
    split; [done|]. split; [apply digest_object_fits|]. by intros ? [= <-]. }
  split; [done|]. unfold read_record_stream_file. rewrite decode_exact_encode by done. simpl.
  rewrite Hv, Hs, Hd, !commitment_digest by done. rewrite decide_False by auto.
  unfold check_round_consistency. rewrite Hc, Hcr. rewrite (decide_False (P := _ ≠ _)) by auto. simpl.
  done.
Qed.

Lemma signature_file_read file metadata key :
  read_signature_file (SIG_FILE_VERSION :: pb_encode Pb.KSignatureFile (build_signature_file file metadata key)) =
  Ok (build_signature_file file metadata key).
Proof.
  simpl. rewrite decode_exact_encode; [done|].
  split; intros ? [= <-]; (split; [done|]); (split; [done|]); apply digest_object_fits.
Qed.

Lemma signature_object_verifies digest key :
  verify_signature_object (signature_object digest key) digest (ed_public key) = true.
Proof.
  unfold verify_signature_object. simpl. rewrite !bool_decide_true by (done || apply ed_sign_length).
  apply ed_sign_verify.
Qed.
End reading.

#[local] Arguments commitment : simpl never.

(** ** Event files *)

Module EventDir.
Section event_dir.
Context `{Sha256, Ed25519, Bls, BlsKeygen} `{P : Protobuf} `{Disk} (key : bytes).

(** The running hash after the events of the files. *)
Definition end_of (chunks : list (list Pb.Event)) : bytes :=
  chain_items (pb_encode Pb.KEvent) CHAIN_SEED (concat chunks).

Definition file (start : bytes) (chunk : list Pb.Event) : Pb.EventStreamFile :=
  {| Pb.ef_version := STREAM_VERSION; Pb.ef_start_running_hash := Some (digest_hash_object start);
     Pb.ef_events := chunk;
     Pb.ef_end_running_hash := Some (digest_hash_object (chain_items (pb_encode Pb.KEvent) start chunk)) |}.

Definition file_bytes (start : bytes) (chunk : list Pb.Event) : bytes := pb_encode Pb.KEventFile (file start chunk).

Definition signature_bytes (start : bytes) (chunk : list Pb.Event) : bytes :=
  SIG_FILE_VERSION :: pb_encode Pb.KSignatureFile (build_signature_file (file_bytes start chunk)
    (metadata_bytes STREAM_VERSION start (chain_items (pb_encode Pb.KEvent) start chunk) None) key).

(** The event files of a directory, numbered from zero, are [chunks]. *)
Record holds (d : Dir) (chunks : list (list Pb.Event)) : Prop := {
  holds_file : ∀ i chunk, chunks !! i = Some chunk →
    files d !! event_file_name (N.of_nat i) = Some (file_bytes (end_of (take i chunks)) chunk) ∧
    files d !! signature_file_name (event_file_name (N.of_nat i)) =
      Some (signature_bytes (end_of (take i chunks)) chunk);
  holds_only : ∀ name n, is_Some (files d !! name) →
    numbered EVENT_FILE_PREFIX EVENT_FILE_SUFFIX name = Some n →
    (n < N.of_nat (length chunks))%N ∧ name = event_file_name n;
  holds_fits : Forall (Forall Pb.event_fits) chunks;
  holds_ne : Forall (λ chunk, chunk ≠ []) chunks;
  holds_width : is_u64 (N.of_nat (length chunks));
}.

Definition indices (n : nat) : list N := N.of_nat <$> seq 0 n.

Lemma indices_sorted i n : StronglySorted N.lt (N.of_nat <$> seq i n).
Proof.
  revert i. induction n as [|n IH]; intros i; simpl; constructor; [apply IH|].
  apply Forall_fmap, Forall_seq. intros j Hj. simpl. lia.
Qed.

Lemma elem_of_indices n i : i ∈ indices n ↔ (i < N.of_nat n)%N.
Proof.
  unfold indices. rewrite list_elem_of_fmap. split.
  - intros (j & -> & Hj%elem_of_seq). lia.
  - intros Hi. exists (N.to_nat i). rewrite elem_of_seq. lia.
Qed.

Lemma event_holds_numbers d chunks :
  holds d chunks →
  numbers (numbered EVENT_FILE_PREFIX EVENT_FILE_SUFFIX) event_file_name (files d) (indices (length chunks)).
Proof.
  intros Hd. split; [apply indices_sorted| |].
  - intros n Hn%elem_of_indices. pose proof (holds_width _ _ Hd) as Hw.
    destruct (lookup_lt_is_Some_2 chunks (N.to_nat n)) as [chunk Hc]; [lia|].
    destruct (holds_file _ _ Hd _ _ Hc) as [Hf _]. rewrite N2Nat.id in Hf. split; [|by eexists].
    apply numbered_event. unfold is_u64 in *. lia.
  - intros f n Hf Hn. rewrite elem_of_indices. by eapply holds_only.
Qed.

Lemma event_length_end_of chunks : length (end_of chunks) = 32.
Proof. apply length_chain_items. done. Qed.

Lemma event_end_of_snoc chunks chunk :
  end_of (chunks ++ [chunk]) = chain_items (pb_encode Pb.KEvent) (end_of chunks) chunk.
Proof. unfold end_of. rewrite concat_app. simpl. by rewrite app_nil_r, chain_items_app. Qed.

Lemma event_read_file_bytes start chunk :
  length start = 32 → Forall Pb.event_fits chunk →
  read_event_stream_file (file_bytes start chunk) = Ok (file start chunk).
Proof.
  intros Hs Hf. eapply read_event_stream_file_encode; [done|done|done|done|done|]. by apply length_chain_items.
Qed.

Lemma holds_last d chunks chunk :
  holds d (chunks ++ [chunk]) → event_end d (N.of_nat (length chunks)) = Some (end_of (chunks ++ [chunk])).
Proof.
  intros Hd. destruct (holds_file _ _ Hd (length chunks) chunk) as [Hf _].
  { by rewrite lookup_app_r, Nat.sub_diag by done. }
  rewrite take_app_length in Hf. unfold event_end. rewrite Hf. simpl.
  pose proof (holds_fits _ _ Hd) as [_ [Hfit _]%Forall_cons]%Forall_app.
  rewrite event_read_file_bytes by (done || apply event_length_end_of). simpl.
  rewrite commitment_digest by apply length_chain_items, event_length_end_of. by rewrite event_end_of_snoc.
Qed.

(** A writer opened on the directory resumes after its last file. *)
Lemma event_resume_holds `{HashOrder} d chunks :
  holds d chunks → resume_events d = (N.of_nat (length chunks), end_of chunks).
Proof.
  intros Hd. unfold resume_events, resume_from. rewrite (sorted_numbers _ _ _ _ (event_holds_numbers _ _ Hd)).
  destruct chunks as [|chunk chunks] using rev_ind; [done|]. unfold indices.
  rewrite length_app, Nat.add_comm. simpl length. rewrite Nat.add_1_l, seq_S, fmap_app, reverse_app. simpl.
  rewrite (holds_last _ _ _ Hd). simpl. f_equal. pose proof (holds_width _ _ Hd) as Hw.
  rewrite length_app in Hw. simpl in Hw. rewrite u64_wrapping_add_small; unfold is_u64 in *; lia.
Qed.

Lemma signature_verifies d start chunk name :
  files d !! signature_file_name name = Some (signature_bytes start chunk) →
  verify_signature_file_for d name (file_bytes start chunk) start
    (chain_items (pb_encode Pb.KEvent) start chunk) None (ed_public key) = Ok tt.
Proof.
  intros Hs. unfold verify_signature_file_for. rewrite Hs. cbn [ok_or mbind res_bind].
  unfold signature_bytes. rewrite signature_file_read. simpl. by rewrite !signature_object_verifies.
Qed.

Lemma event_verify_holds_from d pre suf :
  holds d (pre ++ suf) →
  verify_event_files d (ed_public key) (match pre with [] => None | _ => Some (end_of pre) end)
    ((λ n, (n, event_file_name n)) <$> (N.of_nat <$> seq (length pre) (length suf))) = Ok tt.
Proof.
  revert pre. induction suf as [|chunk suf IH]; intros pre Hd; [done|].
  destruct (holds_file _ _ Hd (length pre) chunk) as [Hf Hs].
  { by rewrite lookup_app_r, Nat.sub_diag by done. }
  rewrite take_app_length in Hf, Hs.
  pose proof (holds_fits _ _ Hd) as [_ [Hfit _]%Forall_cons]%Forall_app.
  cbn [length seq fmap list_fmap verify_event_files]. unfold read_file. rewrite Hf. cbn [ok_or mbind res_bind].
  rewrite event_read_file_bytes by (done || apply event_length_end_of). cbn [mbind res_bind]. unfold digest_or_err.
  cbn [Pb.ef_start_running_hash Pb.ef_end_running_hash Pb.ef_events file].
  rewrite !commitment_digest by (repeat apply length_chain_items; done). cbn [ok_or mbind res_bind].
  replace (check_chain_link _ _) with (Ok tt : res StreamError unit); cycle 1.
  { destruct pre; [done|]. simpl. by rewrite decide_False by auto. }
  cbn [mbind res_bind]. unfold verify_item_chain. rewrite decide_False by auto. cbn [mbind res_bind mret res_ret].
  rewrite (signature_verifies _ _ _ _ Hs). cbn [mbind res_bind].
  rewrite <- event_end_of_snoc. specialize (IH (pre ++ [chunk])). rewrite <- (assoc_L (++)), length_app in IH.
  simpl in IH. rewrite Nat.add_1_r in IH. specialize (IH Hd). by destruct pre.
Qed.

Lemma event_verify_holds `{HashOrder} d chunks :
  holds d chunks → chunks ≠ [] → verify_event_stream_dir d (ed_public key) = Ok tt.
Proof.
  intros Hd Hne. unfold verify_event_stream_dir, files_in.
  rewrite (listed_numbers _ _ _ _ (event_holds_numbers _ _ Hd)). pose proof (event_verify_holds_from d [] chunks Hd) as Hv.
  simpl in Hv. by destruct chunks.
Qed.

(** *** Writing *)

Lemma holds_signature d d' chunks bs :
  holds d chunks →
  files d' = <[signature_file_name (event_file_name (N.of_nat (length chunks))) := bs]> (files d) →
  holds d' chunks.
Proof.
  intros [Hf Ho Hfit Hne Hw] Hd. split; [| |done..].
  - intros i chunk Hi. destruct (Hf _ _ Hi) as [Hs Hsig]. apply lookup_lt_Some in Hi.
    assert (is_u64 (N.of_nat i)) by (unfold is_u64 in *; lia). rewrite Hd. split.
    + rewrite lookup_insert_ne; [done|]. intros Heq. by apply (signature_name_ne (N.of_nat i) (N.of_nat (length chunks))).
    + rewrite lookup_insert_ne; [done|]. intros ?%signature_name_inj; [lia|done..].
  - intros name n Hname Hn. rewrite Hd in Hname.
    destruct (decide (name = signature_file_name (event_file_name (N.of_nat (length chunks))))) as [->|Hneq].
    + by rewrite numbered_signature in Hn.
    + rewrite lookup_insert_ne in Hname by done. by eapply Ho.
Qed.

Lemma event_holds_snoc d d' chunks chunk :
  holds d chunks → chunk ≠ [] → Forall Pb.event_fits chunk → is_u64 (N.of_nat (S (length chunks))) →
  files d !! signature_file_name (event_file_name (N.of_nat (length chunks))) =
    Some (signature_bytes (end_of chunks) chunk) →
  files d' = <[event_file_name (N.of_nat (length chunks)) := file_bytes (end_of chunks) chunk]> (files d) →
  holds d' (chunks ++ [chunk]).
Proof.
  intros [Hf Ho Hfit Hne Hw] Hc Hcf Hlen Hsig Hd.
  split; [| |by apply Forall_app_2, Forall_cons|by apply Forall_app_2, Forall_cons|by rewrite length_app, Nat.add_1_r].
  - intros i c Hi. rewrite Hd. apply lookup_snoc_Some in Hi as [[Hlt Hi]|[-> ->]].
    + destruct (Hf _ _ Hi) as [Hs Hsg]. rewrite take_app_le by lia.
      assert (is_u64 (N.of_nat i)) by (unfold is_u64 in *; lia). split.
      * rewrite lookup_insert_ne; [done|]. intros ?%event_name_inj; [lia|done..].
      * rewrite lookup_insert_ne; [done|]. by apply signature_name_ne.
    + rewrite take_app_length. split; [by rewrite lookup_insert_eq|].
      rewrite lookup_insert_ne; [done|]. by apply signature_name_ne.
  - intros name n Hname Hn. rewrite Hd in Hname. rewrite length_app. simpl.
    destruct (decide (name = event_file_name (N.of_nat (length chunks)))) as [->|Hneq].
    + rewrite numbered_event in Hn by done. injection Hn as <-. split; [lia|done].
    + rewrite lookup_insert_ne in Hname by done. destruct (Ho _ _ Hname Hn). split; [lia|done].
Qed.

(** The state of a writer whose files are [chunks]. *)
Record writing (s : EventState) (chunks : list (list Pb.Event)) : Prop := {
  writing_dir : holds (es_dir s) chunks;
  writing_index : es_next_index s = N.of_nat (length chunks);
  writing_start : es_file_start_hash s = end_of chunks;
  writing_hash : es_running_hash s = chain_items (pb_encode Pb.KEvent) (end_of chunks) (es_buffer s);
  writing_fits : Forall Pb.event_fits (es_buffer s);
}.

(** A write that fails leaves the stream files as they were. *)
Lemma write_event_file_holds s chunks :
  synced → writing s chunks → es_buffer s ≠ [] → is_u64 (N.of_nat (S (length chunks))) →
  (∃ d, write_event_file key s (es_dir s) = (Ok tt, d) ∧ holds d (chunks ++ [es_buffer s])) ∨
  (∃ e d, write_event_file key s (es_dir s) = (Err e, d) ∧ holds d chunks ∧
     ∃ n name bs, disk_outcome n name bs ≠ Written).
Proof.
  intros Hsync [Hd Hi Hs Hh Hfit] Hne Hlen. unfold write_event_file, event_stream_file. rewrite Hi, Hs, Hh.
  unfold write_signature_file. change (SIG_FILE_VERSION :: _) with (signature_bytes (end_of chunks) (es_buffer s)).
  change (pb_encode Pb.KEventFile _) with (file_bytes (end_of chunks) (es_buffer s)).
  destruct (write_atomic_cases (signature_file_name (event_file_name (N.of_nat (length chunks))))
    (signature_bytes (end_of chunks) (es_buffer s)) (es_dir s) Hsync) as [Hw|(d & Hw & Hdd & n & Hn)].
  - rewrite (st_bind_step _ _ _ _ _ Hw).
    destruct (write_atomic_cases (event_file_name (N.of_nat (length chunks)))
      (file_bytes (end_of chunks) (es_buffer s))
      (put_file (signature_file_name (event_file_name (N.of_nat (length chunks))))
        (signature_bytes (end_of chunks) (es_buffer s)) (es_dir s)) Hsync) as [->|(d & -> & Hdd & n & Hn)].
    + left. eexists. split; [done|]. eapply (event_holds_snoc (put_file _ _ (es_dir s))); [|done|done|done| |done].
      { by eapply holds_signature. }
      simpl. by rewrite lookup_insert_eq.
    + right. eexists _, _. split; [done|]. split; [|by eexists _, _, _]. eapply holds_signature; [exact Hd|]. by rewrite Hdd.
  - right. rewrite (st_bind_fail _ _ _ _ _ Hw). eexists _, _. split; [done|]. split; [|by eexists _, _, _].
    destruct Hd; split; [by rewrite Hdd..|done|done|done].
Qed.

(** Closing a file stores the buffer or leaves it for the next attempt. *)
Lemma close_file_writing s chunks :
  synced → writing s chunks → es_buffer s ≠ [] → is_u64 (N.of_nat (S (length chunks))) →
  ∃ s', close_file key s = (Ok tt, s') ∧
    (writing s' (chunks ++ [es_buffer s]) ∧ es_buffer s' = [] ∨ writing s' chunks ∧ es_buffer s' = es_buffer s).
Proof.
  intros Hsync Hw Hne Hlen. unfold close_file. rewrite (st_bind_step _ _ _ s s) by done. cbn beta.
  destruct (write_event_file_holds _ _ Hsync Hw Hne Hlen) as [(d & Hwr & Hd)|(e & d & Hwr & Hd & _)].
  - erewrite st_bind_step by (unfold st_zoom, logged; by rewrite Hwr). eexists. split; [done|]. left.
    split; [|done]. destruct Hw as [_ Hi Hs Hh Hfit]. split; simpl; [done| |by rewrite Hh, event_end_of_snoc..|constructor].
    rewrite Hi, length_app, u64_wrapping_add_small by (unfold is_u64 in *; lia). simpl. lia.
  - erewrite st_bind_step by (unfold st_zoom, logged; by rewrite Hwr). eexists. split; [done|]. right.
    split; [|done]. by destruct Hw as [_ Hi Hs Hh Hfit].
Qed.

Definition appended (m : EventStreamMsg) : list Pb.Event :=
  match m with AppendEvent record => [retained_event_to_proto record] | _ => [] end.

Lemma push_event_writing record s chunks :
  writing s chunks → Pb.event_fits (retained_event_to_proto record) →
  writing (push_event record s) chunks ∧ es_buffer (push_event record s) = es_buffer s ++ [retained_event_to_proto record].
Proof.
  intros [Hd Hi Hs Hh Hfit] Hr. split; [|done]. split; simpl; [done|done|done| |].
  - rewrite chain_items_app. by rewrite Hh.
  - by apply Forall_app_2, Forall_cons.
Qed.

(** A chunk has an event, so files do not outnumber events. *)
Lemma length_chunks (chunks : list (list Pb.Event)) :
  Forall (λ chunk, chunk ≠ []) chunks → length chunks ≤ length (concat chunks).
Proof.
  induction 1 as [|chunk chunks Hc Hcs IH]; [done|]. simpl. rewrite length_app.
  destruct chunk; [done|]. simpl. lia.
Qed.

Lemma event_step_writing events_per_file m s r s' chunks :
  synced → writing s chunks → Forall Pb.event_fits (appended m) →
  is_u64 (N.of_nat (length (concat chunks ++ es_buffer s ++ appended m))) →
  event_step key events_per_file m s = (r, s') →
  ∃ chunks', writing s' chunks' ∧ concat chunks' ++ es_buffer s' = concat chunks ++ es_buffer s ++ appended m.
Proof.
  intros Hsync Hw Hm Hlen Hstep.
  assert (∀ s1, writing s1 chunks → es_buffer s1 = es_buffer s ++ appended m → es_buffer s1 ≠ [] →
    close_file key s1 = (r, s') →
    ∃ chunks', writing s' chunks' ∧ concat chunks' ++ es_buffer s' = concat chunks ++ es_buffer s ++ appended m)
    as Hclose.
  { intros s1 Hw1 Hb Hne Hc. destruct (close_file_writing _ _ Hsync Hw1 Hne) as (s2 & Hs2 & Hcase).
    - pose proof (length_chunks _ (holds_ne _ _ (writing_dir _ _ Hw1))) as Hle. rewrite <- Hb, length_app in Hlen.
      assert (length (es_buffer s1) ≠ 0) by (by destruct (es_buffer s1)). unfold is_u64 in *. lia.
    - rewrite Hs2 in Hc. injection Hc as <- <-. destruct Hcase as [[Hw2 ->]|[Hw2 ->]].
      + exists (chunks ++ [es_buffer s1]). split; [done|]. rewrite concat_app, Hb. simpl. by rewrite !app_nil_r.
      + exists chunks. by rewrite Hb. }
  destruct m as [record| |]; simpl in Hstep, Hm.
  - destruct (push_event_writing record s chunks) as [Hw1 Hb]; [done|by apply Forall_cons in Hm as [? _]|].
    rewrite (st_bind_step _ _ _ tt (push_event record s)) in Hstep by done.
    rewrite (st_bind_step _ _ _ (push_event record s) (push_event record s)) in Hstep by done.
    cbn beta in Hstep. case_decide.
    + apply (Hclose (push_event record s)); [done|done| |done]. rewrite Hb. by intros [_ ?]%app_eq_nil.
    + injection Hstep as <- <-. exists chunks. by rewrite Hb.
  - rewrite (st_bind_step _ _ _ s s) in Hstep by done. cbn beta in Hstep. case_decide as Hb.
    + injection Hstep as <- <-. exists chunks. by rewrite app_nil_r.
    + by apply (Hclose s); [|rewrite app_nil_r| |].
  - injection Hstep as <- <-. exists chunks. by rewrite app_nil_r.
Qed.

(** *** Reading the stream back *)

(** The events of a directory's files in order, or [None] when one does not
    read. *)
Definition read_all `{HashOrder} (d : Dir) : option (list Pb.Event) :=
  concat (A := Pb.Event) <$> mapM (λ e, bs ← files d !! e.2; Pb.ef_events <$> res_ok (read_event_stream_file bs))
    (files_in EVENT_FILE_PREFIX EVENT_FILE_SUFFIX d).

Lemma event_read_all_holds `{HashOrder} d chunks : holds d chunks → read_all d = Some (concat chunks).
Proof.
  intros Hd. unfold read_all, files_in. rewrite (listed_numbers _ _ _ _ (event_holds_numbers _ _ Hd)).
  apply fmap_Some. exists chunks. split; [|done]. apply mapM_Some. unfold indices. rewrite !Forall2_fmap_l.
  apply Forall2_same_length_lookup. split; [by rewrite length_seq|]. intros i j chunk Hj Hc.
  apply lookup_seq in Hj as [-> _]. destruct (holds_file _ _ Hd _ _ Hc) as [Hf _]. simpl. rewrite Hf. simpl.
  pose proof (Forall_lookup_1 _ _ _ _ (holds_fits _ _ Hd) Hc) as Hfit.
  by rewrite event_read_file_bytes by (done || apply event_length_end_of).
Qed.

(** *** Runs: events appended, files closed, the node killed or shut down *)

(** The list is the stream: what is in the files and in the buffer. *)
Inductive event_run (events_per_file : nat) : list Pb.Event → EventState → Prop :=
| event_opened (o : HashOrder) d : files d = ∅ → event_run events_per_file [] (open_events d)
| event_stepped l s m r s' :
    event_run events_per_file l s → Forall Pb.event_fits (appended m) →
    is_u64 (N.of_nat (length (l ++ appended m))) →
    event_step key events_per_file m s = (r, s') → event_run events_per_file (l ++ appended m) s'
| event_killed (o : HashOrder) kept s :
    event_run events_per_file (kept ++ es_buffer s) s → event_run events_per_file kept (open_events (es_dir s))
| event_shut_down (o : HashOrder) l kept s r d :
    event_run events_per_file l s → shutdown_events key s = (r, d) → read_all d = Some kept →
    event_run events_per_file kept (open_events d).

Lemma event_open_writing `{HashOrder} d chunks : holds d chunks → writing (open_events d) chunks.
Proof. intros Hd. unfold open_events. rewrite (event_resume_holds _ _ Hd). by split. Qed.

Lemma event_holds_empty d : files d = ∅ → holds d [].
Proof.
  intros Hd. split; [done| |constructor|constructor|done]. intros name n. rewrite Hd, lookup_empty. by intros [? ?].
Qed.

(** Shutting down stores the buffer or loses it. *)
Lemma shutdown_holds s chunks r d :
  synced → writing s chunks → is_u64 (N.of_nat (length (concat chunks ++ es_buffer s))) →
  shutdown_events key s = (r, d) →
  ∃ chunks', holds d chunks' ∧
    (concat chunks' = concat chunks ++ es_buffer s ∨
     concat chunks' = concat chunks ∧ ∃ n name bs, disk_outcome n name bs ≠ Written).
Proof.
  intros Hsync Hw Hlen. unfold shutdown_events. case_decide as Hb.
  - intros [= _ <-]. exists chunks. split; [by apply Hw|]. left. by rewrite Hb, app_nil_r.
  - assert (is_u64 (N.of_nat (S (length chunks)))) as Hu.
    { pose proof (length_chunks _ (holds_ne _ _ (writing_dir _ _ Hw))) as Hle. rewrite length_app in Hlen.
      assert (length (es_buffer s) ≠ 0) by (by destruct (es_buffer s)). unfold is_u64 in *. lia. }
    unfold logged. destruct (write_event_file_holds s chunks Hsync Hw Hb Hu) as [(d' & Hwr & Hd)|(e & d' & Hwr & Hd & Ho)];
      rewrite Hwr; intros [= _ <-].
    + exists (chunks ++ [es_buffer s]). split; [done|]. left. rewrite concat_app. simpl. by rewrite app_nil_r.
    + exists chunks. split; [done|]. by right.
Qed.

Lemma event_run_writing events_per_file l s :
  synced → event_run events_per_file l s →
  is_u64 (N.of_nat (length l)) ∧ ∃ chunks, writing s chunks ∧ l = concat chunks ++ es_buffer s.
Proof.
  intros Hsync. induction 1 as [o d Hd|l s m r s' _ [Hu (chunks & Hw & ->)] Hm Hlen Hs
    |o kept s _ [Hu (chunks & Hw & Hl)]|o l kept s r d _ [Hu (chunks & Hw & ->)] Hs Hr].
  - split; [done|]. exists []. split; [by apply event_open_writing, event_holds_empty|]. unfold open_events.
    by rewrite (event_resume_holds _ _ (event_holds_empty _ Hd)).
  - split; [done|]. rewrite <- (assoc_L (++)) in Hlen |- *.
    destruct (event_step_writing _ _ _ _ _ _ Hsync Hw Hm Hlen Hs) as (chunks' & Hw' & Hc). by exists chunks'.
  - apply app_inv_tail in Hl as ->. split; [rewrite length_app in Hu; unfold is_u64 in *; lia|].
    exists chunks. pose proof (writing_dir _ _ Hw) as Hd. split; [by apply event_open_writing|].
    unfold open_events. rewrite (event_resume_holds _ _ Hd). simpl. by rewrite app_nil_r.
  - destruct (shutdown_holds _ _ _ _ Hsync Hw Hu Hs) as (chunks' & Hd & Hc).
    rewrite (event_read_all_holds _ _ Hd) in Hr. injection Hr as <-. split.
    + destruct Hc as [->|[-> _]]; [done|]. rewrite length_app in Hu. unfold is_u64 in *. lia.
    + exists chunks'. split; [by apply event_open_writing|]. unfold open_events. rewrite (event_resume_holds _ _ Hd).
      simpl. by rewrite app_nil_r.
Qed.
End event_dir.
End EventDir.
