(* ===== verification/StreamRecords.v ===== *)
(** * Facts about the record stream

    What the record writer leaves in a directory ([RecordDir.holds] relates it
    to the list of rounds written), that a writer opened on it resumes after
    the last round, and that the verifier accepts it when the rounds are
    consecutive and their checkpoints are signed by a quorum of a trusted
    roster.  The conversion of a signed checkpoint to its message and back is
    the identity. *)

From S2P Require Import Prelude Codec External Primitives Membership Graph Order Insert Retain Reconnect.
From S2P Require Import Checkpoint CheckpointFacts CheckpointQuorum MerkleLog SparseMerkle Did Op State Executor.
From S2P Require Import Stream StreamFacts.

#[local] Arguments commitment : simpl never.

(** ** Messages and their native forms *)

Section conversions.
Context `{Sha256, Ed25519, Bls, BlsKeygen} `{P : Protobuf}.

Lemma to_array_Some w bs : length bs = w → to_array w bs = Some bs.
Proof. intros Hl. unfold to_array. by rewrite decide_True. Qed.

Lemma to_array_inv w bs a : to_array w bs = Some a → a = bs ∧ length bs = w.
Proof. unfold to_array. case_decide; naive_solver. Qed.

(** The members of a checkpoint have decodable keys. *)
Definition keyed (reg : MembershipRegistry) : Prop := map_Forall (λ _ m, bls_pk_valid m.2 = true) reg.

Definition member_of (m : NodeId * (bytes * bytes)) : Pb.RosterMember :=
  {| Pb.rm_node_id := m.1; Pb.rm_key := m.2.1; Pb.rm_bls_key := m.2.2; Pb.rm_pop := [] |}.

Lemma roster_from_members_list acc (l : list (NodeId * (bytes * bytes))) :
  NoDup l.*1 → Forall (λ m, acc !! m.1 = None) l →
  Forall (λ m, wf_member m.1 m.2 ∧ bls_pk_valid m.2.2 = true) l →
  roster_from_members_loop acc (member_of <$> l) = Some (list_to_map l ∪ acc).
Proof.
  revert acc. induction l as [|[node [key bls]] l IH]; intros acc Hn Ha Hl; [simpl; by rewrite (left_id_L ∅ (∪))|].
  apply NoDup_cons in Hn as [Hnode Hn]. apply Forall_cons in Ha as [Hacc Ha].
  apply Forall_cons in Hl as [[(Hid & Hk & Hv & Hb) Hpk] Hl]. simpl in *.
  unfold Registry.contains. rewrite bool_decide_false by (rewrite Hacc; by intros [? ?]).
  rewrite to_array_Some by done. simpl. rewrite Hv. simpl. unfold member_bls_key. simpl.
  destruct bls as [|b bls]; [done|]. rewrite to_array_Some by done. cbn [mbind option_bind].
  rewrite Hpk. simpl. unfold Registry.register. rewrite IH; [|done| |done].
  - f_equal. rewrite <- insert_union_l. symmetry. rewrite insert_union_r; [done|].
    by apply not_elem_of_list_to_map.
  - rewrite Forall_forall in Ha |- *. intros m Hm. rewrite lookup_insert_ne; [by apply Ha|].
    intros ->. apply Hnode, list_elem_of_fmap. by exists m.
Qed.

Lemma roster_from_members_entries reg :
  wf_registry reg → keyed reg → roster_from_members (member_of <$> bt_entries N.le reg) = Some reg.
Proof.
  intros Hw Hk. unfold roster_from_members. rewrite roster_from_members_list.
  - rewrite (right_id_L ∅ (∪)). f_equal. symmetry. apply list_to_map_flip. symmetry. apply bt_entries_perm.
  - apply bt_entries_keys_NoDup.
  - apply Forall_true. intros. apply lookup_empty.
  - apply Forall_forall. intros [node m] Hm%elem_of_bt_entries. split; [by apply Hw|by apply (Hk node)].
Qed.

(** A signed checkpoint survives the stream. *)
Lemma proto_checkpoint_roundtrip sc :
  wf_signed sc → keyed (roster_snapshot (sc_payload sc)) →
  proto_to_signed_checkpoint (signed_checkpoint_to_proto sc) = Some sc.
Proof.
  intros ([Hr Hrr Hsh Hro Hpr Hwr Hhr Hreg] & Hs & Hl & Hv) Hk. unfold proto_to_signed_checkpoint. simpl.
  rewrite !to_array_Some by (done || rewrite Hro; apply sha256_length). cbn [mbind option_bind].
  rewrite Hv. simpl. rewrite roster_from_members_entries by done. simpl. rewrite decide_False by (rewrite Hro; auto).
  destruct sc as [[] ? ?]. done.
Qed.

Lemma signed_checkpoint_fits sc : wf_signed sc → Pb.checkpoint_fits (signed_checkpoint_to_proto sc).
Proof.
  intros ([Hr _ _ _ _ _ _ Hreg] & Hs & _). split; [done|]. split; [|done]. simpl. apply Forall_fmap, Forall_forall.
  intros [node m] Hm%elem_of_bt_entries. by destruct (Hreg _ _ Hm).
Qed.

Lemma item_roundtrip item : wf_item item → item_from_proto (item_to_proto item) = Some item.
Proof. intros [Hl _]. unfold item_from_proto. simpl. rewrite to_array_Some by done. by destruct item. Qed.

Lemma items_roundtrip items : Forall wf_item items → mapM item_from_proto (item_to_proto <$> items) = Some items.
Proof. intros Hi. apply mapM_fmap_Forall_Some. eapply Forall_impl; [exact Hi|]. apply item_roundtrip. Qed.

Lemma items_omap_roundtrip items : Forall wf_item items → omap item_from_proto (item_to_proto <$> items) = items.
Proof. induction 1 as [|item items Hi _ IH]; [done|]. simpl. rewrite item_roundtrip by done. f_equal. exact IH. Qed.

Lemma items_fit items : Forall wf_item items → Forall Pb.item_fits (item_to_proto <$> items).
Proof. intros Hi. apply Forall_fmap. eapply Forall_impl; [exact Hi|]. by intros item [_ ?]. Qed.
End conversions.

(** ** Record files *)

Module RecordDir.
(** What a round's message carries. *)
Record entry := { w_signed : SignedCheckpoint; w_items : list RecordsRootItem; w_diffs : list StateDiff }.

Definition round (w : entry) : N := cp_round (sc_payload (w_signed w)).
Definition items (w : entry) : list Pb.RecordItem := item_to_proto <$> w_items w.
Definition message (w : entry) : RecordStreamMsg := WriteRecord (w_signed w) (items w) (w_diffs w).

Section record_dir.
Context `{Sha256, Ed25519, Bls, BlsKeygen} `{P : Protobuf} `{Disk}.

Record wf_entry (w : entry) : Prop := {
  wfe_signed : wf_signed (w_signed w);
  wfe_items : Forall wf_item (w_items w);
  wfe_payloads : Forall (λ item, is_u32 (N.of_nat (length (item_tx_payload item)))) (w_items w);
  wfe_count : is_u32 (N.of_nat (length (w_items w)));
  wfe_round : (1 ≤ round w ∧ round w + 1 < u64_modulus)%N;
}.

Lemma wf_round w : wf_entry w → is_u64 (round w).
Proof. intros [_ _ _ _ ?]. unfold is_u64. lia. Qed.

Definition end_of (ws : list entry) : bytes :=
  chain_items (pb_encode Pb.KItem) CHAIN_SEED (concat (items <$> ws)).

Definition file (start : bytes) (w : entry) : Pb.RecordStreamFile :=
  record_stream_file (w_signed w) (items w) (w_diffs w) start.

Definition proof_file (w : entry) (proofs : list RecordsProof) : Pb.RecordsProofFile :=
  {| Pb.pf_version := STREAM_VERSION; Pb.pf_round := round w; Pb.pf_proofs := proof_to_proto <$> proofs |}.

(** The record files of a directory are those of [ws], in ascending order; a
    round may have its proofs. *)
Record holds (d : Dir) (ws : list entry) : Prop := {
  holds_file : ∀ i w, ws !! i = Some w →
    files d !! record_file_name (round w) = Some (pb_encode Pb.KRecordFile (file (end_of (take i ws)) w));
  holds_proofs : ∀ w bs, w ∈ ws → files d !! record_proof_file_name (round w) = Some bs →
    ∃ proofs, try_build_records_proofs (w_items w) = Ok proofs ∧ bs = pb_encode Pb.KProofFile (proof_file w proofs);
  holds_no_proofs : ∀ n, is_u64 n → n ∉ round <$> ws → files d !! record_proof_file_name n = None;
  holds_only : ∀ name n, is_Some (files d !! name) →
    numbered RECORD_FILE_PREFIX RECORD_FILE_SUFFIX name = Some n → n ∈ round <$> ws ∧ name = record_file_name n;
  holds_sorted : StronglySorted N.lt (round <$> ws);
  holds_wf : Forall wf_entry ws;
}.

Lemma holds_numbers d ws :
  holds d ws → numbers (numbered RECORD_FILE_PREFIX RECORD_FILE_SUFFIX) record_file_name (files d) (round <$> ws).
Proof.
  intros Hd. split; [by eapply holds_sorted| |by eapply holds_only].
  intros n (w & -> & [i Hi]%list_elem_of_lookup)%list_elem_of_fmap.
  pose proof (Forall_lookup_1 _ _ _ _ (holds_wf _ _ Hd) Hi) as Hw.
  split; [by apply numbered_record, wf_round|]. eexists. by eapply holds_file.
Qed.

Lemma length_end_of ws : length (end_of ws) = 32.
Proof. by apply length_chain_items. Qed.

Lemma end_of_snoc ws w : end_of (ws ++ [w]) = chain_items (pb_encode Pb.KItem) (end_of ws) (items w).
Proof. unfold end_of. rewrite fmap_app, concat_app. simpl. by rewrite app_nil_r, chain_items_app. Qed.

Lemma read_file_bytes start w :
  length start = 32 → wf_entry w →
  Pb.fits Pb.KRecordFile (file start w) ∧
  read_record_stream_file (pb_encode Pb.KRecordFile (file start w)) = Ok (file start w).
Proof.
  intros Hs Hw. eapply read_record_stream_file_encode; try done; simpl.
  - by apply wf_round.
  - apply items_fit, Hw.
  - by apply length_chain_items.
  - apply signed_checkpoint_fits, Hw.
Qed.

(** The files of the rounds, chained from [start]. *)
Fixpoint stream (start : bytes) (ws : list entry) : list Pb.RecordStreamFile :=
  match ws with
  | [] => []
  | w :: ws => file start w :: stream (chain_items (pb_encode Pb.KItem) start (items w)) ws
  end.

Lemma stream_snoc ws w : stream CHAIN_SEED (ws ++ [w]) = stream CHAIN_SEED ws ++ [file (end_of ws) w].
Proof.
  unfold end_of. generalize CHAIN_SEED as start. induction ws as [|w0 ws IH]; intros start; [done|].
  simpl. f_equal. rewrite IH. by rewrite chain_items_app.
Qed.

(** A writer opened on the directory resumes after its last round. *)
Definition next_round (ws : list entry) : N := default 1%N ((λ w, round w + 1)%N <$> last ws).

Lemma resume_holds `{HashOrder} d ws : holds d ws → resume_records d = (next_round ws, end_of ws).
Proof.
  intros Hd. unfold resume_records, resume_from. rewrite (sorted_numbers _ _ _ _ (holds_numbers _ _ Hd)).
  destruct ws as [|w ws] using rev_ind; [done|]. unfold next_round. rewrite last_snoc, fmap_app, reverse_app. simpl.
  pose proof (holds_wf _ _ Hd) as [_ [Hw _]%Forall_cons]%Forall_app.
  unfold record_end. rewrite (holds_file _ _ Hd (length ws) w) by (by rewrite lookup_app_r, Nat.sub_diag by done).
  rewrite take_app_length. simpl. destruct (read_file_bytes (end_of ws) w) as [_ ->]; [apply length_end_of|done|].
  simpl. rewrite commitment_digest by apply length_chain_items, length_end_of. simpl. rewrite end_of_snoc. f_equal.
  apply u64_wrapping_add_small, Hw.
Qed.

(** *** Verifying *)

Record honest (trusted : list bytes) (w : entry) : Prop := {
  honest_keyed : keyed (roster_snapshot (sc_payload (w_signed w)));
  honest_verify : verify (w_signed w) = true;
  honest_roster : roster_hash (sc_payload (w_signed w)) ∈ trusted;
  honest_root : try_compute_records_root (w_items w) = Ok (records_root (sc_payload (w_signed w)));
}.

Lemma binding_verifies {E} trusted w :
  wf_entry w → honest trusted w →
  verify_checkpoint_binding_set (E := E) (signed_checkpoint_to_proto (w_signed w)) trusted (items w) = Ok true.
Proof.
  intros [Hs Hi _ _ _] [Hk Hv Ht Hr]. unfold verify_checkpoint_binding_set.
  rewrite proto_checkpoint_roundtrip by done. rewrite bool_decide_true by done. rewrite Hv.
  cbn [negb]. unfold records_root_from_items, items. rewrite items_roundtrip by done.
  unfold compute_records_root. rewrite Hr. simpl. by rewrite bool_decide_true.
Qed.

(** Each round follows the one before. *)
Definition consecutive (ws : list entry) : Prop :=
  ∀ i w1 w2, ws !! i = Some w1 → ws !! S i = Some w2 → round w2 = (round w1 + 1)%N.

Lemma verify_holds_from d trusted pre suf :
  holds d (pre ++ suf) → Forall (honest trusted) suf → consecutive (pre ++ suf) →
  verify_record_files d trusted ((λ w, (round w, end_of pre)) <$> last pre)
    ((λ n, (n, record_file_name n)) <$> (round <$> suf)) = Ok tt.
Proof.
  revert pre. induction suf as [|w suf IH]; intros pre Hd Hh Hc; [done|].
  apply Forall_cons in Hh as [Hw Hh]. pose proof (holds_wf _ _ Hd) as [Hpre [Hwf _]%Forall_cons]%Forall_app.
  assert ((pre ++ w :: suf) !! length pre = Some w) as Hlk by (by rewrite lookup_app_r, Nat.sub_diag by done).
  pose proof (holds_file _ _ Hd _ _ Hlk) as Hf. rewrite take_app_length in Hf.
  destruct (read_file_bytes (end_of pre) w (length_end_of pre) Hwf) as [_ Hrd].
  cbn [fmap list_fmap verify_record_files].
  match goal with |- (?m ≫= _) = _ => assert (m = Ok tt) as -> end.
  { destruct pre as [|w0 pre _] using rev_ind; [done|]. rewrite last_snoc. simpl.
    assert (round w = round w0 + 1)%N as ->.
    { apply (Hc (length pre)); [|by rewrite length_app, Nat.add_1_r in Hlk].
      rewrite <- (assoc_L (++)). by rewrite lookup_app_r, Nat.sub_diag by done. }
    apply Forall_app in Hpre as [_ [Hw0 _]%Forall_cons]. unfold u64_checked_add.
    rewrite decide_True by apply Hw0. simpl. by rewrite decide_False by auto. }
  cbn [mbind res_bind]. unfold read_file. rewrite Hf. cbn [ok_or mbind res_bind]. rewrite Hrd.
  cbn [mbind res_bind]. unfold digest_or_err.
  cbn [Pb.rf_start_running_hash Pb.rf_end_running_hash Pb.rf_items Pb.rf_checkpoint file record_stream_file].
  rewrite !commitment_digest by (repeat apply length_chain_items; done). cbn [ok_or mbind res_bind].
  replace (check_chain_link _ _) with (Ok tt : res StreamError unit); cycle 1.
  { destruct pre as [|w0 pre _] using rev_ind; [done|]. rewrite last_snoc. simpl. by rewrite decide_False by auto. }
  cbn [mbind res_bind]. unfold verify_item_chain. rewrite decide_False by auto. cbn [mbind res_bind mret res_ret].
  rewrite binding_verifies by done. cbn [mbind res_bind negb].
  rewrite <- end_of_snoc. specialize (IH (pre ++ [w])). rewrite <- (assoc_L (++)), last_snoc in IH. by apply IH.
Qed.

Lemma verify_holds `{HashOrder} d trusted ws :
  holds d ws → ws ≠ [] → Forall (honest trusted) ws → consecutive ws →
  verify_record_stream_dir_rosters d trusted = Ok tt.
Proof.
  intros Hd Hne Hh Hc. unfold verify_record_stream_dir_rosters, files_in.
  rewrite (listed_numbers _ _ _ _ (holds_numbers _ _ Hd)). pose proof (verify_holds_from d trusted [] ws Hd Hh Hc) as Hv.
  simpl in Hv. destruct ws as [|w ws]; [done|]. apply Forall_cons in Hh as [[_ _ Ht _] _].
  destruct trusted; [by apply not_elem_of_nil in Ht|]. done.
Qed.

(** *** Writing *)

Lemma proofs_built {E} w :
  wf_entry w →
  ∃ proofs, try_build_records_proofs (w_items w) = Ok proofs ∧
    build_records_proofs_from_items (E := E) (items w) = Ok (proof_to_proto <$> proofs).
Proof.
  intros [_ Hi Hp Hc _]. destruct (records_total _ Hp Hc) as (root & proofs & Hrp & _).
  apply res_bind_Ok in Hrp as (root' & _ & Hrp). apply res_bind_Ok in Hrp as (proofs' & Hpr & _).
  exists proofs'. split; [done|]. unfold build_records_proofs_from_items, items.
  rewrite items_omap_roundtrip by done. rewrite decide_False by (rewrite length_fmap; auto).
  unfold build_records_proofs. by rewrite Hpr.
Qed.

Lemma record_proof_ne n m : is_u64 n → record_file_name n ≠ record_proof_file_name m.
Proof. intros Hn%numbered_record Heq. by rewrite Heq, numbered_proof in Hn. Qed.

Lemma proof_name_inj n m : is_u64 n → is_u64 m → record_proof_file_name n = record_proof_file_name m → n = m.
Proof.
  assert (∀ k, is_u64 k → numbered RECORD_FILE_PREFIX RECORD_PROOF_SUFFIX (record_proof_file_name k) = Some k) as Hnum.
  { intros k Hk. apply numbered_name; [apply show_u64_ne|by apply parse_show_u64]. }
  intros Hn%Hnum Hm%Hnum Heq. rewrite Heq, Hm in Hn. by injection Hn.
Qed.

Lemma sorted_snoc ws w :
  StronglySorted N.lt (round <$> ws) → Forall (λ w0, round w0 < round w)%N ws →
  StronglySorted N.lt (round <$> ws ++ [w]).
Proof.
  intros Hs Hw. rewrite fmap_app. apply StronglySorted_app_2; [|done|repeat constructor].
  intros n m (w0 & -> & Hin)%list_elem_of_fmap Hm. simpl in Hm. apply list_elem_of_singleton in Hm as ->.
  rewrite Forall_forall in Hw. by apply Hw.
Qed.

(** The record file of a later round. *)
Lemma holds_snoc d d' ws w :
  holds d ws → wf_entry w → Forall (λ w0, round w0 < round w)%N ws →
  files d' = <[record_file_name (round w) := pb_encode Pb.KRecordFile (file (end_of ws) w)]> (files d) →
  holds d' (ws ++ [w]).
Proof.
  intros [Hf Hp Hnp Ho Hs Hwf] Hw Hlt Hd. pose proof (wf_round _ Hw) as Hr.
  assert (round w ∉ round <$> ws) as Hnew.
  { intros (w0 & Heq & Hin)%list_elem_of_fmap. rewrite Forall_forall in Hlt. specialize (Hlt _ Hin). lia. }
  assert (∀ n, is_u64 n → files d' !! record_proof_file_name n = files d !! record_proof_file_name n) as Hsame.
  { intros n Hn. rewrite Hd, lookup_insert_ne; [done|]. by apply record_proof_ne. }
  split; [| | | |by apply sorted_snoc|by apply Forall_app_2, Forall_cons].
  - intros i w0 Hi. rewrite Hd. apply lookup_snoc_Some in Hi as [[Hi Hw0]|[-> ->]].
    + rewrite take_app_le by lia. rewrite lookup_insert_ne; [by apply Hf|]. intros Heq%record_name_inj; [|done|].
      * apply Hnew. rewrite Heq. apply list_elem_of_fmap_2. by eapply list_elem_of_lookup_2.
      * by eapply wf_round, (Forall_lookup_1 _ _ _ _ Hwf).
    + by rewrite take_app_length, lookup_insert_eq.
  - intros w0 bs [Hin|Hin]%elem_of_app Hb.
    + rewrite Hsame in Hb by (rewrite Forall_forall in Hwf; by apply wf_round, Hwf). by apply Hp.
    + apply list_elem_of_singleton in Hin as ->. by rewrite Hsame, Hnp in Hb.
  - intros n Hn Hni. rewrite Hsame by done. apply Hnp; [done|]. set_solver.
  - intros name n Hname Hn. rewrite Hd in Hname. rewrite fmap_app.
    destruct (decide (name = record_file_name (round w))) as [->|Hneq].
    + rewrite numbered_record in Hn by done. injection Hn as <-. split; [|done].
      apply elem_of_app. right. apply list_elem_of_singleton. done.
    + rewrite lookup_insert_ne in Hname by done. destruct (Ho _ _ Hname Hn). split; [|done].
      apply elem_of_app. by left.
Qed.

(** The proofs of a round that is there. *)
Lemma holds_add_proofs d d' ws w proofs :
  holds d ws → w ∈ ws → try_build_records_proofs (w_items w) = Ok proofs →
  files d' = <[record_proof_file_name (round w) := pb_encode Pb.KProofFile (proof_file w proofs)]> (files d) →
  holds d' ws.
Proof.
  intros [Hf Hp Hnp Ho Hs Hwf] Hin Hpr Hd. pose proof Hwf as Hall. rewrite Forall_forall in Hall.
  split; [| | | |done|done].
  - intros i w0 Hi. rewrite Hd, lookup_insert_ne; [by apply Hf|]. intros Heq. symmetry in Heq.
    revert Heq. apply record_proof_ne, wf_round, Hall. by eapply list_elem_of_lookup_2.
  - intros w0 bs Hin0 Hb. rewrite Hd in Hb. destruct (decide (round w0 = round w)) as [Heq|Hneq].
    + assert (w0 = w) as ->; [|rewrite lookup_insert_eq in Hb; injection Hb as <-; by exists proofs].
      apply sorted_lt_NoDup in Hs. apply list_elem_of_lookup in Hin as [i Hi], Hin0 as [j Hj].
      assert (i = j) as ->; [|by simplify_eq]. eapply NoDup_lookup; [exact Hs|..]; rewrite list_lookup_fmap.
      * by rewrite Hi.
      * rewrite Hj. simpl. by rewrite Heq.
    + rewrite lookup_insert_ne in Hb; [by apply Hp|]. intros ?%proof_name_inj; [done|by apply wf_round, Hall..].
  - intros n Hn Hni. rewrite Hd, lookup_insert_ne; [by apply Hnp|]. intros Heq%proof_name_inj; [|by apply wf_round, Hall|done].
    apply Hni. rewrite <- Heq. by apply list_elem_of_fmap_2.
  - intros name n Hname Hn. rewrite Hd in Hname.
    destruct (decide (name = record_proof_file_name (round w))) as [->|Hneq]; [by rewrite numbered_proof in Hn|].
    rewrite lookup_insert_ne in Hname by done. by apply Ho.
Qed.

Lemma holds_same d d' ws : files d' = files d → holds d ws → holds d' ws.
Proof. destruct d as [m n], d' as [m' n']. simpl. intros -> Hd. destruct Hd. by split. Qed.

Lemma write_record_file_holds d ws w :
  synced → holds d ws → wf_entry w → Forall (λ w0, round w0 < round w)%N ws →
  (∃ d', write_record_file (w_signed w) (items w) (w_diffs w) (end_of ws) d = (Ok (end_of (ws ++ [w])), d') ∧
     holds d' (ws ++ [w])) ∨
  (∃ e d', write_record_file (w_signed w) (items w) (w_diffs w) (end_of ws) d = (Err e, d') ∧ holds d' ws ∧
     ∃ n name bs, disk_outcome n name bs ≠ Written).
Proof.
  intros Hsync Hd Hw Hlt. unfold write_record_file.
  change (record_stream_file _ _ _ _) with (file (end_of ws) w). change (cp_round _) with (round w).
  unfold write_atomic at 1 2. destruct (disk_outcome _ _ _) eqn:Ho; [left|right|by apply Hsync in Ho].
  - pose proof (holds_snoc d (put_file (record_file_name (round w))
      (pb_encode Pb.KRecordFile (file (end_of ws) w)) d) ws w Hd Hw Hlt eq_refl) as Hh.
    destruct (proofs_built (E := StreamError) w Hw) as (proofs & Hpr & Hb).
    rewrite end_of_snoc. unfold logged, write_proof_sidecar.
    erewrite st_bind_step by (unfold st_lift; by rewrite Hb). unfold write_records_proof_file.
    destruct (write_atomic_cases (record_proof_file_name (round w))
      (pb_encode Pb.KProofFile (proof_file w proofs))
      (put_file (record_file_name (round w)) (pb_encode Pb.KRecordFile (file (end_of ws) w)) d) Hsync)
      as [Hwr|(d' & Hwr & Hdd & _)]; unfold proof_file in Hwr; rewrite Hwr; eexists; (split; [done|]).
    + eapply holds_add_proofs; [exact Hh| |exact Hpr|done]. apply elem_of_app. right. by apply list_elem_of_singleton.
    + by eapply holds_same.
  - eexists _, _. split; [done|]. split; [by apply (holds_same d)|]. eexists _, _, _. by rewrite Ho.
Qed.

(** The state of a writer whose files are [ws]. *)
Record writing (s : RecordState) (ws : list entry) : Prop := {
  writing_dir : holds (rs_dir s) ws;
  writing_hash : rs_running_hash s = end_of ws;
  writing_next : rs_next_round s = next_round ws;
}.

(** What becomes of the stream when a round is submitted. *)
Definition accept (ws : list entry) (w : entry) : list entry :=
  if decide (next_round ws ≤ round w)%N then ws ++ [w] else ws.

Lemma next_round_above ws w :
  StronglySorted N.lt (round <$> ws) → (next_round ws ≤ round w)%N → Forall (λ w0, round w0 < round w)%N ws.
Proof.
  destruct ws as [|w1 ws _] using rev_ind; [constructor|]. unfold next_round. rewrite last_snoc, fmap_app. simpl.
  intros Hs Hle. apply Forall_app_2; [|repeat constructor; lia]. apply Forall_forall. intros w0 Hin.
  enough (round w0 < round w1)%N by lia. eapply StronglySorted_app_1_elem_of; [exact Hs| |].
  - by apply list_elem_of_fmap_2.
  - by apply list_elem_of_singleton.
Qed.

Lemma record_step_writing s ws w :
  synced → writing s ws → wf_entry w →
  ∃ s', record_step (message w) s = (Ok tt, s') ∧
    (writing s' (accept ws w) ∨ writing s' ws ∧ ∃ n name bs, disk_outcome n name bs ≠ Written).
Proof.
  intros Hsync [Hd Hh Hn] Hw. unfold record_step, message. rewrite Hn, Hh. change (cp_round _) with (round w).
  unfold accept. case_decide as Hle; [|eexists; split; [done|by left]].
  destruct (write_record_file_holds (rs_dir s) ws w Hsync Hd Hw) as [(d & -> & Hd')|(e & d & -> & Hd' & Ho)].
  - by eapply next_round_above; [eapply holds_sorted|].
  - eexists. split; [done|]. left. split; [done|done|]. simpl. unfold next_round. rewrite last_snoc. simpl.
    apply u64_wrapping_add_small, Hw.
  - eexists. split; [done|]. right. by split.
Qed.

Lemma open_writing `{HashOrder} d ws : holds d ws → writing (open_records d) ws.
Proof. intros Hd. unfold open_records. rewrite (resume_holds _ _ Hd). by split. Qed.

Lemma holds_empty d : files d = ∅ → holds d [].
Proof.
  intros Hd. split; [done| | | |constructor|constructor].
  - intros w bs Hin. by apply not_elem_of_nil in Hin.
  - intros. by rewrite Hd, lookup_empty.
  - intros name n. rewrite Hd, lookup_empty. by intros [? ?].
Qed.

(** *** Reading the stream back *)

(** The record files of a directory in order, or [None] when one does not
    read. *)
Definition read_all `{HashOrder} (d : Dir) : option (list Pb.RecordStreamFile) :=
  mapM (λ e, bs ← files d !! e.2; res_ok (read_record_stream_file bs)) (files_in RECORD_FILE_PREFIX RECORD_FILE_SUFFIX d).

Lemma read_all_holds `{HashOrder} d ws : holds d ws → read_all d = Some (stream CHAIN_SEED ws).
Proof.
  intros Hd. unfold read_all, files_in. rewrite (listed_numbers _ _ _ _ (holds_numbers _ _ Hd)).
  apply mapM_Some. rewrite !Forall2_fmap_l.
  enough (∀ pre suf, holds d (pre ++ suf) →
    Forall2 (λ w f, (bs ← files d !! record_file_name (round w); res_ok (read_record_stream_file bs)) = Some f)
      suf (stream (end_of pre) suf)) as Hall by exact (Hall [] ws Hd).
  intros pre suf. revert pre. induction suf as [|w suf IH]; intros pre Hp; simpl; constructor.
  - rewrite (holds_file _ _ Hp (length pre) w) by (by rewrite lookup_app_r, Nat.sub_diag by done).
    rewrite take_app_length. simpl. pose proof (holds_wf _ _ Hp) as [_ [Hw _]%Forall_cons]%Forall_app.
    by destruct (read_file_bytes (end_of pre) w (length_end_of pre) Hw) as [_ ->].
  - rewrite <- end_of_snoc. apply IH. by rewrite <- (assoc_L (++)).
Qed.

(** *** Runs: rounds submitted, the node started again at any time *)

Inductive record_run : list entry → RecordState → Prop :=
| record_opened (o : HashOrder) d : files d = ∅ → record_run [] (open_records d)
| record_written l s w r s' :
    record_run l s → wf_entry w → record_step (message w) s = (r, s') → record_run (l ++ [w]) s'
| record_restarted (o : HashOrder) l s : record_run l s → record_run l (open_records (rs_dir s)).

Definition reliable : Prop := ∀ n name bs, disk_outcome n name bs = Written.

Lemma reliable_synced : reliable → synced.
Proof. intros Hr n name bs. by rewrite Hr. Qed.

Lemma step_writing s ws w r s' :
  reliable → writing s ws → wf_entry w → record_step (message w) s = (r, s') → writing s' (accept ws w).
Proof.
  intros Hr Hw Hwf Hs. destruct (record_step_writing s ws w (reliable_synced Hr) Hw Hwf) as (s1 & Hs1 & Hcase).
  rewrite Hs1 in Hs. injection Hs as _ <-. destruct Hcase as [?|(_ & n & name & bs & Hne)]; [done|].
  by rewrite Hr in Hne.
Qed.

Lemma run_writing l s : reliable → record_run l s → writing s (foldl accept [] l).
Proof.
  intros Hr. induction 1 as [o d Hd|l s w r s' _ IH Hw Hs|o l s _ IH].
  - by apply open_writing, holds_empty.
  - rewrite foldl_app. simpl. by eapply step_writing.
  - apply open_writing, IH.
Qed.

Lemma consecutive_prefix ws1 ws2 : consecutive (ws1 ++ ws2) → consecutive ws1.
Proof. intros Hc i w1 w2 H1' H2'. eapply Hc; by apply lookup_app_l_Some. Qed.

Lemma accept_next ws w : wf_entry w → consecutive (ws ++ [w]) → accept ws w = ws ++ [w].
Proof.
  intros Hw Hc. unfold accept. rewrite decide_True; [done|]. destruct ws as [|w0 ws _] using rev_ind; [apply Hw|].
  unfold next_round. rewrite last_snoc. simpl. rewrite (Hc (length ws) w0 w); [done|..].
  - rewrite <- (assoc_L (++)). by rewrite lookup_app_r, Nat.sub_diag by done.
  - rewrite lookup_app_r, length_app by (rewrite length_app; simpl; lia). simpl.
    by replace (S (length ws) - (length ws + 1)) with 0 by lia.
Qed.

(** Consecutive rounds are all written. *)
Lemma accept_consecutive l : Forall wf_entry l → consecutive l → foldl accept [] l = l.
Proof.
  induction l as [|w l IH] using rev_ind; intros Hw Hc; [done|]. apply Forall_app in Hw as [Hl [Hw _]%Forall_cons].
  rewrite foldl_app, IH by (done || by eapply consecutive_prefix). simpl. by apply accept_next.
Qed.
End record_dir.
End RecordDir.
