(* ===== verification/Mirror.v ===== *)
(** * The mirror node

    [mirror-node/internal]: the Go service that follows a node's stream files.
    [stream/hash.go], [names.go], [reader.go] and [verify.go] verify single
    files, [ingest/ingest.go] checks that they chain and stores them,
    [store/store.go] and [pgstore.go] are the stores.  The Go protobuf library
    is a second instance of the class [Protobuf]; what the Go bindings of blst
    and [crypto/ed25519] do is the class [GoCrypto].  An [error] is a string,
    shortened.  [RunOnce] is serialised by its mutex, so an ingest runs to its
    end before the next; logging and the remote source, which fetches the same
    files over HTTP, are left out. *)

From S2P Require Import Prelude Codec External Primitives Membership Graph Order Insert Retain Reconnect.
From S2P Require Import Checkpoint MerkleLog SparseMerkle Did Op State Executor Stream.

(** [Uncompress] returning a point, [KeyValidate], [SigValidate(false)],
    [FastAggregateVerify(false, ..)] and [ed25519.Verify]. *)
Class GoCrypto := {
  go_pk_uncompress : bytes → bool;
  go_pk_validate : bytes → bool;
  go_sig_uncompress : bytes → bool;
  go_sig_validate : bytes → bool;
  go_fast_aggregate_verify : bytes → bytes → bytes → list bytes → bool;
  go_ed_verify : bytes → bytes → bytes → bool;
}.

(** Both languages call the same C library; [sig_groupcheck] of the Rust
    binding is [SigValidate]; signatures follow RFC 8032 in both. *)
Class SameCrypto `{Ed25519, Bls, GoCrypto} : Prop := {
  same_pk : ∀ k, go_pk_uncompress k = bls_pk_valid k;
  same_sig : ∀ s, go_sig_uncompress s = bls_sig_valid s;
  same_aggregate : ∀ s msg dst pks,
    bls_fast_aggregate_verify s msg dst pks = go_sig_validate s && go_fast_aggregate_verify s msg dst pks;
  same_ed : ∀ sk m, go_ed_verify (ed_public sk) m (ed_sign sk m) = true;
}.

(** ** [names.go] *)

Definition Version : N := 4.

Definition RecordFileName (round : N) : bytes := lit "round-" ++ show_u64 round ++ lit ".rsf".
Definition RecordProofFileName (round : N) : bytes := lit "round-" ++ show_u64 round ++ lit ".rsf_proofs".

(** [strconv.ParseUint(s, 10, 64)]: no sign. *)
Definition ParseUint (s : bytes) : option N := match s with [] => None | _ => parse_digits 0 s end.

Definition streamIndex (name prefix suffix : bytes) : option N :=
  rest ← strip_prefix prefix name; mid ← strip_suffix suffix rest; ParseUint mid.

Definition RecordFileRound (name : bytes) : option N := streamIndex name (lit "round-") (lit ".rsf").
Definition EventFileIndex (name : bytes) : option N := streamIndex name (lit "events-") (lit ".esf").

(** [len(name) > len(suffix)] and the suffix matches. *)
Definition cut_long_suffix (suffix name : bytes) : option bytes :=
  if decide (length suffix < length name) then strip_suffix suffix name else None.

Definition SignatureFileName (name : bytes) : bytes :=
  match cut_long_suffix (lit ".esf") name with
  | Some stem => stem ++ lit ".esf_sig"
  | None =>
      match cut_long_suffix (lit ".rsf") name with
      | Some stem => stem ++ lit ".rsf_sig"
      | None => name ++ lit ".rsf_sig"
      end
  end.

(** [os.ReadDir] lists the names in ascending order; [sort.Slice] on the
    indices need not be stable, hence the arbitrary order before it. *)
Definition listStreamFiles `{HashOrder} (d : Dir) (prefix suffix : bytes) : list (N * bytes) :=
  merge_sort by_number (omap (λ e, (λ n, (n, e.1)) <$> streamIndex e.1 prefix suffix) (hm_iter (files d))).

Section mirror.
Context `{Sha256, GoCrypto} `{G : Protobuf}.

Abbreviation go := (res string).

(** ** [hash.go] and [reader.go] *)

Definition ItemHash (serializedItem : bytes) : bytes :=
  sha256 ([x6a; x6b; x2d; x6b] ++ lit "item" ++ serializedItem).
Definition ChainHash (runningHash itemHash : bytes) : bytes :=
  sha256 ([x6a; x6b; x2d; x6b] ++ lit "chain" ++ runningHash ++ itemHash).
Definition ChainSeed : bytes := replicate 32 x00.

Definition SigFileVersion : byte := x01.

Definition unmarshalStrict (k : Pb.kind) (bs : bytes) : go (Pb.msg k) :=
  m ← ok_or (pb_decode k bs) "unmarshal";
  if decide (length (pb_encode k m) ≠ length bs) then Err "trailing or unknown bytes" else mret m.

Definition missing_hash_object (o : option Pb.SignatureObject) : bool :=
  match o with Some s => bool_decide (Pb.so_hash_object s = None) | None => true end.

Definition parseSig (bs : bytes) : go Pb.SignatureFile :=
  match bs with
  | [] => Err "signature file is empty"
  | b :: bs =>
      if decide (b ≠ SigFileVersion) then Err "unsupported signature file version" else
      sf ← unmarshalStrict Pb.KSignatureFile bs;
      if missing_hash_object (Pb.file_signature sf) || missing_hash_object (Pb.metadata_signature sf)
      then Err "missing a signature or its hash object" else mret sf
  end.

(** ** [verify.go]: running hashes and signatures *)

Definition runningHashOrErr (h : option Pb.HashObject) : go bytes :=
  match h with
  | None => Err "missing running hash"
  | Some h =>
      if decide (Pb.ho_algorithm h ≠ 0%N ∨ Pb.ho_length h ≠ 32%N ∨ length (Pb.ho_hash h) ≠ 32)
      then Err "invalid running hash object" else mret (Pb.ho_hash h)
  end.

Definition metadataBytes (version : N) (start end_ : bytes) (round : option N) : bytes :=
  u32_be version ++ start ++ end_ ++ match round with Some r => u64_be r | None => [] end.

Definition verifySignatureObject (so : option Pb.SignatureObject) (expected pubKey : bytes) : go unit :=
  match so with
  | None => Err "missing signature object"
  | Some so =>
      if decide (Pb.so_type so ≠ 0%N ∨ Pb.so_length so ≠ 64%N) then Err "unsupported signature type" else
      match Pb.so_hash_object so with
      | None => Err "missing hash object"
      | Some h =>
          if decide (Pb.ho_algorithm h ≠ 0%N ∨ Pb.ho_length h ≠ 32%N) then Err "unsupported hash algorithm" else
          if decide (Pb.ho_hash h ≠ expected) then Err "committed digest mismatch" else
          if decide (length (Pb.so_signature so) ≠ 64) then Err "signature length" else
          if negb (go_ed_verify pubKey expected (Pb.so_signature so)) then Err "ed25519 verification failed"
          else mret tt
      end
  end.

Definition verifySignatureObjects (sig : Pb.SignatureFile) (fileBytes metadata pubKey : bytes) : go unit :=
  verifySignatureObject (Pb.file_signature sig) (sha256 fileBytes) pubKey ;;
  verifySignatureObject (Pb.metadata_signature sig) (sha256 metadata) pubKey.

(** [verifyRunningHashEvent] and [verifyRunningHashRecord]; marshalling a
    decoded message does not fail. *)
Definition verifyRunningHash (k : Pb.kind) (start end_ : bytes) (items : list (Pb.msg k)) : go unit :=
  let cur := foldl (λ cur it, ChainHash cur (ItemHash (pb_encode k it))) start items in
  if decide (cur ≠ end_) then Err "running hash mismatch" else mret tt.

Definition VerifyEventFile (fileBytes : bytes) (sig : option Pb.SignatureFile) (pubKey : bytes) : go unit :=
  if decide (length pubKey ≠ 32) then Err "missing verifying key" else
  sig ← ok_or sig "missing signature file";
  esf ← unmarshalStrict Pb.KEventFile fileBytes;
  if decide (Pb.ef_version esf ≠ Version) then Err "unsupported version" else
  start ← runningHashOrErr (Pb.ef_start_running_hash esf);
  end_ ← runningHashOrErr (Pb.ef_end_running_hash esf);
  verifyRunningHash Pb.KEvent start end_ (Pb.ef_events esf) ;;
  verifySignatureObjects sig fileBytes (metadataBytes (Pb.ef_version esf) start end_ None) pubKey.

(** ** The records root *)

Definition emptyHash : bytes := sha256 [x00].
Definition internalHash (left right : bytes) : bytes := sha256 (x02 :: left ++ right).
Definition singletonHash (child : bytes) : bytes := sha256 (x01 :: child).

(** The width of the event hash is not checked. *)
Definition leafHash (item : Pb.RecordItem) : go bytes :=
  if decide (u32_modulus ≤ N.of_nat (length (Pb.ri_tx_payload item)))%N then Err "TxPayload length" else
  mret (sha256 (x00 :: Pb.ri_event_hash item ++ u32_be (Pb.ri_tx_index item) ++
                u32_be (N.of_nat (length (Pb.ri_tx_payload item))) ++ Pb.ri_tx_payload item)).

Definition combineHash (left right : bytes) : bytes :=
  match bool_decide (left = emptyHash), bool_decide (right = emptyHash) with
  | true, true => emptyHash
  | true, false => singletonHash right
  | false, true => singletonHash left
  | false, false => internalHash left right
  end.

(** [for paddedLen < len(leaves) { paddedLen <<= 1 }], from [p]. *)
Fixpoint double_until (fuel p n : nat) : nat :=
  if decide (p < n) then match fuel with O => p | S fuel => double_until fuel (2 * p) n end else p.

(** The loop over the levels pairs the nodes as that of the node does. *)
Definition ComputeRecordsRoot (items : list Pb.RecordItem) : go bytes :=
  match items with
  | [] => mret emptyHash
  | _ =>
      let leaves := (λ it, match leafHash it with Ok h => h | _ => emptyHash end) <$> items in
      let paddedLen := double_until (length leaves) 1 (length leaves) in
      fold_levels combineHash (length leaves) (leaves ++ replicate (paddedLen - length leaves) emptyHash)
  end.

Fixpoint foldProof (cur : bytes) (steps : list Pb.ProofStep) : option bytes :=
  match steps with
  | [] => Some cur
  | step :: steps =>
      let sib := Pb.ps_sibling_hash step in
      if decide (length sib ≠ 32) then None else
      foldProof (if Pb.ps_sibling_is_right step then combineHash cur sib else combineHash sib cur) steps
  end.

Definition VerifyRecordsProof (root : bytes) (item : Pb.RecordItem) (proof : Pb.ProofEntry) : bool :=
  match leafHash item with
  | Ok leaf => bool_decide (foldProof leaf (Pb.pr_proof_steps proof) = Some root)
  | _ => false
  end.

(** The loop over the entries from index [i] on. *)
Fixpoint verifyProofEntries (root : bytes) (i : nat) (items : list Pb.RecordItem) (proofs : list Pb.ProofEntry) :
    go unit :=
  match proofs, items with
  | [], _ => mret tt
  | _ :: _, [] => Crash Panicked
  | entry :: proofs, item :: items =>
      if decide (Pb.pr_item_index entry ≠ N.of_nat i) then Err "item_index" else
      if negb (VerifyRecordsProof root item entry) then Err "proof verification failed" else
      verifyProofEntries root (S i) items proofs
  end.

Definition VerifyRecordsProofFile (pf : Pb.RecordsProofFile) (items : list Pb.RecordItem) (recordsRoot : bytes) :
    go unit :=
  if decide (Pb.pf_version pf ≠ Version) then Err "unsupported proof file version" else
  if decide (length recordsRoot ≠ 32) then Err "recordsRoot length" else
  match items with
  | [] => if decide (Pb.pf_proofs pf ≠ []) then Err "empty items must have zero proofs" else mret tt
  | _ =>
      if decide (length (Pb.pf_proofs pf) ≠ length items) then Err "proof count" else
      verifyProofEntries recordsRoot 0 items (Pb.pf_proofs pf)
  end.

Definition VerifyRecordsProofFileBytes (bs : bytes) (items : list Pb.RecordItem) (recordsRoot : bytes)
    (expectedRound : N) : go unit :=
  pf ← unmarshalStrict Pb.KProofFile bs;
  if decide (Pb.pf_round pf ≠ expectedRound) then Err "proof file round" else
  VerifyRecordsProofFile pf items recordsRoot.

(** ** State diffs and checkpoints *)

Definition maxStateDiffsPerRound : nat := 10000.
Definition maxDiffKeyBytes : nat := 1024.
Definition maxDiffValueBytes : N := 2 ^ 20.
Definition maxRecordItemsPerFile : N := 2 ^ 16.

(** The loop over the diffs; a sorted list has no duplicates, but the code
    looks for them first. *)
Fixpoint validateDiffs (seen : gset bytes) (prev : option bytes) (diffs : list StateDiff) : go unit :=
  match diffs with
  | [] => mret tt
  | d :: diffs =>
      let key := diff_key d in
      if decide (key = []) then Err "empty key" else
      if decide (maxDiffKeyBytes < length key) then Err "key size" else
      if decide (maxDiffValueBytes < N.of_nat (length (default [] (diff_value d))))%N then Err "value size" else
      if decide (key ∈ seen) then Err "duplicate key" else
      if match prev with Some p => negb (bytes_ltb p key) | None => false end then Err "not sorted" else
      validateDiffs ({[ key ]} ∪ seen) (Some key) diffs
  end.

Definition ValidateStateDiffs (diffs : list StateDiff) : go unit :=
  if decide (maxStateDiffsPerRound < length diffs) then Err "too many state_diffs" else
  validateDiffs ∅ None diffs.

(** [copy(out[i:i+32], bs)] into a zeroed array. *)
Definition copy32 (bs : bytes) : bytes := take 32 bs ++ replicate (32 - length bs) x00.

Definition CheckpointSigningBytes (cp : Pb.SignedCheckpoint) : bytes :=
  u64_be (Pb.pc_round cp) ++ copy32 (Pb.pc_records_root cp) ++ copy32 (Pb.pc_state_hash cp) ++
  copy32 (Pb.pc_roster_hash cp) ++ copy32 (Pb.pc_prev_checkpoint_hash cp) ++ copy32 (Pb.pc_window_root cp) ++
  copy32 (Pb.pc_roster_history_root cp).

Definition CheckpointSigningBytesHash (cp : Pb.SignedCheckpoint) : bytes := sha256 (CheckpointSigningBytes cp).

(** [mByID]: a later entry for an id replaces an earlier one. *)
Fixpoint rosterById (acc : MembershipRegistry) (members : list Pb.RosterMember) : go MembershipRegistry :=
  match members with
  | [] => mret acc
  | m :: members =>
      if decide (length (Pb.rm_key m) ≠ 32) then Err "ed25519 key length" else
      if decide (length (Pb.rm_bls_key m) ≠ 48) then Err "bls_key length" else
      rosterById (<[Pb.rm_node_id m := (Pb.rm_key m, Pb.rm_bls_key m)]> acc) members
  end.

(** The ids ascending, each with its keys. *)
Definition rosterCanonicalBytes (roster : MembershipRegistry) : bytes :=
  concat ((λ m, u64_be m.1 ++ m.2.1 ++ m.2.2) <$> bt_entries N.le roster).

(** The keys of the sorted signers, uncompressed and validated. *)
Fixpoint signerKeys (roster : MembershipRegistry) (ids : list N) : go (list bytes) :=
  match ids with
  | [] => mret []
  | id :: ids =>
      let blsBytes := default [] (snd <$> roster !! id) in
      if negb (go_pk_uncompress blsBytes) then Err "invalid bls_key" else
      if negb (go_pk_validate blsBytes) then Err "bls_key subgroup check" else
      pks ← signerKeys roster ids; mret (blsBytes :: pks)
  end.

Definition verifyCheckpointQuorum (cp : Pb.SignedCheckpoint) (trustedRosterHash : bytes) : go unit :=
  if decide (length (Pb.pc_state_hash cp) ≠ 32) then Err "state hash length" else
  if decide (length (Pb.pc_roster_hash cp) ≠ 32) then Err "roster hash length" else
  if decide (length (Pb.pc_records_root cp) ≠ 32 ∧ length (Pb.pc_records_root cp) ≠ 0)
  then Err "records_root length" else
  if decide (length (Pb.pc_prev_checkpoint_hash cp) ≠ 32) then Err "prev_checkpoint_hash length" else
  roster ← rosterById ∅ (Pb.pc_roster_snapshot cp);
  if decide (sha256 (rosterCanonicalBytes roster) ≠ Pb.pc_roster_hash cp) then Err "roster snapshot hash" else
  if decide (trustedRosterHash ≠ [] ∧ length trustedRosterHash ≠ 32) then Err "trusted roster hash length" else
  if decide (trustedRosterHash ≠ [] ∧ Pb.pc_roster_hash cp ≠ trustedRosterHash) then Err "untrusted roster" else
  if decide (length (Pb.pc_aggregate_sig cp) ≠ 96) then Err "aggregate_sig length" else
  if decide (¬ NoDup (Pb.pc_signers cp)) then Err "duplicate signer" else
  let total := size roster in
  if decide (total = 0) then Err "empty roster snapshot" else
  if decide (length (Pb.pc_signers cp) * 3 ≤ total * 2) then Err "quorum not met" else
  if negb (forallb (λ s, bool_decide (is_Some (roster !! s))) (Pb.pc_signers cp)) then Err "signer not in roster" else
  pks ← signerKeys roster (merge_sort N.le (Pb.pc_signers cp));
  if negb (go_sig_uncompress (Pb.pc_aggregate_sig cp)) then Err "invalid aggregate_sig" else
  if negb (go_sig_validate (Pb.pc_aggregate_sig cp)) then Err "aggregate_sig validation" else
  if go_fast_aggregate_verify (Pb.pc_aggregate_sig cp) (CheckpointSigningBytes cp) BlsWrapper.CHECKPOINT_DST pks
  then mret tt else Err "BLS aggregate verification failed".

Definition verifyCheckpointBinding (cp : Pb.SignedCheckpoint) (items : list Pb.RecordItem)
    (trustedRosterHash : bytes) : go unit :=
  if decide (length (Pb.pc_state_hash cp) ≠ 32) then Err "state hash length" else
  if decide (length (Pb.pc_roster_hash cp) ≠ 32) then Err "roster hash length" else
  if decide (length (Pb.pc_records_root cp) ≠ 32) then Err "records_root length" else
  if decide (length (Pb.pc_prev_checkpoint_hash cp) ≠ 32) then Err "prev_checkpoint_hash length" else
  computed ← ComputeRecordsRoot items;
  if decide (computed ≠ Pb.pc_records_root cp) then Err "records_root mismatch" else
  verifyCheckpointQuorum cp trustedRosterHash.

Definition VerifyRecordFile (fileBytes trustedRosterHash : bytes) : go unit :=
  rsf ← unmarshalStrict Pb.KRecordFile fileBytes;
  if decide (Pb.rf_version rsf ≠ Version) then Err "unsupported version" else
  if decide (maxRecordItemsPerFile < N.of_nat (length (Pb.rf_items rsf)))%N then Err "too many items" else
  start ← runningHashOrErr (Pb.rf_start_running_hash rsf);
  end_ ← runningHashOrErr (Pb.rf_end_running_hash rsf);
  verifyRunningHash Pb.KItem start end_ (Pb.rf_items rsf) ;;
  cp ← ok_or (Pb.rf_checkpoint rsf) "no checkpoint anchor";
  if decide (Pb.pc_round cp ≠ Pb.rf_round rsf) then Err "checkpoint round" else
  ValidateStateDiffs (Pb.rf_state_diffs rsf) ;;
  verifyCheckpointBinding cp (Pb.rf_items rsf) trustedRosterHash.
End mirror.

(** ** Stores *)

(** [store.Store], as far as the ingester uses it. *)
Class Store (S : Type) := {
  PutRecord : Pb.RecordStreamFile → stM S string unit;
  PutEvents : Pb.EventStreamFile → stM S string unit;
  ListRecords : S → list Pb.RecordStreamFile;
}.

Record MemStore := {
  ms_events : list Pb.Event;
  ms_records : list Pb.RecordStreamFile;
  ms_seenRounds : gset N;
  ms_seenEvents : gset (N * N);
}.

Definition NewMemStore : MemStore :=
  {| ms_events := []; ms_records := []; ms_seenRounds := ∅; ms_seenEvents := ∅ |}.

(** The body of the loop of [PutEvents]. *)
Definition mem_put_event (m : MemStore) (ev : Pb.Event) : MemStore :=
  let key := (Pb.pe_creator ev, Pb.pe_seq ev) in
  if decide (key ∈ ms_seenEvents m) then m
  else {| ms_events := ms_events m ++ [ev]; ms_records := ms_records m; ms_seenRounds := ms_seenRounds m;
          ms_seenEvents := {[ key ]} ∪ ms_seenEvents m |}.

Definition mem_put_record (f : Pb.RecordStreamFile) (m : MemStore) : MemStore :=
  if decide (Pb.rf_round f ∈ ms_seenRounds m) then m
  else {| ms_events := ms_events m; ms_records := ms_records m ++ [f];
          ms_seenRounds := {[ Pb.rf_round f ]} ∪ ms_seenRounds m; ms_seenEvents := ms_seenEvents m |}.

#[export] Instance mem_store : Store MemStore := {
  PutRecord f := st_modify (mem_put_record f);
  PutEvents f := st_modify (λ m, foldl mem_put_event m (Pb.ef_events f));
  ListRecords := ms_records;
}.

(** The tables of [schema.sql]: the files by round and the events by creator
    and sequence number, in order of insertion. *)
Record PGStore := { pg_records : gmap N Pb.RecordStreamFile; pg_events : list Pb.Event }.

(** Whether the database commits the transaction that inserts a file: the
    constraints of the schema hold and the connection lives. *)
Class Postgres := {
  pg_commits_record : PGStore → Pb.RecordStreamFile → bool;
  pg_commits_events : PGStore → Pb.EventStreamFile → bool;
}.

(** [ORDER BY] on a [BIGINT], to which an [uint64] is converted. *)
Definition bigint (n : N) : N := (n + 2 ^ 63) mod u64_modulus.

Definition bigint_le (a b : N) : Prop := (bigint a ≤ bigint b)%N.

#[export] Instance bigint_le_dec : RelDecision bigint_le.
Proof. intros a b. unfold bigint_le. apply _. Defined.

(** What [ListRecords] reads back: [record_files] has no columns for the
    window and roster-history roots, signers and diffs come sorted. *)
Definition pg_hash_object (o : option Pb.HashObject) : option Pb.HashObject :=
  Some {| Pb.ho_algorithm := 0; Pb.ho_length := 32; Pb.ho_hash := default [] (Pb.ho_hash <$> o) |}.

Definition pg_checkpoint (c : Pb.SignedCheckpoint) : Pb.SignedCheckpoint :=
  {| Pb.pc_round := Pb.pc_round c; Pb.pc_state_hash := Pb.pc_state_hash c; Pb.pc_roster_hash := Pb.pc_roster_hash c;
     Pb.pc_roster_snapshot := Pb.pc_roster_snapshot c; Pb.pc_records_root := Pb.pc_records_root c;
     Pb.pc_aggregate_sig := Pb.pc_aggregate_sig c; Pb.pc_signers := merge_sort bigint_le (Pb.pc_signers c);
     Pb.pc_prev_checkpoint_hash := Pb.pc_prev_checkpoint_hash c;
     Pb.pc_window_root := []; Pb.pc_roster_history_root := [] |}.

Definition diff_key_le (a b : StateDiff) : Prop := bytes_le (diff_key a) (diff_key b).

#[export] Instance diff_key_le_dec : RelDecision diff_key_le.
Proof. intros a b. unfold diff_key_le. apply _. Defined.

Definition pg_record (f : Pb.RecordStreamFile) : Pb.RecordStreamFile :=
  {| Pb.rf_version := Pb.rf_version f; Pb.rf_round := Pb.rf_round f;
     Pb.rf_start_running_hash := pg_hash_object (Pb.rf_start_running_hash f); Pb.rf_items := Pb.rf_items f;
     Pb.rf_end_running_hash := pg_hash_object (Pb.rf_end_running_hash f);
     Pb.rf_checkpoint := pg_checkpoint <$> Pb.rf_checkpoint f;
     Pb.rf_state_diffs := merge_sort diff_key_le (Pb.rf_state_diffs f) |}.

Definition same_event (a b : Pb.Event) : Prop := Pb.pe_creator a = Pb.pe_creator b ∧ Pb.pe_seq a = Pb.pe_seq b.

#[export] Instance same_event_dec : RelDecision same_event.
Proof. intros a b. unfold same_event. apply _. Defined.

(** One row per creator and sequence number, [ON CONFLICT DO NOTHING]. *)
Definition pg_put_event (l : list Pb.Event) (ev : Pb.Event) : list Pb.Event :=
  if decide (Exists (same_event ev) l) then l else l ++ [ev].

(** One transaction per file; when it fails it is rolled back. *)
Definition pg_put_record `{Postgres} (f : Pb.RecordStreamFile) : stM PGStore string unit := λ s,
  if decide (is_Some (pg_records s !! Pb.rf_round f)) then (Ok tt, s) else
  if pg_commits_record s f
  then (Ok tt, {| pg_records := <[Pb.rf_round f := f]> (pg_records s); pg_events := pg_events s |})
  else (Err "put_record", s).

Definition pg_put_events `{Postgres} (f : Pb.EventStreamFile) : stM PGStore string unit := λ s,
  if decide (Pb.ef_events f = []) then (Ok tt, s) else
  if pg_commits_events s f
  then (Ok tt, {| pg_records := pg_records s; pg_events := foldl pg_put_event (pg_events s) (Pb.ef_events f) |})
  else (Err "put_events", s).

Definition pg_list_records (s : PGStore) : list Pb.RecordStreamFile :=
  (λ e, pg_record e.2) <$> bt_entries bigint_le (pg_records s).

#[export] Instance pg_store `{Postgres} : Store PGStore := {
  PutRecord := pg_put_record;
  PutEvents := pg_put_events;
  ListRecords := pg_list_records;
}.

(** ** The ingester ([ingest.go]) *)

Record Ingester (S : Type) := mkIngester {
  seenRecords : gset N;
  seenEvents : gset N;
  inFlightRecords : gset N;
  inFlightEvents : gset N;
  lastRecordEnd : option bytes;
  lastEventEnd : option bytes;
  expectedPrev : option bytes;
  store : S;
}.
Arguments mkIngester {_} _ _ _ _ _ _ _ _.
Arguments seenRecords {_} _.
Arguments seenEvents {_} _.
Arguments inFlightRecords {_} _.
Arguments inFlightEvents {_} _.
Arguments lastRecordEnd {_} _.
Arguments lastEventEnd {_} _.
Arguments expectedPrev {_} _.
Arguments store {_} _.

Record Config := { cfg_PubKey : bytes; cfg_TrustedRosterHash : bytes }.

Section ingest.
Context `{Sha256, GoCrypto} `{G : Protobuf} {S : Type} `{Store S}.

Abbreviation ingest A := (stM (Ingester S) string A).

Definition hashFromPB (h : option Pb.HashObject) : res string bytes := runningHashOrErr h.

(** The file of the highest round; the first of two. *)
Definition highest (recs : list Pb.RecordStreamFile) : option Pb.RecordStreamFile :=
  foldl (λ best f, match best with
                   | None => Some f
                   | Some b => if decide (Pb.rf_round b < Pb.rf_round f)%N then Some f else best
                   end) None recs.

(** [New] with [seedFromStore]. *)
Definition NewIngester (s : S) : Ingester S :=
  let recs := ListRecords s in
  let best := highest recs in
  mkIngester (list_to_set (Pb.rf_round <$> recs)) ∅ ∅ ∅
    (f ← best; res_ok (hashFromPB (Pb.rf_end_running_hash f))) None
    (f ← best; CheckpointSigningBytesHash <$> Pb.rf_checkpoint f) s.

Definition checkPrev (cp : Pb.SignedCheckpoint) (commit : bool) : ingest unit := λ ing,
  if decide (length (Pb.pc_prev_checkpoint_hash cp) ≠ 32) then (Err "prev_checkpoint_hash length", ing) else
  if decide (Pb.pc_prev_checkpoint_hash cp ≠ default (replicate 32 x00) (expectedPrev ing))
  then (Err "prev_checkpoint_hash mismatch", ing) else
  (Ok tt, if commit
          then mkIngester (seenRecords ing) (seenEvents ing) (inFlightRecords ing) (inFlightEvents ing)
                 (lastRecordEnd ing) (lastEventEnd ing) (Some (CheckpointSigningBytesHash cp)) (store ing)
          else ing).

(** A missing sidecar is accepted. *)
Definition verifyProofSidecarLocal (d : Dir) (f : Pb.RecordStreamFile) : res string unit :=
  match files d !! RecordProofFileName (Pb.rf_round f) with
  | None => mret tt
  | Some bs =>
      cp ← expect (Pb.rf_checkpoint f);
      VerifyRecordsProofFileBytes bs (Pb.rf_items f) (Pb.pc_records_root cp) (Pb.rf_round f)
  end.

Definition setRecordClaims (seen inFlight : gset N) (ing : Ingester S) : Ingester S :=
  mkIngester seen (seenEvents ing) inFlight (inFlightEvents ing) (lastRecordEnd ing) (lastEventEnd ing)
    (expectedPrev ing) (store ing).

Definition setEventClaims (seen inFlight : gset N) (ing : Ingester S) : Ingester S :=
  mkIngester (seenRecords ing) seen (inFlightRecords ing) inFlight (lastRecordEnd ing) (lastEventEnd ing)
    (expectedPrev ing) (store ing).

Definition setStore (s : S) (ing : Ingester S) : Ingester S :=
  mkIngester (seenRecords ing) (seenEvents ing) (inFlightRecords ing) (inFlightEvents ing) (lastRecordEnd ing)
    (lastEventEnd ing) (expectedPrev ing) s.

Definition setRecordEnd (end_ : bytes) (ing : Ingester S) : Ingester S :=
  mkIngester (seenRecords ing) (seenEvents ing) (inFlightRecords ing) (inFlightEvents ing) (Some end_)
    (lastEventEnd ing) (expectedPrev ing) (store ing).

Definition setEventEnd (end_ : bytes) (ing : Ingester S) : Ingester S :=
  mkIngester (seenRecords ing) (seenEvents ing) (inFlightRecords ing) (inFlightEvents ing) (lastRecordEnd ing)
    (Some end_) (expectedPrev ing) (store ing).

(** [if f.Checkpoint != nil { .. }]. *)
Definition checkPrevOf (f : Pb.RecordStreamFile) (commit : bool) : ingest unit :=
  match Pb.rf_checkpoint f with Some cp => checkPrev cp commit | None => mret tt end.

(** The checks of a claimed record file and its storage. *)
Definition acceptRecord (cfg : Config) (d : Dir) (index : N) (name : bytes) : ingest unit :=
  raw ← st_lift (λ _, ok_or (files d !! name) "read");
  f ← st_lift (λ _, unmarshalStrict Pb.KRecordFile raw);
  if decide (Pb.rf_round f ≠ index) then st_fail "filename round disagrees" else
  start ← st_lift (λ _, hashFromPB (Pb.rf_start_running_hash f));
  end_ ← st_lift (λ _, hashFromPB (Pb.rf_end_running_hash f));
  ing ← st_get;
  if decide (start ≠ default ChainSeed (lastRecordEnd ing)) then st_fail "record chain continuity violation" else
  _ ← st_lift (λ _, VerifyRecordFile raw (cfg_TrustedRosterHash cfg));
  checkPrevOf f false ;;
  _ ← st_lift (λ _, ValidateStateDiffs (Pb.rf_state_diffs f));
  _ ← st_lift (λ _, verifyProofSidecarLocal d f);
  st_zoom store setStore (PutRecord f) ;;
  checkPrevOf f true ;;
  st_modify (setRecordEnd end_).

(** [tryClaim], then [confirmClaim] or [releaseClaim].  Every name that is
    listed has an index, so the branch for a name without one is not taken. *)
Definition ingestRecord (cfg : Config) (d : Dir) (index : N) (name : bytes) : ingest unit := λ ing,
  if decide (index ∈ seenRecords ing ∨ index ∈ inFlightRecords ing) then (Ok tt, ing) else
  let claimed := setRecordClaims (seenRecords ing) ({[ index ]} ∪ inFlightRecords ing) ing in
  match acceptRecord cfg d index name claimed with
  | (Ok _, ing) =>
      (Ok tt, setRecordClaims ({[ index ]} ∪ seenRecords ing) (inFlightRecords ing ∖ {[ index ]}) ing)
  | (r, ing) => (r, setRecordClaims (seenRecords ing) (inFlightRecords ing ∖ {[ index ]}) ing)
  end.

(** [loadSig]: a missing file is no error yet. *)
Definition loadSig (d : Dir) (name : bytes) : res string (option Pb.SignatureFile) :=
  match files d !! SignatureFileName name with
  | None => mret None
  | Some bs => sig ← parseSig bs; mret (Some sig)
  end.

Definition acceptEvents (cfg : Config) (d : Dir) (name : bytes) : ingest unit :=
  raw ← st_lift (λ _, ok_or (files d !! name) "read");
  f ← st_lift (λ _, unmarshalStrict Pb.KEventFile raw);
  sig ← st_lift (λ _, loadSig d name);
  if decide (is_Some sig) then
    start ← st_lift (λ _, hashFromPB (Pb.ef_start_running_hash f));
    end_ ← st_lift (λ _, hashFromPB (Pb.ef_end_running_hash f));
    ing ← st_get;
    if decide (start ≠ default ChainSeed (lastEventEnd ing)) then st_fail "event chain continuity violation" else
    _ ← st_lift (λ _, VerifyEventFile raw sig (cfg_PubKey cfg));
    st_zoom store setStore (PutEvents f) ;;
    st_modify (setEventEnd end_)
  else st_fail "missing signature file".

Definition ingestEvent (cfg : Config) (d : Dir) (index : N) (name : bytes) : ingest unit := λ ing,
  if decide (index ∈ seenEvents ing ∨ index ∈ inFlightEvents ing) then (Ok tt, ing) else
  let claimed := setEventClaims (seenEvents ing) ({[ index ]} ∪ inFlightEvents ing) ing in
  match acceptEvents cfg d name claimed with
  | (Ok _, ing) =>
      (Ok tt, setEventClaims ({[ index ]} ∪ seenEvents ing) (inFlightEvents ing ∖ {[ index ]}) ing)
  | (r, ing) => (r, setEventClaims (seenEvents ing) (inFlightEvents ing ∖ {[ index ]}) ing)
  end.

(** [RunOnce] on a local directory; failures are logged. *)
Definition RunOnce `{HashOrder} (cfg : Config) (d : Dir) : stM (Ingester S) Empty_set unit :=
  st_for (listStreamFiles d (lit "round-") (lit ".rsf")) (λ e,
    _ ← logged (ingestRecord cfg d e.1 e.2); mret tt) ;;
  st_for (listStreamFiles d (lit "events-") (lit ".esf")) (λ e,
    _ ← logged (ingestEvent cfg d e.1 e.2); mret tt).
End ingest.
