(* ===== verification/MirrorFacts.v ===== *)
(** * Facts about the mirror node

    The Go code and the node agree: on the records root, on inclusion proofs,
    on the bytes a checkpoint signs and on its quorum.  Then what a poll does
    with a directory the record writer has written. *)

From S2P Require Import Prelude Codec External Primitives Membership Graph Order Insert Retain Reconnect.
From S2P Require Import Checkpoint CheckpointFacts CheckpointQuorum MerkleLog SparseMerkle Did DidFacts Op State Executor.
From S2P Require Import Stream StreamFacts StreamRecords Mirror.

(** ** The records root *)

Section levels.
Context {E1 E2 A : Type} (combine : A → A → A).

Lemma next_level_any (level next : list A) :
  next_level (E := E1) combine level = Ok next → next_level (E := E2) combine level = Ok next.
Proof.
  revert next. induction level as [|x|x y level IH] using list_ind2; intros next; simpl; [|done|].
  - by intros <-%res_ret_Ok.
  - intros (rest & Hr & <-%res_ret_Ok)%res_bind_Ok. by rewrite (IH _ Hr).
Qed.

Lemma fold_levels_any fuel (level : list A) x :
  fold_levels (E := E1) combine fuel level = Ok x → fold_levels (E := E2) combine fuel level = Ok x.
Proof.
  revert level. induction fuel as [|fuel IH]; intros level; simpl; case_decide; [done| | |].
  - destruct level; [done|]. by intros [= ->].
  - intros (next & Hn & Hf)%res_bind_Ok. rewrite (next_level_any _ _ Hn). simpl. by apply IH.
  - destruct level; [done|]. by intros [= ->].
Qed.

Lemma next_level_Forall (Q : A → Prop) (level next : list A) :
  (∀ x y, Q (combine x y)) → next_level (E := E1) combine level = Ok next → Forall Q next.
Proof.
  intros Hq. revert next. induction level as [|x|x y level IH] using list_ind2; intros next; simpl; [|done|].
  - intros <-%res_ret_Ok. constructor.
  - intros (rest & Hr & <-%res_ret_Ok)%res_bind_Ok. constructor; [apply Hq|by apply IH].
Qed.

Lemma build_levels_Forall (Q : A → Prop) fuel (level : list A) levels :
  (∀ x y, Q (combine x y)) → Forall Q level →
  build_levels (E := E1) combine fuel level = Ok levels → Forall (Forall Q) levels.
Proof.
  intros Hq. revert level levels. induction fuel as [|fuel IH]; intros level levels Hl; simpl; case_decide; [done| | |].
  - intros <-%res_ret_Ok. by repeat constructor.
  - intros (next & Hn & (ls & Hls & <-%res_ret_Ok)%res_bind_Ok)%res_bind_Ok. constructor; [done|].
    eapply IH; [|exact Hls]. by eapply next_level_Forall.
  - intros <-%res_ret_Ok. by repeat constructor.
Qed.
End levels.

(** The loop that doubles the width stops at the next power of two. *)
Lemma double_until_pow fuel k n :
  0 < n → n ≤ 2 ^ k + fuel → double_until fuel (2 ^ k) n = 2 ^ Nat.max k (Nat.log2_up n).
Proof.
  revert k. induction fuel as [|fuel IH]; intros k Hn Hf; simpl; case_decide as Hlt; [lia| | |].
  - assert (Nat.log2_up n ≤ k) by (apply Nat.log2_up_le_pow2; lia). f_equal. lia.
  - change (2 ^ k + (2 ^ k + 0)) with (2 ^ S k). pose proof (Nat.pow_nonzero 2 k ltac:(done)).
    rewrite IH; [|done|rewrite Nat.pow_succ_r'; lia]. apply Nat.log2_up_lt_pow2 in Hlt; [|done]. f_equal. lia.
  - assert (Nat.log2_up n ≤ k) by (apply Nat.log2_up_le_pow2; lia). f_equal. lia.
Qed.

Section roots.
Context `{Sha256}.

(** On items with event hashes of any width the node hashes the same bytes. *)
Lemma leafHash_item item h : try_leaf_hash item = Ok h → leafHash (item_to_proto item) = Ok h.
Proof.
  unfold try_leaf_hash, leaf_bytes, leafHash, u32_try_from. simpl. case_decide as Hlt; [|done].
  rewrite decide_False by lia. by intros [= <-].
Qed.

Lemma leafHash_items items hs :
  leaf_hashes items = Ok hs →
  (λ it, match leafHash it with Ok h => h | _ => emptyHash end) <$> (item_to_proto <$> items) = hs.
Proof.
  revert hs. induction items as [|item items IH]; intros hs; simpl; [by intros <-%res_ret_Ok|].
  intros (h & Hh & (hs' & Hhs & <-%res_ret_Ok)%res_bind_Ok)%res_bind_Ok. rewrite (leafHash_item _ _ Hh).
  f_equal. by apply IH.
Qed.

(** The mirror computes the node's records root. *)
Lemma ComputeRecordsRoot_items items root :
  try_compute_records_root items = Ok root → ComputeRecordsRoot (item_to_proto <$> items) = Ok root.
Proof.
  destruct items as [|item items]; [by intros <-%res_ret_Ok|].
  intros (hs & Hhs & Hr)%res_bind_Ok. unfold ComputeRecordsRoot. rewrite fmap_cons.
  rewrite <- fmap_cons, (leafHash_items _ _ Hhs). destruct (leaf_hashes_lookup _ _ Hhs) as [Hlen _].
  eapply fold_levels_any. unfold padded_root, pad, next_power_of_two in Hr.
  replace (double_until (length hs) 1 (length hs)) with (2 ^ Nat.log2_up (length hs)); [exact Hr|].
  symmetry. apply (double_until_pow _ 0); simpl in *; lia.
Qed.
End roots.

(** ** Inclusion proofs *)

Section proofs.
Context `{Sha256}.

Lemma sibling_steps_wf levels i :
  Forall (Forall (λ h, length h = 32)) levels → Forall (λ s, length (sibling_hash s) = 32) (sibling_steps levels i).
Proof.
  intros Hl. revert i. induction Hl as [|level levels Hlv Hls IH]; intros i; [constructor|].
  destruct levels as [|level2 levels]; [constructor|]. cbn [sibling_steps]. apply Forall_app. split; [|apply IH].
  destruct (level !! _) as [h|] eqn:Hh; [|constructor]. apply Forall_singleton.
  exact (Forall_lookup_1 _ _ _ _ Hlv Hh).
Qed.

Lemma leaf_hashes_width items hs : leaf_hashes items = Ok hs → Forall (λ h, length h = 32) hs.
Proof.
  intros (msgs & -> & _)%leaf_hashes_messages. apply Forall_fmap, Forall_true. intros. apply sha256_length.
Qed.

(** The proofs the node builds have hashes for siblings. *)
Lemma built_proofs_wf items proofs : try_build_records_proofs items = Ok proofs → Forall wf_proof proofs.
Proof.
  destruct items as [|item items]; [intros <-%res_ret_Ok; constructor|].
  intros (hs & Hhs%leaf_hashes_width & (levels & Hb & Hp)%res_bind_Ok)%res_bind_Ok.
  assert (Forall (Forall (λ h, length h = 32)) levels) as Hl.
  { eapply build_levels_Forall; [|..|exact Hb]; [apply length_combine_hash|]. unfold pad.
    apply Forall_app_2; [done|]. apply Forall_replicate, sha256_length. }
  destruct (proofs_from_lookup _ _ _ _ Hp) as [_ Hps]. apply Forall_lookup. intros i p Hi.
  rewrite (Hps _ _ Hi). by apply sibling_steps_wf.
Qed.

Lemma foldProof_steps cur steps :
  Forall (λ s, length (sibling_hash s) = 32) steps →
  foldProof cur ((λ s, {| Pb.ps_sibling_hash := sibling_hash s; Pb.ps_sibling_is_right := sibling_is_right s |})
    <$> steps) = Some (foldl proof_step cur steps).
Proof.
  intros Hs. revert cur. induction Hs as [|s steps Hl _ IH]; intros cur; [done|].
  simpl. rewrite decide_False by auto. apply IH.
Qed.

(** The mirror accepts the node's proofs. *)
Lemma VerifyRecordsProof_native root item p :
  wf_proof p → verify_records_proof root item p = true →
  VerifyRecordsProof root (item_to_proto item) (proof_to_proto p) = true.
Proof.
  intros Hp. unfold verify_records_proof, VerifyRecordsProof. destruct (try_leaf_hash item) as [h| |] eqn:Hh; [|done..].
  rewrite (leafHash_item _ _ Hh). intros <-%bool_decide_eq_true. apply bool_decide_eq_true. simpl.
  by rewrite foldProof_steps.
Qed.

Lemma verifyProofEntries_native root i items (proofs : list RecordsProof) :
  (∀ j p, proofs !! j = Some p → ∃ item, items !! j = Some item ∧ item_index p = N.of_nat (i + j) ∧ wf_proof p ∧
     verify_records_proof root item p = true) →
  verifyProofEntries root i (item_to_proto <$> items) (proof_to_proto <$> proofs) = Ok tt.
Proof.
  revert i items. induction proofs as [|p proofs IH]; intros i items Hp; [by destruct items|].
  destruct (Hp 0 p) as (item & Hi & Hx & Hw & Hv); [done|]. destruct items as [|item' items]; [done|].
  injection Hi as ->. simpl. rewrite Hx, Nat.add_0_r, decide_False by auto.
  rewrite VerifyRecordsProof_native by done. simpl. apply IH. intros j q Hq.
  destruct (Hp (S j) q Hq) as (it & ? & Hj & ?). exists it. by rewrite Nat.add_succ_r in Hj.
Qed.

Lemma VerifyRecordsProofFile_native w root proofs :
  try_compute_records_root_with_proofs (RecordDir.w_items w) = Ok (root, proofs) →
  length proofs = length (RecordDir.w_items w) → length root = 32 →
  VerifyRecordsProofFile (RecordDir.proof_file w proofs) (RecordDir.items w) root = Ok tt.
Proof.
  intros Hrp Hlen Hroot. pose proof Hrp as (root' & _ & (ps & Hps & [= -> ->]%res_ret_Ok)%res_bind_Ok)%res_bind_Ok.
  pose proof (built_proofs_wf _ _ Hps) as Hwf. unfold VerifyRecordsProofFile. simpl Pb.pf_version.
  rewrite decide_False by auto. rewrite decide_False by auto. unfold RecordDir.items. simpl Pb.pf_proofs.
  destruct (RecordDir.w_items w) as [|item items] eqn:Hw.
  { destruct proofs; [|done]. by rewrite decide_False by auto. }
  rewrite fmap_cons at 1.
  rewrite decide_False by (rewrite !length_fmap; auto). apply verifyProofEntries_native. intros j p Hj.
  destruct (lookup_lt_is_Some_2 (item :: items) j) as [it Hit]; [rewrite <- Hlen; by eapply lookup_lt_Some|].
  destruct (records_proofs_complete _ _ _ _ _ _ Hrp Hit Hj) as [Hx Hv]. exists it.
  split; [done|]. split; [done|]. split; [|done]. exact (Forall_lookup_1 _ _ _ _ Hwf Hj).
Qed.
End proofs.

(** ** Checkpoints *)

Section checkpoints.
Context `{Sha256, Ed25519, Bls, GoCrypto, !SameCrypto}.

Lemma copy32_id bs : length bs = 32 → copy32 bs = bs.
Proof. intros Hl. unfold copy32. rewrite take_ge, Hl by lia. apply app_nil_r. Qed.

(** The mirror hashes and verifies the bytes the node signs. *)
Lemma signing_bytes_native sc :
  wf_payload (sc_payload sc) →
  CheckpointSigningBytes (signed_checkpoint_to_proto sc) = Payload.signing_bytes (sc_payload sc).
Proof.
  intros [Hr Hrr Hsh Hro Hpr Hwr Hhr Hreg]. unfold CheckpointSigningBytes, Payload.signing_bytes. simpl.
  rewrite !copy32_id by (done || rewrite Hro; apply sha256_length). done.
Qed.

Lemma rosterById_list acc (l : list (NodeId * (bytes * bytes))) :
  NoDup l.*1 → Forall (λ m, length m.2.1 = 32 ∧ length m.2.2 = 48) l →
  rosterById acc (member_of <$> l) = Ok (list_to_map l ∪ acc).
Proof.
  revert acc. induction l as [|[node [key bls]] l IH]; intros acc Hn Hl; [simpl; by rewrite (left_id_L ∅ (∪))|].
  apply NoDup_cons in Hn as [Hnode Hn]. apply Forall_cons in Hl as [[Hk Hb] Hl]. simpl in *.
  rewrite decide_False by auto. rewrite decide_False by auto. rewrite IH by done. f_equal.
  rewrite <- insert_union_l. symmetry. rewrite insert_union_r; [done|]. by apply not_elem_of_list_to_map.
Qed.

Lemma rosterById_native reg : wf_registry reg → rosterById ∅ (member_of <$> bt_entries N.le reg) = Ok reg.
Proof.
  intros Hw. rewrite rosterById_list.
  - rewrite (right_id_L ∅ (∪)). f_equal. symmetry. apply list_to_map_flip. symmetry. apply bt_entries_perm.
  - apply bt_entries_keys_NoDup.
  - apply Forall_forall. intros [node m] Hm%elem_of_bt_entries. by destruct (Hw _ _ Hm) as (_ & ? & _ & ?).
Qed.

(** blst's [KeyValidate], which the node leaves to the proof of possession. *)
Definition validated (reg : MembershipRegistry) : Prop := map_Forall (λ _ m, go_pk_validate m.2 = true) reg.

Lemma signerKeys_native reg ids pks :
  validated reg → mapM (signer_key reg) ids = Some pks → signerKeys reg ids = Ok pks.
Proof.
  intros Hv. revert pks. induction ids as [|id ids IH]; intros pks; [by intros [= <-]|].
  intros Hk%mapM_Some. inversion Hk as [|? pk ? pks' Hk1 Hks]; subst. apply mapM_Some in Hks. clear Hk.
  rename Hk1 into Hk. unfold signer_key, Registry.bls_key_for in Hk.
  cbn [signerKeys]. destruct (reg !! id) as [m|] eqn:Hm; [|done]. simpl in Hk |- *.
  destruct (bls_pk_valid m.2) eqn:Hpk; [|done]. injection Hk as <-.
  rewrite same_pk, Hpk, (Hv _ _ Hm). simpl. by rewrite (IH _ Hks).
Qed.

(** [trustedRosterHash] is empty or that of the checkpoint's roster. *)
Definition trusts (trustedRosterHash : bytes) (sc : SignedCheckpoint) : Prop :=
  trustedRosterHash = [] ∨ trustedRosterHash = roster_hash (sc_payload sc).

(** What the node verifies, the mirror verifies. *)
Lemma verifyCheckpointQuorum_native sc trusted :
  wf_signed sc → validated (roster_snapshot (sc_payload sc)) → verify sc = true → trusts trusted sc →
  verifyCheckpointQuorum (signed_checkpoint_to_proto sc) trusted = Ok tt.
Proof.
  intros ([Hr Hrr Hsh Hro Hpr Hwr Hhr Hreg] & Hs & Hl & Hsv) Hval Hv Ht.
  assert (wf_payload (sc_payload sc)) as Hwf by done.
  assert (length (roster_hash (sc_payload sc)) = 32) as Hrl by (rewrite Hro; apply sha256_length).
  destruct (proj1 (verify_spec _ _) Hv) as (Hz & pks & [Hd Hm Hq Hk Ha]). unfold verifyCheckpointQuorum. simpl.
  do 4 rewrite decide_False by (intros ?; intuition congruence).
  change ((λ m, _) <$> bt_entries N.le _) with (member_of <$> bt_entries N.le (roster_snapshot (sc_payload sc))).
  rewrite rosterById_native by done. simpl.
  change (sha256 (rosterCanonicalBytes _)) with (Registry.hash (roster_snapshot (sc_payload sc))).
  do 5 rewrite decide_False by (destruct Ht as [->| ->]; intros ?; intuition congruence).
  rewrite decide_False by done. unfold Registry.len in Hq. rewrite decide_False by lia.
  rewrite (proj2 (forallb_forall _ _)) by (intros s Hin; apply bool_decide_eq_true;
    rewrite Forall_forall in Hm; by apply Hm, list_elem_of_In). simpl.
  rewrite (signerKeys_native _ _ _ Hval Hk). simpl. rewrite same_sig, Hsv. simpl.
  unfold BlsWrapper.verify_aggregate in Ha. rewrite same_aggregate in Ha. apply andb_prop in Ha as [-> Ha].
  rewrite signing_bytes_native, Ha by done. done.
Qed.
End checkpoints.

(** ** State diffs *)

(** The limits on one diff. *)
Definition small_diff (d : StateDiff) : Prop :=
  diff_key d ≠ [] ∧ length (diff_key d) ≤ maxDiffKeyBytes ∧
  (N.of_nat (length (default [] (diff_value d))) ≤ maxDiffValueBytes)%N.

Definition key_lt (a b : StateDiff) : Prop := bytes_ltb (diff_key a) (diff_key b) = true.

(** On strictly ascending keys the loop checks the limits and nothing else. *)
Lemma validateDiffs_sorted seen prev ds :
  StronglySorted key_lt ds → Forall (λ d, diff_key d ∉ seen ∧ ∀ p, prev = Some p → bytes_ltb p (diff_key d) = true) ds →
  validateDiffs seen prev ds = Ok tt ↔ Forall small_diff ds.
Proof.
  intros Hs. revert seen prev. induction Hs as [|d ds Hs IH Hd]; intros seen prev Hp; [by split; [constructor|]|].
  apply Forall_cons in Hp as [[Hnew Hprev] Hp]. rewrite Forall_cons. cbn [validateDiffs]. unfold small_diff at 1.
  case_decide; [naive_solver|]. case_decide; [split; [done|intros [(_ & ? & _) _]; lia]|].
  case_decide; [split; [done|intros [(_ & _ & ?) _]; lia]|]. rewrite (decide_False (P := _ ∈ _)) by done.
  replace (match prev with Some p => negb (bytes_ltb p (diff_key d)) | None => false end) with false; cycle 1.
  { destruct prev as [p|]; [|done]. by rewrite (Hprev p). }
  rewrite IH; cycle 1.
  { rewrite Forall_forall in Hp, Hd |- *. intros d' Hin. destruct (Hp d' Hin) as [Hn _]. specialize (Hd d' Hin).
    split; [|by intros p [= <-]]. rewrite elem_of_union, elem_of_singleton. intros [Heq|?]; [|done].
    unfold key_lt, bytes_ltb in Hd. rewrite Heq in Hd. destruct (bytes_leb (diff_key d) (diff_key d)) eqn:Hb; [done|].
    destruct (total bytes_le (diff_key d) (diff_key d)) as [Hr|Hr]; unfold bytes_le in Hr; congruence. }
  split; [|by intros [_ ?]]. intros Hall. split; [|done]. split; [done|]. split; lia.
Qed.

Lemma diff_list_sorted (m : Diffs) : StronglySorted key_lt (diff_list m).
Proof.
  unfold diff_list. pose proof (bt_entries_keys_NoDup bytes_le m) as Hn. pose proof (bt_entries_sorted bytes_le m) as Hs.
  induction Hs as [|e l Hs IH He]; simpl; constructor; apply NoDup_cons in Hn as [Hin Hn]; [by apply IH|].
  apply Forall_fmap, Forall_forall. intros e' He'. rewrite Forall_forall in He. specialize (He _ He').
  unfold key_lt, bytes_ltb. simpl. destruct (bytes_leb e'.1 e.1) eqn:Hb; [|done]. destruct Hin.
  rewrite (anti_symm bytes_le e.1 e'.1 He Hb). by apply list_elem_of_fmap_2.
Qed.

Lemma ValidateStateDiffs_list (m : Diffs) :
  ValidateStateDiffs (diff_list m) = Ok tt ↔
  size m ≤ maxStateDiffsPerRound ∧ map_Forall (λ k v, small_diff (mkDiff k v)) m.
Proof.
  unfold ValidateStateDiffs. replace (length (diff_list m)) with (size m); cycle 1.
  { unfold diff_list. by rewrite length_fmap, length_bt_entries. }
  case_decide; [split; [done|intros [? _]; lia]|].
  rewrite validateDiffs_sorted; [|apply diff_list_sorted|apply Forall_true; intros d; split; [apply not_elem_of_empty|done]].
  unfold diff_list. rewrite Forall_fmap, Forall_forall. split.
  - intros Hall. split; [lia|]. intros k v Hk. apply (Hall (k, v)). by rewrite elem_of_bt_entries.
  - intros [_ Hall] [k v] Hin%elem_of_bt_entries. by apply Hall.
Qed.

(** ** File names *)

Lemma ParseUint_u64 s n : ParseUint s = Some n → parse_u64 s = Some n.
Proof. unfold ParseUint. destruct s as [|b s]; [done|]. intros Hp. by apply parse_u64_digits. Qed.

Lemma streamIndex_numbered name p s n : streamIndex name p s = Some n → numbered p s name = Some n.
Proof.
  unfold streamIndex, numbered. destruct (strip_prefix p name) as [rest|]; [simpl|done].
  destruct (strip_suffix s rest); [simpl|done]. apply ParseUint_u64.
Qed.

Lemma streamIndex_record n : is_u64 n → streamIndex (record_file_name n) (lit "round-") (lit ".rsf") = Some n.
Proof.
  intros Hn. unfold streamIndex, record_file_name. rewrite strip_prefix_app. simpl. rewrite strip_suffix_self. simpl.
  unfold ParseUint. destruct (show_u64 n) eqn:Hs; [by apply show_u64_ne in Hs|]. rewrite <- Hs.
  by apply parse_show_u64.
Qed.

(** ** Polling a directory *)

Module Poll.
(** prost and the Go library put the fields of a message in the same order. *)
Definition same_wire (P G : Protobuf) : Prop :=
  ∀ k m, Pb.fits k m → pb_encode (Protobuf := P) k m = pb_encode (Protobuf := G) k m.

Section poll.
Context `{Sha256, Ed25519, Bls, BlsKeygen, GoCrypto, !SameCrypto} (P G : Protobuf) (Hwire : same_wire P G).
Context `{Disk} (cfg : Config).

(** A round the mirror accepts: signed by a quorum of the roster it trusts,
    with the committed items, and within its resource limits. *)
Record mirrored (w : RecordDir.entry) : Prop := {
  mir_wf : RecordDir.wf_entry w;
  mir_valid : validated (roster_snapshot (sc_payload (RecordDir.w_signed w)));
  mir_verify : verify (RecordDir.w_signed w) = true;
  mir_root : try_compute_records_root (RecordDir.w_items w) = Ok (records_root (sc_payload (RecordDir.w_signed w)));
  mir_trusts : trusts (cfg_TrustedRosterHash cfg) (RecordDir.w_signed w);
  mir_count : (N.of_nat (length (RecordDir.w_items w)) ≤ maxRecordItemsPerFile)%N;
  mir_diffs : ValidateStateDiffs (RecordDir.w_diffs w) = Ok tt;
}.

Abbreviation rfile := (RecordDir.file (P := P)).
Abbreviation rend := (RecordDir.end_of (P := P)).
Abbreviation rstream := (RecordDir.stream (P := P)).

Lemma unmarshal_native k m : Pb.fits k m → unmarshalStrict (G := G) k (pb_encode (Protobuf := P) k m) = Ok m.
Proof.
  intros Hm. rewrite Hwire by done. unfold unmarshalStrict. rewrite pb_decode_encode by done. simpl.
  by rewrite decide_False by auto.
Qed.

Lemma running_hash_native start items :
  Forall Pb.item_fits items →
  foldl (λ cur it, ChainHash cur (ItemHash (pb_encode (Protobuf := G) Pb.KItem it))) start items =
  chain_items (pb_encode (Protobuf := P) Pb.KItem) start items.
Proof.
  intros Hi. revert start. induction Hi as [|it items Hit _ IH]; intros start; [done|]. simpl.
  rewrite IH, (Hwire Pb.KItem) by done. done.
Qed.

Lemma runningHash_native h : length h = 32 → runningHashOrErr (Some (digest_hash_object h)) = Ok h.
Proof. intros Hh. unfold runningHashOrErr. simpl. rewrite decide_False by naive_solver. done. Qed.

(** A file of a round with any items of the committed root. *)
Lemma VerifyRecordFile_items start w its :
  length start = 32 → mirrored w → Forall Pb.item_fits its →
  (N.of_nat (length its) ≤ maxRecordItemsPerFile)%N →
  ComputeRecordsRoot its = Ok (records_root (sc_payload (RecordDir.w_signed w))) →
  VerifyRecordFile (G := G) (pb_encode (Protobuf := P) Pb.KRecordFile
    (record_stream_file (P := P) (RecordDir.w_signed w) its (RecordDir.w_diffs w) start)) (cfg_TrustedRosterHash cfg)
    = Ok tt.
Proof.
  intros Hs [Hw Hval Hv _ Ht _ Hd] Hits Hc Hr. pose proof (RecordDir.wf_round _ Hw) as Hround.
  destruct Hw as [Hsc _ _ _ _]. unfold VerifyRecordFile.
  rewrite (unmarshal_native Pb.KRecordFile); cycle 1.
  { apply (read_record_stream_file_encode (P := P) _ (signed_checkpoint_to_proto (RecordDir.w_signed w)) start
      (chain_items (pb_encode (Protobuf := P) Pb.KItem) start its)); try done.
    - by apply length_chain_items.
    - by apply signed_checkpoint_fits. }
  cbn [mbind res_bind]. unfold record_stream_file.
  cbn [Pb.rf_version Pb.rf_items Pb.rf_start_running_hash Pb.rf_end_running_hash Pb.rf_checkpoint Pb.rf_round
       Pb.rf_state_diffs].
  rewrite decide_False by auto. rewrite decide_False by lia.
  rewrite !runningHash_native by (done || by apply length_chain_items). cbn [mbind res_bind].
  unfold verifyRunningHash. rewrite running_hash_native by done. rewrite decide_False by auto.
  cbn [mret res_ret mbind res_bind ok_or]. simpl Pb.pc_round. rewrite decide_False by auto. rewrite Hd.
  cbn [mbind res_bind]. unfold verifyCheckpointBinding. pose proof Hsc as ([_ Hrr Hsh Hro Hpr _ _ _] & _).
  assert (length (roster_hash (sc_payload (RecordDir.w_signed w))) = 32) as Hrl by (rewrite Hro; apply sha256_length).
  simpl. do 4 rewrite decide_False by congruence.
  rewrite Hr. simpl. rewrite decide_False by auto. by apply verifyCheckpointQuorum_native.
Qed.

Lemma VerifyRecordFile_native start w :
  length start = 32 → mirrored w →
  VerifyRecordFile (G := G) (pb_encode (Protobuf := P) Pb.KRecordFile (rfile start w)) (cfg_TrustedRosterHash cfg)
    = Ok tt.
Proof.
  intros Hs Hm. pose proof (mir_wf _ Hm) as [_ Hi _ _ _]. apply VerifyRecordFile_items; [done|done| | |].
  - by apply items_fit.
  - unfold RecordDir.items. rewrite length_fmap. apply Hm.
  - apply ComputeRecordsRoot_items, Hm.
Qed.

Lemma proof_file_fits w proofs :
  RecordDir.wf_entry w → try_build_records_proofs (RecordDir.w_items w) = Ok proofs →
  Pb.fits Pb.KProofFile (RecordDir.proof_file w proofs).
Proof.
  intros Hw Hp. pose proof (RecordDir.wf_round _ Hw). destruct Hw as [_ _ _ Hc _].
  split; [done|]. split; [done|]. simpl. apply Forall_fmap, Forall_lookup. intros i p Hi.
  destruct (RecordDir.w_items w) as [|item items] eqn:Hit; [by apply res_ret_Ok in Hp as <-|].
  apply res_bind_Ok in Hp as (hs & _ & (levels & _ & Hp)%res_bind_Ok).
  destruct (proofs_from_lookup _ _ _ _ Hp) as [Hlen Hps]. apply lookup_lt_Some in Hi as Hlt.
  simpl. rewrite (Hps _ _ Hi). simpl. rewrite Hlen in Hlt. unfold is_u32 in *. lia.
Qed.

Lemma sidecar_native start d ws w :
  RecordDir.holds (P := P) d ws → w ∈ ws → mirrored w →
  verifyProofSidecarLocal (G := G) d (rfile start w) = Ok tt.
Proof.
  intros Hd Hin Hm. unfold verifyProofSidecarLocal.
  change (RecordProofFileName _) with (record_proof_file_name (RecordDir.round w)).
  destruct (files d !! record_proof_file_name (RecordDir.round w)) as [bs|] eqn:Hb; [|done].
  destruct (RecordDir.holds_proofs _ _ Hd _ _ Hin Hb) as (proofs & Hp & ->).
  pose proof (mir_wf _ Hm) as Hw. simpl. unfold VerifyRecordsProofFileBytes.
  rewrite unmarshal_native by (by apply proof_file_fits). simpl. rewrite decide_False by auto.
  destruct Hw as [(Hpl & _) Hi Hpay Hc _]. destruct (records_total _ Hpay Hc) as (root & ps & Hrp & Hlen).
  pose proof Hrp as (root' & Hroot & (ps' & Hps & [= <- <-]%res_ret_Ok)%res_bind_Ok)%res_bind_Ok.
  rewrite Hp in Hps. injection Hps as <-. rewrite (mir_root _ Hm) in Hroot. injection Hroot as <-.
  apply VerifyRecordsProofFile_native; [done|done|apply Hpl].
Qed.

(** *** The state of a mirror that has ingested [ws] *)

Definition prev_of (ws : list RecordDir.entry) : option bytes :=
  (λ w, Payload.signing_bytes_hash (sc_payload (RecordDir.w_signed w))) <$> last ws.

(** Every checkpoint commits to the one before it, the first to zeros. *)
Definition chained (ws : list RecordDir.entry) : Prop :=
  ∀ i w, ws !! i = Some w →
    prev_checkpoint_hash (sc_payload (RecordDir.w_signed w)) = default zero_hash (prev_of (take i ws)).

Record ingested (ing : Ingester MemStore) (ws : list RecordDir.entry) : Prop := {
  ing_seen : seenRecords ing = list_to_set (RecordDir.round <$> ws);
  ing_flight : inFlightRecords ing = ∅;
  ing_end : lastRecordEnd ing = (λ _, rend ws) <$> last ws;
  ing_prev : expectedPrev ing = prev_of ws;
  ing_records : ms_records (store ing) = rstream CHAIN_SEED ws;
  ing_rounds : ms_seenRounds (store ing) = list_to_set (RecordDir.round <$> ws);
}.

Lemma checkPrev_native ing ws w commit :
  expectedPrev ing = prev_of ws → RecordDir.wf_entry w →
  prev_checkpoint_hash (sc_payload (RecordDir.w_signed w)) = default zero_hash (prev_of ws) →
  checkPrevOf (S := MemStore) (rfile (rend ws) w) commit ing =
  (Ok tt, if commit
          then mkIngester (seenRecords ing) (seenEvents ing) (inFlightRecords ing) (inFlightEvents ing)
                 (lastRecordEnd ing) (lastEventEnd ing) (prev_of (ws ++ [w])) (store ing)
          else ing).
Proof.
  intros He [(Hpl & _) _ _ _ _] Hp. unfold checkPrevOf, checkPrev. simpl.
  rewrite decide_False by (destruct Hpl; congruence). rewrite He, Hp.
  change zero_hash with (be_bytes 32 0). rewrite decide_False by (by intros []). f_equal.
  destruct commit; [|done]. unfold prev_of. rewrite last_snoc. simpl. unfold CheckpointSigningBytesHash.
  by rewrite signing_bytes_native.
Qed.

Lemma put_record_new (m : MemStore) f :
  Pb.rf_round f ∉ ms_seenRounds m →
  PutRecord f m = (Ok tt, {| ms_events := ms_events m; ms_records := ms_records m ++ [f];
    ms_seenRounds := {[ Pb.rf_round f ]} ∪ ms_seenRounds m; ms_seenEvents := ms_seenEvents m |}).
Proof. intros Hf. simpl. unfold st_modify, mem_put_record. by rewrite decide_False. Qed.

(** The next round is accepted. *)
Lemma acceptRecord_native d ws w suf ing :
  RecordDir.holds (P := P) d (ws ++ w :: suf) → mirrored w →
  prev_checkpoint_hash (sc_payload (RecordDir.w_signed w)) = default zero_hash (prev_of ws) →
  lastRecordEnd ing = (λ _, rend ws) <$> last ws → expectedPrev ing = prev_of ws →
  RecordDir.round w ∉ ms_seenRounds (store ing) →
  acceptRecord (G := G) cfg d (RecordDir.round w) (record_file_name (RecordDir.round w)) ing =
  (Ok tt, mkIngester (seenRecords ing) (seenEvents ing) (inFlightRecords ing) (inFlightEvents ing)
            (Some (rend (ws ++ [w]))) (lastEventEnd ing) (prev_of (ws ++ [w]))
            {| ms_events := ms_events (store ing); ms_records := ms_records (store ing) ++ [rfile (rend ws) w];
               ms_seenRounds := {[ RecordDir.round w ]} ∪ ms_seenRounds (store ing);
               ms_seenEvents := ms_seenEvents (store ing) |}).
Proof.
  intros Hd Hm Hp He Hx Hnew. pose proof (mir_wf _ Hm) as Hw. pose proof (RecordDir.length_end_of (P := P) ws) as Hl.
  pose proof (RecordDir.holds_file _ _ Hd (length ws) w) as Hf. rewrite lookup_app_r, Nat.sub_diag in Hf by done.
  specialize (Hf eq_refl). rewrite take_app_length in Hf.
  destruct (RecordDir.read_file_bytes (P := P) _ w Hl Hw) as [Hfit _]. unfold acceptRecord.
  rewrite (st_lift_step _ _ _ (pb_encode (Protobuf := P) Pb.KRecordFile (rfile (rend ws) w))) by (by rewrite Hf).
  rewrite (st_lift_step _ _ _ (rfile (rend ws) w)) by exact (unmarshal_native Pb.KRecordFile _ Hfit).
  rewrite (decide_False (P := Pb.rf_round _ ≠ _)) by auto.
  rewrite (st_lift_step _ _ _ (rend ws)) by exact (runningHash_native _ Hl).
  rewrite (st_lift_step _ _ _ (rend (ws ++ [w]))) by (rewrite RecordDir.end_of_snoc;
    exact (runningHash_native _ (length_chain_items _ _ (RecordDir.items w) Hl))).
  rewrite (st_bind_step _ _ _ ing ing) by done. cbn beta.
  rewrite decide_False; cycle 1.
  { rewrite He. destruct ws as [|w0 ws _] using rev_ind; [by intros []|]. rewrite last_snoc. by intros []. }
  rewrite (st_lift_step _ _ _ tt) by (by apply VerifyRecordFile_native).
  rewrite (st_bind_step _ _ _ tt ing) by (by rewrite (checkPrev_native _ ws)).
  rewrite (st_lift_step _ _ _ tt) by exact (mir_diffs _ Hm).
  rewrite (st_lift_step _ _ _ tt) by (apply (sidecar_native _ d (ws ++ w :: suf)); [done|set_solver|done]).
  erewrite st_bind_step by (unfold st_zoom; by rewrite put_record_new).
  erewrite st_bind_step by (by rewrite (checkPrev_native _ ws)). done.
Qed.

Lemma ingestRecord_native d ws w suf ing :
  RecordDir.holds (P := P) d (ws ++ w :: suf) → mirrored w →
  prev_checkpoint_hash (sc_payload (RecordDir.w_signed w)) = default zero_hash (prev_of ws) →
  ingested ing ws →
  ∃ ing', ingestRecord (G := G) cfg d (RecordDir.round w) (record_file_name (RecordDir.round w)) ing = (Ok tt, ing') ∧
    ingested ing' (ws ++ [w]).
Proof.
  intros Hd Hm Hp [Hs Hfl He Hx Hr Hsr].
  assert (RecordDir.round w ∉ (list_to_set (RecordDir.round <$> ws) : gset N)) as Hnew.
  { rewrite elem_of_list_to_set. pose proof (RecordDir.holds_sorted _ _ Hd) as Hso%sorted_lt_NoDup.
    rewrite fmap_app in Hso. apply NoDup_app in Hso as (_ & Hdis & _). intros Hin. apply (Hdis _ Hin). by constructor. }
  unfold ingestRecord. rewrite decide_False by (rewrite Hs, Hfl; set_solver).
  rewrite (acceptRecord_native d ws w suf) by (done || simpl; by rewrite Hsr).
  eexists. split; [done|]. split; simpl.
  - rewrite Hs, fmap_app, list_to_set_app_L. simpl. set_solver.
  - rewrite Hfl. set_solver.
  - by rewrite last_snoc.
  - done.
  - by rewrite Hr, RecordDir.stream_snoc.
  - rewrite Hsr, fmap_app, list_to_set_app_L. simpl. set_solver.
Qed.

(** Polling skips what is stored and ingests the rest, in order. *)
Lemma ingest_seen d ws pre ing :
  ingested ing ws → pre ⊆ RecordDir.round <$> ws →
  st_for ((λ n, (n, record_file_name n)) <$> pre) (λ e, _ ← logged (ingestRecord (G := G) cfg d e.1 e.2); mret tt) ing
    = (Ok tt, ing).
Proof.
  intros Hi. induction pre as [|n pre IH]; intros Hsub; [done|]. simpl.
  rewrite (st_bind_step _ _ _ tt ing); [apply IH; set_solver|]. erewrite st_bind_step; [done|].
  unfold logged, ingestRecord. rewrite decide_True; [done|]. left. rewrite (ing_seen _ _ Hi), elem_of_list_to_set.
  set_solver.
Qed.

Lemma ingest_rest d ws suf ing :
  RecordDir.holds (P := P) d (ws ++ suf) → Forall mirrored suf → chained (ws ++ suf) → ingested ing ws →
  ∃ ing', st_for ((λ n, (n, record_file_name n)) <$> (RecordDir.round <$> suf))
      (λ e, _ ← logged (ingestRecord (G := G) cfg d e.1 e.2); mret tt) ing = (Ok tt, ing') ∧ ingested ing' (ws ++ suf).
Proof.
  revert ws ing. induction suf as [|w suf IH]; intros ws ing Hd Hm Hc Hi.
  { exists ing. by rewrite app_nil_r. }
  apply Forall_cons in Hm as [Hw Hm]. destruct (ingestRecord_native d ws w suf ing Hd Hw) as (ing1 & Hs & Hi1); [|done|].
  { rewrite (Hc (length ws)); [by rewrite take_app_length|]. by rewrite lookup_app_r, Nat.sub_diag by done. }
  destruct (IH (ws ++ [w]) ing1) as (ing' & Hf & Hi'); [by rewrite <- (assoc_L (++))..|done|by rewrite <- (assoc_L (++))|done|].
  exists ing'. rewrite <- (assoc_L (++)) in Hi'. split; [|done]. simpl.
  rewrite (st_bind_step _ _ _ tt ing1); [done|]. erewrite st_bind_step; [done|]. unfold logged. by rewrite Hs.
Qed.

(** *** Event files do not touch the records *)

Definition record_part (ing : Ingester MemStore) :=
  (seenRecords ing, inFlightRecords ing, lastRecordEnd ing, expectedPrev ing, ms_records (store ing),
   ms_seenRounds (store ing)).

Definition same_records (a b : Ingester MemStore) : Prop := record_part b = record_part a.

#[local] Instance same_records_preorder : PreOrder same_records.
Proof. split; [done|]. unfold same_records. intros a b c Hab Hbc. congruence. Qed.

Lemma put_events_records m f :
  ms_records (foldl mem_put_event m f) = ms_records m ∧ ms_seenRounds (foldl mem_put_event m f) = ms_seenRounds m.
Proof.
  revert m. induction f as [|ev f IH]; intros m; [done|]. simpl. destruct (IH (mem_put_event m ev)) as [-> ->].
  unfold mem_put_event. by case_decide.
Qed.

Lemma acceptEvents_records d name : preserves same_records (acceptEvents (G := G) (S := MemStore) cfg d name).
Proof.
  unfold acceptEvents. do 3 (apply preserves_bind; [apply _|apply preserves_lift, _|intros ?]).
  case_decide; [|apply preserves_fail, _]. do 2 (apply preserves_bind; [apply _|apply preserves_lift, _|intros ?]).
  apply preserves_bind; [apply _|apply preserves_get, _|intros ing]. case_decide; [apply preserves_fail, _|].
  apply preserves_bind; [apply _|apply preserves_lift, _|intros ?]. apply preserves_bind; [apply _| |intros _].
  - intros s. unfold st_zoom. simpl. unfold same_records, record_part. simpl.
    by destruct (put_events_records (store s) (Pb.ef_events a0)) as [-> ->].
  - by apply preserves_modify.
Qed.

Lemma ingest_events_records d l :
  preserves same_records (st_for l (λ e, _ ← logged (ingestEvent (G := G) (S := MemStore) cfg d e.1 e.2); mret tt)
    : stM (Ingester MemStore) Empty_set unit).
Proof.
  apply preserves_for; [apply _|]. intros [index name].
  apply preserves_bind; [apply _| |intros ?; apply preserves_ret, _].
  intros s. unfold logged, ingestEvent. simpl. case_decide; [done|].
  pose proof (acceptEvents_records d name (setEventClaims (seenEvents s) ({[index]} ∪ inFlightEvents s) s)) as Hr.
  destruct (acceptEvents _ _ _ _) as [[] ing]; exact Hr.
Qed.

(** One poll catches up with the directory. *)
Lemma poll_native `{HashOrder} d ws suf ing :
  RecordDir.holds (P := P) d (ws ++ suf) → Forall mirrored suf → chained (ws ++ suf) → ingested ing ws →
  ingested (RunOnce (G := G) cfg d ing).2 (ws ++ suf).
Proof.
  intros Hd Hm Hc Hi. unfold RunOnce, listStreamFiles.
  assert (numbers (λ name, streamIndex name (lit "round-") (lit ".rsf")) record_file_name (files d)
    (RecordDir.round <$> ws ++ suf)) as Hn.
  { destruct (RecordDir.holds_numbers _ _ Hd) as [Hs Hname Ho]. split; [done| |].
    - intros n Hin. destruct (Hname _ Hin). split; [|done]. apply streamIndex_record.
      apply list_elem_of_fmap in Hin as (w & -> & Hw). pose proof (RecordDir.holds_wf _ _ Hd) as Hwf.
      rewrite Forall_forall in Hwf. by apply RecordDir.wf_round, Hwf.
    - intros f n Hf Hx%streamIndex_numbered. by apply Ho. }
  rewrite (listed_numbers _ _ _ _ Hn), fmap_app, fmap_app.
  destruct (ingest_rest d ws suf ing Hd Hm Hc Hi) as (ing1 & Hf & Hi1).
  rewrite (st_bind_step _ _ _ tt ing1).
  - pose proof (ingest_events_records d (merge_sort by_number (omap (λ e, (λ n, (n, e.1)) <$>
      streamIndex e.1 (lit "events-") (lit ".esf")) (hm_iter (files d)))) ing1) as Hs.
    injection Hs as H1' H2' H3' H4' H5' H6'. destruct Hi1 as [I1 I2 I3 I4 I5 I6].
    split; [by rewrite H1'|by rewrite H2'|by rewrite H3'|by rewrite H4'|by rewrite H5'|by rewrite H6'].
  - rewrite st_for_app. rewrite (st_bind_step _ _ _ tt ing); [done|]. by eapply ingest_seen.
Qed.
End poll.
End Poll.
