(* ===== verification/MirrorSafety.v ===== *)
(** * What the mirror node accepts

    Taking accepted files apart: a checkpoint that passes the mirror is signed
    by a quorum of the roster it embeds, a record file that is stored continues
    the chain of the files stored before, and its items are those the signed
    root commits to.  Nothing is assumed of the directory that is polled. *)

From S2P Require Import Prelude Codec External Primitives Membership Graph Order Insert Retain Reconnect.
From S2P Require Import Checkpoint CheckpointFacts CheckpointQuorum MerkleLog SparseMerkle Did Op State Executor.
From S2P Require Import Stream StreamFacts StreamRecords Mirror MirrorFacts.

(** Takes a successful check apart. *)
Ltac checked H :=
  lazymatch type of H with
  | (if decide ?Q then Err _ else _) = Ok _ => case_decide; [discriminate H|]
  | (if negb ?b then Err _ else _) = Ok _ => destruct b eqn:?; [cbn [negb] in H|discriminate H]
  end.

Section verify.
Context `{Sha256, GoCrypto} `{G : Protobuf}.

(** The roster a checkpoint embeds and the keys of its signers. *)
Record quorum (cp : Pb.SignedCheckpoint) (trusted : bytes) (roster : MembershipRegistry) (pks : list bytes) : Prop := {
  q_members : rosterById ∅ (Pb.pc_roster_snapshot cp) = Ok roster;
  q_hash : sha256 (rosterCanonicalBytes roster) = Pb.pc_roster_hash cp;
  q_trusted : trusted ≠ [] → Pb.pc_roster_hash cp = trusted;
  q_distinct : NoDup (Pb.pc_signers cp);
  q_majority : size roster * 2 < length (Pb.pc_signers cp) * 3;
  q_known : Forall (λ s, is_Some (roster !! s)) (Pb.pc_signers cp);
  q_keys : signerKeys roster (merge_sort N.le (Pb.pc_signers cp)) = Ok pks;
  q_sig : go_sig_validate (Pb.pc_aggregate_sig cp) = true;
  q_signed : go_fast_aggregate_verify (Pb.pc_aggregate_sig cp) (CheckpointSigningBytes cp)
               BlsWrapper.CHECKPOINT_DST pks = true;
}.

Lemma verifyCheckpointQuorum_Ok cp trusted :
  verifyCheckpointQuorum cp trusted = Ok tt → ∃ roster pks, quorum cp trusted roster pks.
Proof.
  unfold verifyCheckpointQuorum. intros Hq. do 4 checked Hq. apply res_bind_Ok in Hq as (roster & Hm & Hq).
  do 3 checked Hq. checked Hq. checked Hq. checked Hq. checked Hq. checked Hq.
  apply res_bind_Ok in Hq as (pks & Hk & Hq). do 2 checked Hq.
  destruct (go_fast_aggregate_verify _ _ _ _) eqn:Hv; [|done]. exists roster, pks.
  split; [done|done|intros Ht; apply dec_stable; naive_solver|done|lia| |done..].
  apply Forall_forall. intros s Hs. apply (bool_decide_eq_true (is_Some (roster !! s))).
  apply list_elem_of_In in Hs. rewrite forallb_forall in Heqb. by apply Heqb.
Qed.

Lemma verifyRunningHash_Ok k start end_ (items : list (Pb.msg k)) :
  verifyRunningHash k start end_ items = Ok tt →
  end_ = foldl (λ cur it, ChainHash cur (ItemHash (pb_encode k it))) start items.
Proof. unfold verifyRunningHash. by case_decide. Qed.

Lemma VerifyRecordFile_Ok raw trusted f :
  unmarshalStrict Pb.KRecordFile raw = Ok f → VerifyRecordFile raw trusted = Ok tt →
  ∃ cp roster pks, Pb.rf_checkpoint f = Some cp ∧ Pb.pc_round cp = Pb.rf_round f ∧
    length (Pb.pc_records_root cp) = 32 ∧ ComputeRecordsRoot (Pb.rf_items f) = Ok (Pb.pc_records_root cp) ∧
    quorum cp trusted roster pks.
Proof.
  intros Hf. unfold VerifyRecordFile. rewrite Hf. cbn [mbind res_bind]. intros Hv. do 2 checked Hv.
  apply res_bind_Ok in Hv as (start & _ & Hv). apply res_bind_Ok in Hv as (end_ & _ & Hv).
  apply res_bind_Ok in Hv as (_ & _ & Hv). apply res_bind_Ok in Hv as (cp & Hcp%ok_or_Ok & Hv). checked Hv.
  apply res_bind_Ok in Hv as (_ & _ & Hv). unfold verifyCheckpointBinding in Hv. do 4 checked Hv.
  apply res_bind_Ok in Hv as (root & Hr & Hv). checked Hv.
  destruct (verifyCheckpointQuorum_Ok _ _ Hv) as (roster & pks & Hq). exists cp, roster, pks.
  split; [done|]. split; [done|]. split; [done|]. split; [|done]. rewrite Hr. by f_equal.
Qed.

Lemma VerifyRecordFile_diffs raw trusted f :
  unmarshalStrict Pb.KRecordFile raw = Ok f → VerifyRecordFile raw trusted = Ok tt →
  ValidateStateDiffs (Pb.rf_state_diffs f) = Ok tt.
Proof.
  intros Hf. unfold VerifyRecordFile. rewrite Hf. cbn [mbind res_bind]. intros Hv. do 2 checked Hv.
  do 3 (apply res_bind_Ok in Hv as (? & _ & Hv)). apply res_bind_Ok in Hv as (cp & _ & Hv). checked Hv.
  by apply res_bind_Ok in Hv as ([] & ? & _).
Qed.
End verify.

Section accept.
Context `{Sha256, GoCrypto} `{G : Protobuf} {S : Type} `{Store S}.

(** A file continues the stream that ends with [end_before] and [prev]. *)
Record accepted (cfg : Config) (index : N) (end_before prev : option bytes) (f : Pb.RecordStreamFile)
    (cp : Pb.SignedCheckpoint) (end_ : bytes) : Prop := {
  acc_verified : ∃ raw, unmarshalStrict Pb.KRecordFile raw = Ok f ∧
    VerifyRecordFile raw (cfg_TrustedRosterHash cfg) = Ok tt;
  acc_round : Pb.rf_round f = index;
  acc_start : runningHashOrErr (Pb.rf_start_running_hash f) = Ok (default ChainSeed end_before);
  acc_end : runningHashOrErr (Pb.rf_end_running_hash f) = Ok end_;
  acc_checkpoint : Pb.rf_checkpoint f = Some cp;
  acc_prev : Pb.pc_prev_checkpoint_hash cp = default (replicate 32 x00) prev;
}.

Lemma checkPrev_Ok (cp : Pb.SignedCheckpoint) commit (ing ing' : Ingester S) :
  checkPrev cp commit ing = (Ok tt, ing') →
  Pb.pc_prev_checkpoint_hash cp = default (replicate 32 x00) (expectedPrev ing) ∧
  ing' = if commit
         then mkIngester (seenRecords ing) (seenEvents ing) (inFlightRecords ing) (inFlightEvents ing)
                (lastRecordEnd ing) (lastEventEnd ing) (Some (CheckpointSigningBytesHash cp)) (store ing)
         else ing.
Proof.
  unfold checkPrev. case_decide; [done|]. case_decide; [done|]. by intros [= <-].
Qed.

Lemma acceptRecord_Ok cfg d index name (ing ing' : Ingester S) :
  acceptRecord cfg d index name ing = (Ok tt, ing') →
  ∃ f cp end_ s', accepted cfg index (lastRecordEnd ing) (expectedPrev ing) f cp end_ ∧
    (∃ raw, files d !! name = Some raw ∧ unmarshalStrict Pb.KRecordFile raw = Ok f) ∧
    PutRecord f (store ing) = (Ok tt, s') ∧
    ing' = mkIngester (seenRecords ing) (seenEvents ing) (inFlightRecords ing) (inFlightEvents ing) (Some end_)
             (lastEventEnd ing) (Some (CheckpointSigningBytesHash cp)) s'.
Proof.
  unfold acceptRecord. intros Ha. st_inv Ha. rename a into raw, Hl into Hraw. st_inv Ha. rename a into f, Hl into Hf.
  case_decide as Hr; [discriminate Ha|].
  st_inv Ha. rename a into start, Hl into Hs. st_inv Ha. rename a into end_, Hl into He. st_inv Ha.
  case_decide as Hst; [discriminate Ha|]. st_inv Ha. rename Hl into Hv. destruct a.
  destruct (VerifyRecordFile_Ok _ _ _ Hf Hv) as (cp & roster & pks & Hcp & _). unfold checkPrevOf in Ha.
  rewrite Hcp in Ha. st_inv Ha. destruct a. apply checkPrev_Ok in Hr0 as [Hprev ->].
  st_inv Ha. st_inv Ha. st_inv Ha. destruct a. apply st_bind_Ok in Ha as (u & s2 & Hc & Ha).
  unfold st_zoom in Hr0. destruct (PutRecord f (store ing)) as [r s'] eqn:Hput. injection Hr0 as -> <-.
  destruct u, a1. apply checkPrev_Ok in Hc as [_ ->]. injection Ha as <-. exists f, cp, end_, s'.
  split; [|split; [apply ok_or_Ok in Hraw; by exists raw|done]].
  split; [by exists raw|done|by rewrite <- Hst|done|done|done].
Qed.

(** A store that fails is unchanged. *)
Definition put_atomic : Prop := ∀ f (s : S), (PutRecord f s).1 = Ok tt ∨ (PutRecord f s).2 = s.

Lemma st_lift_cases {T E A B} (m : T → res E A) (g : A → stM T E B) s :
  (st_lift m ≫= g) s = match m s with Ok a => g a s | Err e => (Err e, s) | Crash c => (Crash c, s) end.
Proof. unfold mbind, stM_bind, st_lift. by destruct (m s). Qed.

Lemma st_bind_cases {T E A B} (m : stM T E A) (g : A → stM T E B) s :
  (m ≫= g) s = match m s with
               | (Ok a, s') => g a s'
               | (Err e, s') => (Err e, s')
               | (Crash c, s') => (Crash c, s')
               end.
Proof. done. Qed.

Lemma checkPrevOf_dry f (ing : Ingester S) : (checkPrevOf f false ing).2 = ing.
Proof. unfold checkPrevOf, checkPrev. destruct (Pb.rf_checkpoint f); [|done]. by repeat case_decide. Qed.

(** The second check of the chain repeats the first. *)
Lemma checkPrevOf_again f (ing : Ingester S) s :
  (checkPrevOf f false ing).1 = Ok tt → (checkPrevOf f true (setStore s ing)).1 = Ok tt.
Proof.
  unfold checkPrevOf, checkPrev. destruct (Pb.rf_checkpoint f); [|done]. simpl. by repeat case_decide.
Qed.

Lemma acceptRecord_refused cfg d index name (ing : Ingester S) :
  put_atomic → (acceptRecord cfg d index name ing).1 ≠ Ok tt → (acceptRecord cfg d index name ing).2 = ing.
Proof.
  intros Hat. unfold acceptRecord. rewrite st_lift_cases. destruct (ok_or _ _) as [raw| |]; [|done..].
  rewrite st_lift_cases. destruct (unmarshalStrict _ _) as [f| |]; [|done..]. case_decide; [done|].
  rewrite st_lift_cases. destruct (hashFromPB _) as [start| |]; [|done..].
  rewrite st_lift_cases. destruct (hashFromPB _) as [end_| |]; [|done..].
  rewrite (st_bind_step _ _ _ ing ing) by done. cbn beta. case_decide; [done|].
  rewrite st_lift_cases. destruct (VerifyRecordFile _ _) as [[]| |]; [|done..].
  pose proof (checkPrevOf_dry f ing) as Hdry. pose proof (checkPrevOf_again f ing) as Hagain.
  rewrite st_bind_cases. destruct (checkPrevOf f false ing) as [[[]| |] ing1]; simpl in Hdry; subst ing1;
    [|done..]. rewrite st_lift_cases. destruct (ValidateStateDiffs _) as [[]| |]; [|done..].
  rewrite st_lift_cases. destruct (verifyProofSidecarLocal _ _) as [[]| |]; [|done..].
  specialize (Hat f (store ing)). rewrite st_bind_cases. unfold st_zoom.
  destruct (PutRecord f (store ing)) as [[[]| |] s'] eqn:Hput; simpl in Hat.
  - specialize (Hagain s' eq_refl). rewrite st_bind_cases.
    by destruct (checkPrevOf f true (setStore s' ing)) as [[[]| |] ing2].
  - intros _. destruct Hat as [?| ->]; [done|]. by destruct ing.
  - intros _. destruct Hat as [?| ->]; [done|]. by destruct ing.
Qed.
End accept.

(** ** A mirror that is started again *)

Section restart.
Context `{Sha256, GoCrypto} `{G : Protobuf} {S : Type} `{Store S}.

Lemma highest_spec (l : list Pb.RecordStreamFile) :
  match highest l with
  | None => l = []
  | Some best => best ∈ l ∧ Forall (λ f, Pb.rf_round f ≤ Pb.rf_round best)%N l
  end.
Proof.
  induction l as [|f l IH] using rev_ind; [done|]. unfold highest in *. rewrite foldl_app. simpl.
  destruct (foldl _ _ l) as [best|]; [|subst l; simpl; split; [by constructor|by repeat constructor]].
  destruct IH as [Hin Hle]. case_decide as Hlt.
  - split; [set_solver|]. apply Forall_app_2; [|by repeat constructor]. eapply Forall_impl; [exact Hle|].
    simpl. intros f0. lia.
  - split; [set_solver|]. apply Forall_app_2; [done|]. repeat constructor. lia.
Qed.

(** A file that commits to another checkpoint than the one expected is refused
    and nothing changes. *)
Lemma ingestRecord_wrong_prev cfg d index name (ing : Ingester S) raw f cp :
  put_atomic (S := S) → index ∉ seenRecords ing → inFlightRecords ing = ∅ →
  files d !! name = Some raw → unmarshalStrict Pb.KRecordFile raw = Ok f → Pb.rf_checkpoint f = Some cp →
  Pb.pc_prev_checkpoint_hash cp ≠ default (replicate 32 x00) (expectedPrev ing) →
  ∃ r, ingestRecord cfg d index name ing = (r, ing) ∧ r ≠ Ok tt.
Proof.
  intros Hat Hs Hfl Hraw Hf Hcp Hne. unfold ingestRecord. rewrite decide_False by set_solver.
  set (ing1 := setRecordClaims _ _ ing). pose proof (acceptRecord_refused cfg d index name ing1 Hat) as Href.
  destruct (acceptRecord cfg d index name ing1) as [r ing2] eqn:Ha. simpl in Href. destruct r as [[]|e|c].
  - destruct (acceptRecord_Ok _ _ _ _ _ _ Ha) as (f' & cp' & end_ & s' & Hacc & (raw' & Hraw' & Hf') & _).
    rewrite Hraw in Hraw'. injection Hraw' as <-. assert (f' = f) as -> by (unfold Pb.msg in *; congruence).
    destruct Hne. pose proof (acc_checkpoint _ _ _ _ _ _ _ Hacc) as Hcp'. rewrite Hcp in Hcp'.
    injection Hcp' as <-. apply (acc_prev _ _ _ _ _ _ _ Hacc).
  - rewrite Href by done. exists (Err e). split; [|done]. f_equal. unfold ing1, setRecordClaims. destruct ing. simpl in *.
    f_equal. set_solver.
  - rewrite Href by done. exists (Crash c). split; [|done]. f_equal. unfold ing1, setRecordClaims. destruct ing. simpl in *.
    f_equal. set_solver.
Qed.
End restart.

(** ** The records of a mirror, whatever it polls *)

Section stored.
Context `{Sha256, GoCrypto} `{G : Protobuf} (cfg : Config).

Definition last_end (l : list Pb.RecordStreamFile) : option bytes :=
  f ← last l; res_ok (runningHashOrErr (Pb.rf_end_running_hash f)).

Definition last_prev (l : list Pb.RecordStreamFile) : option bytes :=
  f ← last l; CheckpointSigningBytesHash <$> Pb.rf_checkpoint f.

(** Every file was accepted as the continuation of those before it. *)
Inductive linked : list Pb.RecordStreamFile → Prop :=
| linked_nil : linked []
| linked_snoc l f cp end_ :
    linked l → accepted cfg (Pb.rf_round f) (last_end l) (last_prev l) f cp end_ →
    Pb.rf_round f ∉ Pb.rf_round <$> l → linked (l ++ [f]).

Record mem_ok (ing : Ingester MemStore) : Prop := {
  mo_linked : linked (ms_records (store ing));
  mo_end : lastRecordEnd ing = last_end (ms_records (store ing));
  mo_prev : expectedPrev ing = last_prev (ms_records (store ing));
  mo_rounds : ms_seenRounds (store ing) = list_to_set (Pb.rf_round <$> ms_records (store ing));
  mo_seen : seenRecords ing = ms_seenRounds (store ing);
}.

Lemma new_ok : mem_ok (NewIngester NewMemStore).
Proof. split; [constructor|done..]. Qed.

Lemma mem_atomic : put_atomic (S := MemStore).
Proof. intros f s. by left. Qed.

Lemma ingestRecord_ok d index name ing :
  mem_ok ing → mem_ok (ingestRecord cfg d index name ing).2.
Proof.
  intros Hok. unfold ingestRecord. case_decide as Hs; [done|]. set (ing1 := setRecordClaims _ _ ing).
  pose proof (acceptRecord_refused cfg d index name ing1 mem_atomic) as Href.
  destruct (acceptRecord cfg d index name ing1) as [r ing2] eqn:Ha. simpl in Href.
  destruct r as [[]| |]; [|rewrite Href by done; destruct Hok; by split..].
  destruct (acceptRecord_Ok _ _ _ _ _ _ Ha) as (f & cp & end_ & s' & Hacc & _ & Hput & ->).
  destruct Hok as [Hl He Hp Hr Hsn]. change (store ing1) with (store ing) in Hput. simpl in Hacc. pose proof (acc_round _ _ _ _ _ _ _ Hacc) as Hround.
  assert (Pb.rf_round f ∉ ms_seenRounds (store ing)) as Hnew by (rewrite Hround, <- Hsn; naive_solver).
  rewrite Poll.put_record_new in Hput by done. injection Hput as <-. rewrite He, Hp in Hacc.
  split; simpl.
  - eapply linked_snoc; [done|by rewrite Hround|]. by rewrite Hr, elem_of_list_to_set in Hnew.
  - unfold last_end. rewrite last_snoc. simpl. by rewrite (acc_end _ _ _ _ _ _ _ Hacc).
  - unfold last_prev. rewrite last_snoc. simpl. by rewrite (acc_checkpoint _ _ _ _ _ _ _ Hacc).
  - rewrite Hr, fmap_app, list_to_set_app_L. simpl. set_solver.
  - by rewrite Hround, Hsn.
Qed.

Lemma poll_ok `{HashOrder} d ing : mem_ok ing → mem_ok (RunOnce cfg d ing).2.
Proof.
  assert (∀ l ing, mem_ok ing →
    mem_ok (st_for l (λ e, _ ← logged (ingestRecord cfg d e.1 e.2); mret tt) ing : res Empty_set unit * _).2) as Hrec.
  { induction l as [|e l IH]; intros i Hi; [done|]. simpl. pose proof (ingestRecord_ok d e.1 e.2 i Hi) as Hi1.
    rewrite !st_bind_cases. unfold logged. destruct (ingestRecord cfg d e.1 e.2 i) as [[[]| |] i1]; [..|done]; by apply IH. }
  intros Hi. unfold RunOnce. rewrite st_bind_cases. specialize (Hrec (listStreamFiles d (lit "round-") (lit ".rsf")) _ Hi).
  destruct (st_for _ _ ing) as [[[]| |] ing1]; [|done..]. simpl in Hrec.
  pose proof (Poll.ingest_events_records G cfg d (listStreamFiles d (lit "events-") (lit ".esf")) ing1) as Hs.
  injection Hs as H1' H2' H3' H4' H5' H6'. destruct Hrec as [I1 I2 I3 I4 I5].
  split; [by rewrite H5'|by rewrite H3', H5'|by rewrite H4', H5'|by rewrite H6', H5'|by rewrite H1', H6'].
Qed.
End stored.

(** ** In terms of the node *)

Section node.
Context `{Sha256, Ed25519, Bls, BlsKeygen, GoCrypto, !SameCrypto}.

Definition wide (reg : MembershipRegistry) : Prop :=
  map_Forall (λ node m, is_u64 node ∧ length m.1 = 32 ∧ length m.2 = 48) reg.

Lemma rosterById_wide acc members roster :
  wide acc → Forall (λ m, is_u64 (Pb.rm_node_id m)) members → rosterById acc members = Ok roster → wide roster.
Proof.
  intros Ha Hm. revert acc Ha. induction Hm as [|m members Hid _ IH]; intros acc Ha; simpl; [by intros <-%res_ret_Ok|].
  case_decide; [done|]. case_decide; [done|]. apply IH. by apply map_Forall_insert_2.
Qed.

(** Registries of the right widths are told apart by their bytes, whether or
    not the keys decompress. *)
Lemma wide_to_bytes_inj r1 r2 : wide r1 → wide r2 → Registry.to_bytes r1 = Registry.to_bytes r2 → r1 = r2.
Proof.
  assert (∀ r, wide r → wf_registry (H := toy_ed25519) r) as Hw.
  { intros r Hr node m Hm. destruct (Hr _ _ Hm) as (? & ? & ?). by split. }
  intros Hr1%Hw Hr2%Hw. by apply (RegistryFacts.to_bytes_inj (H := toy_ed25519)).
Qed.

Lemma wf_wide reg : wf_registry reg → wide reg.
Proof. intros Hr node m Hm. by destruct (Hr _ _ Hm) as (? & ? & _ & ?). Qed.

(** The trusted hash fixes the roster. *)
Lemma roster_trusted reg roster :
  wf_registry reg → wide roster → sha256 (rosterCanonicalBytes roster) = Registry.hash reg →
  roster = reg ∨ sha256_collision.
Proof.
  intros Hr Hw Hh. apply collides in Hh as [Heq|?]; [left|by right].
  apply wide_to_bytes_inj; [done|by apply wf_wide|done].
Qed.

Lemma signerKeys_node reg ids pks :
  Forall (λ s, is_Some (reg !! s)) ids → signerKeys reg ids = Ok pks → mapM (signer_key reg) ids = Some pks.
Proof.
  intros Hi. revert pks. induction Hi as [|id ids [m Hm] _ IH]; intros pks; cbn [signerKeys]; [by intros <-%res_ret_Ok|].
  rewrite Hm. simpl. rewrite same_pk. destruct (bls_pk_valid m.2) eqn:Hpk; [simpl|done].
  destruct (go_pk_validate m.2); [simpl|done]. intros (pks' & Hks & <-%res_ret_Ok)%res_bind_Ok.
  assert (signer_key reg id = Some m.2) as ->; [|simpl; by rewrite (IH _ Hks)].
  unfold signer_key, Registry.bls_key_for. rewrite Hm. simpl. by rewrite Hpk.
Qed.

(** The keys of [reg] signed [msg]: distinct members, more than two thirds. *)
Record signed_by (reg : MembershipRegistry) (signers : list NodeId) (sig msg : bytes) : Prop := {
  sb_distinct : NoDup signers;
  sb_majority : Registry.len reg * 2 < length signers * 3;
  sb_members : Forall (λ s, is_Some (reg !! s)) signers;
  sb_verified : ∃ pks, mapM (signer_key reg) (merge_sort N.le signers) = Some pks ∧
    BlsWrapper.verify_aggregate sig msg pks = true;
}.

Lemma quorum_signed_by reg cp roster pks :
  wf_registry reg → Forall (λ m, is_u64 (Pb.rm_node_id m)) (Pb.pc_roster_snapshot cp) →
  quorum cp (Registry.hash reg) roster pks →
  signed_by reg (Pb.pc_signers cp) (Pb.pc_aggregate_sig cp) (CheckpointSigningBytes cp) ∨ sha256_collision.
Proof.
  intros Hr Hid [Hm Hh Ht Hd Hq Hk Hks Hs Hv].
  assert (Pb.pc_roster_hash cp = Registry.hash reg) as Hrh.
  { apply Ht. intros Hn. pose proof (sha256_length (Registry.to_bytes reg)) as Hl. unfold Registry.hash in Hn.
    by rewrite Hn in Hl. }
  destruct (roster_trusted reg roster) as [->|?]; [done| |congruence|left|by right].
  { by eapply rosterById_wide; [|exact Hid|exact Hm]; apply map_Forall_empty. }
  split; [done|done|done|]. exists pks. split.
  - apply signerKeys_node; [|done]. by rewrite merge_sort_Permutation.
  - unfold BlsWrapper.verify_aggregate. by rewrite same_aggregate, Hs, Hv.
Qed.

(** The items of a file are those of the round whose payload was signed. *)
Lemma items_bound cp items p native :
  wf_payload p → length (Pb.pc_records_root cp) = 32 → CheckpointSigningBytes cp = Payload.signing_bytes p →
  ComputeRecordsRoot items = Ok (Pb.pc_records_root cp) →
  Forall wf_item native → try_compute_records_root native = Ok (records_root p) →
  Forall (λ i, length (Pb.ri_event_hash i) = 32 ∧ is_u32 (Pb.ri_tx_index i) ∧
    is_u32 (N.of_nat (length (Pb.ri_tx_payload i)))) items → is_u32 (N.of_nat (length items)) →
  items = item_to_proto <$> native ∨ sha256_collision.
Proof.
  intros [Hr Hrr _ _ _ _ _ _] Hl Hsb Hroot Hn Hnr Hi Hc.
  assert (Pb.pc_records_root cp = records_root p) as Heq.
  { unfold CheckpointSigningBytes, Payload.signing_bytes in Hsb. rewrite copy32_id in Hsb by done.
    apply app_inj_1 in Hsb as [_ Hsb]; [|done]. apply app_inj_1 in Hsb as [? _]; [done|by rewrite Hl]. }
  set (mine := (λ i, {| item_event_hash := Pb.ri_event_hash i; item_tx_index := Pb.ri_tx_index i;
                        item_tx_payload := Pb.ri_tx_payload i |}) <$> items).
  assert (items = item_to_proto <$> mine) as Hmine.
  { unfold mine. rewrite <- list_fmap_compose. symmetry. rewrite <- (list_fmap_id items) at 2.
    apply list_fmap_ext. by intros i []. }
  destruct (records_total mine) as (root & proofs & (root' & Hr' & _)%res_bind_Ok & _).
  { apply Forall_fmap. eapply Forall_impl; [exact Hi|]. naive_solver. }
  { unfold mine. by rewrite length_fmap. }
  rewrite Hmine in Hroot. rewrite (ComputeRecordsRoot_items _ _ Hr'), Heq in Hroot. injection Hroot as ->.
  destruct (records_root_inj mine native (records_root p)) as [Hm|?]; [|done|done|done| |by right].
  - apply Forall_fmap. eapply Forall_impl; [exact Hi|]. intros i (? & ? & _). by split.
  - left. by rewrite Hmine, Hm.
Qed.
End node.

(** ** The links of the chain, one by one *)

Section links.
Context `{Sha256, GoCrypto} `{G : Protobuf} (cfg : Config).

Lemma linked_at before f after :
  linked cfg (before ++ f :: after) →
  ∃ cp end_, accepted cfg (Pb.rf_round f) (last_end before) (last_prev before) f cp end_ ∧
    Pb.rf_round f ∉ Pb.rf_round <$> before.
Proof.
  induction after as [|g after IH] using rev_ind; intros Hl.
  - inversion Hl as [He|l f' cp end_ Hl' Hacc Hnew He]; [by destruct before|].
    apply app_inj_tail in He as [-> ->]. by exists cp, end_.
  - apply IH. rewrite app_comm_cons, (assoc_L (++)) in Hl. inversion Hl as [He|l f' cp end_ Hl' Hacc Hnew He].
    + by destruct before.
    + by apply app_inj_tail in He as [-> _].
Qed.

Lemma unmarshal_fits k bs m : unmarshalStrict k bs = Ok m → Pb.fits k m.
Proof.
  unfold unmarshalStrict. intros (m' & Hd%ok_or_Ok & Hc)%res_bind_Ok. case_decide; [done|].
  apply res_ret_Ok in Hc as ->. by eapply pb_decode_fits.
Qed.
End links.

(** ** The PostgreSQL store *)

Section postgres.
Context `{Sha256, Ed25519, Bls, GoCrypto, Postgres}.

Lemma pg_atomic : put_atomic (S := PGStore).
Proof.
  intros f s. simpl. unfold pg_put_record. case_decide; [by left|]. destruct (pg_commits_record s f); [by left|by right].
Qed.

Lemma elem_of_pg_rounds n (s : PGStore) :
  n ∈ Pb.rf_round <$> ListRecords s → ∃ e, n = Pb.rf_round e.2 ∧ pg_records s !! e.1 = Some e.2.
Proof.
  simpl. unfold pg_list_records. rewrite <- list_fmap_compose. intros ([k f] & -> & Hin%elem_of_bt_entries)%list_elem_of_fmap.
  by exists (k, f).
Qed.

Lemma pg_highest s n f :
  map_Forall (λ n f, Pb.rf_round f = n) (pg_records s) → pg_records s !! n = Some f →
  (∀ n', is_Some (pg_records s !! n') → (n' ≤ n)%N) → highest (ListRecords s) = Some (pg_record f).
Proof.
  intros Hk Hf Hmax. pose proof (highest_spec (ListRecords s)) as Hh. destruct (highest _) as [best|].
  - destruct Hh as [Hin Hle]. simpl in Hin, Hle. unfold pg_list_records in Hin, Hle. apply list_elem_of_fmap in Hin as ([k g] & -> & Hg%elem_of_bt_entries).
    assert (k = n) as ->; [|simpl; congruence]. apply (anti_symm N.le); [apply Hmax; by eexists|].
    rewrite Forall_forall in Hle. specialize (Hle (pg_record f)). simpl in Hle.
    rewrite (Hk _ _ Hf), (Hk _ _ Hg) in Hle. apply Hle. apply list_elem_of_fmap. exists (n, f).
    by rewrite elem_of_bt_entries.
  - assert (pg_record f ∈ (ListRecords s)) as Hin.
    { simpl. unfold pg_list_records. apply list_elem_of_fmap. exists (n, f). by rewrite elem_of_bt_entries. }
    rewrite Hh in Hin. by apply not_elem_of_nil in Hin.
Qed.

(** Without its window root a checkpoint has other signing bytes. *)
Lemma pg_checkpoint_collision sc :
  wf_signed sc → window_root (sc_payload sc) ≠ replicate 32 x00 →
  CheckpointSigningBytesHash (pg_checkpoint (signed_checkpoint_to_proto sc)) =
    Payload.signing_bytes_hash (sc_payload sc) → sha256_collision.
Proof.
  intros ([Hr Hrr Hsh Hro Hpr Hwr Hhr Hreg] & _) Hw Heq. apply collides in Heq as [Heq|?]; [|done]. destruct Hw.
  assert (length (roster_hash (sc_payload sc)) = 32) as Hrl by (rewrite Hro; apply sha256_length).
  unfold CheckpointSigningBytes, Payload.signing_bytes in Heq. simpl in Heq. rewrite !copy32_id in Heq by done.
  do 5 (apply app_inj_1 in Heq as [_ Heq]; [|done]).
  change (replicate 32 x00 ++ copy32 [] = window_root (sc_payload sc) ++ roster_history_root (sc_payload sc)) in Heq.
  by apply app_inj_1 in Heq as [Heq _].
Qed.

(** ** Forged items *)

Lemma forged_leaf item j rest :
  item_tx_payload item = u32_be j ++ u32_be (N.of_nat (length rest)) ++ rest →
  is_u32 (N.of_nat (length (item_tx_payload item))) →
  leafHash {| Pb.ri_event_hash := item_event_hash item ++ u32_be (item_tx_index item) ++
                                  u32_be (N.of_nat (length (item_tx_payload item)));
              Pb.ri_tx_index := j; Pb.ri_tx_payload := rest |} = leafHash (item_to_proto item).
Proof.
  intros Hp Hu. unfold is_u32 in Hu. assert (length rest ≤ length (item_tx_payload item)) as Hle.
  { rewrite Hp, !length_app. lia. }
  unfold leafHash. simpl. rewrite !decide_False by lia. do 2 f_equal. rewrite <- !(assoc_L (++)). by rewrite <- Hp.
Qed.

Lemma forged_root (l1 l2 : list Pb.RecordItem) item j rest :
  item_tx_payload item = u32_be j ++ u32_be (N.of_nat (length rest)) ++ rest →
  is_u32 (N.of_nat (length (item_tx_payload item))) →
  ComputeRecordsRoot (l1 ++ {| Pb.ri_event_hash := item_event_hash item ++ u32_be (item_tx_index item) ++
                                  u32_be (N.of_nat (length (item_tx_payload item)));
              Pb.ri_tx_index := j; Pb.ri_tx_payload := rest |} :: l2) =
  ComputeRecordsRoot (l1 ++ item_to_proto item :: l2).
Proof.
  intros Hp Hu. pose proof (forged_leaf item j rest Hp Hu) as Hl. unfold ComputeRecordsRoot.
  destruct l1 as [|i l1]; simpl; rewrite ?fmap_app, ?fmap_cons, Hl; done.
Qed.
End postgres.
