(* ===== verification/StreamDemo.v ===== *)
(** * Concrete streams

    Instances of the classes of [Stream] and [Mirror] on which the examples of
    [StreamProps] are stated, and a node that writes two rounds.  The toy
    protobuf library writes a message as the digits of its number in an
    enumeration of all messages. *)

From S2P Require Import Prelude Codec External Primitives Membership Graph Order Insert Demo AgreementDemo.
From S2P Require Import Retain Reconnect.
From S2P Require Import Checkpoint CheckpointFacts CheckpointQuorum MerkleLog SparseMerkle Did Op State Executor.
From S2P Require Import Stream StreamFacts StreamRecords Mirror MirrorFacts MirrorSafety.

(** ** A protobuf library *)

#[local] Instance hash_object_eq : EqDecision Pb.HashObject.
Proof. solve_decision. Defined.
#[local] Instance hash_object_countable : Countable Pb.HashObject.
Proof.
  apply (inj_countable' (λ h, (Pb.ho_algorithm h, Pb.ho_length h, Pb.ho_hash h))
    (λ '(a, b, c), {| Pb.ho_algorithm := a; Pb.ho_length := b; Pb.ho_hash := c |})). by intros [].
Defined.

#[local] Instance signature_object_eq : EqDecision Pb.SignatureObject.
Proof. solve_decision. Defined.
#[local] Instance signature_object_countable : Countable Pb.SignatureObject.
Proof.
  apply (inj_countable' (λ s, (Pb.so_type s, Pb.so_length s, Pb.so_signature s, Pb.so_hash_object s))
    (λ '(a, b, c, d), {| Pb.so_type := a; Pb.so_length := b; Pb.so_signature := c; Pb.so_hash_object := d |})).
  by intros [].
Defined.

#[local] Instance signature_file_eq : EqDecision Pb.SignatureFile.
Proof. solve_decision. Defined.
#[local] Instance signature_file_countable : Countable Pb.SignatureFile.
Proof.
  apply (inj_countable' (λ f, (Pb.file_signature f, Pb.metadata_signature f))
    (λ '(a, b), {| Pb.file_signature := a; Pb.metadata_signature := b |})). by intros [].
Defined.

#[local] Instance pb_event_eq : EqDecision Pb.Event.
Proof. solve_decision. Defined.
#[local] Instance pb_event_countable : Countable Pb.Event.
Proof.
  apply (inj_countable' (λ e, (Pb.pe_creator e, Pb.pe_self_parent e, Pb.pe_other_parent e, Pb.pe_timestamp e,
      Pb.pe_transactions e, Pb.pe_signature e, Pb.pe_seq e, Pb.pe_birth_round e, Pb.pe_round_received e,
      Pb.pe_consensus_timestamp e))
    (λ '(a, b, c, d, e, f, g, h, i, j),
      {| Pb.pe_creator := a; Pb.pe_self_parent := b; Pb.pe_other_parent := c; Pb.pe_timestamp := d;
         Pb.pe_transactions := e; Pb.pe_signature := f; Pb.pe_seq := g; Pb.pe_birth_round := h;
         Pb.pe_round_received := i; Pb.pe_consensus_timestamp := j |})). by intros [].
Defined.

#[local] Instance event_file_eq : EqDecision Pb.EventStreamFile.
Proof. solve_decision. Defined.
#[local] Instance event_file_countable : Countable Pb.EventStreamFile.
Proof.
  apply (inj_countable' (λ f, (Pb.ef_version f, Pb.ef_start_running_hash f, Pb.ef_events f, Pb.ef_end_running_hash f))
    (λ '(a, b, c, d), {| Pb.ef_version := a; Pb.ef_start_running_hash := b; Pb.ef_events := c;
                         Pb.ef_end_running_hash := d |})). by intros [].
Defined.

#[local] Instance record_item_eq : EqDecision Pb.RecordItem.
Proof. solve_decision. Defined.
#[local] Instance record_item_countable : Countable Pb.RecordItem.
Proof.
  apply (inj_countable' (λ i, (Pb.ri_event_hash i, Pb.ri_tx_index i, Pb.ri_tx_payload i))
    (λ '(a, b, c), {| Pb.ri_event_hash := a; Pb.ri_tx_index := b; Pb.ri_tx_payload := c |})). by intros [].
Defined.

#[local] Instance roster_member_eq : EqDecision Pb.RosterMember.
Proof. solve_decision. Defined.
#[local] Instance roster_member_countable : Countable Pb.RosterMember.
Proof.
  apply (inj_countable' (λ m, (Pb.rm_node_id m, Pb.rm_key m, Pb.rm_bls_key m, Pb.rm_pop m))
    (λ '(a, b, c, d), {| Pb.rm_node_id := a; Pb.rm_key := b; Pb.rm_bls_key := c; Pb.rm_pop := d |})). by intros [].
Defined.

#[local] Instance pb_checkpoint_eq : EqDecision Pb.SignedCheckpoint.
Proof. solve_decision. Defined.
#[local] Instance pb_checkpoint_countable : Countable Pb.SignedCheckpoint.
Proof.
  apply (inj_countable' (λ c, (Pb.pc_round c, Pb.pc_state_hash c, Pb.pc_roster_hash c, Pb.pc_roster_snapshot c,
      Pb.pc_records_root c, Pb.pc_aggregate_sig c, Pb.pc_signers c, Pb.pc_prev_checkpoint_hash c, Pb.pc_window_root c,
      Pb.pc_roster_history_root c))
    (λ '(a, b, c, d, e, f, g, h, i, j),
      {| Pb.pc_round := a; Pb.pc_state_hash := b; Pb.pc_roster_hash := c; Pb.pc_roster_snapshot := d;
         Pb.pc_records_root := e; Pb.pc_aggregate_sig := f; Pb.pc_signers := g; Pb.pc_prev_checkpoint_hash := h;
         Pb.pc_window_root := i; Pb.pc_roster_history_root := j |})). by intros [].
Defined.

#[local] Instance state_diff_eq : EqDecision StateDiff.
Proof. solve_decision. Defined.
#[local] Instance state_diff_countable : Countable StateDiff.
Proof. apply (inj_countable' (λ d, (diff_key d, diff_value d)) (λ '(a, b), mkDiff a b)). by intros []. Defined.

#[local] Instance record_file_eq : EqDecision Pb.RecordStreamFile.
Proof. solve_decision. Defined.
#[local] Instance record_file_countable : Countable Pb.RecordStreamFile.
Proof.
  apply (inj_countable' (λ f, (Pb.rf_version f, Pb.rf_round f, Pb.rf_start_running_hash f, Pb.rf_items f,
      Pb.rf_end_running_hash f, Pb.rf_checkpoint f, Pb.rf_state_diffs f))
    (λ '(a, b, c, d, e, f, g),
      {| Pb.rf_version := a; Pb.rf_round := b; Pb.rf_start_running_hash := c; Pb.rf_items := d;
         Pb.rf_end_running_hash := e; Pb.rf_checkpoint := f; Pb.rf_state_diffs := g |})). by intros [].
Defined.

#[local] Instance proof_step_eq : EqDecision Pb.ProofStep.
Proof. solve_decision. Defined.
#[local] Instance proof_step_countable : Countable Pb.ProofStep.
Proof.
  apply (inj_countable' (λ s, (Pb.ps_sibling_hash s, Pb.ps_sibling_is_right s))
    (λ '(a, b), {| Pb.ps_sibling_hash := a; Pb.ps_sibling_is_right := b |})). by intros [].
Defined.

#[local] Instance proof_entry_eq : EqDecision Pb.ProofEntry.
Proof. solve_decision. Defined.
#[local] Instance proof_entry_countable : Countable Pb.ProofEntry.
Proof.
  apply (inj_countable' (λ p, (Pb.pr_item_index p, Pb.pr_proof_steps p))
    (λ '(a, b), {| Pb.pr_item_index := a; Pb.pr_proof_steps := b |})). by intros [].
Defined.

#[local] Instance proof_file_eq : EqDecision Pb.RecordsProofFile.
Proof. solve_decision. Defined.
#[local] Instance proof_file_countable : Countable Pb.RecordsProofFile.
Proof.
  apply (inj_countable' (λ f, (Pb.pf_version f, Pb.pf_round f, Pb.pf_proofs f))
    (λ '(a, b, c), {| Pb.pf_version := a; Pb.pf_round := b; Pb.pf_proofs := c |})). by intros [].
Defined.

#[local] Instance msg_eq k : EqDecision (Pb.msg k).
Proof. destruct k; simpl; apply _. Defined.
#[local] Instance msg_countable k : Countable (Pb.msg k).
Proof. destruct k; simpl; apply _. Defined.

(** A number as its binary digits. *)
Fixpoint pos_bytes (p : positive) : bytes :=
  match p with xH => [x02] | xO p => x00 :: pos_bytes p | xI p => x01 :: pos_bytes p end.

Fixpoint bytes_pos (bs : bytes) : option positive :=
  match bs with
  | x00 :: bs => xO <$> bytes_pos bs
  | x01 :: bs => xI <$> bytes_pos bs
  | [x02] => Some xH
  | _ => None
  end.

Lemma bytes_pos_bytes p : bytes_pos (pos_bytes p) = Some p.
Proof. induction p as [p IH|p IH|]; simpl; [by rewrite IH..|done]. Qed.

#[local] Instance option_fits_dec {A} (o : option A) (Q : A → Prop) `{!∀ a, Decision (Q a)} :
  Decision (∀ a, o = Some a → Q a).
Proof.
  refine (match o with
          | Some a => if decide (Q a) then left _ else right _
          | None => left _
          end); [by intros ? [= <-]|intros Hq; by apply n, Hq|done].
Defined.

#[local] Instance fits_dec k m : Decision (Pb.fits k m).
Proof.
  destruct k; simpl; unfold Pb.item_fits, Pb.event_fits, Pb.checkpoint_fits, Pb.signature_object_fits,
    Pb.hash_object_fits, is_u32, is_u64; apply _.
Defined.

Definition toy_protobuf : Protobuf.
Proof.
  refine {| pb_encode k m := pos_bytes (encode m);
            pb_decode k bs := m ← bytes_pos bs ≫= decode; if decide (Pb.fits k m) then Some m else None |}.
  - intros k m Hm. rewrite bytes_pos_bytes. simpl. rewrite decode_encode. simpl. by rewrite decide_True.
  - intros k bs m Hm. apply bind_Some in Hm as (m' & _ & Hm). case_decide; [|done]. by injection Hm as <-.
Defined.

(** ** Disks, key generation and the Go libraries *)

Definition toy_disk : Disk := {| disk_outcome := λ _ _ _, Written |}.
Definition toy_keygen : BlsKeygen := {| bls_key_gen := λ _, None |}.

Definition toy_go : GoCrypto :=
  {| go_pk_uncompress := λ _, true; go_pk_validate := λ _, true; go_sig_uncompress := λ _, true;
     go_sig_validate := λ _, true;
     go_fast_aggregate_verify := bls_fast_aggregate_verify (Bls := toy_bls);
     go_ed_verify := ed_verify_strict (Ed25519 := toy_ed25519) |}.

#[export] Instance toy_same : SameCrypto (H := toy_ed25519) (H0 := toy_bls) (H1 := toy_go).
Proof. split; [done|done|done|]. intros sk m. apply ed_sign_verify. Qed.

Definition toy_postgres : Postgres := {| pg_commits_record := λ _ _, true; pg_commits_events := λ _ _, true |}.

(** ** Two rounds *)

#[local] Existing Instance toy_sha256.
#[local] Existing Instance toy_ed25519.
#[local] Existing Instance toy_bls.
#[local] Existing Instance toy_keygen.
#[local] Existing Instance toy_go.
#[local] Existing Instance toy_disk.
#[local] Existing Instance toy_protobuf.

Import RecordDir.

(** A transaction whose payload looks like an index, a length and a rest. *)
Definition demo_rest : bytes := lit "rest".
Definition demo_item (n : N) : RecordsRootItem :=
  {| item_event_hash := be_bytes 32 n; item_tx_index := 0;
     item_tx_payload := u32_be 7 ++ u32_be (N.of_nat (length demo_rest)) ++ demo_rest |}.

Definition root_or_nil (m : res PrimError bytes) : bytes := match m with Ok r => r | _ => [] end.

Definition demo_round (n : N) (prev : bytes) : CheckpointPayload :=
  {| cp_round := n; records_root := root_or_nil (try_compute_records_root [demo_item n]);
     state_hash := be_bytes 32 2; roster_hash := Registry.hash (demo_registry 4); prev_checkpoint_hash := prev;
     window_root := be_bytes 32 3; roster_history_root := be_bytes 32 4; roster_snapshot := demo_registry 4 |}.

Definition demo_entry (n : N) (prev : bytes) : entry :=
  let p := demo_round n prev in
  {| w_signed := {| sc_payload := p;
       aggregate_sig := default [] (bls_aggregate ((λ i, BlsWrapper.sign (be_bytes 48 i) (Payload.signing_bytes p))
                                                     <$> [1; 2; 4]%N));
       signers := [1; 2; 4]%N |};
     w_items := [demo_item n]; w_diffs := [mkDiff (lit "key") (Some (lit "value")); mkDiff (lit "tomb") None] |}.

Definition demo_first : entry := demo_entry 1 zero_hash.
Definition demo_second : entry :=
  demo_entry 2 (Payload.signing_bytes_hash (sc_payload (w_signed demo_first))).

Definition demo_config : Config := {| cfg_PubKey := []; cfg_TrustedRosterHash := Registry.hash (demo_registry 4) |}.

Lemma demo_roster_wf : wf_registry (demo_registry 4).
Proof.
  repeat (apply RegistryFacts.wf_register; [|split; [done|]; split; [apply length_be_bytes|]; split;
    [done|apply length_be_bytes]]). apply map_Forall_empty.
Qed.

Lemma demo_root n : ∃ root, try_compute_records_root [demo_item n] = Ok root ∧ length root = 32.
Proof. eexists. split; [reflexivity|]. apply sha256_length. Qed.

Lemma demo_entry_wf n prev :
  (1 ≤ n ∧ n + 1 < u64_modulus)%N → length prev = 32 → wf_entry (demo_entry n prev).
Proof.
  intros Hn Hp. split; [| | | |done].
  - split; [|split; [by repeat constructor|split; [apply length_be_bytes|done]]].
    split; [unfold is_u64; simpl; lia| |done..|apply demo_roster_wf]. 
    change (length (root_or_nil (try_compute_records_root [demo_item n])) = 32). by destruct (demo_root n) as (r & -> & ?).
  - constructor; [|constructor]. split; [apply length_be_bytes|done].
  - constructor; [|constructor]. done.
  - done.
Qed.

Lemma demo_entry_root n prev :
  try_compute_records_root (w_items (demo_entry n prev)) = Ok (records_root (sc_payload (w_signed (demo_entry n prev)))).
Proof.
  change (try_compute_records_root [demo_item n] = Ok (root_or_nil (try_compute_records_root [demo_item n]))).
  by destruct (demo_root n) as (r & -> & _).
Qed.

Lemma demo_first_wf : wf_entry demo_first.
Proof. by apply demo_entry_wf; [|apply length_be_bytes]. Qed.

Lemma demo_second_wf : wf_entry demo_second.
Proof. by apply demo_entry_wf; [|apply sha256_length]. Qed.

Lemma demo_entry_mirrored n prev :
  wf_entry (demo_entry n prev) → verify (w_signed (demo_entry n prev)) = true →
  Poll.mirrored demo_config (demo_entry n prev).
Proof.
  intros Hw Hv. split; [done| |done|apply demo_entry_root|by right|done|vm_compute; reflexivity].
  by intros node m _.
Qed.

Lemma demo_first_mirrored : Poll.mirrored demo_config demo_first.
Proof. apply demo_entry_mirrored; [apply demo_first_wf|vm_compute; reflexivity]. Qed.

Lemma demo_second_mirrored : Poll.mirrored demo_config demo_second.
Proof. apply demo_entry_mirrored; [apply demo_second_wf|vm_compute; reflexivity]. Qed.

Lemma demo_honest w :
  Poll.mirrored demo_config w → keyed (roster_snapshot (sc_payload (w_signed w))) →
  roster_hash (sc_payload (w_signed w)) = Registry.hash (demo_registry 4) →
  honest [Registry.hash (demo_registry 4)] w.
Proof. intros [_ _ Hv Hr _ _ _] Hk Hro. split; [done|done|by rewrite Hro; constructor|done]. Qed.

Lemma demo_consecutive : consecutive [demo_first; demo_second].
Proof. intros [|[|i]] w1 w2; [|done..]. by intros [= <-] [= <-]. Qed.

Lemma demo_chained : Poll.chained [demo_first; demo_second].
Proof. intros [|[|i]] w; [by intros [= <-]..|done]. Qed.

Lemma demo_reliable : reliable.
Proof. done. Qed.

Lemma demo_wire : Poll.same_wire toy_protobuf toy_protobuf.
Proof. done. Qed.

#[local] Existing Instance identity_order.

Definition demo_empty_dir : Dir := {| files := ∅; attempts := 0 |}.
Definition demo_state0 : RecordState := open_records demo_empty_dir.
Definition demo_state1 : RecordState := (record_step (message demo_first) demo_state0).2.
Definition demo_state2 : RecordState := (record_step (message demo_second) demo_state1).2.

Lemma demo_record_run : record_run [demo_first; demo_second] demo_state2.
Proof.
  apply (record_written [demo_first] demo_state1 demo_second (record_step (message demo_second) demo_state1).1);
    [|apply demo_second_wf|apply surjective_pairing].
  apply (record_written [] demo_state0 demo_first (record_step (message demo_first) demo_state0).1);
    [|apply demo_first_wf|apply surjective_pairing].
  by apply (record_opened identity_order).
Qed.

Lemma demo_holds : holds (rs_dir demo_state2) [demo_first; demo_second].
Proof.
  pose proof (run_writing _ _ demo_reliable demo_record_run) as [Hd _ _].
  rewrite accept_consecutive in Hd; [done| |apply demo_consecutive].
  constructor; [apply demo_first_wf|]. constructor; [apply demo_second_wf|constructor].
Qed.

(** What a mirror has after one poll. *)
Lemma demo_polled :
  Poll.ingested toy_protobuf (RunOnce demo_config (rs_dir demo_state2) (NewIngester NewMemStore)).2
    [demo_first; demo_second].
Proof.
  apply (Poll.poll_native toy_protobuf toy_protobuf demo_wire demo_config _ [] [demo_first; demo_second]).
  - apply demo_holds.
  - constructor; [apply demo_first_mirrored|]. constructor; [apply demo_second_mirrored|constructor].
  - apply demo_chained.
  - by split.
Qed.

(** ** An event *)

Definition demo_stream_event : RetainedEvent :=
  {| re_event := demo_event [] 7 (1%N, None, None); re_seq := 1; re_round := 1; re_ancestor_seqs := [1; 0]%N;
     re_round_received := None; re_consensus_timestamp := None |}.

Definition demo_node_key : bytes := lit "key".
Definition demo_events0 : EventState := open_events demo_empty_dir.
Definition demo_events1 : EventState := (event_step demo_node_key 10 (AppendEvent demo_stream_event) demo_events0).2.
Definition demo_events2 : EventState := (event_step demo_node_key 10 FlushEvents demo_events1).2.

Lemma demo_event_run :
  EventDir.event_run demo_node_key 10 [retained_event_to_proto demo_stream_event] demo_events2.
Proof.
  apply (EventDir.event_stepped _ _ [retained_event_to_proto demo_stream_event] demo_events1 FlushEvents
    (event_step demo_node_key 10 FlushEvents demo_events1).1); [|constructor|done|apply surjective_pairing].
  apply (EventDir.event_stepped _ _ [] demo_events0 (AppendEvent demo_stream_event)
    (event_step demo_node_key 10 (AppendEvent demo_stream_event) demo_events0).1);
    [|by repeat constructor|done|apply surjective_pairing].
  by apply (EventDir.event_opened _ _ identity_order).
Qed.

(** ** A checkpoint of a node that has decided two rounds *)

Definition demo_state_hashes : gmap N bytes := {[ 0%N := be_bytes 32 7 ]}.

(** The payload over the node's second round, or that of [demo_first]. *)
Definition payload_or (m : res unit CheckpointPayload) : CheckpointPayload :=
  match m with Ok p => p | _ => sc_payload (w_signed demo_first) end.

Definition demo_decided (signed : list SignedCheckpoint) (n : N) : SignedCheckpoint :=
  {| sc_payload := payload_or (canonical_checkpoint_payload_chained node1 n demo_state_hashes signed);
     aggregate_sig := []; signers := [] |}.

Lemma payload_or_Ok m : res_ok m ≠ None → m = Ok (payload_or m).
Proof. by destruct m. Qed.

Lemma hash_widths g :
  forallb (λ e, bool_decide (length e.1 = 32)) (map_to_list (events g)) = true →
  ∀ h r, Graph.get g h = Some r → length h = 32.
Proof.
  intros Hf h r Hr. rewrite forallb_forall in Hf. apply (bool_decide_eq_true (length h = 32)), (Hf (h, r)).
  apply list_elem_of_In. by apply elem_of_map_to_list.
Qed.
