(* ===== verification/StreamProps.v ===== *)
(** * Properties of the record and event streams and of the mirror node

    The writers and the verifier of one node, and the node together with a
    mirror that polls its directory; then what a mirror stores whatever it
    polls, and two ways in which it fails. *)

From S2P Require Import Prelude Codec External Primitives Membership Graph Order Insert Retain Reconnect.
From S2P Require Import Checkpoint CheckpointFacts CheckpointQuorum MerkleLog SparseMerkle Did Op State Executor.
From S2P Require Import Demo AgreementDemo Stream StreamFacts StreamRecords Mirror MirrorFacts MirrorSafety StreamDemo.

Import RecordDir.

(** ** A node and its mirror *)

Section follow.
Context `{Sha256, Ed25519, Bls, BlsKeygen, GoCrypto, Disk} (P G : Protobuf) (cfg : Config).

(** Rounds are submitted, the node is started again, the mirror polls. *)
Inductive followed : list entry → RecordState → Ingester MemStore → Prop :=
| followed_opened (o : HashOrder) d : files d = ∅ → followed [] (open_records (P := P) d) (NewIngester NewMemStore)
| followed_written l s ing w r s' :
    followed l s ing → wf_entry w → record_step (P := P) (message w) s = (r, s') → followed (l ++ [w]) s' ing
| followed_restarted (o : HashOrder) l s ing :
    followed l s ing → followed l (open_records (P := P) (rs_dir s)) ing
| followed_polled (o : HashOrder) l s ing :
    followed l s ing → followed l s (RunOnce (G := G) cfg (rs_dir s) ing).2.

Lemma chained_prefix ws1 ws2 : Poll.chained (ws1 ++ ws2) → Poll.chained ws1.
Proof.
  intros Hc i w Hi. rewrite (Hc i w) by (by apply lookup_app_l_Some). apply lookup_lt_Some in Hi.
  by rewrite take_app_le by lia.
Qed.

Lemma followed_invariant `{!SameCrypto} l s ing :
  Poll.same_wire P G → reliable → followed l s ing → consecutive l → Poll.chained l → Forall (Poll.mirrored cfg) l →
  writing (P := P) s l ∧ ∃ pre suf, l = pre ++ suf ∧ Poll.ingested P ing pre.
Proof.
  intros Hwire Hr. induction 1 as [o d Hd|l s ing w r s' _ IH Hw Hs|o l s ing _ IH|o l s ing _ IH]; intros Hc Hch Hm.
  - split; [by apply open_writing, holds_empty|]. exists [], []. split; [done|]. by split.
  - apply Forall_app in Hm as [Hm _]. pose proof Hc as Hc0%consecutive_prefix. apply chained_prefix in Hch.
    destruct (IH Hc0 Hch Hm) as (Hwr & pre & suf & -> & Hi). split.
    + rewrite <- accept_next by done. by eapply step_writing.
    + exists pre, (suf ++ [w]). by rewrite (assoc_L (++)).
  - destruct (IH Hc Hch Hm) as (Hwr & Hrest). split; [|done]. apply open_writing, Hwr.
  - destruct (IH Hc Hch Hm) as (Hwr & pre & suf & -> & Hi). split; [done|]. exists (pre ++ suf), [].
    rewrite app_nil_r. split; [done|]. apply Poll.poll_native; [done|apply Hwr| |done|done].
    by apply Forall_app in Hm as [_ ?].
Qed.
End follow.

(** ** Properties *)

Section props.
Context `{Sha256, Ed25519, Bls, BlsKeygen} `{P : Protobuf} `{Disk}.


(** C17: The record stream holds every round and verifies.  When writes succeed,
    the record files are the submitted rounds in order, each chained to the
    one before (a round that is submitted again is dropped); a writer started
    on the directory continues exactly where this one is; and when the rounds
    are consecutive, with checkpoints signed by a quorum of a trusted roster
    that commit to their items, the directory passes the verifier. *)
Theorem record_stream_verifies `{HashOrder} trusted l s :
  reliable → record_run l s →
  read_all (rs_dir s) = Some (stream CHAIN_SEED (foldl accept [] l)) ∧
  resume_records (rs_dir s) = (rs_next_round s, rs_running_hash s) ∧
  (consecutive l → l ≠ [] → Forall (honest trusted) l →
     foldl accept [] l = l ∧ verify_record_stream_dir_rosters (rs_dir s) trusted = Ok tt).
Proof.
  intros Hr Hrun. pose proof (run_writing _ _ Hr Hrun) as [Hd Hh Hn].
  split; [by apply read_all_holds|]. split; [by rewrite (resume_holds _ _ Hd), Hh, Hn|].
  intros Hc Hne Hho. assert (Forall wf_entry l) as Hw.
  { clear - Hrun. induction Hrun as [|l s w r s' _ IH Hw _|]; [constructor| |done]. by apply Forall_app_2, Forall_cons. }
  rewrite accept_consecutive in Hd by done. split; [by apply accept_consecutive|]. by eapply verify_holds.
Qed.
End props.

Section submitted.
Context `{Sha256, HashOrder}.



End submitted.

Section mirror_props.
Context `{Sha256, Ed25519, Bls, BlsKeygen, GoCrypto, !SameCrypto, Disk} (P G : Protobuf) (cfg : Config).

(** C12: The mirror follows the node.  A node submits consecutive rounds whose
    checkpoints chain from zeros, is started again at any time, and a mirror
    with an empty store polls its directory at any time.  Then the store is
    always a prefix of the node's stream, and one more poll makes it the whole
    stream: every round is ingested, in order and exactly once.  The two
    protobuf libraries are assumed to write the same bytes. *)
Theorem mirror_follows_node (o : HashOrder) l s ing :
  Poll.same_wire P G → reliable → followed P G cfg l s ing →
  consecutive l → Poll.chained l → Forall (Poll.mirrored cfg) l →
  ms_records (store ing) `prefix_of` stream (P := P) CHAIN_SEED l ∧
  ms_records (store (RunOnce (G := G) cfg (rs_dir s) ing).2) = stream (P := P) CHAIN_SEED l.
Proof.
  intros Hwire Hr Hf Hc Hch Hm.
  destruct (followed_invariant P G cfg l s ing Hwire Hr Hf Hc Hch Hm) as (Hw & pre & suf & -> & Hi). split.
  - rewrite (Poll.ing_records _ _ _ Hi). clear. generalize CHAIN_SEED as start.
    induction pre as [|w pre IH]; intros start; [apply prefix_nil|]. simpl. by apply prefix_cons.
  - apply (Poll.ing_records P). apply Poll.poll_native; [done|apply Hw| |done|done].
    by apply Forall_app in Hm as [_ ?].
Qed.


(** C34: The mirror bounds the diffs of a round.  The diffs of a round, as the node
    lists them, pass the mirror exactly when there are at most 10000, no key is
    empty or longer than 1024 bytes and no value longer than 1 MiB.  A record
    file with diffs that exceed a limit is refused, whatever it is signed
    with. *)
Theorem mirror_diff_limits (m : Diffs) :
  (ValidateStateDiffs (diff_list m) = Ok tt ↔
   size m ≤ maxStateDiffsPerRound ∧ map_Forall (λ k v, small_diff (mkDiff k v)) m) ∧
  (∀ raw f trusted, unmarshalStrict (G := G) Pb.KRecordFile raw = Ok f → Pb.rf_state_diffs f = diff_list m →
     VerifyRecordFile (G := G) raw trusted = Ok tt →
     size m ≤ maxStateDiffsPerRound ∧ map_Forall (λ k v, small_diff (mkDiff k v)) m).
Proof.
  split; [apply ValidateStateDiffs_list|]. intros raw f trusted Hf Hd Hv. apply ValidateStateDiffs_list.
  rewrite <- Hd. by apply (VerifyRecordFile_diffs raw trusted).
Qed.


(** C40: The mirror accepts forged items.  The leaf of an item does not fix the
    width of the event hash, which [leafHash] leaves unchecked: the payload of
    an honest transaction that looks like an index, a length and a rest can be
    presented as a transaction of its own.  Such a file of a signed round
    passes the mirror, with items that no node ordered; the node's own
    verifier refuses it. *)
Theorem mirror_accepts_forged_items start w l1 item l2 j rest :
  Poll.same_wire P G → length start = 32 → Poll.mirrored cfg w → w_items w = l1 ++ item :: l2 →
  item_tx_payload item = u32_be j ++ u32_be (N.of_nat (length rest)) ++ rest → is_u32 j →
  let forged := (item_to_proto <$> l1) ++
    {| Pb.ri_event_hash := item_event_hash item ++ u32_be (item_tx_index item) ++
                           u32_be (N.of_nat (length (item_tx_payload item)));
       Pb.ri_tx_index := j; Pb.ri_tx_payload := rest |} :: (item_to_proto <$> l2) in
  forged ≠ items w ∧
  VerifyRecordFile (G := G) (pb_encode (Protobuf := P) Pb.KRecordFile
    (record_stream_file (P := P) (w_signed w) forged (w_diffs w) start)) (cfg_TrustedRosterHash cfg) = Ok tt ∧
  records_root_from_items (E := StreamError) forged = Ok None.
Proof.
  intros Hwire Hs Hm Hl Hp Hj forged. pose proof (Poll.mir_wf _ _ Hm) as [_ Hi Hpay Hc _].
  rewrite Hl in Hi, Hpay, Hc. pose proof Hi as [Hi1 [[Hil Hix] Hi2]%Forall_cons]%Forall_app.
  split; [|split].
  - unfold forged, items. rewrite Hl, fmap_app, fmap_cons. intros Heq%app_inv_head.
    apply (f_equal (λ l, default 0 (length ∘ Pb.ri_event_hash <$> head l))) in Heq. cbn in Heq. rewrite !length_app in Heq. rewrite !length_be_bytes in Heq. lia.
  - apply Poll.VerifyRecordFile_items; [done|done|done| | |].
    + apply Forall_app_2; [by apply items_fit|]. constructor; [done|by apply items_fit].
    + pose proof (Poll.mir_count _ _ Hm) as Hcount. rewrite Hl in Hcount. unfold forged.
      rewrite length_app in Hcount |- *. simpl in *. by rewrite !length_fmap.
    + rewrite <- (ComputeRecordsRoot_items _ _ (Poll.mir_root _ _ Hm)), Hl, fmap_app, fmap_cons. unfold forged.
      apply forged_root; [done|]. by apply Forall_app in Hpay as [_ [? _]%Forall_cons].
  - unfold records_root_from_items. rewrite (proj2 (mapM_None _ _)); [done|].
    apply Exists_app. right. left. unfold item_from_proto, to_array. rewrite decide_False; [done|]. simpl.
    rewrite !length_app. rewrite !length_be_bytes. lia.
Qed.
End mirror_props.

(** ** Witnesses *)

#[local] Existing Instance toy_sha256.
#[local] Existing Instance toy_ed25519.
#[local] Existing Instance toy_bls.
#[local] Existing Instance toy_keygen.
#[local] Existing Instance toy_go.
#[local] Existing Instance toy_disk.
#[local] Existing Instance toy_protobuf.
#[local] Existing Instance toy_postgres.
#[local] Existing Instance identity_order.


Lemma record_stream_verifies_witness :
  verify_record_stream_dir_rosters (rs_dir demo_state2) [Registry.hash (demo_registry 4)] = Ok tt.
Proof.
  refine (proj2 (proj2 (proj2 (record_stream_verifies [Registry.hash (demo_registry 4)] [demo_first; demo_second]
    demo_state2 demo_reliable demo_record_run)) demo_consecutive _ _)); [discriminate|].
  constructor; [|constructor; [|constructor]]; apply demo_honest;
    [apply demo_first_mirrored|by intros ? ? _|reflexivity|apply demo_second_mirrored|by intros ? ? _|reflexivity].
Defined.

Lemma mirror_follows_node_witness :
  ms_records (store (RunOnce demo_config (rs_dir demo_state2) (NewIngester NewMemStore)).2) =
  stream CHAIN_SEED [demo_first; demo_second].
Proof.
  refine (proj2 (mirror_follows_node toy_protobuf toy_protobuf demo_config identity_order
    [demo_first; demo_second] demo_state2 (NewIngester NewMemStore) demo_wire demo_reliable _
    demo_consecutive demo_chained _)).
  - apply (followed_written _ _ _ [demo_first] demo_state1 _ demo_second
      (record_step (message demo_second) demo_state1).1); [|apply demo_second_wf|apply surjective_pairing].
    apply (followed_written _ _ _ [] demo_state0 _ demo_first
      (record_step (message demo_first) demo_state0).1); [|apply demo_first_wf|apply surjective_pairing].
    by apply (followed_opened _ _ _ identity_order).
  - constructor; [apply demo_first_mirrored|]. constructor; [apply demo_second_mirrored|constructor].
Defined.




Lemma mirror_accepts_forged_items_witness :
  VerifyRecordFile (pb_encode Pb.KRecordFile
    (record_stream_file (w_signed demo_first)
      [{| Pb.ri_event_hash := be_bytes 32 1 ++ u32_be 0 ++ u32_be 12; Pb.ri_tx_index := 7;
          Pb.ri_tx_payload := demo_rest |}] (w_diffs demo_first) CHAIN_SEED))
    (cfg_TrustedRosterHash demo_config) = Ok tt.
Proof.
  exact (proj1 (proj2 (mirror_accepts_forged_items toy_protobuf toy_protobuf demo_config CHAIN_SEED demo_first
    [] (demo_item 1) [] 7 demo_rest demo_wire eq_refl demo_first_mirrored eq_refl eq_refl eq_refl))).
Defined.

